(* ===== verification/_CoqProject ===== *)
-Q . S2P
Prelude.v
Memory.v
Arch.v
Alloc.v
Context.v
Stack.v
Time.v
TimersIntf.v
Binheap.v
RbTree.v
TimersRbtree.v
Waiter.v
Timers.v
TimedWait.v
TimersEquiv.v
Ilock.v
ThrLock.v
Thr.v
WaitersQueue.v
Sem.v
Mutex.v
Cond.v
RunQueue.v
SchedIntf.v
SchedBounded.v
SchedLocking.v
Lists.v
Sched.v
SchedInv.v
SimpleStack.v
SimpleQueue.v
SimplePool.v
SchedThms.v
Init.v
Qsbr.v
QsbrQueue.v
Fiber.v
SocketOp.v
Socket.v
Epoll.v
Kqueue.v
Uring.v
UringSocket.v
UringSys.v
UringWait.v
UringSched.v
UringInit.v
Cpp.v
Echo.v
KeyValue.v
Examples.v
