(* ===== verification/Prelude.v ===== *)
(** * Verification of libfev

    libfev is a C library of fibers: light-weight threads that are scheduled by
    a fixed number of worker threads, block on sockets, timers, semaphores,
    mutexes and condition variables, and are woken up by each other, by expired
    timers and by events of the kernel. This library models its C sources and
    proves what its components rely on from each other.

    ** The program and its models

    A fiber that blocks prepares a _waiter_, puts it where a waker will find it
    (a waiters queue, the end of a socket, a timer) and switches to its worker;
    whoever wakes it up sets a reason, and exactly one waker puts the fiber back
    into the run queue of a worker. Everything else is built on this.

    - Machine integers, checked arrays, reachability: this file. [Memory]:
      byte memory with loads and stores of little-endian words. [Arch]: the
      double-word compare-and-exchange of [fev_arch_x86.h] on this memory.
    - [Alloc]: [fev_alloc.*], the heap and aligned blocks. [Stack]: attributes
      ([fev_fiber_attr.*], [fev_sched_attr.*]), the stack of a fiber with its
      guard ([fev_stack_posix.c]) and its first context.
    - [Context]: the context switch, the assembly of both architectures as
      lists of instructions run on a machine with registers and memory, and
      [fev_context_init].
    - [Lists]: the linked lists of [queue.h] on a memory with pointers, and the
      splices of the schedulers; the other files use Rocq lists.
    - [Time]: [fev_time.h], comparison and arithmetic of deadlines.
    - [TimersIntf]: the interface between [fev_timers.c] and its two containers
      ([TimersBucketOps] the operations, [TimersBucket] what they promise).
      [Binheap] implements it as [fev_timers_binheap.*] does, with an array and
      indices kept in the timers; [RbTree] and [TimersRbtree] as
      [fev_timers_rbtree.*] does on the red-black trees of [tree.h].
    - [Waiter]: [fev_waiter_intf.h], [fev_waiter_impl.h]; functions, and a step
      system of the fiber, its post operation and wakers, one step per access.
    - [Timers], [TimedWait]: [fev_timers.c] against [TimersBucket]; first the
      functions as critical sections, then [fev_timed_wait] interleaved with
      other fibers, wakers and the poller. [TimersEquiv] compares containers.
    - [Ilock]: [fev_ilock.*], the lock that blocks fibers, as a step system.
    - [ThrLock]: the futex mutex and the spin lock, refinements of one lock.
      [Thr]: threads, thread semaphores and mutexes of the operating systems,
      with the interface [ThrSem] of a semaphore.
    - [WaitersQueue], [Sem], [Mutex], [Cond]: [fev_waiters_queue_*],
      [fev_sem.*], [fev_mutex*], [fev_cond*]; step systems whose steps are
      critical sections or single accesses where the code is lock-free.
    - [RunQueue]: the bounded lock-free queues and an interface for run queues.
      [SimpleStack], [SimpleQueue], [SimplePool]: the unbounded lock-free queue
      and its memory pool ([fev_simple_mpmc_*]), interleaved.
    - [SchedIntf], [SchedBounded], [SchedLocking], [SimplePool]: the six
      schedulers as instances of [SchedQueue] (operations) and
      [SchedQueueSpec] (no fiber lost or duplicated); [Sched] the work loop, the
      wake-up functions and what fibers do to the scheduler, as a step system
      over [SchedQueue]; [SchedInv] its invariant; [SchedThms] the theorems.
    - [Init]: creation and destruction with all error paths, as programs over
      the multiset of held resources.
    - [Fiber]: [fev_fiber.c], creation, exit, join and detach.
    - [Qsbr]: [fev_qsbr.h], [fev_poller_reactor.c], reclamation of sockets.
      [QsbrQueue]: [fev_qsbr_queue.h], a lock-free queue, interleaved.
    - [SocketOp], [Socket]: [fev_socket_reactor.c] and [fev_poller_epoll.c];
      the blocking operations interleaved with event handlers, and the
      operations, registration and event batches one at a time. [Epoll]:
      the timer and event descriptors of [fev_poller_epoll.c] with the kernel.
      [Kqueue]: [fev_poller_kqueue.c] on the table of events the kernel keeps.
    - [Uring], [UringSocket], [UringSys], [UringWait], [UringInit]: the io_uring
      back end, [fev_poller_io_uring.*] and [fev_socket_io_uring.*]; the rings
      with the kernel's side of them, requests of many fibers interleaved with
      workers and the kernel, sleeping and interrupting, creation, and the
      functions on sockets. [UringSched]: the work loops and wake-up functions
      of the six schedulers as they are compiled for io_uring, where every
      worker has a poller of its own, with the interrupts of [UringWait].
    - [Cpp]: the C++ interface [fev++.hpp]: results and exceptions, durations,
      and its classes as state machines over the objects that exist.
    - The programs of [src/examples]. [Echo]: the echo servers in C and C++, on
      the sockets of [Socket], the acceptor interleaved with the connections.
      [KeyValue]: the key-value server. [Examples]: the Fibonacci and the
      condition-variable program, fibers in every interleaving.

    ** Conventions

    A function that may fail an assertion, dereference an invalid pointer or
    access an array out of bounds returns [option]; [None] is undefined
    behaviour. Error codes are values. Memory is sequentially consistent: the
    weaker orderings of the C11 accesses are not modelled. Unsigned arithmetic
    wraps explicitly. What the kernel or an allocator answers is an argument or
    a step of the environment, so the theorems hold for every answer. A step
    system is a function from a label to the next state; [reach] is the
    reflexive transitive closure and invariants are proved by induction on it.

    ** What the theorems show

    - Scheduler ([SchedThms]): fibers are in exactly one place, assertions hold,
      and workers only sleep when no fiber is runnable and somebody watches the
      poller; they stop together when all fibers have ended. This holds for all
      six schedulers through [SchedQueueSpec], in every interleaving.
    - Waiting ([Waiter], [TimedWait], [SocketOp], [Ilock], [ThrLock]): no
      wake-up is lost or doubled, no waiter or timer is accessed after its
      fiber returned, locks exclude and never forget a sleeper.
    - Synchronisation ([Sem], [Mutex], [Cond], [WaitersQueue], [Fiber]):
      permits are conserved, mutual exclusion, ownership after a timed wait,
      FIFO wake-up, safe and terminating join and detach.
    - Below the fibers ([Context], [Stack], [Alloc], [Lists]): switching to a
      fiber and back restores everything a callee preserves; a new fiber starts
      on an aligned stack with a guard; aligned blocks are aligned and given
      back; pointer lists implement the lists of the models.
    - Timers ([Binheap], [RbTree], [TimersRbtree], [Timers], [TimersEquiv]):
      both containers are correct, trees stay balanced, exactly the expired
      timers fire, in order, the poller is always armed with the earliest
      deadline, and clients cannot tell the two containers apart.
    - io_uring ([UringSys], [UringWait], [UringSched]): requests are safe and
      return their own result as long as io_uring_enter does not fail, sleeping
      workers can be interrupted once announced, and when nothing can happen
      but the completion of a request no fiber is runnable; the files also show
      what goes wrong otherwise, among it a run that never returns because an
      interrupt was lost. [Kqueue]: the kqueue and the epoll poller have the same effect.
    - Data structures ([RunQueue], [SimpleStack], [SimpleQueue], [SimplePool],
      [Qsbr], [QsbrQueue]): FIFO behaviour with wrapping counters,
      linearizability of the stack and of the reclamation queue, what the queue with reused nodes does and does not guarantee,
      reclamation after a grace period, no leak.
    - Creation and errors ([Init], [Fiber], [Socket], [Time]): every failure
      path releases exactly what was taken; results of socket operations;
      saturation of time conversion. [Cpp]: objects of the C++ interface own
      and release what they hold exactly once.
    - Examples ([Echo], [KeyValue], [Examples]): the echo server gives back its
      sockets and descriptors on every path but one, connections get back what
      they sent; the key-value server answers as a map; the fibers of the other
      two programs end with the right result in every order.

    ** Bounds and fuel

    Loops over data recurse on the data. The loop of
    [fev_timers_wake_expired] has as much fuel as the store has timers, plus
    one, and is proved to end before; the heap loops have the length of the
    heap; the walks over linked lists have the number of cells of the memory; the uninterleaved operations of [SimplePool] have fuel 12, more than
    the accesses one operation makes without interference. Counters with a wide
    compare-and-swap are assumed not to wrap around within one operation
    (fewer than 2^64 exchanges). The heap theorems assume fewer than
    [SIZE_MAX / 16] timers, beyond which the array cannot be allocated. The
    Fibonacci program is correct up to 46, beyond which an [int] overflows; the
    states of the condition-variable program are enumerated by a search with
    fuel 2000 whose result is checked to be closed under steps.

    ** Not modelled

    Annotations for the address sanitizer, wrappers that only pass a call on to
    the operating system (the mutex of Windows), attributes of the compiler,
    headers that only declare, the macros of [tree.h] and [queue.h] the library
    does not use, the tests, and [connect++.cpp], which only makes calls one
    after the other. Memory orderings
    weaker than sequential consistency are not modelled.
    Termination under a fair scheduler is not stated for the step systems as a
    whole; liveness theorems say that a blocked participant has somebody
    responsible for it. *)

(** Shared vocabulary of the development: machine integers, error numbers,
    C arrays with checked accesses, list lemmas, reachability of step systems,
    and the tactics the component files use. *)

From stdpp Require Export base gmap list fin_maps.
From Stdlib Require Export ZArith Lia.

Global Set Default Proof Using "Type".

(** ** Machine integers

    C integers are [Z]; unsigned arithmetic is written out with [u32] and
    [u64], the conversion to a signed 32-bit type with [i32]. *)

Definition u32 (z : Z) : Z := z mod 2 ^ 32.
Definition u64 (z : Z) : Z := z mod 2 ^ 64.
Definition i32 (z : Z) : Z :=
  let r := u32 z in if (r <? 2 ^ 31)%Z then r else (r - 2 ^ 32)%Z.

Definition UINT32_MAX : Z := 2 ^ 32 - 1.
Definition UINT64_MAX : Z := 2 ^ 64 - 1.
Definition SIZE_MAX : Z := 2 ^ 64 - 1.
Definition INT32_MAX : Z := 2 ^ 31 - 1.
Definition LONG_MAX : Z := 2 ^ 63 - 1.

(** ** Error numbers (Linux values) *)

Definition EAGAIN : Z := 11.
Definition ENOMEM : Z := 12.
Definition EINVAL : Z := 22.
Definition EBUSY : Z := 16.
Definition ECONNRESET : Z := 104.
Definition ETIMEDOUT : Z := 110.
Definition EINPROGRESS : Z := 115.
Definition ECANCELED : Z := 125.

(** ** Pointers *)

Abbreviation loc := positive.

(** ** Undefined behaviour

    A computation that dereferences an invalid pointer, reads outside an
    array or fails a [FEV_ASSERT] has the value [None]; everything else is
    [Some]. A theorem that an operation returns [Some] therefore contains its
    memory safety and the validity of its assertions. *)

Declare Scope fev_scope.
Delimit Scope fev_scope with fev.
Notation "'FEV_ASSERT' b ; k" := (if (b : bool) then k else None)
  (at level 100, b at level 99, k at level 200, right associativity) : fev_scope.
Open Scope fev_scope.

(** ** C arrays *)

Section arrays.
Context {A : Type}.
Implicit Types (l : list A) (i : Z) (x : A).

(** [l[i]]. *)
Definition arr_get l i : option A :=
  if (0 <=? i)%Z then l !! Z.to_nat i else None.

(** [l[i] = x]. *)
Definition arr_set l i x : option (list A) :=
  if ((0 <=? i) && (i <? Z.of_nat (length l)))%Z
  then Some (<[Z.to_nat i := x]> l) else None.

Lemma arr_get_Some l i x :
  arr_get l i = Some x ↔ (0 ≤ i)%Z ∧ l !! Z.to_nat i = Some x.
Proof. unfold arr_get. destruct (Z.leb_spec 0 i); split; intros H'; (done || lia || naive_solver). Qed.

Lemma arr_get_lt l i x : arr_get l i = Some x → (0 ≤ i < Z.of_nat (length l))%Z.
Proof. intros [Hi Hl]%arr_get_Some. apply lookup_lt_Some in Hl. lia. Qed.

Lemma arr_get_is_Some l i :
  (0 ≤ i < Z.of_nat (length l))%Z → is_Some (arr_get l i).
Proof.
  intros Hi. unfold arr_get. rewrite (proj2 (Z.leb_le 0 i)) by lia.
  apply lookup_lt_is_Some. lia.
Qed.

Lemma arr_set_eq l i x :
  (0 ≤ i < Z.of_nat (length l))%Z → arr_set l i x = Some (<[Z.to_nat i := x]> l).
Proof.
  intros Hi. unfold arr_set.
  rewrite (proj2 (Z.leb_le 0 i)), (proj2 (Z.ltb_lt i _)) by lia. done.
Qed.

Lemma arr_get_insert l i j x :
  (0 ≤ i < Z.of_nat (length l))%Z →
  arr_get (<[Z.to_nat i := x]> l) j = if decide (i = j) then Some x else arr_get l j.
Proof.
  intros Hi. unfold arr_get. destruct (Z.leb_spec 0 j); [|case_decide; [lia|done]].
  case_decide as E.
  - subst j. apply list_lookup_insert_eq. lia.
  - apply list_lookup_insert_ne. lia.
Qed.

Lemma arr_get_take l n i :
  arr_get (take (Z.to_nat n) l) i = if (i <? n)%Z then arr_get l i else None.
Proof.
  unfold arr_get. destruct (Z.leb_spec 0 i); [|by destruct (i <? n)%Z].
  destruct (Z.ltb_spec i n).
  - rewrite lookup_take_lt by lia. done.
  - apply lookup_take_ge. lia.
Qed.

Lemma arr_get_app_l l l' i :
  (i < Z.of_nat (length l))%Z → arr_get (l ++ l') i = arr_get l i.
Proof.
  intros Hi. unfold arr_get. destruct (Z.leb_spec 0 i); [|done].
  apply lookup_app_l. lia.
Qed.

Lemma arr_get_app_last l x : arr_get (l ++ [x]) (Z.of_nat (length l)) = Some x.
Proof. apply arr_get_Some. rewrite Nat2Z.id, list_lookup_middle by done. split; [lia|done]. Qed.

Lemma arr_get_elem_of l i x : arr_get l i = Some x → x ∈ l.
Proof. intros [? ?]%arr_get_Some. apply list_elem_of_lookup. eauto. Qed.

Lemma elem_of_arr_get l x :
  x ∈ l → ∃ i, (0 ≤ i < Z.of_nat (length l))%Z ∧ arr_get l i = Some x.
Proof.
  intros [k Hk]%list_elem_of_lookup. exists (Z.of_nat k).
  pose proof (lookup_lt_Some _ _ _ Hk). split; [lia|].
  apply arr_get_Some. rewrite Nat2Z.id. split; [lia|done].
Qed.

(** Exchanging two cells permutes the array. *)
Lemma insert_swap_perm l (i j : nat) x y :
  i ≠ j → l !! i = Some x → l !! j = Some y →
  <[j := x]> (<[i := y]> l) ≡ₚ l.
Proof.
  intros Hij Hi Hj.
  assert (∃ f, Inj (=) (=) f ∧ ∀ k, <[j := x]> (<[i := y]> l) !! k = l !! f k)
    as (f & Hf & Hk).
  { exists (λ k, if decide (k = j) then i else if decide (k = i) then j else k).
    pose proof (lookup_lt_Some _ _ _ Hi). pose proof (lookup_lt_Some _ _ _ Hj).
    split.
    - intros a b. repeat case_decide; lia.
    - intros k. rewrite !list_lookup_insert, length_insert.
      repeat case_decide; try (exfalso; lia); subst; try congruence; by rewrite ?Hi, ?Hj. }
  apply Permutation_inj. split; [by rewrite !length_insert|]. eauto.
Qed.

(** Overwriting a cell replaces its old content in the multiset. *)
Lemma insert_perm_cons l (i : nat) x y :
  l !! i = Some x → y :: l ≡ₚ x :: <[i := y]> l.
Proof.
  intros Hi. rewrite insert_take_drop by (by eapply lookup_lt_Some).
  rewrite <- (take_drop_middle l i x Hi) at 1.
  rewrite <- !Permutation_middle. constructor.
Qed.
End arrays.

(** ** Step systems

    A step system is a partial function from states and labels to states; a
    label says which thread moves and resolves what the environment chooses.
    [reach] is its reachability relation, [run] executes a schedule. *)

Section systems.
Context {S L : Type} (step : S → L → option S).

Inductive reach (s0 : S) : S → Prop :=
| reach_refl : reach s0 s0
| reach_step s l s' : reach s0 s → step s l = Some s' → reach s0 s'.

Fixpoint run (s : S) (ls : list L) : option S :=
  match ls with
  | [] => Some s
  | l :: ls => s' ← step s l; run s' ls
  end.

Lemma reach_invariant (I : S → Prop) s0 :
  I s0 → (∀ s l s', I s → step s l = Some s' → I s') → ∀ s, reach s0 s → I s.
Proof. intros H0 Hs s Hr. induction Hr; eauto. Qed.

Lemma run_reach s0 s ls s' : reach s0 s → run s ls = Some s' → reach s0 s'.
Proof.
  revert s. induction ls as [|l ls IH]; intros s Hr Hrun; simpl in Hrun.
  - by simplify_eq.
  - destruct (step s l) as [s1|] eqn:Hl; simpl in Hrun; [|done].
    eapply IH; [|done]. by eapply reach_step.
Qed.

Lemma run_app s ls1 ls2 : run s (ls1 ++ ls2) = s' ← run s ls1; run s' ls2.
Proof.
  revert s. induction ls1 as [|l ls1 IH]; intros s; simpl; [done|].
  destruct (step s l); simpl; [apply IH|done].
Qed.
End systems.

(** Pointwise update of a total map (per-thread local states). *)
Definition upd {A B} `{EqDecision A} (f : A → B) (a : A) (b : B) : A → B :=
  λ x, if decide (a = x) then b else f x.

Lemma upd_eq {A B} `{EqDecision A} (f : A → B) a b : upd f a b a = b.
Proof. unfold upd. by rewrite decide_True. Qed.
Lemma upd_ne {A B} `{EqDecision A} (f : A → B) a b x : a ≠ x → upd f a b x = f x.
Proof. intros. unfold upd. by rewrite decide_False. Qed.

Create HintDb fev.
Create Rewrite HintDb fev.
#[export] Hint Resolve arr_get_elem_of : fev.
#[export] Hint Rewrite @upd_eq @length_insert @length_app @length_take @length_drop : fev.

(** ** Tactics *)

(** Splits every bind, [match] and [if] of a monadic hypothesis [H : _ = Some _]. *)
Ltac inv_opt H :=
  repeat first
    [ discriminate H
    | match type of H with
      | mbind _ ?e = Some _ => let E := fresh "E" in destruct e eqn:E; simpl in H
      | (if ?b then _ else _) = Some _ => let E := fresh "E" in destruct b eqn:E
      | (match ?e with _ => _ end) = Some _ => let E := fresh "E" in destruct e eqn:E
      end ].

(** Turns boolean comparisons on [Z] in the context into propositions. *)
Ltac Zbool :=
  repeat match goal with
    | H : (_ && _)%bool = true |- _ => apply andb_true_iff in H as [? ?]
    | H : (_ =? _)%Z = true |- _ => apply Z.eqb_eq in H
    | H : (_ =? _)%Z = false |- _ => apply Z.eqb_neq in H
    | H : (_ <? _)%Z = true |- _ => apply Z.ltb_lt in H
    | H : (_ <? _)%Z = false |- _ => apply Z.ltb_ge in H
    | H : (_ <=? _)%Z = true |- _ => apply Z.leb_le in H
    | H : (_ <=? _)%Z = false |- _ => apply Z.leb_gt in H
    end.

(** ** Wrap-around *)

Lemma u32_small z : (0 ≤ z < 2 ^ 32)%Z → u32 z = z.
Proof. apply Z.mod_small. Qed.
Lemma u64_small z : (0 ≤ z < 2 ^ 64)%Z → u64 z = z.
Proof. apply Z.mod_small. Qed.
Lemma u64_over z : (2 ^ 64 ≤ z < 2 * 2 ^ 64)%Z → u64 z = (z - 2 ^ 64)%Z.
Proof. intros. unfold u64. symmetry. apply Z.mod_unique_pos with 1%Z; lia. Qed.
Lemma u32_range z : (0 ≤ u32 z < 2 ^ 32)%Z.
Proof. apply Z.mod_pos_bound. lia. Qed.
Lemma u64_range z : (0 ≤ u64 z < 2 ^ 64)%Z.
Proof. apply Z.mod_pos_bound. lia. Qed.
#[export] Hint Resolve u32_range u64_range : fev.
