(* ===== verification/Memory.v ===== *)
(** Byte-addressed memory, for the components that write words through raw pointers: the
    context switch and the aligned allocator. A word is stored in little-endian order, as
    the x86 family does; an access to a byte that is not mapped is undefined. *)

From S2P Require Import Prelude.

Local Open Scope Z_scope.

(** Bytes by address. *)
Abbreviation mem := (gmap Z Z).

(** Read and write [n] bytes at [a]. *)
Fixpoint load (n : nat) (m : mem) (a : Z) : option Z :=
  match n with
  | O => Some 0
  | S n => b ← m !! a; r ← load n m (a + 1); Some (b + 256 * r)
  end.

Fixpoint store (n : nat) (m : mem) (a v : Z) : option mem :=
  match n with
  | O => Some m
  | S n => _ ← m !! a; store n (<[a := v mod 256]> m) (a + 1) (v / 256)
  end.

(** Everything in [a, a + n) may be accessed. *)
Definition mapped (m : mem) (a n : Z) : Prop := ∀ x, a ≤ x < a + n → is_Some (m !! x).

(** [m1] and [m2] agree on [a, a + n), or outside of it. *)
Definition agree_on (a n : Z) (m1 m2 : mem) : Prop := ∀ x, a ≤ x < a + n → m1 !! x = m2 !! x.
Definition agree_off (a n : Z) (m1 m2 : mem) : Prop := ∀ x, ¬ (a ≤ x < a + n) → m1 !! x = m2 !! x.

Definition disjoint_from (a n b k : Z) : Prop := a + n ≤ b ∨ b + k ≤ a.

Lemma mapped_sub m a n b k : mapped m a n → a ≤ b → b + k ≤ a + n → mapped m b k.
Proof. intros H H1 H2 x Hx. apply H. lia. Qed.

Lemma agree_on_sub a n b k m1 m2 : agree_on a n m1 m2 → a ≤ b → b + k ≤ a + n → agree_on b k m1 m2.
Proof. intros H H1 H2 x Hx. apply H. lia. Qed.

Lemma agree_off_on a n b k m1 m2 : agree_off a n m1 m2 → disjoint_from a n b k → agree_on b k m1 m2.
Proof. intros H Hd x Hx. apply H. destruct Hd; lia. Qed.

Lemma agree_on_trans a n m1 m2 m3 : agree_on a n m1 m2 → agree_on a n m2 m3 → agree_on a n m1 m3.
Proof. intros H1 H2 x Hx. by rewrite H1, H2. Qed.

Lemma agree_on_refl a n m : agree_on a n m m.
Proof. by intros x Hx. Qed.

Lemma agree_on_sym a n m1 m2 : agree_on a n m1 m2 → agree_on a n m2 m1.
Proof. intros H x Hx. by rewrite H. Qed.

Lemma agree_off_sub a n b k m1 m2 : agree_off b k m1 m2 → a ≤ b → b + k ≤ a + n → agree_off a n m1 m2.
Proof. intros H H1 H2 x Hx. apply H. lia. Qed.

Lemma agree_off_trans a n m1 m2 m3 : agree_off a n m1 m2 → agree_off a n m2 m3 → agree_off a n m1 m3.
Proof. intros H1 H2 x Hx. by rewrite H1, H2. Qed.

Lemma agree_mapped a n m1 m2 : agree_on a n m1 m2 → mapped m1 a n → mapped m2 a n.
Proof. intros H Hm x Hx. rewrite <- (H x Hx). by apply Hm. Qed.

Lemma load_agree n : ∀ m1 m2 a, agree_on a (Z.of_nat n) m1 m2 → load n m1 a = load n m2 a.
Proof.
  induction n as [|n IH]; intros m1 m2 a H; [done|]. cbn [load]. rewrite (H a) by lia.
  rewrite (IH m1 m2 (a + 1)); [done|]. eapply agree_on_sub; [done|lia..].
Qed.

(** A store succeeds where the memory is mapped, and changes nothing but its bytes. *)
Lemma store_ok n : ∀ m a v, mapped m a (Z.of_nat n) →
  ∃ m', store n m a v = Some m' ∧ load n m' a = Some (v mod 2 ^ (8 * Z.of_nat n)) ∧
        agree_off a (Z.of_nat n) m m' ∧ dom m' = dom m.
Proof.
  induction n as [|n IH]; intros m a v Hm.
  { exists m. split_and!; [done| |by intros x Hx|done]. cbn. by rewrite Z.mod_1_r. }
  cbn [store]. destruct (Hm a) as [b Hb]; [lia|]. rewrite Hb. cbn [mbind option_bind].
  destruct (IH (<[a := v mod 256]> m) (a + 1) (v / 256)) as (m' & E & Hl & Ho & Hd).
  { intros x Hx. rewrite lookup_insert_ne by lia. apply Hm. lia. }
  exists m'. split; [done|]. split_and!.
  - cbn [load]. rewrite <- (Ho a) by lia. rewrite lookup_insert_eq. cbn [mbind option_bind]. rewrite Hl. cbn [mbind option_bind].
    f_equal. replace (8 * Z.of_nat (S n)) with (8 + 8 * Z.of_nat n) by lia. rewrite Z.pow_add_r by lia.
    change (2 ^ 8) with 256. rewrite Z.rem_mul_r by lia. done.
  - intros x Hx. rewrite <- (Ho x) by lia. by rewrite lookup_insert_ne by lia.
  - rewrite Hd, dom_insert_L. apply elem_of_dom_2 in Hb. set_solver.
Qed.

Lemma load_is_Some n : ∀ m a, mapped m a (Z.of_nat n) → is_Some (load n m a).
Proof.
  induction n as [|n IH]; intros m a Hm; [by eexists|]. cbn [load]. destruct (Hm a) as [b ->]; [lia|]. cbn [mbind option_bind].
  destruct (IH m (a + 1)) as [r ->]; [eapply mapped_sub; [done|lia..]|]. by eexists.
Qed.

Lemma dom_mapped m m' a n : dom m' = dom m → mapped m a n → mapped m' a n.
Proof. intros Hd Hm x Hx. apply elem_of_dom. rewrite Hd. apply elem_of_dom. by apply Hm. Qed.

(** ** Structures

    A structure at [a] is a list of fields, each an offset and a size, in ascending order. *)

Fixpoint store_fields (m : mem) (a : Z) (fs : list (Z * nat)) (vs : list Z) : option mem :=
  match fs, vs with
  | (off, n) :: fs, v :: vs => m ← store n m (a + off) v; store_fields m a fs vs
  | _, _ => Some m
  end.

Definition load_fields (m : mem) (a : Z) (fs : list (Z * nat)) : option (list Z) :=
  mapM (λ f, load f.2 m (a + f.1)) fs.

(** The fields lie in [lo, hi) without overlap. *)
Fixpoint layout (lo hi : Z) (fs : list (Z * nat)) : Prop :=
  match fs with
  | [] => lo ≤ hi
  | (off, n) :: fs => lo ≤ off ∧ layout (off + Z.of_nat n) hi fs
  end.

Lemma layout_le lo hi fs : layout lo hi fs → lo ≤ hi.
Proof. revert lo. induction fs as [|[off n] fs IH]; intros lo; simpl; [done|]. intros [H1 H2%IH]. lia. Qed.

Lemma load_fields_agree m1 m2 a lo hi fs :
  layout lo hi fs → agree_on (a + lo) (hi - lo) m1 m2 → load_fields m1 a fs = load_fields m2 a fs.
Proof.
  unfold load_fields. revert lo. induction fs as [|[off n] fs IH]; intros lo Hl Ha; [done|]. cbn [layout] in Hl. destruct Hl as [H1 H2].
  cbn [mapM]. pose proof (layout_le _ _ _ H2). simpl. rewrite (load_agree n m1 m2) by (eapply agree_on_sub; [done|lia..]).
  rewrite (IH (off + Z.of_nat n)); [done|done|]. eapply agree_on_sub; [done|lia..].
Qed.

Definition wrap_fields (fs : list (Z * nat)) (vs : list Z) : list Z :=
  zip_with (λ f v, v mod 2 ^ (8 * Z.of_nat f.2)) fs vs.

Lemma store_fields_ok fs : ∀ m a lo hi vs,
  layout lo hi fs → mapped m (a + lo) (hi - lo) → length vs = length fs →
  ∃ m', store_fields m a fs vs = Some m' ∧ load_fields m' a fs = Some (wrap_fields fs vs) ∧
        agree_off (a + lo) (hi - lo) m m' ∧ dom m' = dom m.
Proof.
  induction fs as [|[off n] fs IH]; intros m a lo hi vs Hl Hm Hv.
  { destruct vs; [|done]. exists m. split_and!; [done|done|by intros x Hx|done]. }
  destruct vs as [|v vs]; [done|]. cbn [layout] in Hl. destruct Hl as [H1 H2]. pose proof (layout_le _ _ _ H2).
  cbn [store_fields]. destruct (store_ok n m (a + off) v) as (m1 & E1 & L1 & O1 & D1); [eapply mapped_sub; [done|lia..]|].
  rewrite E1. cbn [mbind option_bind].
  destruct (IH m1 a (off + Z.of_nat n) hi vs H2) as (m2 & E2 & L2 & O2 & D2); [|by simplify_eq/=|].
  { eapply dom_mapped; [done|]. eapply mapped_sub; [done|lia..]. }
  exists m2. split; [done|]. split_and!.
  - unfold load_fields. cbn [mapM fst snd]. rewrite <- (load_agree n m1 m2) by (eapply agree_off_on; [done|unfold disjoint_from; lia]).
    rewrite L1. cbn [mbind option_bind]. fold (load_fields m2 a fs). by rewrite L2.
  - eapply agree_off_trans; [eapply agree_off_sub; [done|lia..]|eapply agree_off_sub; [done|lia..]].
  - congruence.
Qed.

(** Values that fit into their fields come back as they were. *)
Definition fits (fs : list (Z * nat)) (vs : list Z) : Prop := Forall2 (λ f v, 0 ≤ v < 2 ^ (8 * Z.of_nat f.2)) fs vs.

Lemma wrap_fields_fits fs vs : fits fs vs → wrap_fields fs vs = vs.
Proof. induction 1; cbn; [done|]. f_equal; [by apply Z.mod_small|done]. Qed.

(** [memset(a, 0, n)]. *)
Fixpoint zero (m : mem) (a : Z) (n : nat) : option mem :=
  match n with O => Some m | S n => _ ← m !! a; zero (<[a := 0]> m) (a + 1) n end.

Lemma zero_ok n : ∀ m a, mapped m a (Z.of_nat n) →
  ∃ m', zero m a n = Some m' ∧ (∀ x, a ≤ x < a + Z.of_nat n → m' !! x = Some 0) ∧
        agree_off a (Z.of_nat n) m m' ∧ dom m' = dom m.
Proof.
  induction n as [|n IH]; intros m a Hm.
  { exists m. split_and!; [done|lia|by intros x Hx|done]. }
  cbn [zero]. destruct (Hm a) as [b Hb]; [lia|]. rewrite Hb. cbn [mbind option_bind].
  destruct (IH (<[a := 0]> m) (a + 1)) as (m' & E & Hz & Ho & Hd).
  { intros x Hx. rewrite lookup_insert_ne by lia. apply Hm. lia. }
  exists m'. split; [done|]. split_and!.
  - intros x Hx. destruct (decide (x = a)) as [->|]; [|apply Hz; lia]. rewrite <- (Ho a) by lia. apply lookup_insert_eq.
  - intros x Hx. rewrite <- (Ho x) by lia. by rewrite lookup_insert_ne by lia.
  - rewrite Hd, dom_insert_L. apply elem_of_dom_2 in Hb. set_solver.
Qed.

Lemma load_zero n : ∀ m a, (∀ x, a ≤ x < a + Z.of_nat n → m !! x = Some 0) → load n m a = Some 0.
Proof.
  induction n as [|n IH]; intros m a Hz; [done|]. cbn [load]. rewrite Hz by lia. cbn [mbind option_bind].
  rewrite (IH m (a + 1)); [done|]. intros x Hx. apply Hz. lia.
Qed.
