(* ===== verification/Arch.v ===== *)
(** The double-word compare-and-exchange of [src/src/fev_arch_x86.h] and the pointer arithmetic of [src/src/fev_util.h].

    The lock-free stack and queue of the library keep a pointer and a counter next to each other and change them with one
    instruction; the files [SimpleStack] and [SimpleQueue] use a step that compares and sets both. Here is the instruction itself, on a
    byte memory, for both architectures. *)

From S2P Require Import Prelude Memory.

Local Open Scope Z_scope.

Section cmpxchg2.
(** The size of a pointer: 8 for cmpxchg16b, 4 for cmpxchg8b. *)
Context (w : nat).
Let W : Z := Z.of_nat w.

(** The result in [fev_exchanged], the memory, and the new values of [*expected0] and [*expected1]: the instruction compares the two
    words with rax and rdx and either stores rbx and rcx or loads the words into rax and rdx. The assertion on the address is checked
    first. *)
Definition fev_cmpxchg2 (m : mem) (ptr expected0 expected1 desired0 desired1 : Z) : option (bool * mem * (Z * Z)) :=
  FEV_ASSERT (ptr mod (2 * W) =? 0);
  v0 ← load w m ptr;
  v1 ← load w m (ptr + W);
  if (v0 =? expected0) && (v1 =? expected1) then
    m ← store w m ptr desired0;
    m ← store w m (ptr + W) desired1;
    Some (true, m, (expected0, expected1))
  else Some (false, m, (v0, v1)).

(** The pair at an address. *)
Definition pair_at (m : mem) (ptr : Z) (p : Z * Z) : Prop := load w m ptr = Some p.1 ∧ load w m (ptr + W) = Some p.2.

(** A machine word. *)
Definition word (v : Z) : Prop := 0 <= v < 2 ^ (8 * W).

(** Compare-and-set on a pair. *)
Definition cas_pair (v expected desired : Z * Z) : bool * (Z * Z) := if decide (v = expected) then (true, desired) else (false, v).

(** The instruction implements compare-and-set on the pair: it compares and replaces both words at once, leaves the rest of the memory
    alone, and on failure gives back the pair it found. *)
Theorem cmpxchg2_refines m ptr v e d :
  ptr mod (2 * W) = 0 → mapped m ptr (2 * W) → pair_at m ptr v → word d.1 → word d.2 →
  ∃ b m' e', fev_cmpxchg2 m ptr e.1 e.2 d.1 d.2 = Some (b, m', e') ∧
    (b, if b then d else v) = cas_pair v e d ∧ pair_at m' ptr (if b then d else v) ∧ agree_off ptr (2 * W) m m' ∧
    e' = if b then e else v.
Proof.
  intros Ha Hm [H0 H1] Hd0 Hd1. unfold fev_cmpxchg2, cas_pair. destruct v as [v0 v1], e as [e0 e1], d as [d0 d1]. cbn [fst snd] in *.
  rewrite (proj2 (Z.eqb_eq _ _) Ha), H0. cbn [mbind option_bind]. rewrite H1. cbn [mbind option_bind].
  destruct (decide ((v0, v1) = (e0, e1))) as [[= -> ->]|Hne].
  - rewrite !Z.eqb_refl. cbn [andb].
    destruct (store_ok w m ptr d0) as (m1 & -> & L1 & O1 & D1); [eapply mapped_sub; [exact Hm|unfold W; lia..]|]. cbn [mbind option_bind].
    destruct (store_ok w m1 (ptr + W) d1) as (m2 & -> & L2 & O2 & D2).
    { eapply dom_mapped; [exact D1|]. eapply mapped_sub; [exact Hm|unfold W; lia..]. }
    cbn [mbind option_bind]. exists true, m2, (e0, e1). split; [done|]. split; [done|]. unfold word in *. split_and!; [| |done].
    + split; cbn [fst snd].
      * rewrite <- (load_agree w m1 m2); [rewrite L1; f_equal; apply Z.mod_small; unfold W in *; lia|].
        eapply agree_off_on; [exact O2|]. unfold disjoint_from, W. lia.
      * rewrite L2. f_equal. apply Z.mod_small. unfold W in *. lia.
    + eapply agree_off_trans; (eapply agree_off_sub; [eassumption|unfold W; lia..]).
  - assert (E : (v0 =? e0) && (v1 =? e1) = false).
    { destruct (Z.eqb_spec v0 e0), (Z.eqb_spec v1 e1); try done. by subst. }
    rewrite E. exists false, m, (v0, v1). split; [done|]. split; [done|]. split_and!; [done|by intros x _|done].
Qed.
End cmpxchg2.

(** [FEV_CONTAINER_OF]: from the address of a member to the address of the structure; [offset]: of the member. *)
Definition FEV_CONTAINER_OF (ptr offset : Z) : Z := u64 (ptr - offset).

Lemma container_of_member a offset : 0 <= a < 2 ^ 64 → FEV_CONTAINER_OF (u64 (a + offset)) offset = a.
Proof.
  intros Ha. unfold FEV_CONTAINER_OF, u64. rewrite Zminus_mod_idemp_l. replace (a + offset - offset) with a by lia. by apply Z.mod_small.
Qed.

Definition ex_mem : mem := list_to_map ((λ i, (Z.of_nat i, 0)) <$> seq 0 32).

Lemma cmpxchg2_refines_witness :
  ∃ b m' e', fev_cmpxchg2 8 ex_mem 16 0 0 5 7 = Some (b, m', e') ∧ pair_at 8 m' 16 (if b then (5, 7) else (0, 0)).
Proof.
  destruct (cmpxchg2_refines 8 ex_mem 16 (0, 0) (0, 0) (5, 7)) as (b & m' & e' & E & _ & Hp & _).
  - reflexivity.
  - intros x Hx. change (2 * Z.of_nat 8) with 16 in Hx. assert (Hb : forallb (λ i, bool_decide (is_Some (ex_mem !! Z.of_nat i))) (seq 16 16) = true) by (vm_compute; reflexivity).
    rewrite forallb_forall in Hb. specialize (Hb (Z.to_nat x)). rewrite Z2Nat.id in Hb by lia. apply bool_decide_eq_true in Hb; [done|].
    apply in_seq. lia.
  - split; vm_compute; reflexivity.
  - unfold word. simpl. lia.
  - unfold word. simpl. lia.
  - exists b, m', e'. split; [exact E|exact Hp].
Defined.
