(* ===== verification/Alloc.v ===== *)
(** Memory allocation: [src/src/fev_alloc.h] and [fev_alloc.c].

    The heap is the set of live blocks (address and size) and the bytes that may be accessed.
    The library calls a function of the type of [realloc] that the user may replace: what it
    returns is an argument, and [block_fits] says what [realloc] promises about it. *)

From S2P Require Import Prelude Memory.

Local Open Scope Z_scope.

Record heap := mk_heap { blocks : gmap Z Z; bytes : mem }.

Definition region (a n : Z) : mem := list_to_map ((λ i, (a + Z.of_nat i, 0)) <$> seq 0 (Z.to_nat n)).

(** Bytes [a, a + n) become accessible, or not accessible any more. *)
Definition map_bytes (m : mem) (a n : Z) : mem := region a n ∪ m.
Definition unmap_bytes (m : mem) (a n : Z) : mem := filter (λ kv, ¬ (a ≤ kv.1 < a + n)) m.

(** [fev_realloc_ptr(NULL, size)] returned [p], which is 0 if it failed. *)
Definition fev_realloc_new (h : heap) (size p : Z) : heap :=
  if p =? 0 then h else mk_heap (<[p := size]> (blocks h)) (map_bytes (bytes h) p size).

(** [fev_realloc_ptr(ptr, 0)]: the argument must be a live block. *)
Definition fev_realloc_free (h : heap) (ptr : Z) : option heap :=
  size ← blocks h !! ptr;
  Some (mk_heap (delete ptr (blocks h)) (unmap_bytes (bytes h) ptr size)).

Definition fev_malloc (h : heap) (size p : Z) : option (Z * heap) :=
  FEV_ASSERT (p mod 8 =? 0);
  Some (p, fev_realloc_new h size p).

Definition fev_free (h : heap) (ptr : Z) : option heap :=
  if ptr =? 0 then Some h else fev_realloc_free h ptr.

(** [p]: what the allocator returns for [size + alignment] bytes. *)
Definition fev_aligned_alloc (h : heap) (alignment size p : Z) : option (Z * heap) :=
  FEV_ASSERT (negb (alignment =? 0));
  FEV_ASSERT (alignment mod 8 =? 0);
  FEV_ASSERT (Z.land alignment (u64 (alignment - 1)) =? 0);
  FEV_ASSERT (size <=? SIZE_MAX - alignment);
  '(ptr, h) ← fev_malloc h (size + alignment) p;
  if ptr =? 0 then Some (0, h)
  else
    let ret := Z.land (u64 (ptr + alignment)) (u64 (Z.lnot (u64 (alignment - 1)))) in
    FEV_ASSERT (u64 (ret - ptr) <=? alignment);
    FEV_ASSERT (ptr <=? ret - 8);
    m ← store 8 (bytes h) (ret - 8) ptr;
    Some (ret, mk_heap (blocks h) m).

Definition fev_aligned_free (h : heap) (ptr : Z) : option heap :=
  p ← load 8 (bytes h) (ptr - 8);
  fev_free h p.

(** ** Facts *)

(** What [realloc] promises for a new block of [size] bytes at [p]: it is aligned for a pointer,
    lies in the address space and overlaps no accessible byte. *)
Record block_fits (h : heap) (size p : Z) : Prop := {
  bf_pos : 0 < p;
  bf_align : p mod 8 = 0;
  bf_range : p + size < 2 ^ 64;
  bf_new : blocks h !! p = None;
  bf_fresh x : p ≤ x < p + size → bytes h !! x = None;
}.

Lemma region_lookup a n x : region a n !! x = if decide (a ≤ x < a + n) then Some 0 else None.
Proof.
  unfold region. case_decide as Hx.
  - apply elem_of_list_to_map_1'.
    + intros y Hy. apply list_elem_of_fmap in Hy as (i & [= E ->] & _). done.
    + apply list_elem_of_fmap. exists (Z.to_nat (x - a)). split; [f_equal; lia|]. apply elem_of_seq. lia.
  - apply not_elem_of_list_to_map_1. rewrite <- list_fmap_compose. intros Hy. apply list_elem_of_fmap in Hy as (i & E & Hi).
    simpl in E. apply elem_of_seq in Hi. lia.
Qed.

Lemma map_bytes_mapped m a n : mapped (map_bytes m a n) a n.
Proof. intros x Hx. unfold map_bytes. rewrite lookup_union, region_lookup, decide_True by done. destruct (m !! x); by eexists. Qed.

Lemma map_bytes_other m a n : agree_off a n m (map_bytes m a n).
Proof. intros x Hx. unfold map_bytes. rewrite lookup_union, region_lookup, decide_False by done. by destruct (m !! x). Qed.

Lemma unmap_bytes_lookup m a n x : unmap_bytes m a n !! x = if decide (a ≤ x < a + n) then None else m !! x.
Proof.
  unfold unmap_bytes. rewrite map_lookup_filter. destruct (m !! x) as [v|] eqn:E; simpl; case_decide; try done.
  - by rewrite option_guard_False by naive_solver.
  - by rewrite option_guard_True.
Qed.

(** Masking the low bits of [p + 2^k] rounds up to a multiple of [2^k], but never to [p] itself. *)
Lemma round_up p k :
  0 ≤ k → 0 ≤ p → p + 2 ^ k < 2 ^ 64 →
  Z.land (u64 (p + 2 ^ k)) (u64 (Z.lnot (u64 (2 ^ k - 1)))) = 2 ^ k * ((p + 2 ^ k) / 2 ^ k).
Proof.
  intros Hk Hp Hr. assert (Hk64 : k < 64). { apply (Z.pow_lt_mono_r_iff 2); lia. }
  assert (0 < 2 ^ k) by (apply Z.pow_pos_nonneg; lia).
  unfold u64 at 1. rewrite Z.mod_small by lia. unfold u64. rewrite (Z.mod_small (2 ^ k - 1)) by lia.
  apply Z.bits_inj'. intros i Hi. rewrite Z.land_spec.
  replace (2 ^ k - 1) with (Z.ones k) by (rewrite Z.ones_equiv; lia).
  replace (2 ^ k * ((p + 2 ^ k) / 2 ^ k)) with (Z.shiftl (Z.shiftr (p + 2 ^ k) k) k)
    by (rewrite Z.shiftl_mul_pow2, Z.shiftr_div_pow2 by lia; lia).
  rewrite Z.shiftl_spec by lia. destruct (Z.ltb_spec i k) as [Hik|Hik].
  - rewrite (Z.testbit_neg_r _ (i - k)) by lia. rewrite Z.mod_pow2_bits_low, Z.lnot_spec, Z.ones_spec_low by lia. apply andb_false_r.
  - rewrite Z.shiftr_spec by lia. replace (i - k + k) with i by lia. destruct (Z.ltb_spec i 64) as [Hi64|Hi64].
    + rewrite Z.mod_pow2_bits_low, Z.lnot_spec, Z.ones_spec_high by lia. apply andb_true_r.
    + rewrite Z.mod_pow2_bits_high by lia. rewrite andb_false_r. symmetry.
      replace (p + 2 ^ k) with ((p + 2 ^ k) mod 2 ^ 64) by (apply Z.mod_small; lia). apply Z.mod_pow2_bits_high. lia.
Qed.

Lemma land_pow2_pred k : 0 ≤ k → Z.land (2 ^ k) (2 ^ k - 1) = 0.
Proof.
  intros Hk. replace (2 ^ k - 1) with (Z.ones k) by (rewrite Z.ones_equiv; lia). rewrite Z.land_ones by lia. by apply Z.mod_same, Z.pow_nonzero.
Qed.

(** The address that is returned. *)
Lemma round_up_bounds p k :
  3 ≤ k → 0 ≤ p → p mod 8 = 0 → let ret := 2 ^ k * ((p + 2 ^ k) / 2 ^ k) in p + 8 ≤ ret ≤ p + 2 ^ k ∧ ret mod 2 ^ k = 0.
Proof.
  intros Hk Hp Hal ret. assert (H8 : 2 ^ k = 8 * 2 ^ (k - 3)) by (replace k with (3 + (k - 3)) at 1 by lia; rewrite Z.pow_add_r; lia).
  assert (0 < 2 ^ (k - 3)) by (apply Z.pow_pos_nonneg; lia). set (q := (p + 2 ^ k) / 2 ^ k) in *.
  pose proof (Z.mul_div_le (p + 2 ^ k) (2 ^ k)) as H1. pose proof (Z.mul_succ_div_gt (p + 2 ^ k) (2 ^ k)) as H2. fold q in H1, H2.
  apply Z.mod_divide in Hal as [c Hc]; [|lia]. unfold ret. split; [|rewrite Z.mul_comm; apply Z.mod_mul; lia].
  split; [|lia]. assert (8 * c < 8 * (2 ^ (k - 3) * q)) by lia. lia.
Qed.

(** ** Properties *)

(** C17: An aligned allocation. For a power of two that is at least 8 the assertions hold; if the allocator gives a
    block, the returned address is a multiple of the alignment, and the memory behind it lies in the block, behind a
    slot for the original address. Whatever is then written to this memory, [fev_aligned_free] gives back exactly
    the block. If the allocator fails, so does the function, and nothing changes. *)
Theorem aligned_alloc_correct h k size p :
  3 ≤ k → 0 ≤ size → size + 2 ^ k ≤ SIZE_MAX →
  fev_aligned_alloc h (2 ^ k) size 0 = Some (0, h) ∧
  (block_fits h (size + 2 ^ k) p →
   ∃ ret h1, fev_aligned_alloc h (2 ^ k) size p = Some (ret, h1) ∧
     ret mod 2 ^ k = 0 ∧ p + 8 ≤ ret ∧ ret + size ≤ p + (size + 2 ^ k) ∧ mapped (bytes h1) ret size ∧
     ∀ h2, blocks h2 = blocks h1 → agree_off ret size (bytes h1) (bytes h2) →
       ∃ h3, fev_aligned_free h2 ret = Some h3 ∧ blocks h3 = blocks h ∧ bytes h3 = bytes h).
Proof.
  intros Hk Hs Hmax. assert (H8 : 2 ^ k = 8 * 2 ^ (k - 3)) by (replace k with (3 + (k - 3)) at 1 by lia; rewrite Z.pow_add_r; lia).
  assert (0 < 2 ^ (k - 3)) by (apply Z.pow_pos_nonneg; lia). unfold SIZE_MAX in Hmax.
  assert (Hguard : ∀ p, fev_aligned_alloc h (2 ^ k) size p =
    '(ptr, h) ← fev_malloc h (size + 2 ^ k) p;
    if ptr =? 0 then Some (0, h)
    else
      let ret := Z.land (u64 (ptr + 2 ^ k)) (u64 (Z.lnot (u64 (2 ^ k - 1)))) in
      FEV_ASSERT (u64 (ret - ptr) <=? 2 ^ k);
      FEV_ASSERT (ptr <=? ret - 8);
      m ← store 8 (bytes h) (ret - 8) ptr;
      Some (ret, mk_heap (blocks h) m)).
  { intros q. unfold fev_aligned_alloc. rewrite (proj2 (Z.eqb_neq (2 ^ k) 0)) by lia. cbn [negb].
    rewrite (proj2 (Z.eqb_eq (2 ^ k mod 8) 0)) by (rewrite H8, Z.mul_comm; apply Z.mod_mul; lia).
    rewrite u64_small, land_pow2_pred by lia. cbn [Z.eqb]. unfold SIZE_MAX. by rewrite (proj2 (Z.leb_le _ _)) by lia. }
  split; [by rewrite Hguard|]. intros Hf. rewrite Hguard. clear Hguard. destruct Hf as [Hp Hal Hr Hb Hfr].
  unfold fev_malloc, fev_realloc_new. rewrite (proj2 (Z.eqb_eq _ _) Hal). cbn [mbind option_bind]. rewrite (proj2 (Z.eqb_neq p 0)) by lia.
  rewrite round_up by lia. destruct (round_up_bounds p k) as [Hb1 Hb2]; [lia..|done|]. set (ret := 2 ^ k * _) in *. cbv zeta.
  rewrite u64_small, !(proj2 (Z.leb_le _ _)) by lia. cbn [blocks bytes]. set (m0 := map_bytes _ _ _).
  destruct (store_ok 8 m0 (ret - 8) p) as (m1 & -> & L1 & O1 & D1); [eapply mapped_sub; [apply map_bytes_mapped|lia..]|]. cbn [mbind option_bind].
  eexists ret, _. split; [done|]. cbn [blocks bytes]. split_and!; [done|lia|lia| |].
  { eapply dom_mapped; [exact D1|]. eapply mapped_sub; [apply map_bytes_mapped|lia..]. }
  intros h2 Hb3 Ho2. unfold fev_aligned_free.
  rewrite <- (load_agree 8 m1 (bytes h2)) by (eapply agree_off_on; [exact Ho2|unfold disjoint_from; lia]).
  rewrite L1, Z.mod_small by lia. cbn [mbind option_bind]. unfold fev_free, fev_realloc_free. rewrite (proj2 (Z.eqb_neq p 0)) by lia.
  rewrite Hb3, lookup_insert_eq. cbn [mbind option_bind]. eexists. split_and!; [done|simpl; by rewrite delete_insert_id|].
  cbn [bytes]. apply map_eq. intros x. rewrite unmap_bytes_lookup. case_decide as Hx; [by rewrite Hfr|].
  rewrite <- (Ho2 x), <- (O1 x) by lia. symmetry. by apply map_bytes_other.
Qed.

(** A block of 64 + 128 bytes at an address that is 24 above a multiple of 64. *)
Lemma aligned_alloc_correct_witness :
  ∃ ret h1, fev_aligned_alloc (mk_heap ∅ ∅) (2 ^ 6) 128 0x1018 = Some (ret, h1) ∧ ret mod 2 ^ 6 = 0 ∧
    ∃ h3, fev_aligned_free h1 ret = Some h3 ∧ blocks h3 = ∅.
Proof.
  destruct (aligned_alloc_correct (mk_heap ∅ ∅) 6 128 0x1018) as [_ H]; [lia|lia|vm_compute; discriminate|].
  destruct H as (ret & h1 & E & Hr & _ & _ & _ & Hfree); [split; [lia|reflexivity|reflexivity|reflexivity|reflexivity]|].
  exists ret, h1. split; [exact E|]. split; [exact Hr|]. destruct (Hfree h1 eq_refl) as (h3 & E3 & Hb & _); [by intros x Hx|].
  exists h3. split; [exact E3|exact Hb].
Defined.
