(* ===== verification/Context.v ===== *)
(** The context switch: [src/src/fev_context.h], [fev_context_x86_family.c] and the
    assembly of [fev_context_x86_64_posix.S] and [fev_context_i386.S], without the
    annotations for the address sanitizer.

    A machine has registers, the two floating-point control registers, a program counter
    and memory. The functions are lists of instructions, as in the assembly files; a list
    runs until it jumps. What the routine called by [fev_context_switch_and_call] does
    between its entry and its [ret] is a parameter, [ext]. *)

From S2P Require Import Prelude Memory.

Local Open Scope Z_scope.

(** ** The machine *)

(** [R12] to [R15] exist on x86-64 only. *)
Inductive reg := AX | CX | DX | BX | SP | BP | SI | DI | R12 | R13 | R14 | R15.

#[export] Instance reg_eq_dec : EqDecision reg.
Proof. solve_decision. Defined.

Record machine := mk_machine { rg : reg → Z; mxcsr : Z; fpucw : Z; pc : Z; memory : mem }.

Definition set_reg (s : machine) (r : reg) (v : Z) : machine := mk_machine (upd (rg s) r v) (mxcsr s) (fpucw s) (pc s) (memory s).
Definition set_mxcsr (s : machine) (v : Z) : machine := mk_machine (rg s) v (fpucw s) (pc s) (memory s).
Definition set_fpucw (s : machine) (v : Z) : machine := mk_machine (rg s) (mxcsr s) v (pc s) (memory s).
Definition set_pc (s : machine) (v : Z) : machine := mk_machine (rg s) (mxcsr s) (fpucw s) v (memory s).
Definition set_memory (s : machine) (m : mem) : machine := mk_machine (rg s) (mxcsr s) (fpucw s) (pc s) m.

(** The instructions that are used; an operand [off(base)] is the pair [base, off]. *)
Inductive instr :=
| STMXCSR (off : Z) (base : reg) | FNSTCW (off : Z) (base : reg)
| LDMXCSR (off : Z) (base : reg) | FLDCW (off : Z) (base : reg)
| ST (src : reg) (off : Z) (base : reg)      (* [mov %src, off(%base)] *)
| LD (off : Z) (base dst : reg)              (* [mov off(%base), %dst] *)
| PUSH (src : reg) | POP (dst : reg)
| CALL (target : reg) | JMP (target : reg) | RET.

(** [W]: the size of a word in bytes. [ext]: a called function, from its entry to its
    [ret]; [next]: the address of the instruction behind the [call]. *)
Section machine.
Context (W : nat) (ext : machine → option machine) (next : Z).

Definition wrap (v : Z) : Z := v mod 2 ^ (8 * Z.of_nat W).

Definition push (s : machine) (v : Z) : option machine :=
  let sp := wrap (rg s SP - Z.of_nat W) in
  m ← store W (memory s) sp v;
  Some (set_memory (set_reg s SP sp) m).

Definition pop (s : machine) : option (Z * machine) :=
  v ← load W (memory s) (rg s SP);
  Some (v, set_reg s SP (wrap (rg s SP + Z.of_nat W))).

Definition step (i : instr) (s : machine) : option machine :=
  match i with
  | STMXCSR off b => m ← store 4 (memory s) (rg s b + off) (mxcsr s); Some (set_memory s m)
  | FNSTCW off b => m ← store 2 (memory s) (rg s b + off) (fpucw s); Some (set_memory s m)
  | LDMXCSR off b => v ← load 4 (memory s) (rg s b + off); Some (set_mxcsr s v)
  | FLDCW off b => v ← load 2 (memory s) (rg s b + off); Some (set_fpucw s v)
  | ST r off b => m ← store W (memory s) (rg s b + off) (rg s r); Some (set_memory s m)
  | LD off b r => v ← load W (memory s) (rg s b + off); Some (set_reg s r v)
  | PUSH r => push s (rg s r)
  | POP r => '(v, s) ← pop s; Some (set_reg s r v)
  | CALL r =>
      s ← push s next;
      s ← ext (set_pc s (rg s r));
      '(v, s) ← pop s;
      Some (set_pc s v)
  | JMP r => Some (set_pc s (rg s r))
  | RET => '(v, s) ← pop s; Some (set_pc s v)
  end.

Definition is_jump (i : instr) : bool := match i with JMP _ | RET => true | _ => false end.

Fixpoint exec (c : list instr) (s : machine) : option machine :=
  match c with
  | [] => Some s
  | i :: c => s ← step i s; if is_jump i then Some s else exec c s
  end.
End machine.

(** ** The code *)

(** The blocks that save to and restore from the context [b] points to. *)
Definition save64 (b : reg) : list instr :=
  [STMXCSR 0 b; FNSTCW 4 b; ST SP 8 b; ST BP 16 b; ST BX 24 b; ST R12 32 b; ST R13 40 b; ST R14 48 b; ST R15 56 b].
Definition restore64 (b : reg) : list instr :=
  [LDMXCSR 0 b; FLDCW 4 b; LD 8 b SP; LD 16 b BP; LD 24 b BX; LD 32 b R12; LD 40 b R13; LD 48 b R14; LD 56 b R15].

Definition switch64 : list instr := save64 DI ++ restore64 SI ++ [RET].
Definition switch_and_call64 : list instr := save64 DX ++ restore64 CX ++ [JMP SI].

Definition save32 (b : reg) : list instr :=
  [STMXCSR 0 b; FNSTCW 4 b; ST SP 8 b; ST BP 12 b; ST BX 16 b; ST DI 20 b; ST SI 24 b].
Definition restore32 (b : reg) : list instr :=
  [LDMXCSR 0 b; FLDCW 4 b; LD 8 b SP; LD 12 b BP; LD 16 b BX; LD 20 b DI; LD 24 b SI].

Definition switch32 : list instr := [LD 4 SP AX; LD 8 SP CX] ++ save32 AX ++ restore32 CX ++ [RET].
Definition switch_and_call32 : list instr :=
  [LD 12 SP AX; LD 16 SP CX] ++ save32 AX ++ [LD 4 SP AX; LD 8 SP DX] ++ restore32 CX ++ [PUSH AX; CALL DX; POP AX; RET].

(** ** [struct fev_context] *)

(** [mxcsr], [fpucw], the stack pointer and the registers a callee saves; [_pad] is skipped. *)
Definition ctx64 : list (Z * nat) :=
  [(0, 4%nat); (4, 2%nat); (8, 8%nat); (16, 8%nat); (24, 8%nat); (32, 8%nat); (40, 8%nat); (48, 8%nat); (56, 8%nat)].
Definition ctx32 : list (Z * nat) := [(0, 4%nat); (4, 2%nat); (8, 4%nat); (12, 4%nat); (16, 4%nat); (20, 4%nat); (24, 4%nat)].

(** [fev_context_init]. [W] is [sizeof(uintptr_t)], [size] the size of the structure. *)
Definition fev_context_init (W : nat) (size : nat) (m : mem) (context stack_bottom stack_size start_addr : Z) : option mem :=
  FEV_ASSERT (stack_bottom <=? 2 ^ (8 * Z.of_nat W) - 1 - stack_size);
  let stack_ptr := stack_bottom + stack_size in
  FEV_ASSERT (stack_ptr mod Z.of_nat W =? 0);
  let stack_ptr := stack_ptr - Z.of_nat W in
  m ← store W m stack_ptr 0xdeadbabe;
  let stack_ptr := stack_ptr - Z.of_nat W in
  m ← store W m stack_ptr start_addr;
  m ← zero m context size;
  store W m (context + 8) stack_ptr.

Definition sizeof_ctx64 : nat := 64.
Definition sizeof_ctx32 : nat := 28.

(** ** Both architectures *)

Inductive arch := X86_64 | I386.

Definition word (A : arch) : nat := match A with X86_64 => 8 | I386 => 4 end.
Definition fields (A : arch) : list (Z * nat) := match A with X86_64 => ctx64 | I386 => ctx32 end.
Definition size (A : arch) : nat := match A with X86_64 => sizeof_ctx64 | I386 => sizeof_ctx32 end.
(** The registers a function must preserve. *)
Definition callee_saved (A : arch) : list reg :=
  match A with X86_64 => [BP; BX; R12; R13; R14; R15] | I386 => [BP; BX; DI; SI] end.

(** The arguments of a call, at its entry: in registers, or on the stack above the return
    address. *)
Definition args (A : arch) (s : machine) (vs : list Z) : Prop :=
  match A with
  | X86_64 => ∀ i v, vs !! i = Some v → rg s <$> [DI; SI; DX; CX] !! i = Some v
  | I386 => ∀ i v, vs !! i = Some v → load 4 (memory s) (rg s SP + 4 + 4 * Z.of_nat i) = Some v
  end.

(** [ext] is not used by [fev_context_switch]. *)
Definition fev_context_switch (A : arch) (s : machine) : option machine :=
  match A with
  | X86_64 => exec 8 Some 0 switch64 s
  | I386 => exec 4 Some 0 switch32 s
  end.

(** On x86-64 the routine is called by a jump, and its [ret] is the one of the function. *)
Definition fev_context_switch_and_call (A : arch) (ext : machine → option machine) (next : Z) (s : machine) : option machine :=
  match A with
  | X86_64 => s ← exec 8 ext next switch_and_call64 s; s ← ext s; step 8 ext next RET s
  | I386 => exec 4 ext next switch_and_call32 s
  end.

(** *** Saving and restoring *)

(** What is saved. *)
Definition values (A : arch) (s : machine) : list Z := mxcsr s :: fpucw s :: rg s SP :: (rg s <$> callee_saved A).

Definition set_regs (f : reg → Z) (rs : list reg) (vs : list Z) : reg → Z := foldl (λ f rv, upd f rv.1 rv.2) f (zip rs vs).

Definition restored (A : arch) (s : machine) (vm vf : Z) (vs : list Z) : machine :=
  mk_machine (set_regs (rg s) (SP :: callee_saved A) vs) vm vf (pc s) (memory s).

Definition save (A : arch) : reg → list instr := match A with X86_64 => save64 | I386 => save32 end.
Definition restore (A : arch) : reg → list instr := match A with X86_64 => restore64 | I386 => restore32 end.

Lemma exec_app W ext next c k s :
  forallb (λ i, negb (is_jump i)) c = true → exec W ext next (c ++ k) s = s ← exec W ext next c s; exec W ext next k s.
Proof.
  revert s. induction c as [|i c IH]; intros s Hc; [done|]. simpl in Hc. apply andb_true_iff in Hc as [Hi%negb_true_iff Hc].
  cbn [app exec]. destruct (step W ext next i s) as [s'|]; [|done]. cbn [mbind option_bind]. rewrite Hi. by apply IH.
Qed.

Lemma exec_save A ext next b s :
  exec (word A) ext next (save A b) s = m ← store_fields (memory s) (rg s b) (fields A) (values A s); Some (set_memory s m).
Proof.
  destruct A; cbn -[store load upd]; destruct (store 4 _ _ _); cbn -[store load upd]; try done;
    repeat (match goal with |- context [store ?n ?m ?a ?v] => destruct (store n m a v) end; cbn -[store load upd]; try done).
Qed.

(** A sequence of loads. *)
Lemma exec_loads W ext next b rs : ∀ offs s vs,
  b ∉ rs → length offs = length rs → mapM (λ off, load W (memory s) (rg s b + off)) offs = Some vs →
  exec W ext next (zip_with (λ off r, LD off b r) offs rs) s =
  Some (mk_machine (set_regs (rg s) rs vs) (mxcsr s) (fpucw s) (pc s) (memory s)).
Proof.
  induction rs as [|r rs IH]; intros offs s vs Hb Hl Hm.
  { destruct offs; [|done]. simplify_eq/=. by destruct s. }
  destruct offs as [|off offs]; [done|]. apply not_elem_of_cons in Hb as [Hr Hb]. cbn [mapM] in Hm. inv_opt Hm. injection Hm as <-.
  cbn [zip_with exec step is_jump]. rewrite E. cbn [mbind option_bind].
  rewrite (IH offs (set_reg s r z) l); [done|done|by simplify_eq/=|].
  simpl. by rewrite upd_ne.
Qed.

Lemma load_uniform W m a offs :
  load_fields m a ((λ off, (off, W)) <$> offs) = mapM (λ off, load W m (a + off)) offs.
Proof. unfold load_fields. induction offs as [|off offs IH]; [done|]. cbn [fmap list_fmap mapM fst snd]. by rewrite IH. Qed.

Lemma exec_restore A ext next b s vm vf vs :
  b ∉ SP :: callee_saved A → load_fields (memory s) (rg s b) (fields A) = Some (vm :: vf :: vs) →
  exec (word A) ext next (restore A b) s = Some (restored A s vm vf vs).
Proof.
  intros Hb H. unfold load_fields in H.
  replace (restore A b) with
    (LDMXCSR 0 b :: FLDCW 4 b :: zip_with (λ off r, LD off b r) (fst <$> drop 2 (fields A)) (SP :: callee_saved A)) by (by destruct A).
  replace (fields A) with ((0, 4%nat) :: (4, 2%nat) :: ((λ off, (off, word A)) <$> (fst <$> drop 2 (fields A)))) in H by (by destruct A).
  cbn [mapM fst snd] in H. destruct (load 4 _ _) as [v1|] eqn:E1; [|done]. cbn [mbind option_bind] in H.
  destruct (load 2 _ _) as [v2|] eqn:E2; [|done]. cbn [mbind option_bind] in H.
  set (offs := fst <$> drop 2 (fields A)) in *. fold (load_fields (memory s) (rg s b) ((λ off, (off, word A)) <$> offs)) in H. rewrite load_uniform in H.
  destruct (mapM _ offs) as [vs'|] eqn:E3; [|done]. cbn [mbind option_bind] in H. injection H as -> -> ->.
  cbn [exec step is_jump]. rewrite E1. cbn [mbind option_bind]. simpl rg. simpl memory. rewrite E2. cbn [mbind option_bind].
  rewrite (exec_loads _ _ _ _ _ offs _ vs); [done|done|by destruct A|exact E3].
Qed.

Lemma set_regs_other rs : ∀ f vs r, r ∉ rs → set_regs f rs vs r = f r.
Proof.
  unfold set_regs. induction rs as [|r' rs IH]; intros f vs r Hr; [done|]. destruct vs as [|v vs]; [done|].
  apply not_elem_of_cons in Hr as [Hne Hr]. cbn [zip_with foldl fst snd]. rewrite IH by done. by apply upd_ne.
Qed.

Lemma set_regs_saved rs : ∀ f (g : reg → Z) r, NoDup rs → r ∈ rs → set_regs f rs (g <$> rs) r = g r.
Proof.
  induction rs as [|r' rs IH]; intros f g r Hn Hr; [by apply not_elem_of_nil in Hr|]. apply NoDup_cons in Hn as [Hn1 Hn2].
  unfold set_regs. cbn [fmap list_fmap zip_with foldl fst snd]. fold (set_regs (upd f r' (g r')) rs (g <$> rs)).
  destruct (decide (r = r')) as [->|Hne]; [rewrite set_regs_other by done; apply upd_eq|].
  apply elem_of_cons in Hr as [->|Hr]; [done|]. by apply IH.
Qed.

Lemma layout_fields A : layout 0 (Z.of_nat (size A)) (fields A).
Proof. destruct A; repeat split; done. Qed.

Lemma length_values A s : length (values A s) = length (fields A).
Proof. by destruct A. Qed.

Lemma NoDup_saved A : NoDup (SP :: callee_saved A).
Proof. apply (bool_decide_unpack _). by destruct A. Qed.

Lemma SP_not_saved A : SP ∉ callee_saved A.
Proof. by pose proof (NoDup_saved A) as [? _]%NoDup_cons. Qed.

(** The registers have their width. *)
Definition well_typed (A : arch) (s : machine) : Prop := fits (fields A) (values A s).

(** ** Suspended contexts *)

(** In memory [m], the context at [f] is that of the machine [s] at the entry of a switch,
    and the return address on its stack is [ra]. *)
Record suspended (A : arch) (m : mem) (f : Z) (s : machine) (ra : Z) : Prop := {
  sus_fields : load_fields m f (fields A) = Some (values A s);
  sus_ra : load (word A) m (rg s SP) = Some ra;
}.

(** [s'] goes on where [s] left: behind the call, with the return address popped. *)
Record resumed (A : arch) (s : machine) (ra : Z) (s' : machine) : Prop := {
  res_pc : pc s' = ra;
  res_sp : rg s' SP = wrap (word A) (rg s SP + Z.of_nat (word A));
  res_regs r : r ∈ callee_saved A → rg s' r = rg s r;
  res_mxcsr : mxcsr s' = mxcsr s;
  res_fpucw : fpucw s' = fpucw s;
}.

Lemma suspended_agree A m1 m2 f s ra :
  suspended A m1 f s ra → agree_on f (Z.of_nat (size A)) m1 m2 → agree_on (rg s SP) (Z.of_nat (word A)) m1 m2 → suspended A m2 f s ra.
Proof.
  intros [H1 H2] Hf Hs. split.
  - rewrite <- H1. symmetry. eapply load_fields_agree; [apply layout_fields|]. by rewrite Z.add_0_r, Z.sub_0_r.
  - rewrite <- H2. symmetry. by apply load_agree.
Qed.

Section blocks.
Context (A : arch) (ext : machine → option machine) (next : Z).
Abbreviation W := (word A).
Abbreviation size := (Z.of_nat (size A)).
Abbreviation exec := (exec W ext next).

Lemma exec_save_ok b s :
  mapped (memory s) (rg s b) size →
  ∃ m, exec (save A b) s = Some (set_memory s m) ∧ agree_off (rg s b) size (memory s) m ∧ dom m = dom (memory s) ∧
       (well_typed A s → load_fields m (rg s b) (fields A) = Some (values A s)).
Proof.
  intros Hm. rewrite exec_save.
  destruct (store_fields_ok (fields A) (memory s) (rg s b) 0 size (values A s)) as (m & -> & Hl & Ho & Hd).
  { apply layout_fields. } { by rewrite Z.add_0_r, Z.sub_0_r. } { apply length_values. }
  rewrite Z.add_0_r, Z.sub_0_r in Ho. exists m. split_and!; [done..|]. intros Hw. by rewrite Hl, wrap_fields_fits.
Qed.

Lemma exec_restore_ok b s f s0 ra :
  b ∉ SP :: callee_saved A → rg s b = f → suspended A (memory s) f s0 ra →
  exec (restore A b) s = Some (restored A s (mxcsr s0) (fpucw s0) (rg s0 <$> SP :: callee_saved A)).
Proof. intros Hb <- [Hf _]. by apply exec_restore. Qed.

Lemma restored_reg s vm vf s0 r :
  r ∈ SP :: callee_saved A → rg (restored A s vm vf (rg s0 <$> SP :: callee_saved A)) r = rg s0 r.
Proof. intros Hr. unfold restored. cbn [rg]. by rewrite set_regs_saved by (done || apply NoDup_saved). Qed.

Lemma restored_other s vm vf vs r : r ∉ SP :: callee_saved A → rg (restored A s vm vf vs) r = rg s r.
Proof. apply set_regs_other. Qed.

(** What is the same in all functions: save to [g], restore from [f]. *)
Lemma swap_ok bg bf s g f s0 ra :
  bg ∉ SP :: callee_saved A → bf ∉ SP :: callee_saved A → rg s bg = g → rg s bf = f →
  mapped (memory s) g size → suspended A (memory s) f s0 ra →
  disjoint_from g size f size → disjoint_from g size (rg s0 SP) (Z.of_nat W) →
  ∃ m, exec (save A bg) s = Some (set_memory s m) ∧ agree_off g size (memory s) m ∧ dom m = dom (memory s) ∧
       (well_typed A s → load_fields m g (fields A) = Some (values A s)) ∧ suspended A m f s0 ra.
Proof.
  intros Hbg Hbf Hg Hf Hm Hs Hd1 Hd2. destruct (exec_save_ok bg s) as (m & E & Ho & Hd & Hl); [by rewrite Hg|]. rewrite Hg in *.
  exists m. split_and!; [done..|]. eapply suspended_agree; [done|by eapply agree_off_on..].
Qed.
End blocks.

(** What a call has on the stack: the return address and [n] arguments. *)
Definition frame (A : arch) (n : Z) : Z := match A with X86_64 => 8 | I386 => 4 + 4 * n end.

(** The machine before the save block: on i386 the addresses of the contexts are loaded first. *)
Definition prologue (A : arch) (g f : Z) (s : machine) : machine :=
  match A with X86_64 => s | I386 => set_reg (set_reg s AX g) CX f end.
Definition from_reg (A : arch) : reg := match A with X86_64 => DI | I386 => AX end.
Definition to_reg (A : arch) : reg := match A with X86_64 => SI | I386 => CX end.

Lemma switch_unfold A s g f :
  args A s [g; f] →
  fev_context_switch A s =
    exec (word A) Some 0 (save A (from_reg A) ++ restore A (to_reg A) ++ [RET]) (prologue A g f s) ∧
  rg (prologue A g f s) (from_reg A) = g ∧ rg (prologue A g f s) (to_reg A) = f.
Proof.
  intros Ha. destruct A; cbn [args] in Ha; [pose proof (Ha 0%nat g eq_refl) as H1; pose proof (Ha 1%nat f eq_refl) as H2|].
  - injection H1 as H1. injection H2 as H2. done.
  - pose proof (Ha 0%nat g eq_refl) as H1. pose proof (Ha 1%nat f eq_refl) as H2. split; [|done].
    cbn [fev_context_switch word]. unfold switch32. cbn [app exec step]. replace (rg s SP + 4 + 4 * Z.of_nat 0) with (rg s SP + 4) in H1 by lia.
    replace (rg s SP + 4 + 4 * Z.of_nat 1) with (rg s SP + 8) in H2 by lia.
    rewrite H1. cbn [mbind option_bind is_jump]. cbn [set_reg rg memory]. rewrite upd_ne by done. rewrite H2. done.
Qed.

Lemma prologue_values A g f s : values A (prologue A g f s) = values A s.
Proof. by destruct A. Qed.
Lemma prologue_memory A g f s : memory (prologue A g f s) = memory s.
Proof. by destruct A. Qed.

Lemma not_saved A : from_reg A ∉ SP :: callee_saved A ∧ to_reg A ∉ SP :: callee_saved A.
Proof. split; apply (bool_decide_unpack _); by destruct A. Qed.

(** [ret] with the registers of [s0] goes on where [s0] left. *)
Lemma ret_resumes A ext next s s0 ra :
  (∀ r, r ∈ SP :: callee_saved A → rg s r = rg s0 r) → mxcsr s = mxcsr s0 → fpucw s = fpucw s0 →
  load (word A) (memory s) (rg s0 SP) = Some ra →
  ∃ s', step (word A) ext next RET s = Some s' ∧ resumed A s0 ra s' ∧ memory s' = memory s.
Proof.
  intros Hr Hm Hf Hra. pose proof (Hr SP (list_elem_of_here _ _)) as Hsp. cbn [step]. unfold pop. rewrite Hsp, Hra.
  eexists. split_and!; [done| |done]. split; cbn [pc rg mxcsr fpucw set_pc set_reg]; [done|by rewrite upd_eq| |done|done].
  intros r Hin. pose proof (NoDup_saved A) as [Hn _]%NoDup_cons. rewrite upd_ne by (intros <-; done).
  apply Hr. by apply list_elem_of_further.
Qed.

(** Restoring and returning. *)
Lemma resume_ok A ext next b s f s0 ra :
  b ∉ SP :: callee_saved A → rg s b = f → suspended A (memory s) f s0 ra →
  ∃ s', exec (word A) ext next (restore A b ++ [RET]) s = Some s' ∧ resumed A s0 ra s' ∧ memory s' = memory s.
Proof.
  intros Hb Hf Hs. rewrite exec_app by (by destruct A). rewrite (exec_restore_ok A ext next b s f s0 ra) by done. cbn [mbind option_bind].
  set (s1 := restored _ _ _ _ _). destruct (ret_resumes A ext next s1 s0 ra) as (s' & E & Hr & Hm); [intros r; apply restored_reg|done|done|apply Hs|].
  exists s'. cbn [exec]. by rewrite E.
Qed.

(** [fev_context_switch(g, f)]. *)
Lemma context_switch_ok A s g f s0 ra :
  args A s [g; f] → mapped (memory s) g (Z.of_nat (size A)) → suspended A (memory s) f s0 ra →
  disjoint_from g (Z.of_nat (size A)) f (Z.of_nat (size A)) →
  disjoint_from g (Z.of_nat (size A)) (rg s0 SP) (Z.of_nat (word A)) →
  ∃ s', fev_context_switch A s = Some s' ∧ resumed A s0 ra s' ∧
        agree_off g (Z.of_nat (size A)) (memory s) (memory s') ∧ dom (memory s') = dom (memory s) ∧
        (well_typed A s → load_fields (memory s') g (fields A) = Some (values A s)).
Proof.
  intros Ha Hm Hs Hd1 Hd2. destruct (switch_unfold A s g f Ha) as (-> & Hg & Hf). destruct (not_saved A) as [N1 N2].
  destruct (swap_ok A Some 0 (from_reg A) (to_reg A) (prologue A g f s) g f s0 ra) as (m & E & Ho & Hd & Hl & Hs');
    [done|done|done|done|by rewrite prologue_memory|by rewrite prologue_memory|done|done|].
  rewrite exec_app by (by destruct A). rewrite E. cbn [mbind option_bind].
  destruct (resume_ok A Some 0 (to_reg A) (set_memory (prologue A g f s) m) f s0 ra) as (s' & E' & Hr & Em); [done|done|done|].
  exists s'. rewrite prologue_memory in Ho, Hd. rewrite Em. simpl. split_and!; [done..|].
  unfold well_typed in *. by rewrite prologue_values in Hl.
Qed.

(** *** [fev_context_switch_and_call] *)

(** What the routine's stack pointer is at its entry, when the stack it runs on was left at [sp]. *)
Definition entry_sp (A : arch) (sp : Z) : Z := match A with X86_64 => sp | I386 => sp - 8 end.

(** The routine has been entered on the stack of [s0], and the caller [s] is saved at [g]. *)
Record enters (A : arch) (s : machine) (g : Z) (s0 : machine) (arg routine : Z) (s1 : machine) : Prop := {
  en_pc : pc s1 = routine;
  en_arg : args A s1 [arg];
  en_sp : rg s1 SP = entry_sp A (rg s0 SP);
  en_saved : well_typed A s → load_fields (memory s1) g (fields A) = Some (values A s);
  en_memory x : ¬ (g ≤ x < g + Z.of_nat (size A)) → ¬ (entry_sp A (rg s0 SP) ≤ x < rg s0 SP) →
                memory s1 !! x = memory s !! x;
}.

(** The calling convention: between its entry [s1] and its [ret] at [s2], the routine has
    preserved the registers it must preserve, its return address and the frame at [sp] above
    its own; its arguments, between them, it may overwrite. *)
Record c_return (A : arch) (sp : Z) (s1 s2 : machine) : Prop := {
  cr_regs r : r ∈ SP :: callee_saved A → rg s2 r = rg s1 r;
  cr_mxcsr : mxcsr s2 = mxcsr s1;
  cr_fpucw : fpucw s2 = fpucw s1;
  cr_ra : agree_on (rg s1 SP) (Z.of_nat (word A)) (memory s1) (memory s2);
  cr_frame : agree_on sp (Z.of_nat (word A)) (memory s1) (memory s2);
  cr_mapped : mapped (memory s2) (rg s1 SP) (sp - rg s1 SP);
}.

(** What [fev_context_switch_and_call(arg, routine, g, f)] needs of the memory. *)
Record call_ready (A : arch) (s : machine) (g f : Z) (s0 : machine) : Prop := {
  cl_mapped : mapped (memory s) g (Z.of_nat (size A));
  cl_contexts : disjoint_from g (Z.of_nat (size A)) f (Z.of_nat (size A));
  cl_args : disjoint_from g (Z.of_nat (size A)) (rg s SP) (frame A 4);
  cl_stack : disjoint_from g (Z.of_nat (size A)) (entry_sp A (rg s0 SP)) (rg s0 SP - entry_sp A (rg s0 SP) + Z.of_nat (word A));
  cl_room : mapped (memory s) (entry_sp A (rg s0 SP)) (rg s0 SP - entry_sp A (rg s0 SP));
  cl_range : 0 ≤ entry_sp A (rg s0 SP) ∧ rg s0 SP < 2 ^ (8 * Z.of_nat (word A));
}.

Lemma switch_and_call64_ok ext next s arg routine g f s0 ra :
  args X86_64 s [arg; routine; g; f] → suspended X86_64 (memory s) f s0 ra → call_ready X86_64 s g f s0 →
  ∃ s1, enters X86_64 s g s0 arg routine s1 ∧
    ∀ s2, ext s1 = Some s2 → c_return X86_64 (rg s0 SP) s1 s2 →
      ∃ s', fev_context_switch_and_call X86_64 ext next s = Some s' ∧ resumed X86_64 s0 ra s' ∧ memory s' = memory s2.
Proof.
  intros Ha Hs Hc. pose proof (Ha 0%nat arg eq_refl) as [= H0]. pose proof (Ha 1%nat routine eq_refl) as [= H1].
  pose proof (Ha 2%nat g eq_refl) as [= H2]. pose proof (Ha 3%nat f eq_refl) as [= H3].
  assert (DI ∉ SP :: callee_saved X86_64 ∧ SI ∉ SP :: callee_saved X86_64) as [N1 N2] by (split; by apply (bool_decide_unpack _)).
  assert (DX ∉ SP :: callee_saved X86_64 ∧ CX ∉ SP :: callee_saved X86_64) as [N3 N4] by (split; by apply (bool_decide_unpack _)).
  destruct (swap_ok X86_64 ext next DX CX s g f s0 ra) as (m & E & Ho & Hd & Hl & Hs');
    [done|done|done|done|apply Hc|done|apply Hc| |].
  { pose proof (cl_stack _ _ _ _ _ Hc). unfold disjoint_from, entry_sp in *. cbn [word size] in *. lia. }
  set (s1 := set_pc (restored X86_64 (set_memory s m) (mxcsr s0) (fpucw s0) (rg s0 <$> SP :: callee_saved X86_64)) routine).
  assert (E1 : exec 8 ext next switch_and_call64 s = Some s1).
  { change 8%nat with (word X86_64). change switch_and_call64 with (save X86_64 DX ++ restore X86_64 CX ++ [JMP SI]).
    rewrite exec_app by done. rewrite E. cbn [mbind option_bind]. rewrite exec_app by done.
    rewrite (exec_restore_ok X86_64 ext next CX (set_memory s m) f s0 ra) by done. cbn [mbind option_bind exec step is_jump].
    rewrite restored_other by done. cbn [set_memory rg]. by rewrite H1. }
  assert (Hr : ∀ r, r ∈ SP :: callee_saved X86_64 → rg s1 r = rg s0 r).
  { intros r. apply (restored_reg X86_64 (set_memory s m) (mxcsr s0) (fpucw s0) s0 r). }
  exists s1. split.
  { split; [done| |apply Hr, list_elem_of_here|exact Hl|].
    - intros [|i] v Hv; [|by rewrite lookup_cons, lookup_nil in Hv]. injection Hv as <-. cbn [lookup list_lookup fmap option_fmap option_map]. f_equal.
      cbn [s1 set_pc rg]. rewrite <- H0. by rewrite (restored_other X86_64).
    - intros x Hx _. symmetry. by apply Ho. }
  intros s2 E2 Hret. cbn [fev_context_switch_and_call]. rewrite E1. cbn [mbind option_bind]. rewrite E2. cbn [mbind option_bind].
  apply (ret_resumes X86_64); [|apply Hret|apply Hret|].
  - intros r Hin. by rewrite (cr_regs _ _ _ _ Hret), Hr.
  - rewrite <- (sus_ra _ _ _ _ _ Hs'). symmetry. apply load_agree, Hret.
Qed.

Lemma push_ok W s v :
  Z.of_nat W ≤ rg s SP < 2 ^ (8 * Z.of_nat W) → mapped (memory s) (rg s SP - Z.of_nat W) (Z.of_nat W) →
  ∃ m, push W s v = Some (set_memory (set_reg s SP (rg s SP - Z.of_nat W)) m) ∧
    load W m (rg s SP - Z.of_nat W) = Some (wrap W v) ∧
    agree_off (rg s SP - Z.of_nat W) (Z.of_nat W) (memory s) m ∧ dom m = dom (memory s).
Proof.
  intros Hsp Hm. unfold push. replace (wrap W (rg s SP - Z.of_nat W)) with (rg s SP - Z.of_nat W) by (symmetry; apply Z.mod_small; lia).
  destruct (store_ok W (memory s) (rg s SP - Z.of_nat W) v Hm) as (m & -> & Hl & Ho & Hd). eauto.
Qed.

Lemma pop_ok W s v :
  load W (memory s) (rg s SP) = Some v → pop W s = Some (v, set_reg s SP (wrap W (rg s SP + Z.of_nat W))).
Proof. intros E. unfold pop. by rewrite E. Qed.

(** The part of [switch_and_call32] up to the restored registers. *)
Lemma switch_and_call32_head ext next s arg routine g f s0 ra k :
  args I386 s [arg; routine; g; f] → suspended I386 (memory s) f s0 ra → call_ready I386 s g f s0 →
  ∃ s1, exec 4 ext next ([LD 12 SP AX; LD 16 SP CX] ++ save32 AX ++ [LD 4 SP AX; LD 8 SP DX] ++ restore32 CX ++ k) s = exec 4 ext next k s1 ∧
    (∀ r, r ∈ SP :: callee_saved I386 → rg s1 r = rg s0 r) ∧ rg s1 AX = arg ∧ rg s1 DX = routine ∧
    mxcsr s1 = mxcsr s0 ∧ fpucw s1 = fpucw s0 ∧
    agree_off g 28 (memory s) (memory s1) ∧ dom (memory s1) = dom (memory s) ∧
    (well_typed I386 s → load_fields (memory s1) g ctx32 = Some (values I386 s)) ∧ load 4 (memory s1) (rg s0 SP) = Some ra.
Proof.
  intros Ha Hs Hc. pose proof (Ha 0%nat arg eq_refl) as H0. pose proof (Ha 1%nat routine eq_refl) as H1.
  pose proof (Ha 2%nat g eq_refl) as H2. pose proof (Ha 3%nat f eq_refl) as H3. rewrite <- Z.add_assoc in H0, H1, H2, H3.
  change (4 + 4 * Z.of_nat 0) with 4 in H0. change (4 + 4 * Z.of_nat 1) with 8 in H1.
  change (4 + 4 * Z.of_nat 2) with 12 in H2. change (4 + 4 * Z.of_nat 3) with 16 in H3.
  set (sa := set_reg (set_reg s AX g) CX f).
  destruct (swap_ok I386 ext next AX CX sa g f s0 ra) as (m & E & Ho & Hd & Hl & Hs');
    [apply (bool_decide_unpack _); done|apply (bool_decide_unpack _); done|done|done|apply Hc|done|apply Hc| |].
  { pose proof (cl_stack _ _ _ _ _ Hc). unfold disjoint_from, entry_sp in *. cbn [word size] in *. lia. }
  assert (Hk : ∀ off v, 0 ≤ off ≤ 16 → load 4 (memory s) (rg s SP + off) = Some v → load 4 m (rg s SP + off) = Some v).
  { intros off v Hoff <-. symmetry. apply load_agree. eapply agree_off_on; [exact Ho|].
    pose proof (cl_args _ _ _ _ _ Hc) as Hd'. unfold disjoint_from, frame in *. lia. }
  set (sb := set_reg (set_reg (set_memory sa m) AX arg) DX routine).
  set (s1 := restored I386 sb (mxcsr s0) (fpucw s0) (rg s0 <$> SP :: callee_saved I386)). exists s1. split_and!.
  - cbn [app exec step is_jump]. rewrite H2. cbn [mbind option_bind set_reg rg memory]. rewrite upd_ne by done. rewrite H3. cbn [mbind option_bind].
    fold (set_reg s AX g). fold (set_reg (set_reg s AX g) CX f). fold sa.
    change 4%nat with (word I386). rewrite exec_app by done. change (save32 AX) with (save I386 AX). rewrite E. cbn [mbind option_bind app exec step is_jump].
    change (load (word I386) (memory (set_memory sa m)) (rg (set_memory sa m) SP + 4)) with (load 4 m (rg s SP + 4)).
    rewrite (Hk 4 arg) by (done || lia). cbn [mbind option_bind].
    change (load (word I386) _ _) with (load 4 m (rg s SP + 8)). rewrite (Hk 8 routine) by (done || lia). cbn [mbind option_bind].
    fold sb. rewrite exec_app by done. change (restore32 CX) with (restore I386 CX).
    rewrite (exec_restore_ok I386 ext next CX sb f s0 ra) by (done || apply (bool_decide_unpack _); done). done.
  - intros r. apply restored_reg.
  - done.
  - done.
  - done.
  - done.
  - exact Ho.
  - exact Hd.
  - exact Hl.
  - apply Hs'.
Qed.

(** [push] of the argument and of the return address. *)
Lemma push_call32 s next :
  8 ≤ rg s SP < 2 ^ 32 → mapped (memory s) (rg s SP - 8) 8 → 0 ≤ rg s AX < 2 ^ 32 →
  ∃ s1 s2, push 4 s (rg s AX) = Some s1 ∧ push 4 s1 next = Some s2 ∧ rg s2 SP = rg s SP - 8 ∧
    (∀ r, r ≠ SP → rg s2 r = rg s r) ∧ mxcsr s2 = mxcsr s ∧ fpucw s2 = fpucw s ∧
    load 4 (memory s2) (rg s SP - 4) = Some (rg s AX) ∧ load 4 (memory s2) (rg s SP - 8) = Some (wrap 4 next) ∧
    agree_off (rg s SP - 8) 8 (memory s) (memory s2).
Proof.
  intros Hsp Hm Hax. destruct (push_ok 4 s (rg s AX)) as (m1 & E1 & L1 & O1 & D1).
  { change (Z.of_nat 4) with 4. change (8 * 4) with 32. lia. } { eapply mapped_sub; [done|lia..]. }
  change (Z.of_nat 4) with 4 in *. set (s1 := set_memory _ m1) in E1.
  assert (H1 : rg s1 SP = rg s SP - 4) by apply upd_eq.
  destruct (push_ok 4 s1 next) as (m2 & E2 & L2 & O2 & D2).
  { change (Z.of_nat 4) with 4. change (8 * 4) with 32. rewrite H1. lia. }
  { rewrite H1. eapply dom_mapped; [exact D1|]. eapply mapped_sub; [done|lia..]. }
  change (Z.of_nat 4) with 4 in *. set (s2 := set_memory _ m2) in E2. rewrite H1 in L2, O2.
  change (memory s1) with m1 in O2. replace (rg s SP - 4 - 4) with (rg s SP - 8) in * by lia.
  exists s1, s2. split_and!; [done|done| | |done|done| |exact L2|].
  - transitivity (rg s1 SP - 4); [apply upd_eq|]. rewrite H1. lia.
  - intros r Hr. cbn [s2 s1 set_memory set_reg rg]. by rewrite !upd_ne.
  - unfold wrap in L1. rewrite Z.mod_small in L1 by exact Hax. rewrite <- L1. symmetry. apply load_agree.
    eapply agree_off_on; [exact O2|]. unfold disjoint_from. lia.
  - eapply agree_off_trans; eapply agree_off_sub; [exact O1|lia|lia|exact O2|lia|lia].
Qed.

(** From the [ret] of the routine to the end. *)
Lemma return_call32 ext next s1 s2 s0 ra :
  8 ≤ rg s0 SP < 2 ^ 32 → rg s1 SP = rg s0 SP - 8 → (∀ r, r ∈ callee_saved I386 → rg s1 r = rg s0 r) →
  mxcsr s1 = mxcsr s0 → fpucw s1 = fpucw s0 →
  is_Some (load 4 (memory s1) (rg s1 SP)) → load 4 (memory s1) (rg s0 SP) = Some ra → c_return I386 (rg s0 SP) s1 s2 →
  ∃ s', ('(v, s) ← pop 4 s2; exec 4 ext next [POP AX; RET] (set_pc s v)) = Some s' ∧ resumed I386 s0 ra s' ∧ memory s' = memory s2.
Proof.
  intros Hlo Hsp Hr Hm Hf [v Hv] Hra [R1 R2 R3 R4 R5 R6]. rewrite Hsp in R4, R6, Hv. change (Z.of_nat (word I386)) with 4 in *.
  assert (Hs2 : rg s2 SP = rg s0 SP - 8) by (rewrite R1 by apply list_elem_of_here; done).
  rewrite (pop_ok 4 s2 v) by (rewrite Hs2, <- Hv; symmetry; by apply load_agree). cbn [mbind option_bind].
  change (Z.of_nat 4) with 4. set (s3 := set_pc _ v).
  assert (Hs3 : rg s3 SP = rg s0 SP - 4).
  { transitivity (wrap 4 (rg s2 SP + 4)); [apply upd_eq|]. rewrite Hs2. unfold wrap. change (8 * Z.of_nat 4) with 32. rewrite Z.mod_small; lia. }
  destruct (load_is_Some 4 (memory s3) (rg s3 SP)) as [a Ha]; [rewrite Hs3; eapply mapped_sub; [exact R6|lia..]|].
  cbn [exec step is_jump]. rewrite (pop_ok 4 s3 a Ha). cbn [mbind option_bind]. set (s4 := set_reg _ AX a).
  destruct (ret_resumes I386 ext next s4 s0 ra) as (s' & E & Hres & Hmem); [|by transitivity (mxcsr s1)|by transitivity (fpucw s1)| |].
  - assert (N : AX ∉ SP :: callee_saved I386) by (by apply (bool_decide_unpack _)).
    intros r Hin. cbn [s4 set_reg rg]. rewrite upd_ne by (intros <-; done).
    destruct (decide (r = SP)) as [->|Hne].
    + rewrite upd_eq, Hs3. unfold wrap. change (8 * Z.of_nat 4) with 32. change (Z.of_nat 4) with 4. rewrite Z.mod_small; lia.
    + rewrite upd_ne by done. cbn [s3 set_pc set_reg rg]. rewrite upd_ne, R1 by done. apply Hr. by apply elem_of_cons in Hin as [->|Hin].
  - rewrite <- Hra. symmetry. by apply load_agree.
  - exists s'. cbn [step word] in E. by rewrite E.
Qed.

Lemma switch_and_call32_ok ext next s arg routine g f s0 ra :
  args I386 s [arg; routine; g; f] → suspended I386 (memory s) f s0 ra → call_ready I386 s g f s0 → 0 ≤ arg < 2 ^ 32 →
  ∃ s1, enters I386 s g s0 arg routine s1 ∧
    ∀ s2, ext s1 = Some s2 → c_return I386 (rg s0 SP) s1 s2 →
      ∃ s', fev_context_switch_and_call I386 ext next s = Some s' ∧ resumed I386 s0 ra s' ∧ memory s' = memory s2.
Proof.
  intros Ha Hs Hc Harg.
  destruct (switch_and_call32_head ext next s arg routine g f s0 ra [PUSH AX; CALL DX; POP AX; RET] Ha Hs Hc)
    as (sr & E & Hr & Hax & Hdx & Hmx & Hfp & Ho & Hd & Hl & Hra).
  pose proof (Hr SP (list_elem_of_here _ _)) as Hsp. destruct (cl_range _ _ _ _ _ Hc) as [Hlo Hhi]. change (8 * Z.of_nat (word I386)) with 32 in Hhi.
  pose proof (cl_room _ _ _ _ _ Hc) as Hroom. pose proof (cl_stack _ _ _ _ _ Hc) as Hst. unfold disjoint_from in Hst. cbn [entry_sp] in *.
  change (Z.of_nat (size I386)) with 28 in *. change (Z.of_nat (word I386)) with 4 in *.
  destruct (push_call32 sr next) as (sa & sb & E1 & E2 & P1 & P2 & P3 & P4 & P5 & P6 & P7); rewrite ?Hsp, ?Hax in *; [lia| |done|].
  { eapply dom_mapped; [exact Hd|]. eapply mapped_sub; [exact Hroom|lia..]. }
  exists (set_pc sb routine). split.
  - split; [done| |exact P1| |].
    + intros [|i] v Hv; [|by rewrite lookup_cons, lookup_nil in Hv]. injection Hv as <-. rewrite <- P5.
      change (rg (set_pc sb routine) SP) with (rg sb SP). rewrite P1. f_equal. lia.
    + intros Hw. rewrite <- (Hl Hw). symmetry. eapply load_fields_agree; [apply (layout_fields I386)|].
      eapply agree_off_on; [exact P7|]. unfold disjoint_from. change (Z.of_nat (size I386)) with 28. lia.
    + intros x Hx1 Hx2. cbn [entry_sp] in Hx2. change (Z.of_nat (size I386)) with 28 in Hx1.
      transitivity (memory sr !! x); [symmetry; apply P7; lia|]. symmetry. by apply Ho.
  - intros s2 Ex Hret. cbn [fev_context_switch_and_call]. unfold switch_and_call32. rewrite E. cbn [exec step]. rewrite Hax, E1. cbn [mbind option_bind is_jump].
    rewrite E2. cbn [mbind option_bind]. rewrite (P2 DX) by done. rewrite Hdx, Ex. cbn [mbind option_bind].
    destruct (return_call32 ext next (set_pc sb routine) s2 s0 ra) as (s' & E' & Hres); [lia|done| |by transitivity (mxcsr sr)|by transitivity (fpucw sr)| | |done|].
    + intros r Hin. transitivity (rg sr r); [apply P2; intros ->; by apply (SP_not_saved I386)|]. apply Hr. by apply list_elem_of_further.
    + change (rg (set_pc sb routine) SP) with (rg sb SP). change (memory (set_pc sb routine)) with (memory sb). rewrite P1, P6. by eexists.
    + rewrite <- Hra. symmetry. apply load_agree. eapply agree_off_on; [exact P7|]. unfold disjoint_from. lia.
    + exists s'. cbn [exec step] in E'. destruct (pop 4 s2) as [[v sv]|]; [|done]. split; [exact E'|exact Hres].
Qed.

Lemma switch_and_call_ok A ext next s arg routine g f s0 ra :
  args A s [arg; routine; g; f] → suspended A (memory s) f s0 ra → call_ready A s g f s0 → 0 ≤ arg < 2 ^ (8 * Z.of_nat (word A)) →
  ∃ s1, enters A s g s0 arg routine s1 ∧
    ∀ s2, ext s1 = Some s2 → c_return A (rg s0 SP) s1 s2 →
      ∃ s', fev_context_switch_and_call A ext next s = Some s' ∧ resumed A s0 ra s' ∧ memory s' = memory s2.
Proof. destruct A; intros; [by eapply switch_and_call64_ok|by eapply switch_and_call32_ok]. Qed.

(** The caller is suspended when the routine is entered. *)
Lemma enters_suspended A s g s0 arg routine s1 ra :
  enters A s g s0 arg routine s1 → well_typed A s → load (word A) (memory s) (rg s SP) = Some ra →
  disjoint_from g (Z.of_nat (size A)) (rg s SP) (Z.of_nat (word A)) →
  disjoint_from (entry_sp A (rg s0 SP)) (rg s0 SP - entry_sp A (rg s0 SP)) (rg s SP) (Z.of_nat (word A)) →
  suspended A (memory s1) g s ra.
Proof.
  intros He Hw Hra Hd1 Hd2. split; [by apply He|]. rewrite <- Hra. apply load_agree. intros x Hx.
  apply (en_memory _ _ _ _ _ _ _ He); unfold disjoint_from in *; lia.
Qed.

(** ** Properties *)

(** What a switch from the machine [s], to be saved at [g], needs: the address of the context
    is valid, its own return address [ra] can be read and lies elsewhere. *)
Record leaves (A : arch) (s : machine) (g ra : Z) : Prop := {
  lv_typed : well_typed A s;
  lv_mapped : mapped (memory s) g (Z.of_nat (size A));
  lv_ra : load (word A) (memory s) (rg s SP) = Some ra;
  lv_stack : disjoint_from g (Z.of_nat (size A)) (rg s SP) (Z.of_nat (word A));
}.

(** C15: A scheduling round on both architectures. A worker [sw] switches to a suspended fiber, which
    goes on exactly where it had left: behind its call, with its stack pointer, the registers a
    callee must preserve and the floating-point control registers. Whatever the fiber then does,
    as long as it leaves alone the worker's context and return address, when it calls
    [fev_context_switch_and_call] the routine runs on the worker's stack with its argument, at
    a time when the fiber is completely saved, so that somebody else may resume it at once; and
    when the routine returns, the worker goes on exactly where it had left. *)
Theorem context_round_trip A sw w raw f sf raf :
  leaves A sw w raw → args A sw [w; f] → suspended A (memory sw) f sf raf →
  disjoint_from w (Z.of_nat (size A)) f (Z.of_nat (size A)) →
  disjoint_from w (Z.of_nat (size A)) (rg sf SP) (Z.of_nat (word A)) →
  ∃ s1, fev_context_switch A sw = Some s1 ∧ resumed A sf raf s1 ∧
    ∀ s2 arg routine ra2 ext next,
      agree_on w (Z.of_nat (size A)) (memory s1) (memory s2) →
      agree_on (rg sw SP) (Z.of_nat (word A)) (memory s1) (memory s2) →
      leaves A s2 f ra2 → args A s2 [arg; routine; f; w] → 0 ≤ arg < 2 ^ (8 * Z.of_nat (word A)) → call_ready A s2 f w sw →
      disjoint_from (entry_sp A (rg sw SP)) (rg sw SP - entry_sp A (rg sw SP)) (rg s2 SP) (Z.of_nat (word A)) →
      ∃ s3, enters A s2 f sw arg routine s3 ∧ suspended A (memory s3) f s2 ra2 ∧
        ∀ s4, ext s3 = Some s4 → c_return A (rg sw SP) s3 s4 →
          ∃ s5, fev_context_switch_and_call A ext next s2 = Some s5 ∧ resumed A sw raw s5 ∧ memory s5 = memory s4.
Proof.
  intros [Hw Hm Hra Hst] Ha Hs Hd1 Hd2. destruct (context_switch_ok A sw w f sf raf) as (s1 & E1 & Hr1 & Ho & _ & Hl); [done..|].
  exists s1. split_and!; [done..|]. intros s2 arg routine ra2 ext next Hc Hk [Hw2 Hm2 Hra2 Hst2] Ha2 Harg Hcl Hd3.
  assert (Hsw : suspended A (memory s2) w sw raw).
  { eapply suspended_agree; [|exact Hc|exact Hk]. split; [by apply Hl|]. rewrite <- Hra. symmetry. apply load_agree. by eapply agree_off_on. }
  destruct (switch_and_call_ok A ext next s2 arg routine f w sw raw) as (s3 & He & Hret); [done..|].
  exists s3. split_and!; [done|by eapply enters_suspended|done].
Qed.

(** The machine a new context stands for. *)
Definition fresh (sp : Z) : machine := mk_machine (upd (λ _, 0) SP sp) 0 0 0 ∅.

Lemma init_fields A m m' context sp :
  (∀ x, context ≤ x < context + Z.of_nat (size A) → m !! x = Some 0) →
  agree_off (context + 8) (Z.of_nat (word A)) m m' → load (word A) m' (context + 8) = Some sp →
  load_fields m' context (fields A) = Some (values A (fresh sp)).
Proof.
  intros Hz Ho Hl.
  assert (H0 : ∀ off n, 0 ≤ off → off + Z.of_nat n ≤ 8 ∨ 8 + Z.of_nat (word A) ≤ off → off + Z.of_nat n ≤ Z.of_nat (size A) →
    load n m' (context + off) = Some 0).
  { intros off n H1 H2 H3. apply load_zero. intros x Hx. rewrite <- (Ho x) by lia. apply Hz. lia. }
  unfold load_fields, size, sizeof_ctx64, sizeof_ctx32 in *. destruct A; cbn [fields word] in *; unfold ctx64, ctx32; cbn [mapM fst snd];
    rewrite Hl, !H0 by lia; reflexivity.
Qed.

(** [fev_context_init] makes a context that is suspended just before the start routine: a
    switch to it begins the routine, on the stack that was given, with the stack pointer aligned
    as the calling convention wants it at the entry of a function, and the word 0xdeadbabe as its
    return address. The floating-point control registers are 0 then: no exception is masked. *)
Lemma context_init_ok A m context stack_bottom stack_size start_addr :
  let W := Z.of_nat (word A) in let top := stack_bottom + stack_size in
  mapped m context (Z.of_nat (size A)) → mapped m (top - 2 * W) (2 * W) →
  disjoint_from context (Z.of_nat (size A)) (top - 2 * W) (2 * W) →
  0 ≤ stack_bottom → 2 * W ≤ stack_size → top < 2 ^ (8 * W) → top mod 16 = 0 → 0 ≤ start_addr < 2 ^ (8 * W) →
  ∃ m', fev_context_init (word A) (size A) m context stack_bottom stack_size start_addr = Some m' ∧
    suspended A m' context (fresh (top - 2 * W)) start_addr ∧
    (∀ x, ¬ (context ≤ x < context + Z.of_nat (size A)) → ¬ (top - 2 * W ≤ x < top) → m' !! x = m !! x) ∧
    dom m' = dom m ∧
    ∀ s', resumed A (fresh (top - 2 * W)) start_addr s' →
      pc s' = start_addr ∧ (rg s' SP + W) mod 16 = 0 ∧ load (word A) m' (rg s' SP) = Some 0xdeadbabe ∧
      mxcsr s' = 0 ∧ fpucw s' = 0.
Proof.
  cbv zeta. intros Hmc Hms Hdis Hb Hsz Htop Hal Hst.
  assert (HW : Z.of_nat (word A) = 8 ∨ Z.of_nat (word A) = 4) by (destruct A; [by left|by right]).
  assert (Hsize : 8 + Z.of_nat (word A) ≤ Z.of_nat (size A)) by (by destruct A).
  set (W := Z.of_nat (word A)) in *. set (top := stack_bottom + stack_size) in *. unfold disjoint_from in Hdis.
  assert (Hmod : top mod W = 0).
  { apply Z.mod_divide in Hal as [k Hk]; [|lia]. apply Z.mod_divide; [lia|]. destruct HW as [-> | ->]; [exists (2 * k)|exists (4 * k)]; lia. }
  unfold fev_context_init. fold W top. rewrite (proj2 (Z.leb_le _ _)), (proj2 (Z.eqb_eq _ _) Hmod) by lia.
  destruct (store_ok (word A) m (top - W) 0xdeadbabe) as (m1 & E1 & L1 & O1 & D1); [eapply mapped_sub; [exact Hms|lia..]|].
  rewrite E1. cbn [mbind option_bind].
  destruct (store_ok (word A) m1 (top - W - W) start_addr) as (m2 & E2 & L2 & O2 & D2);
    [eapply dom_mapped; [exact D1|]; eapply mapped_sub; [exact Hms|lia..]|].
  rewrite E2. cbn [mbind option_bind].
  destruct (zero_ok (size A) m2 context) as (m3 & E3 & Z3 & O3 & D3); [eapply dom_mapped; [exact D2|]; by eapply dom_mapped; [exact D1|]|].
  rewrite E3. cbn [mbind option_bind].
  destruct (store_ok (word A) m3 (context + 8) (top - W - W)) as (m4 & E4 & L4 & O4 & D4).
  { intros x Hx. rewrite Z3 by lia. by eexists. }
  exists m4. fold W in L1, O1, L2, O2, L4, O4. replace (top - W - W) with (top - 2 * W) in * by lia.
  assert (H34 : agree_off context (Z.of_nat (size A)) m2 m4).
  { eapply agree_off_trans; [exact O3|]. eapply agree_off_sub; [exact O4|lia..]. }
  assert (Hstack : ∀ a, top - 2 * W ≤ a → a + W ≤ top → load (word A) m4 a = load (word A) m2 a).
  { intros a H1 H2. symmetry. apply load_agree. eapply agree_off_on; [exact H34|]. unfold disjoint_from. fold W. lia. }
  rewrite Z.mod_small in L2, L4 by lia. split_and!; [done| | |congruence|].
  - split; [by eapply init_fields|]. cbn [fresh rg]. rewrite upd_eq, Hstack by lia. exact L2.
  - intros x Hx1 Hx2. rewrite <- (H34 x Hx1), <- (O2 x), <- (O1 x) by lia. done.
  - intros s' [R1 R2 _ R4 R5]. cbn [fresh rg] in R2. rewrite upd_eq in R2. unfold wrap in R2. fold W in R2.
    replace (top - 2 * W + W) with (top - W) in R2 by lia. rewrite Z.mod_small in R2 by lia. rewrite R2, Hstack by lia.
    split_and!; [done|by replace (top - W + W) with top by lia| |done|done].
    rewrite <- (load_agree (word A) m1 m2) by (eapply agree_off_on; [exact O2|unfold disjoint_from; fold W; lia]).
    rewrite L1. f_equal. apply Z.mod_small. destruct HW as [-> | ->]; lia.
Qed.

(** *** Examples *)

Lemma mapped_b m a n : forallb (λ i, bool_decide (is_Some (m !! (a + Z.of_nat i)))) (seq 0 (Z.to_nat n)) = true → mapped m a n.
Proof.
  intros H x Hx. rewrite forallb_forall in H. specialize (H (Z.to_nat (x - a))). rewrite Z2Nat.id in H by lia.
  replace (a + (x - a)) with x in H by lia. apply bool_decide_eq_true in H; [done|]. apply in_seq. lia.
Qed.

(** A routine that returns at once. *)
Lemma c_return_refl A sp s : mapped (memory s) (rg s SP) (sp - rg s SP) → c_return A sp s s.
Proof. by split. Qed.

(** A worker with its context at 0x100 and its stack in [0x300, 0x400), about to switch to a new
    fiber with its context at 0x200 and its stack in [0x400, 0x500). *)
Definition ex_memory : mem := list_to_map ((λ i, (0x100 + Z.of_nat i, 0)) <$> seq 0 0x400).
Definition ex_initialised : mem := default ∅ (fev_context_init 8 64 ex_memory 0x200 0x400 0x100 0xabcd).
Definition ex_worker : machine :=
  mk_machine (upd (upd (upd (λ _, 7) SP 0x3f8) DI 0x100) SI 0x200) 0x1f80 0x37f 0 ex_initialised.
Definition ex_fiber : machine := fresh (0x500 - 2 * 8).

(** The fiber yields: it is in [fev_context_switch_and_call(9, 0x77, 0x200, 0x100)]. *)
Definition ex_yields : machine :=
  mk_machine (upd (upd (upd (upd (upd (λ _, 5) SP 0x4e8) DI 9) SI 0x77) DX 0x200) CX 0x100) 0x1f80 0x37f 0
    (memory (default ex_worker (fev_context_switch X86_64 ex_worker))).

Lemma context_round_trip_witness :
  ∃ s5, fev_context_switch_and_call X86_64 Some 0 ex_yields = Some s5 ∧ rg s5 BX = 7 ∧ rg s5 SP = 0x400 ∧ mxcsr s5 = 0x1f80.
Proof.
  destruct (context_round_trip X86_64 ex_worker 0x100 0 0x200 ex_fiber 0xabcd) as (s1 & E1 & _ & H).
  - split; [repeat constructor; vm_compute; discriminate|apply mapped_b; vm_compute; reflexivity|vm_compute; reflexivity|left; vm_compute; discriminate].
  - intros [|[|i]] v Hv; [by injection Hv as <-|by injection Hv as <-|discriminate Hv].
  - split; vm_compute; reflexivity.
  - left. vm_compute. discriminate.
  - left. vm_compute. discriminate.
  - assert (Hm : memory s1 = memory ex_yields) by (unfold ex_yields; rewrite E1; reflexivity).
    destruct (H ex_yields 9 0x77 0 Some 0) as (s3 & He & _ & Hret).
    + rewrite Hm. apply agree_on_refl.
    + rewrite Hm. apply agree_on_refl.
    + split; [repeat constructor; vm_compute; discriminate|apply mapped_b; vm_compute; reflexivity|vm_compute; reflexivity|left; vm_compute; discriminate].
    + intros [|[|[|[|i]]]] v Hv; [injection Hv as <-; reflexivity..|discriminate Hv].
    + split; [lia|reflexivity].
    + split; [apply mapped_b; vm_compute; reflexivity|right; vm_compute; discriminate|left; vm_compute; discriminate|
              left; vm_compute; discriminate|intros x Hx; cbn in Hx; lia|split; [vm_compute; discriminate|reflexivity]].
    + left. vm_compute. discriminate.
    + destruct (Hret s3 eq_refl) as (s5 & E5 & [_ Hsp Hr Hmx _] & _).
      { apply c_return_refl. rewrite (en_sp _ _ _ _ _ _ _ He). intros x Hx. cbn in Hx. lia. }
      exists s5. split; [exact E5|]. rewrite Hsp, Hmx, Hr by (apply (bool_decide_unpack _); vm_compute; exact I).
      split; [reflexivity|split; reflexivity].
Defined.

(** A function expects its return address just below an address that is a multiple of 16. On x86-64 the
    routine finds that if the suspended caller did; on i386 it never does, because its argument was pushed. *)
Lemma routine_alignment sp :
  ((sp + 8) mod 16 = 0 → (entry_sp X86_64 sp + 8) mod 16 = 0) ∧
  ((sp + 4) mod 16 = 0 → (entry_sp I386 sp + 4) mod 16 = 8).
Proof.
  split; [done|]. cbn [entry_sp]. intros H. apply Z.mod_divide in H as [k Hk]; [|lia].
  symmetry. apply (Z.mod_unique_pos _ _ (k - 1)); lia.
Qed.
