(* ===== verification/Stack.v ===== *)
(** Attributes and stacks of fibers: [src/src/fev_fiber_attr.c], [fev_sched_attr.c], [fev_stack_posix.c], and
    the part of [fev_fiber_create] that gives a new fiber its stack and its context ([Context]).

    The page size and the default sizes are those of the build configuration. What the operating system
    returns is an argument. *)

From S2P Require Import Prelude Memory Alloc Context.

Local Open Scope Z_scope.

(** ** Attributes *)

Definition FEV_PAGE_SIZE : Z := 4096.
Definition FEV_DEFAULT_STACK_SIZE : Z := 65536.
Definition FEV_DEFAULT_GUARD_SIZE : Z := 0.

Record fev_fiber_attr := mk_fiber_attr { stack_addr : Z; stack_size : Z; guard_size : Z; detached : bool }.

Definition fev_fiber_create_default_attr : fev_fiber_attr := mk_fiber_attr 0 FEV_DEFAULT_STACK_SIZE FEV_DEFAULT_GUARD_SIZE false.
Definition fev_fiber_spawn_default_attr : fev_fiber_attr := mk_fiber_attr 0 FEV_DEFAULT_STACK_SIZE FEV_DEFAULT_GUARD_SIZE true.

(** [ok]: the allocation succeeds. *)
Definition fev_fiber_attr_create (ok : bool) : Z * option fev_fiber_attr :=
  if ok then
    (0, Some (mk_fiber_attr (stack_addr fev_fiber_create_default_attr) (stack_size fev_fiber_create_default_attr)
                (guard_size fev_fiber_create_default_attr) (detached fev_fiber_create_default_attr)))
  else (- ENOMEM, None).

Definition fev_fiber_attr_get_stack (attr : fev_fiber_attr) : Z * Z := (stack_addr attr, stack_size attr).

Definition fev_fiber_attr_set_stack (attr : fev_fiber_attr) (addr size : Z) : Z * fev_fiber_attr :=
  if negb (addr mod FEV_PAGE_SIZE =? 0) then (- EINVAL, attr)
  else if negb (size mod FEV_PAGE_SIZE =? 0) then (- EINVAL, attr)
  else (0, mk_fiber_attr addr size (guard_size attr) (detached attr)).

Definition fev_fiber_attr_get_stack_size (attr : fev_fiber_attr) : Z := stack_size attr.

Definition fev_fiber_attr_set_stack_size (attr : fev_fiber_attr) (size : Z) : Z * fev_fiber_attr :=
  if negb (size mod FEV_PAGE_SIZE =? 0) then (- EINVAL, attr)
  else (0, mk_fiber_attr (stack_addr attr) size (guard_size attr) (detached attr)).

Definition fev_fiber_attr_get_guard_size (attr : fev_fiber_attr) : Z := guard_size attr.

Definition fev_fiber_attr_set_guard_size (attr : fev_fiber_attr) (size : Z) : Z * fev_fiber_attr :=
  if negb (size mod FEV_PAGE_SIZE =? 0) then (- EINVAL, attr)
  else (0, mk_fiber_attr (stack_addr attr) (stack_size attr) size (detached attr)).

Definition fev_fiber_attr_get_detached (attr : fev_fiber_attr) : bool := detached attr.

Definition fev_fiber_attr_set_detached (attr : fev_fiber_attr) (d : bool) : fev_fiber_attr :=
  mk_fiber_attr (stack_addr attr) (stack_size attr) (guard_size attr) d.

(** The attributes of a scheduler; 0 stands for the number of processors. *)
Record fev_sched_attr := mk_sched_attr { num_workers : Z }.

Definition fev_sched_default_attr : fev_sched_attr := mk_sched_attr 0.
Definition fev_sched_attr_create (ok : bool) : Z * option fev_sched_attr :=
  if ok then (0, Some (mk_sched_attr (num_workers fev_sched_default_attr))) else (- ENOMEM, None).
Definition fev_sched_attr_get_num_workers (attr : fev_sched_attr) : Z := num_workers attr.
Definition fev_sched_attr_set_num_workers (attr : fev_sched_attr) (n : Z) : fev_sched_attr := mk_sched_attr n.

(** [fev_get_num_processors]: [value] is what [sysconf] returns; [None]: the process aborts. *)
Definition fev_get_num_processors (value : Z) : option Z :=
  if value =? -1 then None
  else if value <? 1 then None
  else
    let value := if UINT32_MAX <=? value then UINT32_MAX else value in
    Some (u32 value).

(** ** Stacks *)

Definition fev_stack_free (m : mem) (addr total_stack_size : Z) : mem := unmap_bytes m addr total_stack_size.

(** [addr]: what [mmap] returns, an address or [-errno]; [mprotect]: 0 or [-errno]. The bytes of the guard
    are not accessible. The result is the returned value, the address and the memory. *)
Definition fev_stack_alloc (m : mem) (usable_size guard_size addr mprotect : Z) : option (Z * Z * mem) :=
  FEV_ASSERT (usable_size <=? SIZE_MAX - guard_size);
  let total_size := usable_size + guard_size in
  if addr <? 0 then Some (addr, 0, m)
  else
    let m := map_bytes m addr total_size in
    if 0 <? guard_size then
      if negb (mprotect =? 0) then Some (mprotect, 0, fev_stack_free m addr total_size)
      else Some (0, addr, unmap_bytes m addr guard_size)
    else Some (0, addr, m).

(** ** The stack of a new fiber *)

Record fiber_stack := mk_fiber_stack { fs_addr : Z; fs_total : Z; fs_user : bool }.

(** The user's stack, or a new one; an error otherwise. *)
Definition create_stack (m : mem) (attr : fev_fiber_attr) (addr mprotect : Z) : option (Z * fiber_stack * mem) :=
  if negb (stack_addr attr =? 0) then Some (0, mk_fiber_stack (stack_addr attr) (stack_size attr) true, m)
  else
    '(ret, a, m) ← fev_stack_alloc m (stack_size attr) (guard_size attr) addr mprotect;
    Some (ret, mk_fiber_stack a (u64 (stack_size attr + guard_size attr)) false, m).

(** ... and the context, which is written only if there is a stack. *)
Definition create_context (A : arch) (m : mem) (attr : fev_fiber_attr) (addr mprotect context start : Z)
    : option (Z * fiber_stack * mem) :=
  '(ret, st, m) ← create_stack m attr addr mprotect;
  if negb (ret =? 0) then Some (ret, st, m)
  else
    m ← fev_context_init (word A) (size A) m context (fs_addr st) (fs_total st) start;
    Some (0, st, m).

(** The end of [fev_fiber_exit_post], and the error path of [fev_fiber_create]. *)
Definition free_stack (m : mem) (st : fiber_stack) : mem :=
  if negb (fs_user st) then fev_stack_free m (fs_addr st) (fs_total st) else m.

(** ** Attributes stay well formed *)

Inductive attr_op := SetStack (addr size : Z) | SetStackSize (size : Z) | SetGuardSize (size : Z) | SetDetached (d : bool).

Definition attr_step (attr : fev_fiber_attr) (o : attr_op) : fev_fiber_attr :=
  match o with
  | SetStack a n => (fev_fiber_attr_set_stack attr a n).2
  | SetStackSize n => (fev_fiber_attr_set_stack_size attr n).2
  | SetGuardSize n => (fev_fiber_attr_set_guard_size attr n).2
  | SetDetached d => fev_fiber_attr_set_detached attr d
  end.

(** The arguments have the type [size_t] or are addresses. *)
Definition op_typed (o : attr_op) : bool :=
  match o with
  | SetStack a n => (0 <=? a) && (a <? 2 ^ 64) && (0 <=? n) && (n <? 2 ^ 64)
  | SetStackSize n | SetGuardSize n => (0 <=? n) && (n <? 2 ^ 64)
  | SetDetached _ => true
  end.

Record attr_ok (attr : fev_fiber_attr) : Prop := {
  ao_addr : 0 ≤ stack_addr attr < 2 ^ 64 ∧ stack_addr attr mod FEV_PAGE_SIZE = 0;
  ao_size : 0 ≤ stack_size attr < 2 ^ 64 ∧ stack_size attr mod FEV_PAGE_SIZE = 0;
  ao_guard : 0 ≤ guard_size attr < 2 ^ 64 ∧ guard_size attr mod FEV_PAGE_SIZE = 0;
}.

Lemma attr_step_ok attr o : attr_ok attr → op_typed o = true → attr_ok (attr_step attr o).
Proof.
  intros Hok Ht. pose proof Hok as [Ha Hs Hg].
  destruct o; cbn [op_typed attr_step] in *; Zbool;
    unfold fev_fiber_attr_set_stack, fev_fiber_attr_set_stack_size, fev_fiber_attr_set_guard_size, fev_fiber_attr_set_detached;
    repeat match goal with |- context [negb ?b] => destruct b eqn:?; cbn [negb] end; Zbool; try done; split; simpl; done.
Qed.

Lemma attr_run_ok ops : ∀ attr, attr_ok attr → forallb op_typed ops = true → attr_ok (foldl attr_step attr ops).
Proof.
  induction ops as [|o ops IH]; intros attr Hok Ht; [done|]. simpl in *. apply andb_true_iff in Ht as [H1 H2].
  apply IH; [by apply attr_step_ok|done].
Qed.

Lemma default_attr_ok : attr_ok fev_fiber_create_default_attr ∧ attr_ok fev_fiber_spawn_default_attr.
Proof. split; split; done. Qed.

(** ** New fibers *)

(** Where the stack of a fiber with these attributes lies. *)
Definition area (attr : fev_fiber_attr) (addr : Z) : Z * Z :=
  if stack_addr attr =? 0 then (addr, stack_size attr + guard_size attr) else (stack_addr attr, stack_size attr).

(** The user's stack is accessible, or [mmap] returned whole pages that were not in use and [mprotect] succeeded. *)
Record stack_given (A : arch) (m : mem) (attr : fev_fiber_attr) (addr mprotect : Z) : Prop := {
  sg_user : stack_addr attr ≠ 0 → mapped m (stack_addr attr) (stack_size attr);
  sg_mmap : stack_addr attr = 0 → 0 ≤ addr ∧ addr mod FEV_PAGE_SIZE = 0 ∧ mprotect = 0;
  sg_fresh x : stack_addr attr = 0 → (area attr addr).1 ≤ x < (area attr addr).1 + (area attr addr).2 → m !! x = None;
  sg_range : (area attr addr).1 + (area attr addr).2 < 2 ^ (8 * Z.of_nat (word A));
}.

(** What [create_stack] gives. *)
Record stack_made (m : mem) (attr : fev_fiber_attr) (addr : Z) (st : fiber_stack) (m' : mem) : Prop := {
  sm_area : (fs_addr st, fs_total st) = area attr addr;
  sm_usable : mapped m' (fs_addr st + fs_total st - stack_size attr) (stack_size attr);
  sm_guard x : fs_addr st ≤ x < fs_addr st + fs_total st - stack_size attr → m' !! x = None;
  sm_other : agree_off (fs_addr st) (fs_total st) m m';
  sm_size : stack_size attr ≤ fs_total st;
  sm_addr : 0 ≤ fs_addr st ∧ (fs_addr st + fs_total st) mod FEV_PAGE_SIZE = 0;
}.

Lemma page_sum a b : a mod FEV_PAGE_SIZE = 0 → b mod FEV_PAGE_SIZE = 0 → (a + b) mod FEV_PAGE_SIZE = 0.
Proof. intros Ha Hb. by rewrite Z.add_mod, Ha, Hb by done. Qed.

Lemma word_64 A : 2 ^ (8 * Z.of_nat (word A)) ≤ 2 ^ 64.
Proof. by destruct A. Qed.

Lemma create_stack_ok A m attr addr mprotect :
  attr_ok attr → stack_given A m attr addr mprotect →
  ∃ st m', create_stack m attr addr mprotect = Some (0, st, m') ∧ stack_made m attr addr st m'.
Proof.
  intros [[Ha1 Ha2] [Hs1 Hs2] [Hg1 Hg2]] [Hu Hm Hf Hr]. pose proof (word_64 A) as HW. unfold create_stack, area in *.
  destruct (Z.eqb_spec (stack_addr attr) 0) as [E0|E0]; cbn [negb fst snd] in *.
  2:{ eexists _, m. split; [done|]. split; simpl; [unfold area; by rewrite (proj2 (Z.eqb_neq _ _) E0)| | |by intros x Hx|lia|split; [lia|by apply page_sum]].
      - replace (stack_addr attr + stack_size attr - stack_size attr) with (stack_addr attr) by lia. auto.
      - lia. }
  destruct (Hm E0) as (Hm1 & Hm2 & ->). unfold fev_stack_alloc. unfold SIZE_MAX. rewrite (proj2 (Z.leb_le _ _)), (proj2 (Z.ltb_ge addr 0)) by lia.
  cbv zeta. rewrite u64_small by lia. set (total := stack_size attr + guard_size attr) in *.
  set (m1 := map_bytes m addr total). set (m2 := if 0 <? guard_size attr then unmap_bytes m1 addr (guard_size attr) else m1).
  exists (mk_fiber_stack addr total false), m2. split; [unfold m2; by destruct (0 <? guard_size attr)|].
  assert (Hm2' : ∀ x, m2 !! x = if decide (addr ≤ x < addr + guard_size attr) then None else m1 !! x).
  { intros x. unfold m2. destruct (Z.ltb_spec 0 (guard_size attr)); [apply unmap_bytes_lookup|]. by rewrite decide_False by lia. }
  split; simpl.
  - unfold area. by rewrite E0.
  - intros x Hx. rewrite Hm2', decide_False by lia. apply map_bytes_mapped. lia.
  - intros x Hx. by rewrite Hm2', decide_True by lia.
  - intros x Hx. rewrite Hm2', decide_False by lia. by apply map_bytes_other.
  - lia.
  - split; [lia|]. by apply page_sum, page_sum.
Qed.

Lemma create_stack_user m attr addr mprotect ret st m' :
  create_stack m attr addr mprotect = Some (ret, st, m') → fs_user st = negb (stack_addr attr =? 0).
Proof.
  unfold create_stack. destruct (stack_addr attr =? 0); cbn [negb]; [|by intros [= _ <- _]].
  destruct (fev_stack_alloc _ _ _ _ _) as [[[r a] m1]|]; [|done]. cbn [mbind option_bind]. by intros [= _ <- _].
Qed.

(** C16: A new fiber. For all attributes that can be built from the default ones with the setters, and a stack
    that is not empty, on both architectures: if the user's stack is accessible, or the system gives the pages,
    then the fiber gets a context that is suspended at the beginning of the start routine with its stack pointer
    at the top of the stack, aligned to 16 bytes; the whole stack is usable, the guard below it is not accessible,
    and apart from the stack and the context no memory changes. When the fiber exits, exactly a stack that was
    allocated is released. If the system refuses, its error is returned and nothing changes. *)
Theorem new_fiber_stack A m ops addr mprotect context start :
  let attr := foldl attr_step fev_fiber_create_default_attr ops in
  let W := Z.of_nat (word A) in
  forallb op_typed ops = true → 0 < stack_size attr →
  (stack_given A m attr addr mprotect → mapped m context (Z.of_nat (size A)) →
   disjoint_from context (Z.of_nat (size A)) (area attr addr).1 (area attr addr).2 → 0 ≤ start < 2 ^ (8 * W) →
   ∃ st m', create_context A m attr addr mprotect context start = Some (0, st, m') ∧
     (fs_addr st, fs_total st) = area attr addr ∧
     let top := fs_addr st + fs_total st in
     suspended A m' context (fresh (top - 2 * W)) start ∧ top mod 16 = 0 ∧
     mapped m' (top - stack_size attr) (stack_size attr) ∧ (∀ x, fs_addr st ≤ x < top - stack_size attr → m' !! x = None) ∧
     (∀ x, ¬ (context ≤ x < context + Z.of_nat (size A)) → ¬ (fs_addr st ≤ x < top) → m' !! x = m !! x) ∧
     (∀ x, free_stack m' st !! x = if decide (fs_addr st ≤ x < top ∧ stack_addr attr = 0) then None else m' !! x)) ∧
  (stack_addr attr = 0 → stack_size attr + guard_size attr ≤ SIZE_MAX →
   (∀ x, addr ≤ x < addr + (stack_size attr + guard_size attr) → m !! x = None) → addr < 0 ∨ 0 < guard_size attr ∧ mprotect < 0 →
   ∃ st, create_context A m attr addr mprotect context start = Some (if addr <? 0 then addr else mprotect, st, m)).
Proof.
  intros attr W Ht Hpos. assert (Hok : attr_ok attr) by (apply attr_run_ok; [apply default_attr_ok|done]). split.
  - intros Hg Hmc Hd Hst. destruct (create_stack_ok A m attr addr mprotect Hok Hg) as (st & m1 & E & [Sa Su Sg So Ss [Sp Sal]]).
    pose proof Hok as [_ [Hs1 Hs2] _]. pose proof (sg_range _ _ _ _ _ Hg) as Hr. rewrite <- Sa in Hd, Hr. cbn [fst snd] in Hd, Hr. fold W in Hr.
    assert (Hpage : 4096 ≤ stack_size attr).
    { apply Z.mod_divide in Hs2 as [k Hk]; [|done]. unfold FEV_PAGE_SIZE in Hk. lia. }
    assert (HW : W = 8 ∨ W = 4) by (unfold W; destruct A; [by left|by right]).
    assert (H16 : (fs_addr st + fs_total st) mod 16 = 0).
    { apply Z.mod_divide in Sal as [k Hk]; [|done]. unfold FEV_PAGE_SIZE in Hk. apply Z.mod_divide; [lia|]. exists (256 * k). lia. }
    destruct (context_init_ok A m1 context (fs_addr st) (fs_total st) start) as (m2 & E2 & Hsus & Hoth & Hdom & _);
      [|eapply mapped_sub; [exact Su|fold W; lia..]|unfold disjoint_from in *; fold W; lia|lia|fold W; lia|fold W; lia|done|done|].
    { eapply agree_mapped; [|exact Hmc]. eapply agree_off_on; [exact So|]. unfold disjoint_from in *. lia. }
    fold W in Hsus, Hoth. exists st, m2. unfold create_context. rewrite E. cbn [mbind option_bind]. cbn [Z.eqb negb]. rewrite E2. cbn [mbind option_bind].
    split; [done|]. cbv zeta. split_and!; [exact Sa|done|done|by eapply dom_mapped| | |].
    + intros x Hx. apply not_elem_of_dom. rewrite Hdom. apply not_elem_of_dom. by apply Sg.
    + intros x Hx1 Hx2. rewrite Hoth by lia. symmetry. apply So. lia.
    + intros x. unfold free_stack. rewrite (create_stack_user _ _ _ _ _ _ _ E). destruct (Z.eqb_spec (stack_addr attr) 0) as [E0|E0]; cbn [negb].
      * unfold fev_stack_free. rewrite unmap_bytes_lookup. by repeat case_decide; try tauto.
      * rewrite decide_False by tauto. done.
  - intros E0 Hmax Hfr Hfail. unfold create_context, create_stack, fev_stack_alloc. rewrite E0. cbn [Z.eqb negb].
    rewrite (proj2 (Z.leb_le _ _)) by lia. destruct (Z.ltb_spec addr 0) as [Ha|Ha]; cbn [mbind option_bind].
    + rewrite (proj2 (Z.eqb_neq addr 0)) by lia. by eexists.
    + destruct Hfail as [?|[Hg Hp]]; [lia|]. rewrite (proj2 (Z.ltb_lt 0 _)), (proj2 (Z.eqb_neq mprotect 0)) by lia. cbn [negb mbind option_bind].
      rewrite (proj2 (Z.eqb_neq mprotect 0)) by lia. eexists. do 2 f_equal. unfold fev_stack_free. apply map_eq. intros x.
      rewrite unmap_bytes_lookup. case_decide; [symmetry; by apply Hfr|symmetry; by apply map_bytes_other].
Qed.

(** A stack of one page with a guard page, at 0x10000; the context is at 0x100. *)
Definition ex_ops : list attr_op := [SetStackSize 4096; SetGuardSize 4096; SetStackSize 100; SetDetached true].

Lemma new_fiber_stack_witness :
  ∃ st m', create_context X86_64 (region 0x100 64) (foldl attr_step fev_fiber_create_default_attr ex_ops) 0x10000 0 0x100 0xabcd
           = Some (0, st, m') ∧ suspended X86_64 m' 0x100 (fresh (0x12000 - 2 * 8)) 0xabcd.
Proof.
  destruct (new_fiber_stack X86_64 (region 0x100 64) ex_ops 0x10000 0 0x100 0xabcd) as [H _]; [reflexivity|reflexivity|].
  destruct H as (st & m' & E & Ha & Hs & _).
  - split; [done|by intros _|intros x _ Hx; rewrite region_lookup, decide_False; [done|change (0x10000 ≤ x < 0x10000 + 8192) in Hx; lia]|reflexivity].
  - intros x Hx. rewrite region_lookup, decide_True; [by eexists|change (0x100 ≤ x < 0x100 + 64) in Hx; lia].
  - left. vm_compute. discriminate.
  - split; [lia|reflexivity].
  - exists st, m'. split; [exact E|]. change (area _ _) with (0x10000, 0x2000) in Ha. injection Ha as Ha1 Ha2. rewrite Ha1, Ha2 in Hs. exact Hs.
Defined.

(** The setters accept a stack of size 0, with which [fev_context_init] writes below the stack: into the guard,
    or, for a stack of the user, into memory that is not the stack's. *)
Lemma empty_stack_faults :
  let attr := foldl attr_step fev_fiber_create_default_attr [SetStackSize 0; SetGuardSize 4096] in
  (fev_fiber_attr_set_stack_size fev_fiber_create_default_attr 0).1 = 0 ∧
  create_context X86_64 (region 0x100 64) attr 0x10000 0 0x100 0xabcd = None.
Proof. split; [reflexivity|vm_compute; reflexivity]. Qed.

Lemma empty_user_stack_overwrites :
  let '(ret, attr) := fev_fiber_attr_set_stack fev_fiber_create_default_attr 0x10000 0 in
  ret = 0 ∧
  (λ r, load 8 r.2 (0x10000 - 8)) <$> create_context X86_64 (region 0x100 64 ∪ region 0xff00 0x100) attr 0 0 0x100 0xabcd
  = Some (Some 0xdeadbabe).
Proof. split; [reflexivity|vm_compute; reflexivity]. Qed.
