(* ===== verification/Time.v ===== *)
(** Time arithmetic: [src/src/fev_time.h].

    [struct timespec] with [time_t] and [long] of 64 bits. The value read from
    the monotonic clock is an argument [now] of the operations that read it.
    Signed overflow and failed assertions are [None]. *)

From S2P Require Import Prelude.

Local Open Scope Z_scope.

Record timespec := mk_timespec { tv_sec : Z; tv_nsec : Z }.

#[export] Instance timespec_eq_dec : EqDecision timespec.
Proof. solve_decision. Defined.

Definition FEV_NSECS_PER_SEC : Z := 1000 * 1000 * 1000.

(** The result of a signed [long] operation; overflow is undefined. *)
Definition clong (z : Z) : option Z :=
  if (- 2 ^ 63 <=? z) && (z <? 2 ^ 63) then Some z else None.

Definition fev_timespec_assert_valid (ts : timespec) : bool :=
  (0 <=? tv_sec ts) && ((0 <=? tv_nsec ts) && (tv_nsec ts <? FEV_NSECS_PER_SEC)).

Definition fev_timespec_cmp (lhs rhs : timespec) : option Z :=
  FEV_ASSERT fev_timespec_assert_valid lhs;
  FEV_ASSERT fev_timespec_assert_valid rhs;
  sec_cmp ← clong (tv_sec lhs - tv_sec rhs);
  if negb (sec_cmp =? 0) then Some sec_cmp
  else clong (tv_nsec lhs - tv_nsec rhs).

Definition fev_timespec_abs_to_rel (now abs_time : timespec) : option timespec :=
  FEV_ASSERT fev_timespec_assert_valid abs_time;
  c ← fev_timespec_cmp now abs_time;
  if 0 <=? c then Some (mk_timespec 0 0)
  else
    sec ← clong (tv_sec abs_time - tv_sec now);
    nsec ← clong (tv_nsec abs_time - tv_nsec now);
    ts ← (if nsec <? 0
          then FEV_ASSERT (0 <? sec);
               Some (mk_timespec (sec - 1) (nsec + FEV_NSECS_PER_SEC))
          else Some (mk_timespec sec nsec));
    FEV_ASSERT fev_timespec_assert_valid ts;
    Some ts.

Definition fev_get_abs_time_since_now (now rel_time : timespec) : option timespec :=
  FEV_ASSERT fev_timespec_assert_valid rel_time;
  nsum ← clong (tv_nsec now + tv_nsec rel_time);
  inc ← clong (tv_sec rel_time + Z.quot nsum FEV_NSECS_PER_SEC);
  sec ← clong (tv_sec now + inc);
  let abs_time := mk_timespec sec (Z.rem nsum FEV_NSECS_PER_SEC) in
  FEV_ASSERT fev_timespec_assert_valid abs_time;
  Some abs_time.

Definition fev_timespec_to_ns (ts : timespec) : option Z :=
  FEV_ASSERT fev_timespec_assert_valid ts;
  let sec := u64 (tv_sec ts) in
  let nsec := u64 (tv_nsec ts) in
  let x := if UINT64_MAX / FEV_NSECS_PER_SEC <? sec then UINT64_MAX
           else u64 (sec * FEV_NSECS_PER_SEC) in
  let ret := u64 (x + nsec) in
  Some (if ret <? x then UINT64_MAX else ret).

(** ** The time line

    [ts_ns] is the instant a timespec denotes, in nanoseconds; [ts_valid] is
    the Prop form of the validity assertion together with the range of
    [time_t]. *)

Definition ts_ns (ts : timespec) : Z := tv_sec ts * FEV_NSECS_PER_SEC + tv_nsec ts.

Definition ts_valid (ts : timespec) : Prop :=
  0 <= tv_sec ts <= LONG_MAX ∧ 0 <= tv_nsec ts < FEV_NSECS_PER_SEC.

#[export] Instance ts_valid_dec ts : Decision (ts_valid ts).
Proof. unfold ts_valid. apply _. Defined.

Ltac ts_unfold :=
  unfold ts_valid, ts_ns, LONG_MAX, UINT64_MAX, FEV_NSECS_PER_SEC in *; simpl in *.

Lemma ts_valid_assert ts : ts_valid ts → fev_timespec_assert_valid ts = true.
Proof.
  unfold fev_timespec_assert_valid. intros [? ?]. rewrite !andb_true_iff.
  repeat split; lia.
Qed.

Lemma clong_eq z : - 2 ^ 63 <= z < 2 ^ 63 → clong z = Some z.
Proof. intros. unfold clong. by rewrite (proj2 (andb_true_iff _ _)) by lia. Qed.

Lemma clong_spec z :
  (clong z = Some z ∧ - 2 ^ 63 <= z < 2 ^ 63) ∨ (clong z = None ∧ (z < - 2 ^ 63 ∨ 2 ^ 63 <= z)).
Proof.
  unfold clong. destruct (Z.leb_spec (- 2 ^ 63) z), (Z.ltb_spec z (2 ^ 63)); simpl; auto.
Qed.

(** The value computed by the comparison, when both sides are valid. *)
Lemma fev_timespec_cmp_eq a b :
  ts_valid a → ts_valid b →
  fev_timespec_cmp a b =
    Some (if tv_sec a =? tv_sec b then tv_nsec a - tv_nsec b else tv_sec a - tv_sec b).
Proof.
  intros Ha Hb. unfold fev_timespec_cmp. rewrite !ts_valid_assert by done.
  ts_unfold. rewrite (clong_eq (tv_sec a - tv_sec b)) by lia. simpl.
  destruct (Z.eqb_spec (tv_sec a) (tv_sec b)), (Z.eqb_spec (tv_sec a - tv_sec b) 0);
    simpl; try (exfalso; lia); [rewrite clong_eq by lia|]; done.
Qed.

(** The comparison never fails on valid timespecs, and its sign orders the
    instants. *)
Lemma fev_timespec_cmp_sgn a b :
  ts_valid a → ts_valid b →
  ∃ c, fev_timespec_cmp a b = Some c ∧ Z.sgn c = Z.sgn (ts_ns a - ts_ns b).
Proof.
  intros Ha Hb. eexists. split; [by apply fev_timespec_cmp_eq|].
  ts_unfold. destruct (Z.eqb_spec (tv_sec a) (tv_sec b)); lia.
Qed.

Lemma fev_timespec_cmp_le a b :
  ts_valid a → ts_valid b →
  ∃ c, fev_timespec_cmp a b = Some c ∧ (c <= 0 ↔ ts_ns a <= ts_ns b)
       ∧ (c < 0 ↔ ts_ns a < ts_ns b).
Proof.
  intros Ha Hb. destruct (fev_timespec_cmp_sgn a b Ha Hb) as (c & -> & Hc).
  exists c. split; [done|]. lia.
Qed.

Lemma ts_ns_inj a b : ts_valid a → ts_valid b → ts_ns a = ts_ns b → a = b.
Proof.
  destruct a, b. ts_unfold. intros Ha Hb E. f_equal; lia.
Qed.

Lemma fev_timespec_abs_to_rel_ns now a :
  ts_valid now → ts_valid a →
  ∃ r, fev_timespec_abs_to_rel now a = Some r ∧ ts_valid r ∧
       ts_ns r = Z.max 0 (ts_ns a - ts_ns now).
Proof.
  intros Hn Ha. unfold fev_timespec_abs_to_rel. rewrite ts_valid_assert by done.
  destruct (fev_timespec_cmp_le now a Hn Ha) as (c & -> & H1 & H2). simpl.
  destruct (Z.leb_spec 0 c).
  { eexists. split; [done|]. ts_unfold. lia. }
  assert (Hlt : ts_ns now < ts_ns a) by lia. clear H1 H2.
  rewrite !clong_eq by (ts_unfold; lia). simpl.
  destruct (Z.ltb_spec (tv_nsec a - tv_nsec now) 0).
  - rewrite (proj2 (Z.ltb_lt 0 _)) by (ts_unfold; lia). simpl.
    rewrite ts_valid_assert by (ts_unfold; lia). eexists. split; [done|]. ts_unfold. lia.
  - simpl. rewrite ts_valid_assert by (ts_unfold; lia). eexists. split; [done|]. ts_unfold. lia.
Qed.

(** Adding a relative time: the sum of the instants, unless the seconds leave
    the range of [time_t]. *)
Lemma fev_get_abs_time_since_now_ns now r :
  ts_valid now → ts_valid r →
  match fev_get_abs_time_since_now now r with
  | Some a => ts_valid a ∧ ts_ns a = ts_ns now + ts_ns r
  | None => LONG_MAX * FEV_NSECS_PER_SEC + FEV_NSECS_PER_SEC <= ts_ns now + ts_ns r
  end.
Proof.
  intros Hn Hr. unfold fev_get_abs_time_since_now. rewrite ts_valid_assert by done.
  rewrite clong_eq by (ts_unfold; lia). simpl.
  set (s := tv_nsec now + tv_nsec r).
  assert (Hs : 0 <= s) by (ts_unfold; lia).
  rewrite Z.quot_div_nonneg, Z.rem_mod_nonneg by (unfold FEV_NSECS_PER_SEC; lia).
  assert (Hq : s = FEV_NSECS_PER_SEC * (s / FEV_NSECS_PER_SEC) + s mod FEV_NSECS_PER_SEC)
    by (apply Z.div_mod; unfold FEV_NSECS_PER_SEC; lia).
  assert (Hm : 0 <= s mod FEV_NSECS_PER_SEC < FEV_NSECS_PER_SEC)
    by (apply Z.mod_pos_bound; unfold FEV_NSECS_PER_SEC; lia).
  set (q := s / FEV_NSECS_PER_SEC) in *. set (m := s mod FEV_NSECS_PER_SEC) in *.
  assert (0 <= q <= 1) by (ts_unfold; lia).
  destruct (clong_spec (tv_sec r + q)) as [[-> ?]|[-> ?]]; simpl; [|ts_unfold; lia].
  destruct (clong_spec (tv_sec now + (tv_sec r + q))) as [[-> ?]|[-> ?]]; simpl;
    [|ts_unfold; lia].
  rewrite ts_valid_assert; ts_unfold; lia.
Qed.

Lemma fev_timespec_to_ns_sat ts :
  ts_valid ts → fev_timespec_to_ns ts = Some (Z.min (ts_ns ts) UINT64_MAX).
Proof.
  intros Hv. unfold fev_timespec_to_ns. rewrite ts_valid_assert by done. f_equal.
  rewrite (u64_small (tv_sec ts)), (u64_small (tv_nsec ts)) by (ts_unfold; lia).
  assert (Hq : UINT64_MAX / FEV_NSECS_PER_SEC = 18446744073) by done. rewrite Hq.
  ts_unfold. destruct (Z.ltb_spec 18446744073 (tv_sec ts)).
  - destruct (decide (tv_nsec ts = 0)) as [E|?].
    + rewrite E, u64_small by lia. destruct (Z.ltb_spec (2 ^ 64 - 1 + 0) (2 ^ 64 - 1)); lia.
    + rewrite u64_over by lia.
      destruct (Z.ltb_spec (2 ^ 64 - 1 + tv_nsec ts - 2 ^ 64) (2 ^ 64 - 1)); lia.
  - rewrite (u64_small (tv_sec ts * _)) by lia.
    destruct (decide (tv_sec ts * 1000000000 + tv_nsec ts < 2 ^ 64)).
    + rewrite u64_small by lia. destruct (Z.ltb_spec (tv_sec ts * (1000 * 1000 * 1000) + tv_nsec ts) (tv_sec ts * (1000 * 1000 * 1000))); lia.
    + rewrite u64_over by lia. destruct (Z.ltb_spec (tv_sec ts * (1000 * 1000 * 1000) + tv_nsec ts - 2 ^ 64) (tv_sec ts * (1000 * 1000 * 1000))); lia.
Qed.

(** Converting to a relative time undoes adding a relative time. *)
Lemma fev_timespec_roundtrip now r a :
  ts_valid now → ts_valid r → fev_get_abs_time_since_now now r = Some a →
  fev_timespec_abs_to_rel now a = Some r.
Proof.
  intros Hn Hr Ha. pose proof (fev_get_abs_time_since_now_ns now r Hn Hr) as H.
  rewrite Ha in H. destruct H as [Hva Hns].
  destruct (fev_timespec_abs_to_rel_ns now a Hn Hva) as (r' & Hr' & Hv' & Hns').
  rewrite Hr'. f_equal. apply ts_ns_inj; [done..|]. rewrite Hns', Hns. ts_unfold. lia.
Qed.

(** ** Properties *)

(** On valid timespecs [fev_timespec_cmp] never overflows and never fails
    its assertions; its sign orders the instants, it is zero exactly on equal
    timespecs, and swapping the arguments negates it. *)
Theorem timespec_cmp_orders a b :
  ts_valid a → ts_valid b →
  ∃ c, fev_timespec_cmp a b = Some c ∧ fev_timespec_cmp b a = Some (- c) ∧
       (c < 0 ↔ ts_ns a < ts_ns b) ∧ (c = 0 ↔ a = b).
Proof.
  intros Ha Hb. rewrite !fev_timespec_cmp_eq by done. eexists. split; [done|].
  rewrite (Z.eqb_sym (tv_sec b)). split; [f_equal; destruct (tv_sec a =? tv_sec b); lia|].
  pose proof (ts_ns_inj a b Ha Hb) as Hinj. ts_unfold.
  destruct (Z.eqb_spec (tv_sec a) (tv_sec b)); split; try lia; (split; [intros; apply Hinj; lia|]);
    intros ->; lia.
Qed.

Lemma timespec_cmp_orders_witness :
  ts_valid (mk_timespec 3 999999999) ∧ ts_valid (mk_timespec 4 0) ∧
  ∃ c, fev_timespec_cmp (mk_timespec 3 999999999) (mk_timespec 4 0) = Some c ∧ c < 0.
Proof.
  assert (H1 : ts_valid (mk_timespec 3 999999999)) by (ts_unfold; lia).
  assert (H2 : ts_valid (mk_timespec 4 0)) by (ts_unfold; lia).
  split; [exact H1|]. split; [exact H2|].
  destruct (timespec_cmp_orders _ _ H1 H2) as (c & E & _ & Hc & _).
  exists c. split; [exact E|]. apply Hc. reflexivity.
Defined.

(** Deadlines: [fev_get_abs_time_since_now] gives the instant [rel] after
    [now], or overflows [time_t] exactly when that instant is not
    representable; and [fev_timespec_abs_to_rel], called at any later time
    [now'], gives the time that is left until the deadline, or zero when it
    has passed. At [now' = now] this is the relative time one started from. *)
Theorem timespec_deadline now now' rel :
  ts_valid now → ts_valid now' → ts_valid rel →
  match fev_get_abs_time_since_now now rel with
  | Some a =>
      ts_valid a ∧ ts_ns a = ts_ns now + ts_ns rel ∧
      fev_timespec_abs_to_rel now a = Some rel ∧
      ∃ r, fev_timespec_abs_to_rel now' a = Some r ∧ ts_valid r ∧
           ts_ns r = Z.max 0 (ts_ns a - ts_ns now')
  | None => ts_ns (mk_timespec LONG_MAX 999999999) < ts_ns now + ts_ns rel
  end.
Proof.
  intros Hn Hn' Hr. pose proof (fev_get_abs_time_since_now_ns now rel Hn Hr) as H.
  destruct (fev_get_abs_time_since_now now rel) as [a|] eqn:E.
  - destruct H as [Hv Hns]. split; [done|]. split; [done|].
    split; [by apply fev_timespec_roundtrip|by apply fev_timespec_abs_to_rel_ns].
  - ts_unfold. lia.
Qed.

Lemma timespec_deadline_witness :
  fev_get_abs_time_since_now (mk_timespec 5 800000000) (mk_timespec 1 400000000)
    = Some (mk_timespec 7 200000000) ∧
  fev_timespec_abs_to_rel (mk_timespec 5 800000000) (mk_timespec 7 200000000)
    = Some (mk_timespec 1 400000000).
Proof.
  split; [reflexivity|].
  assert (H1 : ts_valid (mk_timespec 5 800000000)) by (ts_unfold; lia).
  assert (H2 : ts_valid (mk_timespec 1 400000000)) by (ts_unfold; lia).
  exact (proj1 (proj2 (proj2 (timespec_deadline _ _ _ H1 H1 H2)))).
Defined.

(** [fev_timespec_to_ns] is the number of nanoseconds, saturated at
    [UINT64_MAX]: the wrap-around of the 64-bit sum is detected. *)
Theorem timespec_to_ns_saturates ts :
  ts_valid ts → fev_timespec_to_ns ts = Some (Z.min (ts_ns ts) UINT64_MAX).
Proof. apply fev_timespec_to_ns_sat. Qed.

Lemma timespec_to_ns_saturates_witness :
  ts_valid (mk_timespec 18446744073 999999999) ∧
  fev_timespec_to_ns (mk_timespec 18446744073 999999999) = Some UINT64_MAX.
Proof.
  assert (H : ts_valid (mk_timespec 18446744073 999999999)) by (ts_unfold; lia).
  split; [exact H|]. rewrite (timespec_to_ns_saturates _ H). reflexivity.
Defined.
