(* ===== verification/TimersIntf.v ===== *)
(** The interface between [src/src/fev_timers.c] and its two bucket
    implementations ([fev_timers_binheap.*] and [fev_timers_rbtree.*]),
    declared in [src/src/fev_timers.h].

    A timer lives on the stack of a waiting fiber; the bucket holds pointers to
    it. Timers are therefore kept in a store indexed by their address, and the
    operations of a bucket update both the bucket and the store. The part of
    [struct fev_timer] that belongs to the implementation (heap index, or tree
    entry and expired flag) is the parameter [X]. *)

From S2P Require Import Prelude Time.

Local Open Scope Z_scope.

Record fev_timer (X : Type) := mk_timer {
  abs_time : timespec;
  link : X;
  waiter : loc;
}.
Arguments mk_timer {X}.
Arguments abs_time {X}.
Arguments link {X}.
Arguments waiter {X}.

Abbreviation timer_store X := (gmap loc (fev_timer X)).

Section store.
Context {X : Type}.
Implicit Types (m : timer_store X) (ls : list loc).

(** [timer->link = x]. *)
Definition set_link m (l : loc) (x : X) : option (timer_store X) :=
  t ← m !! l; Some (<[l := mk_timer (abs_time t) x (waiter t)]> m).

(** The timers [ls] are in the store, have valid times, and [K] gives their
    expiration instants. *)
Definition keyed m (K : loc → Z) ls : Prop :=
  ∀ l, l ∈ ls → ∃ t, m !! l = Some t ∧ ts_valid (abs_time t) ∧ ts_ns (abs_time t) = K l.

(** [m'] differs from [m] only in the links of the timers [ls]. *)
Definition relink ls m m' : Prop :=
  ∀ l, (l ∉ ls → m' !! l = m !! l) ∧
       (λ t, (abs_time t, waiter t)) <$> m' !! l = (λ t, (abs_time t, waiter t)) <$> m !! l.

#[export] Instance relink_preorder ls : PreOrder (relink ls).
Proof.
  split.
  - intros m l. done.
  - intros m1 m2 m3 H12 H23 l. destruct (H12 l) as [A B], (H23 l) as [C D].
    split; [|congruence]. intros. rewrite C, A by done. done.
Qed.

Lemma relink_mono ls ls' m m' : (∀ l, l ∈ ls → l ∈ ls') → relink ls m m' → relink ls' m m'.
Proof. intros H Hr l. destruct (Hr l). split; naive_solver. Qed.

Lemma relink_lookup ls m m' l t :
  relink ls m m' → m !! l = Some t →
  ∃ t', m' !! l = Some t' ∧ abs_time t' = abs_time t ∧ waiter t' = waiter t.
Proof.
  intros Hr Hl. destruct (Hr l) as [_ E]. rewrite Hl in E. simpl in E.
  destruct (m' !! l); simplify_eq/=. eauto.
Qed.

Lemma keyed_relink ls m m' K ls' : relink ls m m' → keyed m K ls' → keyed m' K ls'.
Proof.
  intros Hr Hk l Hl. destruct (Hk l Hl) as (t & Ht & ? & ?).
  destruct (relink_lookup _ _ _ _ _ Hr Ht) as (t' & ? & E & ?).
  exists t'. rewrite E. done.
Qed.

Lemma keyed_mono m K ls ls' : (∀ l, l ∈ ls' → l ∈ ls) → keyed m K ls → keyed m K ls'.
Proof. intros H Hk l Hl. apply Hk, H, Hl. Qed.

Lemma set_link_spec m l x ls :
  l ∈ ls → is_Some (m !! l) →
  ∃ t, m !! l = Some t ∧
    set_link m l x = Some (<[l := mk_timer (abs_time t) x (waiter t)]> m) ∧
    relink ls m (<[l := mk_timer (abs_time t) x (waiter t)]> m).
Proof.
  intros Hin [t Ht]. exists t. unfold set_link. rewrite Ht. repeat split.
  - intros Hn. rewrite lookup_insert_ne; [done|]. naive_solver.
  - destruct (decide (l = l0)) as [->|].
    + rewrite lookup_insert_eq, Ht. done.
    + by rewrite lookup_insert_ne.
Qed.
End store.

(** The instant at which a timer expires, as recorded in the store. *)
Definition key {X} (m : timer_store X) (l : loc) : Z :=
  match m !! l with Some t => ts_ns (abs_time t) | None => 0 end.

Lemma key_relink {X} ls (m m' : timer_store X) l : relink ls m m' → key m' l = key m l.
Proof.
  intros Hr. unfold key. destruct (Hr l) as [_ E].
  destruct (m !! l), (m' !! l); simplify_eq/=; congruence.
Qed.

(** No timer of [ts] has the waiter of [t]: a waiter waits for one timer at a
    time. *)
Definition other_waiters {X} (m : timer_store X) (ts : list loc) (t : fev_timer X) : Prop :=
  ∀ l' t', l' ∈ ts → m !! l' = Some t' → waiter t' ≠ waiter t.

(** ** Operations of a bucket

    [B] is the state of the container inside [struct fev_timers_bucket]. The
    boolean argument of [bucket_add] says whether an allocation made by the
    call succeeds. *)
Class TimersBucketOps (X B : Type) := {
  link_init : X;
  timer_is_expired : fev_timer X → bool;
  timer_set_expired : timer_store X → loc → option (timer_store X);
  bucket_init : B;
  bucket_empty : B → bool;
  bucket_min : B → option loc;
  bucket_add : bool → B → timer_store X → loc → option (Z * B * timer_store X);
  bucket_del : B → timer_store X → loc → option (Z * B * timer_store X);
  bucket_del_min : B → timer_store X → option (B * timer_store X);
  timers_add_can_fail : bool;
}.

(** ** What a bucket promises

    [bucket_repr b m ts]: the bucket [b] holds exactly the timers [ts] (as a
    set), all of them pending. *)
Class TimersBucket (X B : Type) `{Ops : TimersBucketOps X B} := {
  bucket_repr : B → timer_store X → list loc → Prop;

  repr_perm b m ts ts' : ts ≡ₚ ts' → bucket_repr b m ts → bucket_repr b m ts';
  repr_nodup b m ts : bucket_repr b m ts → NoDup ts;
  repr_keyed b m ts : bucket_repr b m ts → keyed m (key m) ts;
  repr_pending b m ts l t :
    bucket_repr b m ts → l ∈ ts → m !! l = Some t → timer_is_expired t = false;
  repr_frame b m m' ts :
    (∀ l, l ∈ ts → m' !! l = m !! l) → bucket_repr b m ts → bucket_repr b m' ts;
  repr_init m : bucket_repr bucket_init m [];
  repr_empty b m ts : bucket_repr b m ts → bucket_empty b = true ↔ ts = [];
  repr_min b m ts :
    bucket_repr b m ts → ts ≠ [] →
    ∃ l, bucket_min b = Some l ∧ l ∈ ts ∧ ∀ l', l' ∈ ts → key m l <= key m l';
  set_expired_ok m l :
    is_Some (m !! l) →
    ∃ m', timer_set_expired m l = Some m' ∧ relink [l] m m' ∧
          ∀ t, m' !! l = Some t → timer_is_expired t = true;

  add_ok ok b m ts l t :
    bucket_repr b m ts → l ∉ ts → m !! l = Some t → ts_valid (abs_time t) →
    other_waiters m ts t → Z.of_nat (length ts) < SIZE_MAX / 16 →
    ∃ ret b' m', bucket_add ok b m l = Some (ret, b', m') ∧
      ((ret = - ENOMEM ∧ ok = false ∧ timers_add_can_fail = true ∧ b' = b ∧ m' = m) ∨
       (bucket_repr b' m' (l :: ts) ∧ relink (l :: ts) m m' ∧
        ((ret = 1 ∧ bucket_min b' = Some l) ∨
         (ret = 0 ∧ ts ≠ [] ∧ bucket_min b' = bucket_min b))));

  del_ok b m ts l :
    bucket_repr b m ts → l ∈ ts →
    ∃ ret b' m' ts', bucket_del b m l = Some (ret, b', m') ∧
      ts ≡ₚ l :: ts' ∧ bucket_repr b' m' ts' ∧ relink ts' m m' ∧
      ((ret = 1 ∧ bucket_min b = Some l) ∨
       (ret = 0 ∧ bucket_min b ≠ Some l ∧ bucket_min b' = bucket_min b));

  del_min_ok b m ts l :
    bucket_repr b m ts → bucket_min b = Some l → ts ≠ [] →
    ∃ b' m' ts', bucket_del_min b m = Some (b', m') ∧
      ts ≡ₚ l :: ts' ∧ bucket_repr b' m' ts' ∧ relink ts' m m';
}.

#[export] Instance repr_proper {X B} `{TimersBucket X B} b m :
  Proper ((≡ₚ) ==> iff) (bucket_repr b m).
Proof. intros ts ts' E. split; apply repr_perm; by rewrite E. Qed.
