(* ===== verification/Binheap.v ===== *)
(** The binary-heap timers bucket: [src/src/fev_timers_binheap.h] and
    [src/src/fev_timers_binheap.c].

    The heap is a C array of [capacity] pointers of which the first [len] are
    meaningful; a slot that was never written holds [None] and reading it is
    undefined. The heap index of a timer is its [link]. *)

From S2P Require Import Prelude Time TimersIntf.

Local Open Scope Z_scope.
#[local] Ltac Zify.zify_post_hook ::= Z.to_euclidean_division_equations.

Abbreviation htimer := (fev_timer Z).
Abbreviation hstore := (timer_store Z).
Abbreviation harray := (list (option loc)).

Record heap_bucket := mk_bucket {
  heap : harray;
  len : Z;
  capacity : Z;
}.

(** [heap[i]]. *)
Definition heap_get (h : harray) (i : Z) : option loc := x ← arr_get h i; x.

(** [timer->index]. *)
Definition timer_index (m : hstore) (l : loc) : option Z := t ← m !! l; Some (link t).

Definition fev_timer_is_expired (t : htimer) : bool := link t =? SIZE_MAX.

Definition fev_timer_set_expired (m : hstore) (l : loc) : option hstore :=
  set_link m l SIZE_MAX.

Definition fev_timers_bucket_empty (b : heap_bucket) : bool := len b =? 0.

Definition fev_timers_bucket_min (b : heap_bucket) : option loc :=
  FEV_ASSERT negb (fev_timers_bucket_empty b);
  heap_get (heap b) 0.

Definition fev_timers_cmp (m : hstore) (lhs rhs : loc) : option Z :=
  l ← m !! lhs; r ← m !! rhs; fev_timespec_cmp (abs_time l) (abs_time r).

(** The [for (;;)] loop of [fev_timers_sift_up]; returns the array, the store
    and the final [index]. *)
Fixpoint sift_up_loop (fuel : nat) (h : harray) (m : hstore) (index len : Z) (timer : loc)
    : option (harray * hstore * Z) :=
  match fuel with
  | O => None
  | S fuel =>
    let len := (len - 1) / 2 in
    parent_ptr ← heap_get h len;
    c ← fev_timers_cmp m parent_ptr timer;
    if c <=? 0 then Some (h, m, index)
    else
      h ← arr_set h index (Some parent_ptr);
      m ← set_link m parent_ptr index;
      let index := len in
      if len =? 0 then Some (h, m, index)
      else sift_up_loop fuel h m index len timer
  end.

Definition fev_timers_sift_up (h : harray) (m : hstore) (len : Z) (timer : loc)
    : option (harray * hstore) :=
  let index := len in
  '(h, m, index) ← (if 0 <? len
                    then sift_up_loop (Z.to_nat len) h m index len timer
                    else Some (h, m, index));
  h ← arr_set h index (Some timer);
  m ← set_link m timer index;
  Some (h, m).

(** The [for (;;)] loop of [fev_timers_sift_down]; [len] is already decremented. *)
Fixpoint sift_down_loop (fuel : nat) (h : harray) (m : hstore) (len start : Z) (last_ptr : loc)
    : option (harray * hstore * Z) :=
  match fuel with
  | O => None
  | S fuel =>
    let child := start in
    if (len - 2) / 2 <? child then Some (h, m, start)
    else
      let child := child * 2 + 1 in
      child_ptr ← heap_get h child;
      let right := child + 1 in
      '(child_ptr, child) ←
        (if right <? len
         then right_ptr ← heap_get h right;
              c ← fev_timers_cmp m right_ptr child_ptr;
              Some (if c <? 0 then (right_ptr, right) else (child_ptr, child))
         else Some (child_ptr, child));
      c ← fev_timers_cmp m last_ptr child_ptr;
      if c <=? 0 then Some (h, m, start)
      else
        h ← arr_set h start (Some child_ptr);
        m ← set_link m child_ptr start;
        sift_down_loop fuel h m len child last_ptr
  end.

Definition fev_timers_sift_down (h : harray) (m : hstore) (len start : Z)
    : option (harray * hstore) :=
  FEV_ASSERT (1 <=? len);
  FEV_ASSERT (start <? len);
  if start =? len - 1 then Some (h, m)
  else
    FEV_ASSERT (2 <=? len);
    let len := len - 1 in
    last_ptr ← heap_get h len;
    '(h, m, start) ← (if 2 <=? len
                      then sift_down_loop (Z.to_nat len) h m len start last_ptr
                      else Some (h, m, start));
    h ← arr_set h start (Some last_ptr);
    m ← set_link m last_ptr start;
    Some (h, m).

(** [sizeof(struct fev_timer * )]. *)
Definition ptr_size : Z := 8.

(** [ok]: does [fev_realloc] succeed. The new cells are uninitialised. *)
Definition fev_timers_bucket_grow (ok : bool) (b : heap_bucket) : option (Z * heap_bucket) :=
  let cap := u64 (2 * capacity b) in
  let cap := if cap =? 0 then 1 else cap in
  FEV_ASSERT (cap <=? SIZE_MAX / ptr_size);
  if negb ok then Some (- ENOMEM, b)
  else Some (0, mk_bucket (resize (Z.to_nat cap) None (heap b)) (len b) cap).

Definition fev_timers_bucket_add (ok : bool) (b : heap_bucket) (m : hstore) (timer : loc)
    : option (Z * heap_bucket * hstore) :=
  '(ret, b) ← (if len b =? capacity b then fev_timers_bucket_grow ok b else Some (0, b));
  if negb (ret =? 0) then Some (ret, b, m)
  else
    '(h, m) ← fev_timers_sift_up (heap b) m (len b) timer;
    index ← timer_index m timer;
    Some (if index =? 0 then 1 else 0, mk_bucket h (len b + 1) (capacity b), m).

Definition fev_timers_bucket_del (b : heap_bucket) (m : hstore) (timer : loc)
    : option (Z * heap_bucket * hstore) :=
  index ← timer_index m timer;
  FEV_ASSERT negb (fev_timers_bucket_empty b);
  FEV_ASSERT negb (index =? SIZE_MAX);
  '(h, m) ← fev_timers_sift_down (heap b) m (len b) index;
  let len := len b - 1 in
  if 0 <? index then
    '(h, m) ← (if index <? len
               then x ← heap_get h index; fev_timers_sift_up h m index x
               else Some (h, m));
    Some (0, mk_bucket h len (capacity b), m)
  else Some (1, mk_bucket h len (capacity b), m).

Definition fev_timers_bucket_del_min (b : heap_bucket) (m : hstore)
    : option (heap_bucket * hstore) :=
  FEV_ASSERT negb (fev_timers_bucket_empty b);
  '(h, m) ← fev_timers_sift_down (heap b) m (len b) 0;
  Some (mk_bucket h (len b - 1) (capacity b), m).

(** The state [fev_timers_bucket_init] leaves in the bucket. *)
Definition fev_timers_bucket_init : heap_bucket := mk_bucket [] 0 0.

(** ** Heap order on keys

    [k i] is the key stored at index [i] of a heap with [n] elements. [up_ok]
    allows one wrong edge, the one into [hole]; [down_ok] allows the edges out
    of [hole], and the one into [s]. *)

Definition up_ok (k : Z → Z) (n hole : Z) : Prop :=
  (∀ i, 0 < i < n → i ≠ hole → k ((i - 1) / 2) <= k i) ∧
  (0 < hole → ∀ c, 0 < c < n → (c - 1) / 2 = hole → k ((hole - 1) / 2) <= k c).

Definition heap_ok (k : Z → Z) (n : Z) : Prop :=
  ∀ i, 0 < i < n → k ((i - 1) / 2) <= k i.

Definition down_ok (k : Z → Z) (n s hole : Z) : Prop :=
  s <= hole ∧
  (∀ i, 0 < i < n → i ≠ s → (i - 1) / 2 ≠ hole → k ((i - 1) / 2) <= k i) ∧
  (0 < s → ∀ c, 0 < c < n → (c - 1) / 2 = s → k ((s - 1) / 2) <= k c) ∧
  (hole ≠ s → 0 < s → k ((s - 1) / 2) <= k s) ∧
  (hole ≠ s → ∀ c, 0 < c < n → (c - 1) / 2 = hole → k ((hole - 1) / 2) <= k c).

(** [k'] is [k] with the keys at [a] and [b] exchanged. *)
Definition exchanged (k k' : Z → Z) (a b : Z) : Prop :=
  k' a = k b ∧ k' b = k a ∧ ∀ j, j ≠ a → j ≠ b → k' j = k j.

Lemma up_ok_exchange k k' n hole :
  up_ok k n hole → 0 < hole < n → k hole < k ((hole - 1) / 2) →
  exchanged k k' hole ((hole - 1) / 2) → up_ok k' n ((hole - 1) / 2).
Proof.
  intros [Hup Hskip] Hh Hlt (E1 & E2 & E3). remember ((hole - 1) / 2) as p eqn:Ep0.
  assert (Hp : 0 <= p < hole) by lia.
  split.
  - intros i Hi Hip. destruct (decide (i = hole)) as [->|Hih].
    + rewrite <- Ep0. lia.
    + rewrite (E3 i) by lia. destruct (decide ((i - 1) / 2 = hole)) as [Eh|].
      * rewrite Eh, E1. apply Hskip; lia.
      * destruct (decide ((i - 1) / 2 = p)) as [Ep|].
        { rewrite Ep, E2. pose proof (Hup i ltac:(lia) ltac:(lia)). rewrite Ep in *. lia. }
        rewrite E3 by lia. apply Hup; lia.
  - intros Hp0 c Hc Ec. rewrite (E3 ((p - 1) / 2)) by lia.
    pose proof (Hup p ltac:(lia) ltac:(lia)).
    destruct (decide (c = hole)) as [->|]; [lia|].
    rewrite E3 by lia. pose proof (Hup c ltac:(lia) ltac:(lia)). rewrite Ec in *. lia.
Qed.

Lemma up_ok_done k n hole :
  up_ok k n hole → (0 < hole → k ((hole - 1) / 2) <= k hole) → heap_ok k n.
Proof.
  intros [H _] Hh i Hi. destruct (decide (i = hole)) as [->|]; [apply Hh; lia|by apply H].
Qed.

Lemma down_ok_exchange k k' n s hole d :
  down_ok k n s hole → 0 <= s → hole < n → 0 < d < n → (d - 1) / 2 = hole →
  k d < k hole → (∀ c, 0 < c < n → (c - 1) / 2 = hole → k d <= k c) →
  exchanged k k' hole d → down_ok k' n s d.
Proof.
  intros (Hs & He & Hsk & Hse & Hhk) Hs0 Hn Hd Ed Hlt Hmin (E1 & E2 & E3).
  assert (hole < d) by lia.
  repeat split; [lia| | | |].
  - intros i Hi His Hid. destruct (decide (i = d)) as [->|Hid'].
    + rewrite Ed. lia.
    + destruct (decide (i = hole)) as [->|Hih].
      * rewrite (E3 ((hole - 1) / 2)) by lia. rewrite E1. apply Hhk; lia.
      * rewrite (E3 i) by lia. destruct (decide ((i - 1) / 2 = hole)) as [Eh|].
        { rewrite Eh, E1. apply Hmin; lia. }
        rewrite E3 by lia. apply He; lia.
  - intros Hs1 c Hc Ec. rewrite (E3 ((s - 1) / 2)) by lia.
    destruct (decide (hole = s)) as [->|Hhs].
    + destruct (decide (c = d)) as [->|]; [|rewrite E3 by lia; apply Hsk; lia].
      pose proof (Hsk Hs1 d Hd Ed). lia.
    + destruct (decide (c = d)) as [->|]; [lia|].
      destruct (decide (c = hole)) as [->|]; [|rewrite E3 by lia; apply Hsk; lia].
      rewrite E1. pose proof (Hse Hhs Hs1). pose proof (Hhk Hhs d Hd Ed). rewrite Ec in *. lia.
  - intros _ Hs1. rewrite (E3 ((s - 1) / 2)) by lia.
    destruct (decide (hole = s)) as [->|Hhs]; [rewrite E1; by apply Hsk|].
    rewrite E3 by lia. by apply Hse.
  - intros _ c Hc Ec. rewrite Ed, E1, E3 by lia. rewrite <- Ec. apply He; lia.
Qed.

Lemma down_ok_done k n s hole :
  down_ok k n s hole → (∀ c, 0 < c < n → (c - 1) / 2 = hole → k hole <= k c) → up_ok k n s.
Proof.
  intros (_ & He & Hsk & _ & _) Hc. split; [|done]. intros i Hi His.
  destruct (decide ((i - 1) / 2 = hole)) as [<-|]; [by apply Hc|by apply He].
Qed.

(** Overwriting the key at [s] of a heap leaves only edges at [s] in doubt. *)
Lemma down_ok_start k k' n s :
  heap_ok k n → 0 <= s → (∀ j, 0 <= j < n → j ≠ s → k' j = k j) → down_ok k' n s s.
Proof.
  intros Hk Hs E. repeat split; try lia.
  - intros i Hi His Hp. rewrite !E by lia. by apply Hk.
  - intros Hs1 c Hc Ec. rewrite !E by lia.
    pose proof (Hk c Hc). pose proof (Hk s ltac:(lia)). rewrite Ec in *. lia.
Qed.

Lemma heap_ok_root k n i : heap_ok k n → 0 <= i < n → k 0 <= k i.
Proof.
  intros Hk. induction (Z.lt_wf 0 i) as [i _ IH]. intros Hi.
  destruct (decide (i = 0)) as [->|]; [lia|].
  pose proof (Hk i ltac:(lia)). pose proof (IH ((i - 1) / 2) ltac:(lia) ltac:(lia)). lia.
Qed.

(** ** Loop states

    The loops keep a hole in the array: the element that belongs there is held
    in a variable. [hstate K h m g hole] relates the array [h] and the store
    [m] to the list [g] one gets by filling the hole; [hole = -1] means that
    there is none. *)

Definition keys (K : loc → Z) (g : list loc) (i : Z) : Z :=
  match arr_get g i with Some l => K l | None => 0 end.

Record hstate (K : loc → Z) (h : harray) (m : hstore) (g : list loc) (hole : Z) : Prop := {
  hs_len : Z.of_nat (length g) <= Z.of_nat (length h);
  hs_nodup : NoDup g;
  hs_keyed : keyed m K g;
  hs_agree : ∀ i, 0 <= i < Z.of_nat (length g) → i ≠ hole → heap_get h i = arr_get g i;
  hs_index : ∀ i l, arr_get g i = Some l → i ≠ hole → timer_index m l = Some i;
}.

Lemma arr_get_inj (g : list loc) i j l :
  NoDup g → arr_get g i = Some l → arr_get g j = Some l → i = j.
Proof.
  intros Hn [? Hi]%arr_get_Some [? Hj]%arr_get_Some.
  pose proof (NoDup_lookup _ _ _ _ Hn Hi Hj). lia.
Qed.

Lemma timer_index_insert_eq (m : hstore) l t : timer_index (<[l := t]> m) l = Some (link t).
Proof. unfold timer_index. by rewrite lookup_insert_eq. Qed.
Lemma timer_index_insert_ne (m : hstore) l l' t :
  l ≠ l' → timer_index (<[l := t]> m) l' = timer_index m l'.
Proof. intros. unfold timer_index. by rewrite lookup_insert_ne. Qed.

Lemma heap_get_insert h i j x :
  0 <= i < Z.of_nat (length h) →
  heap_get (<[Z.to_nat i := Some x]> h) j = if decide (i = j) then Some x else heap_get h j.
Proof.
  intros Hi. unfold heap_get. rewrite arr_get_insert by done. by case_decide.
Qed.

Section loops.
Context (K : loc → Z).
Implicit Types (h : harray) (m : hstore) (g : list loc).

Lemma keyed_is_Some m g l : keyed m K g → l ∈ g → is_Some (m !! l).
Proof. intros Hk Hl. destruct (Hk l Hl) as (t & -> & _). eauto. Qed.

Lemma fev_timers_cmp_keyed m g a b :
  keyed m K g → a ∈ g → b ∈ g →
  ∃ c, fev_timers_cmp m a b = Some c ∧ (c <= 0 ↔ K a <= K b) ∧ (c < 0 ↔ K a < K b).
Proof.
  intros Hk Ha Hb. destruct (Hk a Ha) as (ta & Hta & Va & <-), (Hk b Hb) as (tb & Htb & Vb & <-).
  unfold fev_timers_cmp. rewrite Hta, Htb. simpl. by apply fev_timespec_cmp_le.
Qed.

Lemma keys_eq g i l : arr_get g i = Some l → keys K g i = K l.
Proof. unfold keys. by intros ->. Qed.

(** Moving the element at [j] into the hole. *)
Lemma hole_move h m g hole j x y :
  hstate K h m g hole → j ≠ hole → arr_get g j = Some x → arr_get g hole = Some y →
  ∃ h' m' g',
    arr_set h hole (Some x) = Some h' ∧ set_link m x hole = Some m' ∧
    hstate K h' m' g' j ∧ arr_get g' j = Some y ∧ g' ≡ₚ g ∧ relink g m m' ∧
    exchanged (keys K g) (keys K g') hole j ∧ length h' = length h ∧
    (∀ i, i ≠ hole → i ≠ j → arr_get g' i = arr_get g i).
Proof.
  intros [Hl Hn Hk Ha Hi] Hj Hx Hy.
  pose proof (arr_get_lt _ _ _ Hx) as Rx. pose proof (arr_get_lt _ _ _ Hy) as Ry.
  set (g' := <[Z.to_nat j := y]> (<[Z.to_nat hole := x]> g)).
  assert (Hlen : length g' = length g) by (unfold g'; by rewrite !length_insert).
  assert (Hg' : ∀ i, arr_get g' i =
    if decide (j = i) then Some y else if decide (hole = i) then Some x else arr_get g i).
  { intros i. unfold g'. rewrite !arr_get_insert by (rewrite ?length_insert; lia). done. }
  assert (Hperm : g' ≡ₚ g).
  { apply insert_swap_perm; [lia|by apply arr_get_Some in Hy as [_ ?]|by apply arr_get_Some in Hx as [_ ?]]. }
  destruct (set_link_spec m x hole g) as (t & Ht & Hset & Hrel);
    [eauto with fev|eapply keyed_is_Some; eauto with fev|].
  eexists _, _, g'. split; [apply arr_set_eq; lia|]. split; [exact Hset|].
  assert (Hk' : ∀ i, keys K g' i = if decide (j = i) then K y
            else if decide (hole = i) then K x else keys K g i).
  { intros i. unfold keys. rewrite Hg'. repeat case_decide; done. }
  repeat split.
  - rewrite Hlen, length_insert. lia.
  - by rewrite Hperm.
  - eapply keyed_relink; [done|]. eapply keyed_mono; [|done]. intros l. by rewrite Hperm.
  - intros i Hir Hij. rewrite heap_get_insert, Hg' by lia.
    rewrite (decide_False (P := j = i)) by congruence. case_decide; [done|].
    apply Ha; lia.
  - intros i l Hil Hij. rewrite Hg', decide_False in Hil by congruence. case_decide.
    + simplify_eq. by rewrite timer_index_insert_eq.
    + rewrite timer_index_insert_ne; [apply Hi; congruence|].
      intros ->. by assert (i = j) by (by eapply arr_get_inj).
  - rewrite Hg'. by rewrite decide_True.
  - done.
  - apply Hrel.
  - apply Hrel.
  - rewrite Hk'. rewrite decide_False, decide_True by congruence. by rewrite (keys_eq _ _ _ Hx).
  - rewrite Hk', decide_True by done. by rewrite (keys_eq _ _ _ Hy).
  - intros i ? ?. by rewrite Hk', !decide_False by congruence.
  - by rewrite length_insert.
  - intros i ? ?. by rewrite Hg', !decide_False by congruence.
Qed.

(** Writing the held element into the hole. *)
Lemma hole_fill h m g hole y :
  hstate K h m g hole → arr_get g hole = Some y →
  ∃ h' m', arr_set h hole (Some y) = Some h' ∧ set_link m y hole = Some m' ∧
    hstate K h' m' g (-1) ∧ relink g m m' ∧ length h' = length h ∧
    timer_index m' y = Some hole.
Proof.
  intros [Hl Hn Hk Ha Hi] Hy. pose proof (arr_get_lt _ _ _ Hy) as Ry.
  destruct (set_link_spec m y hole g) as (t & Ht & Hset & Hrel);
    [eauto with fev|eapply keyed_is_Some; eauto with fev|].
  eexists _, _. split; [apply arr_set_eq; lia|]. split; [exact Hset|].
  repeat split; [rewrite length_insert; lia|done|by eapply keyed_relink| | |apply Hrel|apply Hrel| |].
  - intros i Hir _. rewrite heap_get_insert by lia. case_decide; [by subst|apply Ha; lia].
  - intros i l Hil _. destruct (decide (i = hole)) as [->|].
    + assert (l = y) as -> by congruence. by rewrite timer_index_insert_eq.
    + rewrite timer_index_insert_ne; [by apply Hi|].
      intros ->. by assert (i = hole) by (by eapply arr_get_inj).
  - by rewrite length_insert.
  - by rewrite timer_index_insert_eq.
Qed.

(** What sifting up does to the root: nothing, unless the timer arrives there. *)
Definition root_rel g g' (hole hole' : Z) (timer : loc) : Prop :=
  (hole' ≠ 0 ∧ arr_get g' 0 = arr_get g 0) ∨
  (hole' = 0 ∧ (hole = 0 ∨ K timer < keys K g 0)).

Lemma sift_up_loop_spec fuel h m g hole timer :
  hstate K h m g hole → arr_get g hole = Some timer → 0 < hole →
  up_ok (keys K g) (Z.of_nat (length g)) hole → (Z.to_nat hole <= fuel)%nat →
  ∃ h' m' g' hole',
    sift_up_loop fuel h m hole hole timer = Some (h', m', hole') ∧
    hstate K h' m' g' hole' ∧ arr_get g' hole' = Some timer ∧ g' ≡ₚ g ∧ relink g m m' ∧
    heap_ok (keys K g') (Z.of_nat (length g)) ∧ length h' = length h ∧
    root_rel g g' hole hole' timer.
Proof.
  revert h m g hole. induction fuel as [|fuel IH]; intros h m g hole Hs Hy H0 Hup Hf; [lia|].
  pose proof (arr_get_lt _ _ _ Hy) as Ry. simpl.
  destruct (arr_get_is_Some g ((hole - 1) / 2)) as [x Hx]; [lia|].
  rewrite (hs_agree _ _ _ _ _ Hs) by lia. rewrite Hx. simpl.
  destruct (fev_timers_cmp_keyed m g x timer) as (c & -> & Hc1 & Hc2);
    [apply Hs|eauto with fev..|]. simpl.
  destruct (Z.leb_spec c 0) as [Hle|Hgt].
  - eexists _, _, g, hole. repeat (split; [done|]).
    split; [|split; [done|left; split; [lia|done]]].
    apply (up_ok_done _ _ _ Hup). intros _.
    rewrite (keys_eq _ _ _ Hx), (keys_eq _ _ _ Hy). lia.
  - destruct (hole_move h m g hole ((hole - 1) / 2) x timer)
      as (h1 & m1 & g1 & -> & -> & Hs1 & Hy1 & Hp1 & Hr1 & He1 & Hl1 & Hg1); [done|lia|done|done|].
    simpl. assert (Hlt : K timer < K x) by lia.
    assert (Hlen : length g1 = length g) by (by rewrite Hp1).
    assert (Hup1 : up_ok (keys K g1) (Z.of_nat (length g)) ((hole - 1) / 2)).
    { eapply up_ok_exchange; [done|lia| |done].
      rewrite (keys_eq _ _ _ Hx), (keys_eq _ _ _ Hy). lia. }
    destruct (Z.eqb_spec ((hole - 1) / 2) 0) as [E0|E0].
    + eexists _, _, g1, _. repeat (split; [done|]).
      split; [apply (up_ok_done _ _ _ Hup1); lia|]. split; [done|].
      right. split; [done|]. right. rewrite <- E0. by rewrite (keys_eq _ _ _ Hx).
    + destruct (IH h1 m1 g1 ((hole - 1) / 2))
        as (h2 & m2 & g2 & hole2 & -> & Hs2 & Hy2 & Hp2 & Hr2 & Hk2 & Hl2 & Hroot);
        [done|done|lia|by rewrite Hlen|lia|].
      eexists _, _, g2, _. repeat (split; [done|]). rewrite Hlen in Hk2.
      split; [by rewrite Hp2|]. split; [|split; [done|split; [congruence|]]].
      { etrans; [done|]. eapply relink_mono; [|done]. intros l. by rewrite Hp1. }
      unfold root_rel, keys in *. rewrite Hg1 in Hroot by lia.
      destruct Hroot as [[? ?]|[? [?|?]]]; [left; done|lia|right; auto].
Qed.

Lemma fev_timers_sift_up_spec h m g hole timer :
  hstate K h m g hole → arr_get g hole = Some timer →
  up_ok (keys K g) (Z.of_nat (length g)) hole →
  ∃ h' m' g',
    fev_timers_sift_up h m hole timer = Some (h', m') ∧
    hstate K h' m' g' (-1) ∧ g' ≡ₚ g ∧ relink g m m' ∧
    heap_ok (keys K g') (Z.of_nat (length g)) ∧ length h' = length h ∧
    ∃ hole', timer_index m' timer = Some hole' ∧ arr_get g' hole' = Some timer ∧
             root_rel g g' hole hole' timer.
Proof.
  intros Hs Hy Hup. pose proof (arr_get_lt _ _ _ Hy) as Ry. unfold fev_timers_sift_up.
  assert (∃ h1 m1 g1 hole1,
    (if 0 <? hole then sift_up_loop (Z.to_nat hole) h m hole hole timer
     else Some (h, m, hole)) = Some (h1, m1, hole1) ∧
    hstate K h1 m1 g1 hole1 ∧ arr_get g1 hole1 = Some timer ∧ g1 ≡ₚ g ∧ relink g m m1 ∧
    heap_ok (keys K g1) (Z.of_nat (length g)) ∧ length h1 = length h ∧
    root_rel g g1 hole hole1 timer)
    as (h1 & m1 & g1 & hole1 & -> & Hs1 & Hy1 & Hp1 & Hr1 & Hk1 & Hl1 & Hroot).
  { destruct (Z.ltb_spec 0 hole); [by apply sift_up_loop_spec|].
    eexists _, _, g, hole. repeat (split; [done|]). unfold root_rel.
    split; [apply (up_ok_done _ _ _ Hup); lia|]. split; [done|]. lia. }
  simpl. destruct (hole_fill _ _ _ _ _ Hs1 Hy1) as (h2 & m2 & -> & -> & Hs2 & Hr2 & Hl2 & Hi2).
  simpl. eexists _, _, g1. repeat (split; [done|]).
  split; [|split; [done|split; [congruence|eauto]]].
  etrans; [done|]. eapply relink_mono; [|done]. intros l. by rewrite Hp1.
Qed.

(** The smaller child of [start], as the loop selects it. *)
Lemma sift_down_child h m g start x :
  hstate K h m g start → arr_get g (start * 2 + 1) = Some x → 0 <= start →
  ∃ y d,
    (if start * 2 + 1 + 1 <? Z.of_nat (length g)
     then right_ptr ← heap_get h (start * 2 + 1 + 1);
          c ← fev_timers_cmp m right_ptr x;
          Some (if c <? 0 then (right_ptr, start * 2 + 1 + 1) else (x, start * 2 + 1))
     else Some (x, start * 2 + 1)) = Some (y, d) ∧
    arr_get g d = Some y ∧ start < d ∧ (d - 1) / 2 = start ∧
    (∀ c, 0 < c < Z.of_nat (length g) → (c - 1) / 2 = start → keys K g d <= keys K g c).
Proof.
  intros Hs Hx H0. pose proof (arr_get_lt _ _ _ Hx) as Rx.
  destruct (Z.ltb_spec (start * 2 + 1 + 1) (Z.of_nat (length g))).
  - destruct (arr_get_is_Some g (start * 2 + 1 + 1)) as [r Hr]; [lia|].
    rewrite (hs_agree _ _ _ _ _ Hs) by lia. rewrite Hr. simpl.
    destruct (fev_timers_cmp_keyed m g r x) as (c & -> & _ & Hc); [apply Hs|eauto with fev..|].
    simpl. destruct (Z.ltb_spec c 0); eexists _, _; split; try done.
    all: split; [done|]; split; [lia|]; split; [lia|].
    all: intros c' ? ?; assert (c' = start * 2 + 1 ∨ c' = start * 2 + 1 + 1) as [->| ->] by lia;
      rewrite ?(keys_eq _ _ _ Hx), ?(keys_eq _ _ _ Hr); lia.
  - eexists _, _. split; [done|]. split; [done|]. split; [lia|]. split; [lia|].
    intros c' ? ?. assert (c' = start * 2 + 1) as -> by lia. lia.
Qed.

Lemma sift_down_loop_spec fuel h m g s start last :
  hstate K h m g start → arr_get g start = Some last → 0 <= s →
  2 <= Z.of_nat (length g) → down_ok (keys K g) (Z.of_nat (length g)) s start →
  (length g - Z.to_nat start <= fuel)%nat →
  ∃ h' m' g' start',
    sift_down_loop fuel h m (Z.of_nat (length g)) start last = Some (h', m', start') ∧
    hstate K h' m' g' start' ∧ arr_get g' start' = Some last ∧ g' ≡ₚ g ∧ relink g m m' ∧
    up_ok (keys K g') (Z.of_nat (length g)) s ∧ length h' = length h ∧
    (0 < start → arr_get g' 0 = arr_get g 0).
Proof.
  revert h m g start.
  induction fuel as [|fuel IH]; intros h m g start Hs Hy H0 H2 Hd Hf;
    pose proof (arr_get_lt _ _ _ Hy) as Ry; [lia|]. simpl.
  destruct (Z.ltb_spec ((Z.of_nat (length g) - 2) / 2) start).
  { eexists _, _, g, _. repeat (split; [done|]). split; [|done].
    apply (down_ok_done _ _ _ _ Hd). intros c Hc Ec. lia. }
  destruct (arr_get_is_Some g (start * 2 + 1)) as [x Hx]; [lia|].
  rewrite (hs_agree _ _ _ _ _ Hs (start * 2 + 1)) by lia. rewrite Hx. cbn [mbind option_bind].
  destruct (sift_down_child h m g start x) as (y & d & -> & Hyd & Hsd & Hpd & Hmin);
    [done|done|lia|].
  cbn [mbind option_bind].
  destruct (fev_timers_cmp_keyed m g last y) as (c & -> & Hc1 & Hc2);
    [apply Hs|eauto with fev..|]. cbn [mbind option_bind].
  destruct (Z.leb_spec c 0) as [Hle|Hgt].
  - eexists _, _, g, _. repeat (split; [done|]). split; [|done].
    apply (down_ok_done _ _ _ _ Hd). intros c' Hc' Ec. pose proof (Hmin c' Hc' Ec) as Hm.
    rewrite (keys_eq _ _ _ Hyd) in Hm. rewrite (keys_eq _ _ _ Hy). lia.
  - pose proof (arr_get_lt _ _ _ Hyd) as Rd.
    destruct (hole_move h m g start d y last)
      as (h1 & m1 & g1 & -> & -> & Hs1 & Hy1 & Hp1 & Hr1 & He1 & Hl1 & Hg1); [done|lia|done|done|].
    cbn [mbind option_bind]. assert (Hlen : length g1 = length g) by (by rewrite Hp1).
    destruct (IH h1 m1 g1 d) as (h2 & m2 & g2 & s2 & E2 & Hs2 & Hy2 & Hp2 & Hr2 & Hk2 & Hl2 & H02).
    1-4: rewrite ?Hlen; done.
    { rewrite Hlen. eapply down_ok_exchange; [done|lia|lia|lia|done| |done|done].
      rewrite (keys_eq _ _ _ Hyd), (keys_eq _ _ _ Hy). lia. }
    { lia. }
    rewrite Hlen in E2. rewrite E2. eexists _, _, g2, _. repeat (split; [done|]).
    rewrite Hlen in Hk2. split; [by rewrite Hp2|].
    split; [|split; [done|split; [congruence|]]].
    + etrans; [done|]. eapply relink_mono; [|done]. intros l. by rewrite Hp1.
    + intros ?. rewrite H02, Hg1 by lia. done.
Qed.

Lemma hstate_drop_last h m g last :
  hstate K h m (g ++ [last]) (-1) → hstate K h m g (-1).
Proof.
  intros [Hl Hn Hk Ha Hi]. rewrite length_app in Hl, Ha. simpl in Hl, Ha. split.
  - lia.
  - by apply NoDup_app in Hn as (? & ? & ?).
  - eapply keyed_mono; [|done]. intros z. rewrite elem_of_app. auto.
  - intros i ? ?. rewrite Ha by lia. apply arr_get_app_l. lia.
  - intros i z Hz ?. apply Hi; [|done]. pose proof (arr_get_lt _ _ _ Hz).
    by rewrite arr_get_app_l by lia.
Qed.

Lemma replace_perm g start l last :
  arr_get g start = Some l → g ++ [last] ≡ₚ l :: <[Z.to_nat start := last]> g.
Proof.
  intros [_ ?]%arr_get_Some. rewrite <- Permutation_cons_append. by apply insert_perm_cons.
Qed.

(** Replacing the element at [start] by the last one, as a loop state. *)
Lemma hstate_replace h m g start l last :
  hstate K h m (g ++ [last]) (-1) → arr_get g start = Some l →
  hstate K h m (<[Z.to_nat start := last]> g) start.
Proof.
  intros [Hl Hn Hk Ha Hi] Hx. pose proof (arr_get_lt _ _ _ Hx) as Rx.
  rewrite length_app in Hl, Ha. simpl in Hl, Ha.
  pose proof (replace_perm g start l last Hx) as Hperm. split.
  - rewrite length_insert. lia.
  - rewrite Hperm in Hn. by apply NoDup_cons in Hn as [_ ?].
  - eapply keyed_mono; [|done]. intros z Hz. rewrite Hperm. by apply list_elem_of_further.
  - intros i Hi' Hne. rewrite length_insert in Hi'.
    rewrite arr_get_insert, decide_False, Ha, arr_get_app_l by (congruence || lia). done.
  - intros i z Hz Hne. rewrite arr_get_insert, decide_False in Hz by (congruence || lia).
    pose proof (arr_get_lt _ _ _ Hz). apply Hi; [by rewrite arr_get_app_l by lia|lia].
Qed.

Lemma heap_ok_drop_last g last :
  heap_ok (keys K (g ++ [last])) (Z.of_nat (length g + 1)) →
  heap_ok (keys K g) (Z.of_nat (length g)).
Proof.
  intros Hk i Hi. pose proof (Hk i ltac:(lia)) as H. unfold keys in *.
  by rewrite !arr_get_app_l in H by lia.
Qed.

(** The loop of [fev_timers_sift_down] together with the test in front of it. *)
Lemma sift_down_loop_opt h m g start last :
  hstate K h m g start → arr_get g start = Some last →
  down_ok (keys K g) (Z.of_nat (length g)) start start →
  ∃ h' m' g' start',
    (if 2 <=? Z.of_nat (length g)
     then sift_down_loop (Z.to_nat (Z.of_nat (length g))) h m (Z.of_nat (length g)) start last
     else Some (h, m, start)) = Some (h', m', start') ∧
    hstate K h' m' g' start' ∧ arr_get g' start' = Some last ∧ g' ≡ₚ g ∧ relink g m m' ∧
    up_ok (keys K g') (Z.of_nat (length g)) start ∧ length h' = length h ∧
    (0 < start → arr_get g' 0 = arr_get g 0).
Proof.
  intros Hs Hy Hd. pose proof (arr_get_lt _ _ _ Hy).
  destruct (Z.leb_spec 2 (Z.of_nat (length g))).
  - apply sift_down_loop_spec; try done; lia.
  - eexists _, _, g, _. repeat (split; [done|]). split; [|done]. split; intros; lia.
Qed.

(** Removing the element at [start]: the order can fail only above [start]. *)
Lemma fev_timers_sift_down_spec h m g start l :
  hstate K h m g (-1) → heap_ok (keys K g) (Z.of_nat (length g)) → arr_get g start = Some l →
  ∃ h' m' g',
    fev_timers_sift_down h m (Z.of_nat (length g)) start = Some (h', m') ∧
    hstate K h' m' g' (-1) ∧ g ≡ₚ l :: g' ∧ relink g' m m' ∧
    up_ok (keys K g') (Z.of_nat (length g')) start ∧ length h' = length h ∧
    (0 < start → arr_get g' 0 = arr_get g 0).
Proof.
  intros Hs Hk Hx. pose proof (arr_get_lt _ _ _ Hx) as Rx.
  destruct g as [|last g _] using rev_ind; [simpl in Rx; lia|].
  rewrite length_app in *. cbn [length] in *. unfold fev_timers_sift_down.
  rewrite (proj2 (Z.leb_le 1 _)), (proj2 (Z.ltb_lt start _)) by lia.
  apply heap_ok_drop_last in Hk.
  destruct (Z.eqb_spec start (Z.of_nat (length g + 1) - 1)) as [E|E].
  - exists h, m, g. split; [done|]. assert (start = Z.of_nat (length g)) as -> by lia.
    rewrite arr_get_app_last in Hx. injection Hx as ->.
    split; [by eapply hstate_drop_last|]. split; [symmetry; apply Permutation_cons_append|].
    split; [done|]. split; [|split; [done|]].
    + split; intros; [apply Hk|]; lia.
    + intros. symmetry. apply arr_get_app_l. lia.
  - replace (Z.of_nat (length g + 1) - 1) with (Z.of_nat (length g)) by lia.
    rewrite (proj2 (Z.leb_le 2 _)) by lia.
    rewrite (hs_agree _ _ _ _ _ Hs), arr_get_app_last
      by (rewrite ?length_app; cbn [length]; lia). cbn [mbind option_bind].
    rewrite arr_get_app_l in Hx by lia.
    pose proof (hstate_replace _ _ _ _ _ _ Hs Hx) as Hs1.
    pose proof (replace_perm g start l last Hx) as Hperm.
    pose proof (λ j, arr_get_insert g start j last ltac:(lia)) as Hg1.
    set (g1 := <[Z.to_nat start := last]> g) in *.
    assert (Hlen1 : length g1 = length g) by (unfold g1; by rewrite length_insert).
    destruct (sift_down_loop_opt h m g1 start last)
      as (h2 & m2 & g2 & start2 & E2 & Hs2 & Hy2 & Hp2 & Hr2 & Hk2 & Hl2 & H02); [done| | |].
    { by rewrite Hg1, decide_True. }
    { rewrite Hlen1. apply (down_ok_start (keys K g)); [done|lia|].
      intros j Hj Hne. unfold keys. by rewrite Hg1, decide_False by congruence. }
    rewrite Hlen1 in E2. rewrite E2. cbn [mbind option_bind].
    destruct (hole_fill _ _ _ _ _ Hs2 Hy2) as (h3 & m3 & -> & -> & Hs3 & Hr3 & Hl3 & _).
    cbn [mbind option_bind]. exists h3, m3, g2. split; [done|]. split; [done|].
    split; [by rewrite Hp2|]. assert (length g2 = length g1) as -> by (by rewrite Hp2).
    split; [|split; [done|split; [congruence|]]].
    + etrans; [|done]. eapply relink_mono; [|done]. intros z. by rewrite Hp2.
    + intros ?. rewrite H02, Hg1, decide_False, arr_get_app_l by lia. done.
Qed.
End loops.

(** ** The bucket *)

(** The bucket holds exactly the timers [ts]: the first [len] cells of the
    array are a heap-ordered arrangement [g] of [ts], each timer knows its
    index, and the capacity is that of the array and small enough for its size
    in bytes to be computed. *)
Definition heap_repr (b : heap_bucket) (m : hstore) (ts : list loc) : Prop :=
  ∃ g, g ≡ₚ ts ∧ hstate (key m) (heap b) m g (-1) ∧
       heap_ok (keys (key m) g) (Z.of_nat (length g)) ∧
       len b = Z.of_nat (length g) ∧ capacity b = Z.of_nat (length (heap b)) ∧
       capacity b <= SIZE_MAX / ptr_size.

Section bucket.
Implicit Types (b : heap_bucket) (m : hstore) (ts g : list loc).

Lemma keys_ext K K' g i : (∀ l, K l = K' l) → keys K g i = keys K' g i.
Proof. intros E. unfold keys. destruct (arr_get g i); [apply E|done]. Qed.

Lemma hstate_ext K K' h m g hole :
  (∀ l, K l = K' l) → hstate K h m g hole → hstate K' h m g hole.
Proof.
  intros E [? ? Hk ? ?]. split; try done. intros l Hl. rewrite <- E. by apply Hk.
Qed.

Lemma hstate_hole K h m g hole : hstate K h m g (-1) → hstate K h m g hole.
Proof.
  intros [? ? ? Ha Hi]. split; try done.
  - intros i ? _. apply Ha; lia.
  - intros i l Hl _. apply Hi; [done|]. pose proof (arr_get_lt _ _ _ Hl). lia.
Qed.

(** Re-establishing [heap_repr] after an operation that worked with the keys
    of the store it started from. *)
Lemma heap_repr_intro m h m' g n c ts ls :
  relink ls m m' → hstate (key m) h m' g (-1) → heap_ok (keys (key m) g) (Z.of_nat (length g)) →
  n = Z.of_nat (length g) → c = Z.of_nat (length h) → c <= SIZE_MAX / ptr_size → g ≡ₚ ts →
  heap_repr (mk_bucket h n c) m' ts.
Proof.
  intros Hr Hs Hk -> -> Hc Hp. exists g. simpl.
  assert (E : ∀ l, key m l = key m' l) by (intros; symmetry; by eapply key_relink).
  split; [done|]. split; [by eapply hstate_ext|]. split; [|done].
  intros i Hi. pose proof (Hk i Hi) as H. by rewrite !(keys_ext (key m) (key m')) in H by done.
Qed.

Lemma heap_get_root b m g :
  hstate (key m) (heap b) m g (-1) → len b = Z.of_nat (length g) →
  fev_timers_bucket_min b = arr_get g 0.
Proof.
  intros Hs Hl. unfold fev_timers_bucket_min, fev_timers_bucket_empty.
  destruct (Z.eqb_spec (len b) 0) as [E|E]; simpl.
  - destruct g; [done|simpl in *; lia].
  - rewrite (hs_agree _ _ _ _ _ Hs) by lia. done.
Qed.

Lemma heap_repr_index b m ts l :
  heap_repr b m ts → l ∈ ts →
  ∃ i, timer_index m l = Some i ∧ 0 <= i < SIZE_MAX.
Proof.
  intros (g & Hp & Hs & _ & Hl & Hc & Hcap) Hin. rewrite <- Hp in Hin.
  apply elem_of_arr_get in Hin as (i & Hi & Hg). exists i.
  split; [apply (hs_index _ _ _ _ _ Hs); [done|lia]|].
  pose proof (hs_len _ _ _ _ _ Hs). unfold SIZE_MAX, ptr_size in *. lia.
Qed.

(** The array after [fev_timers_bucket_grow], or without growing, has room
    for one more element. *)
Lemma grow_ok ok b m ts :
  heap_repr b m ts → Z.of_nat (length ts) < SIZE_MAX / 16 →
  ∃ ret b1, (if len b =? capacity b then fev_timers_bucket_grow ok b else Some (0, b)) = Some (ret, b1) ∧
    ((ret = - ENOMEM ∧ ok = false ∧ b1 = b) ∨
     (ret = 0 ∧ heap_repr b1 m ts ∧ len b1 = len b ∧ len b1 < capacity b1 ∧
      fev_timers_bucket_min b1 = fev_timers_bucket_min b)).
Proof.
  intros (g & Hp & Hs & Hk & Hl & Hc & Hcap) Hsz. rewrite <- Hp in Hsz.
  pose proof (hs_len _ _ _ _ _ Hs) as Hlen.
  destruct (Z.eqb_spec (len b) (capacity b)) as [E|E].
  2: { eexists _, _. split; [done|]. right. split; [done|]. split; [by exists g|]. repeat split; lia. }
  unfold fev_timers_bucket_grow. unfold SIZE_MAX, ptr_size in *.
  rewrite u64_small by lia. set (cap := if 2 * capacity b =? 0 then 1 else 2 * capacity b).
  assert (Hcap' : capacity b < cap ∧ cap <= (2 ^ 64 - 1) / 8)
    by (unfold cap; destruct (Z.eqb_spec (2 * capacity b) 0); lia).
  rewrite (proj2 (Z.leb_le cap _)) by lia.
  destruct ok; simpl; eexists _, _; (split; [done|]); [right|left; done].
  assert (Hs' : hstate (key m) (resize (Z.to_nat cap) None (heap b)) m g (-1)).
  { destruct Hs as [? ? ? Ha ?]. split; try done.
    - rewrite length_resize. lia.
    - intros i Hi Hne. rewrite <- Ha by lia. unfold heap_get, arr_get.
      destruct (0 <=? i); [|done]. rewrite lookup_resize by lia. done. }
  split; [done|]. split.
  - eapply heap_repr_intro with (m := m) (ls := []); try done.
    + rewrite length_resize. lia.
    + unfold SIZE_MAX, ptr_size. lia.
  - simpl. split; [done|]. split; [lia|].
    rewrite (heap_get_root b m g), (heap_get_root (mk_bucket _ _ _) m g) by done. done.
Qed.

Lemma heap_add_ok ok b m ts l t :
  heap_repr b m ts → l ∉ ts → m !! l = Some t → ts_valid (abs_time t) →
  Z.of_nat (length ts) < SIZE_MAX / 16 →
  ∃ ret b' m', fev_timers_bucket_add ok b m l = Some (ret, b', m') ∧
    ((ret = - ENOMEM ∧ ok = false ∧ b' = b ∧ m' = m) ∨
     (heap_repr b' m' (l :: ts) ∧ relink (l :: ts) m m' ∧
      ((ret = 1 ∧ fev_timers_bucket_min b' = Some l) ∨
       (ret = 0 ∧ ts ≠ [] ∧ fev_timers_bucket_min b' = fev_timers_bucket_min b)))).
Proof.
  intros Hr Hnl Hl Hv Hsz. unfold fev_timers_bucket_add.
  destruct (grow_ok ok b m ts Hr Hsz) as (ret & b1 & -> & Hg). simpl. clear Hr.
  destruct Hg as [(-> & -> & ->)|(-> & Hr & El & Hlt & Emin)]; simpl.
  { eexists _, _, _. split; [done|]. by left. }
  destruct Hr as (g & Hp & Hs & Hk & Hlen & Hc & Hcap).
  assert (Hs1 : hstate (key m) (heap b1) m (g ++ [l]) (len b1)).
  { destruct Hs as [? ? Hkd Ha Hi]. split.
    - rewrite length_app. simpl. lia.
    - apply NoDup_app. split; [done|]. split; [|apply NoDup_singleton].
      intros x Hx ->%list_elem_of_singleton. apply Hnl. by rewrite <- Hp.
    - intros x [Hx|Hx%list_elem_of_singleton]%elem_of_app; [by apply Hkd|]. subst x.
      exists t. split; [done|]. split; [done|]. unfold key. by rewrite Hl.
    - intros i Hi' Hne. rewrite length_app in Hi'. simpl in Hi'.
      rewrite arr_get_app_l by lia. apply Ha; lia.
    - intros i x Hx Hne. pose proof (arr_get_lt _ _ _ Hx) as Hr. rewrite length_app in Hr.
      simpl in Hr. rewrite arr_get_app_l in Hx by lia. apply Hi; [done|lia]. }
  destruct (fev_timers_sift_up_spec (key m) (heap b1) m (g ++ [l]) (len b1) l)
    as (h' & m' & g' & -> & Hs' & Hp' & Hrel & Hk' & Hl' & hole' & Hi' & Hg' & Hroot); [done| | |].
  { rewrite Hlen. apply arr_get_app_last. }
  { split; [|intros; rewrite length_app in *; simpl in *; lia].
    intros i Hi Hne. rewrite length_app in Hi. simpl in Hi. unfold keys.
    rewrite !arr_get_app_l by lia. apply Hk. lia. }
  cbn [mbind option_bind]. rewrite Hi'. cbn [mbind option_bind].
  assert (Hperm : g' ≡ₚ l :: ts) by (by rewrite Hp', <- Permutation_cons_append, Hp).
  assert (Hlg : length g' = (length g + 1)%nat) by (by rewrite Hp', length_app).
  eexists _, _, _. split; [done|]. right.
  assert (Hr' : relink (l :: ts) m m').
  { eapply relink_mono; [|done]. intros x. by rewrite <- Hp', Hperm. }
  split; [|split; [done|]].
  { eapply heap_repr_intro; try done; [|lia|lia]. rewrite Hlg. by rewrite length_app in Hk'. }
  set (b' := mk_bucket h' (len b1 + 1) (capacity b1)).
  assert (Hmin : fev_timers_bucket_min b' = arr_get g' 0).
  { unfold fev_timers_bucket_min, fev_timers_bucket_empty, b'. simpl.
    rewrite (proj2 (Z.eqb_neq _ 0)) by lia. simpl. apply (hs_agree _ _ _ _ _ Hs'); lia. }
  rewrite Hmin. destruct (Z.eqb_spec hole' 0) as [->|Hne]; [left; done|right].
  split; [done|]. destruct Hroot as [[_ E]|[? _]]; [|lia].
  pose proof (arr_get_lt _ _ _ Hg') as Hrange.
  split; [intros ->; apply Permutation_nil_r in Hp; subst; simpl in *; lia|].
  rewrite <- Emin, (heap_get_root b1 m g) by done. rewrite E. apply arr_get_app_l.
  destruct g; simpl in *; lia.
Qed.

Lemma heap_del_ok b m ts l :
  heap_repr b m ts → l ∈ ts →
  ∃ ret b' m' ts', fev_timers_bucket_del b m l = Some (ret, b', m') ∧
    ts ≡ₚ l :: ts' ∧ heap_repr b' m' ts' ∧ relink ts' m m' ∧
    ((ret = 1 ∧ fev_timers_bucket_min b = Some l) ∨
     (ret = 0 ∧ fev_timers_bucket_min b ≠ Some l ∧
      fev_timers_bucket_min b' = fev_timers_bucket_min b)).
Proof.
  intros Hr Hin. destruct (heap_repr_index b m ts l Hr Hin) as (i & Hi & Hir).
  destruct Hr as (g & Hp & Hs & Hk & Hl & Hc & Hcap).
  rewrite <- Hp in Hin. apply elem_of_arr_get in Hin as (i' & Hi' & Hg).
  pose proof (hs_index _ _ _ _ _ Hs i' l Hg ltac:(lia)) as E.
  assert (i' = i) as -> by congruence. clear E.
  unfold fev_timers_bucket_del, fev_timers_bucket_empty. rewrite Hi. cbn [mbind option_bind].
  rewrite (proj2 (Z.eqb_neq (len b) 0)), (proj2 (Z.eqb_neq i SIZE_MAX)) by lia. cbn [negb].
  rewrite Hl. destruct (fev_timers_sift_down_spec (key m) (heap b) m g i l)
    as (h1 & m1 & g1 & -> & Hs1 & Hp1 & Hr1 & Hk1 & Hl1 & H01); [done..|].
  cbn [mbind option_bind].
  assert (Hlg : length g = S (length g1)) by (by rewrite Hp1).
  rewrite (heap_get_root b m g) by done.
  destruct (Z.ltb_spec 0 i) as [Hpos|Hz].
  2: { assert (i = 0) as -> by lia. eexists _, _, _, g1. split; [done|].
    split; [by rewrite <- Hp|]. split; [|split; [done|by left]].
    eapply heap_repr_intro; try done; [|lia|lia]. apply (up_ok_done _ _ _ Hk1). lia. }
  assert (Hne : arr_get g 0 ≠ Some l).
  { intros E. assert (0 = i) by (eapply arr_get_inj; [apply Hs|done|done]). lia. }
  destruct (Z.ltb_spec i (Z.of_nat (length g) - 1)) as [Hlt|Hge].
  - destruct (arr_get_is_Some g1 i) as [x Hx]; [lia|].
    rewrite (hs_agree _ _ _ _ _ Hs1), Hx by lia. cbn [mbind option_bind].
    destruct (fev_timers_sift_up_spec (key m) h1 m1 g1 i x)
      as (h2 & m2 & g2 & -> & Hs2 & Hp2 & Hr2 & Hk2 & Hl2 & hole' & Hi2 & Hg2 & Hroot); [|done..|].
    { by apply hstate_hole. }
    cbn [mbind option_bind]. eexists _, _, _, g1. split; [done|].
    assert (Hlg2 : length g2 = length g1) by (by rewrite Hp2).
    assert (Hr2' : relink g1 m m2) by (by etrans).
    split; [by rewrite <- Hp|]. split; [|split; [done|right; split; [done|split; [done|]]]].
    { eapply heap_repr_intro; try done; [|lia|lia]. by rewrite Hlg2. }
    unfold fev_timers_bucket_min, fev_timers_bucket_empty. simpl.
    rewrite (proj2 (Z.eqb_neq _ 0)) by lia. simpl.
    rewrite (hs_agree _ _ _ _ _ Hs2) by lia.
    destruct Hroot as [[_ ->]|[_ [?|Hlt']]]; [by apply H01|lia|exfalso].
    assert (Hxi : x ∈ g) by (rewrite Hp1; apply list_elem_of_further; eauto with fev).
    apply elem_of_arr_get in Hxi as (j & Hj & Hgj).
    pose proof (heap_ok_root _ _ j Hk Hj) as Hmin. rewrite (keys_eq _ _ _ _ Hgj) in Hmin.
    unfold keys in Hlt', Hmin. rewrite H01 in Hlt' by done. lia.
  - cbn [mbind option_bind]. eexists _, _, _, g1. split; [done|].
    split; [by rewrite <- Hp|]. split; [|split; [done|right; split; [done|split; [done|]]]].
    { eapply heap_repr_intro; try done; [|lia|lia].
      intros j Hj. apply Hk1; lia. }
    unfold fev_timers_bucket_min, fev_timers_bucket_empty. simpl.
    rewrite (proj2 (Z.eqb_neq _ 0)) by lia. simpl.
    rewrite (hs_agree _ _ _ _ _ Hs1) by lia. by apply H01.
Qed.

Lemma heap_del_min_ok b m ts l :
  heap_repr b m ts → fev_timers_bucket_min b = Some l → ts ≠ [] →
  ∃ b' m' ts', fev_timers_bucket_del_min b m = Some (b', m') ∧
    ts ≡ₚ l :: ts' ∧ heap_repr b' m' ts' ∧ relink ts' m m'.
Proof.
  intros (g & Hp & Hs & Hk & Hl & Hc & Hcap) Hmin Hne.
  rewrite (heap_get_root b m g Hs Hl) in Hmin. pose proof (arr_get_lt _ _ _ Hmin).
  unfold fev_timers_bucket_del_min, fev_timers_bucket_empty.
  rewrite (proj2 (Z.eqb_neq (len b) 0)) by lia. cbn [negb]. rewrite Hl.
  destruct (fev_timers_sift_down_spec (key m) (heap b) m g 0 l)
    as (h1 & m1 & g1 & -> & Hs1 & Hp1 & Hr1 & Hk1 & Hl1 & _); [done..|].
  cbn [mbind option_bind]. assert (length g = S (length g1)) by (by rewrite Hp1).
  eexists _, _, g1. split; [done|]. split; [by rewrite <- Hp|]. split; [|done].
  eapply heap_repr_intro; try done; [|lia|lia]. apply (up_ok_done _ _ _ Hk1). lia.
Qed.

Lemma heap_repr_min b m ts :
  heap_repr b m ts → ts ≠ [] →
  ∃ l, fev_timers_bucket_min b = Some l ∧ l ∈ ts ∧ ∀ l', l' ∈ ts → key m l <= key m l'.
Proof.
  intros (g & Hp & Hs & Hk & Hl & Hc & Hcap) Hne.
  rewrite (heap_get_root b m g Hs Hl).
  destruct (arr_get_is_Some g 0) as [l Hg].
  { destruct g; [apply Permutation_nil_l in Hp; done|simpl; lia]. }
  exists l. split; [done|]. split; [rewrite <- Hp; eauto with fev|].
  intros l' Hl'. rewrite <- Hp in Hl'. apply elem_of_arr_get in Hl' as (i & Hi & Hgi).
  pose proof (heap_ok_root _ _ i Hk Hi) as Hle. unfold keys in Hle. by rewrite Hg, Hgi in Hle.
Qed.

Lemma heap_set_expired_ok m l :
  is_Some (m !! l) →
  ∃ m', fev_timer_set_expired m l = Some m' ∧ relink [l] m m' ∧
        ∀ t, m' !! l = Some t → fev_timer_is_expired t = true.
Proof.
  intros Hl. destruct (set_link_spec m l SIZE_MAX [l]) as (t & Ht & Hset & Hrel);
    [by apply list_elem_of_singleton|done|].
  eexists. split; [exact Hset|]. split; [done|]. intros t'. rewrite lookup_insert_eq.
  intros [= <-]. by apply Z.eqb_eq.
Qed.

Lemma heap_repr_frame b m m' ts :
  (∀ l, l ∈ ts → m' !! l = m !! l) → heap_repr b m ts → heap_repr b m' ts.
Proof.
  intros E (g & Hp & [? ? Hkd ? Hi] & Hk & Hl & Hc & Hcap).
  assert (E' : ∀ l, l ∈ g → m' !! l = m !! l) by (intros l; rewrite Hp; apply E).
  assert (Ek : ∀ i, keys (key m') g i = keys (key m) g i).
  { intros i. unfold keys. destruct (arr_get g i) eqn:Hg; [|done].
    unfold key. by rewrite E' by eauto with fev. }
  exists g. split; [done|]. split; [|split; [|done]].
  - split; try done.
    + intros l Hl'. unfold key. rewrite E' by done. by apply Hkd.
    + intros i l Hg Hne. unfold timer_index. rewrite E' by eauto with fev. by apply Hi.
  - intros i Hi'. rewrite !Ek. by apply Hk.
Qed.
End bucket.

(** ** The binary heap implements the bucket interface *)

#[export] Instance heap_ops : TimersBucketOps Z heap_bucket := {|
  link_init := 0;
  timer_is_expired := fev_timer_is_expired;
  timer_set_expired := fev_timer_set_expired;
  bucket_init := fev_timers_bucket_init;
  bucket_empty := fev_timers_bucket_empty;
  bucket_min := fev_timers_bucket_min;
  bucket_add := fev_timers_bucket_add;
  bucket_del := fev_timers_bucket_del;
  bucket_del_min := fev_timers_bucket_del_min;
  timers_add_can_fail := true;
|}.

#[export] Instance heap_timers_bucket : TimersBucket Z heap_bucket.
Proof.
  refine {| bucket_repr := heap_repr |}; simpl.
  - intros b m ts ts' E (g & Hp & H). exists g. by rewrite <- E.
  - intros b m ts (g & Hp & Hs & _). rewrite <- Hp. apply Hs.
  - intros b m ts (g & Hp & Hs & _). eapply keyed_mono; [|apply Hs]. intros l. by rewrite Hp.
  - intros b m ts l t Hr Hin Hl. destruct (heap_repr_index b m ts l Hr Hin) as (i & Hi & Hir).
    unfold timer_index in Hi. rewrite Hl in Hi. simplify_eq/=. apply Z.eqb_neq. lia.
  - apply heap_repr_frame.
  - intros m. exists []. split; [done|]. split.
    2: { split; [intros i Hi; simpl in Hi; lia|]. done. }
    split; simpl; [lia|apply NoDup_nil_2|by intros l ?%not_elem_of_nil|lia|].
    intros i l H%arr_get_lt. simpl in H. lia.
  - intros b m ts (g & Hp & _ & _ & Hl & _). unfold fev_timers_bucket_empty. rewrite Hl, Z.eqb_eq.
    split; [|intros ->; by apply Permutation_nil_r in Hp as ->].
    destruct g; [by apply Permutation_nil_l in Hp|simpl; lia].
  - apply heap_repr_min.
  - apply heap_set_expired_ok.
  - intros ok b m ts l t H1 H2 H3 H4 _ H5.
    destruct (heap_add_ok ok b m ts l t H1 H2 H3 H4 H5)
      as (ret & b' & m' & E & [(? & ? & ? & ?)|H]); eexists _, _, _; (split; [exact E|]); auto.
    left. done.
  - apply heap_del_ok.
  - apply heap_del_min_ok.
Defined.

(** ** A concrete bucket

    Three timers expiring at 30, 10 and 20 seconds, added in this order. *)

Definition ex_timer (w : loc) (sec idx : Z) : htimer := mk_timer (mk_timespec sec 0) idx w.
Definition ex_store0 : hstore :=
  {[ 1%positive := ex_timer 11 30 0; 2%positive := ex_timer 12 10 0; 3%positive := ex_timer 13 20 0;
     4%positive := ex_timer 14 5 0 ]}.
Definition ex_store : hstore :=
  {[ 1%positive := ex_timer 11 30 1; 2%positive := ex_timer 12 10 0; 3%positive := ex_timer 13 20 2;
     4%positive := ex_timer 14 5 0 ]}.
Definition ex_bucket : heap_bucket :=
  mk_bucket [Some 2%positive; Some 1%positive; Some 3%positive; None] 3 4.

Example ex_bucket_built :
  ('(_, b, m) ← fev_timers_bucket_add true fev_timers_bucket_init ex_store0 1%positive;
   '(_, b, m) ← fev_timers_bucket_add true b m 2%positive;
   fev_timers_bucket_add true b m 3%positive) = Some (0, ex_bucket, ex_store).
Proof. vm_compute. reflexivity. Qed.

Lemma ex_repr : heap_repr ex_bucket ex_store [1; 2; 3]%positive.
Proof.
  exists [2; 1; 3]%positive. split; [apply Permutation_swap|].
  assert (R : ∀ i, 0 <= i < 3 → i = 0 ∨ i = 1 ∨ i = 2) by lia.
  split; [|split; [|done]].
  - split; [done|..].
    + apply (bool_decide_eq_true_1 _). reflexivity.
    + intros l Hl%list_elem_of_In. simpl in Hl. destruct Hl as [<-|[<-|[<-|[]]]];
        (eexists; split; [vm_compute; reflexivity|split; [|reflexivity]]);
        unfold ts_valid, FEV_NSECS_PER_SEC, LONG_MAX; simpl; lia.
    + intros i [->|[->| ->]]%R _; reflexivity.
    + intros i l Hl _. pose proof (arr_get_lt _ _ _ Hl) as [->|[->| ->]]%R;
        injection Hl as <-; vm_compute; reflexivity.
  - intros i Hi. simpl in Hi. assert (i = 1 ∨ i = 2) as [->| ->] by lia; vm_compute; discriminate.
Qed.

(** ** Properties *)

(** [fev_timers_bucket_add] on a well-formed heap either reports
    [-ENOMEM], when an allocation fails, and changes nothing, or inserts the
    timer: the heap stays well formed (heap order, every timer knows its index,
    [len] and [capacity] agree with the array), its timers are the old ones
    and the new one, nothing but heap indices changes in the store, and the
    result says whether the new timer became the minimum. No access is out of
    bounds and no assertion fails. *)
Theorem binheap_add_correct ok b m ts l t :
  heap_repr b m ts → l ∉ ts → m !! l = Some t → ts_valid (abs_time t) →
  Z.of_nat (length ts) < SIZE_MAX / 16 →
  ∃ ret b' m', fev_timers_bucket_add ok b m l = Some (ret, b', m') ∧
    ((ret = - ENOMEM ∧ ok = false ∧ b' = b ∧ m' = m) ∨
     (heap_repr b' m' (l :: ts) ∧ relink (l :: ts) m m' ∧
      ((ret = 1 ∧ fev_timers_bucket_min b' = Some l) ∨
       (ret = 0 ∧ ts ≠ [] ∧ fev_timers_bucket_min b' = fev_timers_bucket_min b)))).
Proof. apply heap_add_ok. Qed.

Lemma binheap_add_correct_witness :
  heap_repr ex_bucket ex_store [1; 2; 3]%positive ∧
  ∃ ret b' m', fev_timers_bucket_add true ex_bucket ex_store 4%positive = Some (ret, b', m') ∧
    heap_repr b' m' [4; 1; 2; 3]%positive.
Proof.
  split; [exact ex_repr|].
  destruct (binheap_add_correct true ex_bucket ex_store [1; 2; 3]%positive 4%positive (ex_timer 14 5 0))
    as (ret & b' & m' & E & [(_ & F & _)|(R & _)]).
  - exact ex_repr.
  - apply (bool_decide_eq_true_1 _). reflexivity.
  - vm_compute. reflexivity.
  - unfold ts_valid, FEV_NSECS_PER_SEC, LONG_MAX. simpl. lia.
  - vm_compute. reflexivity.
  - discriminate F.
  - exists ret, b', m'. split; [exact E|exact R].
Defined.

(** C6: [fev_timers_bucket_del] of a pending timer succeeds, removes exactly
    that timer, keeps the heap well formed, and returns 1 exactly when it was
    the minimum; otherwise the minimum is unchanged. *)
Theorem binheap_del_correct b m ts l :
  heap_repr b m ts → l ∈ ts →
  ∃ ret b' m' ts', fev_timers_bucket_del b m l = Some (ret, b', m') ∧
    ts ≡ₚ l :: ts' ∧ heap_repr b' m' ts' ∧ relink ts' m m' ∧
    ((ret = 1 ∧ fev_timers_bucket_min b = Some l) ∨
     (ret = 0 ∧ fev_timers_bucket_min b ≠ Some l ∧
      fev_timers_bucket_min b' = fev_timers_bucket_min b)).
Proof. apply heap_del_ok. Qed.

Lemma binheap_del_correct_witness :
  heap_repr ex_bucket ex_store [1; 2; 3]%positive ∧
  ∃ ret b' m' ts', fev_timers_bucket_del ex_bucket ex_store 1%positive = Some (ret, b', m') ∧
    heap_repr b' m' ts'.
Proof.
  split; [exact ex_repr|].
  destruct (binheap_del_correct ex_bucket ex_store [1; 2; 3]%positive 1%positive ex_repr)
    as (ret & b' & m' & ts' & E & _ & R & _).
  - apply (bool_decide_eq_true_1 _). reflexivity.
  - exists ret, b', m', ts'. split; [exact E|exact R].
Defined.

(** The root of a non-empty heap is a timer that expires first, and
    [fev_timers_bucket_del_min] removes exactly it and keeps the heap well
    formed. *)
Theorem binheap_del_min_correct b m ts :
  heap_repr b m ts → ts ≠ [] →
  ∃ l b' m' ts', fev_timers_bucket_min b = Some l ∧ (∀ l', l' ∈ ts → key m l <= key m l') ∧
    fev_timers_bucket_del_min b m = Some (b', m') ∧
    ts ≡ₚ l :: ts' ∧ heap_repr b' m' ts' ∧ relink ts' m m'.
Proof.
  intros Hr Hne. destruct (heap_repr_min b m ts Hr Hne) as (l & Hl & _ & Hmin).
  destruct (heap_del_min_ok b m ts l Hr Hl Hne) as (b' & m' & ts' & H).
  exists l, b', m', ts'. done.
Qed.

Lemma binheap_del_min_correct_witness :
  heap_repr ex_bucket ex_store [1; 2; 3]%positive ∧
  ∃ l b' m', fev_timers_bucket_min ex_bucket = Some l ∧
    fev_timers_bucket_del_min ex_bucket ex_store = Some (b', m').
Proof.
  split; [exact ex_repr|].
  destruct (binheap_del_min_correct ex_bucket ex_store [1; 2; 3]%positive ex_repr)
    as (l & b' & m' & ts' & H1 & _ & H2 & _); [discriminate|].
  exists l, b', m'. split; [exact H1|exact H2].
Defined.
