(* ===== verification/RbTree.v ===== *)
(** Red-black trees of [src/third_party/tree.h], the macros that
    [src/src/fev_timers_rbtree.c] instantiates: [RB_INSERT], [RB_REMOVE],
    [RB_NEXT], [RB_LEFT] and the rebalancing they call.

    The C code walks a tree of nodes linked both ways. Here a position in the
    tree is a subtree together with the path from it to the root, innermost
    frame first: a frame says on which side of the parent the position lies
    and carries the parent's colour, element and other child. Following
    [RB_PARENT] is taking a frame off the path, following a child pointer is
    pushing one, and storing into a child pointer is replacing the subtree.
    Reading a field of a null node is [None]. *)

From stdpp Require Import sorting.
From S2P Require Import Prelude.

Local Open Scope Z_scope.

Inductive color := RB_BLACK | RB_RED.

#[export] Instance color_eq_dec : EqDecision color.
Proof. solve_decision. Defined.

(** ** Trees and positions *)

Section rbtree.
Context {A : Type} `{EqDecision A}.

Inductive tree :=
| E
| T (c : color) (l : tree) (x : A) (r : tree).

Inductive frame :=
| FL (c : color) (x : A) (r : tree)
| FR (c : color) (l : tree) (x : A).

Abbreviation path := (list frame).

(** The parent of a position, with the position's subtree put back. *)
Definition fill (f : frame) (t : tree) : tree :=
  match f with FL c x r => T c t x r | FR c l x => T c l x t end.

(** The whole tree. *)
Fixpoint plug (t : tree) (p : path) : tree :=
  match p with [] => t | f :: p' => plug (fill f t) p' end.

(** [RB_COLOR(elm) = c]; a null node is not written. *)
Definition set_color (c : color) (t : tree) : tree :=
  match t with E => E | T _ l x r => T c l x r end.

(** [tmp && RB_COLOR(tmp) == RB_RED]. *)
Definition is_red (t : tree) : bool :=
  match t with T RB_RED _ _ _ => true | _ => false end.

(** [tmp == NULL || RB_COLOR(tmp) == RB_BLACK]. *)
Definition is_black (t : tree) : bool := negb (is_red t).

Definition frame_color (f : frame) : color :=
  match f with FL c _ _ => c | FR c _ _ => c end.

(** ** Rotations *)

(** [RB_ROTATE_LEFT(head, elm, tmp)] on the subtree of [elm]; the right child
    must exist. *)
Definition RB_ROTATE_LEFT (t : tree) : option tree :=
  match t with
  | T c l x (T ct a y b) => Some (T ct (T c l x a) y b)
  | _ => None
  end.

(** [RB_ROTATE_RIGHT(head, elm, tmp)]. *)
Definition RB_ROTATE_RIGHT (t : tree) : option tree :=
  match t with
  | T c (T ct a y b) x r => Some (T ct a y (T c b x r))
  | _ => None
  end.

(** ** Insertion *)

(** [RB_INSERT_COLOR]: [e] is the subtree of [elm], [p] the path to the root.
    After a rotation the parent of [elm] is black, so the loop ends. *)
Fixpoint RB_INSERT_COLOR (e : tree) (p : path) : option tree :=
  match p with
  | [] => Some (set_color RB_BLACK e)
  | parent :: p1 =>
    if decide (frame_color parent = RB_RED) then
      match p1 with
      | [] => None
      | FL cg xg tmp :: p2 =>
        if is_red tmp then
          RB_INSERT_COLOR
            (T RB_RED (set_color RB_BLACK (fill parent e)) xg (set_color RB_BLACK tmp)) p2
        else
          t ← match parent with
              | FR _ _ _ => RB_ROTATE_LEFT (fill parent e)
              | FL _ _ _ => Some (fill parent e)
              end;
          t' ← RB_ROTATE_RIGHT (T RB_RED (set_color RB_BLACK t) xg tmp);
          Some (set_color RB_BLACK (plug t' p2))
      | FR cg tmp xg :: p2 =>
        if is_red tmp then
          RB_INSERT_COLOR
            (T RB_RED (set_color RB_BLACK tmp) xg (set_color RB_BLACK (fill parent e))) p2
        else
          t ← match parent with
              | FL _ _ _ => RB_ROTATE_RIGHT (fill parent e)
              | FR _ _ _ => Some (fill parent e)
              end;
          t' ← RB_ROTATE_LEFT (T RB_RED tmp xg (set_color RB_BLACK t));
          Some (set_color RB_BLACK (plug t' p2))
      end
    else Some (set_color RB_BLACK (plug e p))
  end.

(** The descent of [RB_INSERT]: the position of the new element, or [inl] the
    element that compares equal. *)
Fixpoint rb_descend (cmp : A → A → option Z) (x : A) (t : tree) (p : path) :
    option (A + path) :=
  match t with
  | E => Some (inr p)
  | T c l y r =>
    comp ← cmp x y;
    if comp <? 0 then rb_descend cmp x l (FL c y r :: p)
    else if 0 <? comp then rb_descend cmp x r (FR c l y :: p)
    else Some (inl y)
  end.

(** [RB_INSERT(name, head, elm)]: the element found, if any, and the tree. *)
Definition RB_INSERT (cmp : A → A → option Z) (t : tree) (x : A) : option (option A * tree) :=
  d ← rb_descend cmp x t [];
  match d with
  | inl y => Some (Some y, t)
  | inr p => t' ← RB_INSERT_COLOR (T RB_RED E x E) p; Some (None, t')
  end.

(** ** Removal *)

(** One turn of the loop of [RB_REMOVE_COLOR] after the red-sibling case, with
    [elm] the left child of [parent] (colour [c], element [x]) and [tmp] its
    sibling: the new subtree at the place of [parent], and whether the loop
    goes on with [elm = parent]. *)
Definition rb_fix_left (e : tree) (c : color) (x : A) (tmp : tree) : option (bool * tree) :=
  match tmp with
  | E => None
  | T _ tl _ tr =>
    if is_black tl && is_black tr then Some (true, T c e x (set_color RB_RED tmp))
    else
      tmp ← (if is_black tr then
               match tmp with
               | E => None
               | T _ oleft y b => RB_ROTATE_RIGHT (T RB_RED (set_color RB_BLACK oleft) y b)
               end
             else Some tmp);
      match tmp with
      | E => None
      | T _ a y b =>
        t ← RB_ROTATE_LEFT (T RB_BLACK e x (T c a y (set_color RB_BLACK b)));
        Some (false, t)
      end
  end.

Definition rb_fix_right (e : tree) (c : color) (x : A) (tmp : tree) : option (bool * tree) :=
  match tmp with
  | E => None
  | T _ tl _ tr =>
    if is_black tl && is_black tr then Some (true, T c (set_color RB_RED tmp) x e)
    else
      tmp ← (if is_black tl then
               match tmp with
               | E => None
               | T _ a y oright => RB_ROTATE_LEFT (T RB_RED a y (set_color RB_BLACK oright))
               end
             else Some tmp);
      match tmp with
      | E => None
      | T _ a y b =>
        t ← RB_ROTATE_RIGHT (T RB_BLACK (T c (set_color RB_BLACK a) y b) x e);
        Some (false, t)
      end
  end.

(** [RB_REMOVE_COLOR(head, parent, elm)]. With a red sibling the rotated-up
    sibling becomes a frame between [parent] and the rest of the path, and
    [parent] is red: when the loop goes on with [elm = parent] its guard fails
    at once and [elm] is coloured black. A null sibling is a null dereference
    on either side of the test [RB_LEFT(parent) == elm]. *)
Fixpoint RB_REMOVE_COLOR (e : tree) (p : path) : option tree :=
  if is_black e then
    match p with
    | [] => Some (set_color RB_BLACK e)
    | FL c x (T RB_RED sl y sr) :: p' =>
      '(up, t) ← rb_fix_left e RB_RED x sl;
      if (up : bool) then Some (plug (set_color RB_BLACK t) (FL RB_BLACK y sr :: p'))
      else Some (set_color RB_BLACK (plug t (FL RB_BLACK y sr :: p')))
    | FL c x tmp :: p' =>
      '(up, t) ← rb_fix_left e c x tmp;
      if (up : bool) then RB_REMOVE_COLOR t p' else Some (set_color RB_BLACK (plug t p'))
    | FR c (T RB_RED sl y sr) x :: p' =>
      '(up, t) ← rb_fix_right e RB_RED x sr;
      if (up : bool) then Some (plug (set_color RB_BLACK t) (FR RB_BLACK sl y :: p'))
      else Some (set_color RB_BLACK (plug t (FR RB_BLACK sl y :: p')))
    | FR c tmp x :: p' =>
      '(up, t) ← rb_fix_right e c x tmp;
      if (up : bool) then RB_REMOVE_COLOR t p' else Some (set_color RB_BLACK (plug t p'))
    end
  else Some (plug (set_color RB_BLACK e) p).

(** The position of a node: the path to it, its colour and its children. *)
Fixpoint rb_locate (t : tree) (x : A) (p : path) : option (path * color * tree * tree) :=
  match t with
  | E => None
  | T c l y r =>
    if decide (x = y) then Some (p, c, l, r)
    else match rb_locate l x (FL c y r :: p) with
         | Some z => Some z
         | None => rb_locate r x (FR c l y :: p)
         end
  end.

(** [while ((left = RB_LEFT(elm)) != NULL) elm = left;] *)
Fixpoint rb_leftmost (c : color) (l : tree) (x : A) (r : tree) (p : path) :
    path * color * A * tree :=
  match l with
  | E => (p, c, x, r)
  | T cl ll y lr => rb_leftmost cl ll y lr (FL c x r :: p)
  end.

(** [color: if (color == RB_BLACK) RB_REMOVE_COLOR(head, parent, child)]. *)
Definition rb_unlink (c : color) (child : tree) (p : path) : option tree :=
  if decide (c = RB_BLACK) then RB_REMOVE_COLOR child p else Some (plug child p).

(** [RB_REMOVE(name, head, elm)]. With two children the successor takes the
    place and the colour of [elm]. *)
Definition RB_REMOVE (t : tree) (x : A) : option tree :=
  '(p, c, l, r) ← rb_locate t x [];
  match l, r with
  | E, _ => rb_unlink c r p
  | _, E => rb_unlink c l p
  | _, T cr rl y rr =>
    let '(q, cs, s, child) := rb_leftmost cr rl y rr [] in
    rb_unlink cs child (q ++ FR c l s :: p)
  end.

(** ** Navigation *)

(** The climbing loop of [RB_NEXT]. *)
Fixpoint rb_climb (p : path) : option A :=
  match p with
  | [] => None
  | FL _ x _ :: _ => Some x
  | FR _ _ _ :: p' => rb_climb p'
  end.

(** [RB_NEXT(name, head, elm)]: [None] for an invalid [elm], [Some None] for a
    null result. *)
Definition RB_NEXT (t : tree) (x : A) : option (option A) :=
  '(p, _, _, r) ← rb_locate t x [];
  match r with
  | T cr rl y rr => let '(_, _, s, _) := rb_leftmost cr rl y rr [] in Some (Some s)
  | E => Some (rb_climb p)
  end.

(** [RB_LEFT(elm)]. *)
Definition RB_LEFT (t : tree) (x : A) : option (option A) :=
  '(_, _, l, _) ← rb_locate t x [];
  Some (match l with E => None | T _ _ y _ => Some y end).

(** ** In-order contents *)

Fixpoint inorder (t : tree) : list A :=
  match t with E => [] | T _ l x r => inorder l ++ x :: inorder r end.

(** The elements before and after a position. *)
Fixpoint pre (p : path) : list A :=
  match p with
  | [] => []
  | FL _ _ _ :: p' => pre p'
  | FR _ l x :: p' => pre p' ++ inorder l ++ [x]
  end.

Fixpoint post (p : path) : list A :=
  match p with
  | [] => []
  | FL _ x r :: p' => x :: inorder r ++ post p'
  | FR _ _ _ :: p' => post p'
  end.

Lemma inorder_plug t p : inorder (plug t p) = pre p ++ inorder t ++ post p.
Proof.
  revert t. induction p as [|[] p IH]; intros t; simpl; [by rewrite app_nil_r| |];
    rewrite IH; simpl; by rewrite <- !app_assoc.
Qed.

Lemma inorder_set_color c t : inorder (set_color c t) = inorder t.
Proof. by destruct t. Qed.

Lemma inorder_nil t : inorder t = [] → t = E.
Proof. destruct t; [done|]. simpl. by destruct (inorder t1). Qed.

Lemma plug_app t q p : plug t (q ++ p) = plug (plug t q) p.
Proof. revert t. induction q; simpl; auto. Qed.

Lemma pre_app q p : pre (q ++ p) = pre p ++ pre q.
Proof.
  induction q as [|[] q IH]; simpl; [by rewrite app_nil_r|done|].
  by rewrite IH, <- !app_assoc.
Qed.

Lemma post_app q p : post (q ++ p) = post q ++ post p.
Proof. induction q as [|[] q IH]; simpl; [done| |done]. by rewrite IH, <- app_assoc. Qed.

Lemma rotate_left_inorder t t' : RB_ROTATE_LEFT t = Some t' → inorder t' = inorder t.
Proof. destruct t as [|c l x [|]]; intros [= <-]. simpl. by rewrite <- app_assoc. Qed.

Lemma rotate_right_inorder t t' : RB_ROTATE_RIGHT t = Some t' → inorder t' = inorder t.
Proof. destruct t as [|c [|] x r]; intros [= <-]. simpl. by rewrite <- app_assoc. Qed.

(** ** The red-black invariant

    [rb c n t]: [t] is a red-black tree with root colour [c] (a null tree is
    black) in which every path from the root to a null child has [n] black
    nodes. *)
Inductive rb : color → nat → tree → Prop :=
| rb_E : rb RB_BLACK 0 E
| rb_red n l x r : rb RB_BLACK n l → rb RB_BLACK n r → rb RB_RED n (T RB_RED l x r)
| rb_black n c1 c2 l x r :
  rb c1 n l → rb c2 n r → rb RB_BLACK (S n) (T RB_BLACK l x r).

(** [rbp red n p]: the path leads to a position where a tree of black height
    [n] fits; a red one only if [red]. *)
Inductive rbp : bool → nat → path → Prop :=
| rbp_nil n : rbp false n []
| rbp_red_l n x r p : rb RB_BLACK n r → rbp true n p → rbp false n (FL RB_RED x r :: p)
| rbp_red_r n x l p : rb RB_BLACK n l → rbp true n p → rbp false n (FR RB_RED l x :: p)
| rbp_black_l n c x r p b : rb c n r → rbp b (S n) p → rbp true n (FL RB_BLACK x r :: p)
| rbp_black_r n c x l p b : rb c n l → rbp b (S n) p → rbp true n (FR RB_BLACK l x :: p).

Definition rb_root (t : tree) : Prop := ∃ n, rb RB_BLACK n t.

Local Hint Constructors rb rbp : core.

Lemma rb_set_black c n t :
  rb c n t → ∃ m, rb RB_BLACK m (set_color RB_BLACK t).
Proof. destruct 1; simpl; eauto. Qed.

Lemma rb_red_set_black n t : rb RB_RED n t → rb RB_BLACK (S n) (set_color RB_BLACK t).
Proof. inversion 1; subst; simpl; eauto. Qed.

Lemma rb_plug c n t b p :
  rb c n t → rbp b n p → (c = RB_RED → b = true) → rb_root (plug t p).
Proof.
  intros Ht Hp. revert c t Ht.
  induction Hp; intros c' t Ht Hc; simpl; destruct c';
    try (by specialize (Hc eq_refl)); try (eapply IHHp; [by eauto|done]).
  by eexists.
Qed.

Lemma set_black_root t : rb_root t → set_color RB_BLACK t = t.
Proof. intros [n H]. by inversion H. Qed.

Ltac inv_rb :=
  repeat match goal with
  | H : rb _ _ (T _ _ _ _) |- _ => inversion H; clear H; subst
  | H : rb _ (S _) _ |- _ => inversion H; clear H; subst
  | H : rb RB_RED _ _ |- _ => inversion H; clear H; subst
  | H : rbp _ _ (_ :: _) |- _ => inversion H; clear H; subst
  | H : rbp true _ _ |- _ => inversion H; clear H; subst
  end; simplify_eq/=.

(** Normalises the concatenations of in-order lists. *)
Ltac flat := simpl; rewrite ?inorder_set_color; repeat (rewrite <- app_assoc; simpl).

Lemma rb_not_red c n t : rb c n t → is_red t = false → rb RB_BLACK n t.
Proof. destruct 1; [eauto|done|eauto]. Qed.

Lemma inorder_plug_eq t t' p : inorder t = inorder t' → inorder (plug t p) = inorder (plug t' p).
Proof. intros H. by rewrite !inorder_plug, H. Qed.

Lemma is_red_black c n t :
  rb c n t → is_red t = true → rb RB_BLACK (S n) (set_color RB_BLACK t).
Proof. intros H. destruct H; [done| |done]. simpl. eauto. Qed.

Lemma rb_plug_done n t t0 b p :
  rb RB_BLACK n t → rbp b n p → inorder t = inorder t0 →
  ∃ t', Some (set_color RB_BLACK (plug t p)) = Some t' ∧ rb_root t' ∧
    inorder t' = inorder (plug t0 p).
Proof.
  intros Ht Hp Hi. exists (plug t p).
  assert (rb_root (plug t p)) as Hr by by eapply rb_plug.
  rewrite set_black_root by done. eauto using inorder_plug_eq.
Qed.

Lemma insert_color_ok k n e p b :
  (length p < k)%nat → rb RB_RED n e → rbp b n p →
  ∃ t', RB_INSERT_COLOR e p = Some t' ∧ rb_root t' ∧ inorder t' = inorder (plug e p).
Proof.
  revert n e p b. induction k as [|k IH]; intros n e p b Hlen He Hp; [lia|].
  destruct p as [|f p1].
  { eexists. split; [done|]. split; [|apply inorder_set_color].
    eexists. by apply rb_red_set_black. }
  destruct (decide (frame_color f = RB_RED)) as [Hf|Hf].
  2:{ exists (plug e (f :: p1)).
      assert (rb_root (plug e (f :: p1))) as Hr.
      { inversion Hp; subst; try done; by eapply rb_plug. }
      split; [|done]. cbn [RB_INSERT_COLOR]. rewrite decide_False by done.
      by rewrite set_black_root. }
  cbn [RB_INSERT_COLOR]. rewrite decide_True by done.
  assert (∃ b', rbp b' n p1) as [b' Hp1].
  { inversion Hp; subst; simplify_eq/=; eauto. }
  destruct f; simplify_eq/=; inv_rb; simpl.
  all: match goal with |- ∃ _, (if is_red ?u then _ else _) = _ ∧ _ =>
    destruct (is_red u) eqn:Hu end.
  all: try (eapply rb_plug_done; [by eauto using rb_not_red|by eauto|];
            by flat).
  all: match goal with |- ∃ _, RB_INSERT_COLOR ?e ?p = _ ∧ _ =>
    destruct (IH (S n) e p b0) as (t' & ? & ? & Hi); [lia|by eauto using is_red_black|done|];
    exists t'; rewrite Hi; split_and!; [done..|]; apply inorder_plug_eq; by flat end.
Qed.

(** ** Removal keeps the invariant *)

(** The black height of a node of colour [c] whose children have height [n]. *)
Definition bh (c : color) (n : nat) : nat :=
  match c with RB_RED => n | RB_BLACK => S n end.

Lemma is_black_spec c n t : rb c n t → is_black t = true → rb RB_BLACK n t.
Proof. intros H Hb. eapply rb_not_red; [done|]. by destruct (is_red t) eqn:E; unfold is_black in *; rewrite E in *. Qed.

Lemma is_black_false c n t :
  rb c n t → is_black t = false → ∃ l x r, t = T RB_RED l x r ∧ rb RB_BLACK n l ∧ rb RB_BLACK n r.
Proof. destruct 1; simpl; try done. eauto 10. Qed.

(** The subtree left by one turn: when the loop goes on it has lost a black
    node, and a red root waits to be coloured black. *)
Definition fixed (up : bool) (c : color) (n : nat) (t : tree) : Prop :=
  if up then is_red t = bool_decide (c = RB_RED) ∧ rb RB_BLACK (S n) (set_color RB_BLACK t)
  else rb c (bh c (S n)) t.

Lemma fix_left_ok n e c x tmp :
  rb RB_BLACK n e → rb RB_BLACK (S n) tmp →
  ∃ up t, rb_fix_left e c x tmp = Some (up, t) ∧ inorder t = inorder (T c e x tmp) ∧
    fixed up c n t.
Proof.
  intros He Ht. inversion Ht as [| |? c1 c2 tl y tr Hl Hr]; subst. cbn [rb_fix_left].
  destruct (is_black tl) eqn:El, (is_black tr) eqn:Er; cbn [andb].
  - eexists true, _. split; [done|]. split; [done|].
    destruct c; unfold fixed; simpl; eauto 6 using is_black_spec.
  - eapply is_black_false in Er as (? & ? & ? & -> & ? & ?); [|done].
    eexists false, _. split; [done|]. split; [by flat|].
    destruct c; unfold fixed; simpl; eauto 6 using is_black_spec.
  - eapply is_black_false in El as (? & ? & ? & -> & ? & ?); [|done].
    eexists false, _. split; [done|]. split; [by flat|].
    destruct c; unfold fixed; simpl; eauto 6 using is_black_spec.
  - eapply is_black_false in Er as (? & ? & ? & -> & ? & ?); [|done].
    eexists false, _. split; [done|]. split; [by flat|].
    destruct c; unfold fixed; simpl; eauto.
Qed.

Lemma fix_right_ok n e c x tmp :
  rb RB_BLACK n e → rb RB_BLACK (S n) tmp →
  ∃ up t, rb_fix_right e c x tmp = Some (up, t) ∧ inorder t = inorder (T c tmp x e) ∧
    fixed up c n t.
Proof.
  intros He Ht. inversion Ht as [| |? c1 c2 tl y tr Hl Hr]; subst. cbn [rb_fix_right].
  destruct (is_black tl) eqn:El, (is_black tr) eqn:Er; cbn [andb].
  - eexists true, _. split; [done|]. split; [done|].
    destruct c; unfold fixed; simpl; eauto 6 using is_black_spec.
  - eapply is_black_false in Er as (? & ? & ? & -> & ? & ?); [|done].
    eexists false, _. split; [done|]. split; [by flat|].
    destruct c; unfold fixed; simpl; eauto 6 using is_black_spec.
  - eapply is_black_false in El as (? & ? & ? & -> & ? & ?); [|done].
    eexists false, _. split; [done|]. split; [by flat|].
    destruct c; unfold fixed; simpl; eauto 6 using is_black_spec.
  - eapply is_black_false in El as (? & ? & ? & -> & ? & ?); [|done].
    eexists false, _. split; [done|]. split; [by flat|].
    destruct c; unfold fixed; simpl; eauto.
Qed.

(** What a frame guarantees about the rest of the path. *)
Lemma rbp_cons b n f p :
  rbp b n (f :: p) →
  ∃ b' cs, rbp b' (bh (frame_color f) n) p ∧ (frame_color f = RB_RED → b' = true ∧ cs = RB_BLACK) ∧
    rb cs n (match f with FL _ _ s | FR _ s _ => s end).
Proof.
  inversion 1; subst; simpl; (eexists _, _; split; [done|]; split; [|done]; [done]).
Qed.

(** What [RB_REMOVE_COLOR] is given: a black tree that is one black node
    short, or a red root whose blackening makes up for the lost node. *)
Definition short (n : nat) (e : tree) : Prop :=
  if is_red e then rb RB_BLACK (S n) (set_color RB_BLACK e) else rb RB_BLACK n e.

Lemma fixed_short c n t : fixed true c n t → short (bh c n) t.
Proof.
  intros [Hr Ht]. unfold short. rewrite Hr. destruct c; simpl; [|done].
  destruct t as [|[] ? ? ?]; [by inversion Ht|done|done].
Qed.

(** The end of a turn, after the red-sibling case and otherwise. *)
Lemma fix_red_done up n t q :
  fixed up RB_RED n t → rbp true (S n) q →
  ∃ t', (if up then Some (plug (set_color RB_BLACK t) q)
         else Some (set_color RB_BLACK (plug t q))) = Some t' ∧
    rb_root t' ∧ inorder t' = inorder (plug t q).
Proof.
  intros Hf Hq. destruct up.
  - destruct Hf as [_ Ht]. eexists. split; [done|]. split; [by eapply rb_plug|].
    apply inorder_plug_eq, inorder_set_color.
  - assert (rb_root (plug t q)) as Hr by by eapply rb_plug.
    exists (plug t q). by rewrite set_black_root.
Qed.

Lemma fix_done up c n t b p :
  fixed up c n t → rbp b (bh c (S n)) p → (c = RB_RED → b = true) →
  (∀ e n b, short n e → rbp b (S n) p →
     ∃ t', RB_REMOVE_COLOR e p = Some t' ∧ rb_root t' ∧ inorder t' = inorder (plug e p)) →
  ∃ t', (if up then RB_REMOVE_COLOR t p else Some (set_color RB_BLACK (plug t p))) = Some t' ∧
    rb_root t' ∧ inorder t' = inorder (plug t p).
Proof.
  intros Hf Hp Hc IH. destruct up.
  - apply fixed_short in Hf. eapply IH; [done|]. by destruct c.
  - assert (rb_root (plug t p)) as Hr by by eapply rb_plug.
    exists (plug t p). by rewrite set_black_root.
Qed.

Lemma remove_color_ok e p n b :
  short n e → rbp b (S n) p →
  ∃ t', RB_REMOVE_COLOR e p = Some t' ∧ rb_root t' ∧ inorder t' = inorder (plug e p).
Proof.
  revert e n b. induction p as [|f p IH]; intros e n b He Hp;
    cbn [RB_REMOVE_COLOR]; unfold is_black; unfold short in He; destruct (is_red e) eqn:Er; cbn [negb].
  1, 3: eexists; split; [done|]; split; [by eapply rb_plug|];
     apply inorder_plug_eq, inorder_set_color.
  { eexists; split; [done|]; split; [by eapply rb_set_black|apply inorder_set_color]. }
  apply rbp_cons in Hp as (b' & cs & Hp & Hc & Hs).
  destruct f as [cf x s|cf s x]; simpl in Hp, Hc, Hs.
  - inversion Hs as [|? sl y sr Hl Hr|? c1 c2 sl y sr Hl Hr]; subst.
    + destruct cf; [|by destruct Hc].
      destruct (fix_left_ok n e RB_RED x sl) as (up & t & -> & Hi & Hf); [done..|].
      destruct (fix_red_done up n t (FL RB_BLACK y sr :: p)) as (t' & Ht' & ? & Hi');
        [done|by eauto|].
      exists t'. split; [by destruct up|]. split; [done|]. rewrite Hi'.
      apply (inorder_plug_eq (fill _ _) (fill _ _)). simpl. rewrite Hi. by flat.
    + destruct (fix_left_ok n e cf x (T RB_BLACK sl y sr)) as (up & t & -> & Hi & Hf); [done..|].
      destruct (fix_done up cf n t b' p) as (t' & Ht' & ? & Hi'); [done|done|naive_solver|done|].
      exists t'. split; [by destruct up|]. split; [done|]. rewrite Hi'.
      by apply (inorder_plug_eq t (fill _ _)).
  - inversion Hs as [|? sl y sr Hl Hr|? c1 c2 sl y sr Hl Hr]; subst.
    + destruct cf; [|by destruct Hc].
      destruct (fix_right_ok n e RB_RED x sr) as (up & t & -> & Hi & Hf); [done..|].
      destruct (fix_red_done up n t (FR RB_BLACK sl y :: p)) as (t' & Ht' & ? & Hi');
        [done|by eauto|].
      exists t'. split; [by destruct up|]. split; [done|]. rewrite Hi'.
      apply (inorder_plug_eq (fill _ _) (fill _ _)). simpl. rewrite Hi. by flat.
    + destruct (fix_right_ok n e cf x (T RB_BLACK sl y sr)) as (up & t & -> & Hi & Hf); [done..|].
      destruct (fix_done up cf n t b' p) as (t' & Ht' & ? & Hi'); [done|done|naive_solver|done|].
      exists t'. split; [by destruct up|]. split; [done|]. rewrite Hi'.
      by apply (inorder_plug_eq t (fill _ _)).
Qed.

(** ** Positions *)

Lemma locate_some t x p z :
  rb_locate t x p = Some z →
  let '(q, c, l, r) := z in
  ∃ p', q = p' ++ p ∧ plug (T c l x r) p' = t.
Proof.
  revert p z. induction t as [|c l IHl y r IHr]; intros p z Hz; [done|]. simpl in Hz.
  destruct (decide (x = y)) as [->|Hne]; simplify_eq.
  { by exists []. }
  destruct (rb_locate l x _) as [z'|] eqn:El; simplify_eq.
  - apply IHl in El. destruct z as [[[q cq] lq] rq].
    destruct El as (p' & -> & Hp'). exists (p' ++ [FL c y r]).
    rewrite plug_app, Hp', <- app_assoc. done.
  - apply IHr in Hz. destruct z as [[[q cq] lq] rq].
    destruct Hz as (p' & -> & Hp'). exists (p' ++ [FR c l y]).
    rewrite plug_app, Hp', <- app_assoc. done.
Qed.

Lemma locate_elem t x p : x ∈ inorder t → is_Some (rb_locate t x p).
Proof.
  revert p. induction t as [|c l IHl y r IHr]; intros p Hx; simpl in *.
  { by apply not_elem_of_nil in Hx. }
  destruct (decide (x = y)); [done|].
  destruct (rb_locate l x _) as [z|] eqn:El; [done|].
  apply IHr. rewrite elem_of_app, elem_of_cons in Hx. destruct Hx as [Hx|[|]]; [|done..].
  destruct (IHl (FL c y r :: p) Hx). congruence.
Qed.

Lemma locate_ok t x :
  x ∈ inorder t →
  ∃ p c l r, rb_locate t x [] = Some (p, c, l, r) ∧ plug (T c l x r) p = t.
Proof.
  intros Hx. destruct (locate_elem t x [] Hx) as [[[[q c] l] r] Hz].
  pose proof (locate_some _ _ _ _ Hz) as (p' & -> & Hp'). rewrite app_nil_r in *.
  by eexists _, _, _, _.
Qed.

(** The position of a node of a red-black tree. *)
Lemma rb_plug_inv t p :
  rb_root (plug t p) → ∃ c n b, rb c n t ∧ rbp b n p ∧ (c = RB_RED → b = true).
Proof.
  revert t. induction p as [|f p IH]; intros t Hr; simpl in *.
  { destruct Hr as [n Hn]. by exists RB_BLACK, n, false. }
  destruct (IH _ Hr) as (c & n & b & Ht & Hp & Hc).
  destruct f; simpl in Ht; inversion Ht; subst.
  - eexists RB_BLACK, n, false. rewrite Hc in Hp by done. split_and!; [done|by eauto|done].
  - eexists _, _, true. split_and!; [done|by eauto|done].
  - eexists RB_BLACK, n, false. rewrite Hc in Hp by done. split_and!; [done|by eauto|done].
  - eexists _, _, true. split_and!; [done|by eauto|done].
Qed.

Lemma leftmost_ok c l x r p :
  let '(q, c', s, child) := rb_leftmost c l x r p in
  plug (T c' E s child) q = plug (T c l x r) p ∧ pre q = pre p ∧ 
  ∃ q', q = q' ++ p.
Proof.
  revert c x r p. induction l as [|cl ll IH y lr _]; intros c x r p; simpl.
  { split; [done|]. split; [done|]. by exists []. }
  specialize (IH cl y lr (FL c x r :: p)). 
  destruct (rb_leftmost cl ll y lr _) as [[[q c'] s] child].
  destruct IH as (? & ? & q' & ->). split; [done|]. split; [done|].
  exists (q' ++ [FL c x r]). by rewrite <- app_assoc.
Qed.

Lemma rb_node_inv c n c' l x r :
  rb c n (T c' l x r) →
  c' = c ∧ ∃ m cl cr, n = bh c m ∧ rb cl m l ∧ rb cr m r ∧
    (c = RB_RED → cl = RB_BLACK ∧ cr = RB_BLACK).
Proof.
  inversion 1; subst; (split; [done|]); (eexists _, _, _; split; [done|];
    split; [done|]; split; [done|]; [done]).
Qed.

Lemma unlink_ok c n cc child b p :
  rb cc n child → rbp b (bh c n) p → (c = RB_RED → cc = RB_BLACK) →
  ∃ t', rb_unlink c child p = Some t' ∧ rb_root t' ∧ inorder t' = inorder (plug child p).
Proof.
  intros Hch Hp Hc. unfold rb_unlink. destruct c; simpl in *.
  - eapply remove_color_ok; [|done]. unfold short.
    destruct (is_red child) eqn:Er; eauto using is_red_black, rb_not_red.
  - rewrite (Hc eq_refl) in Hch. eexists. split; [done|]. split; [by eapply rb_plug|done].
Qed.

(** Replacing the element of a frame keeps the invariant of the path. *)
Lemma rbp_replace b n q c l x y p :
  rbp b n (q ++ FR c l x :: p) → rbp b n (q ++ FR c l y :: p).
Proof.
  revert b n. induction q as [|f q IH]; intros b n H; simpl in *; inversion H; subst; eauto.
Qed.

Lemma remove_ok t x :
  rb_root t → x ∈ inorder t →
  ∃ t' a b, RB_REMOVE t x = Some t' ∧ rb_root t' ∧
    inorder t = a ++ x :: b ∧ inorder t' = a ++ b.
Proof.
  intros Hr Hx. destruct (locate_ok t x Hx) as (p & c & l & r & Hz & Hpl).
  unfold RB_REMOVE. rewrite Hz. cbn [mbind option_bind].
  rewrite <- Hpl in Hr |- *. destruct (rb_plug_inv _ _ Hr) as (c' & n & b & Hn & Hp & Hb).
  apply rb_node_inv in Hn as (-> & m & cl & cr & -> & Hl & Hrr & Hc).
  setoid_rewrite inorder_plug.
  assert (∀ cc child, rb cc m child → (c' = RB_RED → cc = RB_BLACK) →
    inorder child = inorder l ++ inorder r →
    ∃ t' a b, rb_unlink c' child p = Some t' ∧ rb_root t' ∧
      pre p ++ inorder (T c' l x r) ++ post p = a ++ x :: b ∧ inorder t' = a ++ b) as Hone.
  { intros cc child Hch Hcc Hi.
    destruct (unlink_ok c' m cc child b p) as (t' & ? & ? & Hi'); [done..|].
    exists t', (pre p ++ inorder l), (inorder r ++ post p). rewrite Hi', inorder_plug, Hi.
    split_and!; [done|done| |]; by flat. }
  destruct l as [|cl' ll lx lr]; [by apply (Hone cr); naive_solver|].
  destruct r as [|cr' rl y rr].
  { apply (Hone cl); [done|naive_solver|]. by rewrite app_nil_r. }
  clear Hone. pose proof (leftmost_ok cr' rl y rr []) as Hlm.
  destruct (rb_leftmost cr' rl y rr []) as [[[q cs] s] child].
  destruct Hlm as (Hq & Hpre & _). simpl in Hpre.
  set (l := T cl' ll lx lr) in *. set (r := T cr' rl y rr) in *.
  assert (rb_root (plug (T cs E s child) (q ++ FR c' l x :: p))) as Hr'.
  { rewrite plug_app, Hq. done. }
  destruct (rb_plug_inv _ _ Hr') as (c'' & n' & b' & Hn & Hp' & _).
  apply rb_node_inv in Hn as (-> & m' & c1 & c2 & -> & _ & Hch & Hc').
  destruct (unlink_ok c'' m' c2 child b' (q ++ FR c' l s :: p)) as (t' & ? & ? & Hi');
    [done|by eapply rbp_replace|naive_solver|].
  assert (inorder r = s :: inorder child ++ post q) as Hir.
  { change (inorder r) with (inorder (plug r [])). rewrite <- Hq, inorder_plug, Hpre. by flat. }
  exists t', (pre p ++ inorder l), (inorder r ++ post p).
  rewrite Hi', inorder_plug, pre_app, post_app, Hpre. change (inorder (T c' l x r)) with (inorder l ++ x :: inorder r).
  rewrite Hir. split_and!; [done|done| |]; cbn [pre post]; by rewrite <- ?app_assoc; simpl; rewrite <- ?app_assoc.
Qed.

(** ** Navigation *)

Lemma climb_post p : rb_climb p = head (post p).
Proof. induction p as [|[] p IH]; done. Qed.

Lemma next_ok t x :
  x ∈ inorder t →
  ∃ a b, inorder t = a ++ x :: b ∧ RB_NEXT t x = Some (head b).
Proof.
  intros Hx. destruct (locate_ok t x Hx) as (p & c & l & r & Hz & Hpl).
  exists (pre p ++ inorder l), (inorder r ++ post p).
  split; [rewrite <- Hpl, inorder_plug; by flat|].
  unfold RB_NEXT. rewrite Hz. cbn [mbind option_bind].
  destruct r as [|cr rl y rr]; [simpl; by rewrite climb_post|].
  pose proof (leftmost_ok cr rl y rr []) as Hlm.
  destruct (rb_leftmost cr rl y rr []) as [[[q cs] s] child].
  destruct Hlm as (Hq & Hpre & _).
  change (T cr rl y rr) with (plug (T cr rl y rr) []).
  rewrite <- Hq, inorder_plug, Hpre. done.
Qed.

(** The leftmost element has no left child. *)
Lemma left_of_head t x l :
  NoDup (inorder t) → inorder t = x :: l → RB_LEFT t x = Some None.
Proof.
  intros Hnd Hi. assert (x ∈ inorder t) as Hx by (rewrite Hi; apply elem_of_cons; by left).
  destruct (locate_ok t x Hx) as (p & c & lt & r & Hz & Hpl).
  unfold RB_LEFT. rewrite Hz. cbn [mbind option_bind].
  rewrite <- Hpl, inorder_plug in Hnd, Hi. simpl in Hnd, Hi.
  rewrite <- app_assoc in Hnd, Hi. simpl in Hnd, Hi.
  destruct (pre p ++ inorder lt) as [|y k] eqn:Hk.
  { apply app_eq_nil in Hk as [_ Hk]. by apply inorder_nil in Hk as ->. }
  rewrite app_assoc, Hk in Hnd, Hi. simplify_eq/=. exfalso. apply NoDup_cons in Hnd as [Hn _].
  apply Hn. rewrite elem_of_app, elem_of_cons. auto.
Qed.

(** The elements of the left spine, from the bottom. *)
Fixpoint lspine (t : tree) : list A :=
  match t with E => [] | T _ l x _ => lspine l ++ [x] end.

Fixpoint fspine (p : path) : list A :=
  match p with
  | FL _ x _ :: p' => x :: fspine p'
  | _ => []
  end.

Lemma lspine_set_color c t : lspine (set_color c t) = lspine t.
Proof. by destruct t. Qed.

Lemma lspine_plug t p : pre p = [] → lspine (plug t p) = lspine t ++ fspine p.
Proof.
  revert t. induction p as [|[c x r|c l x] p IH]; intros t Hp; simpl in *.
  - by rewrite app_nil_r.
  - rewrite IH by done. simpl. by rewrite <- app_assoc.
  - destruct (pre p), (inorder l); done.
Qed.

Lemma lspine_elem t x : x ∈ lspine t → x ∈ inorder t.
Proof.
  induction t as [|c l IH y r _]; simpl; [done|].
  set_solver.
Qed.

(** If [y] and [m] are the lowest elements of the left spine, [y] is the left
    child of [m]. *)
Lemma left_of_second t y m s :
  NoDup (inorder t) → lspine t = y :: m :: s → RB_LEFT t m = Some (Some y).
Proof.
  unfold RB_LEFT. generalize (@nil frame) as p. revert s.
  induction t as [|c l IH z r _]; intros s p Hnd Hs; [done|]. simpl in *.
  apply NoDup_app in Hnd as (Hndl & Hdisj & _).
  destruct (decide (m = z)) as [->|Hne].
  - destruct (lspine l) as [|y' [|m' s']] eqn:Hl; simplify_eq/=.
    + destruct l as [|cl ll lx lr]; simplify_eq/=.
      destruct (lspine ll); [by simplify_eq/=|]. by destruct l.
    + exfalso. destruct (Hdisj z); [|apply elem_of_cons; by left].
      apply lspine_elem. rewrite Hl. set_solver.
  - destruct (lspine l) as [|y' [|m' s']] eqn:Hl; simplify_eq/=.
    specialize (IH s' (FL c z r :: p) Hndl eq_refl).
    destruct (rb_locate l m _) as [[[[? ?] ?] ?]|]; done.
Qed.

(** ** Insertion *)

Lemma insert_color_spine k e p t' :
  (length p < k)%nat → e ≠ E → pre p = [] → RB_INSERT_COLOR e p = Some t' →
  take 2 (lspine t') = take 2 (lspine e ++ fspine p).
Proof.
  revert e p t'. induction k as [|k IH]; intros e p t' Hlen He Hpre Ht; [lia|].
  destruct p as [|f p1]; cbn [RB_INSERT_COLOR] in Ht.
  { simplify_eq. by rewrite lspine_set_color, app_nil_r. }
  destruct (decide (frame_color f = RB_RED)); cycle 1.
  { simplify_eq. by rewrite lspine_set_color, lspine_plug. }
  destruct f as [cf xf rf|cf lf xf]; [|by simpl in Hpre; destruct (pre p1), (inorder lf)].
  destruct p1 as [|[cg xg u|cg u xg] p2]; [done| |by simpl in Hpre; destruct (pre p2), (inorder u)].
  destruct (is_red u).
  - apply IH in Ht; [|simpl in *; lia|done|done]. rewrite Ht. cbn. by rewrite <- !app_assoc.
  - cbn in Ht. simplify_eq. rewrite lspine_set_color, lspine_plug by done. cbn.
    destruct e as [|ce le xe re]; [done|]. cbn. rewrite <- !app_assoc.
    by destruct (lspine le) as [|? [|]].
Qed.

Section insert.
Context (cmp : A → A → option Z) (R : relation A) (x : A).

Definition goes_right (y : A) : Prop := ∃ c, cmp x y = Some c ∧ 0 < c.
Definition goes_left (y : A) : Prop := ∃ c, cmp x y = Some c ∧ c < 0.

Lemma descend_ok t p :
  StronglySorted R (inorder t) →
  (∀ y, y ∈ inorder t → goes_left y ∨ goes_right y) →
  (∀ y z, y ∈ inorder t → z ∈ inorder t → R y z →
     (goes_left y → goes_left z) ∧ (goes_right z → goes_right y)) →
  ∃ p' a b, rb_descend cmp x t p = Some (inr p') ∧ plug E p' = plug t p ∧
    inorder t = a ++ b ∧ pre p' = pre p ++ a ∧ post p' = b ++ post p ∧
    (∀ y, y ∈ a → goes_right y) ∧ (∀ y, y ∈ b → goes_left y).
Proof.
  revert p. induction t as [|c l IHl y r IHr]; intros p Hs Hdec Hmono; simpl.
  { exists p, [], []. split_and!; try done; [by rewrite app_nil_r|..]; by intros ? ?%not_elem_of_nil. }
  simpl in Hs. apply StronglySorted_app in Hs as (Hlr & Hsl & Hs').
  apply StronglySorted_cons in Hs' as [Hyr Hsr]. rewrite Forall_forall in Hyr.
  setoid_rewrite elem_of_app in Hdec. setoid_rewrite elem_of_cons in Hdec.
  setoid_rewrite elem_of_app in Hmono. setoid_rewrite elem_of_cons in Hmono.
  destruct (Hdec y) as [(c0 & Hc & Hlt)|(c0 & Hc & Hlt)]; [tauto| |];
    rewrite Hc; cbn [mbind option_bind].
  - rewrite (proj2 (Z.ltb_lt _ _)) by done.
    destruct (IHl (FL c y r :: p)) as (p' & a & b & -> & Hpl & Hi & Hpre & Hpost & Ha & Hb);
      [done|by intros; apply Hdec; left|by intros; apply Hmono; auto|].
    exists p', a, (b ++ y :: inorder r). rewrite Hi. split_and!; try done; [by flat|by rewrite Hpost; flat|].
    assert (goes_left y) as Hy by by exists c0.
    intros z. rewrite elem_of_app, elem_of_cons. intros [?|[->|Hz]]; [auto|done|].
    by apply (proj1 (Hmono y z ltac:(auto) ltac:(auto) (Hyr _ Hz))).
  - rewrite (proj2 (Z.ltb_ge _ _)), (proj2 (Z.ltb_lt _ _)) by lia.
    destruct (IHr (FR c l y :: p)) as (p' & a & b & -> & Hpl & Hi & Hpre & Hpost & Ha & Hb);
      [done|by intros; apply Hdec; auto|by intros; apply Hmono; auto|].
    exists p', (inorder l ++ y :: a), b. rewrite Hi. split_and!; try done; [by flat|by rewrite Hpre; flat|].
    assert (goes_right y) as Hy by by exists c0.
    intros z. rewrite elem_of_app, elem_of_cons. intros [Hz|[->|?]]; [|done|auto].
    apply (proj2 (Hmono z y ltac:(auto) ltac:(auto) (Hlr _ _ Hz (list_elem_of_here _ _)))). done.
Qed.

(** [RB_INSERT] of an element that compares different from all the others. *)
Lemma insert_ok t :
  rb_root t → StronglySorted R (inorder t) →
  (∀ y, y ∈ inorder t → goes_left y ∨ goes_right y) →
  (∀ y z, y ∈ inorder t → z ∈ inorder t → R y z →
     (goes_left y → goes_left z) ∧ (goes_right z → goes_right y)) →
  ∃ t' a b, RB_INSERT cmp t x = Some (None, t') ∧ rb_root t' ∧
    inorder t = a ++ b ∧ inorder t' = a ++ x :: b ∧
    (∀ y, y ∈ a → goes_right y) ∧ (∀ y, y ∈ b → goes_left y) ∧
    (∀ m s, a = [] → b = m :: s → NoDup (inorder t') → RB_LEFT t' m = Some (Some x)).
Proof.
  intros Hr Hs Hdec Hmono.
  destruct (descend_ok t [] Hs Hdec Hmono)
    as (p & a & b & Hd & Hpl & Hi & Hpre & Hpost & Ha & Hb).
  simpl in Hpl, Hpre, Hpost. rewrite app_nil_r in Hpost.
  unfold RB_INSERT. rewrite Hd. cbn [mbind option_bind].
  rewrite <- Hpl in Hr. destruct (rb_plug_inv _ _ Hr) as (c & n & b' & Hn & Hp & _).
  inversion Hn; subst c n.
  destruct (insert_color_ok (S (length p)) 0 (T RB_RED E x E) p b') as (t' & Ht' & ? & Hi');
    [lia|by eauto|done|].
  exists t', a, b. rewrite Ht'. rewrite inorder_plug, Hpre, Hpost in Hi'.
  split_and!; try done. intros m s -> -> Hnd.
  pose proof (insert_color_spine (S (length p)) (T RB_RED E x E) p t') as Hsp.
  specialize (Hsp ltac:(lia) ltac:(done) Hpre Ht'). simpl in Hsp.
  assert (fspine p = m :: tail (fspine p)) as Hf.
  { clear -Hpre Hpost. destruct p as [|[? ? ?|? l ?] p]; simplify_eq/=; [done|].
    by destruct (pre p), (inorder l). }
  rewrite Hf in Hsp. destruct (lspine t') as [|y [|m' s']] eqn:El; simplify_eq/=.
  by eapply left_of_second.
Qed.
End insert.

(** ** Balance *)

Fixpoint height (t : tree) : nat :=
  match t with E => 0 | T _ l _ r => S (height l `max` height r) end.

Lemma rb_height_le c n t :
  rb c n t → (height t <= 2 * n + match c with RB_RED => 1 | RB_BLACK => 0 end)%nat.
Proof. induction 1 as [| |n c1 c2]; simpl in *; [lia|lia|]. destruct c1, c2; lia. Qed.

Lemma rb_size_ge c n t : rb c n t → (2 ^ n <= S (length (inorder t)))%nat.
Proof. induction 1; simpl; rewrite ?length_app; simpl; lia. Qed.

Lemma rb_root_height t :
  rb_root t → (height t <= 2 * Nat.log2 (S (length (inorder t))))%nat.
Proof.
  intros [n Hn]. apply rb_height_le in Hn as Hh. apply rb_size_ge in Hn.
  assert (n <= Nat.log2 (S (length (inorder t))))%nat; [|lia].
  apply Nat.log2_le_pow2; lia.
Qed.

(** The descent ends, whatever the comparison does. *)
Lemma descend_total cmp x t p :
  (∀ y, y ∈ inorder t → is_Some (cmp x y)) →
  ∃ d, rb_descend cmp x t p = Some d ∧
    match d with inl y => y ∈ inorder t ∧ cmp x y = Some 0 | inr p' => plug E p' = plug t p end.
Proof.
  revert p. induction t as [|c l IHl y r IHr]; intros p Hc; simpl in *; [by eexists|].
  setoid_rewrite elem_of_app in Hc. setoid_rewrite elem_of_cons in Hc.
  destruct (Hc y) as [z Hz]; [tauto|]. rewrite Hz. cbn [mbind option_bind].
  destruct (Z.ltb_spec z 0); [|destruct (Z.ltb_spec 0 z)].
  - destruct (IHl (FL c y r :: p)) as (d & -> & Hd); [auto|]. exists d. split; [done|].
    destruct d; [|done]. rewrite elem_of_app. naive_solver.
  - destruct (IHr (FR c l y :: p)) as (d & -> & Hd); [auto|]. exists d. split; [done|].
    destruct d; [|done]. rewrite elem_of_app, elem_of_cons. naive_solver.
  - eexists. split; [done|]. assert (z = 0) as -> by lia.
    rewrite elem_of_app, elem_of_cons. auto.
Qed.

Lemma insert_type cmp x t :
  rb_root t → (∀ y, y ∈ inorder t → is_Some (cmp x y)) →
  ∃ o t', RB_INSERT cmp t x = Some (o, t') ∧ rb_root t' ∧
    match o with
    | None => inorder t' ≡ₚ x :: inorder t
    | Some y => t' = t ∧ y ∈ inorder t ∧ cmp x y = Some 0
    end.
Proof.
  intros Hr Hc. destruct (descend_total cmp x t [] Hc) as (d & Hd & Hcase).
  unfold RB_INSERT. rewrite Hd. cbn [mbind option_bind].
  destruct d as [y|p]; [by eexists (Some y), _|]. simpl in Hcase. subst t.
  destruct (rb_plug_inv _ _ Hr) as (c & n & b' & Hn & Hp & _). inversion Hn; subst c n.
  destruct (insert_color_ok (S (length p)) 0 (T RB_RED E x E) p b') as (t' & -> & ? & Hi');
    [lia|by eauto|done|].
  cbn [mbind option_bind]. eexists None, _. split; [done|]. split; [done|].
  rewrite Hi', !inorder_plug. simpl. by rewrite Permutation_middle.
Qed.

(** ** Property *)

(** C8: red-black trees of [tree.h] stay red-black trees. On a tree with a
    black root, no red node with a red child and as many black nodes on every
    path to a null child, whose height is then at most twice the logarithm of
    its size: [RB_INSERT], with any comparison function that is defined on the
    elements, returns; it yields such a tree with the new element, or the
    unchanged tree and the element that compares equal. [RB_REMOVE] of an
    element returns and yields such a tree of the other elements. Neither
    dereferences a null pointer. *)
Theorem rbtree_well_formed cmp t x :
  rb_root t →
  (height t <= 2 * Nat.log2 (S (length (inorder t))))%nat ∧
  ((∀ y, y ∈ inorder t → is_Some (cmp x y)) →
   ∃ o t', RB_INSERT cmp t x = Some (o, t') ∧ rb_root t' ∧
     match o with
     | None => inorder t' ≡ₚ x :: inorder t
     | Some y => t' = t ∧ y ∈ inorder t ∧ cmp x y = Some 0
     end) ∧
  (x ∈ inorder t →
   ∃ t', RB_REMOVE t x = Some t' ∧ rb_root t' ∧ inorder t ≡ₚ x :: inorder t').
Proof.
  intros Hr. split; [by apply rb_root_height|]. split; [by apply insert_type|]. intros Hx.
  destruct (remove_ok t x Hr Hx) as (t' & a & b & ? & ? & Hi & Hi').
  exists t'. split_and!; [done|done|]. by rewrite Hi, Hi', <- Permutation_middle.
Qed.
End rbtree.

(** The tree of 1 … 7, inserted in this order. *)
Definition ex_cmp (x y : Z) : option Z := Some (x - y).
Definition ex_tree : option (tree (A := Z)) :=
  foldl (λ o x, t ← o; '(_, t) ← RB_INSERT ex_cmp t x; Some t) (Some E) [1; 2; 3; 4; 5; 6; 7].

Example ex_tree_eq :
  ex_tree = Some (T RB_BLACK (T RB_BLACK E 1 E) 2
    (T RB_RED (T RB_BLACK E 3 E) 4 (T RB_BLACK (T RB_RED E 5 E) 6 (T RB_RED E 7 E)))).
Proof. vm_compute. reflexivity. Qed.

(** Removing 2 puts its successor 3 in its place and rebalances. *)
Example ex_tree_remove :
  (t ← ex_tree; RB_REMOVE t 2) = Some (T RB_BLACK (T RB_BLACK E 1 E) 3
     (T RB_RED (T RB_BLACK E 4 (T RB_RED E 5 E)) 6 (T RB_BLACK E 7 E))).
Proof. vm_compute. reflexivity. Qed.

Definition ex_tree7 : tree (A := Z) :=
  T RB_BLACK (T RB_BLACK E 1 E) 2
    (T RB_RED (T RB_BLACK E 3 E) 4 (T RB_BLACK (T RB_RED E 5 E) 6 (T RB_RED E 7 E))).

Lemma rbtree_well_formed_witness :
  rb_root ex_tree7 ∧
  (∃ o t', RB_INSERT ex_cmp ex_tree7 2 = Some (o, t') ∧ rb_root t') ∧
  (∃ t', RB_REMOVE ex_tree7 2 = Some t' ∧ rb_root t').
Proof.
  assert (rb_root ex_tree7) as Hr by (exists 2%nat; repeat econstructor).
  split; [exact Hr|]. destruct (rbtree_well_formed ex_cmp ex_tree7 2 Hr) as (_ & HI & HR). split.
  - destruct HI as (o & t' & E & R & _); [intros y _; eexists; reflexivity|].
    exists o, t'. split; [exact E|exact R].
  - destruct HR as (t' & E & R & _); [apply (bool_decide_eq_true_1 _); reflexivity|].
    exists t'. split; [exact E|exact R].
Defined.
