(* ===== verification/TimersRbtree.v ===== *)
(** The red-black tree of timers: [src/src/fev_timers_rbtree.h] and
    [src/src/fev_timers_rbtree.c], the second implementation of the bucket
    interface of [TimersIntf].

    The colour and the links of [RB_ENTRY] are part of the tree of [RbTree];
    what is left of the implementation's part of [struct fev_timer] is the
    flag [expired]. *)

From stdpp Require Import sorting.
From S2P Require Import Prelude Time TimersIntf RbTree.

Local Open Scope Z_scope.

Abbreviation rtimer := (fev_timer bool).
Abbreviation rstore := (timer_store bool).

(** [head] and [tree_min] of [struct fev_timers_bucket]. *)
Record rb_bucket := mk_rb_bucket {
  root : tree (A := loc);
  tree_min : option loc;
}.

Definition fev_timer_is_expired (t : rtimer) : bool := link t.

Definition fev_timer_set_expired (m : rstore) (timer : loc) : option rstore :=
  set_link m timer true.

Definition fev_timers_bucket_empty (b : rb_bucket) : bool := bool_decide (tree_min b = None).

Definition fev_timers_bucket_min (b : rb_bucket) : option loc :=
  FEV_ASSERT negb (fev_timers_bucket_empty b); tree_min b.

Definition fev_timers_cmp (m : rstore) (lhs rhs : loc) : option Z :=
  lhs ← m !! lhs;
  rhs ← m !! rhs;
  cmp ← fev_timespec_cmp (abs_time lhs) (abs_time rhs);
  if negb (cmp =? 0) then Some (if cmp <? 0 then -1 else 1)
  else if (waiter lhs =? waiter rhs)%positive then Some 0
  else if (waiter lhs <? waiter rhs)%positive then Some (-1)
  else Some 1.

(** [RB_LEFT(bucket->tree_min)], null when [tree_min] is. *)
Definition min_left (o : option loc) (t : tree) : option (option loc) :=
  match o with None => Some None | Some l => RB_LEFT t l end.

Definition fev_timers_bucket_add (b : rb_bucket) (m : rstore) (timer : loc)
    : option (Z * rb_bucket * rstore) :=
  left ← min_left (tree_min b) (root b);
  FEV_ASSERT bool_decide (left = None);
  m ← set_link m timer false;
  '(_, t) ← RB_INSERT (fev_timers_cmp m) (root b) timer;
  left ← min_left (tree_min b) t;
  if bool_decide (tree_min b = None) || bool_decide (left ≠ None) then
    FEV_ASSERT bool_decide (tree_min b = None) || bool_decide (left = Some timer);
    Some (1, mk_rb_bucket t (Some timer), m)
  else Some (0, mk_rb_bucket t (tree_min b), m).

Definition fev_timers_bucket_del (b : rb_bucket) (m : rstore) (timer : loc)
    : option (Z * rb_bucket * rstore) :=
  FEV_ASSERT negb (fev_timers_bucket_empty b);
  '(min_changed, min) ← (if bool_decide (tree_min b = Some timer) then
                           next ← RB_NEXT (root b) timer; Some (1, next)
                         else Some (0, tree_min b));
  t ← RB_REMOVE (root b) timer;
  Some (min_changed, mk_rb_bucket t min, m).

Definition fev_timers_bucket_del_min (b : rb_bucket) (m : rstore) : option (rb_bucket * rstore) :=
  FEV_ASSERT negb (fev_timers_bucket_empty b);
  tree_min ← tree_min b;
  next ← RB_NEXT (root b) tree_min;
  t ← RB_REMOVE (root b) tree_min;
  Some (mk_rb_bucket t next, m).

(** [RB_INIT(&bucket->head); bucket->tree_min = NULL]. *)
Definition fev_timers_bucket_init : rb_bucket := mk_rb_bucket E None.

(** ** The order of the tree *)

(** [l1] expires before [l2], or at the same instant and its waiter has the
    smaller address. *)
Definition before (m : rstore) (l1 l2 : loc) : Prop :=
  ∃ t1 t2, m !! l1 = Some t1 ∧ m !! l2 = Some t2 ∧
    (ts_ns (abs_time t1) < ts_ns (abs_time t2) ∨
     (ts_ns (abs_time t1) = ts_ns (abs_time t2) ∧ (waiter t1 < waiter t2)%positive)).

#[export] Instance before_trans m : Transitive (before m).
Proof.
  intros l1 l2 l3 (t1 & t2 & H1 & H2 & H12) (t2' & t3 & H2' & H3 & H23). simplify_eq.
  exists t1, t3. split; [done|]. split; [done|]. lia.
Qed.

Lemma before_key m l1 l2 : before m l1 l2 → key m l1 <= key m l2.
Proof. intros (t1 & t2 & H1 & H2 & H). unfold key. rewrite H1, H2. lia. Qed.

Lemma before_relink ls m m' l1 l2 : relink ls m m' → before m l1 l2 → before m' l1 l2.
Proof.
  intros Hr (t1 & t2 & H1 & H2 & H).
  destruct (relink_lookup _ _ _ _ _ Hr H1) as (t1' & ? & E1 & E1').
  destruct (relink_lookup _ _ _ _ _ Hr H2) as (t2' & ? & E2 & E2').
  exists t1', t2'. by rewrite E1, E2, E1', E2'.
Qed.

Lemma before_frame m m' l1 l2 :
  m' !! l1 = m !! l1 → m' !! l2 = m !! l2 → before m l1 l2 → before m' l1 l2.
Proof. intros E1 E2 (t1 & t2 & ? & ? & ?). exists t1, t2. by rewrite E1, E2. Qed.

Lemma sorted_mono_on {A} (R R' : relation A) (g : list A) :
  (∀ x y, x ∈ g → y ∈ g → R x y → R' x y) → StronglySorted R g → StronglySorted R' g.
Proof.
  intros H. induction 1 as [|x g Hs IH Hf]; constructor.
  - apply IH. intros. apply H; [by apply list_elem_of_further..|done].
  - rewrite Forall_forall in Hf |- *. intros y Hy.
    apply H; [apply list_elem_of_here|by apply list_elem_of_further|by apply Hf].
Qed.

(** The comparison function decides this order. *)
Lemma fev_timers_cmp_ok m l1 l2 t1 t2 :
  m !! l1 = Some t1 → m !! l2 = Some t2 → ts_valid (abs_time t1) → ts_valid (abs_time t2) →
  ∃ c, fev_timers_cmp m l1 l2 = Some c ∧ (c < 0 ↔ before m l1 l2) ∧ (0 < c ↔ before m l2 l1) ∧
    (c = 0 ↔ ts_ns (abs_time t1) = ts_ns (abs_time t2) ∧ waiter t1 = waiter t2).
Proof.
  intros H1 H2 Hv1 Hv2. unfold fev_timers_cmp. rewrite H1, H2. cbn [mbind option_bind].
  destruct (fev_timespec_cmp_sgn _ _ Hv1 Hv2) as (c & -> & Hc). cbn [mbind option_bind].
  assert (before m l1 l2 ↔ ts_ns (abs_time t1) < ts_ns (abs_time t2) ∨
     (ts_ns (abs_time t1) = ts_ns (abs_time t2) ∧ (waiter t1 < waiter t2)%positive)) as B1.
  { split; [intros (? & ? & ? & ? & ?); by simplify_eq|by exists t1, t2]. }
  assert (before m l2 l1 ↔ ts_ns (abs_time t2) < ts_ns (abs_time t1) ∨
     (ts_ns (abs_time t2) = ts_ns (abs_time t1) ∧ (waiter t2 < waiter t1)%positive)) as B2.
  { split; [intros (? & ? & ? & ? & ?); by simplify_eq|by exists t2, t1]. }
  destruct (Z.eqb_spec c 0); cbn [negb].
  - destruct (Pos.eqb_spec (waiter t1) (waiter t2)) as [Hw|Hw];
      [|destruct (Pos.ltb_spec (waiter t1) (waiter t2))];
      eexists; (split; [done|]); rewrite B1, B2; lia.
  - destruct (Z.ltb_spec c 0); eexists; (split; [done|]); rewrite B1, B2; lia.
Qed.

(** ** Representation

    The tree is a red-black tree whose in-order elements are the timers, in
    the order of their deadlines, and [tree_min] is the first of them. *)
Record rb_ok (b : rb_bucket) (m : rstore) : Prop := {
  ro_tree : rb_root (root b);
  ro_nodup : NoDup (inorder (root b));
  ro_sorted : StronglySorted (before m) (inorder (root b));
  ro_keyed : keyed m (key m) (inorder (root b));
  ro_pending l t : l ∈ inorder (root b) → m !! l = Some t → link t = false;
  ro_min : tree_min b = head (inorder (root b));
}.

Definition rb_repr (b : rb_bucket) (m : rstore) (ts : list loc) : Prop :=
  rb_ok b m ∧ inorder (root b) ≡ₚ ts.

Lemma rb_empty b m ts : rb_repr b m ts → fev_timers_bucket_empty b = true ↔ ts = [].
Proof.
  intros [Hok Hp]. unfold fev_timers_bucket_empty. rewrite bool_decide_eq_true, (ro_min _ _ Hok).
  split; [|by intros ->; apply Permutation_nil_r in Hp as ->].
  destruct (inorder (root b)); [|done]. by apply Permutation_nil_l in Hp.
Qed.

Lemma rb_not_empty b m ts l :
  rb_repr b m ts → l ∈ ts → fev_timers_bucket_empty b = false ∧
    ∃ mn g, tree_min b = Some mn ∧ inorder (root b) = mn :: g.
Proof.
  intros [Hok Hp] Hl. rewrite <- Hp in Hl. unfold fev_timers_bucket_empty.
  rewrite bool_decide_eq_false, (ro_min _ _ Hok).
  destruct (inorder (root b)) as [|mn g]; [by apply not_elem_of_nil in Hl|]. eauto.
Qed.

Lemma rb_min b m ts :
  rb_repr b m ts → ts ≠ [] →
  ∃ l, fev_timers_bucket_min b = Some l ∧ l ∈ ts ∧ ∀ l', l' ∈ ts → key m l <= key m l'.
Proof.
  intros Hr Hne. destruct ts as [|l0 ts]; [done|].
  destruct (rb_not_empty b m _ l0 Hr) as (He & mn & g & Hm & Hg); [apply list_elem_of_here|].
  destruct Hr as [Hok Hp]. exists mn. unfold fev_timers_bucket_min. rewrite He, Hm.
  split; [done|]. rewrite <- Hp, Hg. split; [apply list_elem_of_here|].
  intros l'. rewrite <- Hp, Hg, elem_of_cons. intros [->|Hl']; [done|]. apply before_key.
  pose proof (ro_sorted _ _ Hok) as Hs. rewrite Hg in Hs. apply StronglySorted_cons in Hs as [Hf _].
  rewrite Forall_forall in Hf. by apply Hf.
Qed.

Lemma rb_frame b m m' ts :
  (∀ l, l ∈ ts → m' !! l = m !! l) → rb_repr b m ts → rb_repr b m' ts.
Proof.
  intros E [[Hr Hnd Hs Hk Hpd Hm] Hp]. split; [|done].
  assert (E' : ∀ l, l ∈ inorder (root b) → m' !! l = m !! l) by (intros l; rewrite Hp; apply E).
  split; try done.
  - eapply sorted_mono_on; [|exact Hs]. intros x y Hx Hy. by apply before_frame; apply E'.
  - intros l Hl. unfold key. rewrite E' by done. by apply Hk.
  - intros l t Hl. rewrite E' by done. by apply Hpd.
Qed.

Lemma rb_set_expired m l :
  is_Some (m !! l) →
  ∃ m', fev_timer_set_expired m l = Some m' ∧ relink [l] m m' ∧
        ∀ t, m' !! l = Some t → fev_timer_is_expired t = true.
Proof.
  intros Hl. destruct (set_link_spec m l true [l]) as (t & Ht & Hset & Hrel);
    [by apply list_elem_of_singleton|done|].
  eexists. split; [exact Hset|]. split; [done|]. intros t'. rewrite lookup_insert_eq.
  by intros [= <-].
Qed.

(** ** Adding a timer *)

Lemma rb_ok_relink b m m' l :
  rb_ok b m → l ∉ inorder (root b) → relink [l] m m' → rb_ok b m'.
Proof.
  intros Hok Hl Hr. destruct (rb_frame b m m' (inorder (root b))) as [? _]; [|by split|done].
  intros x Hx. apply Hr. rewrite list_elem_of_singleton. by intros ->.
Qed.

Lemma rb_insert_ok b m l t :
  rb_ok b m → l ∉ inorder (root b) → m !! l = Some t → ts_valid (abs_time t) → link t = false →
  other_waiters m (inorder (root b)) t →
  ∃ t' x y, RB_INSERT (fev_timers_cmp m) (root b) l = Some (None, t') ∧
    inorder (root b) = x ++ y ∧ inorder t' = x ++ l :: y ∧
    rb_ok (mk_rb_bucket t' (head (inorder t'))) m ∧
    (∀ mn s, x = [] → y = mn :: s → RB_LEFT t' mn = Some (Some l)).
Proof.
  intros [Hr Hnd Hs Hk Hpd _] Hl Ht Hv Hlk How.
  assert (Hcmp : ∀ z, z ∈ inorder (root b) → ∃ c, fev_timers_cmp m l z = Some c ∧
            (c < 0 ↔ before m l z) ∧ (0 < c ↔ before m z l) ∧ c ≠ 0).
  { intros z Hz. destruct (Hk z Hz) as (tz & Htz & Hvz & _).
    destruct (fev_timers_cmp_ok m l z t tz Ht Htz Hv Hvz) as (c & ? & ? & ? & H0).
    exists c. split_and!; try done. intros [_ E]%H0. by apply (How z tz). }
  assert (HL : ∀ z, z ∈ inorder (root b) → goes_left (fev_timers_cmp m) l z ↔ before m l z).
  { intros z Hz. destruct (Hcmp z Hz) as (c & Hc & <- & _). unfold goes_left. rewrite Hc.
    split; [by intros (? & [= <-] & ?)|eauto]. }
  assert (HR : ∀ z, z ∈ inorder (root b) → goes_right (fev_timers_cmp m) l z ↔ before m z l).
  { intros z Hz. destruct (Hcmp z Hz) as (c & Hc & _ & <- & _). unfold goes_right. rewrite Hc.
    split; [by intros (? & [= <-] & ?)|eauto]. }
  destruct (insert_ok (fev_timers_cmp m) (before m) l (root b))
    as (t' & x & y & HI & Hr' & Hi & Hi' & Hx & Hy & Hmin); [done|done| | |].
  { intros z Hz. rewrite HL, HR by done. destruct (Hcmp z Hz) as (c & _ & <- & <- & ?). lia. }
  { intros z1 z2 Hz1 Hz2 H12. rewrite !HL, !HR by done. split; intros; by etrans. }
  exists t', x, y. split_and!; [done..| |].
  2: { intros mn s -> ->. apply (Hmin mn s); [done|done|]. rewrite Hi'. simpl.
       apply NoDup_cons. rewrite Hi in Hl, Hnd. done. }
  assert (inorder t' ≡ₚ l :: inorder (root b)) as Hp by (rewrite Hi', Hi; by rewrite Permutation_middle).
  rewrite Hi in Hs. apply StronglySorted_app in Hs as (Hxy & Hsx & Hsy).
  assert (Hx' : ∀ z, z ∈ x → before m z l) by (intros z Hz; apply HR; [rewrite Hi; set_solver|auto]).
  assert (Hy' : ∀ z, z ∈ y → before m l z) by (intros z Hz; apply HL; [rewrite Hi; set_solver|auto]).
  split; simpl; [done| | | | |done].
  - rewrite Hp. by apply NoDup_cons.
  - rewrite Hi'. apply StronglySorted_app. split_and!; [|done|].
    + intros z1 z2 Hz1. rewrite elem_of_cons. intros [->|Hz2]; auto.
    + apply StronglySorted_cons. split; [by apply Forall_forall|done].
  - intros z. rewrite Hp, elem_of_cons. intros [->|Hz]; [|by apply Hk].
    exists t. unfold key. by rewrite Ht.
  - intros z tz. rewrite Hp, elem_of_cons. intros [->|Hz]; [by intros; simplify_eq|by apply Hpd].
Qed.

Lemma rb_add_ok b m ts l t :
  rb_repr b m ts → l ∉ ts → m !! l = Some t → ts_valid (abs_time t) →
  other_waiters m ts t →
  ∃ ret b' m', fev_timers_bucket_add b m l = Some (ret, b', m') ∧
    rb_repr b' m' (l :: ts) ∧ relink (l :: ts) m m' ∧
    ((ret = 1 ∧ fev_timers_bucket_min b' = Some l) ∨
     (ret = 0 ∧ ts ≠ [] ∧ fev_timers_bucket_min b' = fev_timers_bucket_min b)).
Proof.
  intros [Hok Hp] Hl Ht Hv How. rewrite <- Hp in Hl.
  destruct (set_link_spec m l false [l]) as (t0 & Ht0 & Hset & Hrel);
    [by apply list_elem_of_singleton|done|]. simplify_eq.
  set (m' := <[l := _]> m) in *. set (t1 := mk_timer (abs_time t) false (waiter t)) in *.
  destruct (rb_insert_ok b m' l t1) as (t' & x & y & HI & Hi & Hi' & Hok' & Hleft);
    [by eapply rb_ok_relink|done|apply lookup_insert_eq|done|done| |].
  { intros l' t2 Hl' Ht2. unfold m' in Ht2. rewrite lookup_insert_ne in Ht2 by (by intros <-).
    rewrite Hp in Hl'. by apply (How l' t2). }
  assert (Hperm : inorder t' ≡ₚ l :: ts).
  { rewrite Hi', <- Permutation_middle, <- Hi, Hp. done. }
  unfold fev_timers_bucket_add, fev_timers_bucket_min, fev_timers_bucket_empty.
  pose proof (ro_nodup _ _ Hok) as Hnd. rewrite (ro_min _ _ Hok).
  assert (rb_repr (mk_rb_bucket t' (head (inorder t'))) m' (l :: ts)) as Hrep by done.
  assert (relink (l :: ts) m m') as Hrel'.
  { eapply relink_mono; [|exact Hrel]. intros z ->%list_elem_of_singleton. apply list_elem_of_here. }
  destruct (inorder (root b)) as [|mn g] eqn:Eg.
  - symmetry in Hi. apply app_eq_nil in Hi as [-> ->]. simpl. rewrite Hset. simpl. rewrite HI. simpl.
    eexists _, _, _. split; [done|]. rewrite Hi' in Hrep. simpl in Hrep. split; [done|].
    split; [done|]. by left.
  - cbn [head min_left]. rewrite (left_of_head _ mn g) by (by rewrite ?Eg). cbn [mbind option_bind].
    rewrite bool_decide_true, Hset by done. cbn [mbind option_bind]. rewrite HI. cbn [mbind option_bind].
    destruct x as [|mn' x]; simplify_eq/=.
    + rewrite (Hleft mn g) by done. simpl. rewrite bool_decide_true by done. simpl.
      eexists _, _, _. split; [done|]. rewrite Hi' in Hrep. split; [done|]. split; [done|]. by left.
    + rewrite (left_of_head t' mn' (x ++ l :: y)) by (done || apply (ro_nodup _ _ Hok')). simpl.
      eexists _, _, _. split; [done|]. rewrite Hi' in Hrep. split; [done|]. split; [done|].
      right. split; [done|]. split; [|done]. intros ->. by apply Permutation_nil_r in Hp.
Qed.

(** ** Removing a timer *)

Lemma nodup_split_head {A} (z : A) g x y :
  NoDup (z :: g) → z :: g = x ++ z :: y → x = [] ∧ y = g.
Proof.
  destruct x as [|z' x]; intros Hnd E; simplify_eq/=; [done|].
  apply NoDup_cons in Hnd as [Hn _]. destruct Hn. rewrite elem_of_app, elem_of_cons. auto.
Qed.

Lemma rb_remove_ok b m l :
  rb_ok b m → l ∈ inorder (root b) →
  ∃ t' x y, RB_REMOVE (root b) l = Some t' ∧ inorder (root b) = x ++ l :: y ∧
    inorder t' = x ++ y ∧ rb_ok (mk_rb_bucket t' (head (inorder t'))) m.
Proof.
  intros [Hr Hnd Hs Hk Hpd _] Hl.
  destruct (remove_ok _ _ Hr Hl) as (t' & x & y & HR & Hr' & Hi & Hi').
  exists t', x, y. split_and!; [done..|].
  assert (Hsub : ∀ z, z ∈ inorder t' → z ∈ inorder (root b)) by (rewrite Hi, Hi'; set_solver).
  rewrite Hi in Hs, Hnd. apply StronglySorted_app in Hs as (Hxy & Hsx & Hsy).
  apply StronglySorted_cons in Hsy as [_ Hsy].
  split; simpl; [done| | | | |done].
  - rewrite Hi'. rewrite <- Permutation_middle in Hnd. by apply NoDup_cons in Hnd as [_ ?].
  - rewrite Hi'. apply StronglySorted_app. split_and!; [|done|done].
    intros z1 z2 H1 H2. apply Hxy; [done|]. by apply list_elem_of_further.
  - eapply keyed_mono; [exact Hsub|done].
  - intros z tz Hz. by apply Hpd, Hsub.
Qed.

(** Removing the first timer: its successor becomes the first. *)
Lemma rb_remove_min_ok b m l g :
  rb_ok b m → inorder (root b) = l :: g →
  ∃ t', RB_REMOVE (root b) l = Some t' ∧ RB_NEXT (root b) l = Some (head g) ∧
    inorder t' = g ∧ rb_ok (mk_rb_bucket t' (head g)) m.
Proof.
  intros Hok Hg. pose proof (ro_nodup _ _ Hok) as Hnd.
  assert (Hl : l ∈ inorder (root b)) by (rewrite Hg; apply list_elem_of_here).
  destruct (rb_remove_ok b m l Hok Hl) as (t' & x & y & HR & Hi & Hi' & Hok').
  destruct (next_ok _ _ Hl) as (x' & y' & Hn & HN). rewrite Hg in Hi, Hn, Hnd.
  apply nodup_split_head in Hi as [-> ->]; [|done]. apply nodup_split_head in Hn as [-> ->]; [|done].
  rewrite Hi' in Hok'. exists t'. done.
Qed.

Lemma rb_min_eq b m ts l :
  rb_repr b m ts → l ∈ ts → fev_timers_bucket_min b = tree_min b.
Proof.
  intros Hr Hl. destruct (rb_not_empty b m ts l Hr Hl) as [He _].
  unfold fev_timers_bucket_min. by rewrite He.
Qed.

Lemma rb_del_ok b m ts l :
  rb_repr b m ts → l ∈ ts →
  ∃ ret b' ts', fev_timers_bucket_del b m l = Some (ret, b', m) ∧
    ts ≡ₚ l :: ts' ∧ rb_repr b' m ts' ∧
    ((ret = 1 ∧ fev_timers_bucket_min b = Some l) ∨
     (ret = 0 ∧ fev_timers_bucket_min b ≠ Some l ∧
      fev_timers_bucket_min b' = fev_timers_bucket_min b)).
Proof.
  intros Hrep Hl. pose proof (rb_min_eq b m ts l Hrep Hl) as Hmin.
  destruct (rb_not_empty b m ts l Hrep Hl) as (He & mn & g & Hm & Hg).
  destruct Hrep as [Hok Hp]. unfold fev_timers_bucket_del. rewrite He, Hmin, Hm. cbn [negb].
  destruct (decide (mn = l)) as [->|Hne].
  - rewrite bool_decide_true by done.
    destruct (rb_remove_min_ok b m l g Hok Hg) as (t' & -> & -> & Hi' & Hok').
    cbn [mbind option_bind]. eexists _, _, g. split; [done|]. rewrite <- Hp, Hg.
    split; [done|]. split; [by split; simpl; [|rewrite Hi']|]. by left.
  - rewrite bool_decide_false by congruence. cbn [mbind option_bind].
    rewrite <- Hp in Hl. destruct (rb_remove_ok b m l Hok Hl) as (t' & x & y & -> & Hi & Hi' & Hok').
    cbn [mbind option_bind]. rewrite Hg in Hi. destruct x as [|mn' x]; simplify_eq/=.
    eexists _, _, (mn' :: x ++ y). split; [done|]. rewrite <- Hp, Hg.
    split; [symmetry; apply (Permutation_middle (mn' :: x))|]. rewrite Hi' in Hok'.
    split; [by split; simpl; [|rewrite Hi']|]. right. split; [done|]. split; [congruence|done].
Qed.

Lemma rb_del_min_ok b m ts l :
  rb_repr b m ts → fev_timers_bucket_min b = Some l → ts ≠ [] →
  ∃ b' ts', fev_timers_bucket_del_min b m = Some (b', m) ∧ ts ≡ₚ l :: ts' ∧ rb_repr b' m ts'.
Proof.
  intros Hrep Hmin Hne. destruct ts as [|l0 ts]; [done|].
  assert (l0 ∈ l0 :: ts) as Hl0 by apply list_elem_of_here. rewrite (rb_min_eq b m _ l0 Hrep Hl0) in Hmin.
  destruct (rb_not_empty b m _ l0 Hrep Hl0) as (He & mn & g & Hm & Hg).
  destruct Hrep as [Hok Hp]. unfold fev_timers_bucket_del_min. rewrite He, Hmin. cbn [negb mbind option_bind].
  assert (mn = l) as -> by congruence.
  destruct (rb_remove_min_ok b m l g Hok Hg) as (t' & -> & -> & Hi' & Hok').
  cbn [mbind option_bind]. eexists _, g. split; [done|]. rewrite <- Hp, Hg.
  split; [done|]. by split; simpl; [|rewrite Hi'].
Qed.

(** ** The red-black tree implements the bucket interface *)

#[export] Instance rb_ops : TimersBucketOps bool rb_bucket := {|
  link_init := false;
  timer_is_expired := fev_timer_is_expired;
  timer_set_expired := fev_timer_set_expired;
  bucket_init := fev_timers_bucket_init;
  bucket_empty := fev_timers_bucket_empty;
  bucket_min := fev_timers_bucket_min;
  bucket_add _ := fev_timers_bucket_add;
  bucket_del := fev_timers_bucket_del;
  bucket_del_min := fev_timers_bucket_del_min;
  timers_add_can_fail := false;
|}.

#[export] Instance rb_timers_bucket : TimersBucket bool rb_bucket.
Proof.
  refine {| bucket_repr := rb_repr |}; simpl.
  - intros b m ts ts' E [? Hp]. split; [done|]. by rewrite <- E.
  - intros b m ts [Hok <-]. apply Hok.
  - intros b m ts [Hok Hp]. eapply keyed_mono; [|apply Hok]. intros l. by rewrite Hp.
  - intros b m ts l t [Hok Hp] Hl Ht. rewrite <- Hp in Hl. by eapply ro_pending.
  - apply rb_frame.
  - intros m. split; [|done]. split; simpl; [by exists 0%nat; apply rb_E|apply NoDup_nil_2|apply SSorted_nil| | |done];
      [by intros l ?%not_elem_of_nil|by intros l t ?%not_elem_of_nil].
  - apply rb_empty.
  - apply rb_min.
  - apply rb_set_expired.
  - intros ok b m ts l t Hr Hl Ht Hv How _.
    destruct (rb_add_ok b m ts l t Hr Hl Ht Hv How) as (ret & b' & m' & E & H).
    eexists _, _, _. split; [exact E|]. by right.
  - intros b m ts l Hr Hl. destruct (rb_del_ok b m ts l Hr Hl) as (ret & b' & ts' & E & ? & ? & ?).
    eexists _, _, _, ts'. done.
  - intros b m ts l Hr Hm Hne.
    destruct (rb_del_min_ok b m ts l Hr Hm Hne) as (b' & ts' & E & ? & ?).
    eexists _, _, ts'. done.
Defined.

(** ** A concrete bucket: timers at 30, 10 and 10 seconds *)

Definition ex_rtimer (w : loc) (sec : Z) (e : bool) : rtimer := mk_timer (mk_timespec sec 0) e w.
Definition ex_rstore : rstore :=
  {[ 1%positive := ex_rtimer 11 30 false; 2%positive := ex_rtimer 13 10 false;
     3%positive := ex_rtimer 12 10 false; 4%positive := ex_rtimer 14 5 true ]}.
Definition ex_rbucket : rb_bucket :=
  mk_rb_bucket (T RB_BLACK (T RB_RED E 3%positive E) 2%positive (T RB_RED E 1%positive E))
    (Some 3%positive).

Example ex_rbucket_built :
  ('(_, b, m) ← fev_timers_bucket_add fev_timers_bucket_init ex_rstore 1%positive;
   '(_, b, m) ← fev_timers_bucket_add b m 2%positive;
   fev_timers_bucket_add b m 3%positive) = Some (1, ex_rbucket, ex_rstore).
Proof. vm_compute. reflexivity. Qed.

Lemma ex_rrepr : rb_repr ex_rbucket ex_rstore [1; 2; 3]%positive.
Proof.
  split; [split|].
  - exists 1%nat. repeat econstructor.
  - apply (bool_decide_eq_true_1 _). reflexivity.
  - cbn. repeat (apply SSorted_nil || apply SSorted_cons || apply Forall_nil_2 || apply Forall_cons_2);
      (eexists _, _; split; [vm_compute; reflexivity|];
      split; [vm_compute; reflexivity|]; simpl; unfold ts_ns, FEV_NSECS_PER_SEC; simpl; lia).
  - intros l Hl%list_elem_of_In. simpl in Hl. destruct Hl as [<-|[<-|[<-|[]]]];
      (eexists; split; [vm_compute; reflexivity|split; [|reflexivity]]);
      unfold ts_valid, FEV_NSECS_PER_SEC, LONG_MAX; simpl; lia.
  - intros l t Hl%list_elem_of_In Ht. simpl in Hl. destruct Hl as [<-|[<-|[<-|[]]]];
      injection Ht as <-; reflexivity.
  - reflexivity.
  - apply (bool_decide_eq_true_1 _). reflexivity.
Qed.

(** ** Properties *)

(** [fev_timers_bucket_add] on a well-formed tree always succeeds and
    inserts the timer: the tree stays a red-black tree whose in-order sequence
    is sorted by deadline and then waiter address, its timers are the old ones
    and the new one, pending, [tree_min] is the first of them, only the link of
    the new timer changes in the store, and the result says whether it became
    the minimum. Both assertions about the left child of [tree_min] hold, after
    the rotations too. *)
Theorem rbtree_add_correct b m ts l t :
  rb_repr b m ts → l ∉ ts → m !! l = Some t → ts_valid (abs_time t) → other_waiters m ts t →
  ∃ ret b' m', fev_timers_bucket_add b m l = Some (ret, b', m') ∧
    rb_repr b' m' (l :: ts) ∧ relink (l :: ts) m m' ∧
    ((ret = 1 ∧ fev_timers_bucket_min b' = Some l) ∨
     (ret = 0 ∧ ts ≠ [] ∧ fev_timers_bucket_min b' = fev_timers_bucket_min b)).
Proof. apply rb_add_ok. Qed.

Lemma rbtree_add_correct_witness :
  ∃ ret b' m', fev_timers_bucket_add ex_rbucket ex_rstore 4%positive = Some (ret, b', m') ∧
    rb_repr b' m' [4; 1; 2; 3]%positive.
Proof.
  destruct (rbtree_add_correct ex_rbucket ex_rstore [1; 2; 3]%positive 4%positive
              (ex_rtimer 14 5 true)) as (ret & b' & m' & E & R & _).
  - exact ex_rrepr.
  - apply (bool_decide_eq_true_1 _). reflexivity.
  - vm_compute. reflexivity.
  - unfold ts_valid, FEV_NSECS_PER_SEC, LONG_MAX. simpl. lia.
  - intros l' t' Hl' Ht'. rewrite list_elem_of_In in Hl'. simpl in Hl'.
    destruct Hl' as [<-|[<-|[<-|[]]]]; injection Ht' as <-; discriminate.
  - exists ret, b', m'. split; [exact E|exact R].
Defined.

(** [fev_timers_bucket_del] of a pending timer succeeds, removes exactly
    that timer, keeps the tree well formed and [tree_min] its first element
    (taken from [RB_NEXT] before the removal), and the result says whether the
    minimum was removed. *)
Theorem rbtree_del_correct b m ts l :
  rb_repr b m ts → l ∈ ts →
  ∃ ret b' ts', fev_timers_bucket_del b m l = Some (ret, b', m) ∧
    ts ≡ₚ l :: ts' ∧ rb_repr b' m ts' ∧
    ((ret = 1 ∧ fev_timers_bucket_min b = Some l) ∨
     (ret = 0 ∧ fev_timers_bucket_min b ≠ Some l ∧
      fev_timers_bucket_min b' = fev_timers_bucket_min b)).
Proof. apply rb_del_ok. Qed.

Lemma rbtree_del_correct_witness :
  ∃ ret b' ts', fev_timers_bucket_del ex_rbucket ex_rstore 3%positive = Some (ret, b', ex_rstore) ∧
    rb_repr b' ex_rstore ts'.
Proof.
  destruct (rbtree_del_correct ex_rbucket ex_rstore [1; 2; 3]%positive 3%positive)
    as (ret & b' & ts' & E & _ & R & _).
  - exact ex_rrepr.
  - apply (bool_decide_eq_true_1 _). reflexivity.
  - exists ret, b', ts'. split; [exact E|exact R].
Defined.
