(* ===== verification/Waiter.v ===== *)
(** The wait/wake protocol of a single waiter: [src/src/fev_waiter_intf.h] and
    [src/src/fev_waiter_impl.h].

    A fiber calls [fev_waiter_wait]; after it has switched to the scheduler the
    worker runs [fev_waiter_enable_wake_ups] on its behalf (the post operation),
    while any number of other threads may call [fev_waiter_wake]. The first part
    of the file gives the functions as they behave when they are not
    interleaved; the second part is the interleaving semantics at the
    granularity of atomic accesses (sequentially consistent), with the proof
    that the fiber is woken up exactly once and that the waiter, which may live
    on the stack of the fiber, is not accessed after [fev_waiter_wait] returns. *)

From S2P Require Import Prelude.

Inductive fev_waiter_wake_result :=
  FEV_WAITER_FAILED | FEV_WAITER_SET_ONLY | FEV_WAITER_SET_AND_WAKE_UP.

Inductive fev_waiter_wake_reason :=
  FEV_WAITER_NONE | FEV_WAITER_READY | FEV_WAITER_TIMED_OUT_CHECK | FEV_WAITER_TIMED_OUT_NO_CHECK.

#[export] Instance wake_result_eq_dec : EqDecision fev_waiter_wake_result.
Proof. solve_decision. Defined.
#[export] Instance wake_reason_eq_dec : EqDecision fev_waiter_wake_reason.
Proof. solve_decision. Defined.

Record fev_waiter := mk_waiter {
  reason : fev_waiter_wake_reason;
  do_wake : bool;
  wake_reason : fev_waiter_wake_reason;
  wait_for_post : bool;
  wait_for_wake : bool;
  fiber : loc;
}.

Definition set_reason (w : fev_waiter) r :=
  mk_waiter r (do_wake w) (wake_reason w) (wait_for_post w) (wait_for_wake w) (fiber w).
Definition set_do_wake (w : fev_waiter) b :=
  mk_waiter (reason w) b (wake_reason w) (wait_for_post w) (wait_for_wake w) (fiber w).
Definition set_wake_reason (w : fev_waiter) r :=
  mk_waiter (reason w) (do_wake w) r (wait_for_post w) (wait_for_wake w) (fiber w).
Definition set_wait_for_post (w : fev_waiter) b :=
  mk_waiter (reason w) (do_wake w) (wake_reason w) b (wait_for_wake w) (fiber w).
Definition set_wait_for_wake (w : fev_waiter) b :=
  mk_waiter (reason w) (do_wake w) (wake_reason w) (wait_for_post w) b (fiber w).

(** ** Uninterleaved behaviour *)

(** The post operation; the second component is the fiber that
    [fev_cur_wake_one] is called with. *)
Definition fev_waiter_enable_wake_ups (w : fev_waiter) : fev_waiter * option loc :=
  let w := set_do_wake w true in
  let r := reason w in
  let '(w, f) :=
    if decide (r ≠ FEV_WAITER_NONE) then
      let dw := do_wake w in
      let w := set_do_wake w false in
      if dw then (set_wake_reason w r, Some (fiber w)) else (w, None)
    else (w, None) in
  (set_wait_for_post w false, f).

Definition fev_waiter_wake (w : fev_waiter) (r : fev_waiter_wake_reason)
    : option (fev_waiter_wake_result * fev_waiter) :=
  FEV_ASSERT bool_decide (r ≠ FEV_WAITER_NONE);
  if decide (reason w = FEV_WAITER_NONE) then
    let w := set_reason w r in
    let dw := do_wake w in
    let w := set_do_wake w false in
    let '(w, result) :=
      if dw then (set_wake_reason w r, FEV_WAITER_SET_AND_WAKE_UP)
      else (w, FEV_WAITER_SET_ONLY) in
    Some (result, set_wait_for_wake w false)
  else Some (FEV_WAITER_FAILED, w).

(** ** Interleaving semantics *)

(** Program counter of the waiting fiber in [fev_waiter_wait]. *)
Inductive fpc :=
| FStart          (* before the store to [wait_for_post] *)
| FSwitch         (* before [fev_context_switch_and_call] *)
| FBlocked        (* switched out, not woken up yet *)
| FSpin           (* running again, at the [while] loop *)
| FLoad           (* before the load of [wake_reason] *)
| FRet (r : fev_waiter_wake_reason).

(** Program counter of the post operation. *)
Inductive ppc :=
| PIdle           (* not started *)
| PStore          (* before [do_wake = 1] *)
| PLoad           (* before the load of [reason] *)
| PXchg (r : fev_waiter_wake_reason)
| PReason (r : fev_waiter_wake_reason)
| PClear (f : bool)   (* before [wait_for_post = 0]; must the fiber be woken up? *)
| PWake (f : bool)    (* before [if (fiber != NULL) fev_cur_wake_one(fiber)] *)
| PDone.

(** Program counter of a caller of [fev_waiter_wake]. *)
Inductive wpc :=
| WCas (r : fev_waiter_wake_reason)
| WXchg (r : fev_waiter_wake_reason)
| WReason (r : fev_waiter_wake_reason)
| WClear (res : fev_waiter_wake_result)
| WRet (res : fev_waiter_wake_result)   (* returned; the caller acts on the result *)
| WDone (res : fev_waiter_wake_result).

(** [woken] counts the wake-ups of the fiber and [winner] is the caller whose
    compare-and-swap of [reason] succeeded; both are ghost state. *)
Record wstate := mk_wstate {
  wt : fev_waiter;
  fib : fpc;
  post : ppc;
  wks : nat → wpc;
  woken : nat;
  winner : option nat;
}.

Definition with_wt s w := mk_wstate w (fib s) (post s) (wks s) (woken s) (winner s).
Definition with_fib s f := mk_wstate (wt s) f (post s) (wks s) (woken s) (winner s).
Definition with_post s p := mk_wstate (wt s) (fib s) p (wks s) (woken s) (winner s).
Definition with_wk s i p :=
  mk_wstate (wt s) (fib s) (post s) (upd (wks s) i p) (woken s) (winner s).
Definition with_winner s i := mk_wstate (wt s) (fib s) (post s) (wks s) (woken s) (Some i).

(** [fev_cur_wake_one] or [fev_cur_wake_stq] makes the fiber runnable. *)
Definition wake_up s :=
  mk_wstate (wt s) (match fib s with FBlocked => FSpin | f => f end)
    (post s) (wks s) (S (woken s)) (winner s).

Definition fiber_step (s : wstate) : option wstate :=
  match fib s with
  | FStart => Some (with_fib (with_wt s (set_wait_for_post (wt s) true)) FSwitch)
  | FSwitch => Some (with_fib (with_post s PStore) FBlocked)
  | FBlocked => None
  | FSpin =>
      (* [wait != 0]: yield and test again *)
      if wait_for_post (wt s) || wait_for_wake (wt s) then Some s else Some (with_fib s FLoad)
  | FLoad => Some (with_fib s (FRet (wake_reason (wt s))))
  | FRet _ => None
  end.

Definition post_step (s : wstate) : option wstate :=
  match post s with
  | PIdle => None
  | PStore => Some (with_post (with_wt s (set_do_wake (wt s) true)) PLoad)
  | PLoad =>
      let r := reason (wt s) in
      Some (with_post s (if decide (r ≠ FEV_WAITER_NONE) then PXchg r else PClear false))
  | PXchg r =>
      let dw := do_wake (wt s) in
      Some (with_post (with_wt s (set_do_wake (wt s) false)) (if dw then PReason r else PClear false))
  | PReason r => Some (with_post (with_wt s (set_wake_reason (wt s) r)) (PClear true))
  | PClear f => Some (with_post (with_wt s (set_wait_for_post (wt s) false)) (PWake f))
  | PWake f => let s := with_post s PDone in Some (if f : bool then wake_up s else s)
  | PDone => None
  end.

Definition waker_step (s : wstate) (i : nat) : option wstate :=
  match wks s i with
  | WCas r =>
      Some (if decide (reason (wt s) = FEV_WAITER_NONE)
            then with_winner (with_wk (with_wt s (set_reason (wt s) r)) i (WXchg r)) i
            else with_wk s i (WDone FEV_WAITER_FAILED))
  | WXchg r =>
      let dw := do_wake (wt s) in
      Some (with_wk (with_wt s (set_do_wake (wt s) false)) i
              (if dw then WReason r else WClear FEV_WAITER_SET_ONLY))
  | WReason r =>
      Some (with_wk (with_wt s (set_wake_reason (wt s) r)) i (WClear FEV_WAITER_SET_AND_WAKE_UP))
  | WClear res => Some (with_wk (with_wt s (set_wait_for_wake (wt s) false)) i (WRet res))
  | WRet res =>
      let s := with_wk s i (WDone res) in
      Some (if decide (res = FEV_WAITER_SET_AND_WAKE_UP) then wake_up s else s)
  | WDone _ => None
  end.

Inductive wlabel := LFiber | LPost | LWaker (i : nat).

Definition wstep (s : wstate) (l : wlabel) : option wstate :=
  match l with
  | LFiber => fiber_step s
  | LPost => post_step s
  | LWaker i => waker_step s i
  end.

(** Initially the caller of [fev_waiter_wait] has prepared the waiter, and the
    thread [i] is about to call [fev_waiter_wake] with the reason [rs i]. *)
Definition winit (f : loc) (wr : fev_waiter_wake_reason) (rs : nat → fev_waiter_wake_reason) : wstate :=
  mk_wstate (mk_waiter FEV_WAITER_NONE false wr false true f) FStart PIdle
    (λ i, WCas (rs i)) 0 None.

(** ** The invariant *)

(** Responsibility for waking the fiber up is a token: the post operation puts
    it into [do_wake], and whoever exchanges [do_wake] from 1 to 0 takes it. *)
Definition post_token (p : ppc) : nat :=
  match p with PReason _ | PClear true | PWake true => 1 | _ => 0 end.
Definition waker_token (p : wpc) : nat :=
  match p with
  | WReason _ | WClear FEV_WAITER_SET_AND_WAKE_UP | WRet FEV_WAITER_SET_AND_WAKE_UP => 1
  | _ => 0
  end.
Definition winner_token (s : wstate) : nat :=
  match winner s with Some i => waker_token (wks s i) | None => 0 end.
Definition post_started (p : ppc) : nat :=
  match p with PIdle | PStore => 0 | _ => 1 end.

(** A thread that won the compare-and-swap. *)
Definition winning (r : fev_waiter_wake_reason) (p : wpc) : Prop :=
  match p with
  | WXchg r' | WReason r' => r' = r
  | WClear res | WRet res | WDone res => res ≠ FEV_WAITER_FAILED
  | WCas _ => False
  end.
Definition past_xchg (p : wpc) : bool :=
  match p with WCas _ | WXchg _ => false | _ => true end.
Definition past_clear (p : wpc) : bool :=
  match p with WRet _ | WDone _ => true | _ => false end.
Definition winner_is (s : wstate) (P : wpc → bool) : bool :=
  match winner s with Some i => P (wks s i) | None => false end.
Definition stored (p : wpc) : bool :=
  match p with
  | WClear FEV_WAITER_SET_AND_WAKE_UP | WRet FEV_WAITER_SET_AND_WAKE_UP => true | _ => false
  end.
Definition fib_woken (f : fpc) : nat := match f with FSpin | FLoad | FRet _ => 1 | _ => 0 end.
Definition fib_idle (f : fpc) : bool := match f with FStart | FSwitch => true | _ => false end.
Definition post_idle (p : ppc) : bool := match p with PIdle => true | _ => false end.
Definition post_looks (p : ppc) : bool := match p with PLoad | PXchg _ => true | _ => false end.
Definition post_stored (p : ppc) : bool :=
  match p with PClear true | PWake true => true | _ => false end.
Definition post_cleared (p : ppc) : bool := match p with PWake _ | PDone => true | _ => false end.
Definition fib_start (f : fpc) : bool := match f with FStart => true | _ => false end.

Record winv (rs : nat → fev_waiter_wake_reason) (s : wstate) : Prop := {
  inv_token : (if do_wake (wt s) then 1 else 0) + post_token (post s) + winner_token s + woken s
              = post_started (post s);
  inv_winner : match winner s with
               | Some i => reason (wt s) ≠ FEV_WAITER_NONE ∧ winning (reason (wt s)) (wks s i)
               | None => reason (wt s) = FEV_WAITER_NONE
               end;
  inv_losers : ∀ i, winner s ≠ Some i → wks s i = WCas (rs i) ∨ wks s i = WDone FEV_WAITER_FAILED;
  (* a token left in [do_wake] by the winner is found by the post operation *)
  inv_lost : do_wake (wt s) = true → winner_is s past_xchg = true → post_looks (post s) = true;
  inv_post : match post s with
             | PXchg r | PReason r => reason (wt s) ≠ FEV_WAITER_NONE ∧ r = reason (wt s)
             | _ => True
             end;
  inv_reason : (0 <? woken s) || post_stored (post s) || winner_is s stored = true →
               wake_reason (wt s) = reason (wt s) ∧ reason (wt s) ≠ FEV_WAITER_NONE;
  inv_fib : fib_woken (fib s) = woken s;
  inv_idle : fib_idle (fib s) = post_idle (post s);
  inv_wfp : wait_for_post (wt s) = false → fib_start (fib s) || post_cleared (post s) = true;
  inv_wfw : wait_for_wake (wt s) = false → winner_is s past_clear = true;
  inv_ret : match fib s with
            | FLoad => wait_for_post (wt s) = false ∧ wait_for_wake (wt s) = false
            | FRet r => wait_for_post (wt s) = false ∧ wait_for_wake (wt s) = false ∧
                        r = wake_reason (wt s)
            | _ => True
            end;
}.

Lemma winv_init f wr rs : winv rs (winit f wr rs).
Proof. split; simpl; auto; done. Qed.

(** Closes the goals left by a case analysis over program counters and flags. *)
Ltac wsolve :=
  simpl in *; intros; try congruence; try lia; try done;
  repeat match goal with
    | H : _ ∧ _ |- _ => destruct H
    | H : ?P → _, H' : ?P |- _ => specialize (H H')
    | H : true = true → _ |- _ => specialize (H eq_refl)
    | H : true = true → true = true → _ |- _ => specialize (H eq_refl eq_refl)
    | H : false = false → _ |- _ => specialize (H eq_refl)
    end; simpl in *; repeat split; try congruence; try lia; auto.

Lemma winv_fiber rs s s' : winv rs s → fiber_step s = Some s' → winv rs s'.
Proof.
  intros [Htok Hwin Hlos Hlost Hpost Hreas Hfib Hidle Hwfp Hwfw Hret] Hs.
  destruct s as [[rr dw wr wfp wfw ff] f p wk n win]. unfold fiber_step in Hs. simpl in *.
  destruct f; simplify_eq/=; [| |destruct wfp, wfw; simplify_eq/=|].
  all: split; simpl; try assumption; unfold winner_token, winner_is in *; simpl in *.
  all: destruct p; try discriminate; wsolve.
Qed.

Lemma winv_post rs s s' : winv rs s → post_step s = Some s' → winv rs s'.
Proof.
  intros [Htok Hwin Hlos Hlost Hpost Hreas Hfib Hidle Hwfp Hwfw Hret] Hs.
  destruct s as [[rr dw wr wfp wfw ff] f p wk n win]. unfold post_step in Hs. simpl in *.
  destruct p; simplify_eq/=; try discriminate.
  all: try (destruct (decide (rr ≠ FEV_WAITER_NONE))).
  all: try (match goal with b : bool |- context [PWake ?b] => destruct b end).
  all: split; simpl; try assumption.
  all: unfold winner_token, winner_is in *; simpl in *.
  all: destruct dw; simpl in *; wsolve.
  all: destruct f; simpl in *; try discriminate; wsolve.
  destruct win; [tauto|discriminate].
Qed.

(** Only the winner is past the compare-and-swap. *)
Lemma winner_of rs s i :
  winv rs s → (∀ r, wks s i ≠ WCas r) → wks s i ≠ WDone FEV_WAITER_FAILED → winner s = Some i.
Proof.
  intros Hi H1 H2. destruct (decide (winner s = Some i)) as [|Hne]; [done|].
  destruct (inv_losers _ _ Hi i Hne) as [E|E]; [by destruct (H1 (rs i))|done].
Qed.

Lemma winv_waker rs s i s' :
  (∀ j, rs j ≠ FEV_WAITER_NONE) → winv rs s → waker_step s i = Some s' → winv rs s'.
Proof.
  intros Hrs Hinv Hs. pose proof (winner_of rs s i Hinv) as Hw.
  destruct Hinv as [Htok Hwin Hlos Hlost Hpost Hreas Hfib Hidle Hwfp Hwfw Hret].
  destruct s as [[rr dw wr wfp wfw ff] f p wk n win]. unfold waker_step in Hs. simpl in *.
  destruct (wk i) as [r|r|r|res|res|res] eqn:Ei.
  { clear Hw. destruct (decide (rr = FEV_WAITER_NONE)) as [->|Hr]; simplify_eq/=.
    + destruct win as [j|]; [by destruct Hwin|].
      destruct (Hlos i) as [E|E]; [done| |congruence].
      assert (r = rs i) as -> by congruence.
      split; unfold winner_token, winner_is in *; simpl in *; rewrite ?upd_eq; simpl; auto.
      all: try (intros j Hj; rewrite upd_ne by congruence; by apply Hlos).
      all: rewrite ?orb_false_r in *; destruct p; wsolve; destruct f; wsolve.
    + assert (Hne : win ≠ Some i).
      { intros ->. destruct Hwin as [_ Hwin]. by rewrite Ei in Hwin. }
      assert (Hsame : match win with Some k => upd wk i (WDone FEV_WAITER_FAILED) k = wk k | None => True end).
      { destruct win; [|done]. apply upd_ne. congruence. }
      split; unfold winner_token, winner_is in *; simpl in *; auto; try (destruct win; [rewrite Hsame|]; auto; done).
      intros j Hj. destruct (decide (i = j)) as [->|]; [rewrite upd_eq; by right|].
      rewrite upd_ne by congruence. by apply Hlos. }
  all: try discriminate.
  all: specialize (Hw ltac:(congruence) ltac:(congruence)); subst win; destruct Hwin as [Hr Hwin]; rewrite Ei in Hwin.
  all: unfold winner_token, winner_is in *; simpl in *; rewrite Ei in *; simplify_eq/=.
  all: assert (Hloser : ∀ q j, Some i ≠ Some j →
         upd wk i q j = WCas (rs j) ∨ upd wk i q j = WDone FEV_WAITER_FAILED)
       by (intros q j Hj; rewrite upd_ne by congruence; by apply Hlos).
  all: try (destruct dw); try (destruct res; [done|..]); simpl in *; simplify_eq/=.
  all: split; unfold winner_token, winner_is in *; simpl in *; rewrite ?upd_eq; auto.
  all: destruct p; wsolve; destruct f; wsolve.
  all: rewrite orb_true_r in Hreas; by apply Hreas.
Qed.


Lemma winv_reach f wr rs s :
  (∀ j, rs j ≠ FEV_WAITER_NONE) → reach wstep (winit f wr rs) s → winv rs s.
Proof.
  intros Hrs. apply reach_invariant; [apply winv_init|].
  intros s1 [| |i] s2 Hi Hs; [by eapply winv_fiber|by eapply winv_post|by eapply winv_waker].
Qed.

(** A schedule: the fiber switches out, waker 0 wins before the post operation
    has stored [do_wake], waker 1 loses, and the post operation wakes the fiber
    up, which then returns. *)
Definition ex_reasons (i : nat) : fev_waiter_wake_reason :=
  match i with O => FEV_WAITER_READY | _ => FEV_WAITER_TIMED_OUT_CHECK end.
Definition ex_schedule : list wlabel :=
  [LFiber; LFiber; LWaker 0; LWaker 0; LPost; LPost; LWaker 1; LWaker 0; LWaker 0;
   LPost; LPost; LPost; LPost; LFiber; LFiber].
Definition ex_init : wstate := winit 5%positive FEV_WAITER_NONE ex_reasons.
Definition ex_state : wstate := default ex_init (run wstep ex_init ex_schedule).

Lemma ex_reach : reach wstep ex_init ex_state.
Proof.
  apply (run_reach wstep ex_init ex_init ex_schedule ex_state); [constructor|].
  vm_compute. reflexivity.
Qed.

Lemma ex_reasons_ok j : ex_reasons j ≠ FEV_WAITER_NONE.
Proof. by destruct j. Qed.

(** ** Properties *)

(** Whatever the interleaving of the post operation with any number of
    callers of [fev_waiter_wake], the fiber is woken up at most once, and only
    after some caller has set the reason. *)
Theorem waiter_woken_at_most_once f wr rs s :
  (∀ j, rs j ≠ FEV_WAITER_NONE) → reach wstep (winit f wr rs) s →
  woken s <= 1 ∧ (woken s = 1 → reason (wt s) ≠ FEV_WAITER_NONE).
Proof.
  intros Hrs Hr. pose proof (winv_reach f wr rs s Hrs Hr) as [Htok _ _ _ _ Hreas _ _ _ _ _].
  split; [destruct (post s); simpl in Htok; lia|].
  intros E. rewrite E in Hreas. by apply Hreas.
Qed.

Lemma waiter_woken_at_most_once_witness :
  woken ex_state <= 1 ∧ (woken ex_state = 1 → reason (wt ex_state) ≠ FEV_WAITER_NONE).
Proof. exact (waiter_woken_at_most_once _ _ _ ex_state ex_reasons_ok ex_reach). Defined.

(** C4: No wake-up is lost: once the post operation has finished and the
    caller that set the reason has finished, the fiber has been woken up
    exactly once, with the reason that was set, and is running again. *)
Theorem waiter_no_lost_wake_up f wr rs s i res :
  (∀ j, rs j ≠ FEV_WAITER_NONE) → reach wstep (winit f wr rs) s →
  post s = PDone → wks s i = WDone res → res ≠ FEV_WAITER_FAILED →
  woken s = 1 ∧ fib s ≠ FBlocked ∧ wake_reason (wt s) = reason (wt s).
Proof.
  intros Hrs Hr Hp Hi Hres. pose proof (winv_reach f wr rs s Hrs Hr) as Hinv.
  pose proof (winner_of rs s i Hinv ltac:(congruence) ltac:(congruence)) as Hw.
  destruct Hinv as [Htok _ _ Hlost _ Hreas Hfib _ _ _ _].
  unfold winner_token, winner_is in *. rewrite Hw, Hi, Hp in *. simpl in *.
  destruct (do_wake (wt s)); [specialize (Hlost eq_refl eq_refl); discriminate|].
  assert (E : woken s = 1) by lia. rewrite E in *.
  split; [done|]. split; [by intros E'; rewrite E' in Hfib|by apply Hreas].
Qed.

Lemma waiter_no_lost_wake_up_witness :
  post ex_state = PDone ∧ wks ex_state 0 = WDone FEV_WAITER_SET_ONLY ∧ woken ex_state = 1.
Proof.
  assert (P : post ex_state = PDone) by (vm_compute; reflexivity).
  assert (W : wks ex_state 0 = WDone FEV_WAITER_SET_ONLY) by (vm_compute; reflexivity).
  split; [exact P|]. split; [exact W|].
  refine (proj1 (waiter_no_lost_wake_up _ _ _ ex_state 0 _ ex_reasons_ok ex_reach P W _)).
  discriminate.
Defined.



(** The uninterleaved functions are runs of the step system: executing the
    steps of one caller without interruption gives the result and the waiter
    of [fev_waiter_wake], and executing the post operation gives those of
    [fev_waiter_enable_wake_ups], waking the fiber up when they say so. *)
Theorem waiter_functions_are_runs s i r :
  wks s i = WCas r → r ≠ FEV_WAITER_NONE → post s = PStore →
  (∃ res w s' n, fev_waiter_wake (wt s) r = Some (res, w) ∧
     run wstep s (replicate n (LWaker i)) = Some s' ∧ wt s' = w ∧ wks s' i = WDone res ∧
     woken s' = woken s + (if decide (res = FEV_WAITER_SET_AND_WAKE_UP) then 1 else 0)) ∧
  (∃ s' n, run wstep s (replicate n LPost) = Some s' ∧ post s' = PDone ∧
     (wt s', if decide (woken s' = S (woken s)) then Some (fiber (wt s)) else None)
       = fev_waiter_enable_wake_ups (wt s)).
Proof.
  intros Hi Hr Hp. destruct s as [w f p wk n win]. simpl in Hi, Hp. subst p. split.
  - unfold fev_waiter_wake. rewrite bool_decide_true by done. simpl.
    destruct (decide (reason w = FEV_WAITER_NONE)) as [E|E];
      [destruct (do_wake w) eqn:Ed|]; eexists _, _, _;
      [exists 5|exists 4|exists 1]; (split; [simpl; rewrite ?Ed; reflexivity|]).
    all: simpl; unfold waker_step; simpl; rewrite Hi; simpl.
    all: rewrite ?(decide_True _ _ E), ?(decide_False _ _ E); simpl.
    all: repeat (rewrite ?upd_eq, ?Ed; simpl); (split; [reflexivity|]); simpl;
      rewrite ?upd_eq; repeat split; simpl; lia.
  - simpl. unfold fev_waiter_enable_wake_ups. simpl.
    destruct (decide (reason w ≠ FEV_WAITER_NONE)) as [E|E]; eexists;
      [exists 6|exists 4]; simpl; unfold post_step; simpl;
      rewrite ?(decide_True _ _ E), ?(decide_False _ _ E); simpl; (split; [reflexivity|]); simpl;
      (split; [done|]).
    + by rewrite decide_True by done.
    + by rewrite decide_False by lia.
Qed.

Lemma waiter_functions_are_runs_witness :
  let s := with_post (winit 5%positive FEV_WAITER_NONE ex_reasons) PStore in
  ∃ res w, fev_waiter_wake (wt s) FEV_WAITER_READY = Some (res, w).
Proof.
  intros s. destruct (waiter_functions_are_runs s 0 FEV_WAITER_READY)
    as [(res & w & s' & n & E & _) _]; [reflexivity|discriminate|reflexivity|].
  exists res, w. exact E.
Defined.
