(* ===== verification/Timers.v ===== *)
(** Timers: [src/src/fev_timers.h] and [src/src/fev_timers.c], on top of the
    bucket interface of [TimersIntf].

    One bucket is modelled at a time ([fev_timers_find_bucket] picks it); its
    state is the container, the pointer [min] the poller reads, the internal
    lock with the fibers queued on it, the timers, the waiters they point to,
    and the deadlines given to [fev_poller_set_timeout]. The operations run
    inside the critical section of the bucket's internal lock; acquiring the
    lock may block, so a state passed to an operation is the state at the
    moment the lock is acquired. The fibers passed to the scheduler
    ([fev_cur_wake_one], [fev_cur_wake_stq]) are part of the result. *)

From Stdlib Require Import Sorted.
From S2P Require Import Prelude Time TimersIntf Binheap Waiter.

Local Open Scope Z_scope.

(** ** Choosing a bucket *)

Definition FEV_TIMERS_BUCKETS : Z := 64.
Definition FEV_TIMERS_BUCKET_MASK : Z := FEV_TIMERS_BUCKETS - 1.

Definition fev_timers_hash (waiter : Z) : Z :=
  let h := waiter in
  Z.lxor (Z.lxor (Z.lxor (Z.shiftr h 3) (Z.shiftr h 12)) (Z.shiftr h 18)) (Z.shiftr h 24).

(** The index of the bucket. *)
Definition fev_timers_find_bucket (waiter : Z) : Z :=
  Z.land (fev_timers_hash waiter) FEV_TIMERS_BUCKET_MASK.

Section timers.
Context {X B : Type} `{Ops : !TimersBucketOps X B}.

Record tstate := mk_tstate {
  bkt : B;
  tmin : option loc;                    (* bucket->min *)
  held : bool;                          (* bucket->lock *)
  lockq : list loc;                     (* fibers waiting for bucket->lock *)
  store : timer_store X;
  wtrs : gmap loc fev_waiter;
  timeouts : list timespec;             (* most recent first *)
}.

Implicit Types s : tstate.

Definition set_bkt s b m := mk_tstate b (tmin s) (held s) (lockq s) m (wtrs s) (timeouts s).
Definition set_min s o := mk_tstate (bkt s) o (held s) (lockq s) (store s) (wtrs s) (timeouts s).
Definition set_wtrs s w := mk_tstate (bkt s) (tmin s) (held s) (lockq s) (store s) w (timeouts s).
Definition set_lock s h q := mk_tstate (bkt s) (tmin s) h q (store s) (wtrs s) (timeouts s).
Definition push_timeout s t :=
  mk_tstate (bkt s) (tmin s) (held s) (lockq s) (store s) (wtrs s) (t :: timeouts s).

(** [fev_ilock_lock]: the caller owns the lock afterwards. *)
Definition lock s := set_lock s true (lockq s).

(** [fev_ilock_unlock]: the lock is handed over to the first waiter, which
    the caller has to wake up. *)
Definition unlock s : tstate * option loc :=
  match lockq s with
  | [] => (set_lock s false [], None)
  | f :: q => (set_lock s true q, Some f)
  end.

Definition opt_list {A} (o : option A) : list A := match o with Some a => [a] | None => [] end.

(** [fev_poller_set_timeout(bucket, &timer->abs_time)]. *)
Definition set_timeout s (l : loc) : option tstate :=
  t ← store s !! l;
  FEV_ASSERT fev_timespec_assert_valid (abs_time t);
  Some (push_timeout s (abs_time t)).

Definition is_expired s (l : loc) : option bool := t ← store s !! l; Some (timer_is_expired t).

Definition fev_timers_add (ok : bool) s (timer : loc) : option (Z * tstate * list loc) :=
  let s := lock s in
  '(ret, b, m) ← bucket_add ok (bkt s) (store s) timer;
  let s := set_bkt s b m in
  '(ret, s) ← (if timers_add_can_fail && (ret <? 0) then Some (ret, s)
               else
                 s ← (if negb (ret =? 0) then
                        FEV_ASSERT bool_decide (bucket_min (bkt s) = Some timer);
                        set_timeout (set_min s (Some timer)) timer
                      else Some s);
                 Some (0, s));
  let '(s, f) := unlock s in
  Some (ret, s, opt_list f).

Definition fev_timers_del s (timer : loc) : option (tstate * list loc) :=
  let s := lock s in
  e ← is_expired s timer;
  s ← (if e : bool then Some s
       else
         '(min_changed, b, m) ← bucket_del (bkt s) (store s) timer;
         let s := set_bkt s b m in
         if min_changed =? 0 then Some s
         else
           min ← (if bucket_empty (bkt s) then Some None
                  else l ← bucket_min (bkt s); Some (Some l));
           let s := set_min s min in
           match min with Some l => set_timeout s l | None => Some s end);
  let '(s, f) := unlock s in
  Some (s, opt_list f).

(** One iteration of the loop of [fev_timers_wake_expired]: [Some None] when
    the loop ends, otherwise the next state and the fiber to be woken up. *)
Definition wake_expired_iter (now : timespec) s : option (option (tstate * list loc)) :=
  if bucket_empty (bkt s) then Some None
  else
    min ← bucket_min (bkt s);
    t ← store s !! min;
    c ← fev_timespec_cmp (abs_time t) now;
    if 0 <? c then Some None
    else
      '(b, m) ← bucket_del_min (bkt s) (store s);
      m ← timer_set_expired m min;
      let s := set_bkt s b m in
      w ← wtrs s !! waiter t;
      '(result, w) ← fev_waiter_wake w FEV_WAITER_TIMED_OUT_NO_CHECK;
      let s := set_wtrs s (<[waiter t := w]> (wtrs s)) in
      Some (Some (s, if decide (result = FEV_WAITER_SET_AND_WAKE_UP) then [fiber w] else [])).

(** The loop; [fibers] is the list built so far. *)
Fixpoint wake_expired_loop (fuel : nat) (now : timespec) s (fibers : list loc)
    : option (tstate * list loc) :=
  match fuel with
  | O => None
  | S fuel =>
    r ← wake_expired_iter now s;
    match r with
    | None => Some (s, fibers)
    | Some (s, fs) => wake_expired_loop fuel now s (fibers ++ fs)
    end
  end.

(** Every iteration removes a timer of the store from the bucket, so their
    number bounds the iterations. *)
Definition fev_timers_wake_expired (now : timespec) s : option (tstate * list loc) :=
  wake_expired_loop (S (size (store s))) now s [].

Definition fev_timers_process (now : timespec) s (timer : loc)
    : option (bool * tstate * list loc) :=
  let s := lock s in
  let s := set_min s None in
  '(s, fibers) ← fev_timers_wake_expired now s;
  expired ← is_expired s timer;
  s ← (if expired : bool then Some s
       else '(_, b, m) ← bucket_del (bkt s) (store s) timer; Some (set_bkt s b m));
  s ← (if negb (bucket_empty (bkt s)) then
         min ← bucket_min (bkt s); set_timeout (set_min s (Some min)) min
       else Some s);
  let '(s, f) := unlock s in
  Some (expired, s, fibers ++ opt_list f).

End timers.
Arguments tstate : clear implicits.

(** ** Correctness, against the bucket interface *)

Section correctness.
Context {X B : Type} `{TB : TimersBucket X B}.
Implicit Types (s : tstate X B) (ts : list loc) (m : timer_store X).

(** The bucket holds the timers [ts]. *)
Definition holds s ts : Prop :=
  bucket_repr (bkt s) (store s) ts ∧
  ∀ l t, l ∈ ts → store s !! l = Some t → is_Some (wtrs s !! waiter t).

(** The poller has been told about the earliest timer. *)
Definition armed s ts : Prop :=
  match tmin s with
  | None => ts = []
  | Some l => ts ≠ [] ∧ bucket_min (bkt s) = Some l ∧
              ∃ t, store s !! l = Some t ∧ head (timeouts s) = Some (abs_time t)
  end.

Definition tinv s ts : Prop := holds s ts ∧ armed s ts.

(** The effect of releasing the lock. *)
Definition released s s' (fs : list loc) : Prop :=
  fs = opt_list (head (lockq s)) ∧ lockq s' = tail (lockq s) ∧
  held s' = negb (bool_decide (lockq s = [])).

Lemma unlock_released s q : lockq s = q → ∃ s' f, unlock s = (s', f) ∧
  bkt s' = bkt s ∧ tmin s' = tmin s ∧ store s' = store s ∧ wtrs s' = wtrs s ∧
  timeouts s' = timeouts s ∧ lockq s' = tail q ∧ opt_list f = opt_list (head q) ∧
  held s' = negb (bool_decide (q = [])).
Proof. intros Hq. unfold unlock. rewrite Hq. destruct q; eexists _, _; split; done. Qed.

Lemma repr_lookup b m ts l : bucket_repr b m ts → l ∈ ts → ∃ t, m !! l = Some t ∧ ts_valid (abs_time t) ∧ key m l = ts_ns (abs_time t).
Proof. intros Hr Hl. destruct (repr_keyed _ _ _ Hr l Hl) as (t & ? & ? & ?). eauto. Qed.

Lemma set_timeout_ok s l ts :
  bucket_repr (bkt s) (store s) ts → l ∈ ts →
  ∃ t, store s !! l = Some t ∧ set_timeout s l = Some (push_timeout s (abs_time t)).
Proof.
  intros Hr Hl. destruct (repr_lookup _ _ _ _ Hr Hl) as (t & Ht & Hv & _).
  exists t. split; [done|]. unfold set_timeout. rewrite Ht. simpl.
  by rewrite ts_valid_assert.
Qed.

Lemma holds_relink s ts b m (w : gmap loc fev_waiter) ls :
  bucket_repr b m ts → relink ls (store s) m →
  (∀ l t, l ∈ ts → store s !! l = Some t → is_Some (wtrs s !! waiter t)) →
  (∀ l, l ∈ ts → is_Some (store s !! l)) → (∀ a, is_Some (wtrs s !! a) → is_Some (w !! a)) →
  ∀ l t, l ∈ ts → m !! l = Some t → is_Some (w !! waiter t).
Proof.
  intros Hr Hrel Hw Hin Hmono l t Hl Ht. destruct (Hin l Hl) as [t0 Ht0].
  destruct (relink_lookup _ _ _ _ _ Hrel Ht0) as (t' & Ht' & _ & E).
  simplify_eq. rewrite E. eauto.
Qed.

Lemma armed_intro s ts l :
  bucket_repr (bkt s) (store s) ts → bucket_min (bkt s) = Some l → l ∈ ts →
  ∃ s', set_timeout (set_min s (Some l)) l = Some s' ∧ armed s' ts ∧
    bkt s' = bkt s ∧ store s' = store s ∧ wtrs s' = wtrs s ∧ lockq s' = lockq s ∧ held s' = held s.
Proof.
  intros Hr Hmin Hl. destruct (set_timeout_ok (set_min s (Some l)) l ts) as (t & Ht & ->);
    [done|done|]. eexists. split; [done|]. simpl. split; [|done].
  unfold armed. simpl. split; [intros ->; by apply not_elem_of_nil in Hl|]. eauto.
Qed.

Lemma fev_timers_add_ok ok s ts l t :
  tinv s ts → l ∉ ts → store s !! l = Some t → ts_valid (abs_time t) →
  other_waiters (store s) ts t → is_Some (wtrs s !! waiter t) →
  Z.of_nat (length ts) < SIZE_MAX / 16 →
  ∃ ret s' fs, fev_timers_add ok s l = Some (ret, s', fs) ∧ released s s' fs ∧
    wtrs s' = wtrs s ∧ relink (l :: ts) (store s) (store s') ∧
    ((ret = - ENOMEM ∧ ok = false ∧ timers_add_can_fail = true ∧ tinv s' ts) ∨
     (ret = 0 ∧ tinv s' (l :: ts))).
Proof.
  intros [[Hr Hw] Ha] Hnl Hl Hv How Hwt Hsz.
  destruct (add_ok ok _ _ ts l t Hr Hnl Hl Hv How Hsz) as (ret & b' & m' & E & Hcase).
  unfold fev_timers_add. cbn [bkt store lock set_lock]. rewrite E. cbn [mbind option_bind].
  destruct Hcase as [(-> & -> & -> & -> & ->)|(Hr' & Hrel & Hmin)].
  - simpl. destruct (lockq s) as [|f q] eqn:Eq; unfold unlock; simpl; rewrite Eq;
      eexists _, _, _; (split; [done|]); unfold released; rewrite Eq; simpl;
      repeat (split; [done|]); left; do 3 (split; [done|]); exact (conj (conj Hr Hw) Ha).
  - assert (Hneg : timers_add_can_fail && (ret <? 0) = false).
    { apply andb_false_intro2. apply Z.ltb_ge. lia. }
    rewrite Hneg. set (s1 := set_bkt (lock s) b' m').
    assert (Hw' : ∀ l' t', l' ∈ l :: ts → m' !! l' = Some t' → is_Some (wtrs s !! waiter t')).
    { eapply holds_relink; [exact Hr'|exact Hrel| | |done].
      - intros l' t' [->|Hl']%elem_of_cons Ht'; [by simplify_eq|eauto].
      - intros l' [->|Hl']%elem_of_cons; [eauto|].
        destruct (repr_lookup _ _ _ _ Hr Hl') as (t' & ? & _). eauto. }
    assert (∃ s2, (if negb (ret =? 0) then
                     FEV_ASSERT bool_decide (bucket_min (bkt s1) = Some l);
                     set_timeout (set_min s1 (Some l)) l else Some s1) = Some s2 ∧
              tinv s2 (l :: ts) ∧ wtrs s2 = wtrs s ∧ store s2 = m' ∧ lockq s2 = lockq s)
      as (s2 & -> & Hinv & Hws & Hst & Hq).
    { destruct Hmin as [[-> Hm]|(-> & Hne & Hm)]; simpl.
      - rewrite bool_decide_true by done.
        destruct (armed_intro s1 (l :: ts) l) as (s2 & -> & Ha2 & Hb2 & Hs2 & Hw2 & Hq2 & _);
          [done|done|by apply list_elem_of_here|].
        exists s2. split; [done|]. split; [|done]. split; [|done]. unfold holds.
        rewrite Hb2, Hs2, Hw2. done.
      - exists s1. split; [done|]. split; [|done]. split; [done|].
        unfold armed in *. simpl. destruct (tmin s) as [l0|]; [|done].
        destruct Ha as (_ & Hm0 & t0 & Ht0 & Hh).
        destruct (relink_lookup _ _ _ _ _ Hrel Ht0) as (t0' & ? & Et & _).
        split; [done|]. split; [congruence|]. exists t0'. rewrite Et. done. }
    cbn [mbind option_bind].
    destruct (unlock_released s2 (lockq s) Hq) as (s3 & f & -> & Hb3 & Hm3 & Hs3 & Hw3 & Ht3 & Hq3 & Hf3 & Hh3).
    eexists _, _, _. split; [done|]. split; [done|]. split; [congruence|].
    split; [by rewrite Hs3, Hst|]. right. split; [done|].
    unfold tinv, holds, armed in *. by rewrite Hb3, Hm3, Hs3, Hw3, Ht3.
Qed.

(** Arming the poller again after the contents changed. *)
Lemma rearm_ok s ts :
  holds s ts →
  ∃ s', (if negb (bucket_empty (bkt s)) then
           min ← bucket_min (bkt s); set_timeout (set_min s (Some min)) min
         else Some (set_min s None)) = Some s' ∧
    tinv s' ts ∧ wtrs s' = wtrs s ∧ store s' = store s ∧ lockq s' = lockq s.
Proof.
  intros [Hr Hw]. pose proof (repr_empty _ _ _ Hr) as He.
  destruct (bucket_empty (bkt s)); simpl.
  - assert (ts = []) as -> by (by apply He). eexists. split; [done|].
    split; [|done]. by split.
  - assert (Hne : ts ≠ []) by (intros E; by apply He in E).
    destruct (repr_min _ _ _ Hr Hne) as (l & Hm & Hl & _). rewrite Hm. simpl.
    destruct (armed_intro s ts l Hr Hm Hl) as (s2 & -> & Ha2 & Hb2 & Hs2 & Hw2 & Hq2 & _).
    exists s2. split; [done|]. split; [|done]. split; [|done].
    unfold holds. by rewrite Hb2, Hs2, Hw2.
Qed.

Lemma holds_del s ts l b m ts' :
  holds s ts → bucket_repr b m ts' → ts ≡ₚ l :: ts' → relink ts' (store s) m →
  holds (set_bkt s b m) ts'.
Proof.
  intros [Hr Hw] Hr' Hp Hrel. split; [done|]. simpl.
  assert (Hsub : ∀ x, x ∈ ts' → x ∈ ts) by (intros x Hx; rewrite Hp; by apply list_elem_of_further).
  eapply holds_relink; [done|done|eauto| |done].
  intros x Hx. destruct (repr_lookup _ _ _ x Hr (Hsub x Hx)) as (t & ? & _). eauto.
Qed.

(** A timer is in the bucket, or was removed from it when it expired. *)
Definition pending_or_expired s ts l : Prop :=
  ∃ t, store s !! l = Some t ∧ (l ∈ ts ∨ (l ∉ ts ∧ timer_is_expired t = true)).

(** What remains of [ts] when [l] is removed from it. *)
Definition removed ts l ts' : Prop := (ts ≡ₚ l :: ts' ∨ (l ∉ ts ∧ ts' = ts)) ∧ l ∉ ts'.

Lemma removed_del b m ts l ts' : bucket_repr b m ts → ts ≡ₚ l :: ts' → removed ts l ts'.
Proof.
  intros Hr Hp. split; [by left|]. apply repr_nodup in Hr. rewrite Hp in Hr.
  by apply NoDup_cons in Hr as [? _].
Qed.

Lemma fev_timers_del_ok s ts l :
  tinv s ts → pending_or_expired s ts l →
  ∃ s' fs ts', fev_timers_del s l = Some (s', fs) ∧ released s s' fs ∧ removed ts l ts' ∧
    tinv s' ts' ∧ wtrs s' = wtrs s ∧ relink ts (store s) (store s').
Proof.
  intros [[Hr Hw] Ha] (t & Ht & Hcase). unfold fev_timers_del, is_expired.
  cbn [store lock set_lock]. rewrite Ht. cbn [mbind option_bind].
  destruct Hcase as [Hl|[Hl He]].
  2: { rewrite He. cbn [mbind option_bind].
    destruct (unlock_released (lock s) (lockq s)) as (s3 & f & -> & Hb3 & Hm3 & Hs3 & Hw3 & Ht3 & Hq3 & Hf3 & Hh3); [done|].
    eexists _, _, ts. split; [done|]. split; [done|]. split; [split; [by right|done]|].
    unfold tinv, holds, armed in *. rewrite Hb3, Hm3, Hs3, Hw3, Ht3. done. }
  rewrite (repr_pending _ _ _ l t Hr Hl Ht).
  destruct (del_ok _ _ ts l Hr Hl) as (ret & b' & m' & ts' & E & Hp & Hr' & Hrel & Hmin).
  cbn [bkt lock set_lock store]. rewrite E. cbn [mbind option_bind].
  pose proof (holds_del s ts l b' m' ts' (conj Hr Hw) Hr' Hp Hrel) as Hh.
  set (s1 := set_bkt (lock s) b' m').
  assert (∃ s2, (if ret =? 0 then Some s1
     else min ← (if bucket_empty (bkt s1) then Some None else l ← bucket_min (bkt s1); Some (Some l));
          match min with Some l => set_timeout (set_min s1 min) l | None => Some (set_min s1 min) end)
     = Some s2 ∧ tinv s2 ts' ∧ wtrs s2 = wtrs s ∧ store s2 = m' ∧ lockq s2 = lockq s)
    as (s2 & -> & Hinv & Hws & Hst & Hq).
  { destruct Hmin as [[-> _]|(-> & Hne & Hm)]; simpl.
    - destruct (rearm_ok s1 ts' Hh) as (s2 & E2 & Hinv & Hws & Hst & Hq). exists s2.
      split; [|done]. simpl in E2. destruct (bucket_empty b'); simpl in *; [done|].
      by destruct (bucket_min b').
    - exists s1. split; [done|]. split; [|done]. split; [done|].
      unfold armed in *. simpl. destruct (tmin s) as [l0|].
      + destruct Ha as (Hts & Hm0 & t0 & Ht0 & Hh0).
        destruct (repr_min _ _ _ Hr Hts) as (l1 & Hl1 & Hin & _).
        assert (l1 = l0) as -> by congruence.
        rewrite Hp in Hin. apply elem_of_cons in Hin as [->|Hin]; [done|].
        destruct (relink_lookup _ _ _ _ _ Hrel Ht0) as (t0' & ? & Et & _).
        split; [by intros ->; apply not_elem_of_nil in Hin|]. split; [congruence|].
        exists t0'. rewrite Et. done.
      + subst ts. by apply not_elem_of_nil in Hl. }
  cbn [mbind option_bind].
  destruct (unlock_released s2 (lockq s) Hq) as (s3 & f & -> & Hb3 & Hm3 & Hs3 & Hw3 & Ht3 & Hq3 & Hf3 & Hh3).
  eexists _, _, ts'. split; [done|]. split; [done|]. split; [by eapply removed_del|].
  split; [unfold tinv, holds, armed in *; by rewrite Hb3, Hm3, Hs3, Hw3, Ht3|].
  split; [congruence|]. rewrite Hs3, Hst. eapply relink_mono; [|done].
  intros x Hx. rewrite Hp. by apply list_elem_of_further.
Qed.

(** Reference for the wake-ups: the waiters are woken one after the other;
    the result collects the fibers that have to be made runnable. *)
Fixpoint wake_all (ws : gmap loc fev_waiter) (as_ : list loc)
    : option (gmap loc fev_waiter * list loc) :=
  match as_ with
  | [] => Some (ws, [])
  | a :: as_ =>
    w ← ws !! a;
    '(res, w) ← fev_waiter_wake w FEV_WAITER_TIMED_OUT_NO_CHECK;
    '(ws, fs) ← wake_all (<[a := w]> ws) as_;
    Some (ws, (if decide (res = FEV_WAITER_SET_AND_WAKE_UP) then [fiber w] else []) ++ fs)
  end.

Definition waiters_of m (ls : list loc) : list loc := omap (λ l, waiter <$> m !! l) ls.

Lemma waiters_of_relink ls m m' xs : relink ls m m' → waiters_of m' xs = waiters_of m xs.
Proof.
  intros Hr. unfold waiters_of. induction xs as [|x xs IH]; [done|]. cbn.
  destruct (Hr x) as [_ E]. destruct (m !! x), (m' !! x); simplify_eq/=; [|exact IH].
  f_equal; [congruence|exact IH].
Qed.

Lemma fev_waiter_wake_Some w r :
  r ≠ FEV_WAITER_NONE → ∃ res w', fev_waiter_wake w r = Some (res, w').
Proof.
  intros Hr. unfold fev_waiter_wake. rewrite bool_decide_true by done.
  case_decide; [|eauto]. destruct (do_wake _); eauto.
Qed.

(** The expired timers [exp] and the others [rest], as the loop splits them. *)
Record expired_split (now : timespec) s ts s' (fs exp rest : list loc) : Prop := {
  es_perm : ts ≡ₚ exp ++ rest;
  es_holds : holds s' rest;
  es_exp : Forall (λ l, key (store s) l <= ts_ns now) exp;
  es_rest : Forall (λ l, ts_ns now < key (store s) l) rest;
  es_sorted : StronglySorted (λ a b, key (store s) a <= key (store s) b) exp;
  es_flag : Forall (λ l, is_expired s' l = Some true) exp;
  es_relink : relink ts (store s) (store s');
  es_wake : wake_all (wtrs s) (waiters_of (store s) exp) = Some (wtrs s', fs);
  es_frame : tmin s' = tmin s ∧ held s' = held s ∧ lockq s' = lockq s ∧ timeouts s' = timeouts s;
}.

Lemma StronglySorted_mono {A} (R R' : A → A → Prop) (xs : list A) :
  (∀ a b, R a b → R' a b) → StronglySorted R xs → StronglySorted R' xs.
Proof.
  intros H. induction 1; constructor; [done|]. eapply Forall_impl; eauto.
Qed.

Lemma expired_split_nil now s ts :
  holds s ts → (∀ l, l ∈ ts → ts_ns now < key (store s) l) → expired_split now s ts s [] [] ts.
Proof.
  intros Hh Hk. split; try done; [|constructor]. by apply Forall_forall.
Qed.

(** The state after an iteration that removes [l]. *)
Record expired_one (now : timespec) s ts l t s' (fs ts1 : list loc) : Prop := {
  eo_in : ts ≡ₚ l :: ts1;
  eo_notin : l ∉ ts1;
  eo_timer : store s !! l = Some t;
  eo_now : key (store s) l <= ts_ns now;
  eo_holds : holds s' ts1;
  eo_relink : relink ts (store s) (store s');
  eo_flag : is_expired s' l = Some true;
  eo_frame : tmin s' = tmin s ∧ held s' = held s ∧ lockq s' = lockq s ∧ timeouts s' = timeouts s;
  eo_min : ∀ x, x ∈ ts → key (store s) l <= key (store s) x;
  eo_wake : ∃ w res w', wtrs s !! waiter t = Some w ∧
    fev_waiter_wake w FEV_WAITER_TIMED_OUT_NO_CHECK = Some (res, w') ∧
    wtrs s' = <[waiter t := w']> (wtrs s) ∧
    fs = if decide (res = FEV_WAITER_SET_AND_WAKE_UP) then [fiber w'] else [];
}.

Lemma wake_expired_iter_ok now s ts :
  holds s ts → ts_valid now →
  (wake_expired_iter now s = Some None ∧ ∀ l, l ∈ ts → ts_ns now < key (store s) l) ∨
  ∃ l t s' fs ts1, wake_expired_iter now s = Some (Some (s', fs)) ∧
    expired_one now s ts l t s' fs ts1.
Proof.
  intros Hh Hnow. pose proof Hh as [Hr Hw]. unfold wake_expired_iter.
  pose proof (repr_empty _ _ _ Hr) as He. destruct (bucket_empty (bkt s)).
  { left. split; [done|]. assert (ts = []) as -> by (by apply He). by intros l ?%not_elem_of_nil. }
  assert (Hne : ts ≠ []) by (intros E; by apply He in E).
  destruct (repr_min _ _ _ Hr Hne) as (l & Hm & Hl & Hle).
  destruct (repr_lookup _ _ _ _ Hr Hl) as (t & Ht & Hv & Hkl).
  rewrite Hm. cbn [mbind option_bind]. rewrite Ht. cbn [mbind option_bind].
  destruct (fev_timespec_cmp_le (abs_time t) now Hv Hnow) as (c & -> & Hc & _).
  cbn [mbind option_bind]. destruct (Z.ltb_spec 0 c).
  { left. split; [done|]. intros x Hx. specialize (Hle x Hx). lia. }
  right. destruct (del_min_ok _ _ ts l Hr Hm Hne) as (b & m & ts1 & -> & Hp & Hr1 & Hrel1).
  cbn [mbind option_bind].
  destruct (relink_lookup _ _ _ _ _ Hrel1 Ht) as (t1 & Ht1 & _).
  destruct (set_expired_ok m l) as (m2 & Hset & Hrel2 & Hflag); [eauto|].
  rewrite Hset. cbn [mbind option_bind].
  destruct (Hw l t Hl Ht) as [w Hwt]. cbn [wtrs set_bkt]. rewrite Hwt. cbn [mbind option_bind].
  destruct (fev_waiter_wake_Some w FEV_WAITER_TIMED_OUT_NO_CHECK) as (res & w' & Hwake); [done|].
  rewrite Hwake. cbn [mbind option_bind].
  pose proof (proj2 (removed_del _ _ _ _ _ Hr Hp)) as Hnd.
  pose proof (holds_del s ts l b m ts1 Hh Hr1 Hp Hrel1) as [_ Hw1].
  assert (Hsame : ∀ x, x ∈ ts1 → m2 !! x = m !! x).
  { intros x Hx. apply Hrel2. intros ->%list_elem_of_singleton. done. }
  eexists l, t, _, _, ts1. split; [done|]. split; try done.
  - lia.
  - split; simpl; [by eapply repr_frame|].
    intros x tx Hx Htx. rewrite Hsame in Htx by done. destruct (Hw1 x tx Hx Htx) as [wx Hwx].
    simpl in Hwx. destruct (decide (waiter t = waiter tx)) as [->|];
      [rewrite lookup_insert_eq; eauto|rewrite lookup_insert_ne by done; eauto].
  - simpl. etrans; (eapply relink_mono; [|done]); intros x Hx; rewrite Hp.
    + by apply list_elem_of_further.
    + apply list_elem_of_singleton in Hx as ->. apply list_elem_of_here.
  - unfold is_expired. simpl. destruct (relink_lookup _ _ _ _ _ Hrel2 Ht1) as (t2 & Ht2 & _).
    rewrite Ht2. simpl. by rewrite (Hflag t2 Ht2).
  - simpl. eauto 10.
Qed.

(** One iteration in front of the rest of the loop. *)
Lemma expired_split_cons now s ts l t s1 fs1 ts1 s' fs exp rest :
  expired_one now s ts l t s1 fs1 ts1 →
  expired_split now s1 ts1 s' fs exp rest →
  expired_split now s ts s' (fs1 ++ fs) (l :: exp) rest.
Proof.
  intros [Hp Hnd Ht Hnow Hh Hrel Hflag (Hf1 & Hf2 & Hf3 & Hf4) Hle (w & res & w' & Hwt & Hwake & Hws & ->)] [].
  assert (Hk : ∀ x, key (store s1) x = key (store s) x) by (intros; by eapply key_relink).
  assert (Hsub : ∀ x, x ∈ exp ++ rest → x ∈ ts).
  { intros x Hx. rewrite Hp. apply list_elem_of_further. by rewrite es_perm0. }
  split.
  - rewrite Hp, es_perm0. done.
  - done.
  - constructor; [done|]. eapply Forall_impl; [exact es_exp0|]. intros x; cbn beta. by rewrite Hk.
  - eapply Forall_impl; [exact es_rest0|]. intros x; cbn beta. by rewrite Hk.
  - constructor.
    + eapply StronglySorted_mono; [|done]. intros a c; cbn beta. by rewrite !Hk.
    + apply Forall_forall. intros x Hx. apply Hle, Hsub, elem_of_app. by left.
  - constructor; [|done]. unfold is_expired in *. destruct (es_relink0 l) as [-> _]; done.
  - etrans; [done|]. eapply relink_mono; [|done]. intros x Hx. rewrite Hp. by apply list_elem_of_further.
  - rewrite Hws, (waiters_of_relink _ _ _ _ Hrel) in es_wake0.
    unfold waiters_of in *. cbn in *. rewrite Ht. cbn. rewrite Hwt. cbn. rewrite Hwake. cbn.
    by rewrite es_wake0.
  - destruct es_frame0 as (? & ? & ? & ?). repeat split; congruence.
Qed.

Lemma wake_expired_loop_ok fuel now s ts fibers :
  holds s ts → ts_valid now → (length ts < fuel)%nat →
  ∃ s' fs exp rest, wake_expired_loop fuel now s fibers = Some (s', fibers ++ fs) ∧
    expired_split now s ts s' fs exp rest.
Proof.
  revert s ts fibers. induction fuel as [|fuel IH]; intros s ts fibers Hh Hnow Hf; [lia|].
  simpl. destruct (wake_expired_iter_ok now s ts Hh Hnow)
    as [[-> Hk]|(l & t & s1 & fs1 & ts1 & -> & Heo)]; cbn [mbind option_bind].
  { exists s, [], [], ts. rewrite app_nil_r. split; [done|]. by apply expired_split_nil. }
  pose proof (eo_in _ _ _ _ _ _ _ _ Heo) as Hp. rewrite Hp in Hf. simpl in Hf.
  destruct (IH s1 ts1 (fibers ++ fs1)) as (s' & fs & exp & rest & -> & Hes);
    [by destruct Heo|done|lia|].
  eexists _, _, (l :: exp), rest. rewrite <- app_assoc. split; [done|].
  by eapply expired_split_cons.
Qed.

Lemma repr_length b m ts : bucket_repr b m ts → (length ts <= size m)%nat.
Proof.
  intros Hr. rewrite <- size_dom, <- (size_list_to_set (C := gset loc)) by (by eapply repr_nodup).
  apply subseteq_size. intros l Hl%elem_of_list_to_set.
  destruct (repr_lookup _ _ _ _ Hr Hl) as (t & Ht & _). by eapply elem_of_dom_2.
Qed.

Lemma fev_timers_wake_expired_ok now s ts :
  holds s ts → ts_valid now →
  ∃ s' fs exp rest, fev_timers_wake_expired now s = Some (s', fs) ∧
    expired_split now s ts s' fs exp rest.
Proof.
  intros Hh Hnow. pose proof Hh as [Hr Hw]. pose proof (repr_length _ _ _ Hr).
  apply (wake_expired_loop_ok _ now s ts []); [done|done|lia].
Qed.

(** After the expired timers are gone, a timer is either still pending or
    its flag is set. *)
Lemma split_expired now s ts s' fs exp rest l :
  expired_split now s ts s' fs exp rest → bucket_repr (bkt s) (store s) ts →
  pending_or_expired s ts l →
  is_expired s' l = Some (negb (bool_decide (l ∈ rest))).
Proof.
  intros [] Hr (t & Ht & Hcase).
  destruct (relink_lookup _ _ _ _ _ es_relink0 Ht) as (t' & Ht' & _).
  assert (Hrest : l ∈ rest → is_expired s' l = Some false).
  { intros Hl. unfold is_expired. rewrite Ht'. simpl. destruct es_holds0 as [Hr' _].
    by rewrite (repr_pending _ _ _ l t' Hr' Hl Ht'). }
  case_bool_decide as Hin; [by apply Hrest|]. simpl.
  destruct Hcase as [Hl|[Hl He]].
  - rewrite es_perm0, elem_of_app in Hl. destruct Hl as [Hl|]; [|done].
    by apply (proj1 (Forall_forall _ _) es_flag0).
  - unfold is_expired. destruct (es_relink0 l) as [E _]. rewrite (E Hl), Ht. simpl. by rewrite He.
Qed.

(** What [fev_timers_process] does to the bucket: the expired timers [exp] are
    woken up, the caller's own timer leaves, and the poller is armed with the
    earliest of the timers [ts'] that remain. *)
Record processed (now : timespec) s ts l (expired : bool) s' (fs exp ts' : list loc) : Prop := {
  pr_perm : ts ≡ₚ exp ++ ts' ++ (if expired then [] else [l]);
  pr_notin : l ∉ ts';
  pr_inv : tinv s' ts';
  pr_exp : Forall (λ x, key (store s) x <= ts_ns now) exp;
  pr_rest : Forall (λ x, ts_ns now < key (store s) x) ts';
  pr_sorted : StronglySorted (λ a b, key (store s) a <= key (store s) b) exp;
  pr_expired : expired = true ↔ l ∉ ts ∨ l ∈ exp;
  pr_own : expired = false → ts_ns now < key (store s) l;
  pr_flag : Forall (λ x, is_expired s' x = Some true) exp;
  pr_relink : relink ts (store s) (store s');
  pr_wake : ∃ wfs, wake_all (wtrs s) (waiters_of (store s) exp) = Some (wtrs s', wfs) ∧
                   fs = wfs ++ opt_list (head (lockq s));
  pr_lock : lockq s' = tail (lockq s) ∧ held s' = negb (bool_decide (lockq s = []));
}.

(** Removing the caller's own timer if it has not expired. *)
Lemma drop_own_ok s rest l :
  holds s rest → 
  ∃ s2 ts', (if negb (bool_decide (l ∈ rest)) then Some s
             else '(_, b, m) ← bucket_del (bkt s) (store s) l; Some (set_bkt s b m)) = Some s2 ∧
    rest ≡ₚ ts' ++ (if negb (bool_decide (l ∈ rest)) then [] else [l]) ∧ l ∉ ts' ∧ holds s2 ts' ∧
    relink ts' (store s) (store s2) ∧ wtrs s2 = wtrs s ∧ lockq s2 = lockq s ∧ tmin s2 = tmin s.
Proof.
  intros Hh. pose proof Hh as [Hr Hw]. case_bool_decide as Hin; simpl.
  - destruct (del_ok _ _ rest l Hr Hin) as (ret & b' & m' & ts' & -> & Hp & Hr' & Hrel & _).
    simpl. eexists _, ts'. split; [done|]. rewrite <- Permutation_cons_append. split; [done|].
    split; [by apply (removed_del _ _ _ _ _ Hr Hp)|].
    split; [by eapply holds_del|]. done.
  - exists s, rest. rewrite app_nil_r. done.
Qed.

Lemma fev_timers_process_ok now s ts l :
  holds s ts → pending_or_expired s ts l → ts_valid now →
  ∃ expired s' fs exp ts', fev_timers_process now s l = Some (expired, s', fs) ∧
    processed now s ts l expired s' fs exp ts'.
Proof.
  intros Hh Hl Hnow. unfold fev_timers_process.
  set (s0 := set_min (lock s) None).
  destruct (fev_timers_wake_expired_ok now s0 ts Hh Hnow) as (s1 & wfs & exp & rest & -> & Hes).
  cbn [mbind option_bind]. pose proof Hh as [Hr _].
  rewrite (split_expired now s0 ts s1 wfs exp rest l Hes Hr Hl).
  destruct Hes. cbn [mbind option_bind]. destruct es_frame0 as (Hm1 & Hh1 & Hq1 & Ht1).
  destruct (drop_own_ok s1 rest l es_holds0) as (s2 & ts' & -> & Hp & Hni & Hh2 & Hrel2 & Hw2 & Hq2 & Hm2).
  cbn [mbind option_bind].
  destruct (rearm_ok s2 ts' Hh2) as (s3 & E3 & Hinv & Hw3 & Hs3 & Hq3).
  assert (tmin s2 = None) as Hn2 by (by rewrite Hm2, Hm1).
  assert (set_min s2 None = s2) as Hnone by (clear - Hn2; destruct s2; simpl in *; by subst).
  rewrite Hnone in E3. rewrite E3. cbn [mbind option_bind].
  destruct (unlock_released s3 (lockq s)) as (s4 & f & -> & Hb4 & Hm4 & Hs4 & Hw4 & Ht4 & Hq4 & Hf4 & Hh4).
  { rewrite Hq3, Hq2, Hq1. done. }
  set (e := negb (bool_decide (l ∈ rest))) in *.
  eexists e, s4, _, exp, ts'. split; [done|].
  assert (Hsub : ∀ x, x ∈ ts' → x ∈ rest) by (intros x Hx; rewrite Hp, elem_of_app; by left).
  assert (Hsub' : ∀ x, x ∈ rest → x ∈ ts) by (intros x Hx; rewrite es_perm0, elem_of_app; by right).
  assert (Hdisj : ∀ x, x ∈ exp → x ∉ rest).
  { intros x Hx. pose proof (repr_nodup _ _ _ Hr) as Hnd. rewrite es_perm0 in Hnd.
    apply NoDup_app in Hnd as (_ & Hd & _). by apply Hd. }
  split.
  - rewrite es_perm0, Hp at 1. done.
  - done.
  - unfold tinv, holds, armed in *. by rewrite Hb4, Hm4, Hs4, Hw4, Ht4.
  - done.
  - apply Forall_forall. intros x Hx. by apply (proj1 (Forall_forall _ _) es_rest0), Hsub.
  - done.
  - unfold e. rewrite negb_true_iff, bool_decide_eq_false. rewrite es_perm0, elem_of_app.
    split; [|naive_solver]. intros. destruct (decide (l ∈ exp)); naive_solver.
  - unfold e. rewrite negb_false_iff, bool_decide_eq_true.
    apply (proj1 (Forall_forall _ _) es_rest0).
  - apply Forall_forall. intros x Hx. unfold is_expired. rewrite Hs4, Hs3.
    destruct (Hrel2 x) as [-> _]; [|by intros ?%Hsub%(Hdisj _ Hx)].
    by apply (proj1 (Forall_forall _ _) es_flag0).
  - rewrite Hs4, Hs3. etrans; [exact es_relink0|]. eapply relink_mono; [|exact Hrel2]. eauto.
  - exists wfs. rewrite Hf4, Hw4, Hw3, Hw2. done.
  - done.
Qed.
End correctness.

(** ** A concrete bucket: the heap of [Binheap], waiters 11 and 12 blocked,
    waiter 13 not yet, fiber 7 queued on the lock *)

Definition ex_waiter (ww : bool) (f : loc) : fev_waiter :=
  mk_waiter FEV_WAITER_NONE ww FEV_WAITER_NONE false true f.
Definition ex_waiters : gmap loc fev_waiter :=
  {[ 11%positive := ex_waiter true 21; 12%positive := ex_waiter true 22;
     13%positive := ex_waiter false 23; 14%positive := ex_waiter false 24 ]}.
Definition ex_tstate : tstate Z heap_bucket :=
  mk_tstate ex_bucket (Some 2%positive) false [7%positive] ex_store ex_waiters
    [mk_timespec 10 0].

Lemma ex_timer_waiter l t : ex_store !! l = Some t → is_Some (ex_waiters !! waiter t).
Proof.
  assert (H : map_Forall (λ _ t, is_Some (ex_waiters !! waiter t)) ex_store)
    by (apply (bool_decide_eq_true_1 _); reflexivity).
  apply H.
Qed.

Lemma ex_tinv : tinv ex_tstate [1; 2; 3]%positive.
Proof.
  split; [split; [exact ex_repr|]|].
  - intros l t _ Ht. exact (ex_timer_waiter l t Ht).
  - split; [done|]. split; [done|]. eexists. split; [vm_compute; reflexivity|done].
Qed.

(** ** Properties *)

Section properties.
Context {X B : Type} `{TB : TimersBucket X B}.

(** [fev_timers_add] keeps the poller armed: it either reports [-ENOMEM]
    and leaves the bucket as it was, or the bucket holds the new timer too
    and the poller's timeout and [bucket->min] are those of the earliest
    timer. It never touches a waiter, and it releases the bucket's lock,
    handing it to the first fiber queued on it. *)
Theorem timers_add_keeps_armed ok (s : tstate X B) ts l t :
  tinv s ts → l ∉ ts → store s !! l = Some t → ts_valid (abs_time t) →
  other_waiters (store s) ts t → is_Some (wtrs s !! waiter t) →
  Z.of_nat (length ts) < SIZE_MAX / 16 →
  ∃ ret s' fs, fev_timers_add ok s l = Some (ret, s', fs) ∧ released s s' fs ∧
    wtrs s' = wtrs s ∧ relink (l :: ts) (store s) (store s') ∧
    ((ret = - ENOMEM ∧ ok = false ∧ timers_add_can_fail = true ∧ tinv s' ts) ∨
     (ret = 0 ∧ tinv s' (l :: ts))).
Proof. apply fev_timers_add_ok. Qed.

(** [fev_timers_del] of a timer that is pending or has already expired
    leaves the bucket without it and with all the others, and the poller
    armed with the earliest of them ([bucket->min] is null when none is
    left), so that the fiber may return and reuse the timer's memory. *)
Theorem timers_del_keeps_armed (s : tstate X B) ts l :
  tinv s ts → pending_or_expired s ts l →
  ∃ s' fs ts', fev_timers_del s l = Some (s', fs) ∧ released s s' fs ∧ removed ts l ts' ∧
    tinv s' ts' ∧ wtrs s' = wtrs s ∧ relink ts (store s) (store s').
Proof. apply fev_timers_del_ok. Qed.

(** C9: [fev_timers_process] terminates and removes exactly the timers whose
    deadline has passed, in the order of their deadlines, marks them expired
    and wakes their waiters in that order; the fibers it makes runnable are
    those whose waiter was blocked, followed by the next owner of the lock.
    The caller's own timer is removed too and the result says whether it had
    expired; the poller is armed again with the earliest timer left. *)
Theorem timers_process_wakes_expired now (s : tstate X B) ts l :
  holds s ts → pending_or_expired s ts l → ts_valid now →
  ∃ expired s' fs exp ts', fev_timers_process now s l = Some (expired, s', fs) ∧
    processed now s ts l expired s' fs exp ts'.
Proof. apply fev_timers_process_ok. Qed.
End properties.

Lemma timers_add_keeps_armed_witness :
  ∃ ret s' fs, fev_timers_add true ex_tstate 4%positive = Some (ret, s', fs) ∧
    tinv s' [4; 1; 2; 3]%positive.
Proof.
  destruct (timers_add_keeps_armed true ex_tstate [1; 2; 3]%positive 4%positive (ex_timer 14 5 0))
    as (ret & s' & fs & E & _ & _ & _ & [(_ & F & _)|(_ & I)]).
  - exact ex_tinv.
  - apply (bool_decide_eq_true_1 _). reflexivity.
  - vm_compute. reflexivity.
  - unfold ts_valid, FEV_NSECS_PER_SEC, LONG_MAX. simpl. lia.
  - intros l' t' Hl' Ht'. rewrite list_elem_of_In in Hl'. simpl in Hl'.
    destruct Hl' as [<-|[<-|[<-|[]]]]; injection Ht' as <-; discriminate.
  - eexists. vm_compute. reflexivity.
  - vm_compute. reflexivity.
  - discriminate F.
  - exists ret, s', fs. split; [exact E|exact I].
Defined.

Lemma ex_pending : pending_or_expired ex_tstate [1; 2; 3]%positive 2%positive.
Proof.
  eexists. split; [vm_compute; reflexivity|]. left. apply (bool_decide_eq_true_1 _). reflexivity.
Qed.

Lemma timers_del_keeps_armed_witness :
  ∃ s' fs ts', fev_timers_del ex_tstate 2%positive = Some (s', fs) ∧ tinv s' ts'.
Proof.
  destruct (timers_del_keeps_armed ex_tstate [1; 2; 3]%positive 2%positive ex_tinv ex_pending)
    as (s' & fs & ts' & E & _ & _ & I & _).
  exists s', fs, ts'. split; [exact E|exact I].
Defined.

Lemma timers_process_wakes_expired_witness :
  ∃ expired s' fs exp ts',
    fev_timers_process (mk_timespec 20 0) ex_tstate 2%positive = Some (expired, s', fs) ∧
    processed (mk_timespec 20 0) ex_tstate [1; 2; 3]%positive 2%positive expired s' fs exp ts'.
Proof.
  apply (timers_process_wakes_expired (mk_timespec 20 0) ex_tstate [1; 2; 3]%positive 2%positive).
  - exact (proj1 ex_tinv).
  - exact ex_pending.
  - unfold ts_valid, FEV_NSECS_PER_SEC, LONG_MAX. simpl. lia.
Defined.

(** The concrete run: timers 2 (10 s) and 3 (20 s) expire; waiter 12 was
    blocked and its fiber 22 is made runnable, waiter 13 was not, and fiber 7
    gets the lock. *)
Example ex_process :
  (λ r, (r.1.1, r.2, timeouts r.1.2, tmin r.1.2)) <$>
    fev_timers_process (mk_timespec 20 0) ex_tstate 2%positive
  = Some (true, [22; 7]%positive, [mk_timespec 30 0; mk_timespec 10 0], Some 1%positive).
Proof. vm_compute. reflexivity. Qed.
