(* ===== verification/TimedWait.v ===== *)
(** [fev_timed_wait] of [src/src/fev_timers.c] and [fev_process_timer_fd] of
    [src/src/fev_poller_epoll.c], as a step system.

    Any number of fibers run [fev_timed_wait] on one bucket, each with a timer
    on its stack, while other threads wake their waiters and the poller reads
    [bucket->min]. The critical sections of the bucket's internal lock are
    atomic with respect to each other, but the poller does not take that lock:
    in [fev_timers_process] every iteration of the wake-up loop is a step of its
    own, and between two of them the poller, the wakers and the fibers that were
    just woken up may run. When [fev_timed_wait] returns the timer disappears
    from the store, so that a later access to it is undefined. *)

From S2P Require Import Prelude Time TimersIntf Binheap Waiter Timers.

Local Open Scope Z_scope.

(** Program counter of a fiber in [fev_timed_wait]. *)
Inductive tpc :=
| TAdded      (* [fev_timers_add] succeeded, before [fev_waiter_wait] *)
| TSwitched   (* in [fev_waiter_wait], the post operation has not run yet *)
| TBlocked    (* the post operation has run *)
| TProcess.   (* inside [fev_timers_process] *)

#[export] Instance tpc_eq_dec : EqDecision tpc.
Proof. solve_decision. Defined.

Section system.
Context {X B : Type} `{Ops : !TimersBucketOps X B}.

(** [fibers]: the fibers inside [fev_timed_wait], by the address of their
    timer. [owner]: the fiber that is in the loop of [fev_timers_process] and
    the time it has read. [returned] records the deadline and the result of
    every finished call, [clk] the latest time read; both are ghost state. *)
Record twstate := mk_tw {
  ts_ : tstate X B;
  fibers : gmap loc tpc;
  owner : option (loc * timespec);
  returned : list (timespec * Z);
  clk : Z;
}.

Implicit Types s : twstate.

Definition with_ts s x := mk_tw x (fibers s) (owner s) (returned s) (clk s).
Definition with_fiber s l pc := mk_tw (ts_ s) (<[l := pc]> (fibers s)) (owner s) (returned s) (clk s).
Definition with_owner s o := mk_tw (ts_ s) (fibers s) o (returned s) (clk s).

(** Returning from [fev_timed_wait]: the stack frame with the timer dies. *)
Definition return_ s (l : loc) (ret : Z) : option twstate :=
  t ← store (ts_ s) !! l;
  Some (mk_tw (set_bkt (ts_ s) (bkt (ts_ s)) (delete l (store (ts_ s)))) (delete l (fibers s))
          (owner s) ((abs_time t, ret) :: returned s) (clk s)).

(** The waiter a fiber passed to [fev_timed_wait]. *)
Definition waiter_at s (l : loc) : option (loc * fev_waiter) :=
  t ← store (ts_ s) !! l; w ← wtrs (ts_ s) !! waiter t; Some (waiter t, w).

Definition set_waiter s (a : loc) (w : fev_waiter) : twstate :=
  with_ts s (set_wtrs (ts_ s) (<[a := w]> (wtrs (ts_ s)))).

(** [fev_timed_wait] up to the call of [fev_waiter_wait]; [w] is the waiter
    as the caller has prepared it. *)
Definition tw_start (ok : bool) s (l a : loc) (w : fev_waiter) (abs_time : timespec) : option twstate :=
  FEV_ASSERT negb (do_wake w);
  let t := mk_timer abs_time link_init a in
  let x := set_bkt (ts_ s) (bkt (ts_ s)) (<[l := t]> (store (ts_ s))) in
  let x := set_wtrs x (<[a := w]> (wtrs x)) in
  '(ret, x, _) ← fev_timers_add ok x l;
  let s := with_ts s x in
  if timers_add_can_fail && (ret <? 0) then
    FEV_ASSERT (ret =? - ENOMEM);
    return_ s l ret
  else Some (with_fiber s l TAdded).

(** [fev_waiter_wait] up to the context switch. *)
Definition tw_wait s (l : loc) : option twstate :=
  '(a, w) ← waiter_at s l;
  FEV_ASSERT negb (do_wake w);
  Some (with_fiber (set_waiter s a (set_wait_for_post w true)) l TSwitched).

(** The post operation of that context switch. *)
Definition tw_post s (l : loc) : option twstate :=
  '(a, w) ← waiter_at s l;
  Some (with_fiber (set_waiter s a (fev_waiter_enable_wake_ups w).1) l TBlocked).

(** Another component wakes the waiter up because the object is ready. *)
Definition tw_ready s (l : loc) : option twstate :=
  '(a, w) ← waiter_at s l;
  '(_, w) ← fev_waiter_wake w FEV_WAITER_READY;
  Some (set_waiter s a w).

(** The poller handles a timeout event of the bucket. *)
Definition fev_process_timer_fd s : option (twstate * option loc) :=
  match tmin (ts_ s) with
  | None => Some (s, None)
  | Some min =>
      t ← store (ts_ s) !! min;
      w ← wtrs (ts_ s) !! waiter t;
      '(result, w) ← fev_waiter_wake w FEV_WAITER_TIMED_OUT_CHECK;
      Some (set_waiter s (waiter t) w,
            if decide (result = FEV_WAITER_SET_AND_WAKE_UP) then Some (fiber w) else None)
  end.

(** The rest of [fev_timed_wait] after [fev_waiter_wait] returned; in the last
    case [fev_timers_process] is entered: it takes the lock, clears
    [bucket->min] and reads the clock. *)
Definition tw_resume s (l : loc) (now : timespec) : option twstate :=
  '(_, w) ← waiter_at s l;
  match wake_reason w with
  | FEV_WAITER_NONE => None
  | FEV_WAITER_READY =>
      '(x, _) ← fev_timers_del (ts_ s) l; return_ (with_ts s x) l 0
  | FEV_WAITER_TIMED_OUT_NO_CHECK => return_ s l (- ETIMEDOUT)
  | FEV_WAITER_TIMED_OUT_CHECK =>
      let s := with_fiber (with_ts s (set_min (lock (ts_ s)) None)) l TProcess in
      Some (mk_tw (ts_ s) (fibers s) (Some (l, now)) (returned s) (Z.max (clk s) (ts_ns now)))
  end.

(** One step of [fev_timers_process]: an iteration of the loop, or what
    follows it. *)
Definition tw_process s : option twstate :=
  '(l, now) ← owner s;
  r ← wake_expired_iter now (ts_ s);
  match r with
  | Some (x, _) => Some (with_ts s x)
  | None =>
      let x := ts_ s in
      expired ← is_expired x l;
      x ← (if expired : bool then Some x
           else '(_, b, m) ← bucket_del (bkt x) (store x) l; Some (set_bkt x b m));
      x ← (if negb (bucket_empty (bkt x)) then
             min ← bucket_min (bkt x); set_timeout (set_min x (Some min)) min
           else Some x);
      let '(x, _) := unlock x in
      return_ (with_owner (with_ts s x) None) l (if expired : bool then - ETIMEDOUT else - EAGAIN)
  end.

Inductive twlabel :=
| LStart (ok : bool) (l a : loc) (w : fev_waiter) (abs_time : timespec)
| LWait (l : loc) | LSwitch (l : loc) | LReady (l : loc) | LTimerFd
| LResume (l : loc) (now : timespec) | LProcess.

(** A waiter as the callers of [fev_timed_wait] prepare it. *)
Definition fresh_waiter (w : fev_waiter) : bool :=
  bool_decide (reason w = FEV_WAITER_NONE) && negb (do_wake w) && wait_for_wake w.

Definition at_pc s l pc : bool := bool_decide (fibers s !! l = Some pc).

(** When a step may be taken: the addresses of a new call are not in use, the
    bucket's lock is free for the steps that take it, and the fiber leaves
    [fev_waiter_wait] when nobody accesses its waiter any more. *)
Definition tw_enabled s (lb : twlabel) : bool :=
  match lb with
  | LStart _ l a w abs_time =>
      bool_decide (fibers s !! l = None) && bool_decide (store (ts_ s) !! l = None) &&
      bool_decide (map_Forall (λ _ t, waiter t ≠ a) (store (ts_ s))) &&
      fresh_waiter w && bool_decide (ts_valid abs_time) &&
      (Z.of_nat (size (store (ts_ s))) <? SIZE_MAX / 16) && negb (held (ts_ s))
  | LWait l => at_pc s l TAdded
  | LSwitch l => at_pc s l TSwitched
  | LReady l => bool_decide (is_Some (fibers s !! l))
  | LTimerFd => true
  | LResume l now =>
      at_pc s l TBlocked && bool_decide (ts_valid now) &&
      match waiter_at s l with
      | Some (_, w) =>
          negb (wait_for_post w) && negb (wait_for_wake w) &&
          (bool_decide (wake_reason w = FEV_WAITER_TIMED_OUT_NO_CHECK) || negb (held (ts_ s)))
      | None => true
      end
  | LProcess => bool_decide (is_Some (owner s))
  end.

Definition tw_step s (lb : twlabel) : option twstate :=
  match lb with
  | LStart ok l a w abs_time => tw_start ok s l a w abs_time
  | LWait l => tw_wait s l
  | LSwitch l => tw_post s l
  | LReady l => tw_ready s l
  | LTimerFd => '(s, _) ← fev_process_timer_fd s; Some s
  | LResume l now => tw_resume s l now
  | LProcess => tw_process s
  end.

Definition tw_next s lb : option twstate := if tw_enabled s lb then tw_step s lb else None.

Definition tw_init : twstate :=
  mk_tw (mk_tstate bucket_init None false [] ∅ ∅ []) ∅ None [] 0.
End system.
Arguments twstate : clear implicits.

(** ** The invariant *)

Section invariant.
Context {X B : Type} `{TB : TimersBucket X B}.
Implicit Types (s : twstate X B) (x : tstate X B) (ts : list loc) (m : timer_store X).

(** The waiter of a fiber at [pc]: nobody may wake the fiber up before the post
    operation; afterwards the wake-up has been issued exactly if the reason
    is set. *)
Definition waiter_ok (pc : tpc) (w : fev_waiter) : Prop :=
  (wait_for_wake w = false → reason w ≠ FEV_WAITER_NONE) ∧
  match pc with
  | TAdded | TSwitched => do_wake w = false
  | TBlocked | TProcess =>
      if decide (reason w = FEV_WAITER_NONE) then do_wake w = true else wake_reason w = reason w
  end.

Definition pending_ok (clk : Z) ts l (t : fev_timer X) (w : fev_waiter) : Prop :=
  if decide (l ∈ ts) then reason w ≠ FEV_WAITER_TIMED_OUT_NO_CHECK
  else timer_is_expired t = true ∧ ts_ns (abs_time t) <= clk ∧ reason w ≠ FEV_WAITER_NONE.

(** A fiber in [fev_timed_wait]: its timer and its waiter exist, and the timer
    is in the bucket, or it has expired and the waiter has been woken up. *)
Definition client x (clk : Z) ts l (pc : tpc) : Prop :=
  ∃ t w, store x !! l = Some t ∧ wtrs x !! waiter t = Some w ∧
    pending_ok clk ts l t w ∧ waiter_ok pc w.

Definition waiter_inj m : Prop :=
  ∀ l1 l2 t1 t2, m !! l1 = Some t1 → m !! l2 = Some t2 → waiter t1 = waiter t2 → l1 = l2.

Definition result_ok (clk : Z) (d : timespec) (ret : Z) : Prop :=
  ret = 0 ∨ ret = - EAGAIN ∨ ret = - ENOMEM ∨ (ret = - ETIMEDOUT ∧ ts_ns d <= clk).

Definition owner_ok s ts : Prop :=
  match owner s with
  | None => held (ts_ s) = false ∧ armed (ts_ s) ts
  | Some (l, now) => held (ts_ s) = true ∧ tmin (ts_ s) = None ∧ fibers s !! l = Some TProcess ∧
                     ts_valid now ∧ ts_ns now <= clk s
  end.

Record twinv s ts : Prop := {
  ti_holds : holds (ts_ s) ts;
  ti_dom : ∀ l, is_Some (store (ts_ s) !! l) ↔ is_Some (fibers s !! l);
  ti_client : ∀ l pc, fibers s !! l = Some pc → client (ts_ s) (clk s) ts l pc;
  ti_inj : waiter_inj (store (ts_ s));
  ti_lockq : lockq (ts_ s) = [];
  ti_owner : owner_ok s ts;
  ti_ret : ∀ d r, (d, r) ∈ returned s → result_ok (clk s) d r;
}.

(** *** Waiters *)

Lemma waiter_ok_wake pc w r res w' :
  fev_waiter_wake w r = Some (res, w') → waiter_ok pc w → waiter_ok pc w' ∧
    reason w' = (if decide (reason w = FEV_WAITER_NONE) then r else reason w) ∧ reason w' ≠ FEV_WAITER_NONE.
Proof.
  unfold fev_waiter_wake, waiter_ok. case_bool_decide as Hr; [|done].
  destruct (decide (reason w = FEV_WAITER_NONE)) as [E|E]; intros Hw [Hf Hpc].
  - simpl in Hw. destruct (do_wake w) eqn:Ed; simplify_eq/=; (split; [split; [done|]|done]);
      destruct pc; try done; simplify_eq/=; rewrite decide_False by done; done.
  - simplify_eq. split; [|done]. split; [done|]. destruct pc; try done; by rewrite decide_False.
Qed.

Lemma waiter_ok_post w :
  waiter_ok TSwitched w → waiter_ok TBlocked (fev_waiter_enable_wake_ups w).1 ∧
    reason (fev_waiter_enable_wake_ups w).1 = reason w.
Proof.
  unfold waiter_ok, fev_waiter_enable_wake_ups. intros [Hf Hd]. simpl.
  destruct (decide (reason w = FEV_WAITER_NONE)) as [E|E].
  - rewrite decide_False by tauto. simpl. rewrite (decide_True _ _ E). done.
  - rewrite (decide_True _ _ E). simpl. rewrite (decide_False _ _ E). done.
Qed.

Lemma pending_ok_reason clk ts l t w w' :
  pending_ok clk ts l t w → 
  (reason w' = reason w ∨ (reason w = FEV_WAITER_NONE ∧ reason w' ≠ FEV_WAITER_TIMED_OUT_NO_CHECK)) →
  pending_ok clk ts l t w'.
Proof.
  unfold pending_ok. case_decide; intros Hp [E|[E Hne]]; rewrite ?E; [done..|]. by destruct Hp as (_ & _ & ?).
Qed.

(** *** Frames *)

Lemma relink_sym ls m m' : relink ls m m' → relink ls m' m.
Proof. intros H l. destruct (H l). split; [|done]. intros Hl. symmetry; auto. Qed.

Lemma waiter_inj_relink ls m m' : relink ls m m' → waiter_inj m → waiter_inj m'.
Proof.
  intros Hr Hi l1 l2 t1 t2 H1 H2 E. apply relink_sym in Hr.
  destruct (relink_lookup _ _ _ _ _ Hr H1) as (t1' & ? & _ & E1).
  destruct (relink_lookup _ _ _ _ _ Hr H2) as (t2' & ? & _ & E2).
  eapply Hi; [done..|congruence].
Qed.

Lemma waiter_inj_delete m l : waiter_inj m → waiter_inj (delete l m).
Proof. intros Hi l1 l2 t1 t2 [_ H1]%lookup_delete_Some [_ H2]%lookup_delete_Some. by apply Hi. Qed.

Lemma relink_dom ls m m' l : relink ls m m' → is_Some (m' !! l) ↔ is_Some (m !! l).
Proof. intros Hr. destruct (Hr l) as [_ E]. destruct (m !! l), (m' !! l); simplify_eq/=; split; eauto; by intros []. Qed.

Lemma client_frame x x' c c' ts ts' ls l pc :
  client x c ts l pc → relink ls (store x) (store x') → (l ∈ ls → l ∈ ts) →
  (l ∈ ts ↔ l ∈ ts') → wtrs x' = wtrs x → c <= c' → client x' c' ts' l pc.
Proof.
  intros (t & w & Ht & Hw & Hp & Hok) Hr Hls Hts Hx Hc.
  destruct (relink_lookup _ _ _ _ _ Hr Ht) as (t' & Ht' & Ea & Ew).
  exists t', w. rewrite Hx, Ew. split; [done|]. split; [done|]. split; [|done].
  unfold pending_ok in *. destruct (decide (l ∈ ts)) as [Hl|Hl].
  - by rewrite decide_True by tauto.
  - rewrite decide_False by tauto. destruct Hp as (He & Hk & ?). destruct (Hr l) as [E _].
    rewrite E in Ht' by tauto. simplify_eq. split; [done|]. split; [lia|done].
Qed.

(** Returning removes a timer that is not in the bucket. *)
Lemma twinv_return s ts l ret t :
  holds (ts_ s) ts → l ∉ ts → store (ts_ s) !! l = Some t →
  (∀ l', l' ≠ l → is_Some (store (ts_ s) !! l') ↔ is_Some (fibers s !! l')) →
  (∀ l' pc, l' ≠ l → fibers s !! l' = Some pc → client (ts_ s) (clk s) ts l' pc) →
  waiter_inj (store (ts_ s)) → lockq (ts_ s) = [] → owner_ok s ts →
  (∀ now, owner s ≠ Some (l, now)) →
  (∀ d r, (d, r) ∈ returned s → result_ok (clk s) d r) →
  result_ok (clk s) (abs_time t) ret →
  ∃ s', return_ s l ret = Some s' ∧ twinv s' ts.
Proof.
  intros [Hr Hw] Hl Ht Hdom Hcl Hinj Hq Hown Hnown Hret Hres. unfold return_. rewrite Ht. simpl.
  eexists. split; [done|]. 
  assert (Hsame : ∀ l', l' ∈ ts → delete l (store (ts_ s)) !! l' = store (ts_ s) !! l')
    by (intros l' Hl'; apply lookup_delete_ne; congruence).
  split; simpl.
  - split; simpl; [by eapply repr_frame|]. intros l' t' Hl' Ht'. rewrite Hsame in Ht' by done. eauto.
  - intros l'. destruct (decide (l = l')) as [<-|Hne].
    + rewrite !lookup_delete_eq. done.
    + rewrite !lookup_delete_ne by done. auto.
  - intros l' pc [Hne Hpc]%lookup_delete_Some.
    destruct (Hcl l' pc) as (t' & w & ? & ?); [congruence|done|].
    exists t', w. simpl. rewrite lookup_delete_ne by done. done.
  - by apply waiter_inj_delete.
  - done.
  - unfold owner_ok in *; simpl. destruct (owner s) as [[l' now]|].
    + rewrite lookup_delete_ne; [done|]. intros <-. by eapply Hnown.
    + destruct Hown as [? Ha]. split; [done|]. unfold armed in *. simpl.
      destruct (tmin (ts_ s)) as [l'|]; [|done]. destruct Ha as (Hne & Hm & Hex).
      destruct (repr_min _ _ _ Hr Hne) as (l0 & Hm0 & Hin & _).
      assert (l0 = l') as -> by congruence. by rewrite Hsame.
  - intros d r [[=-> ->]|Hin]%elem_of_cons; eauto.
Qed.

(** Changing a waiter affects the client it belongs to only. *)
Lemma twinv_set_waiter s ts l t w w' pc pc' :
  twinv s ts → fibers s !! l = Some pc → store (ts_ s) !! l = Some t →
  wtrs (ts_ s) !! waiter t = Some w → waiter_ok pc' w' → pending_ok (clk s) ts l t w' →
  (pc' = pc ∨ pc ≠ TProcess) →
  twinv (with_fiber (set_waiter s (waiter t) w') l pc') ts.
Proof.
  intros [[Hr Hwx] Hdom Hcl Hinj Hq Hown Hret] Hpc Ht Hw Hok Hp Hnp. split; simpl; try done.
  - split; simpl; [done|]. intros l' t' Hl' Ht'. destruct (decide (waiter t = waiter t')) as [->|];
      [rewrite lookup_insert_eq; eauto|rewrite lookup_insert_ne by done; eauto].
  - intros l'. rewrite Hdom. destruct (decide (l = l')) as [<-|];
      [rewrite lookup_insert_eq, Hpc; split; eauto|by rewrite lookup_insert_ne].
  - intros l' pc0. destruct (decide (l = l')) as [<-|Hne].
    + rewrite lookup_insert_eq. intros [=<-]. exists t, w'. simpl. by rewrite lookup_insert_eq.
    + rewrite lookup_insert_ne by done. intros Hpc0. destruct (Hcl l' pc0 Hpc0) as (t' & w0 & Ht' & Hw' & ?).
      exists t', w0. simpl. split; [done|]. rewrite lookup_insert_ne; [done|].
      intros E. apply Hne. by eapply Hinj.
  - unfold owner_ok in *. simpl. destruct (owner s) as [[l' now]|]; [|done].
    destruct (decide (l = l')) as [<-|]; [rewrite lookup_insert_eq|by rewrite lookup_insert_ne].
    destruct Hown as (? & ? & Hpc' & ?). rewrite Hpc in Hpc'. simplify_eq. by destruct Hnp as [->|].
Qed.

(** *** The steps that only touch a waiter *)

Lemma client_lookup s ts l pc :
  twinv s ts → fibers s !! l = Some pc →
  ∃ t w, store (ts_ s) !! l = Some t ∧ wtrs (ts_ s) !! waiter t = Some w ∧
    waiter_at s l = Some (waiter t, w) ∧ pending_ok (clk s) ts l t w ∧ waiter_ok pc w.
Proof.
  intros Hi Hpc. destruct (ti_client _ _ Hi l pc Hpc) as (t & w & Ht & Hw & ?).
  exists t, w. unfold waiter_at. rewrite Ht. simpl. rewrite Hw. done.
Qed.

Lemma twinv_wait s ts l :
  twinv s ts → fibers s !! l = Some TAdded → ∃ s', tw_wait s l = Some s' ∧ twinv s' ts.
Proof.
  intros Hi Hpc. destruct (client_lookup _ _ _ _ Hi Hpc) as (t & w & Ht & Hw & Hat & Hp & Hok).
  unfold tw_wait. rewrite Hat. simpl. rewrite (proj2 Hok). simpl. eexists. split; [done|].
  eapply twinv_set_waiter; [done..| | |by right]; done.
Qed.

Lemma twinv_post s ts l :
  twinv s ts → fibers s !! l = Some TSwitched → ∃ s', tw_post s l = Some s' ∧ twinv s' ts.
Proof.
  intros Hi Hpc. destruct (client_lookup _ _ _ _ Hi Hpc) as (t & w & Ht & Hw & Hat & Hp & Hok).
  unfold tw_post. rewrite Hat. cbn [mbind option_bind]. eexists. split; [done|].
  destruct (waiter_ok_post w Hok) as [Hok' Hre].
  eapply twinv_set_waiter; [done..| |by right]. eapply pending_ok_reason; [done|by left].
Qed.

(** Waking the waiter of a live client with a reason other than
    [FEV_WAITER_TIMED_OUT_NO_CHECK]. *)
Lemma twinv_wake s ts l t w pc r res w' :
  twinv s ts → fibers s !! l = Some pc → store (ts_ s) !! l = Some t →
  wtrs (ts_ s) !! waiter t = Some w → pending_ok (clk s) ts l t w → waiter_ok pc w →
  fev_waiter_wake w r = Some (res, w') → r ≠ FEV_WAITER_TIMED_OUT_NO_CHECK →
  twinv (set_waiter s (waiter t) w') ts.
Proof.
  intros Hi Hpc Ht Hw Hp Hok Hwake Hr.
  destruct (waiter_ok_wake _ _ _ _ _ Hwake Hok) as (Hok' & Hre & _).
  replace (set_waiter s (waiter t) w') with (with_fiber (set_waiter s (waiter t) w') l pc).
  2: { unfold with_fiber, set_waiter, with_ts; simpl. by rewrite (insert_id (fibers s)). }
  eapply twinv_set_waiter; [done..| |by left]. eapply pending_ok_reason; [done|].
  rewrite Hre. destruct (decide (reason w = FEV_WAITER_NONE)); [right|left]; done.
Qed.

Lemma twinv_ready s ts l :
  twinv s ts → is_Some (fibers s !! l) → ∃ s', tw_ready s l = Some s' ∧ twinv s' ts.
Proof.
  intros Hi [pc Hpc]. destruct (client_lookup _ _ _ _ Hi Hpc) as (t & w & Ht & Hw & Hat & Hp & Hok).
  unfold tw_ready. rewrite Hat. cbn [mbind option_bind].
  destruct (fev_waiter_wake_Some w FEV_WAITER_READY) as (res & w' & Hwake); [done|].
  rewrite Hwake. eexists. split; [done|]. by eapply twinv_wake.
Qed.

(** The timer [bucket->min] points to is in the bucket. *)
Lemma tmin_live s ts l : twinv s ts → tmin (ts_ s) = Some l → l ∈ ts ∧ is_Some (fibers s !! l).
Proof.
  intros Hi Hm. pose proof (ti_owner _ _ Hi) as Ho. unfold owner_ok in Ho.
  destruct (owner s) as [[??]|]; [destruct Ho; naive_solver|]. destruct Ho as [_ Ha].
  unfold armed in Ha. rewrite Hm in Ha. destruct Ha as (Hne & Hb & t & Ht & _).
  destruct (ti_holds _ _ Hi) as [Hr _].
  destruct (repr_min _ _ _ Hr Hne) as (l0 & Hm0 & Hin & _).
  assert (l0 = l) as -> by congruence. split; [done|]. apply (ti_dom _ _ Hi). eauto.
Qed.

Lemma twinv_timer_fd s ts :
  twinv s ts → ∃ s' f, fev_process_timer_fd s = Some (s', f) ∧ twinv s' ts.
Proof.
  intros Hi. unfold fev_process_timer_fd. destruct (tmin (ts_ s)) as [l|] eqn:Hm; [|eauto].
  destruct (tmin_live _ _ _ Hi Hm) as [_ [pc Hpc]].
  destruct (client_lookup _ _ _ _ Hi Hpc) as (t & w & Ht & Hw & _ & Hp & Hok).
  rewrite Ht. cbn [mbind option_bind]. rewrite Hw. cbn [mbind option_bind].
  destruct (fev_waiter_wake_Some w FEV_WAITER_TIMED_OUT_CHECK) as (res & w' & Hwake); [done|].
  rewrite Hwake. eexists _, _. split; [done|]. by eapply twinv_wake.
Qed.

(** *** The steps that change the bucket *)

Lemma released_unlocked x x' fs : lockq x = [] → released x x' fs → held x' = false ∧ lockq x' = [].
Proof. intros Hq (_ & Hq' & Hh). rewrite Hq in *. done. Qed.

Lemma lock_free s ts : twinv s ts → held (ts_ s) = false → owner s = None ∧ armed (ts_ s) ts.
Proof.
  intros Hi Hh. pose proof (ti_owner _ _ Hi) as Hown. unfold owner_ok in Hown.
  destruct (owner s) as [[??]|]; destruct Hown; [congruence|done].
Qed.

Lemma pending_ok_pending x c ts l t w :
  store x !! l = Some t → pending_ok c ts l t w → pending_or_expired x ts l.
Proof. intros Ht Hp. exists t. split; [done|]. unfold pending_ok in Hp. case_decide; naive_solver. Qed.

(** The state in which [fev_timers_add] is called. *)
Definition new_timer s (l a : loc) (w : fev_waiter) (abs : timespec) : tstate X B :=
  set_wtrs (set_bkt (ts_ s) (bkt (ts_ s)) (<[l := mk_timer abs link_init a]> (store (ts_ s))))
    (<[a := w]> (wtrs (ts_ s))).

Lemma new_timer_ok s ts l a w abs :
  twinv s ts → store (ts_ s) !! l = None → map_Forall (λ _ t, waiter t ≠ a) (store (ts_ s)) →
  armed (ts_ s) ts → l ∉ ts ∧ tinv (new_timer s l a w abs) ts ∧
  (∀ l' pc, fibers s !! l' = Some pc → client (new_timer s l a w abs) (clk s) ts l' pc) ∧
  waiter_inj (store (new_timer s l a w abs)).
Proof.
  intros [[Hr Hwx] Hdom Hcl Hinj _ _ _] Hsl Hfa Ha.
  assert (Hlts : l ∉ ts).
  { intros Hin. destruct (repr_lookup _ _ _ _ Hr Hin) as (? & ? & _). congruence. }
  assert (Hst : ∀ l', l' ∈ ts → store (new_timer s l a w abs) !! l' = store (ts_ s) !! l')
    by (intros l' Hl'; simpl; apply lookup_insert_ne; congruence).
  split; [done|]. split; [split|split].
  - split; [by eapply repr_frame|]. intros l' t' Hl' Ht'. rewrite Hst in Ht' by done. simpl.
    rewrite lookup_insert_ne; [eauto|]. intros E. by apply (Hfa l' t').
  - unfold armed in *. destruct (tmin (ts_ s)) as [l'|] eqn:Em; simpl; rewrite Em; [|done].
    destruct Ha as (? & Hm & t' & Ht' & ?). split; [done|]. split; [done|]. exists t'.
    rewrite lookup_insert_ne; [done|congruence].
  - intros l' pc Hpc. destruct (Hcl l' pc Hpc) as (t' & w' & Ht' & Hw' & ?). exists t', w'. simpl.
    rewrite !lookup_insert_ne; [done| |congruence]. intros E. by apply (Hfa l' t').
  - intros l1 l2 t1 t2. simpl. rewrite !lookup_insert_Some.
    intros [[<- <-]|[? H1]] [[<- <-]|[? H2]]; simpl; try done.
    + intros E. by destruct (Hfa l2 t2).
    + intros E. by destruct (Hfa l1 t1).
    + by apply Hinj.
Qed.

Lemma new_timer_waiters s ts l a w abs :
  map_Forall (λ _ t, waiter t ≠ a) (store (ts_ s)) → l ∉ ts →
  other_waiters (store (new_timer s l a w abs)) ts (mk_timer abs link_init a).
Proof.
  intros Hfa Hl l' t' Hl' Ht'. simpl in *. rewrite lookup_insert_ne in Ht'; [|congruence].
  by apply (Hfa l' t').
Qed.

Lemma twinv_start ok s ts l a w abs :
  twinv s ts → tw_enabled s (LStart ok l a w abs) = true →
  ∃ s' ts', tw_start ok s l a w abs = Some s' ∧ twinv s' ts'.
Proof.
  intros Hi He. cbn [tw_enabled] in He. unfold fresh_waiter in He.
  rewrite !andb_true_iff, !bool_decide_eq_true, !negb_true_iff in He.
  destruct He as ((((((Hfl & Hsl) & Hfa) & ((Hre & Hdw) & Hww)) & Hv) & Hsz) & Hheld). Zbool.
  destruct (lock_free s ts Hi Hheld) as [Ho Ha].
  destruct (new_timer_ok s ts l a w abs Hi Hsl Hfa Ha) as (Hlts & Hinv1 & Hcl1 & Hinj1).
  destruct Hi as [[Hr _] Hdom _ _ Hq _ Hret]. pose proof (repr_length _ _ _ Hr) as Hlen.
  unfold tw_start. rewrite Hdw. cbn [negb].
  change (set_wtrs _ _) with (new_timer s l a w abs).
  set (x1 := new_timer s l a w abs) in *. set (t := mk_timer abs link_init a).
  assert (Hl1 : store x1 !! l = Some t) by apply lookup_insert_eq.
  assert (Hw1 : wtrs x1 !! a = Some w) by apply lookup_insert_eq.
  destruct (fev_timers_add_ok ok x1 ts l t) as (ret & x2 & fs & -> & Hrel & Hws & Hrl & Hcase);
    [done..|by eapply new_timer_waiters|by exists w|lia|].
  destruct (released_unlocked x1 x2 fs Hq Hrel) as [Hh2 Hq2]. cbn [mbind option_bind].
  destruct (relink_lookup _ _ _ _ _ Hrl Hl1) as (t2 & Ht2 & Ea & Ew).
  assert (Hsame : ∀ l', l' ≠ l → is_Some (store x2 !! l') ↔ is_Some (fibers s !! l')).
  { intros l' Hne. rewrite (relink_dom _ _ _ _ Hrl). simpl.
    rewrite lookup_insert_ne by done. apply Hdom. }
  assert (Hcl2 : ∀ ts' l' pc, l' ≠ l → ts' = ts ∨ ts' = l :: ts → fibers s !! l' = Some pc → 
            client x2 (clk s) ts' l' pc).
  { intros ts' l' pc Hne Hts' Hpc. pose proof (Hcl1 l' pc Hpc) as Hc.
    eapply (client_frame x1 x2 _ _ ts ts' (l :: ts)); [done|done| | |done|lia].
    - by intros [->|?]%elem_of_cons.
    - destruct Hts' as [->| ->]; [done|]. rewrite elem_of_cons. naive_solver. }
  pose proof (waiter_inj_relink _ _ _ Hrl Hinj1) as Hinj2.
  destruct Hcase as [(-> & -> & -> & [Hh3 Ha3])|(-> & [Hh3 Ha3])]; simpl.
  - edestruct (twinv_return (with_ts s x2) ts l (- ENOMEM) t2) as (s' & -> & ?); simpl; auto.
    + unfold owner_ok; simpl. by rewrite Ho.
    + by rewrite Ho.
    + right; right; by left.
    + eauto.
  - rewrite andb_false_r. eexists _, (l :: ts). split; [done|]. split; simpl; try done.
    + intros l'. destruct (decide (l = l')) as [<-|];
        [rewrite lookup_insert_eq, Ht2; split; eauto|rewrite lookup_insert_ne by done; auto].
    + intros l' pc. destruct (decide (l = l')) as [<-|].
      * rewrite lookup_insert_eq. intros [=<-]. exists t2, w. rewrite Hws, Ew. change (waiter t) with a. rewrite Hw1.
        split; [done|]. split; [done|]. unfold pending_ok, waiter_ok.
        rewrite decide_True by apply list_elem_of_here. rewrite Hre, Hww, Hdw. done.
      * rewrite lookup_insert_ne by done. auto.
    + unfold owner_ok; simpl. by rewrite Ho.
Qed.

(** A timer left the bucket: the other clients do not notice. *)
Lemma clients_removed s x' ts ts' l l' pc :
  twinv s ts → relink ts (store (ts_ s)) (store x') → wtrs x' = wtrs (ts_ s) →
  removed ts l ts' → l' ≠ l → fibers s !! l' = Some pc → client x' (clk s) ts' l' pc.
Proof.
  intros Hi Hrl Hws [Hrm _] Hne Hpc. eapply (client_frame (ts_ s) x' _ _ ts ts' ts);
    [by apply Hi|done|done| |done|lia].
  destruct Hrm as [->|[_ ->]]; [|done]. rewrite elem_of_cons. naive_solver.
Qed.

Lemma twinv_resume_ready s ts l pc :
  twinv s ts → fibers s !! l = Some pc → pc ≠ TProcess → held (ts_ s) = false →
  ∃ s' ts', ('(x, _) ← fev_timers_del (ts_ s) l; return_ (with_ts s x) l 0) = Some s' ∧ twinv s' ts'.
Proof.
  intros Hi Hpc Hnp Hh. destruct (lock_free s ts Hi Hh) as [Ho Ha].
  destruct (client_lookup _ _ _ _ Hi Hpc) as (t & w & Ht & Hw & _ & Hp & Hok).
  pose proof (pending_ok_pending _ _ _ _ _ _ Ht Hp) as Hpe.
  destruct (fev_timers_del_ok (ts_ s) ts l (conj (ti_holds _ _ Hi) Ha) Hpe)
    as (x' & fs & ts' & -> & Hrel & Hrm & [Hh' Ha'] & Hws & Hrl).
  destruct (released_unlocked _ _ _ (ti_lockq _ _ Hi) Hrel) as [Hh2 Hq2]. cbn [mbind option_bind].
  destruct (relink_lookup _ _ _ _ _ Hrl Ht) as (t2 & Ht2 & _).
  edestruct (twinv_return (with_ts s x') ts' l 0 t2) as (s' & -> & ?); simpl; auto.
  - apply Hrm.
  - intros l' _. rewrite (relink_dom _ _ _ _ Hrl). apply Hi.
  - intros. by eapply clients_removed.
  - eapply waiter_inj_relink; [done|apply Hi].
  - unfold owner_ok. simpl. by rewrite Ho.
  - by rewrite Ho.
  - apply Hi.
  - by left.
  - eauto.
Qed.

Lemma twinv_resume_expired s ts l t w :
  twinv s ts → fibers s !! l = Some TBlocked → store (ts_ s) !! l = Some t →
  pending_ok (clk s) ts l t w → reason w = FEV_WAITER_TIMED_OUT_NO_CHECK →
  ∃ s', return_ s l (- ETIMEDOUT) = Some s' ∧ twinv s' ts.
Proof.
  intros Hi Hpc Ht Hp Hre. unfold pending_ok in Hp. case_decide; [done|]. destruct Hp as (_ & Hk & _).
  eapply twinv_return; [apply Hi|done|done|intros; apply Hi|intros; by apply Hi|apply Hi..| |apply Hi|].
  - intros now Ho. pose proof (ti_owner _ _ Hi) as Hown. unfold owner_ok in Hown. rewrite Ho in Hown.
    naive_solver.
  - right; right; by right.
Qed.

Lemma twinv_resume_check s ts l t w now :
  twinv s ts → fibers s !! l = Some TBlocked → store (ts_ s) !! l = Some t →
  wtrs (ts_ s) !! waiter t = Some w →
  pending_ok (clk s) ts l t w → waiter_ok TBlocked w → held (ts_ s) = false → ts_valid now →
  twinv (mk_tw (set_min (lock (ts_ s)) None) (<[l := TProcess]> (fibers s)) (Some (l, now))
           (returned s) (Z.max (clk s) (ts_ns now))) ts.
Proof.
  intros Hi Hpc Ht Hw Hp Hok Hh Hv. destruct Hi as [Hho Hdom Hcl Hinj Hq Hown Hret].
  split; simpl; try done.
  - intros l'. rewrite Hdom. destruct (decide (l = l')) as [<-|];
      [rewrite lookup_insert_eq, Hpc; split; eauto|by rewrite lookup_insert_ne].
  - intros l' pc Hpc'. eapply (client_frame (ts_ s) _ (clk s) _ ts ts ts); [|done|done|done|done|lia].
    destruct (decide (l = l')) as [<-|]; [|rewrite lookup_insert_ne in Hpc' by done; auto].
    rewrite lookup_insert_eq in Hpc'. simplify_eq. exists t, w. done.
  - unfold owner_ok. simpl. rewrite lookup_insert_eq. repeat (split; [done|]). lia.
  - intros d r Hin. destruct (Hret d r Hin) as [?|[?|[?|[??]]]]; unfold result_ok; auto.
    right; right; right. split; [done|lia].
Qed.

Lemma twinv_resume s ts l now :
  twinv s ts → tw_enabled s (LResume l now) = true →
  ∃ s' ts', tw_resume s l now = Some s' ∧ twinv s' ts'.
Proof.
  intros Hi He. cbn [tw_enabled] in He. unfold at_pc in He.
  rewrite !andb_true_iff, !bool_decide_eq_true in He. destruct He as [[Hpc Hv] He].
  destruct (client_lookup _ _ _ _ Hi Hpc) as (t & w & Ht & Hw & Hat & Hp & Hok).
  rewrite Hat, !andb_true_iff, orb_true_iff, bool_decide_eq_true, !negb_true_iff in He.
  destruct He as [[_ Hww] Hheld]. unfold tw_resume. rewrite Hat. cbn [mbind option_bind].
  pose proof Hok as [Hset Hwr]. specialize (Hset Hww). rewrite decide_False in Hwr by done.
  destruct (wake_reason w) eqn:Ewr; [congruence|..].
  - destruct Hheld as [|Hheld]; [done|]. by eapply twinv_resume_ready.
  - destruct Hheld as [|Hheld]; [done|]. eexists _, ts. split; [done|]. by apply (twinv_resume_check s ts l t w now).
  - destruct (twinv_resume_expired s ts l t w) as (s' & -> & ?); [done..|]. eauto.
Qed.

(** *** [fev_timers_process] *)

Lemma twinv_expire s ts l now l0 t x' fs ts1 :
  twinv s ts → owner s = Some (l, now) → expired_one now (ts_ s) ts l0 t x' fs ts1 →
  twinv (with_ts s x') ts1.
Proof.
  intros Hi Ho [Hp Hnd Ht Hnow Hh' Hrl Hfl (Hm & Hhe & Hq & _) _ (w & res & w' & Hw & Hwake & Hws & _)].
  destruct Hi as [Hho Hdom Hcl Hinj Hq0 Hown Hret].
  unfold owner_ok in Hown. rewrite Ho in Hown. destruct Hown as (Hh & Htm & Hpc & Hv & Hck).
  destruct (relink_lookup _ _ _ _ _ Hrl Ht) as (t' & Ht' & Ea & Ew).
  split; simpl; try done.
  - intros l'. rewrite (relink_dom _ _ _ _ Hrl). apply Hdom.
  - intros l' pc Hpc'. destruct (decide (l' = l0)) as [->|Hne].
    + destruct (Hcl l0 pc Hpc') as (t0 & w0 & Ht0 & Hw0 & Hp0 & Hok). simplify_eq.
      destruct (waiter_ok_wake _ _ _ _ _ Hwake Hok) as (Hok' & _ & Hne').
      exists t', w'. rewrite Hws, Ew, lookup_insert_eq. split; [done|]. split; [done|]. split; [|done].
      unfold pending_ok. rewrite decide_False by done. unfold is_expired in Hfl. rewrite Ht' in Hfl.
      simplify_eq/=. split; [done|]. split; [|done]. rewrite Ea.
      unfold key in Hnow. rewrite Ht in Hnow. lia.
    + set (x0 := set_wtrs x' (wtrs (ts_ s))).
      assert (Hc : client x0 (clk s) ts1 l' pc).
      { eapply (client_frame (ts_ s) x0 _ _ ts ts1 ts); [by apply Hcl|done|done| |done|lia].
        rewrite Hp, elem_of_cons. naive_solver. }
      destruct Hc as (t1 & w1 & Ht1 & Hw1 & ?). exists t1, w1. split; [done|].
      rewrite Hws, lookup_insert_ne; [done|]. intros E. apply Hne.
      assert (waiter_inj (store x')) as Hinj' by by eapply waiter_inj_relink.
      eapply Hinj'; [exact Ht1|exact Ht'|congruence].
  - by eapply waiter_inj_relink.
  - congruence.
  - unfold owner_ok. simpl. rewrite Ho. split; [congruence|]. split; [congruence|done].
Qed.

Lemma twinv_process s ts :
  twinv s ts → is_Some (owner s) → ∃ s' ts', tw_process s = Some s' ∧ twinv s' ts'.
Proof.
  intros Hi [[l now] Ho]. unfold tw_process. rewrite Ho. cbn [mbind option_bind].
  pose proof (ti_owner _ _ Hi) as Hown. unfold owner_ok in Hown. rewrite Ho in Hown.
  destruct Hown as (Hh & Htm & Hpc & Hv & Hck).
  destruct (wake_expired_iter_ok now (ts_ s) ts (ti_holds _ _ Hi) Hv)
    as [[-> Hk]|(l0 & t0 & x' & fs & ts1 & -> & Heo)]; cbn [mbind option_bind].
  2: { eexists _, ts1. split; [done|]. by eapply twinv_expire. }
  destruct (client_lookup _ _ _ _ Hi Hpc) as (t & w & Ht & Hw & _ & Hp & Hok).
  assert (is_expired (ts_ s) l = Some (negb (bool_decide (l ∈ ts)))) as ->.
  { unfold is_expired. rewrite Ht. simpl. f_equal. unfold pending_ok in Hp. destruct (decide (l ∈ ts)) as [Hl|Hl].
    - rewrite bool_decide_true by done. eapply repr_pending; [apply Hi|done|done].
    - rewrite bool_decide_false by done. apply Hp. }
  cbn [mbind option_bind].
  destruct (drop_own_ok (ts_ s) ts l (ti_holds _ _ Hi)) as (x2 & ts' & -> & Hp2 & Hni & Hh2 & Hrel2 & Hw2 & Hq2 & Hm2).
  cbn [mbind option_bind].
  destruct (rearm_ok x2 ts' Hh2) as (x3 & E3 & [Hh3 Ha3] & Hw3 & Hs3 & Hq3).
  assert (tmin x2 = None) as Hn2 by (by rewrite Hm2).
  assert (set_min x2 None = x2) as Hnone by (clear - Hn2; destruct x2; simpl in *; by subst).
  rewrite Hnone in E3. rewrite E3. cbn [mbind option_bind].
  destruct (unlock_released x3 []) as (x4 & f & -> & Hb4 & Hm4 & Hs4 & Hw4 & Ht4 & Hq4 & _ & Hh4).
  { rewrite Hq3, Hq2. apply Hi. }
  assert (Hst : store x4 = store x2) by congruence.
  assert (Hwt : wtrs x4 = wtrs (ts_ s)) by congruence.
  destruct (relink_lookup _ _ _ _ _ Hrel2 Ht) as (t2 & Ht2 & Ea & _).
  assert (Hsub : ∀ l', l' ≠ l → l' ∈ ts ↔ l' ∈ ts').
  { intros l' Hne. rewrite Hp2, elem_of_app. destruct (negb _); [set_solver|]. rewrite list_elem_of_singleton. tauto. }
  edestruct (twinv_return (with_owner (with_ts s x4) None) ts' l
    (if negb (bool_decide (l ∈ ts)) then - ETIMEDOUT else - EAGAIN) t2) as (s' & -> & ?); simpl; auto.
  - unfold holds in *. by rewrite Hb4, Hs4, Hw4.
  - by rewrite Hst.
  - intros l' _. rewrite Hst, (relink_dom _ _ _ _ Hrel2). apply Hi.
  - intros l' pc Hne Hpc'. eapply (client_frame (ts_ s) x4 _ _ ts ts' ts'); [by apply Hi|by rewrite Hst| | |done|lia].
    + intros Hin. by apply Hsub.
    + by apply Hsub.
  - rewrite Hst. eapply waiter_inj_relink; [done|apply Hi].
  - unfold owner_ok, armed in *. simpl. by rewrite Hm4, Hb4, Hs4, Ht4.
  - apply Hi.
  - unfold result_ok, pending_ok in *. destruct (decide (l ∈ ts)) as [Hl|Hl];
      [rewrite (bool_decide_true _ Hl); simpl; auto|rewrite (bool_decide_false _ Hl); simpl].
    right; right; right. split; [done|]. rewrite Ea. apply Hp.
  - eauto.
Qed.

Lemma twinv_init : twinv tw_init [].
Proof.
  split; simpl; try done.
  - split; [apply repr_init|]. by intros l t ?%not_elem_of_nil.
  - intros l. rewrite !lookup_empty. done.
  - by intros d r ?%not_elem_of_nil.
Qed.

Lemma twinv_step s ts lb :
  twinv s ts → tw_enabled s lb = true → ∃ s' ts', tw_step s lb = Some s' ∧ twinv s' ts'.
Proof.
  intros Hi He. destruct lb as [ok l a w abs|l|l|l| |l now|]; cbn [tw_step].
  - by eapply twinv_start.
  - apply bool_decide_eq_true in He. destruct (twinv_wait s ts l Hi He) as (? & ? & ?). eauto.
  - apply bool_decide_eq_true in He. destruct (twinv_post s ts l Hi He) as (? & ? & ?). eauto.
  - apply bool_decide_eq_true in He. destruct (twinv_ready s ts l Hi He) as (? & ? & ?). eauto.
  - destruct (twinv_timer_fd s ts Hi) as (s' & f & -> & ?). simpl. eauto.
  - by eapply twinv_resume.
  - apply bool_decide_eq_true in He. by eapply twinv_process.
Qed.

Lemma twinv_reach s : reach tw_next tw_init s → ∃ ts, twinv s ts.
Proof.
  apply (reach_invariant tw_next (λ s, ∃ ts, twinv s ts)); [exists []; apply twinv_init|].
  intros s1 lb s2 [ts Hi] Hs. unfold tw_next in Hs. destruct (tw_enabled s1 lb) eqn:He; [|done].
  destruct (twinv_step s1 ts lb Hi He) as (s' & ts' & E & Hi'). simplify_eq. eauto.
Qed.
End invariant.

(** ** A run: two fibers wait for 10 s and 20 s, the poller reports a timeout at
    15 s, the first fiber processes the bucket and times out, the second one is
    then made ready. *)

Definition ex_fresh (f : loc) : fev_waiter :=
  mk_waiter FEV_WAITER_NONE false FEV_WAITER_NONE false true f.
Definition ex_tw_schedule : list twlabel :=
  [LStart true 1 11 (ex_fresh 21) (mk_timespec 10 0); LWait 1; LSwitch 1;
   LStart true 2 12 (ex_fresh 22) (mk_timespec 20 0); LWait 2; LTimerFd; LSwitch 2;
   LResume 1 (mk_timespec 15 0); LTimerFd; LProcess; LTimerFd; LProcess; LReady 2;
   LTimerFd; LResume 2 (mk_timespec 16 0)]%positive.
Definition ex_tw_init : twstate Z heap_bucket := tw_init.
Definition ex_tw (n : nat) : twstate Z heap_bucket :=
  default ex_tw_init (run tw_next ex_tw_init (take n ex_tw_schedule)).

Example ex_tw_returned :
  returned (ex_tw 15) = [(mk_timespec 20 0, 0); (mk_timespec 10 0, - ETIMEDOUT)].
Proof. vm_compute. reflexivity. Qed.

Lemma ex_tw_reach n : (n < 16)%nat → reach tw_next ex_tw_init (ex_tw n).
Proof.
  intros Hn. apply (run_reach tw_next ex_tw_init ex_tw_init (take n ex_tw_schedule)); [constructor|].
  unfold ex_tw. do 16 (destruct n as [|n]; [vm_compute; reflexivity|]). lia.
Qed.

(** ** Properties *)

Section properties.
Context {X B : Type} `{TB : TimersBucket X B}.
Implicit Types s : twstate X B.

(** C5: In every interleaving of fibers calling [fev_timed_wait] on a bucket
    with wakers and the poller, no access is made to the timer of a fiber
    that has returned and no assertion fails: every step that can be taken is
    defined. In particular [bucket->min], which the poller dereferences, is
    null or the timer of a fiber still inside [fev_timed_wait], also while
    the expired timers are being removed. *)
Theorem timed_wait_no_dangling_timer s lb :
  reach tw_next tw_init s →
  (tw_enabled s lb = true → is_Some (tw_step s lb)) ∧
  (∀ l, tmin (ts_ s) = Some l → is_Some (fibers s !! l) ∧ is_Some (store (ts_ s) !! l)).
Proof using TB.
  intros [ts Hi]%twinv_reach. split.
  - intros He. destruct (twinv_step s ts lb Hi He) as (s' & _ & -> & _). eauto.
  - intros l Hm. destruct (tmin_live _ _ _ Hi Hm) as [_ Hl]. split; [done|]. by apply (ti_dom _ _ Hi).
Qed.

End properties.

Lemma timed_wait_no_dangling_timer_witness :
  tw_enabled (ex_tw 9) LProcess = true ∧ is_Some (tw_step (ex_tw 9) LProcess).
Proof.
  assert (E : tw_enabled (ex_tw 9) LProcess = true) by (vm_compute; reflexivity).
  split; [exact E|].
  apply (proj1 (timed_wait_no_dangling_timer (ex_tw 9) LProcess (ex_tw_reach 9 ltac:(lia)))). exact E.
Defined.

