(* ===== verification/TimersEquiv.v ===== *)
(** The two implementations of a timers bucket, the binary heap and the
    red-black tree, behave the same behind [src/src/fev_timers.c].

    Clients are sequences of calls of [fev_timers_add], [fev_timers_del] and
    [fev_timers_process]; a timer exists from the call that adds it until the
    call that deletes or processes it. What a client and the poller observe is
    compared: results, waiters, fibers made runnable and the deadline the
    poller is armed with. Timers with equal deadlines may expire in either
    order, so fibers are compared up to their order. *)

From Stdlib Require Import Sorted.
From S2P Require Import Prelude Time TimersIntf Binheap TimersRbtree Waiter Timers TimedWait.

Local Open Scope Z_scope.

Inductive top :=
| OAdd (l : loc) (abs : timespec) (a : loc) (w : fev_waiter)
| ODel (l : loc)
| OProcess (now : timespec) (l : loc).

(** ** One implementation *)

Section client.
Context {X B : Type} `{TB : TimersBucket X B}.
Implicit Types (s : tstate X B) (ts : list loc).

(** The addresses of a new timer and its waiter are not in use; a timer is
    deleted or processed once. *)
Definition op_enabled s (o : top) : bool :=
  match o with
  | OAdd l abs a w =>
      bool_decide (store s !! l = None) &&
      bool_decide (map_Forall (λ _ t, waiter t ≠ a) (store s)) &&
      bool_decide (ts_valid abs) && (Z.of_nat (size (store s)) <? SIZE_MAX / 16)
  | ODel l => bool_decide (is_Some (store s !! l))
  | OProcess now l => bool_decide (is_Some (store s !! l)) && bool_decide (ts_valid now)
  end.

(** The caller's frame with its timer dies. *)
Definition forget s (l : loc) : tstate X B := set_bkt s (bkt s) (delete l (store s)).

Definition with_timer s (l : loc) (abs : timespec) (a : loc) (w : fev_waiter) : tstate X B :=
  set_wtrs (set_bkt s (bkt s) (<[l := mk_timer abs link_init a]> (store s))) (<[a := w]> (wtrs s)).

(** Result, fibers made runnable, next state. Memory allocation succeeds. *)
Definition op_step s (o : top) : option (Z * list loc * tstate X B) :=
  if op_enabled s o then
    match o with
    | OAdd l abs a w =>
        '(ret, s, fs) ← fev_timers_add true (with_timer s l abs a w) l; Some (ret, fs, s)
    | ODel l => '(s, fs) ← fev_timers_del s l; Some (0, fs, forget s l)
    | OProcess now l =>
        '(e, s, fs) ← fev_timers_process now s l; Some (if e : bool then 1 else 0, fs, forget s l)
    end
  else Some (-1, [], s).

(** The deadline of [bucket->min]. *)
Definition deadline s : option timespec := l ← tmin s; t ← store s !! l; Some (abs_time t).

Record observation := mk_obs {
  o_ret : Z;
  o_fibers : list loc;
  o_waiters : gmap loc fev_waiter;
  o_deadline : option timespec;
}.

Fixpoint op_run s (os : list top) : option (list observation * tstate X B) :=
  match os with
  | [] => Some ([], s)
  | o :: os =>
    '(ret, fs, s) ← op_step s o;
    '(obs, s') ← op_run s os;
    Some (mk_obs ret fs (wtrs s) (deadline s) :: obs, s')
  end.

Definition tstate_init (q : list loc) : tstate X B :=
  mk_tstate bucket_init None false q ∅ ∅ [].

(** Every timer of the store is in the bucket or has expired, and no two of
    them have the same waiter. *)
Record well s ts : Prop := {
  we_inv : tinv s ts;
  we_inj : waiter_inj (store s);
  we_timers : ∀ l, is_Some (store s !! l) → pending_or_expired s ts l;
}.

Lemma tinv_perm s ts ts' : ts ≡ₚ ts' → tinv s ts → tinv s ts'.
Proof.
  intros E [[Hr Hw] Ha]. split; [split|].
  - by eapply repr_perm.
  - intros l t Hl. apply Hw. by rewrite E.
  - unfold armed in *. destruct (tmin s).
    + destruct Ha as [Hne ?]. split; [|done]. intros ->. by apply Permutation_nil_r in E.
    + subst. by apply Permutation_nil_l in E.
Qed.

Lemma tinv_forget s ts l : tinv s ts → l ∉ ts → tinv (forget s l) ts.
Proof.
  intros [[Hr Hw] Ha] Hl.
  assert (E : ∀ l', l' ∈ ts → delete l (store s) !! l' = store s !! l').
  { intros l' Hl'. apply lookup_delete_ne. by intros ->. }
  split; [split|]; simpl.
  - by eapply repr_frame.
  - intros l' t Hl'. rewrite E by done. by apply Hw.
  - unfold armed in *. simpl. destruct (tmin s) as [l'|]; [|done].
    destruct Ha as (Hne & Hm & t & Ht & ?). split; [done|]. split; [done|]. exists t.
    destruct (repr_min _ _ _ Hr Hne) as (l0 & Hm0 & Hin & _).
    rewrite E; [done|]. congruence.
Qed.

Lemma well_forget s ts l :
  tinv s ts → waiter_inj (store s) → l ∉ ts →
  (∀ l', l' ≠ l → is_Some (store s !! l') → pending_or_expired s ts l') →
  well (forget s l) ts.
Proof.
  intros Hi Hinj Hl Hp. split; [by apply tinv_forget|by apply waiter_inj_delete|].
  intros l' [t Ht]. simpl in Ht. apply lookup_delete_Some in Ht as [Hne Ht].
  destruct (Hp l') as (t' & Ht' & ?); [done|by exists t|].
  exists t'. simpl. by rewrite lookup_delete_ne.
Qed.

Lemma well_init q : well (tstate_init q) [].
Proof.
  split; [split; [split|]|..]; simpl; try done.
  - apply repr_init.
  - by intros l [t Ht].
Qed.

(** A pending timer that stays in the bucket, or leaves it marked expired. *)
Lemma pending_frame s s' ts ts' ls l :
  relink ls (store s) (store s') → pending_or_expired s ts l →
  (l ∈ ls → l ∈ ts) → (l ∉ ts → l ∉ ts') → (l ∈ ts → l ∈ ts' ∨ (l ∉ ts' ∧ is_expired s' l = Some true)) →
  pending_or_expired s' ts' l.
Proof.
  intros Hr (t & Ht & Hc) Hls Hn Hin. destruct (relink_lookup _ _ _ _ _ Hr Ht) as (t' & Ht' & _).
  exists t'. split; [done|]. destruct Hc as [Hl|[Hl He]].
  - destruct (Hin Hl) as [|[? Hf]]; [by left|]. right. split; [done|].
    unfold is_expired in Hf. rewrite Ht' in Hf. by simplify_eq/=.
  - right. split; [auto|]. destruct (Hr l) as [E _]. rewrite E in Ht' by auto. by simplify_eq.
Qed.
Lemma well_with_timer s ts l abs a w :
  well s ts → op_enabled s (OAdd l abs a w) = true →
  l ∉ ts ∧ tinv (with_timer s l abs a w) ts ∧ waiter_inj (store (with_timer s l abs a w)) ∧
  other_waiters (store (with_timer s l abs a w)) ts (mk_timer abs link_init a).
Proof.
  intros [[[Hr Hw] Ha] Hinj _] He. cbn [op_enabled] in He.
  rewrite !andb_true_iff, !bool_decide_eq_true in He. destruct He as (((Hl & Hfa) & _) & _).
  assert (Hlts : l ∉ ts).
  { intros Hin. destruct (repr_lookup _ _ _ _ Hr Hin) as (? & ? & _). congruence. }
  assert (Hst : ∀ l', l' ∈ ts → <[l := mk_timer abs link_init a]> (store s) !! l' = store s !! l')
    by (intros l' Hl'; apply lookup_insert_ne; congruence).
  split; [done|]. split; [split; [split|]|split]; simpl.
  - by eapply repr_frame.
  - intros l' t' Hl' Ht'. rewrite Hst in Ht' by done.
    rewrite lookup_insert_ne; [eauto|]. intros E. by apply (Hfa l' t').
  - unfold armed in *. simpl. destruct (tmin s) as [l'|]; [|done].
    destruct Ha as (? & ? & t' & Ht' & ?). split; [done|]. split; [done|]. exists t'.
    rewrite lookup_insert_ne; [done|congruence].
  - intros l1 l2 t1 t2. rewrite !lookup_insert_Some.
    intros [[<- <-]|[? H1]] [[<- <-]|[? H2]]; simpl; try done.
    + intros E. by destruct (Hfa l2 t2).
    + intros E. by destruct (Hfa l1 t1).
    + by apply Hinj.
  - intros l' t' Hl' Ht'. rewrite Hst in Ht' by done. by apply (Hfa l' t').
Qed.

Lemma add_well s ts l abs a w :
  well s ts → op_enabled s (OAdd l abs a w) = true →
  ∃ s' fs, fev_timers_add true (with_timer s l abs a w) l = Some (0, s', fs) ∧
    released s s' fs ∧ well s' (l :: ts) ∧ wtrs s' = <[a := w]> (wtrs s) ∧
    relink (l :: ts) (store (with_timer s l abs a w)) (store s').
Proof.
  intros Hwell He. destruct (well_with_timer s ts l abs a w Hwell He) as (Hl & Hi & Hinj & How).
  cbn [op_enabled] in He. rewrite !andb_true_iff, !bool_decide_eq_true in He.
  destruct He as (((Hnone & _) & Hv) & Hsz). Zbool.
  pose proof (repr_length _ _ _ (proj1 (proj1 (we_inv _ _ Hwell)))) as Hlen.
  destruct (fev_timers_add_ok true (with_timer s l abs a w) ts l (mk_timer abs link_init a))
    as (ret & s' & fs & E & Hrel & Hw & Hr & [(_ & F & _)|(-> & Hi')]);
    [done|done|apply lookup_insert_eq|done|done|by eexists; apply lookup_insert_eq|lia|done|].
  exists s', fs. split; [done|]. split; [done|]. split; [|done]. split; [done| |].
  - by eapply waiter_inj_relink.
  - intros l' Hl'. apply (relink_dom _ _ _ l' Hr) in Hl'.
    destruct (decide (l' = l)) as [->|Hne].
    + destruct (relink_lookup _ _ _ _ _ Hr (lookup_insert_eq _ _ _)) as (t' & Ht' & _).
      exists t'. split; [done|]. left. apply list_elem_of_here.
    + simpl in Hl'. rewrite lookup_insert_ne in Hl' by done.
      destruct (we_timers _ _ Hwell l' Hl') as (t' & Ht' & Hc).
      eapply (pending_frame (with_timer s l abs a w) s' ts (l :: ts) (l :: ts)); [done| |..];
        rewrite ?elem_of_cons; [|naive_solver..].
      exists t'. simpl. by rewrite lookup_insert_ne.
Qed.

Lemma del_well s ts l :
  well s ts → is_Some (store s !! l) →
  ∃ s' fs ts', fev_timers_del s l = Some (s', fs) ∧ released s s' fs ∧ removed ts l ts' ∧
    well (forget s' l) ts' ∧ wtrs s' = wtrs s ∧ relink ts (store s) (store s').
Proof.
  intros [Hi Hinj Hp] Hl.
  destruct (fev_timers_del_ok s ts l Hi (Hp l Hl))
    as (s' & fs & ts' & E & Hrel & Hrem & Hi' & Hw & Hr).
  exists s', fs, ts'. do 3 (split; [done|]). split; [|done]. destruct Hrem as [Hrem Hni].
  apply well_forget; [done|by eapply waiter_inj_relink|done|].
  intros l' Hne Hl'. apply (relink_dom _ _ _ l' Hr) in Hl'.
  eapply pending_frame; [done|by apply Hp|done|..];
    (destruct Hrem as [->|[_ ->]]; rewrite ?elem_of_cons; tauto).
Qed.

Lemma process_well now s ts l :
  well s ts → is_Some (store s !! l) → ts_valid now →
  ∃ e s' fs exp ts', fev_timers_process now s l = Some (e, s', fs) ∧
    processed now s ts l e s' fs exp ts' ∧ well (forget s' l) ts'.
Proof.
  intros [Hi Hinj Hp] Hl Hnow.
  destruct (fev_timers_process_ok now s ts l (proj1 Hi) (Hp l Hl) Hnow)
    as (e & s' & fs & exp & ts' & E & Hpr).
  exists e, s', fs, exp, ts'. split; [done|]. split; [done|]. pose proof Hpr as [].
  apply well_forget; [done|by eapply waiter_inj_relink|done|].
  intros l' Hne Hl'. apply (relink_dom _ _ _ l' pr_relink) in Hl'.
  assert (Hnd : NoDup ts) by (eapply repr_nodup; apply Hi). rewrite pr_perm in Hnd.
  apply NoDup_app in Hnd as (_ & Hd & _).
  assert (Hin : l' ∈ ts ↔ l' ∈ exp ∨ l' ∈ ts').
  { rewrite pr_perm, !elem_of_app. destruct e; [set_solver|]. rewrite list_elem_of_singleton. tauto. }
  eapply pending_frame; [done|by apply Hp|done|tauto|].
  rewrite Hin. intros [Hx|?]; [|by left]. right. split.
  - intros Hx'. apply (Hd _ Hx), elem_of_app. by left.
  - by apply (proj1 (Forall_forall _ _) pr_flag).
Qed.

(** The timers that expire and those that stay, by their deadlines. *)
Lemma split_elem now s ts l e s' fs exp ts' :
  processed now s ts l e s' fs exp ts' →
  ∀ x, (x ∈ exp ↔ x ∈ ts ∧ key (store s) x <= ts_ns now) ∧
       (x ∈ ts' ↔ x ∈ ts ∧ x ≠ l ∧ ts_ns now < key (store s) x).
Proof.
  intros [Hp Hni _ Hexp Hrest _ _ Hown _ _ _ _] x. rewrite Forall_forall in Hexp, Hrest.
  specialize (Hexp x). specialize (Hrest x). rewrite Hp, !elem_of_app.
  assert (x ∈ (if e then [] else [l]) ↔ e = false ∧ x = l) as ->.
  { destruct e; [set_solver|]. rewrite list_elem_of_singleton. naive_solver. }
  destruct (decide (x = l)) as [->|].
  - split; [|tauto]. split; [tauto|]. intros [[?|[?|[? _]]] ?]; [done|tauto|].
    specialize (Hown ltac:(done)). lia.
  - split; (split; [naive_solver|]).
    + intros [[?|[Hx|[_ ?]]] ?]; [done| |done]. apply Hrest in Hx. lia.
    + intros ([Hx|[?|[_ ?]]] & _ & ?); [apply Hexp in Hx; lia|done|done].
Qed.
End client.

(** ** Waking waiters in any order *)

Lemma wake_all_perm as1 as2 ws ws' fs1 :
  as1 ≡ₚ as2 → NoDup as1 → wake_all ws as1 = Some (ws', fs1) →
  ∃ fs2, wake_all ws as2 = Some (ws', fs2) ∧ fs1 ≡ₚ fs2.
Proof.
  intros Hp. revert ws ws' fs1. induction Hp as [|a as1 as2 Hp IH|a b as_|as1 as2 as3 Hp12 IH12 Hp23 IH23];
    intros ws ws' fs1 Hnd H.
  - eauto.
  - apply NoDup_cons in Hnd as [_ Hnd]. cbn in H |- *.
    destruct (ws !! a) as [w|]; [|done]. cbn in H |- *.
    destruct (fev_waiter_wake w _) as [[res w']|]; [|done]. cbn in H |- *.
    destruct (wake_all _ as1) as [[ws1 fs]|] eqn:E; [|done]. simplify_eq/=.
    destruct (IH _ _ _ Hnd E) as (fs2 & -> & Hfs). cbn. eexists. split; [done|]. by rewrite Hfs.
  - apply NoDup_cons in Hnd as [Hnab _]. assert (a ≠ b) as Hab by (intros ->; apply Hnab, list_elem_of_here).
    cbn in H |- *. destruct (ws !! b) as [wb|] eqn:Eb; [|done]. cbn in H.
    destruct (fev_waiter_wake wb _) as [[rb wb']|] eqn:Wb; [|done]. cbn in H.
    rewrite lookup_insert_ne in H by done. destruct (ws !! a) as [wa|]; [|done]. cbn in H |- *.
    destruct (fev_waiter_wake wa _) as [[ra wa']|]; [|done]. cbn in H |- *.
    rewrite lookup_insert_ne, Eb by done. cbn. rewrite Wb. cbn.
    rewrite insert_insert_ne in H by done.
    destruct (wake_all _ as_) as [[ws1 fs]|]; [|done]. simplify_eq/=.
    eexists. split; [done|]. by rewrite !app_assoc, (Permutation_app_comm (if decide (rb = _) then _ else _)).
  - destruct (IH12 _ _ _ Hnd H) as (fs2 & H2 & Hfs2). rewrite Hp12 in Hnd.
    destruct (IH23 _ _ _ Hnd H2) as (fs3 & H3 & Hfs3). exists fs3. split; [done|]. by etrans.
Qed.

(** ** Two implementations *)

Section equiv.
Context {X1 B1 : Type} `{TB1 : TimersBucket X1 B1} {X2 B2 : Type} `{TB2 : TimersBucket X2 B2}.
Implicit Types ts : list loc.

Abbreviation face := (λ t, (abs_time t, waiter t)).

(** The stores agree but for the implementations' links. *)
Definition same_timers (m1 : timer_store X1) (m2 : timer_store X2) : Prop :=
  ∀ l, face <$> m1 !! l = face <$> m2 !! l.

Lemma same_relink (m1 : timer_store X1) (m2 : timer_store X2) ls1 ls2 m1' m2' :
  same_timers m1 m2 → relink ls1 m1 m1' → relink ls2 m2 m2' → same_timers m1' m2'.
Proof. intros H H1 H2 l. destruct (H1 l) as [_ ->], (H2 l) as [_ ->]. apply H. Qed.

Lemma same_lookup (m1 : timer_store X1) (m2 : timer_store X2) l t1 :
  same_timers m1 m2 → m1 !! l = Some t1 →
  ∃ t2, m2 !! l = Some t2 ∧ abs_time t2 = abs_time t1 ∧ waiter t2 = waiter t1.
Proof. intros H H1. specialize (H l). rewrite H1 in H. destruct (m2 !! l); simplify_eq/=. eauto. Qed.

Lemma same_is_Some (m1 : timer_store X1) (m2 : timer_store X2) l : same_timers m1 m2 → is_Some (m1 !! l) ↔ is_Some (m2 !! l).
Proof. intros H. specialize (H l). destruct (m1 !! l), (m2 !! l); simplify_eq/=; split; eauto; by intros []. Qed.

Lemma same_key (m1 : timer_store X1) (m2 : timer_store X2) l : same_timers m1 m2 → key m1 l = key m2 l.
Proof. intros H. specialize (H l). unfold key. destruct (m1 !! l), (m2 !! l); simplify_eq/=; congruence. Qed.

Lemma same_waiters (m1 : timer_store X1) (m2 : timer_store X2) ls : same_timers m1 m2 → waiters_of m1 ls = waiters_of m2 ls.
Proof.
  intros H. unfold waiters_of. induction ls as [|l ls IH]; [done|]. cbn.
  specialize (H l). destruct (m1 !! l), (m2 !! l); simplify_eq/=; [|done]. f_equal; [congruence|done].
Qed.

Lemma same_size (m1 : timer_store X1) (m2 : timer_store X2) : same_timers m1 m2 → size m1 = size m2.
Proof.
  intros H. rewrite <- !size_dom. f_equal. apply set_eq. intros l.
  rewrite !elem_of_dom. by apply same_is_Some.
Qed.

Lemma same_insert (m1 : timer_store X1) (m2 : timer_store X2) l abs a x1 x2 :
  same_timers m1 m2 →
  same_timers (<[l := mk_timer abs x1 a]> m1) (<[l := mk_timer abs x2 a]> m2).
Proof.
  intros H l'. destruct (decide (l = l')) as [<-|]; [by rewrite !lookup_insert_eq|].
  rewrite !lookup_insert_ne by done. apply H.
Qed.

Lemma same_delete (m1 : timer_store X1) (m2 : timer_store X2) l : same_timers m1 m2 → same_timers (delete l m1) (delete l m2).
Proof.
  intros H l'. destruct (decide (l = l')) as [<-|]; [by rewrite !lookup_delete_eq|].
  rewrite !lookup_delete_ne by done. apply H.
Qed.

(** The simulation relation. *)
Record agree (s1 : tstate X1 B1) (s2 : tstate X2 B2) ts : Prop := {
  ag_well1 : well s1 ts;
  ag_well2 : well s2 ts;
  ag_timers : same_timers (store s1) (store s2);
  ag_wtrs : wtrs s1 = wtrs s2;
  ag_lockq : lockq s1 = lockq s2;
  ag_held : held s1 = held s2;
}.

Record obs_eq (o1 o2 : observation) : Prop := {
  oe_ret : o_ret o1 = o_ret o2;
  oe_fibers : o_fibers o1 ≡ₚ o_fibers o2;
  oe_waiters : o_waiters o1 = o_waiters o2;
  oe_deadline : o_deadline o1 = o_deadline o2;
}.

Lemma agree_enabled (s1 : tstate X1 B1) (s2 : tstate X2 B2) ts o : agree s1 s2 ts → op_enabled s1 o = op_enabled s2 o.
Proof.
  intros [_ _ Hs _ _ _]. destruct o as [l abs a w|l|now l]; simpl.
  - rewrite (same_size _ _ Hs). do 2 f_equal. f_equal; apply bool_decide_ext.
    + specialize (Hs l). destruct (store s1 !! l), (store s2 !! l); simplify_eq/=; done.
    + unfold map_Forall. split; intros H i t Ht.
      * specialize (Hs i). rewrite Ht in Hs. destruct (store s1 !! i) eqn:E; simplify_eq/=.
        specialize (H _ _ E). simpl in H. congruence.
      * destruct (same_lookup _ _ _ _ Hs Ht) as (t2 & E & _ & <-). by apply (H i).
  - apply bool_decide_ext. by apply same_is_Some.
  - f_equal. apply bool_decide_ext. by apply same_is_Some.
Qed.

(** The poller is armed with the same deadline, whichever of several earliest
    timers an implementation has chosen. *)
Lemma agree_deadline (s1 : tstate X1 B1) (s2 : tstate X2 B2) ts : agree s1 s2 ts → deadline s1 = deadline s2.
Proof.
  intros [[[[Hr1 _] Ha1] _ _] [[[Hr2 _] Ha2] _ _] Hs _ _ _]. unfold deadline, armed in *.
  destruct (tmin s1) as [l1|], (tmin s2) as [l2|]; simpl;
    [|by destruct Ha1 as [? _]; subst|by destruct Ha2 as [? _]; subst|done].
  destruct Ha1 as (Hne & Hm1 & t1 & Ht1 & _), Ha2 as (_ & Hm2 & t2 & Ht2 & _).
  rewrite Ht1, Ht2. simpl. f_equal.
  destruct (repr_min _ _ _ Hr1 Hne) as (l & Hl & Hin1 & Hle1). assert (l = l1) as -> by congruence.
  destruct (repr_min _ _ _ Hr2 Hne) as (l & Hl' & Hin2 & Hle2). assert (l = l2) as -> by congruence.
  specialize (Hle1 _ Hin2). specialize (Hle2 _ Hin1).
  rewrite <- !(same_key _ _ _ Hs) in Hle2.
  destruct (repr_lookup _ _ _ _ Hr1 Hin1) as (? & ? & ? & K1).
  destruct (repr_lookup _ _ _ _ Hr2 Hin2) as (? & ? & ? & K2). simplify_eq.
  rewrite <- (same_key _ _ _ Hs) in K2. apply ts_ns_inj; [done|done|lia].
Qed.

Lemma perm_agree (s1 : tstate X1 B1) (s2 : tstate X2 B2) ts1 ts2 :
  ts1 ≡ₚ ts2 → well s1 ts1 → well s2 ts2 → same_timers (store s1) (store s2) →
  wtrs s1 = wtrs s2 → lockq s1 = lockq s2 → held s1 = held s2 → agree s1 s2 ts1.
Proof.
  intros Hp Hw1 [Hi Hj Ht] Hs Hws Hq Hh. split; [done| |done..]. split; [|done|].
  - by eapply tinv_perm.
  - intros l Hl. destruct (Ht l Hl) as (t & ? & Hc). exists t. split; [done|]. by rewrite Hp.
Qed.

(** [fev_timers_process] splits the timers in the same way. *)
Lemma processed_agree now (s1 : tstate X1 B1) (s2 : tstate X2 B2) ts l
    e1 e2 s1' s2' fs1 fs2 exp1 exp2 ts1 ts2 :
  agree s1 s2 ts → processed now s1 ts l e1 s1' fs1 exp1 ts1 →
  processed now s2 ts l e2 s2' fs2 exp2 ts2 → e1 = e2 ∧ exp1 ≡ₚ exp2 ∧ ts1 ≡ₚ ts2.
Proof.
  intros Hag P1 P2. pose proof (ag_timers _ _ _ Hag) as Hs.
  assert (Hnd : NoDup ts) by (eapply (repr_nodup (X := X1) (B := B1)); exact (proj1 (proj1 (we_inv _ _ (ag_well1 _ _ _ Hag))))).
  assert (N1 := Hnd). rewrite (pr_perm _ _ _ _ _ _ _ _ _ P1) in N1.
  assert (N2 := Hnd). rewrite (pr_perm _ _ _ _ _ _ _ _ _ P2) in N2.
  apply NoDup_app in N1 as (Ne1 & _ & [Nt1 _]%NoDup_app). apply NoDup_app in N2 as (Ne2 & _ & [Nt2 _]%NoDup_app).
  assert (M1 : ∀ x, (x ∈ exp1 ↔ x ∈ ts ∧ key (store s1) x <= ts_ns now) ∧
                    (x ∈ ts1 ↔ x ∈ ts ∧ x ≠ l ∧ ts_ns now < key (store s1) x)).
  { by eapply split_elem. }
  assert (M2 : ∀ x, (x ∈ exp2 ↔ x ∈ ts ∧ key (store s2) x <= ts_ns now) ∧
                    (x ∈ ts2 ↔ x ∈ ts ∧ x ≠ l ∧ ts_ns now < key (store s2) x)).
  { by eapply split_elem. }
  setoid_rewrite <- (same_key _ _ _ Hs) in M2.
  assert (exp1 ≡ₚ exp2) as He.
  { apply NoDup_Permutation; [done|done|]. intros x. by rewrite (proj1 (M1 x)), (proj1 (M2 x)). }
  split_and!; [|done|].
  - apply eq_true_iff_eq. rewrite (pr_expired _ _ _ _ _ _ _ _ _ P1), (pr_expired _ _ _ _ _ _ _ _ _ P2).
    by rewrite He.
  - apply NoDup_Permutation; [done|done|]. intros x. by rewrite (proj2 (M1 x)), (proj2 (M2 x)).
Qed.

(** The waiters and the fibers, when the stores have distinct waiters. *)
Lemma waiters_of_nodup {X} (m : timer_store X) ls :
  waiter_inj m → NoDup ls → NoDup (waiters_of m ls).
Proof.
  intros Hi. induction 1 as [|l ls Hl Hnd IH]; [constructor|]. cbn.
  destruct (m !! l) as [t|] eqn:Ht; [|done]. cbn. apply NoDup_cons. split; [|done].
  intros Hin. apply list_elem_of_omap in Hin as (l' & Hl' & Heq).
  destruct (m !! l') as [t'|] eqn:Ht'; simplify_eq/=. by rewrite (Hi l l' t t') in Hl.
Qed.

Lemma woken_agree now (s1 : tstate X1 B1) (s2 : tstate X2 B2) ts l
    e1 e2 s1' s2' fs1 fs2 exp1 exp2 ts1 ts2 :
  agree s1 s2 ts → processed now s1 ts l e1 s1' fs1 exp1 ts1 →
  processed now s2 ts l e2 s2' fs2 exp2 ts2 → exp1 ≡ₚ exp2 → wtrs s1' = wtrs s2' ∧ fs1 ≡ₚ fs2.
Proof.
  intros Hag P1 P2 He. pose proof Hag as [[[[Hr _] _] Hinj _] _ Hs Hw Hq _].
  destruct (pr_wake _ _ _ _ _ _ _ _ _ P1) as (w1 & W1 & ->).
  destruct (pr_wake _ _ _ _ _ _ _ _ _ P2) as (w2 & W2 & ->).
  rewrite <- (same_waiters _ _ _ Hs), <- Hw in W2.
  assert (NoDup exp1) as Hnd.
  { apply (repr_nodup (X := X1) (B := B1)) in Hr. rewrite (pr_perm _ _ _ _ _ _ _ _ _ P1) in Hr. by apply NoDup_app in Hr as [? _]. }
  assert (waiters_of (store s1) exp1 ≡ₚ waiters_of (store s1) exp2) as Hp
    by (unfold waiters_of; by rewrite He).
  destruct (wake_all_perm _ _ _ _ _ Hp (waiters_of_nodup _ _ Hinj Hnd) W1) as (w2' & W2' & Hfs).
  simplify_eq. by rewrite Hfs, Hq.
Qed.

Lemma removed_perm ts l ts1 ts2 : removed ts l ts1 → removed ts l ts2 → ts1 ≡ₚ ts2.
Proof.
  intros [[H1|[H1 ->]] _] [[H2|[H2 ->]] _].
  - rewrite H1 in H2. by apply Permutation_cons_inv in H2.
  - destruct H2. rewrite H1. apply list_elem_of_here.
  - destruct H1. rewrite H2. apply list_elem_of_here.
  - done.
Qed.

(** Every operation keeps the implementations in agreement. *)
Lemma agree_step (s1 : tstate X1 B1) (s2 : tstate X2 B2) ts o :
  agree s1 s2 ts →
  ∃ ret fs1 fs2 s1' s2' ts', op_step s1 o = Some (ret, fs1, s1') ∧
    op_step s2 o = Some (ret, fs2, s2') ∧ fs1 ≡ₚ fs2 ∧ agree s1' s2' ts'.
Proof.
  intros Hag. unfold op_step. rewrite <- (agree_enabled _ _ _ o Hag).
  destruct (op_enabled s1 o) eqn:He1; [|by eexists _, _, _, _, _, ts].
  assert (op_enabled s2 o = true) as He2 by by rewrite <- (agree_enabled _ _ _ o Hag).
  pose proof Hag as [Hw1 Hw2 Hs Hws Hq Hh]. destruct o as [l abs a w|l|now l].
  - destruct (add_well s1 ts l abs a w Hw1 He1) as (s1' & f1 & -> & (-> & Q1 & L1) & ? & ? & R1).
    destruct (add_well s2 ts l abs a w Hw2 He2) as (s2' & f2 & -> & (-> & Q2 & L2) & ? & ? & R2).
    eexists _, _, _, _, _, (l :: ts). do 2 (split; [done|]). rewrite Hq. split; [done|].
    split; try done; try congruence; [|by rewrite L1, L2, Hq]. eapply same_relink; [|done..]. by apply same_insert.
  - cbn [op_enabled] in He1, He2. rewrite bool_decide_eq_true in He1, He2.
    destruct (del_well s1 ts l Hw1 He1) as (s1' & f1 & t1 & -> & (-> & Q1 & L1) & M1 & ? & ? & R1).
    destruct (del_well s2 ts l Hw2 He2) as (s2' & f2 & t2 & -> & (-> & Q2 & L2) & M2 & ? & ? & R2).
    eexists _, _, _, _, _, t1. do 2 (split; [done|]). rewrite Hq. split; [done|].
    eapply perm_agree; [by eapply removed_perm|done|done|..]; simpl; try congruence; [|by rewrite L1, L2, Hq].
    apply same_delete. by eapply same_relink.
  - cbn [op_enabled] in He1, He2. rewrite andb_true_iff, !bool_decide_eq_true in He1, He2.
    destruct He1 as [He1 Hv], He2 as [He2 _].
    destruct (process_well now s1 ts l Hw1 He1 Hv) as (e1 & s1' & f1 & x1 & t1 & -> & P1 & ?).
    destruct (process_well now s2 ts l Hw2 He2 Hv) as (e2 & s2' & f2 & x2 & t2 & -> & P2 & ?).
    destruct (processed_agree _ _ _ _ _ _ _ _ _ _ _ _ _ _ _ Hag P1 P2) as (<- & Hx & Ht).
    destruct (woken_agree _ _ _ _ _ _ _ _ _ _ _ _ _ _ _ Hag P1 P2 Hx) as [Hw' Hf].
    eexists _, _, _, _, _, t1. do 2 (split; [done|]). split; [done|].
    destruct (pr_lock _ _ _ _ _ _ _ _ _ P1) as [Q1 L1], (pr_lock _ _ _ _ _ _ _ _ _ P2) as [Q2 L2].
    eapply perm_agree; [done..| | | |]; simpl; try congruence; [|by rewrite L1, L2, Hq].
    apply same_delete. eapply same_relink; [done|eapply pr_relink, P1|eapply pr_relink, P2].
Qed.

Lemma agree_run os (s1 : tstate X1 B1) (s2 : tstate X2 B2) ts :
  agree s1 s2 ts →
  ∃ obs1 obs2 s1' s2' ts', op_run s1 os = Some (obs1, s1') ∧ op_run s2 os = Some (obs2, s2') ∧
    Forall2 obs_eq obs1 obs2 ∧ agree s1' s2' ts'.
Proof.
  revert s1 s2 ts. induction os as [|o os IH]; intros s1 s2 ts Hag; cbn [op_run].
  { eexists [], [], _, _, ts. done. }
  destruct (agree_step s1 s2 ts o Hag) as (ret & f1 & f2 & s1' & s2' & ts' & -> & -> & Hf & Hag').
  cbn [mbind option_bind].
  destruct (IH _ _ _ Hag') as (o1 & o2 & s1'' & s2'' & ts'' & -> & -> & Ho & Hag''). cbn [mbind option_bind].
  eexists _, _, _, _, ts''. do 2 (split; [done|]). split; [|done]. constructor; [|done].
  split; simpl; [done|done|by apply ag_wtrs in Hag'|by eapply agree_deadline].
Qed.
End equiv.

(** ** Property *)


(** A run in which two timers with the same deadline expire. *)
Example ex_ops_heap :
  (map o_fibers ∘ fst) <$> op_run (tstate_init (X := Z) (B := heap_bucket) []) 
    [OAdd 1 (mk_timespec 10 0) 12 (ex_waiter true 22); OAdd 2 (mk_timespec 10 0) 11 (ex_waiter true 21);
     OProcess (mk_timespec 11 0) 1; ODel 2] = Some [[]; []; [22; 21]; []]%positive.
Proof. vm_compute. reflexivity. Qed.

Example ex_ops_rbtree :
  (map o_fibers ∘ fst) <$> op_run (tstate_init (X := bool) (B := rb_bucket) []) 
    [OAdd 1 (mk_timespec 10 0) 12 (ex_waiter true 22); OAdd 2 (mk_timespec 10 0) 11 (ex_waiter true 21);
     OProcess (mk_timespec 11 0) 1; ODel 2] = Some [[]; []; [21; 22]; []]%positive.
Proof. vm_compute. reflexivity. Qed.
