(* ===== verification/Ilock.v ===== *)
(** The internal lock: [src/src/fev_ilock_intf.h], [src/src/fev_ilock_impl.h] and
    [src/src/fev_ilock.c], as a step system.

    Any number of fibers call [fev_ilock_lock] and [fev_ilock_unlock_and_wake].
    A step is one atomic access, one acquisition or release of the inner lock
    (a spin lock or a mutex of the thread library), one operation on the
    waiters list, which is only accessed under the inner lock, or one context
    switch. A blocked fiber keeps the inner lock until the post operation has
    saved its context. Waking up a fiber whose context is not saved is
    undefined, as are failed assertions. Fibers are identified by their
    address. *)

From S2P Require Import Prelude.

Local Open Scope Z_scope.

(** Program counter of a fiber. *)
Inductive ipc :=
| IIdle
| ILock           (* [fev_ilock_lock]: before the compare-and-swap *)
| ISlow           (* [fev_ilock_lock_slow]: before taking the inner lock *)
| IXchg           (* before the exchange *)
| IStore1         (* the exchange gave 0: before storing 1 *)
| IRelease        (* before releasing the inner lock and returning *)
| IInsert         (* before [STAILQ_INSERT_TAIL] *)
| ISwitch         (* before the context switch *)
| IBlocked (post : bool)   (* switched out; [post]: [fev_ilock_lock_post] has not run yet *)
| IWoken          (* running again, before the assertion *)
| IOwn            (* the lock function has returned *)
| IUnlock         (* [fev_ilock_unlock]: before the compare-and-swap *)
| IUSlow          (* [fev_ilock_unlock_slow]: before taking the inner lock *)
| IUAssert        (* before the assertion *)
| IUFirst         (* before removing the head of the list *)
| IUStore1 (next : loc)    (* the list is empty now: before storing 1 *)
| IURelease (next : loc)   (* before releasing the inner lock *)
| IUWake (next : loc).     (* before [fev_cur_wake_one] *)

Record istate := mk_istate {
  state : Z;                (* ilock->state *)
  inner : option loc;       (* the holder of ilock->lock *)
  waiters : list loc;       (* ilock->waiters *)
  pcs : loc → ipc;
  own : option loc;         (* ghost: the fiber that is responsible for the lock *)
}.

Definition set_pc s f p := mk_istate (state s) (inner s) (waiters s) (upd (pcs s) f p) (own s).
Definition set_state s v := mk_istate v (inner s) (waiters s) (pcs s) (own s).
Definition set_inner s o := mk_istate (state s) o (waiters s) (pcs s) (own s).
Definition set_waiters s l := mk_istate (state s) (inner s) l (pcs s) (own s).
Definition set_own s o := mk_istate (state s) (inner s) (waiters s) (pcs s) o.

(** May the fiber [f] take a step? The others wait for the inner lock or have
    to be woken up. *)
Definition ienabled (s : istate) (f : loc) : bool :=
  match pcs s f with
  | ISlow | IUSlow => bool_decide (inner s = None)
  | IBlocked post => post
  | _ => true
  end.

(** The fast path of [fev_ilock_lock]; [spurious]: the weak compare-and-swap
    fails although the value is the expected one. *)
Definition fev_ilock_lock (s : istate) (f : loc) (spurious : bool) : istate :=
  if negb spurious && (state s =? 0)
  then set_pc (set_own (set_state s 1) (Some f)) f IOwn
  else set_pc s f ISlow.

(** The fast path of [fev_ilock_unlock]. *)
Definition fev_ilock_unlock (s : istate) (f : loc) : istate :=
  if state s =? 1
  then set_pc (set_own (set_state s 0) None) f IIdle
  else set_pc s f IUSlow.

(** [fev_ilock_lock_post] runs on the scheduler's stack, after the switch. *)
Definition fev_ilock_lock_post (s : istate) (f : loc) : istate :=
  set_pc (set_inner s None) f (IBlocked false).

(** The end of [fev_ilock_unlock_and_wake]: [next] must have switched away. *)
Definition fev_ilock_wake (s : istate) (f next : loc) : option istate :=
  match pcs s next with
  | IBlocked false => Some (set_own (set_pc (set_pc s f IIdle) next IWoken) (Some next))
  | _ => None
  end.

(** One step of the fiber [f]. *)
Definition istep (s : istate) (f : loc) (spurious : bool) : option istate :=
  match pcs s f with
  | IIdle => Some (set_pc s f ILock)
  | ILock => Some (fev_ilock_lock s f spurious)
  | ISlow => Some (set_pc (set_inner s (Some f)) f IXchg)
  | IXchg =>
      let old := state s in
      let s := set_state s 2 in
      if old =? 0 then Some (set_pc (set_own s (Some f)) f IStore1) else Some (set_pc s f IInsert)
  | IStore1 => Some (set_pc (set_state s 1) f IRelease)
  | IRelease => Some (set_pc (set_inner s None) f IOwn)
  | IInsert => Some (set_pc (set_waiters s (waiters s ++ [f])) f ISwitch)
  | ISwitch => Some (set_pc s f (IBlocked true))
  | IBlocked post => if post then Some (fev_ilock_lock_post s f) else None
  | IWoken => FEV_ASSERT (0 <? state s); Some (set_pc s f IOwn)
  | IOwn => Some (set_pc s f IUnlock)
  | IUnlock => Some (fev_ilock_unlock s f)
  | IUSlow => Some (set_pc (set_inner s (Some f)) f IUAssert)
  | IUAssert => FEV_ASSERT (state s =? 2); Some (set_pc s f IUFirst)
  | IUFirst =>
      match waiters s with
      | [] => None
      | next :: rest =>
          let s := set_waiters s rest in
          Some (set_pc s f (match rest with [] => IUStore1 next | _ => IURelease next end))
      end
  | IUStore1 next => Some (set_pc (set_state s 1) f (IURelease next))
  | IURelease next => Some (set_pc (set_inner s None) f (IUWake next))
  | IUWake next => fev_ilock_wake s f next
  end.

Definition inext (s : istate) (l : loc * bool) : option istate :=
  if ienabled s l.1 then istep s l.1 l.2 else None.

(** [fev_ilock_init]. *)
Definition iinit : istate := mk_istate 0 None [] (λ _, IIdle) None.

(** ** The invariant *)

(** Fibers that are responsible for the lock: they own it, or are passing it on. *)
Definition responsible (p : ipc) : bool :=
  match p with
  | IStore1 | IRelease | IWoken | IOwn | IUnlock | IUSlow | IUAssert | IUFirst
  | IUStore1 _ | IURelease _ | IUWake _ => true
  | _ => false
  end.

Definition has_inner (p : ipc) : bool :=
  match p with
  | IXchg | IStore1 | IRelease | IInsert | ISwitch | IBlocked true
  | IUAssert | IUFirst | IUStore1 _ | IURelease _ => true
  | _ => false
  end.

Definition queued (p : ipc) : bool :=
  match p with ISwitch | IBlocked _ => true | _ => false end.

(** The fiber the lock is being handed to. *)
Definition target_of (p : ipc) : option loc :=
  match p with IUStore1 n | IURelease n | IUWake n => Some n | _ => None end.
Definition target (s : istate) : option loc := o ← own s; target_of (pcs s o).

(** The holder of the inner lock may be about to add the first waiter, or to
    record that there is none. *)
Definition transient (p : ipc) : bool :=
  match p with IStore1 | IInsert | IUStore1 _ => true | _ => false end.

(** The points at which the state is known to be 2. *)
Definition contended (p : ipc) : bool :=
  match p with IInsert | IUSlow | IUAssert | IUFirst | IUStore1 _ => true | _ => false end.

(** The local part of the invariant, for the fiber [g]. *)
Record ilocal (s : istate) (g : loc) : Prop := {
  il_resp : responsible (pcs s g) = true ↔ own s = Some g;
  il_inner : has_inner (pcs s g) = true ↔ inner s = Some g;
  il_queue : g ∈ waiters s ↔ queued (pcs s g) = true ∧ target s ≠ Some g;
  il_target : target s = Some g → pcs s g = IBlocked false;
  il_contended : contended (pcs s g) = true → state s = 2;
  il_last : ∀ n, pcs s g = IUStore1 n → waiters s = [];
  il_first : pcs s g = IStore1 → waiters s = [];
}.

Record iinv (s : istate) : Prop := {
  ii_local : ∀ g, ilocal s g;
  ii_state : (state s = 0 ∧ own s = None) ∨ ((state s = 1 ∨ state s = 2) ∧ own s ≠ None);
  ii_nodup : NoDup (waiters s);
  ii_waiters : waiters s ≠ [] → state s = 2;
  ii_two : state s = 2 → waiters s ≠ [] ∨ ∃ g, inner s = Some g ∧ transient (pcs s g) = true;
}.

Lemma iinv_init : iinv iinit.
Proof.
  split; simpl; try done; [|by left|constructor].
  intros g. split; simpl; try done. split; [by intros ?%not_elem_of_nil|by intros []].
Qed.

(** The fibers that do not move. *)
Lemma ilocal_frame s s' g :
  ilocal s g → pcs s' g = pcs s g → (own s' = Some g ↔ own s = Some g) →
  (inner s' = Some g ↔ inner s = Some g) → (g ∈ waiters s' ↔ g ∈ waiters s) →
  (target s' = Some g ↔ target s = Some g) →
  (contended (pcs s g) = true → state s = 2 → state s' = 2) →
  (responsible (pcs s g) = true → waiters s' = waiters s) → ilocal s' g.
Proof.
  intros [Hr Hi Hq Ht Hu Hl Hf] Ep Eo Ei Ew Et Hs Hs'.
  split; rewrite ?Ep, ?Eo, ?Ei, ?Ew, ?Et; try done.
  - auto.
  - intros n E. rewrite Hs' by by rewrite E. eauto.
  - intros E. rewrite Hs' by by rewrite E. eauto.
Qed.

(** Taking, keeping or releasing the inner lock. *)
Definition inner_move (s : istate) (f : loc) (p : ipc) (o : option loc) : Prop :=
  (o = inner s ∧ has_inner p = has_inner (pcs s f)) ∨
  (inner s = None ∧ o = Some f ∧ has_inner p = true) ∨
  (inner s = Some f ∧ o = None ∧ has_inner p = false).

(** The steps that change the program counter and the inner lock only. *)
Lemma iinv_move s f p o :
  iinv s → inner_move s f p o →
  responsible p = responsible (pcs s f) → queued p = queued (pcs s f) →
  target_of p = target_of (pcs s f) → transient (pcs s f) = false → transient p = false →
  (contended p = true → state s = 2) → (pcs s f = IBlocked false → p = IBlocked false) →
  iinv (set_pc (set_inner s o) f p).
Proof.
  intros [Hloc Hst Hnd Hw H2] Hin Hr Hq Htg Htr Htr' Hu Hb. destruct (Hloc f) as [Fr Fi Fq Ft Fu Fl Ff].
  set (s' := set_pc (set_inner s o) f p).
  assert (Et : target s' = target s).
  { unfold target. simpl. destruct (own s) as [o'|]; [|done]. simpl.
    destruct (decide (f = o')) as [<-|]; [by rewrite upd_eq|by rewrite upd_ne]. }
  assert (Hi' : has_inner p = true ↔ o = Some f).
  { destruct Hin as [[-> ->]|[(_ & -> & ->)|(_ & -> & ->)]]; [done|done|]. split; by intros. }
  assert (Hig : ∀ g, f ≠ g → o = Some g ↔ inner s = Some g).
  { intros g Hne. destruct Hin as [[-> _]|[(-> & -> & _)|(-> & -> & _)]]; [done|..]; split; congruence. }
  split; simpl; try done.
  - intros g. destruct (decide (f = g)) as [<-|Hne].
    + split; rewrite ?Et; simpl; rewrite ?upd_eq; try done.
      * by rewrite Hr.
      * by rewrite Hq.
      * auto.
      * intros n E. by rewrite E in Htr'.
      * intros E. by rewrite E in Htr'.
    + eapply ilocal_frame; [apply Hloc|by apply upd_ne|done|by apply Hig|done|by rewrite Et|done|done].
  - intros E. destruct (H2 E) as [?|(g & Hg & Hg')]; [by left|]. right. exists g.
    assert (f ≠ g) by congruence. rewrite upd_ne by done. by rewrite Hig.
Qed.

(** The fiber [f] becomes responsible for a free lock. *)
Lemma iinv_acquire s f p v :
  iinv s → state s = 0 → responsible (pcs s f) = false → responsible p = true →
  has_inner p = has_inner (pcs s f) → queued (pcs s f) = false → target_of p = None →
  contended p = false → (v = 1 ∧ transient p = false ∨ v = 2 ∧ p = IStore1) →
  iinv (set_pc (set_own (set_state s v) (Some f)) f p).
Proof.
  intros [Hloc Hst Hnd Hw H2] H0 Hr Hr' Hi Hq Htg Hu Hv. destruct (Hloc f) as [Fr Fi Fq Ft Fu Fl Ff].
  set (s' := set_pc _ f p).
  assert (Ho : own s = None) by (destruct Hst as [[_ ?]|[[?|?] _]]; [done|lia|lia]).
  assert (Hw0 : waiters s = []) by (destruct (waiters s) eqn:E; [done|by rewrite Hw in H0]).
  assert (Et : target s = None) by (unfold target; by rewrite Ho).
  assert (Et' : target s' = None) by (unfold target; simpl; by rewrite upd_eq).
  assert (Hqp : queued p = false) by by destruct p.
  split; simpl; try done.
  - intros g. destruct (decide (f = g)) as [<-|Hne].
    + split; rewrite ?Et'; simpl; rewrite ?upd_eq; try done.
      * by rewrite Hi.
      * rewrite Hw0, Hqp. split; [by intros ?%not_elem_of_nil|by intros []].
      * rewrite Hu. done.
    + destruct (Hloc g) as [Gr _ _ _ _ _ _].
      eapply ilocal_frame; [apply Hloc|by apply upd_ne|simpl; rewrite Ho|done..|by rewrite Et, Et'| |].
      * split; congruence.
      * intros _ E. lia.
      * rewrite Gr, Ho. done.
  - right. split; [|done]. destruct Hv as [[? _]|[? _]]; auto.
  - intros ->. destruct Hv as [[? _]|[_ ->]]; [done|]. right. exists f. rewrite upd_eq. split; [|done].
    apply Fi. by rewrite <- Hi.
Qed.

(** *** The remaining steps, one by one *)

Lemma iinv_add_state s f :
  iinv s → pcs s f = IXchg → state s ≠ 0 → iinv (set_pc (set_state s 2) f IInsert).
Proof.
  intros [Hloc Hst Hnd Hw H2] Hpc H0. destruct (Hloc f) as [Fr Fi Fq Ft Fu Fl Ff]. rewrite Hpc in *. simpl in *.
  set (s' := set_pc _ _ _).
  assert (Et : target s' = target s).
  { unfold target. simpl. destruct (own s) as [o|]; [|done]. simpl. rewrite upd_ne; [done|].
    intros <-. discriminate (proj2 Fr eq_refl). }
  split; simpl; try done.
  - intros g. destruct (decide (f = g)) as [<-|Hne].
    + split; rewrite ?Et; simpl; rewrite ?upd_eq; try done. by intros ?%Ft.
    + destruct (Hloc g) as [Gr Gi Gq Gt Gu Gl Gf]. split; rewrite ?Et; simpl; rewrite ?upd_ne by done; done.
  - right. split; [by right|]. destruct Hst as [[??]|[??]]; done.
  - intros _. right. exists f. rewrite upd_eq. split; [by apply Fi|done].
Qed.

(** Storing 1 when nobody waits: after a late acquisition, or after the last
    waiter was removed. *)
Lemma iinv_store1 s f p :
  iinv s → (pcs s f = IStore1 ∧ p = IRelease ∨ ∃ n, pcs s f = IUStore1 n ∧ p = IURelease n) →
  iinv (set_pc (set_state s 1) f p).
Proof.
  intros [Hloc Hst Hnd Hw H2] Hcase. destruct (Hloc f) as [Fr Fi Fq Ft Fu Fl Ff].
  assert (Hw0 : waiters s = []) by (destruct Hcase as [[? _]|(n & ? & _)]; eauto).
  assert (Hp : responsible (pcs s f) = true ∧ responsible p = true ∧ has_inner (pcs s f) = true ∧
    has_inner p = true ∧ queued p = queued (pcs s f) ∧ target_of p = target_of (pcs s f) ∧
    contended p = false ∧ transient p = false).
  { destruct Hcase as [[-> ->]|(n & -> & ->)]; done. }
  destruct Hp as (P1 & P2 & P3 & P4 & P5 & P6 & P7 & P8).
  assert (Ho : own s = Some f) by by apply Fr. assert (Hi : inner s = Some f) by by apply Fi.
  set (s' := set_pc _ _ _).
  assert (Et : target s' = target s) by (unfold target; simpl; rewrite Ho; simpl; by rewrite upd_eq).
  split; simpl; try done.
  - intros g. destruct (decide (f = g)) as [<-|Hne].
    + split; rewrite ?Et; simpl; rewrite ?upd_eq; try done.
      * by rewrite P5.
      * intros E. apply Ft in E. rewrite E in P1. done.
      * rewrite P7. done.
    + destruct (Hloc g) as [Gr Gi Gq Gt Gu Gl Gf]. split; rewrite ?Et; simpl; rewrite ?upd_ne by done; try done.
      intros E. assert (own s = Some g ∨ inner s = Some g) as [?|?]; [|congruence..].
      rewrite <- Gr, <- Gi. destruct (pcs s g); auto.
  - right. rewrite Ho. auto.
Qed.

Lemma iinv_insert s f :
  iinv s → pcs s f = IInsert → iinv (set_pc (set_waiters s (waiters s ++ [f])) f ISwitch).
Proof.
  intros [Hloc Hst Hnd Hw H2] Hpc. destruct (Hloc f) as [Fr Fi Fq Ft Fu Fl Ff]. rewrite Hpc in *. simpl in *.
  set (s' := set_pc _ _ _). assert (Hi : inner s = Some f) by by apply Fi.
  assert (Ho : own s ≠ Some f) by (intros E; by apply Fr in E).
  assert (Et : target s' = target s).
  { unfold target. simpl. destruct (own s) as [o|]; [|done]. simpl. rewrite upd_ne; [done|congruence]. }
  assert (Hnf : f ∉ waiters s) by (rewrite Fq; by intros []).
  assert (Htf : target s ≠ Some f) by (intros E; apply Ft in E; done).
  split; simpl; try done.
  - intros g. destruct (decide (f = g)) as [<-|Hne].
    + split; rewrite ?Et; simpl; rewrite ?upd_eq; try done.
      rewrite elem_of_app, list_elem_of_singleton. split; auto.
    + destruct (Hloc g) as [Gr Gi Gq Gt Gu Gl Gf]. split; rewrite ?Et; simpl; rewrite ?upd_ne by done; try done.
      * rewrite elem_of_app, list_elem_of_singleton, <- Gq. split; [intros [?|?]; [done|congruence]|auto].
      * intros n E. assert (inner s = Some g); [|congruence]. apply Gi. by rewrite E.
      * intros E. assert (inner s = Some g); [|congruence]. apply Gi. by rewrite E.
  - apply NoDup_app. split; [done|]. split; [|apply NoDup_singleton].
    intros g Hg ->%list_elem_of_singleton. done.
  - intros _. auto.
  - intros _. left. by destruct (waiters s).
Qed.

(** Releasing a lock nobody waits for. *)
Lemma iinv_free s f :
  iinv s → pcs s f = IUnlock → state s = 1 → iinv (set_pc (set_own (set_state s 0) None) f IIdle).
Proof.
  intros [Hloc Hst Hnd Hw H2] Hpc H1. destruct (Hloc f) as [Fr Fi Fq Ft Fu Fl Ff]. rewrite Hpc in *. simpl in *.
  assert (Ho : own s = Some f) by by apply Fr.
  assert (Hw0 : waiters s = []) by (destruct (waiters s) eqn:E; [done|by rewrite Hw in H1]).
  set (s' := set_pc _ _ _).
  assert (Et : target s = None) by (unfold target; rewrite Ho; simpl; by rewrite Hpc).
  split; simpl; try done; [|by left].
  intros g. destruct (decide (f = g)) as [<-|Hne].
  - split; simpl; rewrite ?upd_eq; try done. rewrite Hw0. split; [by intros ?%not_elem_of_nil|by intros []].
  - destruct (Hloc g) as [Gr Gi Gq Gt Gu Gl Gf].
    eapply ilocal_frame; [apply Hloc|by apply upd_ne|simpl; rewrite Ho; split; congruence|done..|
      by rewrite Et| |done]. intros _ E. lia.
Qed.

(** The head of the list is chosen as the next owner. *)
Lemma iinv_first s f n rest :
  iinv s → pcs s f = IUFirst → waiters s = n :: rest →
  iinv (set_pc (set_waiters s rest) f (match rest with [] => IUStore1 n | _ => IURelease n end)).
Proof.
  intros [Hloc Hst Hnd Hw H2] Hpc Hws. destruct (Hloc f) as [Fr Fi Fq Ft Fu Fl Ff]. rewrite Hpc in *. simpl in *.
  assert (Ho : own s = Some f) by by apply Fr. assert (Hi : inner s = Some f) by by apply Fi.
  set (p := match rest with [] => _ | _ => _ end).
  assert (P : responsible p = true ∧ has_inner p = true ∧ queued p = false ∧ target_of p = Some n) by by destruct rest.
  destruct P as (P1 & P2 & P3 & P4). set (s' := set_pc _ _ _).
  assert (Et : target s = None) by (unfold target; rewrite Ho; simpl; by rewrite Hpc).
  assert (Et' : target s' = Some n) by (unfold target; simpl; rewrite Ho; simpl; by rewrite upd_eq).
  rewrite Hws in Hnd. apply NoDup_cons in Hnd as [Hnr Hnd].
  assert (Hqn : queued (pcs s n) = true).
  { destruct (Hloc n) as [_ _ Gq _ _ _ _]. apply Gq. rewrite Hws. apply list_elem_of_here. }
  assert (Hnf : n ≠ f) by (intros ->; by rewrite Hpc in Hqn).
  split; simpl; try done.
  - intros g. destruct (decide (f = g)) as [<-|Hne].
    + split; rewrite ?Et'; simpl; rewrite ?upd_eq; try done.
      * rewrite P3. split; [|by intros []]. intros Hg. assert (f ∈ waiters s) as [? _]%Fq; [|done]. rewrite Hws. by apply list_elem_of_further.
      * congruence.
      * auto.
      * unfold p. destruct rest; [done|]. intros ? [=].
      * unfold p. by destruct rest.
    + destruct (Hloc g) as [Gr Gi Gq Gt Gu Gl Gf]. split; rewrite ?Et'; simpl; rewrite ?upd_ne by done; try done.
      * split.
        -- intros Hg. split; [|congruence]. apply Gq. rewrite Hws. by apply list_elem_of_further.
        -- intros [Hg Hng]. assert (g ∈ waiters s) as Hin by (apply Gq; by rewrite Et).
           rewrite Hws in Hin. apply elem_of_cons in Hin as [->|]; done.
      * intros [=<-]. destruct (pcs s n) as [| | | | | | | |[]| | | | | | | | |]; try done;
          (assert (inner s = Some n); [by apply Gi|congruence]).
      * intros m E. assert (inner s = Some g); [|congruence]. apply Gi. by rewrite E.
      * intros E. assert (inner s = Some g); [|congruence]. apply Gi. by rewrite E.
  - intros _. by apply Fu.
  - intros _. unfold p. destruct rest; [|by left]. right. exists f. by rewrite upd_eq.
Qed.

(** Waking up the next owner, whose context is saved. *)
Lemma iinv_wake s f n :
  iinv s → pcs s f = IUWake n →
  pcs s n = IBlocked false ∧ iinv (set_own (set_pc (set_pc s f IIdle) n IWoken) (Some n)).
Proof.
  intros [Hloc Hst Hnd Hw H2] Hpc. destruct (Hloc f) as [Fr Fi Fq Ft Fu Fl Ff]. rewrite Hpc in *. simpl in *.
  assert (Ho : own s = Some f) by by apply Fr.
  assert (Et : target s = Some n) by (unfold target; rewrite Ho; simpl; by rewrite Hpc).
  destruct (Hloc n) as [Nr Ni Nq Nt Nu Nl Nf]. assert (Hpn : pcs s n = IBlocked false) by auto.
  rewrite Hpn in *. simpl in *. split; [done|].
  assert (Hnf : n ≠ f) by (intros ->; congruence).
  set (s' := set_own _ _). assert (Et' : target s' = None) by (unfold target; simpl; by rewrite upd_eq).
  split; simpl; try done.
  - intros g. destruct (decide (n = g)) as [<-|Hng]; [|destruct (decide (f = g)) as [<-|Hne]].
    + split; rewrite ?Et'; simpl; rewrite ?upd_eq; try done.
      rewrite Nq, Et. split; by intros [].
    + split; rewrite ?Et'; simpl; rewrite ?upd_ne, ?upd_eq by done; try done.
      * split; [done|congruence].
      * rewrite Fq. split; by intros [].
    + destruct (Hloc g) as [Gr Gi Gq Gt Gu Gl Gf].
      split; rewrite ?Et'; simpl; rewrite ?upd_ne, ?upd_ne by done; try done.
      * rewrite Gr, Ho. split; congruence.
      * rewrite Gq, Et. split; intros []; (split; [done|congruence]).
  - destruct Hst as [[_ ?]|[? _]]; [congruence|]. right. split; [done|]. done.
  - intros E. destruct (H2 E) as [?|(g & Hg & Hg')]; [by left|]. right. exists g. split; [done|].
    rewrite !upd_ne; [done|..]; intros <-; by rewrite ?Hpc, ?Hpn in Hg'.
Qed.

Ltac imove Hpc Hmove Fi :=
  eexists; split; [reflexivity|]; rewrite ?Hmove; apply iinv_move; unfold inner_move;
    rewrite ?Hpc; simpl; try done;
    first [by left | by right; left | right; right; by (split; [apply Fi|]) | idtac].

(** Every step that can be taken is defined and preserves the invariant. *)
Lemma iinv_step s f sp :
  iinv s → ienabled s f = true → ∃ s', istep s f sp = Some s' ∧ iinv s'.
Proof.
  intros Hi He. pose proof (ii_local _ Hi f) as [Fr Fi Fq Ft Fu Fl Ff].
  pose proof (ii_state _ Hi) as Hst. pose proof (ii_two _ Hi) as H2.
  assert (Hmove : ∀ p, set_pc s f p = set_pc (set_inner s (inner s)) f p) by (by destruct s).
  unfold ienabled in He. unfold istep, fev_ilock_lock, fev_ilock_unlock, fev_ilock_lock_post, fev_ilock_wake.
  destruct (pcs s f) eqn:Hpc; rewrite ?Hpc in *; simpl in *; try apply bool_decide_eq_true in He.
  all: try (imove Hpc Hmove Fi; done).
  - destruct (negb sp && (state s =? 0)) eqn:E; [|imove Hpc Hmove Fi]. Zbool.
    eexists; split; [done|]. apply iinv_acquire; rewrite ?Hpc; auto.
  - destruct (Z.eqb_spec (state s) 0); eexists; (split; [done|]).
    + apply iinv_acquire; rewrite ?Hpc; auto.
    + by apply iinv_add_state.
  - eexists; split; [done|]. apply iinv_store1; [done|]. by left.
  - eexists; split; [done|]. by apply iinv_insert.
  - destruct post; [imove Hpc Hmove Fi|done].
  - assert (own s = Some f) as Ho by by apply Fr. rewrite (proj2 (Z.ltb_lt _ _)).
    + imove Hpc Hmove Fi.
    + destruct Hst as [[_ ?]|[? _]]; [congruence|lia].
  - destruct (Z.eqb_spec (state s) 1).
    + eexists; split; [done|]. by apply iinv_free.
    + imove Hpc Hmove Fi. intros _. assert (own s = Some f) as Ho by by apply Fr.
      destruct Hst as [[_ ?]|[? _]]; [congruence|lia].
  - rewrite (proj2 (Z.eqb_eq _ _)) by auto. imove Hpc Hmove Fi.
  - destruct (waiters s) as [|n rest] eqn:Hws.
    + exfalso. destruct (H2 (Fu eq_refl)) as [?|(g & Hg & Hg')]; [done|].
      assert (inner s = Some f) by by apply Fi. simplify_eq. by rewrite Hpc in Hg'.
    + eexists; split; [done|]. by apply iinv_first.
  - eexists; split; [done|]. apply iinv_store1; [done|]. right. eauto.
  - destruct (iinv_wake s f next Hi Hpc) as [-> ?]. eauto.
Qed.

Lemma iinv_reach s : reach inext iinit s → iinv s.
Proof.
  apply reach_invariant; [apply iinv_init|].
  intros s1 [f sp] s2 Hi Hs. unfold inext in Hs. cbn [fst snd] in Hs. destruct (ienabled s1 f) eqn:He; [|done].
  destruct (iinv_step s1 f sp Hi He) as (s' & E & Hi'). by simplify_eq.
Qed.

(** The unlock operation of a whole lock: what [Timers.unlock] says. *)
Definition iunlocked (s : istate) (f : loc) : istate * option loc :=
  match waiters s with
  | [] => (mk_istate 0 (inner s) [] (upd (pcs s) f IIdle) None, None)
  | n :: rest =>
      (mk_istate (match rest with [] => 1 | _ => 2 end) (inner s) rest
         (upd (upd (pcs s) f IIdle) n IWoken) (Some n), Some n)
  end.

(** Three fibers: 1 owns the lock, 2 and 3 wait for it, 1 is about to unlock. *)
Definition ex_ilock_schedule : list (loc * bool) :=
  [(1, false); (1, false); (2, false); (2, true); (2, false); (2, false); (3, false); (3, false);
   (2, false); (2, false); (2, false); (3, false); (3, false); (3, false); (3, false); (3, false);
   (1, false)]%positive.
Definition ex_ilock (n : nat) : istate := default iinit (run inext iinit (take n ex_ilock_schedule)).

Lemma ex_ilock_reach n : (n < 18)%nat → reach inext iinit (ex_ilock n).
Proof.
  intros Hn. apply (run_reach inext iinit iinit (take n ex_ilock_schedule)); [constructor|].
  unfold ex_ilock. do 18 (destruct n as [|n]; [vm_compute; reflexivity|]). lia.
Qed.

Example ex_ilock_waiters : waiters (ex_ilock 17) = [2; 3]%positive.
Proof. vm_compute. reflexivity. Qed.

(** ** Properties *)

(** Mutual exclusion: at most one fiber is between the return of
    [fev_ilock_lock] and the release in [fev_ilock_unlock], whatever the
    interleaving and the spurious failures of the compare-and-swap. *)
Theorem ilock_mutual_exclusion s f g :
  reach inext iinit s → pcs s f = IOwn → pcs s g = IOwn → f = g.
Proof.
  intros Hi%iinv_reach Hf Hg. pose proof (ii_local _ Hi f) as [Fr _ _ _ _ _ _].
  pose proof (ii_local _ Hi g) as [Gr _ _ _ _ _ _]. rewrite Hf in Fr. rewrite Hg in Gr.
  destruct Fr as [Fr _], Gr as [Gr _]. rewrite Fr in Gr by done. by injection (Gr eq_refl).
Qed.

Lemma ilock_mutual_exclusion_witness :
  pcs (ex_ilock 16) 1%positive = IOwn ∧ (1 = 1)%positive.
Proof.
  assert (E : pcs (ex_ilock 16) 1%positive = IOwn) by (vm_compute; reflexivity).
  split; [exact E|]. exact (ilock_mutual_exclusion _ _ _ (ex_ilock_reach 16 ltac:(lia)) E E).
Defined.

(** No assertion of the lock fails: in [fev_ilock_unlock_slow] the state is
    2 and the list is not empty, the woken fiber finds the lock held, and a
    fiber is only ever woken up after its context was saved. *)
Theorem ilock_assertions_hold s f sp :
  reach inext iinit s → ienabled s f = true → is_Some (istep s f sp).
Proof.
  intros Hi%iinv_reach He. destruct (iinv_step s f sp Hi He) as (s' & -> & _). eauto.
Qed.

Lemma ilock_assertions_hold_witness :
  ienabled (ex_ilock 17) 1%positive = true ∧ is_Some (istep (ex_ilock 17) 1%positive false).
Proof.
  assert (E : ienabled (ex_ilock 17) 1%positive = true) by (vm_compute; reflexivity).
  split; [exact E|]. exact (ilock_assertions_hold _ _ false (ex_ilock_reach 17 ltac:(lia)) E).
Defined.

(** No waiter is forgotten: while a fiber waits, some fiber is responsible
    for the lock (it owns it or is handing it over), and unless that fiber is
    already handing it over, a completed unlock has to take the slow path. *)
Theorem ilock_no_forgotten_waiter s f :
  reach inext iinit s → queued (pcs s f) = true →
  ∃ g, g ≠ f ∧ responsible (pcs s g) = true ∧
       (target_of (pcs s g) = Some f ∨ (f ∈ waiters s ∧ state s = 2)).
Proof.
  intros Hi%iinv_reach Hq. pose proof (ii_local _ Hi f) as [Fr _ Fq Ft _ _ _].
  assert (∃ g, own s = Some g) as [g Hg].
  { destruct (own s) as [g|] eqn:Ho; [eauto|]. exfalso.
    destruct (ii_state _ Hi) as [[H0 _]|[_ ?]]; [|congruence].
    assert (f ∈ waiters s) as Hin by (apply Fq; split; [done|]; unfold target; by rewrite Ho).
    rewrite (ii_waiters _ Hi) in H0; [done|]. intros E. rewrite E in Hin. by apply not_elem_of_nil in Hin. }
  pose proof (ii_local _ Hi g) as [Gr _ _ _ _ _ _]. exists g.
  assert (responsible (pcs s g) = true) as Hr by by apply Gr.
  split; [intros ->; by destruct (pcs s f)|]. split; [done|].
  destruct (decide (target s = Some f)) as [E|E].
  - left. unfold target in E. by rewrite Hg in E.
  - right. assert (f ∈ waiters s) as Hin by by apply Fq. split; [done|]. apply (ii_waiters _ Hi).
    intros E'. rewrite E' in Hin. by apply not_elem_of_nil in Hin.
Qed.

Lemma ilock_no_forgotten_waiter_witness :
  queued (pcs (ex_ilock 17) 3%positive) = true ∧
  ∃ g, g ≠ 3%positive ∧ responsible (pcs (ex_ilock 17) g) = true.
Proof.
  assert (E : queued (pcs (ex_ilock 17) 3%positive) = true) by (vm_compute; reflexivity).
  split; [exact E|].
  destruct (ilock_no_forgotten_waiter _ _ (ex_ilock_reach 17 ltac:(lia)) E) as (g & H1 & H2 & _).
  exists g. split; [exact H1|exact H2].
Defined.

(** C33: The lock excludes and forgets nobody, whatever the interleaving and the spurious failures of the compare-and-swap. At most one
    fiber is between the return of [fev_ilock_lock] and the release in [fev_ilock_unlock], no assertion fails, and while a fiber waits
    another one is responsible for the lock: it is handing the lock over to the waiter, or the waiter is in the list and the state
    forces the next unlock to take the slow path. *)
Theorem ilock_correct s :
  reach inext iinit s →
  (∀ f g, pcs s f = IOwn → pcs s g = IOwn → f = g) ∧
  (∀ f sp, ienabled s f = true → is_Some (istep s f sp)) ∧
  (∀ f, queued (pcs s f) = true →
     ∃ g, g ≠ f ∧ responsible (pcs s g) = true ∧ (target_of (pcs s g) = Some f ∨ (f ∈ waiters s ∧ state s = 2))).
Proof.
  intros Hr. split_and!; intros f.
  - intros g. by apply ilock_mutual_exclusion.
  - intros sp. by apply ilock_assertions_hold.
  - by apply ilock_no_forgotten_waiter.
Qed.

Lemma ilock_correct_witness :
  queued (pcs (ex_ilock 17) 3%positive) = true ∧ is_Some (istep (ex_ilock 17) 1%positive false) ∧
  ∃ g, g ≠ 3%positive ∧ responsible (pcs (ex_ilock 17) g) = true.
Proof.
  assert (E : queued (pcs (ex_ilock 17) 3%positive) = true) by (vm_compute; reflexivity).
  assert (E1 : ienabled (ex_ilock 17) 1%positive = true) by (vm_compute; reflexivity).
  destruct (ilock_correct _ (ex_ilock_reach 17 ltac:(lia))) as (_ & H1 & H2).
  split; [exact E|]. split; [exact (H1 _ false E1)|]. destruct (H2 _ E) as (g & Hg & Hr & _). exists g. split; [exact Hg|exact Hr].
Defined.

(** Direct hand-off in FIFO order: an unlock that is not interrupted frees
    the lock when nobody waits; otherwise the first waiter owns the lock and
    is woken up, the state says whether others still wait, and no other fiber
    can acquire the lock in between. *)
Theorem ilock_unlock_hands_over s f :
  reach inext iinit s → pcs s f = IUnlock → inner s = None →
  ∃ k s', run inext s (replicate k (f, false)) = Some s' ∧
    state s' = state (iunlocked s f).1 ∧ waiters s' = waiters (iunlocked s f).1 ∧
    inner s' = None ∧ (∀ g, pcs s' g = pcs (iunlocked s f).1 g) ∧ own s' = (iunlocked s f).2.
Proof.
  intros Hi%iinv_reach Hpc Hin. pose proof (ii_local _ Hi f) as [Fr _ _ _ _ _ _].
  assert (Ho : own s = Some f) by (apply Fr; by rewrite Hpc).
  pose proof (ii_state _ Hi) as Hst. pose proof (ii_waiters _ Hi) as Hw. pose proof (ii_two _ Hi) as H2.
  unfold iunlocked. destruct (waiters s) as [|n rest] eqn:Hws.
  - assert (state s = 1) as E1.
    { destruct Hst as [[_ ?]|[[?|E] _]]; [congruence|done|]. destruct (H2 E) as [?|(g & Hg & _)]; [done|congruence]. }
    exists 1%nat. eexists. simpl. unfold inext, ienabled, istep, fev_ilock_lock, fev_ilock_unlock, fev_ilock_lock_post, fev_ilock_wake. simpl. rewrite Hpc, E1. simpl.
    split; [done|]. simpl; by rewrite ?Hws.
  - assert (state s = 2) as E2 by (by apply Hw).
    pose proof (ii_local _ Hi n) as [_ Ni Nq _ _ _ _].
    assert (target s = None) as Et by (unfold target; rewrite Ho; simpl; by rewrite Hpc).
    assert (queued (pcs s n) = true) as Hq by (apply Nq; rewrite Hws; apply list_elem_of_here).
    assert (pcs s n = IBlocked false) as Hn.
    { destruct (pcs s n) as [| | | | | | | |[]| | | | | | | | |]; try done;
        (assert (inner s = Some n); [by apply Ni|congruence]). }
    assert (f ≠ n) as Hne by congruence.
    destruct rest as [|n2 rest]; [exists 7%nat|exists 6%nat]; eexists;
      (split; [simpl; unfold inext, ienabled, istep, fev_ilock_lock, fev_ilock_unlock, fev_ilock_lock_post, fev_ilock_wake; simpl;
         repeat (rewrite ?Hpc, ?Hin, ?E2, ?Hws, ?upd_eq, ?(upd_ne _ f _ n Hne), ?Hn; simpl); reflexivity|]);
      simpl; repeat (split; [done|]); (split; [|done]); intros g; unfold upd; repeat case_decide; done.
Qed.

Lemma ilock_unlock_hands_over_witness :
  pcs (ex_ilock 17) 1%positive = IUnlock ∧ inner (ex_ilock 17) = None ∧
  ∃ k s', run inext (ex_ilock 17) (replicate k (1%positive, false)) = Some s' ∧ own s' = Some 2%positive.
Proof.
  assert (E1 : pcs (ex_ilock 17) 1%positive = IUnlock) by (vm_compute; reflexivity).
  assert (E2 : inner (ex_ilock 17) = None) by (vm_compute; reflexivity).
  split; [exact E1|]. split; [exact E2|].
  destruct (ilock_unlock_hands_over _ _ (ex_ilock_reach 17 ltac:(lia)) E1 E2)
    as (k & s' & H & _ & _ & _ & _ & Ho).
  exists k, s'. split; [exact H|]. rewrite Ho. vm_compute. reflexivity.
Defined.
