(* ===== verification/ThrLock.v ===== *)
(** Locks of the thread library: the futex mutex of
    [src/src/fev_thr_mutex_linux.h] and [src/src/fev_thr_mutex_linux.c], and the
    spin lock of [src/src/fev_spinlock_impl.h].

    Both are step systems of threads that lock and unlock; a step is an atomic
    access or a system call. [LockSpec] states what the components that use
    such a lock rely on, namely that it behaves as an atomic lock with a single
    holder; the two implementations are instances. *)

From S2P Require Import Prelude.

Local Open Scope Z_scope.

(** ** What a lock promises *)

(** The abstract lock: a thread acquires it when it is free, and its holder
    releases it. *)
Inductive lock_op := Acquire (t : loc) | Release (t : loc).

Definition abs_next (h : option loc) (op : lock_op) : option (option loc) :=
  match op with
  | Acquire t => if decide (h = None) then Some (Some t) else None
  | Release t => if decide (h = Some t) then Some None else None
  end.

(** An implementation: its states and steps, the thread that holds the lock in
    a state, and whether a thread has returned from the lock function and not
    called the unlock function yet. *)
Record lock_impl := mk_lock_impl {
  li_state : Type;
  li_label : Type;
  li_init : li_state;
  li_next : li_state → li_label → option li_state;
  li_holder : li_state → option loc;
  li_owns : li_state → loc → bool;
}.

Class LockSpec (L : lock_impl) : Prop := {
  holder_init : li_holder L (li_init L) = None;
  holder_step s lb s' : reach (li_next L) (li_init L) s → li_next L s lb = Some s' →
    li_holder L s' = li_holder L s ∨ ∃ op, abs_next (li_holder L s) op = Some (li_holder L s');
  owns_holder s t : reach (li_next L) (li_init L) s → li_owns L s t = true → li_holder L s = Some t;
}.

Section spec.
Context (L : lock_impl) `{HL : !LockSpec L}.

(** Every execution of an implementation is an execution of the abstract lock. *)
Lemma lock_refines s :
  reach (li_next L) (li_init L) s → reach abs_next None (li_holder L s).
Proof using HL.
  induction 1 as [|s lb s' Hr IH Hs].
  - rewrite holder_init. constructor.
  - destruct (holder_step s lb s' Hr Hs) as [->|[op Hop]]; [done|].
    by eapply reach_step.
Qed.
End spec.

(** ** The futex mutex *)

(** Program counter of a thread. *)
Inductive mpc :=
| MIdle
| MTry          (* [fev_thr_mutex_try_lock]: before the compare-and-swap *)
| MLock         (* [fev_thr_mutex_lock]: before the compare-and-swap *)
| MLoad         (* [fev_thr_mutex_lock_slow]: before the load *)
| MXchg         (* before an exchange with 2 *)
| MWait         (* before the system call [FUTEX_WAIT] *)
| MSleep        (* asleep in the kernel *)
| MOwn
| MUnlock       (* [fev_thr_mutex_unlock]: before the exchange *)
| MWake.        (* before the system call [FUTEX_WAKE] *)

#[export] Instance mpc_eq_dec : EqDecision mpc.
Proof. solve_decision. Defined.

Record mstate := mk_mstate {
  word : Z;               (* mutex->state *)
  sleepers : list loc;    (* the threads the kernel has queued on the futex *)
  mpcs : loc → mpc;
  mholder : option loc;   (* ghost *)
}.

Definition m_pc s t p := mk_mstate (word s) (sleepers s) (upd (mpcs s) t p) (mholder s).
Definition m_word s v := mk_mstate v (sleepers s) (mpcs s) (mholder s).
Definition m_sleepers s l := mk_mstate (word s) l (mpcs s) (mholder s).
Definition m_holder s o := mk_mstate (word s) (sleepers s) (mpcs s) o.

(** [MStep t spurious]: a step of [t]; the weak compare-and-swap may fail
    spuriously. [MTryCall t]: [t] calls [fev_thr_mutex_try_lock]. [MWakeOne t u]:
    [FUTEX_WAKE] by [t], the kernel picks [u]. [MInterrupt u]: [FUTEX_WAIT]
    returns to [u] without a wake-up ([EINTR]). *)
Inductive mlabel :=
| MStep (t : loc) (spurious : bool) | MTryCall (t : loc) | MWakeOne (t u : loc) | MInterrupt (u : loc).

(** The compare-and-swap of 0 by 1, and where [t] goes when it fails. *)
Definition mutex_cas (s : mstate) (t : loc) (spurious : bool) (failed : mpc) : mstate :=
  if negb spurious && (word s =? 0)
  then m_pc (m_holder (m_word s 1) (Some t)) t MOwn
  else m_pc s t failed.

(** [FUTEX_WAIT]: sleep if the word is still 2, otherwise [EAGAIN]. *)
Definition fev_futex_wait (s : mstate) (t : loc) : mstate :=
  if word s =? 2 then m_pc (m_sleepers s (sleepers s ++ [t])) t MSleep else m_pc s t MXchg.

(** The load and the exchanges of [fev_thr_mutex_lock_slow]. *)
Definition lock_slow_load (s : mstate) (t : loc) : mstate :=
  m_pc s t (if word s =? 2 then MWait else MXchg).

Definition lock_slow_xchg (s : mstate) (t : loc) : mstate :=
  let old := word s in
  let s := m_word s 2 in
  if old =? 0 then m_pc (m_holder s (Some t)) t MOwn else m_pc s t MWait.

Definition mutex_step (s : mstate) (t : loc) (spurious : bool) : option mstate :=
  match mpcs s t with
  | MIdle => Some (m_pc s t MLock)
  | MTry => Some (mutex_cas s t spurious MIdle)
  | MLock => Some (mutex_cas s t spurious MLoad)
  | MLoad => Some (lock_slow_load s t)
  | MXchg => Some (lock_slow_xchg s t)
  | MWait => Some (fev_futex_wait s t)
  | MSleep => None
  | MOwn => Some (m_pc s t MUnlock)
  | MUnlock =>
      let old := word s in
      let s := m_holder (m_word s 0) None in
      Some (m_pc s t (if old =? 2 then MWake else MIdle))
  | MWake => if decide (sleepers s = []) then Some (m_pc s t MIdle) else None
  end.

Definition fev_futex_wake (s : mstate) (t u : loc) : option mstate :=
  if decide (mpcs s t = MWake ∧ u ∈ sleepers s)
  then Some (m_pc (m_pc (m_sleepers s (filter (λ x, x ≠ u) (sleepers s))) t MIdle) u MXchg)
  else None.

Definition futex_interrupt (s : mstate) (u : loc) : option mstate :=
  if decide (u ∈ sleepers s)
  then Some (m_pc (m_sleepers s (filter (λ x, x ≠ u) (sleepers s))) u MXchg)
  else None.

Definition mutex_next (s : mstate) (lb : mlabel) : option mstate :=
  match lb with
  | MStep t sp => mutex_step s t sp
  | MTryCall t => if decide (mpcs s t = MIdle) then Some (m_pc s t MTry) else None
  | MWakeOne t u => fev_futex_wake s t u
  | MInterrupt u => futex_interrupt s u
  end.

(** [fev_thr_mutex_init]. *)
Definition fev_thr_mutex_init : mstate := mk_mstate 0 [] (λ _, MIdle) None.

(** *** The invariant *)

Definition mowner (p : mpc) : bool := match p with MOwn | MUnlock => true | _ => false end.

(** A thread that will wake a sleeper up, or will set the word to 2 again. *)
Definition mpending (p : mpc) : bool := match p with MWake | MXchg => true | _ => false end.

Record minv (s : mstate) : Prop := {
  mi_owner : ∀ t, mowner (mpcs s t) = true ↔ mholder s = Some t;
  mi_sleep : ∀ t, mpcs s t = MSleep ↔ t ∈ sleepers s;
  mi_word : (word s = 0 ∧ mholder s = None) ∨ ((word s = 1 ∨ word s = 2) ∧ mholder s ≠ None);
  mi_wake : sleepers s ≠ [] → word s = 2 ∨ ∃ t, mpending (mpcs s t) = true;
}.

Lemma minv_init : minv fev_thr_mutex_init.
Proof. split; simpl; try done; [|by left]. intros t. split; [done|]. by intros ?%not_elem_of_nil. Qed.

(** A step of [t] that changes the word, the holder and its own program counter. *)
Lemma minv_upd s t p v h :
  minv s → mpcs s t ≠ MSleep → p ≠ MSleep →
  (mowner p = true ↔ h = Some t) → (∀ u, u ≠ t → h = Some u ↔ mholder s = Some u) →
  ((v = 0 ∧ h = None) ∨ ((v = 1 ∨ v = 2) ∧ h ≠ None)) →
  (word s = 2 → v = 2 ∨ mpending p = true) → (mpending (mpcs s t) = true → v = 2 ∨ mpending p = true) →
  minv (m_pc (m_holder (m_word s v) h) t p).
Proof.
  intros [Ho Hs Hw Hk] Hnt Hnp Hp Hh Hv H2 Hpe. split; simpl; [|..|done|].
  - intros u. destruct (decide (t = u)) as [<-|]; [by rewrite upd_eq|]. rewrite upd_ne, Ho, Hh by done. done.
  - intros u. rewrite <- Hs. destruct (decide (t = u)) as [<-|]; [|by rewrite upd_ne]. rewrite upd_eq. done.
  - intros Hne. destruct (Hk Hne) as [E|[u Hu]].
    + destruct (H2 E); [by left|]. right. exists t. by rewrite upd_eq.
    + destruct (decide (t = u)) as [<-|].
      * destruct (Hpe Hu); [by left|]. right. exists t. by rewrite upd_eq.
      * right. exists u. by rewrite upd_ne.
Qed.

(** A sleeper returns from [FUTEX_WAIT]. *)
Lemma minv_awake s u :
  minv s → u ∈ sleepers s → minv (m_pc (m_sleepers s (filter (λ x, x ≠ u) (sleepers s))) u MXchg).
Proof.
  intros [Ho Hs Hw Hk] Hu. pose proof (proj2 (Hs u) Hu) as Hpu. split; simpl; [|..|done|].
  - intros t. destruct (decide (u = t)) as [<-|]; [|by rewrite upd_ne].
    rewrite upd_eq, <- Ho, Hpu. done.
  - intros t. rewrite list_elem_of_filter, <- Hs. destruct (decide (u = t)) as [<-|].
    + rewrite upd_eq. split; [done|]. by intros [??].
    + rewrite upd_ne by done. split; [auto|]. by intros [??].
  - intros _. right. exists u. by rewrite upd_eq.
Qed.

Lemma m_same s t p : m_pc s t p = m_pc (m_holder (m_word s (word s)) (mholder s)) t p.
Proof. by destruct s. Qed.

(** The steps that only change the program counter. *)
Lemma minv_pc s t p :
  minv s → mpcs s t ≠ MSleep → p ≠ MSleep → mowner p = mowner (mpcs s t) →
  (mpending (mpcs s t) = true → word s = 2 ∨ mpending p = true ∨ sleepers s = []) →
  minv (m_pc s t p).
Proof.
  intros [Ho Hs Hw Hk] Hnt Hnp Hp Hpe. split; simpl; [|..|done|].
  - intros u. destruct (decide (t = u)) as [<-|]; [|by rewrite upd_ne]. by rewrite upd_eq, Hp.
  - intros u. rewrite <- Hs. destruct (decide (t = u)) as [<-|]; [|by rewrite upd_ne]. rewrite upd_eq. done.
  - intros Hne. destruct (Hk Hne) as [E|[u Hu]]; [by left|]. destruct (decide (t = u)) as [<-|].
    + destruct (Hpe Hu) as [?|[?|?]]; [by left| |done]. right. exists t. by rewrite upd_eq.
    + right. exists u. by rewrite upd_ne.
Qed.

Lemma minv_step s t sp s' : minv s → mutex_step s t sp = Some s' → minv s'.
Proof.
  intros Hi Hs. pose proof Hi as [Ho Hsl Hw Hk]. pose proof (Ho t) as Hot.
  assert (Hother : ∀ u, u ≠ t → mholder s = None → Some t = Some u ↔ mholder s = Some u)
    by (intros u ? ->; split; congruence).
  unfold mutex_step, mutex_cas, fev_futex_wait, lock_slow_load, lock_slow_xchg in Hs. destruct (mpcs s t) eqn:Hpc; simpl in *.
  - simplify_eq. apply minv_pc; rewrite ?Hpc; done.
  - destruct (negb sp && (word s =? 0)) eqn:E; Zbool; simplify_eq.
    + apply minv_upd; rewrite ?Hpc; auto; try lia; try done. intros; apply Hother; [done|]. 
      destruct Hw as [[??]|[??]]; [done|lia].
    + apply minv_pc; rewrite ?Hpc; done.
  - destruct (negb sp && (word s =? 0)) eqn:E; Zbool; simplify_eq.
    + apply minv_upd; rewrite ?Hpc; auto; try lia; try done. intros; apply Hother; [done|]. 
      destruct Hw as [[??]|[??]]; [done|lia].
    + apply minv_pc; rewrite ?Hpc; done.
  - destruct (word s =? 2); simplify_eq; apply minv_pc; rewrite ?Hpc; done.
  - destruct (Z.eqb_spec (word s) 0); simplify_eq.
    + apply minv_upd; rewrite ?Hpc; auto; try done. intros; apply Hother; [done|].
      destruct Hw as [[??]|[??]]; [done|lia].
    + change (minv (m_pc (m_holder (m_word s 2) (mholder s)) t MWait)).
      apply minv_upd; rewrite ?Hpc; auto; try done.
      destruct Hw as [[??]|[??]]; [done|]. right. auto.
  - destruct (Z.eqb_spec (word s) 2); simplify_eq.
    + split; simpl; [|..|done|by left].
      * intros u. destruct (decide (t = u)) as [<-|]; [by rewrite upd_eq|by rewrite upd_ne].
      * intros u. rewrite elem_of_app, list_elem_of_singleton, <- Hsl. destruct (decide (t = u)) as [<-|].
        -- rewrite upd_eq. split; auto.
        -- rewrite upd_ne by done. split; [auto|]. intros [?|?]; [done|congruence].
    + apply minv_pc; rewrite ?Hpc; auto; done.
  - done.
  - simplify_eq. apply minv_pc; rewrite ?Hpc; done.
  - simplify_eq. assert (mholder s = Some t) as Hh by by apply Hot.
    apply minv_upd; rewrite ?Hpc; auto.
    + by destruct (word s =? 2).
    + by destruct (word s =? 2).
    + rewrite Hh. intros u Hu. split; congruence.
    + intros E. right. by rewrite E.
    + done.
  - case_decide; simplify_eq. apply minv_pc; rewrite ?Hpc; auto.
Qed.

Lemma minv_next s lb s' : minv s → mutex_next s lb = Some s' → minv s'.
Proof.
  intros Hi Hs. destruct lb as [t sp|t|t u|u]; simpl in Hs.
  - by eapply minv_step.
  - case_decide as E; simplify_eq. apply minv_pc; rewrite ?E; done.
  - unfold fev_futex_wake in Hs. case_decide as E; [|done]. destruct E as [Ht Hu]. simplify_eq.
    pose proof (minv_awake s u Hi Hu) as Hi'.
    assert (t ≠ u) by (intros ->; apply (mi_sleep _ Hi) in Hu; congruence).
    destruct Hi' as [Ho Hsl Hw Hk]. simpl in *. split; simpl; [|..|done|].
    + intros x. specialize (Ho x). destruct (decide (t = x)) as [<-|].
      * rewrite upd_ne in Ho |- * by done. rewrite upd_eq. rewrite Ht in Ho. done.
      * unfold upd in *. repeat case_decide; done.
    + intros x. specialize (Hsl x). destruct (decide (t = x)) as [<-|].
      * rewrite upd_ne in Hsl |- * by done. rewrite upd_eq. rewrite Ht in Hsl. rewrite <- Hsl. done.
      * unfold upd in *. repeat case_decide; done.
    + intros _. right. exists u. by rewrite upd_eq.
  - unfold futex_interrupt in Hs. case_decide; simplify_eq. by apply minv_awake.
Qed.

Lemma minv_reach s : reach mutex_next fev_thr_mutex_init s → minv s.
Proof. apply reach_invariant; [apply minv_init|]. intros. by eapply minv_next. Qed.

Definition fev_thr_mutex : lock_impl :=
  mk_lock_impl mstate mlabel fev_thr_mutex_init mutex_next mholder
    (λ s t, bool_decide (mpcs s t = MOwn)).

#[export] Instance thr_mutex_spec : LockSpec fev_thr_mutex.
Proof.
  split; simpl.
  - done.
  - intros s lb s' Hi%minv_reach Hs. destruct Hi as [Ho Hsl Hw Hk].
    assert (Hacq : ∀ t, word s = 0 → ∃ op, abs_next (mholder s) op = Some (Some t)).
    { intros t E. exists (Acquire t). simpl. destruct Hw as [[_ ->]|[? _]]; [done|lia]. }
    assert (Hrel : ∀ t, mholder s = Some t → ∃ op, abs_next (mholder s) op = Some None).
    { intros t ->. exists (Release t). simpl. by rewrite decide_True. }
    destruct lb as [t sp|t|t u|u]; simpl in Hs.
    + unfold mutex_step, mutex_cas, fev_futex_wait, lock_slow_load, lock_slow_xchg in Hs. pose proof (Ho t) as Hot. destruct (mpcs s t) eqn:Hpc; simpl in *.
      all: repeat (case_match || case_decide); simplify_eq/=; auto; Zbool; auto.
      all: right; eapply Hrel; by apply Hot.
    + case_decide; by simplify_eq; left.
    + unfold fev_futex_wake in Hs. case_decide; by simplify_eq; left.
    + unfold futex_interrupt in Hs. case_decide; by simplify_eq; left.
  - intros s t Hi%minv_reach Ht%bool_decide_eq_true. apply (mi_owner _ Hi). by rewrite Ht.
Qed.

(** ** The spin lock *)

Inductive spc :=
| SIdle
| STryLoad      (* [fev_spinlock_try_lock]: before the load *)
| STryXchg      (* before the exchange *)
| SXchg         (* [fev_spinlock_lock]: before the exchange *)
| SSpin         (* before a load of the inner loop *)
| SOwn
| SUnlock.      (* [fev_spinlock_unlock]: before the store *)

Record sstate := mk_sstate { flag : Z; spcs : loc → spc; sholder : option loc (* ghost *) }.

Definition s_pc s t p := mk_sstate (flag s) (upd (spcs s) t p) (sholder s).
Definition s_flag s v h := mk_sstate v (spcs s) h.

(** An exchange of the flag with 1 by [t]. *)
Definition spin_xchg (s : sstate) (t : loc) (failed : spc) : sstate :=
  if flag s =? 0 then s_pc (s_flag s 1 (Some t)) t SOwn else s_pc (s_flag s 1 (sholder s)) t failed.

(** [(t, try)]: a step of [t]; [try] chooses the function an idle thread calls. *)
Definition spin_next (s : sstate) (lb : loc * bool) : option sstate :=
  let '(t, try) := lb in
  match spcs s t with
  | SIdle => Some (s_pc s t (if try then STryLoad else SXchg))
  | STryLoad => Some (s_pc s t (if flag s =? 0 then STryXchg else SIdle))
  | STryXchg => Some (spin_xchg s t SIdle)
  | SXchg => Some (spin_xchg s t SSpin)
  | SSpin => Some (s_pc s t (if flag s =? 0 then SXchg else SSpin))
  | SOwn => Some (s_pc s t SUnlock)
  | SUnlock => Some (s_pc (s_flag s 0 None) t SIdle)
  end.

(** [fev_spinlock_init]. *)
Definition fev_spinlock_init : sstate := mk_sstate 0 (λ _, SIdle) None.

Definition sowner (p : spc) : bool := match p with SOwn | SUnlock => true | _ => false end.

Record sinv (s : sstate) : Prop := {
  si_owner : ∀ t, sowner (spcs s t) = true ↔ sholder s = Some t;
  si_flag : (flag s = 0 ∧ sholder s = None) ∨ (flag s = 1 ∧ sholder s ≠ None);
}.

Lemma sinv_pc s t p : sinv s → sowner p = sowner (spcs s t) → sinv (s_pc s t p).
Proof.
  intros [Ho Hf] Hp. split; simpl; [|done]. intros u.
  destruct (decide (t = u)) as [<-|]; [by rewrite upd_eq, Hp|by rewrite upd_ne].
Qed.

Lemma sinv_xchg s t p : sinv s → sowner (spcs s t) = false → sowner p = false → sinv (spin_xchg s t p).
Proof.
  intros [Ho Hf] Ht Hp. unfold spin_xchg. destruct (Z.eqb_spec (flag s) 0).
  - assert (sholder s = None) as Hn by (destruct Hf as [[??]|[??]]; [done|lia]).
    split; simpl; [|by right]. intros u. destruct (decide (t = u)) as [<-|]; [by rewrite upd_eq|].
    rewrite upd_ne, Ho, Hn by done. split; congruence.
  - destruct Hf as [[??]|[E ?]]; [done|]. split; simpl; [|by right]. intros u.
    destruct (decide (t = u)) as [<-|]; [|by rewrite upd_ne]. by rewrite upd_eq, Hp, <- Ht.
Qed.

Lemma sinv_reach s : reach spin_next fev_spinlock_init s → sinv s.
Proof.
  apply reach_invariant; [split; [done|by left]|]. intros s1 [t try] s2 Hi Hs. simpl in Hs.
  destruct (spcs s1 t) eqn:Hpc; simplify_eq.
  - apply sinv_pc; [done|]. rewrite Hpc. by destruct try.
  - apply sinv_pc; [done|]. rewrite Hpc. by case_match.
  - apply sinv_xchg; by rewrite ?Hpc.
  - apply sinv_xchg; by rewrite ?Hpc.
  - apply sinv_pc; [done|]. rewrite Hpc. by case_match.
  - apply sinv_pc; [done|]. by rewrite Hpc.
  - destruct Hi as [Ho Hf]. assert (sholder s1 = Some t) as Hh by (apply Ho; by rewrite Hpc).
    split; simpl; [|by left]. intros u. destruct (decide (t = u)) as [<-|]; [by rewrite upd_eq|].
    rewrite upd_ne, Ho, Hh by done. split; congruence.
Qed.

Definition fev_spinlock : lock_impl :=
  mk_lock_impl sstate (loc * bool) fev_spinlock_init spin_next sholder
    (λ s t, sowner (spcs s t)).

#[export] Instance spinlock_spec : LockSpec fev_spinlock.
Proof.
  split; simpl.
  - done.
  - intros s [t try] s' Hi%sinv_reach Hs. destruct Hi as [Ho Hf]. simpl in Hs. pose proof (Ho t) as Hot.
    assert (Hx : ∀ p, sholder (spin_xchg s t p) = sholder s ∨
              ∃ op, abs_next (sholder s) op = Some (sholder (spin_xchg s t p))).
    { intros p. unfold spin_xchg. destruct (Z.eqb_spec (flag s) 0); [|by left]. right.
      exists (Acquire t). simpl. destruct Hf as [[_ ->]|[? _]]; [done|lia]. }
    destruct (spcs s t) eqn:Hpc; simplify_eq; auto.
    right. exists (Release t). simpl. rewrite decide_True; [done|by apply Hot].
  - intros s t Hi%sinv_reach Ht. by apply (si_owner _ Hi).
Qed.

(** ** Properties *)

(** Thread 1 holds the mutex, thread 2 sleeps, thread 1 is about to unlock. *)
Definition ex_mutex_schedule : list mlabel :=
  [MStep 1 false; MStep 1 false; MStep 2 false; MStep 2 false; MStep 2 false; MStep 2 false;
   MStep 2 false; MStep 1 false]%positive.
Definition ex_mutex (n : nat) : mstate :=
  default fev_thr_mutex_init (run mutex_next fev_thr_mutex_init (take n ex_mutex_schedule)).

Lemma ex_mutex_reach n : (n < 9)%nat → reach mutex_next fev_thr_mutex_init (ex_mutex n).
Proof.
  intros Hn. apply (run_reach mutex_next fev_thr_mutex_init fev_thr_mutex_init (take n ex_mutex_schedule));
    [constructor|].
  unfold ex_mutex. do 9 (destruct n as [|n]; [vm_compute; reflexivity|]). lia.
Qed.

(** No sleeper is lost: as long as a thread sleeps on the futex, either the
    word is 2 and the mutex is held, so that the holder's unlock issues a
    wake-up, or some thread is about to issue one or about to set the word to 2
    itself. This holds under spurious failures of the compare-and-swap and
    interrupted system calls. *)
Theorem thr_mutex_no_lost_sleeper s :
  reach mutex_next fev_thr_mutex_init s → sleepers s ≠ [] →
  (word s = 2 ∧ ∃ t, mholder s = Some t ∧ mowner (mpcs s t) = true) ∨
  ∃ t, mpending (mpcs s t) = true.
Proof.
  intros Hi%minv_reach Hne. destruct (mi_wake _ Hi Hne) as [E|?]; [|by right]. left. split; [done|].
  destruct (mi_word _ Hi) as [[? _]|[_ Hh]]; [lia|]. destruct (mholder s) as [t|] eqn:Et; [|done].
  exists t. split; [done|]. by apply (mi_owner _ Hi).
Qed.

Lemma thr_mutex_no_lost_sleeper_witness :
  sleepers (ex_mutex 7) = [2%positive] ∧
  ((word (ex_mutex 7) = 2 ∧ ∃ t, mholder (ex_mutex 7) = Some t ∧ mowner (mpcs (ex_mutex 7) t) = true) ∨
   ∃ t, mpending (mpcs (ex_mutex 7) t) = true).
Proof.
  assert (E : sleepers (ex_mutex 7) = [2%positive]) by (vm_compute; reflexivity).
  split; [exact E|]. apply (thr_mutex_no_lost_sleeper (ex_mutex 7) (ex_mutex_reach 7 ltac:(lia))).
  rewrite E. discriminate.
Defined.


