(* ===== verification/Thr.v ===== *)
(** Threads, thread semaphores and mutexes of the operating system: [src/src/fev_thr_posix.h],
    [src/src/fev_thr_sem_posix.h], [fev_thr_sem_macos.*], [fev_thr_sem_win.h], [fev_thr_mutex_posix.h] and [fev_thr_mutex_win.h].

    The functions of the operating system act on tables of its objects, as their documentation says; [ThrSem] is what the
    schedulers rely on from a semaphore. *)

From S2P Require Import Prelude ThrLock.

Local Open Scope Z_scope.

Definition EINTR : Z := 4.
Definition EEXIST : Z := 17.
Definition EOVERFLOW : Z := 75.

(** ** Semaphores of POSIX *)

(** [SEM_VALUE_MAX]. *)
Definition SEM_VALUE_MAX : Z := 2 ^ 31 - 1.

(** What a call returns, with [errno]; or it blocks the thread. *)
Inductive ret := Ret (r errno : Z) | Blocks.

(** The values of the semaphores, by address. *)
Abbreviation values := (gmap Z Z).

(** [sys]: the error of the system, 0 if there is none. It is undefined to use a semaphore that does not exist, or to initialise
    one that does. *)
Definition sem_init (k : values) (a value sys : Z) : option (ret * values) :=
  FEV_ASSERT bool_decide (k !! a = None);
  Some (if SEM_VALUE_MAX <? value then (Ret (-1) EINVAL, k)
        else if negb (sys =? 0) then (Ret (-1) sys, k) else (Ret 0 0, <[a := value]> k)).

Definition sem_destroy (k : values) (a : Z) : option (ret * values) := _ ← k !! a; Some (Ret 0 0, delete a k).

(** [signal]: the call is interrupted. *)
Definition sem_wait (k : values) (a : Z) (signal : bool) : option (ret * values) :=
  v ← k !! a;
  Some (if signal then (Ret (-1) EINTR, k) else if 0 <? v then (Ret 0 0, <[a := v - 1]> k) else (Blocks, k)).

Definition sem_post (k : values) (a : Z) : option (ret * values) :=
  v ← k !! a;
  Some (if v <? SEM_VALUE_MAX then (Ret 0 0, <[a := v + 1]> k) else (Ret (-1) EOVERFLOW, k)).

(** The loop of [fev_thr_sem_wait], which POSIX and macOS share: [signals] is the number of interrupted calls. [false]: the thread is
    blocked. *)
Fixpoint wait_loop (k : values) (a : Z) (signals : nat) : option (bool * values) :=
  '(r, k) ← sem_wait k a (bool_decide (signals ≠ O));
  match r with
  | Blocks => Some (false, k)
  | Ret ret errno =>
      FEV_ASSERT (ret =? 0) || ((ret =? -1) && (errno =? EINTR));
      if negb (ret =? 0) then match signals with O => None | S n => wait_loop k a n end else Some (true, k)
  end.

(** [-errno], or 0. *)
Definition result (r : ret) : option Z := match r with Ret ret errno => Some (if ret =? 0 then 0 else - errno) | Blocks => None end.

(** A call that must return 0. *)
Definition check0 (x : option (ret * values)) : option values :=
  '(r, k) ← x;
  match r with Ret ret _ => FEV_ASSERT (ret =? 0); Some k | Blocks => None end.

Module Posix.

Definition fev_thr_sem_init (k : values) (sem value sys : Z) : option (Z * values) :=
  '(r, k) ← sem_init k sem value sys; e ← result r; Some (e, k).
Definition fev_thr_sem_fini (k : values) (sem : Z) : option values := check0 (sem_destroy k sem).
Definition fev_thr_sem_wait : values → Z → nat → option (bool * values) := wait_loop.
Definition fev_thr_sem_post (k : values) (sem : Z) : option values := check0 (sem_post k sem).
End Posix.

(** ** macOS: named semaphores *)

Module Macos.

(** [SEM_VALUE_MAX] of macOS. *)
Definition MACOS_SEM_VALUE_MAX : Z := 32767.

(** The semaphores, by the address [sem_open] returned; the names that exist, which are made of the process and the address of the
    [struct fev_thr_sem]; and the field [handle] of each of these. *)
Record kernel := mk_kernel { sems : values; names : gset (Z * Z); handle : gmap Z Z }.

(** [sem_open(name, O_CREAT | O_EXCL, 0644, value)]: [h] is the address of a new semaphore. *)
Definition sem_open (k : kernel) (name : Z * Z) (value h sys : Z) : ret * kernel :=
  if bool_decide (name ∈ names k) then (Ret (-1) EEXIST, k)
  else if negb (sys =? 0) then (Ret (-1) sys, k)
  else (Ret 0 0, mk_kernel (<[h := value]> (sems k)) ({[name]} ∪ names k) (handle k)).

(** [sem_close]: the semaphore cannot be used any more; its name exists until it is unlinked. *)
Definition sem_close (k : kernel) (h : Z) : option (ret * kernel) :=
  _ ← sems k !! h; Some (Ret 0 0, mk_kernel (delete h (sems k)) (names k) (handle k)).

Definition fev_thr_sem_init (pid : Z) (k : kernel) (sem value h sys : Z) : option (Z * kernel) :=
  FEV_ASSERT (value <=? MACOS_SEM_VALUE_MAX);
  let '(r, k) := sem_open k (pid, sem) value h sys in
  e ← result r;
  if negb (e =? 0) then Some (e, k) else Some (0, mk_kernel (sems k) (names k) (<[sem := h]> (handle k))).

Definition fev_thr_sem_fini (k : kernel) (sem : Z) : option kernel :=
  h ← handle k !! sem;
  '(r, k) ← sem_close k h;
  match r with Ret ret _ => FEV_ASSERT (ret =? 0); Some k | Blocks => None end.

Definition fev_thr_sem_wait (k : kernel) (sem : Z) (signals : nat) : option (bool * kernel) :=
  h ← handle k !! sem;
  '(b, s) ← wait_loop (sems k) h signals;
  Some (b, mk_kernel s (names k) (handle k)).

Definition fev_thr_sem_post (k : kernel) (sem : Z) : option kernel :=
  h ← handle k !! sem;
  s ← check0 (sem_post (sems k) h);
  Some (mk_kernel s (names k) (handle k)).
End Macos.

(** ** Windows *)

Module Win.

Definition ERROR_INVALID_PARAMETER : Z := 87.

(** A semaphore has a value and a maximum. *)
Abbreviation kernel := (gmap Z (Z * Z)).

(** [CreateSemaphore]: [None] is [NULL], with the error; [h] is the new handle. *)
Definition CreateSemaphore (k : kernel) (initial maximum h sys : Z) : (Z + Z) * kernel :=
  if (initial <? 0) || (maximum <=? 0) || (maximum <? initial) then (inl ERROR_INVALID_PARAMETER, k)
  else if negb (sys =? 0) then (inl sys, k) else (inr h, <[h := (initial, maximum)]> k).

(** [translate]: [fev_translate_win_error]. *)
Definition fev_thr_sem_init (translate : Z → Z) (k : kernel) (value h sys : Z) : Z * kernel :=
  match CreateSemaphore k (i32 value) (i32 UINT32_MAX) h sys with
  | (inl e, k) => (translate e, k)
  | (inr _, k) => (0, k)
  end.

Definition fev_thr_sem_fini (k : kernel) (h : Z) : option kernel := _ ← k !! h; Some (delete h k).

Definition fev_thr_sem_wait (k : kernel) (h : Z) : option (bool * kernel) :=
  '(v, mx) ← k !! h; Some (if 0 <? v then (true, <[h := (v - 1, mx)]> k) else (false, k)).

Definition fev_thr_sem_post (k : kernel) (h : Z) : option kernel :=
  '(v, mx) ← k !! h;
  FEV_ASSERT (v <? mx);
  Some (<[h := (v + 1, mx)]> k).
End Win.

(** ** Threads *)

(** [pthread_create], [pthread_cancel]: [ret] is what they return. *)
Definition fev_thr_create (ret : Z) : option Z := FEV_ASSERT negb (ret =? EINVAL); Some (- ret).
Definition fev_thr_join (ret : Z) : option unit := FEV_ASSERT (ret =? 0); Some tt.
Definition fev_thr_cancel (ret : Z) : Z := - ret.

(** ** Mutexes of POSIX *)

Module PosixMutex.

(** The mutexes, by address, with the thread that holds each. *)
Abbreviation mutexes := (gmap Z (option loc)).

(** [sys]: the result of [pthread_mutex_init], which has nothing to complain about. *)
Definition fev_thr_mutex_init (k : mutexes) (m sys : Z) : option (Z * mutexes) :=
  FEV_ASSERT negb (sys =? EBUSY);
  FEV_ASSERT negb (sys =? EINVAL);
  Some (if sys =? 0 then (0, <[m := None]> k) else (- sys, k)).

(** [pthread_mutex_destroy] of a locked mutex returns an error. *)
Definition fev_thr_mutex_fini (k : mutexes) (m : Z) : option mutexes :=
  h ← k !! m;
  let ret := match h with None => 0 | Some _ => EBUSY end in
  FEV_ASSERT (ret =? 0);
  Some (delete m k).

Definition fev_thr_mutex_try_lock (k : mutexes) (m : Z) (t : loc) : option (bool * mutexes) :=
  h ← k !! m;
  let '(ret, k) := match h with None => (0, <[m := Some t]> k) | Some _ => (EBUSY, k) end in
  FEV_ASSERT (ret =? 0) || (ret =? EBUSY);
  Some (ret =? 0, k).

(** [None] in the result: the thread is blocked. *)
Definition fev_thr_mutex_lock (k : mutexes) (m : Z) (t : loc) : option (option mutexes) :=
  h ← k !! m;
  Some (match h with None => Some (<[m := Some t]> k) | Some _ => None end).

(** Only the holder may unlock a mutex. *)
Definition fev_thr_mutex_unlock (k : mutexes) (m : Z) (t : loc) : option mutexes :=
  h ← k !! m;
  FEV_ASSERT bool_decide (h = Some t);
  Some (<[m := None]> k).

(** Threads that use the mutex at address 0: [owners] have returned from the lock function and not called the unlock function. *)
Record pm := mk_pm { mem : mutexes; owners : gset loc }.
Inductive plabel := PLock (t : loc) | PTry (t : loc) | PUnlock (t : loc).

Definition pnext (s : pm) (l : plabel) : option pm :=
  match l with
  | PLock t =>
      if decide (t ∈ owners s) then None
      else r ← fev_thr_mutex_lock (mem s) 0 t; k ← r; Some (mk_pm k ({[t]} ∪ owners s))
  | PTry t =>
      if decide (t ∈ owners s) then None
      else '(b, k) ← fev_thr_mutex_try_lock (mem s) 0 t; Some (mk_pm k (if b : bool then {[t]} ∪ owners s else owners s))
  | PUnlock t =>
      if decide (t ∈ owners s) then k ← fev_thr_mutex_unlock (mem s) 0 t; Some (mk_pm k (owners s ∖ {[t]})) else None
  end.

Definition posix_lock : lock_impl := mk_lock_impl pm plabel (mk_pm {[0 := None]} ∅) pnext
  (λ s, default None (mem s !! 0)) (λ s t, bool_decide (t ∈ owners s)).

(** The holder is the only owner. *)
Definition pm_ok (s : pm) : Prop :=
  ∃ h, mem s = {[0 := h]} ∧ owners s = match h with Some t => {[t]} | None => ∅ end.

Lemma pnext_ok s l s' : pm_ok s → pnext s l = Some s' →
  pm_ok s' ∧ (mem s' !! 0 = mem s !! 0 ∨ ∃ op, abs_next (default None (mem s !! 0)) op = Some (default None (mem s' !! 0))).
Proof.
  intros (h & Hm & Ho) E. destruct s as [k o]. simpl in Hm, Ho. subst k o. destruct l as [t|t|t]; cbn [pnext mem owners] in E.
  - destruct (decide _) as [|Hd]; [done|]. unfold fev_thr_mutex_lock in E. rewrite lookup_singleton_eq in E. destruct h as [u|]; [done|]. injection E as <-.
    split; [exists (Some t); split; [by rewrite insert_singleton_eq|simpl; set_solver]|]. right. exists (Acquire t). simpl.
    by rewrite lookup_singleton_eq, lookup_insert_eq.
  - destruct (decide _) as [|Hd]; [done|]. unfold fev_thr_mutex_try_lock in E. rewrite lookup_singleton_eq in E. destruct h as [u|]; injection E as <-.
    + split; [by exists (Some u)|by left].
    + split; [exists (Some t); split; [by rewrite insert_singleton_eq|simpl; set_solver]|]. right. exists (Acquire t). simpl.
      by rewrite lookup_singleton_eq, lookup_insert_eq.
  - destruct (decide _) as [Hd|]; [|done]. unfold fev_thr_mutex_unlock in E. rewrite lookup_singleton_eq in E. destruct h as [u|]; [|set_solver].
    apply elem_of_singleton in Hd as ->. cbn [mbind option_bind] in E. rewrite bool_decide_true in E by done. injection E as <-.
    split; [exists None; split; [by rewrite insert_singleton_eq|simpl; set_solver]|]. right. exists (Release u). simpl.
    rewrite lookup_singleton_eq, lookup_insert_eq. simpl. by rewrite decide_True.
Qed.

Lemma pm_reach s : reach pnext (li_init posix_lock) s → pm_ok s.
Proof. induction 1 as [|s l s' _ IH Hs]; [by exists None|]. by eapply pnext_ok. Qed.

(** A third lock for [LockSpec]. *)
#[export] Instance posix_lock_spec : LockSpec posix_lock.
Proof.
  split.
  - reflexivity.
  - intros s l s' Hr Hs. destruct (pnext_ok s l s' (pm_reach s Hr) Hs) as [_ [E|E]]; [left|by right]. simpl. by rewrite E.
  - intros s t Hr Ht. simpl in *. apply bool_decide_eq_true in Ht. destruct (pm_reach s Hr) as (h & -> & Ho). rewrite Ho in Ht.
    rewrite lookup_singleton_eq. destruct h as [u|]; [|set_solver]. by apply elem_of_singleton in Ht as ->.
Qed.
End PosixMutex.

(** ** What a semaphore promises *)

(** [env]: the answers of the system to the creation of a semaphore. *)
Class ThrSem (K env : Type) := {
  ts_init : env → K → Z → Z → option (Z * K);
  ts_fini : K → Z → option K;
  ts_wait : K → Z → nat → option (bool * K);
  ts_post : K → Z → option K;
}.

(** [ts_repr k A]: in the state [k] the semaphores with their values are [A]. [ts_env_ok]: what the system promises when it creates one,
    [ts_free]: creation can only fail for lack of resources ([ts_rich] if there is none). *)
Class ThrSemSpec (K env : Type) `{!ThrSem K env} := {
  ts_max : Z;
  ts_repr : K → gmap Z Z → Prop;
  ts_env_ok : env → K → Prop;
  ts_rich : env → Prop;
  ts_free : K → Z → Prop;
  ts_init_ok e k A sem v : ts_repr k A → A !! sem = None → 0 ≤ v ≤ ts_max → ts_env_ok e k →
    ∃ r k', ts_init e k sem v = Some (r, k') ∧
      (r = 0 ∧ ts_repr k' (<[sem := v]> A) ∨ r ≠ 0 ∧ ts_repr k' A ∧ ~ (ts_rich e ∧ ts_free k sem));
  ts_fini_ok k A sem v : ts_repr k A → A !! sem = Some v → ∃ k', ts_fini k sem = Some k' ∧ ts_repr k' (delete sem A);
  ts_wait_ok k A sem v signals : ts_repr k A → A !! sem = Some v →
    ∃ k', ts_wait k sem signals = Some (0 <? v, k') ∧ ts_repr k' (<[sem := if 0 <? v then v - 1 else v]> A);
  ts_post_ok k A sem v : ts_repr k A → A !! sem = Some v → v < ts_max → ∃ k', ts_post k sem = Some k' ∧ ts_repr k' (<[sem := v + 1]> A);
}.

(** The loop ends with the call that is not interrupted. *)
Lemma wait_loop_ok k a v signals : k !! a = Some v →
  wait_loop k a signals = Some (0 <? v, if 0 <? v then <[a := v - 1]> k else k).
Proof.
  intros Hk. induction signals as [|n IH]; cbn [wait_loop]; unfold sem_wait; rewrite Hk; cbn [mbind option_bind].
  - rewrite bool_decide_false by (intros ?; done). by destruct (0 <? v).
  - rewrite bool_decide_true by done. exact IH.
Qed.

#[export] Instance posix_sem : ThrSem values Z := {
  ts_init sys k sem v := Posix.fev_thr_sem_init k sem v sys;
  ts_fini := Posix.fev_thr_sem_fini;
  ts_wait := Posix.fev_thr_sem_wait;
  ts_post := Posix.fev_thr_sem_post;
}.

#[export] Program Instance posix_sem_spec : ThrSemSpec values Z := {
  ts_max := SEM_VALUE_MAX;
  ts_repr k A := k = A;
  ts_env_ok sys _ := 0 ≤ sys;
  ts_rich sys := sys = 0;
  ts_free _ _ := True;
}.
Next Obligation.
  intros sys k A sem v -> Hs Hv He. simpl in *. unfold Posix.fev_thr_sem_init, sem_init. rewrite bool_decide_true by done. cbn [mbind option_bind].
  destruct (Z.ltb_spec SEM_VALUE_MAX v); [lia|]. destruct (Z.eqb_spec sys 0) as [->|Hne]; cbn [negb mbind option_bind result]; eexists _, _; (split; [reflexivity|]).
  - by left.
  - right. split_and!; [cbn; lia|done|by intros [? _]].
Qed.
Next Obligation. intros k A sem v -> Hs. simpl. unfold Posix.fev_thr_sem_fini, sem_destroy. rewrite Hs. by eexists. Qed.
Next Obligation.
  intros k A sem v n -> Hs. simpl. unfold Posix.fev_thr_sem_wait. rewrite (wait_loop_ok A sem v n Hs). eexists. split; [reflexivity|].
  destruct (0 <? v); [done|]. by rewrite insert_id.
Qed.
Next Obligation.
  intros k A sem v -> Hs Hv. simpl in *. unfold Posix.fev_thr_sem_post, sem_post. rewrite Hs. cbn [mbind option_bind check0].
  destruct (Z.ltb_spec v SEM_VALUE_MAX); [|lia]. by eexists.
Qed.

(** macOS: creation succeeds only at an address where no semaphore has been created before. *)
#[export] Instance macos_sem (pid : Z) : ThrSem Macos.kernel (Z * Z) := {
  ts_init e k sem v := Macos.fev_thr_sem_init pid k sem v e.1 e.2;
  ts_fini := Macos.fev_thr_sem_fini;
  ts_wait := Macos.fev_thr_sem_wait;
  ts_post := Macos.fev_thr_sem_post;
}.

Section macos.
Context (pid : Z).
Import Macos.

Record macos_repr (k : kernel) (A : gmap Z Z) : Prop := {
  mr_value sem v : A !! sem = Some v → ∃ h, handle k !! sem = Some h ∧ sems k !! h = Some v;
  mr_inj s1 s2 h : is_Some (A !! s1) → is_Some (A !! s2) → handle k !! s1 = Some h → handle k !! s2 = Some h → s1 = s2;
}.

(** The value of one semaphore changes. *)
Lemma macos_set k A sem h v w : macos_repr k A → A !! sem = Some v → handle k !! sem = Some h →
  macos_repr (mk_kernel (<[h := w]> (sems k)) (names k) (handle k)) (<[sem := w]> A).
Proof.
  intros [R1 R2] Hs Hh. split; simpl.
  - intros s x Hx. destruct (decide (s = sem)) as [->|Hne].
    + rewrite lookup_insert_eq in Hx. injection Hx as <-. exists h. by rewrite lookup_insert_eq.
    + rewrite lookup_insert_ne in Hx by done. destruct (R1 s x Hx) as (h' & Hh' & Hv). exists h'. split; [done|]. rewrite lookup_insert_ne; [done|].
      intros ->. apply Hne. eapply (R2 s sem h'); eauto.
  - intros s1 s2 h' [x1 H1] [x2 H2]. apply R2; rewrite ?lookup_insert in *; repeat case_decide; subst; eauto.
Qed.

#[export] Program Instance macos_sem_spec : @ThrSemSpec kernel (Z * Z) (macos_sem pid) := {
  ts_max := MACOS_SEM_VALUE_MAX;
  ts_repr := macos_repr;
  ts_env_ok e k := sems k !! e.1 = None ∧ 0 ≤ e.2;
  ts_rich e := e.2 = 0;
  ts_free k sem := (pid, sem) ∉ names k;
}.
Next Obligation.
  intros [h sys] k A sem v [R1 R2] Hs Hv [Hh Hsys]. cbn [ts_init macos_sem fst snd] in *. unfold fev_thr_sem_init. rewrite (proj2 (Z.leb_le v _)) by lia.
  unfold sem_open. case_bool_decide as Hn.
  - cbn. eexists _, _. split; [done|]. right. split_and!; [done|by split|by intros [_ ?]].
  - destruct (Z.eqb_spec sys 0) as [->|Hne]; cbn [negb].
    + eexists _, _. split; [reflexivity|]. left. split; [done|]. split; simpl.
      * intros s x Hx. destruct (decide (s = sem)) as [->|Hd].
        -- rewrite lookup_insert_eq in Hx. injection Hx as <-. exists h. by rewrite !lookup_insert_eq.
        -- rewrite lookup_insert_ne in Hx by done. destruct (R1 s x Hx) as (h' & Hh' & Hx'). exists h'. rewrite !lookup_insert_ne by congruence. done.
      * assert (Hfresh : ∀ s h', is_Some (<[sem := v]> A !! s) → s ≠ sem → handle k !! s = Some h' → h' ≠ h).
        { intros s h' [x Hx] Hd Hh' ->. rewrite lookup_insert_ne in Hx by done. destruct (R1 s x Hx) as (h2 & ? & ?). congruence. }
        intros s1 s2 h' I1 I2. destruct (decide (s1 = sem)) as [->|D1], (decide (s2 = sem)) as [->|D2]; [done|..].
        -- rewrite lookup_insert_eq, lookup_insert_ne by done. intros [= <-] E. by destruct (Hfresh s2 h I2 D2 E).
        -- rewrite lookup_insert_eq, lookup_insert_ne by done. intros E [= <-]. by destruct (Hfresh s1 h I1 D1 E).
        -- rewrite !lookup_insert_ne in * by done. intros E1 E2. by apply (R2 s1 s2 h').
    + cbn. rewrite (proj2 (Z.eqb_neq (- sys) 0)) by lia. eexists _, _. split; [reflexivity|]. right. split_and!; [lia|by split|by intros [? _]].
Qed.
Next Obligation.
  intros k A sem v [R1 R2] Hs. cbn [ts_fini macos_sem]. destruct (R1 sem v Hs) as (h & Hh & Hv). unfold fev_thr_sem_fini, sem_close. rewrite Hh.
  cbn [mbind option_bind]. rewrite Hv. cbn. eexists. split; [done|]. split; simpl.
  - intros s x [Hne Hx]%lookup_delete_Some. destruct (R1 s x Hx) as (h' & Hh' & Hx'). exists h'. split; [done|]. rewrite lookup_delete_ne; [done|].
    intros <-. apply Hne. eapply (R2 sem s h); eauto.
  - intros s1 s2 h' [x1 [_ H1]%lookup_delete_Some] [x2 [_ H2]%lookup_delete_Some]. apply R2; eauto.
Qed.
Next Obligation.
  intros k A sem v n HR Hs. cbn [ts_wait macos_sem]. destruct (mr_value _ _ HR sem v Hs) as (h & Hh & Hv). unfold fev_thr_sem_wait. rewrite Hh.
  cbn [mbind option_bind]. rewrite (wait_loop_ok _ h v n Hv). cbn [mbind option_bind]. eexists. split; [done|]. destruct (0 <? v).
  - by eapply macos_set.
  - rewrite insert_id by done. by destruct k.
Qed.
Next Obligation.
  intros k A sem v HR Hs Hlt. cbn [ts_post macos_sem ts_max] in *. destruct (mr_value _ _ HR sem v Hs) as (h & Hh & Hv). unfold fev_thr_sem_post. rewrite Hh.
  cbn [mbind option_bind]. unfold sem_post. rewrite Hv. cbn [mbind option_bind].
  destruct (Z.ltb_spec v SEM_VALUE_MAX); [|unfold MACOS_SEM_VALUE_MAX, SEM_VALUE_MAX in *; lia]. cbn. eexists. split; [done|]. by eapply macos_set.
Qed.
End macos.

(** ** Properties *)

(** Uses of one semaphore by any threads, in the order of the system calls. *)
Inductive use := Post | Wait (signals : nat).

Section client.
Context {K env : Type} `{HT : !ThrSem K env} `{HS : !ThrSemSpec K env}.

(** How many waits returned. *)
Fixpoint uses (k : K) (sem : Z) (us : list use) : option (Z * K) :=
  match us with
  | [] => Some (0, k)
  | Post :: us => k ← ts_post k sem; uses k sem us
  | Wait n :: us => '(b, k) ← ts_wait k sem n; '(d, k) ← uses k sem us; Some (d + (if b : bool then 1 else 0), k)
  end.

Fixpoint posts (us : list use) : Z := match us with [] => 0 | Post :: us => posts us + 1 | Wait _ :: us => posts us end.

Lemma posts_nonneg us : 0 ≤ posts us.
Proof. induction us as [|[|n] us IH]; simpl; lia. Qed.

(** A semaphore that satisfies [ThrSemSpec] counts: whatever threads do with it and whichever calls are interrupted by signals, its value is the
    initial one plus the posts minus the waits that returned, it is never negative, and other semaphores are not affected. No assertion
    fails as long as the sum of the posts fits. *)
Theorem thr_sem_counts us : ∀ k A sem v,
  ts_repr k A → A !! sem = Some v → 0 ≤ v → v + posts us ≤ ts_max →
  ∃ d k', uses k sem us = Some (d, k') ∧ 0 ≤ d ≤ v + posts us ∧ ts_repr k' (<[sem := v + posts us - d]> A).
Proof using HS.
  induction us as [|[|n] us IH]; intros k A sem v HR Hs Hv Hmax; cbn [uses posts] in *.
  - exists 0, k. rewrite Z.add_0_r, Z.sub_0_r, insert_id by done. split_and!; [done|lia|lia|done].
  - pose proof (posts_nonneg us). destruct (ts_post_ok k A sem v HR Hs) as (k1 & -> & HR1); [lia|]. cbn [mbind option_bind].
    destruct (IH k1 _ sem (v + 1) HR1) as (d & k' & -> & Hd & HR'); [apply lookup_insert_eq|lia|lia|]. exists d, k'. split_and!; [done|lia|lia|].
    rewrite insert_insert_eq in HR'. by replace (v + (posts us + 1) - d) with (v + 1 + posts us - d) by lia.
  - destruct (ts_wait_ok k A sem v n HR Hs) as (k1 & -> & HR1). cbn [mbind option_bind].
    set (w := if 0 <? v then v - 1 else v) in *. assert (Hw : w + (if 0 <? v then 1 else 0) = v ∧ 0 ≤ w).
    { subst w. destruct (Z.ltb_spec 0 v); lia. }
    destruct (IH k1 _ sem w HR1) as (d & k' & -> & Hd & HR'); [apply lookup_insert_eq|lia|destruct (0 <? v); lia|]. cbn [mbind option_bind].
    eexists _, k'. split_and!; [done|destruct (0 <? v); lia|lia|]. rewrite insert_insert_eq in HR'.
    by replace (v + posts us - (d + (if 0 <? v then 1 else 0))) with (w + posts us - d) by lia.
Qed.
End client.

(** Both kinds of semaphores the library can be built with satisfy it; on macOS the values are smaller. *)
Lemma thr_sem_counts_posix :
  uses (∅ : values) 7 [] = Some (0, ∅) ∧
  (k ← snd <$> Posix.fev_thr_sem_init ∅ 7 1 0; uses k 7 [Wait 2; Post; Wait 0; Wait 1; Post]) = Some (2, {[7 := 1]}).
Proof. split; reflexivity. Qed.

(** On macOS a semaphore cannot be created again at an address where one was destroyed: [fev_thr_sem_fini] closes it but does not remove its
    name, and [fev_thr_sem_init] insists on a new name. [fev_sched_run] creates a semaphore on the stack each time it is called. *)
Lemma macos_sem_address_reuse pid k sem v h k1 k2 v' h' sys :
  v' ≤ Macos.MACOS_SEM_VALUE_MAX → Macos.fev_thr_sem_init pid k sem v h 0 = Some (0, k1) → Macos.fev_thr_sem_fini k1 sem = Some k2 →
  Macos.fev_thr_sem_init pid k2 sem v' h' sys = Some (- EEXIST, k2).
Proof.
  intros Hv E1 E2. assert (Hn : (pid, sem) ∈ Macos.names k2).
  { unfold Macos.fev_thr_sem_init, Macos.sem_open in E1. destruct (v <=? _); [|done]. case_bool_decide as Hb; [done|]. cbn in E1.
    injection E1 as <-. unfold Macos.fev_thr_sem_fini, Macos.sem_close in E2. cbn [Macos.handle Macos.sems Macos.names mbind option_bind] in E2.
    rewrite lookup_insert_eq in E2. cbn [mbind option_bind] in E2. rewrite lookup_insert_eq in E2. cbn in E2. injection E2 as <-. simpl. set_solver. }
  unfold Macos.fev_thr_sem_init, Macos.sem_open. rewrite (proj2 (Z.leb_le _ _)) by done. by rewrite bool_decide_true.
Qed.

(** On Windows no semaphore can be created: the maximum is [(LONG)UINT_MAX], which is -1. *)
Lemma win_sem_never_created translate k value h sys :
  Win.fev_thr_sem_init translate k value h sys = (translate Win.ERROR_INVALID_PARAMETER, k).
Proof. unfold Win.fev_thr_sem_init, Win.CreateSemaphore. replace (i32 UINT32_MAX <=? 0) with true by reflexivity. by rewrite orb_true_r. Qed.

(** The mutex of POSIX is a lock. *)
Lemma posix_lock_refines s :
  reach (li_next PosixMutex.posix_lock) (li_init PosixMutex.posix_lock) s → reach abs_next None (li_holder PosixMutex.posix_lock s).
Proof. apply lock_refines, PosixMutex.posix_lock_spec. Qed.
