(* ===== verification/WaitersQueue.v ===== *)
(** The waiters queue: [src/src/fev_waiters_queue_intf.h] and
    [src/src/fev_waiters_queue_impl.h].

    A queue holds the nodes of waiting fibers; a node lives on the stack of its
    fiber and contains the waiter. The queue is protected by an internal lock:
    the definitions below are the critical sections of the two functions, with
    the fibers that are made runnable as part of the result. The wake-up loop is
    given both as one iteration, which the mutex interleaves with other
    accesses, and as a whole. *)

From S2P Require Import Prelude Waiter.

Local Open Scope Z_scope.

Record wnode := mk_wnode { nwaiter : fev_waiter; deleted : bool }.

Record wqueue := mk_wqueue { nodes : list loc; node_at : loc → wnode }.

Definition set_node (q : wqueue) (n : loc) (x : wnode) : wqueue :=
  mk_wqueue (nodes q) (upd (node_at q) n x).
Definition set_nodes (q : wqueue) (l : list loc) : wqueue := mk_wqueue l (node_at q).

(** [TAILQ_REMOVE]. *)
Definition tailq_remove (l : list loc) (n : loc) : list loc := filter (λ x, x ≠ n) l.

(** The preparation of the waiter in [fev_waiters_queue_wait]; [wake_reason] and
    [wait_for_post] keep what was on the stack. *)
Definition prepare_waiter (w : fev_waiter) (cur_fiber : loc) : fev_waiter :=
  mk_waiter FEV_WAITER_NONE false (wake_reason w) (wait_for_post w) true cur_fiber.

(** [TAILQ_INSERT_TAIL] and [node.deleted = false]. *)
Definition wq_insert (q : wqueue) (n : loc) : wqueue :=
  mk_wqueue (nodes q ++ [n]) (upd (node_at q) n (mk_wnode (nwaiter (node_at q n)) false)).

(** [not_ready]: remove the node if necessary. *)
Definition wq_remove (q : wqueue) (n : loc) : wqueue :=
  if negb (deleted (node_at q n)) then set_nodes q (tailq_remove (nodes q) n) else q.

(** An iteration of the loop of [fev_waiters_queue_wake]: [Some None] when the
    queue is empty, otherwise the queue, whether a waiter was woken up, and the
    fiber that the caller has to make runnable. *)
Definition wq_wake_iter (q : wqueue) : option (option (wqueue * bool * option loc)) :=
  match nodes q with
  | [] => Some None
  | n :: rest =>
      let q := set_nodes q rest in
      '(result, w) ← fev_waiter_wake (nwaiter (node_at q n)) FEV_WAITER_READY;
      let q := set_node q n (mk_wnode w true) in
      match result with
      | FEV_WAITER_FAILED => Some (Some (q, false, None))
      | FEV_WAITER_SET_ONLY => Some (Some (q, true, None))
      | FEV_WAITER_SET_AND_WAKE_UP => Some (Some (q, true, Some (fiber w)))
      end
  end.

(** The loop; [fuel] bounds the number of nodes. *)
Fixpoint wq_wake_loop (fuel : nat) (q : wqueue) (max_waiters num_woken : Z) (fibers : list loc)
    : option (wqueue * Z * list loc) :=
  match fuel with
  | O => None
  | S fuel =>
    if num_woken <? max_waiters then
      r ← wq_wake_iter q;
      match r with
      | None => Some (q, num_woken, fibers)
      | Some (q, woken, f) =>
          wq_wake_loop fuel q max_waiters (if woken : bool then u32 (num_woken + 1) else num_woken)
            (fibers ++ match f with Some x => [x] | None => [] end)
      end
    else Some (q, num_woken, fibers)
  end.

Section client.
Context {C : Type}.

(** The first critical section of [fev_waiters_queue_wait]; the boolean of the
    result is [do_wait]. *)
Definition wq_wait_enter (recheck : option (C → option (C * bool))) (q : wqueue) (c : C)
    (n cur_fiber : loc) : option (bool * wqueue * C) :=
  let q := set_node q n
             (mk_wnode (prepare_waiter (nwaiter (node_at q n)) cur_fiber) (deleted (node_at q n))) in
  match recheck with
  | None => Some (true, wq_insert q n, c)
  | Some rc =>
      '(c, do_wait) ← rc c;
      if negb do_wait then Some (false, q, c) else Some (true, wq_insert q n, c)
  end.

(** What follows the wait: [res] is the result of the wait, 0 when the reason
    was [FEV_WAITER_READY]. *)
Definition wq_wait_leave (q : wqueue) (n : loc) (res : Z) : option (Z * wqueue) :=
  if res =? 0 then
    FEV_ASSERT deleted (node_at q n); Some (0, q)
  else
    FEV_ASSERT ((res =? - EAGAIN) || (res =? - ENOMEM) || (res =? - ETIMEDOUT));
    Some (res, wq_remove q n).

(** [fev_waiters_queue_wake]. *)
Definition fev_waiters_queue_wake (callback : option (C → Z → bool → option C)) (max_waiters : Z)
    (q : wqueue) (c : C) : option (wqueue * C * list loc) :=
  '(q, num_woken, fibers) ← wq_wake_loop (S (length (nodes q))) q max_waiters 0 [];
  c ← match callback with
      | None => Some c
      | Some cb => cb c num_woken (bool_decide (nodes q = []))
      end;
  Some (q, c, fibers).
End client.

(** ** Specification *)

(** A node whose waiter can still be woken up. *)
Definition live (x : wnode) : bool := bool_decide (reason (nwaiter x) = FEV_WAITER_NONE).

(** The nodes [fev_waiters_queue_wake] removes: it goes through the queue until
    it has met [k] live ones. *)
Fixpoint woken_prefix (at_ : loc → wnode) (k : nat) (l : list loc) : list loc * list loc :=
  match k, l with
  | O, _ | _, [] => ([], l)
  | S k', n :: l' =>
      let '(pre, post) := woken_prefix at_ (if live (at_ n) then k' else k) l' in (n :: pre, post)
  end.

(** A removed node: a live one is given the reason [FEV_WAITER_READY]. *)
Definition removed_node (x : wnode) : wnode :=
  mk_wnode (match fev_waiter_wake (nwaiter x) FEV_WAITER_READY with
            | Some (_, w) => w | None => nwaiter x end) true.

Definition runnable (x : wnode) : list loc :=
  if live x && do_wake (nwaiter x) then [fiber (nwaiter x)] else [].

Lemma wq_wake_iter_cons q n rest :
  nodes q = n :: rest →
  wq_wake_iter q =
    Some (Some (mk_wqueue rest (upd (node_at q) n (removed_node (node_at q n))), live (node_at q n),
                head (runnable (node_at q n)))).
Proof.
  intros Hn. unfold wq_wake_iter, removed_node, runnable, live. rewrite Hn. simpl.
  unfold fev_waiter_wake. simpl. destruct (decide (reason (nwaiter (node_at q n)) = FEV_WAITER_NONE)) as [E|E].
  - rewrite bool_decide_true by done. simpl. by destruct (do_wake _).
  - rewrite bool_decide_false by done. done.
Qed.

Lemma removed_node_reason x :
  reason (nwaiter (removed_node x)) =
    if live x then FEV_WAITER_READY else reason (nwaiter x).
Proof.
  unfold removed_node, fev_waiter_wake, live. simpl.
  destruct (decide (reason (nwaiter x) = FEV_WAITER_NONE)) as [E|E].
  - rewrite bool_decide_true by done. by destruct (do_wake _).
  - by rewrite bool_decide_false.
Qed.

Lemma live_reason x : live x = false → reason (nwaiter x) ≠ FEV_WAITER_NONE.
Proof. unfold live. intros E. by apply bool_decide_eq_false in E. Qed.

Lemma woken_prefix_ext at1 at2 k l :
  (∀ n, n ∈ l → at1 n = at2 n) → woken_prefix at1 k l = woken_prefix at2 k l.
Proof.
  revert k. induction l as [|n l IH]; intros [|k] H; try done. simpl.
  rewrite (H n) by apply list_elem_of_here. rewrite IH; [done|]. intros m Hm. apply H. by apply list_elem_of_further.
Qed.

Lemma woken_prefix_app at_ k l : (woken_prefix at_ k l).1 ++ (woken_prefix at_ k l).2 = l.
Proof.
  revert k. induction l as [|n l IH]; intros [|k]; try done. simpl.
  specialize (IH (if live (at_ n) then k else S k)).
  destruct (woken_prefix _ _ l) as [pre post]. simpl in *. by f_equal.
Qed.

Definition num_live (at_ : loc → wnode) (l : list loc) : nat :=
  length (filter (λ n, live (at_ n) = true) l).

Lemma num_live_cons at_ n l :
  num_live at_ (n :: l) = ((if live (at_ n) then 1 else 0) + num_live at_ l)%nat.
Proof.
  unfold num_live. rewrite filter_cons. destruct (live (at_ n)) eqn:E;
    [rewrite decide_True by done|rewrite decide_False by congruence]; done.
Qed.

Lemma woken_prefix_live at_ k l :
  (num_live at_ (woken_prefix at_ k l).1 <= k)%nat ∧
  ((woken_prefix at_ k l).2 ≠ [] → num_live at_ (woken_prefix at_ k l).1 = k).
Proof.
  revert k. induction l as [|n l IH]; intros [|k]; simpl; try done.
  - split; [unfold num_live; simpl; lia|done].
  - specialize (IH (if live (at_ n) then k else S k)).
    destruct (woken_prefix _ _ l) as [pre post]. simpl in *. rewrite num_live_cons.
    destruct (live (at_ n)); simpl in *; (split; [lia|]; intros Hp; destruct IH as [_ IH]; specialize (IH Hp); lia).
Qed.

Definition runnables (at_ : loc → wnode) (l : list loc) : list loc :=
  concat (map (λ n, runnable (at_ n)) l).

Lemma live_ext at1 at2 l :
  (∀ n, n ∈ l → at1 n = at2 n) → num_live at1 l = num_live at2 l ∧ runnables at1 l = runnables at2 l.
Proof.
  induction l as [|n l IH]; intros H; [done|].
  destruct IH as [I1 I2]; [intros; apply H; by apply list_elem_of_further|].
  rewrite !num_live_cons. unfold runnables in *. simpl. rewrite (H n) by apply list_elem_of_here.
  by rewrite I1, I2.
Qed.

(** The loop, when every node appears once. *)
Lemma wq_wake_loop_ok fuel q max_waiters num_woken fibers :
  NoDup (nodes q) → (length (nodes q) < fuel)%nat → 0 <= num_woken <= max_waiters → max_waiters < 2 ^ 32 →
  let k := Z.to_nat (max_waiters - num_woken) in
  let pre := (woken_prefix (node_at q) k (nodes q)).1 in
  ∃ q', wq_wake_loop fuel q max_waiters num_woken fibers =
      Some (q', num_woken + Z.of_nat (num_live (node_at q) pre),
            fibers ++ runnables (node_at q) pre) ∧
    nodes q' = (woken_prefix (node_at q) k (nodes q)).2 ∧
    ∀ n, node_at q' n = if decide (n ∈ pre) then removed_node (node_at q n) else node_at q n.
Proof.
  revert q num_woken fibers. induction fuel as [|fuel IH]; intros q num_woken fibers Hnd Hf Hw Hm; [lia|].
  simpl. destruct (Z.ltb_spec num_woken max_waiters) as [Hlt|Hge].
  2: { replace (Z.to_nat _) with O by lia. assert (E : ∀ l, woken_prefix (node_at q) 0 l = ([], l)) by by intros [].
    rewrite E. simpl. exists q. rewrite app_nil_r, Z.add_0_r. split; [done|]. split; [done|].
    done. }
  destruct (nodes q) as [|n rest] eqn:Hn.
  { unfold wq_wake_iter. rewrite Hn. simpl. exists q.
    replace (match Z.to_nat _ with O | _ => _ end) with (@nil loc, @nil loc) by by destruct (Z.to_nat _).
    simpl. rewrite app_nil_r, Z.add_0_r. split; [done|]. split; [done|].
    done. }
  rewrite (wq_wake_iter_cons q n rest Hn). cbn [mbind option_bind].
  apply NoDup_cons in Hnd as [Hni Hnd]. simpl in Hf.
  set (q1 := mk_wqueue rest _). set (l := live (node_at q n)).
  set (nw := if l then u32 (num_woken + 1) else num_woken).
  assert (Hnw : nw = num_woken + (if l then 1 else 0)).
  { unfold nw. destruct l; [rewrite u32_small by lia; done|lia]. }
  destruct (IH q1 nw (fibers ++ match head (runnable (node_at q n)) with Some x => [x] | None => [] end))
    as (q' & -> & Hq' & Hat); [done|simpl; lia|destruct l; lia|done|].
  replace (Z.to_nat (max_waiters - num_woken)) with (S (Z.to_nat (max_waiters - num_woken - 1))) by lia.
  simpl. fold l.
  assert (Hext : ∀ m, m ∈ rest → node_at q1 m = node_at q m).
  { intros m Hmr. simpl. apply upd_ne. congruence. }
  assert (Hk : Z.to_nat (max_waiters - nw) = if l then Z.to_nat (max_waiters - num_woken - 1)
                                             else S (Z.to_nat (max_waiters - num_woken - 1))) by (destruct l; lia).
  simpl in Hq', Hat. rewrite Hk in *. change (nodes q1) with rest in *.
  rewrite (woken_prefix_ext (node_at q1) (node_at q)) in Hq', Hat |- * by done.
  pose proof (woken_prefix_app (node_at q) (if l then Z.to_nat (max_waiters - num_woken - 1)
     else S (Z.to_nat (max_waiters - num_woken - 1))) rest) as Happ.
  destruct (woken_prefix (node_at q) _ rest) as [pre post]. simpl in *.
  assert (Hpre : ∀ m, m ∈ pre → m ∈ rest) by (intros m ?; rewrite <- Happ; apply elem_of_app; auto).
  destruct (live_ext (node_at q1) (node_at q) pre) as [El Er]; [intros m Hmp; apply Hext; auto|].
  exists q'. split; [|split; [done|]].
  - rewrite num_live_cons. fold l. simpl in El, Er. rewrite El, Er. f_equal. f_equal; [f_equal|].
    + destruct l; lia.
    + rewrite <- app_assoc. f_equal. unfold runnables. simpl. f_equal. unfold runnable. by destruct (_ && _).
  - intros m. rewrite Hat. destruct (decide (m = n)) as [->|Hmn].
    + rewrite decide_False by auto. rewrite upd_eq. by rewrite decide_True by apply list_elem_of_here.
    + rewrite upd_ne by done. destruct (decide (m ∈ pre)).
      * by rewrite decide_True by by apply list_elem_of_further.
      * rewrite decide_False; [done|]. rewrite elem_of_cons. tauto.
Qed.

(** ** The other operations *)

Lemma tailq_remove_elem l n m : m ∈ tailq_remove l n ↔ m ∈ l ∧ m ≠ n.
Proof. unfold tailq_remove. rewrite list_elem_of_filter. tauto. Qed.

Lemma tailq_remove_NoDup l n : NoDup l → NoDup (tailq_remove l n).
Proof. apply NoDup_filter. Qed.

Lemma NoDup_snoc (l : list loc) n : n ∉ l → NoDup l → NoDup (l ++ [n]).
Proof.
  intros Hn Hl. apply NoDup_app. split; [done|]. split; [|apply NoDup_singleton].
  by intros m Hm ->%list_elem_of_singleton.
Qed.

Lemma woken_prefix_one at_ l :
  (woken_prefix at_ 1 l = (l, []) ∧ ∀ n, n ∈ l → live (at_ n) = false) ∨
  ∃ dead n post, l = dead ++ n :: post ∧ live (at_ n) = true ∧ (∀ m, m ∈ dead → live (at_ m) = false) ∧
    woken_prefix at_ 1 l = (dead ++ [n], post).
Proof.
  induction l as [|n l IH]; [by left; split; [|intros ? ?%not_elem_of_nil]|]. simpl.
  destruct (live (at_ n)) eqn:El.
  - right. exists [], n, l. split; [done|]. split; [done|]. split; [by intros ? ?%not_elem_of_nil|].
    by destruct l.
  - destruct IH as [[-> Hd]|(dead & m & post & -> & Hm & Hd & ->)].
    + left. split; [done|]. by intros m [->|?]%elem_of_cons; auto.
    + right. exists (n :: dead), m, post. split; [done|]. split; [done|]. split; [|done].
      by intros x [->|?]%elem_of_cons; auto.
Qed.

(** Waking up at most one waiter. *)
Lemma wake_one_ok {C} (cb : C → Z → bool → option C) q c :
  NoDup (nodes q) →
  (∃ q', (∀ n, n ∈ nodes q → live (node_at q n) = false) ∧ nodes q' = [] ∧
     (∀ n, node_at q' n = if decide (n ∈ nodes q) then removed_node (node_at q n) else node_at q n) ∧
     fev_waiters_queue_wake (Some cb) 1 q c = (c' ← cb c 0 true; Some (q', c', []))) ∨
  (∃ q' dead n post, nodes q = dead ++ n :: post ∧ live (node_at q n) = true ∧
     (∀ m, m ∈ dead → live (node_at q m) = false) ∧ nodes q' = post ∧
     (∀ m, node_at q' m = if decide (m ∈ dead ++ [n]) then removed_node (node_at q m) else node_at q m) ∧
     fev_waiters_queue_wake (Some cb) 1 q c =
       (c' ← cb c 1 (bool_decide (post = [])); Some (q', c', runnable (node_at q n)))).
Proof.
  intros Hnd. unfold fev_waiters_queue_wake.
  destruct (wq_wake_loop_ok (S (length (nodes q))) q 1 0 []) as (q' & -> & Hn' & Hat);
    [done|lia|lia|lia|]. change (Z.to_nat (1 - 0)) with 1%nat in *. cbn [mbind option_bind].
  assert (Hdead : ∀ l, (∀ m, m ∈ l → live (node_at q m) = false) →
            num_live (node_at q) l = 0%nat ∧ runnables (node_at q) l = []).
  { induction l as [|m l IH]; intros Hl; [done|]. rewrite num_live_cons. unfold runnables in *. simpl.
    destruct IH as [-> ->]; [intros; apply Hl; by apply list_elem_of_further|].
    unfold runnable. rewrite (Hl m) by apply list_elem_of_here. done. }
  destruct (woken_prefix_one (node_at q) (nodes q)) as [[E Hd]|(dead & n & post & Hl & Hlive & Hd & E)];
    rewrite E in *; simpl in *.
  - left. exists q'. split; [done|]. split; [done|]. split; [done|]. destruct (Hdead _ Hd) as [-> ->].
    rewrite Hn'. done.
  - right. exists q', dead, n, post. split; [done|]. split; [done|]. split; [done|]. split; [done|].
    split; [done|]. rewrite Hn'. destruct (Hdead _ Hd) as [E1 E2].
    assert (num_live (node_at q) (dead ++ [n]) = 1%nat) as ->.
    { clear -E1 Hlive. unfold num_live in *. rewrite filter_app, length_app, E1. simpl.
      rewrite filter_cons, decide_True by done. done. }
    assert (runnables (node_at q) (dead ++ [n]) = runnable (node_at q n)) as ->; [|done].
    unfold runnables in *. rewrite map_app, concat_app, E2. simpl. by rewrite app_nil_r.
Qed.

Definition ex_wnode (r : fev_waiter_wake_reason) (dw : bool) (f : loc) : wnode :=
  mk_wnode (mk_waiter r dw FEV_WAITER_NONE false true f) false.
(** Fiber 21 has timed out, fiber 22 is blocked, fiber 23 is switching out,
    fiber 24 is blocked. *)
Definition ex_wqueue : wqueue :=
  mk_wqueue [1; 2; 3; 4]%positive
    (λ n, match n with
          | 1 => ex_wnode FEV_WAITER_TIMED_OUT_CHECK false 21
          | 2 => ex_wnode FEV_WAITER_NONE true 22
          | 3 => ex_wnode FEV_WAITER_NONE false 23
          | _ => ex_wnode FEV_WAITER_NONE true 24
          end)%positive.

(** ** Properties *)

(** [fev_waiters_queue_wake] wakes the oldest waiters first: it removes the
    shortest prefix of the queue that contains [max_waiters] waiters that can
    still be woken up (or the whole queue), sets the reason of exactly those to
    ready and marks every removed node deleted, touches no other node, returns
    the fibers of the woken waiters that were already blocked in the order of
    the queue, and calls the callback with the number of woken waiters and
    whether the queue is empty. *)
Theorem waiters_queue_wake_fifo {C} (cb : C → Z → bool → option C) q c max_waiters :
  NoDup (nodes q) → 0 <= max_waiters <= UINT32_MAX →
  let pre := (woken_prefix (node_at q) (Z.to_nat max_waiters) (nodes q)).1 in
  let post := (woken_prefix (node_at q) (Z.to_nat max_waiters) (nodes q)).2 in
  nodes q = pre ++ post ∧
  (num_live (node_at q) pre <= Z.to_nat max_waiters)%nat ∧
  (post ≠ [] → num_live (node_at q) pre = Z.to_nat max_waiters) ∧
  ∃ q', fev_waiters_queue_wake (Some cb) max_waiters q c =
      (c' ← cb c (Z.of_nat (num_live (node_at q) pre)) (bool_decide (post = []));
       Some (q', c', runnables (node_at q) pre)) ∧
    nodes q' = post ∧
    ∀ n, node_at q' n = if decide (n ∈ pre) then removed_node (node_at q n) else node_at q n.
Proof.
  intros Hnd Hm pre post. unfold pre, post. destruct (woken_prefix_live (node_at q) (Z.to_nat max_waiters) (nodes q)).
  split; [by rewrite woken_prefix_app|]. split; [done|]. split; [done|].
  unfold UINT32_MAX in Hm. unfold fev_waiters_queue_wake.
  destruct (wq_wake_loop_ok (S (length (nodes q))) q max_waiters 0 []) as (q' & -> & Hn' & Hat);
    [done|lia|lia|lia|]. rewrite Z.sub_0_r in *. exists q'. cbn [mbind option_bind]. rewrite Hn'. done.
Qed.

Lemma waiters_queue_wake_fifo_witness :
  ∃ q', fev_waiters_queue_wake (Some (λ c n e, Some (n :: c))) 2 ex_wqueue [] =
          Some (q', [2], [22%positive]) ∧ nodes q' = [4%positive].
Proof.
  destruct (waiters_queue_wake_fifo (λ c n _, Some (n :: c)) ex_wqueue [] 2)
    as (_ & _ & _ & q' & E & Hn & _).
  - apply (bool_decide_eq_true_1 _). reflexivity.
  - unfold UINT32_MAX. lia.
  - exists q'. split; [exact E|exact Hn].
Defined.
