(* ===== verification/Sem.v ===== *)
(** The fiber semaphore: [src/src/fev_sem.h] and [src/src/fev_sem.c].

    [sem->value] and the queue are only accessed inside the critical section of
    the queue's internal lock, so the steps of the system are whole critical
    sections, interleaved with timeouts and with the fibers' returns from their
    waits. [can_fail] is [FEV_TIMERS_ADD_CAN_FAIL]: may [fev_timed_wait] fail
    with [-ENOMEM]? It is 1 for the binary heap and 0 for the red-black tree. *)

From S2P Require Import Prelude Waiter WaitersQueue.

Local Open Scope Z_scope.

(** ** The callbacks *)

Definition fev_sem_wait_recheck (value : Z) : option (Z * bool) :=
  if 0 <? value then Some (value - 1, false) else Some (value, true).

(** [sem->value++] overflows at [INT32_MAX]. *)
Definition fev_sem_post_callback (value num_woken : Z) (is_empty : bool) : option Z :=
  FEV_ASSERT (num_woken <=? 1);
  if num_woken =? 0 then (if value <? INT32_MAX then Some (value + 1) else None) else Some value.

Definition fev_sem_post (q : wqueue) (value : Z) : option (wqueue * Z * list loc) :=
  fev_waiters_queue_wake (Some fev_sem_post_callback) 1 q value.

(** ** The system *)

(** Program counter of a fiber; [timed] distinguishes [fev_sem_wait_until] from
    [fev_sem_wait]. *)
Inductive sempc :=
| PIdle
| PEnter (timed : bool)   (* before the critical section of [fev_waiters_queue_wait] *)
| PAdd                    (* [fev_timed_wait]: before adding the timer *)
| PWait (timed : bool)    (* waiting *)
| PLeave (res : Z).       (* not ready: before removing the node *)

(** A fiber's node has the address of the fiber. [granted] lists the fibers a
    post has chosen that have not returned yet; [acquired] and [posted] count
    the finished operations, [lost] the posts whose fiber returned an error.
    They are ghost state. *)
Record semstate := mk_sem {
  value : Z;
  wq : wqueue;
  ppcs : loc → sempc;
  granted : list loc;
  acquired : Z;
  posted : Z;
  lost : Z;
}.

Definition p_pc s f p := mk_sem (value s) (wq s) (upd (ppcs s) f p) (granted s) (acquired s) (posted s) (lost s).
Definition p_wq s q := mk_sem (value s) q (ppcs s) (granted s) (acquired s) (posted s) (lost s).

(** [PCall f timed]: [f] calls a wait function. [PStep f]: [f] runs on.
    [PNoMem f]: adding the timer of [f] fails. [PTimeout f r]: the timer of [f]
    wakes it up with the reason [r]. [PPost]: somebody calls [fev_sem_post]. *)
Inductive semlabel :=
| PCall (f : loc) (timed : bool) | PStep (f : loc) | PNoMem (f : loc)
| PTimeout (f : loc) (r : fev_waiter_wake_reason) | PPost.

(** The critical section of [fev_waiters_queue_wait]. *)
Definition sem_enter (s : semstate) (f : loc) (timed : bool) : option semstate :=
  '(do_wait, q, v) ← wq_wait_enter (Some fev_sem_wait_recheck) (wq s) (value s) f f;
  if do_wait : bool
  then Some (mk_sem v q (upd (ppcs s) f (if timed then PAdd else PWait false)) (granted s)
               (acquired s) (posted s) (lost s))
  else Some (mk_sem v q (upd (ppcs s) f PIdle) (granted s) (acquired s + 1) (posted s) (lost s)).

Definition own_reason (s : semstate) (f : loc) : fev_waiter_wake_reason :=
  reason (nwaiter (node_at (wq s) f)).

(** The return from the wait. *)
Definition sem_resume (s : semstate) (f : loc) (timed : bool) : option semstate :=
  match own_reason s f with
  | FEV_WAITER_READY =>
      '(_, q) ← wq_wait_leave (wq s) f 0;
      Some (mk_sem (value s) q (upd (ppcs s) f PIdle) (filter (λ x, x ≠ f) (granted s))
              (acquired s + 1) (posted s) (lost s))
  | FEV_WAITER_TIMED_OUT_NO_CHECK =>
      FEV_ASSERT timed; Some (p_pc s f (PLeave (- ETIMEDOUT)))
  | FEV_WAITER_TIMED_OUT_CHECK =>
      FEV_ASSERT timed; Some (p_pc s f (PLeave (- EAGAIN)))
  | FEV_WAITER_NONE => None
  end.

(** The second critical section; [fev_sem_wait_until] tries again on [-EAGAIN]. *)
Definition sem_leave (s : semstate) (f : loc) (res : Z) : option semstate :=
  '(res, q) ← wq_wait_leave (wq s) f res;
  Some (mk_sem (value s) q (upd (ppcs s) f (if res =? - EAGAIN then PEnter true else PIdle))
          (filter (λ x, x ≠ f) (granted s)) (acquired s) (posted s)
          (lost s + if decide (f ∈ granted s) then 1 else 0)).

Definition sem_post (s : semstate) : option semstate :=
  '(q, v, _) ← fev_sem_post (wq s) (value s);
  Some (mk_sem v q (ppcs s)
          (filter (λ f, live (node_at (wq s) f) = true ∧ own_reason (p_wq s q) f = FEV_WAITER_READY)
             (nodes (wq s)) ++ granted s)
          (acquired s) (posted s + 1) (lost s)).

Definition sem_timeout (s : semstate) (f : loc) (r : fev_waiter_wake_reason) : option semstate :=
  '(_, w) ← fev_waiter_wake (nwaiter (node_at (wq s) f)) r;
  Some (p_wq s (set_node (wq s) f (mk_wnode w (deleted (node_at (wq s) f))))).

Section system.
Context (can_fail : bool).

Definition sem_enabled (s : semstate) (lb : semlabel) : bool :=
  match lb with
  | PCall f _ => match ppcs s f with PIdle => true | _ => false end
  | PStep f =>
      match ppcs s f with
      | PEnter _ | PAdd | PLeave _ => true
      | PWait _ => negb (live (node_at (wq s) f))
      | PIdle => false
      end
  | PNoMem f => can_fail && match ppcs s f with PAdd => true | _ => false end
  | PTimeout f r =>
      match ppcs s f, r with
      | PWait true, (FEV_WAITER_TIMED_OUT_CHECK | FEV_WAITER_TIMED_OUT_NO_CHECK) => true
      | _, _ => false
      end
  | PPost => value s <? INT32_MAX
  end.

Definition sem_step (s : semstate) (lb : semlabel) : option semstate :=
  match lb with
  | PCall f timed => Some (p_pc s f (PEnter timed))
  | PStep f =>
      match ppcs s f with
      | PEnter timed => sem_enter s f timed
      | PAdd => Some (p_pc s f (PWait true))
      | PWait timed => sem_resume s f timed
      | PLeave res => sem_leave s f res
      | PIdle => None
      end
  | PNoMem f => Some (p_pc s f (PLeave (- ENOMEM)))
  | PTimeout f r => sem_timeout s f r
  | PPost => sem_post s
  end.

Definition sem_next (s : semstate) (lb : semlabel) : option semstate :=
  if sem_enabled s lb then sem_step s lb else None.
End system.

(** [fev_sem_init]. *)
Definition fev_sem_init (v : Z) : semstate :=
  mk_sem v (mk_wqueue [] (λ f, mk_wnode (mk_waiter FEV_WAITER_NONE false FEV_WAITER_NONE false false f) false))
    (λ _, PIdle) [] 0 0 0.

(** ** The invariant *)

(** Between the two critical sections the node is either in the queue, or it was
    removed by a post. *)
Definition in_wait (p : sempc) : bool :=
  match p with PAdd | PWait _ | PLeave _ => true | _ => false end.

(** The reasons a waiter can have at a program counter. *)
Definition reason_ok (can_fail : bool) (p : sempc) (r : fev_waiter_wake_reason) : Prop :=
  match p with
  | PAdd | PWait false => r = FEV_WAITER_NONE ∨ r = FEV_WAITER_READY
  | PLeave res => (res = - ENOMEM ∧ can_fail = true) ∨
                  ((res = - EAGAIN ∨ res = - ETIMEDOUT) ∧ r ≠ FEV_WAITER_NONE ∧ r ≠ FEV_WAITER_READY)
  | _ => True
  end.

Record semlocal (can_fail : bool) (s : semstate) (f : loc) : Prop := {
  sl_nodes : f ∈ nodes (wq s) ↔ in_wait (ppcs s f) = true ∧ deleted (node_at (wq s) f) = false;
  sl_granted : f ∈ granted s ↔ in_wait (ppcs s f) = true ∧ own_reason s f = FEV_WAITER_READY;
  sl_ready : f ∈ nodes (wq s) → own_reason s f ≠ FEV_WAITER_READY;
  sl_deleted : in_wait (ppcs s f) = true → deleted (node_at (wq s) f) = true →
               own_reason s f ≠ FEV_WAITER_NONE;
  sl_reason : reason_ok can_fail (ppcs s f) (own_reason s f);
}.

Record seminv (can_fail : bool) (v0 : Z) (s : semstate) : Prop := {
  sm_local : ∀ f, semlocal can_fail s f;
  sm_nodes : NoDup (nodes (wq s));
  sm_granted : NoDup (granted s);
  sm_free : 0 < value s → nodes (wq s) = [];
  sm_count : value s + Z.of_nat (length (granted s)) + acquired s + lost s = v0 + posted s;
  sm_lost : can_fail = false → lost s = 0;
}.

Section invariant.
Context (can_fail : bool) (v0 : Z).
Implicit Types s : semstate.

Lemma seminv_init : seminv can_fail v0 (fev_sem_init v0).
Proof.
  split; simpl; try done; try constructor; simpl; try done.
  - split; [by intros ?%not_elem_of_nil|by intros []].
  - split; [by intros ?%not_elem_of_nil|by intros []].
  - lia.
Qed.

(** Fibers whose node and program counter do not change. *)
Lemma semlocal_frame s s' f :
  semlocal can_fail s f → ppcs s' f = ppcs s f → node_at (wq s') f = node_at (wq s) f →
  (f ∈ nodes (wq s') ↔ f ∈ nodes (wq s)) → (f ∈ granted s' ↔ f ∈ granted s) → semlocal can_fail s' f.
Proof.
  intros [] Ep En Ew Eg. assert (own_reason s' f = own_reason s f) as Er by (unfold own_reason; by rewrite En).
  split; rewrite ?Ep, ?En, ?Ew, ?Eg, ?Er; done.
Qed.

(** Steps of [f] that only change its program counter. *)
Lemma seminv_pc s f p :
  seminv can_fail v0 s → in_wait p = in_wait (ppcs s f) → reason_ok can_fail p (own_reason s f) →
  seminv can_fail v0 (p_pc s f p).
Proof.
  intros [Hl Hn Hg Hf Hc Hlo] Hw Hr. split; try done. intros g. destruct (decide (f = g)) as [<-|Hne].
  - destruct (Hl f). split; simpl; rewrite ?upd_eq, ?Hw; try done.
  - eapply semlocal_frame; [apply Hl|by apply upd_ne|done..].
Qed.

Lemma filter_ne_elem (l : list loc) f g : g ∈ filter (λ x, x ≠ f) l ↔ g ≠ f ∧ g ∈ l.
Proof. by rewrite list_elem_of_filter. Qed.

Lemma filter_ne_id (l : list loc) f : f ∉ l → filter (λ x, x ≠ f) l = l.
Proof.
  induction l as [|x l IH]; [done|]. rewrite elem_of_cons. intros Hf.
  rewrite filter_cons, decide_True by (intros ->; tauto).
  f_equal. tauto.
Qed.

Lemma length_filter_ne (l : list loc) f :
  NoDup l → Z.of_nat (length (filter (λ x, x ≠ f) l)) = Z.of_nat (length l) - if decide (f ∈ l) then 1 else 0.
Proof.
  induction 1 as [|x l Hx Hnd IH]; [done|]. rewrite filter_cons. destruct (decide (x = f)) as [->|Hne].
  - rewrite decide_False by tauto. rewrite filter_ne_id by done.
    rewrite decide_True by apply list_elem_of_here. simpl. lia.
  - rewrite decide_True by done. simpl. destruct (decide (f ∈ l)).
    + rewrite decide_True by by apply list_elem_of_further. lia.
    + rewrite decide_False by (rewrite elem_of_cons; intros [?|?]; congruence). lia.
Qed.

Lemma seminv_enter s f timed :
  seminv can_fail v0 s → ppcs s f = PEnter timed →
  ∃ s', sem_enter s f timed = Some s' ∧ seminv can_fail v0 s'.
Proof.
  intros [Hl Hn Hg Hf Hc Hlo] Hpc. destruct (Hl f) as [Fn Fg _ _ _]. rewrite Hpc in *. simpl in *.
  assert (Hfn : f ∉ nodes (wq s)) by (rewrite Fn; by intros []).
  assert (Hfg : f ∉ granted s) by (rewrite Fg; by intros []).
  unfold sem_enter, wq_wait_enter, fev_sem_wait_recheck.
  destruct (Z.ltb_spec 0 (value s)) as [Hv|Hv]; simpl; eexists; (split; [done|]); split; simpl; try done; try lia.
  - intros g. destruct (decide (f = g)) as [<-|Hne].
    + split; unfold own_reason; simpl; rewrite ?upd_eq; simpl; try done; rewrite ?Fn, ?Fg; split; by intros [].
    + eapply semlocal_frame; [apply Hl|by apply upd_ne|by apply upd_ne|done..].
  - intros _. auto.
  - intros g. destruct (decide (f = g)) as [<-|Hne].
    + split; unfold own_reason; simpl; rewrite ?upd_eq; simpl; try done.
      * rewrite elem_of_app, list_elem_of_singleton. split; [intros _|by right]. by destruct timed.
      * split; [done|]. by intros [_ ?].
      * destruct timed; by left.
    + eapply semlocal_frame; [apply Hl|by apply upd_ne|simpl; by rewrite !upd_ne| |done]. simpl.
      rewrite elem_of_app, list_elem_of_singleton. split; [intros [?|?]; [done|congruence]|auto].
  - by apply NoDup_snoc.
Qed.

Lemma seminv_resume s f timed :
  seminv can_fail v0 s → ppcs s f = PWait timed → live (node_at (wq s) f) = false →
  ∃ s', sem_resume s f timed = Some s' ∧ seminv can_fail v0 s'.
Proof.
  intros Hi Hpc Hlive. pose proof Hi as [Hl Hn Hg Hf Hc Hlo].
  destruct (Hl f) as [Fn Fg Fr Fd Fo]. rewrite Hpc in *. simpl in *.
  unfold live in Hlive. apply bool_decide_eq_false in Hlive. fold (own_reason s f) in Hlive.
  unfold sem_resume. destruct (own_reason s f) eqn:Er; [done|..].
  - assert (Hfn : f ∉ nodes (wq s)) by (intros ?; by apply Fr).
    assert (deleted (node_at (wq s) f) = true) as Hd.
    { destruct (deleted _) eqn:E; [done|]. exfalso. apply Hfn. by apply Fn. }
    unfold wq_wait_leave. simpl. rewrite Hd. simpl. eexists. split; [done|].
    assert (f ∈ granted s) as Hfg by by apply Fg.
    split; simpl; try done.
    + intros g. destruct (decide (f = g)) as [<-|Hne].
      * split; simpl; rewrite ?upd_eq; simpl; try done.
        -- split; [done|by intros []].
        -- rewrite filter_ne_elem. split; by intros [].
      * eapply semlocal_frame; [apply Hl|by apply upd_ne|done|done|]. simpl. rewrite filter_ne_elem.
        split; [by intros []|]. auto.
    + by apply NoDup_filter.
    + rewrite length_filter_ne, decide_True by done. lia.
  - destruct timed; [|by destruct Fo]. eexists. split; [done|].
    apply seminv_pc; [done|by rewrite Hpc|]. right. rewrite Er. auto.
  - destruct timed; [|by destruct Fo]. eexists. split; [done|].
    apply seminv_pc; [done|by rewrite Hpc|]. right. rewrite Er. auto.
Qed.

Lemma seminv_leave s f res :
  seminv can_fail v0 s → ppcs s f = PLeave res →
  ∃ s', sem_leave s f res = Some s' ∧ seminv can_fail v0 s'.
Proof.
  intros Hi Hpc. pose proof Hi as [Hl Hn Hg Hf Hc Hlo].
  destruct (Hl f) as [Fn Fg Fr Fd Fo]. rewrite Hpc in *. simpl in *.
  assert (Hres : wq_wait_leave (wq s) f res = Some (res, wq_remove (wq s) f)).
  { unfold wq_wait_leave. destruct Fo as [[-> _]|[[->| ->] _]]; done. }
  unfold sem_leave. rewrite Hres. cbn [mbind option_bind]. eexists. split; [done|].
  assert (Hq : ∀ g, g ∈ nodes (wq_remove (wq s) f) ↔ g ≠ f ∧ g ∈ nodes (wq s)).
  { intros g. unfold wq_remove. destruct (deleted (node_at (wq s) f)) eqn:Ed; simpl.
    - split; [|by intros []]. intros Hin. split; [|done]. intros ->. apply Fn in Hin as [_ ?]. congruence.
    - rewrite tailq_remove_elem. tauto. }
  assert (Hat : node_at (wq_remove (wq s) f) = node_at (wq s)) by (unfold wq_remove; by destruct (negb _)).
  set (p := if res =? - EAGAIN then PEnter true else PIdle).
  assert (Hp : in_wait p = false) by (unfold p; by case_match).
  split; simpl.
  - intros g. destruct (decide (f = g)) as [<-|Hne].
    + split; unfold own_reason; simpl; rewrite ?upd_eq, ?Hp, ?Hat; try done.
      * rewrite Hq. split; by intros [].
      * rewrite filter_ne_elem. split; by intros [].
      * rewrite Hq. by intros [].
      * unfold p. by case_match.
    + eapply semlocal_frame; [apply Hl|by apply upd_ne|simpl; by rewrite Hat|..].
      * rewrite Hq. split; [by intros []|auto].
      * simpl. rewrite filter_ne_elem. split; [by intros []|auto].
  - unfold wq_remove. destruct (negb _); [by apply tailq_remove_NoDup|done].
  - by apply NoDup_filter.
  - intros Hv. apply elem_of_nil_inv. intros x. rewrite Hq, Hf by done. by intros [_ ?%not_elem_of_nil].
  - rewrite length_filter_ne by done. case_decide; lia.
  - intros Hcf. rewrite (Hlo Hcf). rewrite decide_False; [done|]. rewrite Fg. intros [_ Er].
    rewrite Er in Fo. destruct Fo as [[_ ?]|[_ [_ ?]]]; [congruence|done].
Qed.

Lemma seminv_timeout s f r :
  seminv can_fail v0 s → ppcs s f = PWait true →
  r = FEV_WAITER_TIMED_OUT_CHECK ∨ r = FEV_WAITER_TIMED_OUT_NO_CHECK →
  ∃ s', sem_timeout s f r = Some s' ∧ seminv can_fail v0 s'.
Proof.
  intros [Hl Hn Hg Hf Hc Hlo] Hpc Hr. destruct (Hl f) as [Fn Fg Fr Fd Fo]. rewrite Hpc in *. simpl in *.
  unfold sem_timeout. set (w := nwaiter (node_at (wq s) f)).
  assert (∃ res w', fev_waiter_wake w r = Some (res, w') ∧
    reason w' = if decide (reason w = FEV_WAITER_NONE) then r else reason w) as (res & w' & -> & Hw').
  { unfold fev_waiter_wake. rewrite bool_decide_true by (destruct Hr as [->| ->]; done).
    destruct (decide (reason w = FEV_WAITER_NONE)); [|eauto]. simpl. destruct (do_wake w); eauto. }
  cbn [mbind option_bind]. eexists. split; [done|]. split; simpl; try done.
  intros g. destruct (decide (f = g)) as [<-|Hne].
  - unfold own_reason in *. fold w in Fg, Fr, Fd, Fo.
    split; unfold own_reason; simpl; rewrite ?upd_eq, ?Hpc; simpl; try done; rewrite Hw'.
    + rewrite Fg. destruct (decide (reason w = FEV_WAITER_NONE)) as [E|]; [|done]. rewrite E.
      destruct Hr as [->| ->]; split; by intros [].
    + destruct (decide (reason w = FEV_WAITER_NONE)); [by destruct Hr as [->| ->]|auto].
    + destruct (decide (reason w = FEV_WAITER_NONE)); [by destruct Hr as [->| ->]|auto].
  - eapply semlocal_frame; [apply Hl|done|by apply upd_ne|done..].
Qed.

Lemma filter_none (P : loc → Prop) `{∀ x, Decision (P x)} (l : list loc) :
  (∀ x, x ∈ l → ¬ P x) → filter P l = [].
Proof.
  induction l as [|x l IH]; intros Hl; [done|].
  rewrite filter_cons, decide_False by (apply Hl, list_elem_of_here).
  apply IH. intros y Hy. by apply Hl, list_elem_of_further.
Qed.

(** A node that a post removes without waking its fiber up. *)
Lemma semlocal_removed s s' f :
  semlocal can_fail s f → f ∈ nodes (wq s) → live (node_at (wq s) f) = false →
  ppcs s' f = ppcs s f → node_at (wq s') f = removed_node (node_at (wq s) f) →
  f ∉ nodes (wq s') → (f ∈ granted s' ↔ f ∈ granted s) → semlocal can_fail s' f.
Proof.
  intros [Fn Fg Fr Fd Fo] Hin Hd Ep En Hn' Eg.
  assert (own_reason s' f = own_reason s f) as Er.
  { unfold own_reason. rewrite En, removed_node_reason, Hd. done. }
  split; rewrite ?Ep, ?Er, ?Eg; try done.
  - rewrite En. split; [done|]. by intros [_ ?].
  - intros _ _. by apply live_reason.
Qed.

(** The node whose fiber a post wakes up. *)
Lemma semlocal_woken s s' f :
  semlocal can_fail s f → f ∈ nodes (wq s) → live (node_at (wq s) f) = true →
  ppcs s' f = ppcs s f → node_at (wq s') f = removed_node (node_at (wq s) f) →
  f ∉ nodes (wq s') → f ∈ granted s' → semlocal can_fail s' f.
Proof.
  intros [Fn Fg Fr Fd Fo] Hin Hd Ep En Hn' Hg'. apply Fn in Hin as [Hw Hdel].
  assert (own_reason s' f = FEV_WAITER_READY) as Er.
  { unfold own_reason. rewrite En, removed_node_reason, Hd. done. }
  split; rewrite ?Ep, ?Er; try done.
  - rewrite En. split; [done|]. by intros [_ ?].
  - apply bool_decide_eq_true in Hd. fold (own_reason s f) in Hd. rewrite Hd in Fo.
    destruct (ppcs s f) as [|?| |[]|r]; simpl in *; auto. destruct Fo as [?|[_ [? _]]]; [by left|done].
Qed.

Lemma seminv_post s :
  seminv can_fail v0 s → value s < INT32_MAX → ∃ s', sem_post s = Some s' ∧ seminv can_fail v0 s'.
Proof.
  intros [Hl Hn Hg Hf Hc Hlo] Hv. unfold sem_post, fev_sem_post.
  destruct (wake_one_ok fev_sem_post_callback (wq s) (value s) Hn)
    as [(q' & Hd & Hq' & Hat & ->)|(q' & dead & n & post & Hns & Hlive & Hd & Hq' & Hat & ->)].
  - unfold fev_sem_post_callback. simpl. rewrite (proj2 (Z.ltb_lt _ _)) by done. simpl.
    eexists. split; [done|].
    rewrite filter_none by (intros x Hx [E _]; rewrite Hd in E by done; done). simpl.
    split; simpl; try done; [|by rewrite Hq'; constructor|lia].
    intros g. destruct (decide (g ∈ nodes (wq s))) as [Hin|Hin].
    + eapply semlocal_removed; [apply Hl|done|by apply Hd|done|..]; simpl.
      * by rewrite Hat, decide_True.
      * rewrite Hq'. apply not_elem_of_nil.
      * done.
    + eapply semlocal_frame; [apply Hl|done|..]; simpl.
      * by rewrite Hat, decide_False.
      * rewrite Hq'. split; [by intros ?%not_elem_of_nil|done].
      * done.
  - simpl. eexists. split; [done|]. rewrite Hns in Hn. apply NoDup_app in Hn as (Hnd & Hdj & Hnp).
    apply NoDup_cons in Hnp as [Hnpost Hndp].
    assert (Hnin : n ∈ nodes (wq s)) by (rewrite Hns; apply elem_of_app; right; apply list_elem_of_here).
    assert (Hpost : ∀ m, m ∈ post → m ∈ nodes (wq s) ∧ m ∉ dead ++ [n]).
    { intros m Hm. rewrite Hns, !elem_of_app, elem_of_cons, list_elem_of_singleton. split; [auto|].
      intros [Hmd| ->]; [|done]. apply (Hdj m Hmd). by apply list_elem_of_further. }
    assert (Hgr : filter (λ f, live (node_at (wq s) f) = true ∧ own_reason (p_wq s q') f = FEV_WAITER_READY)
                    (nodes (wq s)) = [n]).
    { rewrite Hns, filter_app, filter_none, filter_cons, decide_True, filter_none; [done|..].
      - intros m Hm [_ E]. destruct (Hpost m Hm) as [Hm1 Hm2]. unfold own_reason in E. simpl in E.
        rewrite Hat, decide_False in E by done. destruct (Hl m) as [_ _ Fr _ _]. by apply Fr.
      - split; [done|]. unfold own_reason. simpl.
        rewrite Hat, decide_True, removed_node_reason, Hlive by (apply elem_of_app; right; apply list_elem_of_here). done.
      - intros m Hm [E _]. rewrite Hd in E by done. done. }
    rewrite Hgr. simpl.
    assert (Hngr : n ∉ granted s).
    { destruct (Hl n) as [_ Fg Fr _ _]. rewrite Fg. intros [_ E]. by apply (Fr Hnin). }
    split; simpl; try done.
    + intros g. destruct (decide (g = n)) as [->|Hgn]; [|destruct (decide (g ∈ dead)) as [Hgd|Hgd]].
      * eapply semlocal_woken; [apply Hl|done|done|done|..]; simpl.
        -- by rewrite Hat, decide_True by (apply elem_of_app; right; apply list_elem_of_here).
        -- by rewrite Hq'.
        -- apply list_elem_of_here.
      * eapply semlocal_removed; [apply Hl| |by apply Hd|done|..]; simpl.
        -- rewrite Hns. apply elem_of_app. by left.
        -- by rewrite Hat, decide_True by (apply elem_of_app; by left).
        -- rewrite Hq'. intros Hp. apply (Hdj g Hgd). by apply list_elem_of_further.
        -- rewrite elem_of_cons. tauto.
      * assert (g ∉ dead ++ [n]) as Hgp by (rewrite elem_of_app, list_elem_of_singleton; tauto).
        eapply semlocal_frame; [apply Hl|done|..]; simpl.
        -- by rewrite Hat, decide_False.
        -- rewrite Hq', Hns, elem_of_app, elem_of_cons. tauto.
        -- rewrite elem_of_cons. tauto.
    + by rewrite Hq'.
    + by apply NoDup_cons.
    + intros Hv'. specialize (Hf Hv'). rewrite Hf in Hns. by destruct dead.
    + lia.
Qed.

Lemma seminv_step s lb :
  seminv can_fail v0 s → sem_enabled can_fail s lb = true → 
  ∃ s', sem_step s lb = Some s' ∧ seminv can_fail v0 s'.
Proof.
  intros Hi He. destruct lb as [f timed|f|f|f r|]; simpl in *.
  - destruct (ppcs s f) eqn:Hpc; try done. eexists. split; [done|]. apply seminv_pc; by rewrite ?Hpc.
  - destruct (ppcs s f) eqn:Hpc; try done.
    + by apply seminv_enter.
    + eexists. split; [done|]. apply seminv_pc; by rewrite ?Hpc.
    + apply negb_true_iff in He. by apply seminv_resume.
    + by apply seminv_leave.
  - apply andb_true_iff in He as [Hc He]. destruct (ppcs s f) eqn:Hpc; try done.
    eexists. split; [done|]. apply seminv_pc; [done|by rewrite Hpc|]. by left.
  - destruct (ppcs s f) as [| | |[]|] eqn:Hpc; try done. apply seminv_timeout; [done..|]. destruct r; auto; done.
  - Zbool. by apply seminv_post.
Qed.

Lemma seminv_reach s : reach (sem_next can_fail) (fev_sem_init v0) s → seminv can_fail v0 s.
Proof.
  apply reach_invariant; [apply seminv_init|]. intros s1 lb s2 Hi Hs. unfold sem_next in Hs.
  destruct (sem_enabled can_fail s1 lb) eqn:He; [|done].
  destruct (seminv_step s1 lb Hi He) as (s' & E & ?). by simplify_eq.
Qed.
End invariant.

(** Two fibers wait; one post wakes the first one up, the second one times out. *)
Definition ex_sem_schedule : list semlabel :=
  [PCall 1 false; PStep 1; PCall 2 true; PStep 2; PStep 2; PPost; PTimeout 2 FEV_WAITER_TIMED_OUT_NO_CHECK;
   PStep 1; PStep 2; PStep 2; PPost]%positive.
Definition ex_sem (n : nat) : semstate :=
  default (fev_sem_init 0) (run (sem_next false) (fev_sem_init 0) (take n ex_sem_schedule)).

Lemma ex_sem_reach n : (n < 12)%nat → reach (sem_next false) (fev_sem_init 0) (ex_sem n).
Proof.
  intros Hn. apply (run_reach (sem_next false) (fev_sem_init 0) (fev_sem_init 0) (take n ex_sem_schedule));
    [constructor|].
  unfold ex_sem. do 12 (destruct n as [|n]; [vm_compute; reflexivity|]). lia.
Qed.

(** ** Properties *)

(** C32: The semaphore never loses and never invents a permit when adding a timer
    cannot fail: the value, the finished acquisitions and the waiters that were
    chosen but have not returned yet add up to the initial value plus the
    posts; no fiber is left waiting while the value is positive; and every
    step is defined (no assertion fails), timeouts and retries included. *)
Theorem sem_conserves_permits v0 s :
  reach (sem_next false) (fev_sem_init v0) s →
  value s + Z.of_nat (length (granted s)) + acquired s = v0 + posted s ∧
  (0 < value s → nodes (wq s) = []) ∧
  (∀ lb, sem_enabled false s lb = true → is_Some (sem_step s lb)).
Proof.
  intros Hi%seminv_reach. split; [|split].
  - pose proof (sm_count _ _ _ Hi). rewrite (sm_lost _ _ _ Hi eq_refl) in *. lia.
  - apply (sm_free _ _ _ Hi).
  - intros lb He. destruct (seminv_step _ _ _ _ Hi He) as (s' & -> & _). eauto.
Qed.

Lemma sem_conserves_permits_witness :
  value (ex_sem 7) + Z.of_nat (length (granted (ex_sem 7))) + acquired (ex_sem 7) = 0 + posted (ex_sem 7).
Proof. exact (proj1 (sem_conserves_permits 0 (ex_sem 7) (ex_sem_reach 7 ltac:(lia)))). Defined.

(** When adding a timer can fail, as it can with the binary heap, a post can
    be lost: a fiber in [fev_sem_wait_until] that is woken up after it entered
    the queue and then fails to add its timer returns [-ENOMEM] and drops the
    permit it was given. Afterwards nobody waits, one post was made, nobody
    has acquired the semaphore and its value is still 0. *)
Theorem sem_post_lost_on_enomem :
  ∃ s, reach (sem_next true) (fev_sem_init 0) s ∧ (∀ f, ppcs s f = PIdle) ∧
    posted s = 1 ∧ acquired s = 0 ∧ value s = 0.
Proof.
  set (ls := [PCall 1 true; PStep 1; PPost; PNoMem 1; PStep 1]%positive).
  destruct (run (sem_next true) (fev_sem_init 0) ls) as [s|] eqn:E; [|by vm_compute in E].
  exists s. split; [by apply (run_reach _ _ _ ls s (reach_refl _ _))|].
  vm_compute in E. injection E as <-. split; [|done]. intros f. simpl. by destruct f.
Qed.
