(* ===== verification/Mutex.v ===== *)
(** The fiber mutex: [src/src/fev_mutex_intf.h], [src/src/fev_mutex_impl.h] and
    [src/src/fev_mutex.c], on top of [WaitersQueue].

    [mutex->state] is accessed both inside the critical sections of the waiters
    queue (by the callbacks) and outside (by the fast paths), so the step
    system has one step per atomic access to it, per acquisition or release of
    the queue's internal lock, per list operation and per wake-up. The internal
    lock is the one of [Ilock]: mutual exclusion is what is used of it here.
    [can_fail] is [FEV_TIMERS_ADD_CAN_FAIL]. *)

From S2P Require Import Prelude Waiter WaitersQueue.

Local Open Scope Z_scope.

(** Program counter of a fiber; [timed] tells [fev_mutex_try_lock_for/until] from
    [fev_mutex_lock]. *)
Inductive xpc :=
| XIdle
| XTry (slow : option bool)   (* before the compare-and-swap; what follows a failure *)
| XQueue (timed : bool)       (* [fev_waiters_queue_wait]: before preparing the waiter and locking *)
| XXchg (timed : bool)        (* [fev_mutex_lock_recheck]: before the exchange *)
| XStore1                     (* the exchange gave 0: before storing 1 *)
| XRel                        (* before unlocking the queue and returning 0 *)
| XInsert (timed : bool)      (* before inserting the node *)
| XRelW (timed : bool)        (* before unlocking the queue and waiting *)
| XAdd                        (* [fev_timed_wait]: before adding the timer *)
| XWait (timed : bool)        (* waiting *)
| XLeave (res : Z)            (* not ready: before locking the queue *)
| XRemove (res : Z)           (* before removing the node *)
| XRelL (res : Z)             (* before unlocking the queue and returning [res] *)
| XOwn                        (* the lock function has returned 0 *)
| XUnlock                     (* [fev_mutex_unlock]: before the compare-and-swap *)
| XUQueue                     (* [fev_waiters_queue_wake]: before locking the queue *)
| XUPop                       (* at the head of the loop *)
| XUStore0                    (* [fev_mutex_unlock_callback]: before storing 0 *)
| XUStore1                    (* before storing 1 *)
| XURel.                      (* before unlocking the queue *)

(** A fiber's node has the address of the fiber. *)
Record mxstate := mk_mx {
  mx_state : Z;             (* mutex->state *)
  mx_q : wqueue;            (* mutex->wq *)
  mx_qlock : option loc;    (* the holder of mutex->wq.lock *)
  mx_pcs : loc → xpc;
  mx_own : option loc;      (* ghost: the fiber that is responsible for the mutex *)
}.

Definition mx_pc s f p := mk_mx (mx_state s) (mx_q s) (mx_qlock s) (upd (mx_pcs s) f p) (mx_own s).
Definition mx_set s v := mk_mx v (mx_q s) (mx_qlock s) (mx_pcs s) (mx_own s).
Definition mx_queue s q := mk_mx (mx_state s) q (mx_qlock s) (mx_pcs s) (mx_own s).
Definition mx_lock s o := mk_mx (mx_state s) (mx_q s) o (mx_pcs s) (mx_own s).
Definition mx_resp s o := mk_mx (mx_state s) (mx_q s) (mx_qlock s) (mx_pcs s) o.

(** The waiter's reason of a fiber. *)
Definition mx_reason s (f : loc) : fev_waiter_wake_reason := reason (nwaiter (node_at (mx_q s) f)).

(** [XCall f slow]: an idle fiber calls [fev_mutex_try_lock] ([None]),
    [fev_mutex_lock] or one of the timed functions. [XTimeout f r]: the timer of
    [f] wakes it up. [XNoMem f]: adding the timer of [f] fails. *)
Inductive xlabel :=
| XCall (f : loc) (slow : option bool) | XStep (f : loc)
| XTimeout (f : loc) (r : fev_waiter_wake_reason) | XNoMem (f : loc).

(** [fev_mutex_try_lock] and the fast path of the other lock functions. *)
Definition mx_try (s : mxstate) (f : loc) (slow : option bool) : mxstate :=
  if mx_state s =? 0 then mx_pc (mx_resp (mx_set s 1) (Some f)) f XOwn
  else mx_pc s f (match slow with None => XIdle | Some timed => XQueue timed end).

(** [fev_mutex_lock_recheck]. *)
Definition mx_recheck (s : mxstate) (f : loc) (timed : bool) : mxstate :=
  let state := mx_state s in
  let s := mx_set s 2 in
  if state =? 0 then mx_pc (mx_resp s (Some f)) f XStore1 else mx_pc s f (XInsert timed).

(** The return from the wait. *)
Definition mx_resume (s : mxstate) (f : loc) (timed : bool) : option mxstate :=
  match mx_reason s f with
  | FEV_WAITER_READY => FEV_ASSERT deleted (node_at (mx_q s) f); Some (mx_pc s f XOwn)
  | FEV_WAITER_TIMED_OUT_NO_CHECK => FEV_ASSERT timed; Some (mx_pc s f (XLeave (- ETIMEDOUT)))
  | FEV_WAITER_TIMED_OUT_CHECK => FEV_ASSERT timed; Some (mx_pc s f (XLeave (- EAGAIN)))
  | FEV_WAITER_NONE => None
  end.

(** An iteration of the wake-up loop and the choice [fev_mutex_unlock_callback]
    makes after it; a woken fiber becomes responsible for the mutex. *)
Definition mx_pop (s : mxstate) (f : loc) : option mxstate :=
  r ← wq_wake_iter (mx_q s);
  match r with
  | None => Some (mx_pc s f XUStore0)
  | Some (q, woken, _) =>
      let next := head (nodes (mx_q s)) in
      let s := mx_queue s q in
      if woken : bool
      then Some (mx_pc (mx_resp s next) f (if decide (nodes q = []) then XUStore1 else XURel))
      else Some s
  end.

(** Returning an error from a lock function; a fiber that is responsible for the
    mutex nevertheless forgets it. [fev_mutex_try_lock_until_slow] tries again
    on [-EAGAIN]. *)
Definition mx_return (s : mxstate) (f : loc) (res : Z) : mxstate :=
  let s := mx_resp s (if decide (mx_own s = Some f) then None else mx_own s) in
  mx_pc (mx_lock s None) f (if res =? - EAGAIN then XQueue true else XIdle).

Definition mx_step1 (s : mxstate) (f : loc) : option mxstate :=
  match mx_pcs s f with
  | XIdle => None
  | XTry slow => Some (mx_try s f slow)
  | XQueue timed =>
      let x := node_at (mx_q s) f in
      let q := set_node (mx_q s) f (mk_wnode (prepare_waiter (nwaiter x) f) (deleted x)) in
      Some (mx_pc (mx_lock (mx_queue s q) (Some f)) f (XXchg timed))
  | XXchg timed => Some (mx_recheck s f timed)
  | XStore1 => Some (mx_pc (mx_set s 1) f XRel)
  | XRel => Some (mx_pc (mx_lock s None) f XOwn)
  | XInsert timed => Some (mx_pc (mx_queue s (wq_insert (mx_q s) f)) f (XRelW timed))
  | XRelW timed => Some (mx_pc (mx_lock s None) f (if timed then XAdd else XWait false))
  | XAdd => Some (mx_pc s f (XWait true))
  | XWait timed => mx_resume s f timed
  | XLeave res => Some (mx_pc (mx_lock s (Some f)) f (XRemove res))
  | XRemove res => Some (mx_pc (mx_queue s (wq_remove (mx_q s) f)) f (XRelL res))
  | XRelL res => Some (mx_return s f res)
  | XOwn => Some (mx_pc s f XUnlock)
  | XUnlock =>
      if mx_state s =? 1 then Some (mx_pc (mx_resp (mx_set s 0) None) f XIdle)
      else Some (mx_pc s f XUQueue)
  | XUQueue => Some (mx_pc (mx_lock s (Some f)) f XUPop)
  | XUPop => mx_pop s f
  | XUStore0 => Some (mx_pc (mx_resp (mx_set s 0) None) f XURel)
  | XUStore1 => Some (mx_pc (mx_set s 1) f XURel)
  | XURel => Some (mx_pc (mx_lock s None) f XIdle)
  end.

Definition mx_timeout (s : mxstate) (f : loc) (r : fev_waiter_wake_reason) : option mxstate :=
  '(_, w) ← fev_waiter_wake (nwaiter (node_at (mx_q s) f)) r;
  Some (mx_queue s (set_node (mx_q s) f (mk_wnode w (deleted (node_at (mx_q s) f))))).

Definition mx_enabled (can_fail : bool) (s : mxstate) (lb : xlabel) : bool :=
  match lb with
  | XCall f _ => match mx_pcs s f with XIdle => true | _ => false end
  | XStep f =>
      match mx_pcs s f with
      | XIdle => false
      | XQueue _ | XLeave _ | XUQueue => bool_decide (mx_qlock s = None)
      | XWait _ => negb (live (node_at (mx_q s) f))
      | _ => true
      end
  | XTimeout f r =>
      match mx_pcs s f, r with
      | XWait true, (FEV_WAITER_TIMED_OUT_CHECK | FEV_WAITER_TIMED_OUT_NO_CHECK) => true
      | _, _ => false
      end
  | XNoMem f => can_fail && match mx_pcs s f with XAdd => true | _ => false end
  end.

Definition mx_step (s : mxstate) (lb : xlabel) : option mxstate :=
  match lb with
  | XCall f slow => Some (mx_pc s f (XTry slow))
  | XStep f => mx_step1 s f
  | XTimeout f r => mx_timeout s f r
  | XNoMem f => Some (mx_pc s f (XLeave (- ENOMEM)))
  end.

Definition mx_next (can_fail : bool) (s : mxstate) (lb : xlabel) : option mxstate :=
  if mx_enabled can_fail s lb then mx_step s lb else None.

(** [fev_mutex_init]. *)
Definition fev_mutex_init : mxstate :=
  mk_mx 0 (mk_wqueue [] (λ f, mk_wnode (mk_waiter FEV_WAITER_NONE false FEV_WAITER_NONE false false f) false))
    None (λ _, XIdle) None.

(** ** The invariant *)

(** The node of the fiber may be in the queue. *)
Definition in_queue (p : xpc) : bool :=
  match p with XRelW _ | XAdd | XWait _ | XLeave _ | XRemove _ => true | _ => false end.

Definition has_qlock (p : xpc) : bool :=
  match p with
  | XXchg _ | XStore1 | XRel | XInsert _ | XRelW _ | XRemove _ | XRelL _
  | XUPop | XUStore0 | XUStore1 | XURel => true
  | _ => false
  end.

(** The fiber owns the mutex, is about to release it, or was chosen by an unlock
    and has not noticed yet. *)
Definition owning (p : xpc) (r : fev_waiter_wake_reason) : bool :=
  match p with
  | XStore1 | XRel | XOwn | XUnlock | XUQueue | XUPop | XUStore0 => true
  | XRelW _ | XAdd | XWait _ | XLeave _ | XRemove _ | XRelL _ => bool_decide (r = FEV_WAITER_READY)
  | _ => false
  end.

Definition mx_reason_ok (can_fail : bool) (p : xpc) (r : fev_waiter_wake_reason) : Prop :=
  match p with
  | XXchg _ | XInsert _ => r = FEV_WAITER_NONE
  | XRelW _ | XAdd | XWait false => r = FEV_WAITER_NONE ∨ r = FEV_WAITER_READY
  | XLeave res | XRemove res | XRelL res =>
      (res = - ENOMEM ∧ can_fail = true) ∨
      ((res = - EAGAIN ∨ res = - ETIMEDOUT) ∧ r ≠ FEV_WAITER_NONE ∧ r ≠ FEV_WAITER_READY)
  | _ => True
  end.

(** Points at which the state is known to be 2, and at which the queue is empty. *)
Definition two (p : xpc) : bool := match p with XInsert _ | XUStore1 => true | _ => false end.
Definition no_nodes (p : xpc) : bool :=
  match p with XStore1 | XUStore0 | XUStore1 => true | _ => false end.

Record mxlocal (can_fail : bool) (s : mxstate) (f : loc) : Prop := {
  ml_own : owning (mx_pcs s f) (mx_reason s f) = true ↔ mx_own s = Some f;
  ml_qlock : has_qlock (mx_pcs s f) = true ↔ mx_qlock s = Some f;
  ml_nodes : f ∈ nodes (mx_q s) ↔ in_queue (mx_pcs s f) = true ∧ deleted (node_at (mx_q s) f) = false;
  ml_ready : f ∈ nodes (mx_q s) → mx_reason s f ≠ FEV_WAITER_READY;
  ml_deleted : in_queue (mx_pcs s f) = true → deleted (node_at (mx_q s) f) = true →
               mx_reason s f ≠ FEV_WAITER_NONE;
  ml_reason : mx_reason_ok can_fail (mx_pcs s f) (mx_reason s f);
  ml_two : two (mx_pcs s f) = true → mx_state s = 2;
  ml_empty : no_nodes (mx_pcs s f) = true → nodes (mx_q s) = [];
}.

Record mxinv (can_fail : bool) (s : mxstate) : Prop := {
  mv_local : ∀ f, mxlocal can_fail s f;
  mv_nodup : NoDup (nodes (mx_q s));
  mv_range : 0 <= mx_state s <= 2;
  mv_free : mx_state s = 0 → mx_own s = None;
  mv_lost : can_fail = false → mx_own s = None → mx_state s = 0;
  mv_nodes : nodes (mx_q s) ≠ [] → mx_state s = 2;
}.

Section invariant.
Context (can_fail : bool).
Implicit Types s : mxstate.

Lemma mxinv_init : mxinv can_fail fev_mutex_init.
Proof.
  split; simpl; try done; [|constructor].
  intros f. split; simpl; try done; (split; [by intros ?%not_elem_of_nil|by intros []]).
Qed.

Lemma mxlocal_frame s s' g :
  mxlocal can_fail s g → mx_pcs s' g = mx_pcs s g → node_at (mx_q s') g = node_at (mx_q s) g →
  (mx_own s' = Some g ↔ mx_own s = Some g) → (mx_qlock s' = Some g ↔ mx_qlock s = Some g) →
  (g ∈ nodes (mx_q s') ↔ g ∈ nodes (mx_q s)) →
  (has_qlock (mx_pcs s g) = true →
     (mx_state s = 2 → mx_state s' = 2) ∧ nodes (mx_q s') = nodes (mx_q s)) →
  mxlocal can_fail s' g.
Proof.
  intros [] Ep En Eo Eq Ew Hh. assert (mx_reason s' g = mx_reason s g) as Er by (unfold mx_reason; by rewrite En).
  split; rewrite ?Ep, ?En, ?Eo, ?Eq, ?Ew, ?Er; try done.
  - intros E. apply Hh; [by destruct (mx_pcs s g)|auto].
  - intros E. destruct Hh as [_ ->]; [by destruct (mx_pcs s g)|auto].
Qed.

Lemma qlock_other s f g :
  mxinv can_fail s → mx_qlock s = Some f → f ≠ g → has_qlock (mx_pcs s g) = true → False.
Proof. intros Hi Hq Hne Hg. apply (ml_qlock _ _ _ (mv_local _ _ Hi g)) in Hg. congruence. Qed.

Definition qlock_move s (f : loc) (p : xpc) (o : option loc) : Prop :=
  (o = mx_qlock s ∧ has_qlock p = has_qlock (mx_pcs s f)) ∨
  (mx_qlock s = None ∧ o = Some f ∧ has_qlock p = true) ∨
  (mx_qlock s = Some f ∧ o = None ∧ has_qlock p = false).

Lemma qlock_move_spec s f p o :
  mxlocal can_fail s f → qlock_move s f p o →
  (has_qlock p = true ↔ o = Some f) ∧ ∀ g, f ≠ g → o = Some g ↔ mx_qlock s = Some g.
Proof.
  intros [_ Fq _ _ _ _ _ _] Hm. split.
  - destruct Hm as [[-> ->]|[(_ & -> & ->)|(_ & -> & ->)]]; [done|done|]. split; by intros.
  - intros g Hne. destruct Hm as [[-> _]|[(-> & -> & _)|(-> & -> & _)]]; [done|..]; split; congruence.
Qed.

(** Steps that change the program counter and the queue's lock only. *)
Lemma mxinv_move s f p o :
  mxinv can_fail s → qlock_move s f p o →
  owning p (mx_reason s f) = owning (mx_pcs s f) (mx_reason s f) →
  (in_queue p = in_queue (mx_pcs s f) ∨ (f ∉ nodes (mx_q s) ∧ in_queue p = false)) →
  mx_reason_ok can_fail p (mx_reason s f) → two p = false → no_nodes p = false ∨ nodes (mx_q s) = [] →
  mxinv can_fail (mx_pc (mx_lock s o) f p).
Proof.
  intros Hi Hm Ho Hin Hr Ht He. pose proof Hi as [Hl Hnd Hrg Hfr Hlo Hno].
  destruct (qlock_move_spec s f p o (Hl f) Hm) as [Hq Hqg].
  split; simpl; try done. intros g. destruct (decide (f = g)) as [<-|Hne].
  - destruct (Hl f) as [Fo Fq Fn Fr Fd Fk Ft Fe].
    split; unfold mx_reason in *; simpl; rewrite ?upd_eq; try done.
    + by rewrite Ho.
    + destruct Hin as [->|[Hnf ->]]; [done|]. split; [done|by intros []].
    + destruct Hin as [->|[Hnf ->]]; [done|]. done.
    + by rewrite Ht.
    + destruct He as [->|]; done.
  - eapply mxlocal_frame; [apply Hl|by apply upd_ne|done|done|by apply Hqg|done|done].
Qed.

Lemma mx_same_lock s f p : mx_pc s f p = mx_pc (mx_lock s (mx_qlock s)) f p.
Proof. by destruct s. Qed.

(** Acquiring a free mutex: by the fast path, or in the recheck. *)
Lemma mxinv_acquire s f p v :
  mxinv can_fail s → mx_state s = 0 → in_queue (mx_pcs s f) = false → in_queue p = false →
  has_qlock p = has_qlock (mx_pcs s f) → owning p (mx_reason s f) = true → two p = false →
  mx_reason_ok can_fail p (mx_reason s f) → v = 1 ∨ v = 2 →
  mxinv can_fail (mx_pc (mx_resp (mx_set s v) (Some f)) f p).
Proof.
  intros [Hl Hnd Hrg Hfr Hlo Hno] H0 Hi1 Hi2 Hq Ho Ht Hr Hv.
  assert (Hw0 : nodes (mx_q s) = []) by (destruct (nodes (mx_q s)) eqn:E; [done|by rewrite Hno in H0]).
  split; simpl; try done; try (destruct Hv; lia).
  intros g. destruct (decide (f = g)) as [<-|Hne].
  - destruct (Hl f) as [Fo Fq Fn Fr Fd Fk Ft Fe].
    split; unfold mx_reason in *; simpl; rewrite ?upd_eq, ?Hi2; try done.
    + by rewrite Hq.
    + rewrite Fn, Hi1. split; by intros [].
    + by rewrite Ht.
  - destruct (Hl g) as [Go _ _ _ _ _ Gt _].
    eapply mxlocal_frame; [apply Hl|by apply upd_ne|done| |done|done|]; simpl.
    + rewrite (Hfr H0). split; congruence.
    + intros _. split; [intros; lia|done].
Qed.

(** The fields of the invariant that speak about [f] in a step of [f] that
    holds the queue's lock before and after it. *)
Lemma mxinv_locked s s' f :
  mxinv can_fail s → mx_qlock s = Some f → mx_qlock s' = Some f → mxlocal can_fail s' f →
  (∀ g, f ≠ g → mx_pcs s' g = mx_pcs s g ∧ node_at (mx_q s') g = node_at (mx_q s) g ∧
     (mx_own s' = Some g ↔ mx_own s = Some g) ∧ (g ∈ nodes (mx_q s') ↔ g ∈ nodes (mx_q s))) →
  ∀ g, mxlocal can_fail s' g.
Proof.
  intros Hi Hq Hq' Hf Hg g. destruct (decide (f = g)) as [<-|Hne]; [done|].
  destruct (Hg g Hne) as (Ep & En & Eo & Ew).
  eapply mxlocal_frame; [apply (mv_local _ _ Hi)|done..| |done|].
  - rewrite Hq, Hq'. done.
  - intros Hh. destruct (qlock_other s f g Hi Hq Hne Hh).
Qed.

Lemma mxinv_contend s f timed :
  mxinv can_fail s → mx_pcs s f = XXchg timed → mx_state s ≠ 0 →
  mxinv can_fail (mx_pc (mx_set s 2) f (XInsert timed)).
Proof.
  intros Hi Hpc H0. pose proof Hi as [Hl Hnd Hrg Hfr Hlo Hno].
  destruct (Hl f) as [Fo Fq Fn Fr Fd Fk Ft Fe]. rewrite Hpc in *. simpl in *.
  assert (Hq : mx_qlock s = Some f) by by apply Fq.
  split; simpl; try done; try lia.
  - apply (mxinv_locked s _ f Hi Hq); [exact Hq|..].
    + split; unfold mx_reason in *; simpl; rewrite ?upd_eq; done.
    + intros g Hne. simpl. by rewrite upd_ne.
  - intros Hc E. by destruct H0; apply Hlo.
Qed.

(** Storing 1: after a late acquisition, or when the last waiter was woken up. *)
Lemma mxinv_store1 s f p :
  mxinv can_fail s → (mx_pcs s f = XStore1 ∧ p = XRel ∨ mx_pcs s f = XUStore1 ∧ p = XURel) →
  mxinv can_fail (mx_pc (mx_set s 1) f p).
Proof.
  intros Hi Hcase. pose proof Hi as [Hl Hnd Hrg Hfr Hlo Hno].
  destruct (Hl f) as [Fo Fq Fn Fr Fd Fk Ft Fe].
  assert (Hq : mx_qlock s = Some f) by (apply Fq; by destruct Hcase as [[-> _]|[-> _]]).
  assert (Hw0 : nodes (mx_q s) = []) by (apply Fe; by destruct Hcase as [[-> _]|[-> _]]).
  assert (H0 : can_fail = false → mx_own s ≠ None).
  { intros Hc E. destruct Hcase as [[E1 _]|[E1 _]]; rewrite E1 in *; simpl in *.
    - rewrite (proj1 Fo eq_refl) in E. done.
    - specialize (Ft eq_refl). rewrite (Hlo Hc E) in Ft. done. }
  split; simpl; try done; try lia.
  - apply (mxinv_locked s _ f Hi Hq); [exact Hq|..].
    + destruct Hcase as [[E1 ->]|[E1 ->]]; rewrite E1 in *; simpl in *;
        split; unfold mx_reason in *; simpl; rewrite ?upd_eq; done.
    + intros g Hne. simpl. by rewrite upd_ne.
  - intros Hc E. by destruct (H0 Hc).
Qed.

(** Releasing the mutex: by the fast path, or when nobody could be woken up. *)
Lemma mxinv_release s f p :
  mxinv can_fail s → nodes (mx_q s) = [] →
  (mx_pcs s f = XUnlock ∧ p = XIdle ∧ mx_state s = 1 ∨ mx_pcs s f = XUStore0 ∧ p = XURel) →
  mxinv can_fail (mx_pc (mx_resp (mx_set s 0) None) f p).
Proof.
  intros Hi Hw0 Hcase. pose proof Hi as [Hl Hnd Hrg Hfr Hlo Hno].
  destruct (Hl f) as [Fo Fq Fn Fr Fd Fk Ft Fe].
  assert (Ho : mx_own s = Some f) by (apply Fo; by destruct Hcase as [[-> _]|[-> _]]).
  split; simpl; try done; try lia.
  intros g. destruct (decide (f = g)) as [<-|Hne].
  - destruct Hcase as [(E1 & -> & _)|[E1 ->]]; rewrite E1 in *; simpl in *;
      split; unfold mx_reason in *; simpl; rewrite ?upd_eq; simpl; try done.
  - destruct (Hl g) as [Go Gq _ _ _ _ Gt _].
    eapply mxlocal_frame; [apply Hl|by apply upd_ne|done| |done|done|]; simpl.
    + rewrite Ho. split; congruence.
    + intros Hg. split; [|done]. intros E. exfalso. destruct Hcase as [(_ & _ & ?)|[E1 _]]; [lia|].
      apply Gq in Hg. rewrite E1 in Fq. rewrite (proj1 Fq eq_refl) in Hg. congruence.
Qed.

(** Taking the queue's lock with a prepared waiter. *)
Lemma mxinv_prepare s f timed x :
  mxinv can_fail s → mx_pcs s f = XQueue timed → mx_qlock s = None → reason (nwaiter x) = FEV_WAITER_NONE →
  mxinv can_fail (mx_pc (mx_lock (mx_queue s (set_node (mx_q s) f x)) (Some f)) f (XXchg timed)).
Proof.
  intros Hi Hpc Hq Hx. pose proof Hi as [Hl Hnd Hrg Hfr Hlo Hno].
  destruct (Hl f) as [Fo Fq Fn Fr Fd Fk Ft Fe]. rewrite Hpc in *. simpl in *.
  split; simpl; try done. intros g. destruct (decide (f = g)) as [<-|Hne].
  - split; unfold mx_reason in *; simpl; rewrite ?upd_eq; simpl; try done.
    + rewrite Fn. split; by intros [].
    + intros ?. assert (f ∈ nodes (mx_q s)) as [? _]%Fn by done. done.
  - eapply mxlocal_frame; [apply Hl|by apply upd_ne|by apply upd_ne|done| |done|done].
    simpl. rewrite Hq. split; congruence.
Qed.

Lemma mxinv_insert s f timed :
  mxinv can_fail s → mx_pcs s f = XInsert timed →
  mxinv can_fail (mx_pc (mx_queue s (wq_insert (mx_q s) f)) f (XRelW timed)).
Proof.
  intros Hi Hpc. pose proof Hi as [Hl Hnd Hrg Hfr Hlo Hno].
  destruct (Hl f) as [Fo Fq Fn Fr Fd Fk Ft Fe]. rewrite Hpc in *. simpl in *.
  assert (Hq : mx_qlock s = Some f) by by apply Fq.
  assert (Hnf : f ∉ nodes (mx_q s)) by (rewrite Fn; by intros []).
  split; simpl; try done.
  - apply (mxinv_locked s _ f Hi Hq); [exact Hq|..].
    + split; unfold mx_reason in *; simpl; rewrite ?upd_eq; simpl; try done; rewrite ?Fk; try done.
      * by rewrite elem_of_app, list_elem_of_singleton; split; auto.
      * by left.
    + intros g Hne. simpl. rewrite !upd_ne by done. repeat (split; [done|]).
      rewrite elem_of_app, list_elem_of_singleton. split; [intros [?|?]; [done|congruence]|auto].
  - by apply NoDup_snoc.
  - intros _. auto.
Qed.

Lemma mxinv_remove s f res :
  mxinv can_fail s → mx_pcs s f = XRemove res →
  mxinv can_fail (mx_pc (mx_queue s (wq_remove (mx_q s) f)) f (XRelL res)).
Proof.
  intros Hi Hpc. pose proof Hi as [Hl Hnd Hrg Hfr Hlo Hno].
  destruct (Hl f) as [Fo Fq Fn Fr Fd Fk Ft Fe]. rewrite Hpc in *. simpl in *.
  assert (Hq : mx_qlock s = Some f) by by apply Fq.
  assert (Hin : ∀ g, g ∈ nodes (wq_remove (mx_q s) f) ↔ g ≠ f ∧ g ∈ nodes (mx_q s)).
  { intros g. unfold wq_remove. destruct (deleted (node_at (mx_q s) f)) eqn:Ed; simpl.
    - split; [|by intros []]. intros Hin. split; [|done]. intros ->. apply Fn in Hin as [_ ?]. congruence.
    - rewrite tailq_remove_elem. tauto. }
  assert (Hat : node_at (wq_remove (mx_q s) f) = node_at (mx_q s)) by (unfold wq_remove; by destruct (negb _)).
  split; simpl; try done.
  - apply (mxinv_locked s _ f Hi Hq); [exact Hq|..].
    + split; unfold mx_reason in *; simpl; rewrite ?upd_eq, ?Hat; simpl; try done.
      * rewrite Hin. split; by intros [].
      * rewrite Hin. by intros [].
    + intros g Hne. simpl. rewrite upd_ne, Hat, Hin by done. repeat (split; [done|]).
      split; [by intros []|auto].
  - unfold wq_remove. destruct (negb _); [by apply tailq_remove_NoDup|done].
  - intros Hne. apply Hno. intros E. apply Hne. apply elem_of_nil_inv. intros g. rewrite Hin, E.
    by intros [_ ?%not_elem_of_nil].
Qed.

(** Returning an error. *)
Lemma mxinv_return s f res :
  mxinv can_fail s → mx_pcs s f = XRelL res → mxinv can_fail (mx_return s f res).
Proof.
  intros Hi Hpc. pose proof Hi as [Hl Hnd Hrg Hfr Hlo Hno].
  destruct (Hl f) as [Fo Fq Fn Fr Fd Fk Ft Fe]. rewrite Hpc in *. simpl in *.
  assert (Hq : mx_qlock s = Some f) by by apply Fq.
  assert (Hnf : f ∉ nodes (mx_q s)) by (rewrite Fn; by intros []).
  set (p := if res =? - EAGAIN then XQueue true else XIdle).
  assert (P : ∀ r, owning p r = false ∧ has_qlock p = false ∧ in_queue p = false ∧ two p = false ∧
                   no_nodes p = false ∧ mx_reason_ok can_fail p r) by (intros r; unfold p; by case_match).
  set (o := if decide (mx_own s = Some f) then None else mx_own s).
  assert (Ho : ∀ g, o = Some g ↔ f ≠ g ∧ mx_own s = Some g).
  { intros g. unfold o. destruct (decide (mx_own s = Some f)) as [E|E]; [rewrite E|]; split; [done|intros []; congruence| |by intros []].
    intros ?. split; [congruence|done]. }
  unfold mx_return. fold p o. split; simpl; try done.
  - intros g. destruct (decide (f = g)) as [<-|Hne].
    + destruct (P (mx_reason s f)) as (P1 & P2 & P3 & P4 & P5 & P6).
      split; unfold mx_reason in *; simpl; rewrite ?upd_eq, ?P1, ?P2, ?P3, ?P4, ?P5; try done.
      * rewrite Ho. split; [done|by intros []].
    + eapply mxlocal_frame; [apply Hl|by apply upd_ne|done|simpl|simpl|done|done].
      * rewrite Ho. split; [by intros []|done].
      * rewrite Hq. split; congruence.
  - intros E. unfold o. rewrite (Hfr E). by destruct (decide _).
  - intros Hc. unfold o. destruct (decide (mx_own s = Some f)) as [E|E]; [|auto]. intros _. exfalso. apply Fo in E.
    apply bool_decide_eq_true in E. rewrite E in Fk. destruct Fk as [[_ ?]|[_ [_ ?]]]; [congruence|done].
Qed.

Lemma mxinv_timeout s f r :
  mxinv can_fail s → mx_pcs s f = XWait true →
  r = FEV_WAITER_TIMED_OUT_CHECK ∨ r = FEV_WAITER_TIMED_OUT_NO_CHECK →
  ∃ s', mx_timeout s f r = Some s' ∧ mxinv can_fail s'.
Proof.
  intros [Hl Hnd Hrg Hfr Hlo Hno] Hpc Hr. destruct (Hl f) as [Fo Fq Fn Fr Fd Fk Ft Fe].
  rewrite Hpc in *. simpl in *.
  unfold mx_timeout. set (w := nwaiter (node_at (mx_q s) f)).
  assert (∃ res w', fev_waiter_wake w r = Some (res, w') ∧
    reason w' = if decide (reason w = FEV_WAITER_NONE) then r else reason w) as (res & w' & -> & Hw').
  { unfold fev_waiter_wake. rewrite bool_decide_true by (destruct Hr as [->| ->]; done).
    destruct (decide (reason w = FEV_WAITER_NONE)); [|eauto]. simpl. destruct (do_wake w); eauto. }
  cbn [mbind option_bind]. eexists. split; [done|]. split; simpl; try done.
  intros g. destruct (decide (f = g)) as [<-|Hne].
  - unfold mx_reason in *. fold w in Fo, Fr, Fd, Fk.
    split; unfold mx_reason; simpl; rewrite ?upd_eq, ?Hpc; simpl; try done; rewrite Hw'.
    + rewrite <- Fo. destruct (decide (reason w = FEV_WAITER_NONE)) as [E|]; [|done]. rewrite E.
      destruct Hr as [->| ->]; done.
    + destruct (decide (reason w = FEV_WAITER_NONE)); [by destruct Hr as [->| ->]|auto].
    + destruct (decide (reason w = FEV_WAITER_NONE)); [by destruct Hr as [->| ->]|auto].
  - eapply mxlocal_frame; [apply Hl|done|by apply upd_ne|done..].
Qed.

(** What the loop does to the node it removes. *)
Lemma mxlocal_removed s s' n :
  mxlocal can_fail s n → n ∈ nodes (mx_q s) → mx_pcs s' n = mx_pcs s n →
  node_at (mx_q s') n = removed_node (node_at (mx_q s) n) → n ∉ nodes (mx_q s') →
  (mx_qlock s' = Some n ↔ mx_qlock s = Some n) → has_qlock (mx_pcs s n) = false →
  (mx_own s' = Some n ↔ live (node_at (mx_q s) n) = true ∨ mx_own s = Some n) → mxlocal can_fail s' n.
Proof.
  intros [Fo Fq Fn Fr Fd Fk Ft Fe] Hin Ep En Hn' Eq Hq Eo. pose proof (proj1 Fn Hin) as [Hw Hdel].
  assert (mx_reason s' n = if live (node_at (mx_q s) n) then FEV_WAITER_READY else mx_reason s n) as Er.
  { unfold mx_reason. rewrite En, removed_node_reason. done. }
  assert (Htw : two (mx_pcs s n) = false ∧ no_nodes (mx_pcs s n) = false) by by destruct (mx_pcs s n).
  destruct Htw as [Htw Hnn].
  split; rewrite ?Ep, ?Er, ?Eo, ?Eq, ?Htw, ?Hnn; try done.
  - rewrite <- Fo. destruct (live (node_at (mx_q s) n)) eqn:El.
    + split; [by left|]. intros _. destruct (mx_pcs s n); try done; simpl in *; by apply bool_decide_eq_true.
    + split; [by right|]. by intros [|].
  - rewrite En. split; [done|]. by intros [_ ?].
  - intros _ _. destruct (live (node_at (mx_q s) n)) eqn:El; [done|by apply live_reason].
  - destruct (live (node_at (mx_q s) n)) eqn:El; [|done]. apply bool_decide_eq_true in El.
    fold (mx_reason s n) in El. rewrite El in Fk.
    destruct (mx_pcs s n) as [|?|?|?| | |?|?| |[]|?|?|?| | | | | | |]; simpl in *; auto; try done;
      (destruct Fk as [?|[_ [? _]]]; [by left|done]).
Qed.

Lemma mxinv_pop s f :
  mxinv can_fail s → mx_pcs s f = XUPop → ∃ s', mx_pop s f = Some s' ∧ mxinv can_fail s'.
Proof.
  intros Hi Hpc. pose proof Hi as [Hl Hnd Hrg Hfr Hlo Hno].
  destruct (Hl f) as [Fo Fq Fn Fr Fd Fk Ft Fe]. rewrite Hpc in *. simpl in *.
  assert (Hq : mx_qlock s = Some f) by by apply Fq. assert (Ho : mx_own s = Some f) by by apply Fo.
  assert (Hnf : f ∉ nodes (mx_q s)) by (rewrite Fn; by intros []).
  unfold mx_pop. destruct (nodes (mx_q s)) as [|n rest] eqn:Hns.
  { unfold wq_wake_iter. rewrite Hns. simpl. eexists. split; [done|]. rewrite mx_same_lock.
    apply mxinv_move; rewrite ?Hpc; try done; [left; by rewrite Hpc|by left|by right]. }
  rewrite (wq_wake_iter_cons _ n rest Hns). cbn [mbind option_bind head].
  apply NoDup_cons in Hnd as [Hnr Hnd]. assert (f ≠ n) as Hfn.
  { intros ->. apply Hnf. apply list_elem_of_here. }
  assert (Hnl : has_qlock (mx_pcs s n) = false).
  { destruct (has_qlock (mx_pcs s n)) eqn:E; [|done]. destruct (qlock_other s f n Hi Hq Hfn E). }
  assert (H2 : mx_state s = 2) by by apply Hno.
  assert (Hnq : mx_qlock s = Some n ↔ mx_qlock s = Some n) by done.
  assert (Hother : ∀ g, f ≠ g → n ≠ g → g ∈ rest ↔ g ∈ nodes (mx_q s)).
  { intros g _ Hng. rewrite Hns, elem_of_cons. split; [auto|]. intros [?|?]; [congruence|done]. }
  assert (Hnown : mx_own s = Some n ↔ False) by (rewrite Ho; split; [congruence|done]).
  destruct (live (node_at (mx_q s) n)) eqn:El; eexists; (split; [done|]); split; simpl; try done.
  - intros g. destruct (decide (f = g)) as [<-|Hne]; [|destruct (decide (n = g)) as [<-|Hng]].
    + set (p := if decide (rest = []) then XUStore1 else XURel).
      assert (P : has_qlock p = true ∧ in_queue p = false ∧ ∀ r, owning p r = false ∧ mx_reason_ok can_fail p r)
        by (unfold p; by case_decide). destruct P as (P1 & P2 & P3).
      split; unfold mx_reason; simpl; rewrite ?upd_eq, ?P1, ?P2; try done.
      * rewrite (proj1 (P3 _)). split; [done|congruence].
      * split; [|by intros []]. intros Hin. exfalso. apply Hnf. by apply list_elem_of_further.
      * intros Hin. exfalso. apply Hnf. by apply list_elem_of_further.
      * apply P3.
      * unfold p. by case_decide.
    + eapply mxlocal_removed; [apply Hl|rewrite Hns; apply list_elem_of_here|by apply upd_ne|apply upd_eq|done|done|done|].
      simpl. rewrite El. split; [by left|done].
    + eapply mxlocal_frame; [apply Hl|by apply upd_ne|by apply upd_ne|simpl|done|by apply Hother|].
      * rewrite Ho. split; congruence.
      * intros Hg. destruct (qlock_other s f g Hi Hq Hne Hg).
  - intros E. congruence.
  - intros g. destruct (decide (f = g)) as [<-|Hne]; [|destruct (decide (n = g)) as [<-|Hng]].
    + split; unfold mx_reason; simpl; rewrite ?Hpc, ?upd_ne by done; try done.
      * split; [|by intros []]. intros Hin. exfalso. apply Hnf. by apply list_elem_of_further.
      * intros Hin. exfalso. apply Hnf. by apply list_elem_of_further.
    + eapply mxlocal_removed; [apply Hl|rewrite Hns; apply list_elem_of_here|done|apply upd_eq|done|done|done|].
      simpl. rewrite El. split; [by right|by intros [|]].
    + eapply mxlocal_frame; [apply Hl|done|by apply upd_ne|done|done|by apply Hother|].
      intros Hg. destruct (qlock_other s f g Hi Hq Hne Hg).
Qed.

(** The steps that are covered by [mxinv_move]: [xlock] when the step takes or
    releases the queue's lock, [xmove] when it does not. *)
Ltac xlock Hpc :=
  eexists; split; [reflexivity|]; apply mxinv_move; unfold qlock_move;
    rewrite ?Hpc; simpl; try done; try tauto.
Ltac xmove Hpc :=
  eexists; split; [reflexivity|]; rewrite mx_same_lock; apply mxinv_move; unfold qlock_move;
    rewrite ?Hpc; simpl; try done; try tauto.

Lemma mxinv_resume s f timed :
  mxinv can_fail s → mx_pcs s f = XWait timed → live (node_at (mx_q s) f) = false →
  ∃ s', mx_resume s f timed = Some s' ∧ mxinv can_fail s'.
Proof.
  intros Hi Hpc Hlive. pose proof Hi as [Hl Hnd Hrg Hfr Hlo Hno].
  destruct (Hl f) as [Fo Fq Fn Fr Fd Fk Ft Fe]. rewrite Hpc in *. simpl in *.
  apply live_reason in Hlive. fold (mx_reason s f) in Hlive.
  unfold mx_resume. destruct (mx_reason s f) eqn:Er; [done|..].
  - assert (Hfn : f ∉ nodes (mx_q s)) by (intros ?; by apply Fr).
    assert (deleted (node_at (mx_q s) f) = true) as Hd.
    { destruct (deleted _) eqn:E; [done|]. exfalso. apply Hfn. by apply Fn. }
    rewrite Hd. xmove Hpc. by rewrite Er.
  - destruct timed; [|by destruct Fk]. xmove Hpc. right. rewrite Er. auto.
  - destruct timed; [|by destruct Fk]. xmove Hpc. right. rewrite Er. auto.
Qed.

Lemma mxinv_step1 s f :
  mxinv can_fail s → mx_enabled can_fail s (XStep f) = true →
  ∃ s', mx_step1 s f = Some s' ∧ mxinv can_fail s'.
Proof.
  intros Hi He. pose proof (mv_local _ _ Hi f) as [Fo Fq Fn Fr Fd Fk Ft Fe].
  assert (Hempty : mx_state s = 1 → nodes (mx_q s) = []).
  { intros E. pose proof (mv_nodes _ _ Hi) as Hno. destruct (nodes (mx_q s)); [done|]. rewrite Hno in E; done. }
  simpl in He. unfold mx_step1.
  destruct (mx_pcs s f) eqn:Hpc; simpl in *; try done; try apply bool_decide_eq_true in He.
  - unfold mx_try. destruct (Z.eqb_spec (mx_state s) 0).
    + eexists. split; [done|]. apply mxinv_acquire; rewrite ?Hpc; try done; auto.
    + destruct slow; xmove Hpc.
  - eexists. split; [done|]. by apply mxinv_prepare.
  - unfold mx_recheck. destruct (Z.eqb_spec (mx_state s) 0); eexists; (split; [done|]).
    + apply mxinv_acquire; rewrite ?Hpc; try done; auto.
    + by apply mxinv_contend.
  - eexists. split; [done|]. apply mxinv_store1; auto.
  - xlock Hpc.
  - eexists. split; [done|]. by apply mxinv_insert.
  - destruct timed; xlock Hpc.
  - xmove Hpc.
  - apply negb_true_iff in He. by apply mxinv_resume.
  - xlock Hpc.
  - eexists. split; [done|]. by apply mxinv_remove.
  - eexists. split; [done|]. by apply mxinv_return.
  - xmove Hpc.
  - destruct (Z.eqb_spec (mx_state s) 1); [|xmove Hpc].
    eexists. split; [done|]. apply mxinv_release; auto.
  - xlock Hpc.
  - by apply mxinv_pop.
  - eexists. split; [done|]. apply mxinv_release; auto.
  - eexists. split; [done|]. apply mxinv_store1; auto.
  - xlock Hpc.
Qed.

Lemma mxinv_step s lb :
  mxinv can_fail s → mx_enabled can_fail s lb = true →
  ∃ s', mx_step s lb = Some s' ∧ mxinv can_fail s'.
Proof.
  intros Hi He. destruct lb as [f slow|f|f r|f]; cbn [mx_step].
  - simpl in He. destruct (mx_pcs s f) eqn:Hpc; try done. xmove Hpc.
  - by apply mxinv_step1.
  - simpl in He. destruct (mx_pcs s f) as [|?|?|?| | |?|?| |[]|?|?|?| | | | | | |] eqn:Hpc; try done.
    apply mxinv_timeout; [done..|]. destruct r; auto; done.
  - simpl in He. apply andb_true_iff in He as [Hc He]. destruct (mx_pcs s f) eqn:Hpc; try done. xmove Hpc.
Qed.

Lemma mxinv_reach s : reach (mx_next can_fail) fev_mutex_init s → mxinv can_fail s.
Proof.
  apply reach_invariant; [apply mxinv_init|]. intros s1 lb s2 Hi Hs. unfold mx_next in Hs.
  destruct (mx_enabled can_fail s1 lb) eqn:He; [|done].
  destruct (mxinv_step s1 lb Hi He) as (s' & E & ?). by simplify_eq.
Qed.
End invariant.

(** Fiber 1 owns the mutex, fiber 2 waits with a timeout and gives up, fiber 3
    waits, fiber 1 unlocks: fiber 3 becomes responsible. *)
Definition ex_mx_schedule : list xlabel :=
  [XCall 1 None; XStep 1; XCall 2 (Some true)]%positive ++ replicate 6 (XStep 2%positive) ++
  [XCall 3%positive (Some false)] ++ replicate 5 (XStep 3%positive) ++
  [XTimeout 2%positive FEV_WAITER_TIMED_OUT_NO_CHECK] ++ replicate 5 (XStep 1%positive).
Definition ex_mx (n : nat) : mxstate :=
  default fev_mutex_init (run (mx_next false) fev_mutex_init (take n ex_mx_schedule)).

Lemma ex_mx_reach n : (n < 22)%nat → reach (mx_next false) fev_mutex_init (ex_mx n).
Proof.
  intros Hn. apply (run_reach (mx_next false) fev_mutex_init fev_mutex_init (take n ex_mx_schedule));
    [constructor|].
  unfold ex_mx. do 22 (destruct n as [|n]; [vm_compute; reflexivity|]). lia.
Qed.

(** ** Properties *)

(** C21: Mutual exclusion of the fiber mutex: at most one fiber is between a
    successful return of a lock function and its call of [fev_mutex_unlock], for
    any interleaving of the fast and slow paths, timeouts, retries and failed
    timer allocations; and no assertion fails on the way. *)
Theorem mutex_mutual_exclusion can_fail s :
  reach (mx_next can_fail) fev_mutex_init s →
  (∀ f g, mx_pcs s f = XOwn → mx_pcs s g = XOwn → f = g) ∧
  (∀ lb, mx_enabled can_fail s lb = true → is_Some (mx_step s lb)).
Proof.
  intros Hi%mxinv_reach. split.
  - intros f g Hf Hg. pose proof (ml_own _ _ _ (mv_local _ _ Hi f)) as Fo.
    pose proof (ml_own _ _ _ (mv_local _ _ Hi g)) as Go. rewrite Hf in Fo. rewrite Hg in Go. simpl in *.
    destruct Fo as [Fo _], Go as [Go _]. rewrite Fo in Go by done. by injection (Go eq_refl).
  - intros lb He. destruct (mxinv_step _ _ _ Hi He) as (s' & -> & _). eauto.
Qed.

Lemma mutex_mutual_exclusion_witness :
  mx_enabled false (ex_mx 19) (XStep 1%positive) = true ∧ is_Some (mx_step (ex_mx 19) (XStep 1%positive)).
Proof.
  assert (E : mx_enabled false (ex_mx 19) (XStep 1%positive) = true) by (vm_compute; reflexivity).
  split; [exact E|]. exact (proj2 (mutex_mutual_exclusion false (ex_mx 19) (ex_mx_reach 19 ltac:(lia))) _ E).
Defined.

(** C22: When adding a timer cannot fail, the mutex is never left locked without
    an owner and no waiter is forgotten: if the state is not 0 some fiber owns
    the mutex, is about to release it or has been chosen as the next owner; and
    while a node is in the queue the state is 2, so that the owner's unlock
    takes the slow path. *)
Theorem mutex_never_abandoned s f :
  reach (mx_next false) fev_mutex_init s → mx_state s ≠ 0 ∨ f ∈ nodes (mx_q s) →
  (f ∈ nodes (mx_q s) → mx_state s = 2) ∧
  ∃ g, owning (mx_pcs s g) (mx_reason s g) = true.
Proof.
  intros Hi%mxinv_reach Hc.
  assert (H2 : f ∈ nodes (mx_q s) → mx_state s = 2).
  { intros Hin. apply (mv_nodes _ _ Hi). intros E. rewrite E in Hin. by apply not_elem_of_nil in Hin. }
  split; [done|]. destruct (mx_own s) as [g|] eqn:Ho.
  - exists g. by apply (ml_own _ _ _ (mv_local _ _ Hi g)).
  - pose proof (mv_lost _ _ Hi eq_refl Ho). destruct Hc as [?|Hin]; [done|]. specialize (H2 Hin). lia.
Qed.

Lemma mutex_never_abandoned_witness :
  nodes (mx_q (ex_mx 16)) = [2; 3]%positive ∧
  ∃ g, owning (mx_pcs (ex_mx 16) g) (mx_reason (ex_mx 16) g) = true.
Proof.
  assert (E : nodes (mx_q (ex_mx 16)) = [2; 3]%positive) by (vm_compute; reflexivity).
  split; [exact E|].
  assert (I : 3%positive ∈ nodes (mx_q (ex_mx 16))).
  { rewrite E. apply (bool_decide_eq_true_1 _). reflexivity. }
  exact (proj2 (mutex_never_abandoned (ex_mx 16) 3%positive (ex_mx_reach 16 ltac:(lia)) (or_intror I))).
Defined.

(** When adding a timer can fail, as it can with the binary heap, the mutex
    can be left locked for ever: a fiber in [fev_mutex_try_lock_until] that an
    unlock chooses as the next owner after it entered the queue, and that then
    fails to add its timer, returns [-ENOMEM] although the mutex was handed to
    it. Afterwards every fiber is idle, nobody owns the mutex, and its state is
    1 (locked). *)
Theorem mutex_abandoned_on_enomem :
  ∃ s, reach (mx_next true) fev_mutex_init s ∧ (∀ f, mx_pcs s f = XIdle) ∧
    mx_own s = None ∧ mx_state s = 1.
Proof.
  set (ls := [XCall 1 None; XStep 1; XCall 2 (Some true)]%positive ++ replicate 5 (XStep 2%positive) ++
             replicate 6 (XStep 1%positive) ++ [XNoMem 2%positive] ++ replicate 3 (XStep 2%positive)).
  destruct (run (mx_next true) fev_mutex_init ls) as [s|] eqn:E; [|by vm_compute in E].
  exists s. split; [by apply (run_reach _ _ _ ls s (reach_refl _ _))|].
  vm_compute in E. injection E as <-. split; [|done]. intros f. simpl.
  repeat (destruct f as [f|f|]; try done).
Qed.
