(* ===== verification/Cond.v ===== *)
(** The condition variable: [src/src/fev_cond_intf.h], [src/src/fev_cond_impl.h]
    and [src/src/fev_cond.c].

    A condition variable is a waiters queue. The mutex is represented by
    whether the calling fiber holds it; [fev_mutex_unlock], [fev_mutex_lock] and
    [fev_mutex_try_lock_until] are used with the contract proved in [Mutex]:
    the last one returns 0 exactly when the mutex has been acquired. *)

From S2P Require Import Prelude Time Waiter WaitersQueue.

Local Open Scope Z_scope.

(** [fev_cond_init]: an empty queue. *)
Definition fev_cond_init (at_ : loc → wnode) : wqueue := mk_wqueue [] at_.

Definition fev_cond_notify_one (cond : wqueue) : option (wqueue * list loc) :=
  '(q, _, fibers) ← fev_waiters_queue_wake (C := unit) None 1 cond tt; Some (q, fibers).

Definition fev_cond_notify_all (cond : wqueue) : option (wqueue * list loc) :=
  '(q, _, fibers) ← fev_waiters_queue_wake (C := unit) None UINT32_MAX cond tt; Some (q, fibers).

(** [held]: does the fiber hold the mutex? Unlocking it requires that. *)
Definition fev_cond_wait_recheck (held : bool) : option (bool * bool) :=
  FEV_ASSERT held; Some (false, true).

(** [env cond] is what the other threads do to the queue while the fiber waits,
    with the result of the wait; [relock] is the result of
    [fev_mutex_try_lock_until]. The result is the return value, the queue and
    whether the fiber holds the mutex. *)
Definition fev_cond_wait_until (env : wqueue → Z * wqueue) (relock : Z) (cond : wqueue) (n cur_fiber : loc)
    (held : bool) : option (Z * wqueue * bool) :=
  '(do_wait, q, held) ← wq_wait_enter (Some fev_cond_wait_recheck) cond held n cur_fiber;
  FEV_ASSERT do_wait;
  let '(res, q) := env q in
  '(res, q) ← wq_wait_leave q n res;
  if (res =? - ENOMEM) || (res =? - ETIMEDOUT) then Some (res, q, held)
  else
    FEV_ASSERT ((res =? 0) || (res =? - EAGAIN));
    Some (relock, q, relock =? 0).

(** [fev_cond_wait_for]: the deadline is computed first. *)
Definition fev_cond_wait_for (now rel_time : timespec) (env : timespec → wqueue → Z * wqueue)
    (relock : timespec → Z) (cond : wqueue) (n cur_fiber : loc) (held : bool) : option (Z * wqueue * bool) :=
  abs_time ← fev_get_abs_time_since_now now rel_time;
  fev_cond_wait_until (env abs_time) (relock abs_time) cond n cur_fiber held.

(** [fev_cond_wait]: the wait is not timed, so its result is 0, and
    [fev_mutex_lock] always acquires the mutex. *)
Definition fev_cond_wait (env : wqueue → wqueue) (cond : wqueue) (n cur_fiber : loc) (held : bool)
    : option (wqueue * bool) :=
  '(do_wait, q, held) ← wq_wait_enter (Some fev_cond_wait_recheck) cond held n cur_fiber;
  FEV_ASSERT do_wait;
  '(res, q) ← wq_wait_leave (env q) n 0;
  FEV_ASSERT (res =? 0);
  Some (q, true).

Lemma woken_prefix_all at_ k l : (num_live at_ l < k)%nat → woken_prefix at_ k l = (l, []).
Proof.
  revert k. induction l as [|n l IH]; intros [|k] Hk; try done; simpl; [lia|].
  rewrite num_live_cons in Hk. rewrite IH; [done|]. destruct (live (at_ n)); lia.
Qed.

Lemma num_live_length at_ l : (num_live at_ l <= length l)%nat.
Proof. apply length_filter. Qed.

(** What the other threads may do while the fiber waits with the node [n]: they
    keep the node's flag in step with the queue, and the wait succeeds only
    when the node was removed. *)
Definition env_ok (env : wqueue → Z * wqueue) (n : loc) : Prop :=
  ∀ q1, (n ∈ nodes q1 ↔ deleted (node_at q1 n) = false) →
    let '(res, q2) := env q1 in
    (n ∈ nodes q2 ↔ deleted (node_at q2 n) = false) ∧
    ((res = 0 ∧ deleted (node_at q2 n) = true) ∨ res = - EAGAIN ∨ res = - ENOMEM ∨ res = - ETIMEDOUT).

(** ** Properties *)

(** [fev_cond_notify_all] empties the queue: every node is removed, every
    waiter that had not timed out is woken up, and the blocked ones among them
    become runnable in the order in which they started to wait;
    [fev_cond_notify_one] does so for the oldest waiter that had not timed out,
    if there is one, and leaves the nodes behind it alone. *)
Theorem cond_notify q :
  NoDup (nodes q) → Z.of_nat (length (nodes q)) < UINT32_MAX →
  (∃ q', fev_cond_notify_all q = Some (q', runnables (node_at q) (nodes q)) ∧ nodes q' = [] ∧
     ∀ n, node_at q' n = if decide (n ∈ nodes q) then removed_node (node_at q n) else node_at q n) ∧
  ((∀ n, n ∈ nodes q → live (node_at q n) = false) ∨
   ∃ q' dead n post, nodes q = dead ++ n :: post ∧ live (node_at q n) = true ∧
     (∀ m, m ∈ dead → live (node_at q m) = false) ∧
     fev_cond_notify_one q = Some (q', runnable (node_at q n)) ∧ nodes q' = post ∧
     ∀ m, m ∈ post → node_at q' m = node_at q m).
Proof.
  intros Hnd Hlen. split.
  - unfold fev_cond_notify_all, fev_waiters_queue_wake.
    destruct (wq_wake_loop_ok (S (length (nodes q))) q UINT32_MAX 0 []) as (q' & -> & Hn' & Hat);
      [done|lia|unfold UINT32_MAX; lia|unfold UINT32_MAX; lia|].
    pose proof (num_live_length (node_at q) (nodes q)).
    rewrite woken_prefix_all in Hn', Hat |- * by lia. simpl in *. eauto.
  - destruct (wake_one_ok (λ c _ _, Some c) q tt Hnd)
      as [(q' & Hd & _)|(q' & dead & n & post & Hns & Hlive & Hd & Hq' & Hat & E)]; [by left|].
    right. exists q', dead, n, post. split; [done|]. split; [done|]. split; [done|]. split; [|split; [done|]].
    + unfold fev_cond_notify_one. unfold fev_waiters_queue_wake in *.
      destruct (wq_wake_loop _ q 1 0 []) as [[[q1 nw] fs]|]; [|done]. simpl in *. congruence.
    + intros m Hm. rewrite Hat, decide_False; [done|]. rewrite Hns in Hnd.
      apply NoDup_app in Hnd as (_ & Hdj & Hnp). apply NoDup_cons in Hnp as [Hn _].
      rewrite elem_of_app, list_elem_of_singleton. intros [Hmd| ->]; [|done].
      apply (Hdj m Hmd). by apply list_elem_of_further.
Qed.

Lemma cond_notify_witness :
  ∃ q', fev_cond_notify_all ex_wqueue = Some (q', [22; 24]%positive) ∧ nodes q' = [].
Proof.
  destruct (cond_notify ex_wqueue) as [(q' & E & Hn & _) _].
  - apply (bool_decide_eq_true_1 _). reflexivity.
  - vm_compute. reflexivity.
  - exists q'. split; [exact E|exact Hn].
Defined.


