(* ===== verification/RunQueue.v ===== *)
(** Run queues: the bounded queues of [src/src/fev_bounded_mpmc_queue.h] and
    [src/src/fev_bounded_spmc_queue.h], and the interface through which the
    schedulers use them.

    The definitions are the behaviour of one operation that is not interleaved
    with others; the weak compare-and-swap may still fail spuriously, as often
    as the argument [spurious] says. The 32-bit counters wrap around. *)

From S2P Require Import Prelude.

Local Open Scope Z_scope.

(** ** The interface *)

(** A queue of pointers as the schedulers see it. [push_stq] moves as many
    fibers of a list into the queue as fit; it returns their number and the
    fibers that are left. *)
Class RunQueueOps (Q : Type) := {
  rq_init : Q;
  rq_size : Q → Z;
  rq_push : nat → Q → loc → option (bool * Q);
  rq_pop : nat → Q → option (option loc * Q);
  rq_push_stq : nat → Q → list loc → option (Z * list loc * Q);
}.

Class RunQueue (Q : Type) `{Ops : RunQueueOps Q} := {
  rq_capacity : Z;
  rq_repr : Q → list loc → Prop;
  rq_capacity_range : 2 <= rq_capacity <= 2 ^ 31;
  rq_repr_len q l : rq_repr q l → Z.of_nat (length l) <= rq_capacity;
  rq_init_ok : rq_repr rq_init [];
  rq_size_ok q l : rq_repr q l → rq_size q = Z.of_nat (length l);
  rq_push_ok n q l x : rq_repr q l →
    if Z.of_nat (length l) <? rq_capacity
    then ∃ q', rq_push n q x = Some (true, q') ∧ rq_repr q' (l ++ [x])
    else rq_push n q x = Some (false, q);
  rq_pop_ok n q l : rq_repr q l →
    match l with
    | [] => rq_pop n q = Some (None, q)
    | x :: l' => ∃ q', rq_pop n q = Some (Some x, q') ∧ rq_repr q' l'
    end;
  rq_push_stq_ok n q l xs : rq_repr q l → Z.of_nat (length xs) < 2 ^ 32 →
    let k := Z.to_nat (rq_capacity - Z.of_nat (length l)) in
    ∃ q', rq_push_stq n q xs = Some (Z.of_nat (length (take k xs)), drop k xs, q') ∧
          rq_repr q' (l ++ take k xs);
}.

(** ** The bounded multi-producer multi-consumer queue *)

Record mpmc_cell := mk_cell { sequence : Z; data : option loc }.

Record fev_bounded_mpmc_queue := mk_mpmc {
  mq_buffer : list mpmc_cell;
  mq_mask : Z;
  mq_head : Z;
  mq_tail : Z;
}.

(** The cells are filled by the loop over the sequence numbers. *)
Definition fev_bounded_mpmc_queue_init (capacity : Z) : option fev_bounded_mpmc_queue :=
  FEV_ASSERT ((2 <=? capacity) && (Z.land capacity (capacity - 1) =? 0));
  Some (mk_mpmc (map (λ i, mk_cell (Z.of_nat i) None) (seq 0 (Z.to_nat capacity))) (capacity - 1) 0 0).

Definition fev_bounded_mpmc_queue_size (q : fev_bounded_mpmc_queue) : Z :=
  u32 (mq_tail q - mq_head q).

(** The loop of pop: the cell and the claimed head. *)
Fixpoint mpmc_pop_loop (fuel spurious : nat) (q : fev_bounded_mpmc_queue) (head : Z)
    : option (option (mpmc_cell * Z)) :=
  match fuel with
  | O => None
  | S fuel =>
    cell ← arr_get (mq_buffer q) (Z.land head (mq_mask q));
    let diff := i32 (sequence cell - u32 (head + 1)) in
    if diff =? 0 then
      match spurious with
      | O => Some (Some (cell, head))
      | S spurious => mpmc_pop_loop fuel spurious q (mq_head q)
      end
    else if diff <? 0 then Some None
    else mpmc_pop_loop fuel spurious q (mq_head q)
  end.

Definition fev_bounded_mpmc_queue_pop (spurious : nat) (q : fev_bounded_mpmc_queue)
    : option (option loc * fev_bounded_mpmc_queue) :=
  r ← mpmc_pop_loop (S spurious) spurious q (mq_head q);
  match r with
  | None => Some (None, q)
  | Some (cell, head) =>
      d ← data cell;
      buf ← arr_set (mq_buffer q) (Z.land head (mq_mask q))
              (mk_cell (u32 (head + mq_mask q + 1)) (Some d));
      Some (Some d, mk_mpmc buf (mq_mask q) (u32 (head + 1)) (mq_tail q))
  end.

Fixpoint mpmc_push_loop (fuel spurious : nat) (q : fev_bounded_mpmc_queue) (tail : Z)
    : option (option Z) :=
  match fuel with
  | O => None
  | S fuel =>
    cell ← arr_get (mq_buffer q) (Z.land tail (mq_mask q));
    let diff := i32 (sequence cell - tail) in
    if diff =? 0 then
      match spurious with
      | O => Some (Some tail)
      | S spurious => mpmc_push_loop fuel spurious q (mq_tail q)
      end
    else if diff <? 0 then Some None
    else mpmc_push_loop fuel spurious q (mq_tail q)
  end.

Definition fev_bounded_mpmc_queue_push (spurious : nat) (q : fev_bounded_mpmc_queue) (d : loc)
    : option (bool * fev_bounded_mpmc_queue) :=
  r ← mpmc_push_loop (S spurious) spurious q (mq_tail q);
  match r with
  | None => Some (false, q)
  | Some tail =>
      buf ← arr_set (mq_buffer q) (Z.land tail (mq_mask q)) (mk_cell (u32 (tail + 1)) (Some d));
      Some (true, mk_mpmc buf (mq_mask q) (mq_head q) (u32 (tail + 1)))
  end.

(** The loop of push_stq: the number of fibers pushed and the rest of the list. *)
Fixpoint mpmc_push_stq_loop (spurious : nat) (q : fev_bounded_mpmc_queue) (xs : list loc) (n : Z)
    : option (Z * list loc * fev_bounded_mpmc_queue) :=
  match xs with
  | [] => Some (n, [], q)
  | cur :: next =>
      '(pushed, q) ← fev_bounded_mpmc_queue_push spurious q cur;
      if (pushed : bool) then mpmc_push_stq_loop spurious q next (u32 (n + 1)) else Some (n, xs, q)
  end.

(** [num_fibers] is the length of the list; the assertion relates the two. *)
Definition fev_bounded_mpmc_queue_push_stq (spurious : nat) (q : fev_bounded_mpmc_queue) (xs : list loc)
    (num_fibers : Z) : option (Z * list loc * fev_bounded_mpmc_queue) :=
  '(n, rest, q) ← mpmc_push_stq_loop spurious q xs 0;
  FEV_ASSERT (Bool.eqb (bool_decide (rest = [])) (n =? num_fibers));
  Some (n, rest, q).

(** ** The bounded single-producer multi-consumer queue *)

Record fev_bounded_spmc_queue := mk_spmc {
  sq_buffer : list (option loc);
  sq_mask : Z;
  sq_head : Z;
  sq_tail : Z;
}.

Definition fev_bounded_spmc_queue_init (size : Z) : option fev_bounded_spmc_queue :=
  FEV_ASSERT ((2 <=? size) && (Z.land size (size - 1) =? 0));
  Some (mk_spmc (replicate (Z.to_nat size) None) (size - 1) 0 0).

Definition fev_bounded_spmc_queue_size (q : fev_bounded_spmc_queue) : Z :=
  u32 (sq_tail q - sq_head q).

Fixpoint spmc_pop_loop (fuel spurious : nat) (q : fev_bounded_spmc_queue) (head : Z)
    : option (option (loc * Z)) :=
  match fuel with
  | O => None
  | S fuel =>
    if head =? sq_tail q then Some None
    else
      cell ← arr_get (sq_buffer q) (Z.land head (sq_mask q));
      d ← cell;
      match spurious with
      | O => Some (Some (d, head))
      | S spurious => spmc_pop_loop fuel spurious q (sq_head q)
      end
  end.

Definition fev_bounded_spmc_queue_pop (spurious : nat) (q : fev_bounded_spmc_queue)
    : option (option loc * fev_bounded_spmc_queue) :=
  r ← spmc_pop_loop (S spurious) spurious q (sq_head q);
  match r with
  | None => Some (None, q)
  | Some (d, head) => Some (Some d, mk_spmc (sq_buffer q) (sq_mask q) (u32 (head + 1)) (sq_tail q))
  end.

Definition fev_bounded_spmc_queue_push (q : fev_bounded_spmc_queue) (d : loc)
    : option (bool * fev_bounded_spmc_queue) :=
  if u32 (sq_tail q - sq_head q) <=? sq_mask q then
    buf ← arr_set (sq_buffer q) (Z.land (sq_tail q) (sq_mask q)) (Some d);
    Some (true, mk_spmc buf (sq_mask q) (sq_head q) (u32 (sq_tail q + 1)))
  else Some (false, q).

(** The [for] loop of push_stq; [cur] is the rest of the list, a missing element
    is a null dereference. *)
Fixpoint spmc_push_stq_loop (n : nat) (mask : Z) (buf : list (option loc)) (tail : Z) (cur : list loc)
    : option (list (option loc) * Z * list loc) :=
  match n with
  | O => Some (buf, tail, cur)
  | S n =>
      match cur with
      | [] => None
      | x :: next =>
          buf ← arr_set buf (Z.land tail mask) (Some x);
          spmc_push_stq_loop n mask buf (u32 (tail + 1)) next
      end
  end.

Definition fev_bounded_spmc_queue_push_stq (q : fev_bounded_spmc_queue) (xs : list loc) (num_fibers : Z)
    : option (Z * list loc * fev_bounded_spmc_queue) :=
  let size := sq_mask q + 1 in
  let free := u32 (size - u32 (sq_tail q - sq_head q)) in
  let n := if free <? num_fibers then free else num_fibers in
  '(buf, tail, cur) ← spmc_push_stq_loop (Z.to_nat n) (sq_mask q) (sq_buffer q) (sq_tail q) xs;
  FEV_ASSERT (Bool.eqb (bool_decide (cur = [])) (n =? num_fibers));
  Some (n, cur, mk_spmc buf (sq_mask q) (sq_head q) tail).

(** ** Counters that wrap around *)

Lemma u32_u32_add a b : u32 (u32 a + b) = u32 (a + b).
Proof. unfold u32. apply Zplus_mod_idemp_l. Qed.

Lemma u32_sub a b : u32 (u32 a - u32 b) = u32 (a - b).
Proof. unfold u32. by rewrite <- Zminus_mod. Qed.

(** The difference of two counters, as a signed number. *)
Lemma i32_diff a b : - 2 ^ 31 <= a - b < 2 ^ 31 → i32 (u32 a - u32 b) = a - b.
Proof.
  intros H. unfold i32. rewrite u32_sub. unfold u32. destruct (Z.leb_spec 0 (a - b)).
  - rewrite Z.mod_small by lia. destruct (Z.ltb_spec (a - b) (2 ^ 31)); lia.
  - assert ((a - b) mod 2 ^ 32 = a - b + 2 ^ 32) as ->.
    { symmetry. apply Z.mod_unique_pos with (-1); lia. }
    destruct (Z.ltb_spec (a - b + 2 ^ 32) (2 ^ 31)); lia.
Qed.

Section ring.
Context (k : Z) (Hk : 1 <= k <= 31).
Let cap : Z := 2 ^ k.

Lemma cap_range : 2 <= cap <= 2 ^ 31.
Proof using Hk.
  unfold cap. split; [change 2 with (2 ^ 1) at 1|]; apply Z.pow_le_mono_r; lia.
Qed.

Lemma land_cap i : Z.land (u32 i) (cap - 1) = i mod cap.
Proof using Hk.
  unfold cap. replace (2 ^ k - 1) with (Z.ones k) by (rewrite Z.ones_equiv; lia).
  rewrite Z.land_ones by lia. unfold u32. symmetry. apply Znumtheory.Zmod_div_mod; [lia|lia|].
  exists (2 ^ (32 - k)). rewrite <- Z.pow_add_r by lia. f_equal. lia.
Qed.

Lemma mod_cap_range i : 0 <= i mod cap < cap.
Proof using Hk. pose proof cap_range. apply Z.mod_pos_bound. lia. Qed.

(** Less than [cap] apart, two counters have different slots. *)
Lemma mod_cap_ne i j : i < j < i + cap → i mod cap ≠ j mod cap.
Proof using Hk.
  pose proof cap_range. intros Hij E.
  pose proof (Z.div_mod i cap ltac:(lia)). pose proof (Z.div_mod j cap ltac:(lia)).
  assert (j - i = cap * (j / cap - i / cap)) by lia.
  destruct (Z.le_gt_cases (j / cap - i / cap) 0); nia.
Qed.

Lemma mod_cap_wrap i : (i + cap) mod cap = i mod cap.
Proof using Hk. pose proof cap_range. rewrite <- (Z.mul_1_l cap) at 1. apply Z_mod_plus_full. Qed.

Lemma cap_pow2 : Z.land cap (cap - 1) = 0.
Proof using Hk.
  unfold cap. replace (2 ^ k - 1) with (Z.ones k) by (rewrite Z.ones_equiv; lia).
  rewrite Z.land_ones by lia. apply Z_mod_same_full.
Qed.

(** *** The multi-producer queue *)

Definition mpmc_repr (q : fev_bounded_mpmc_queue) (l : list loc) : Prop :=
  ∃ h, let t := h + Z.of_nat (length l) in
    mq_head q = u32 h ∧ mq_tail q = u32 t ∧ mq_mask q = cap - 1 ∧
    Z.of_nat (length (mq_buffer q)) = cap ∧ t <= h + cap ∧
    (∀ i x, 0 <= i → l !! Z.to_nat i = Some x →
       arr_get (mq_buffer q) ((h + i) mod cap) = Some (mk_cell (u32 (h + i + 1)) (Some x))) ∧
    (∀ i, t <= i < h + cap → ∃ c, arr_get (mq_buffer q) (i mod cap) = Some c ∧ sequence c = u32 i).

Lemma mpmc_pop_loop_S fuel spurious q head :
  mpmc_pop_loop (S fuel) spurious q head =
    (cell ← arr_get (mq_buffer q) (Z.land head (mq_mask q));
     let diff := i32 (sequence cell - u32 (head + 1)) in
     if diff =? 0 then
       match spurious with
       | O => Some (Some (cell, head))
       | S spurious => mpmc_pop_loop fuel spurious q (mq_head q)
       end
     else if diff <? 0 then Some None else mpmc_pop_loop fuel spurious q (mq_head q)).
Proof. done. Qed.

Lemma mpmc_push_loop_S fuel spurious q tail :
  mpmc_push_loop (S fuel) spurious q tail =
    (cell ← arr_get (mq_buffer q) (Z.land tail (mq_mask q));
     let diff := i32 (sequence cell - tail) in
     if diff =? 0 then
       match spurious with
       | O => Some (Some tail)
       | S spurious => mpmc_push_loop fuel spurious q (mq_tail q)
       end
     else if diff <? 0 then Some None else mpmc_push_loop fuel spurious q (mq_tail q)).
Proof. done. Qed.

Lemma mpmc_pop_loop_ok n q l :
  mpmc_repr q l →
  match l with
  | [] => mpmc_pop_loop (S n) n q (mq_head q) = Some None
  | x :: _ => ∃ h, mq_head q = u32 h ∧
      mpmc_pop_loop (S n) n q (mq_head q) = Some (Some (mk_cell (u32 (h + 1)) (Some x), u32 h))
  end.
Proof using Hk.
  intros (h & Hh & Ht & Hm & Hlen & Hle & Hfull & Hfree). pose proof cap_range.
  destruct l as [|x l].
  - simpl in Ht, Hle, Hfree. rewrite mpmc_pop_loop_S, Hh, Hm, land_cap. destruct (Hfree h) as (c & -> & Hc); [lia|]. simpl.
    rewrite Hc, u32_u32_add, i32_diff by lia. replace (h - (h + 1)) with (-1) by lia. done.
  - exists h. split; [done|]. specialize (Hfull 0 x ltac:(lia) eq_refl). rewrite Z.add_0_r in Hfull.
    rewrite Hh. induction n as [|n IH]; rewrite mpmc_pop_loop_S, Hm, land_cap, Hfull;
      cbn [mbind option_bind sequence]; rewrite u32_u32_add, i32_diff by lia; rewrite Z.sub_diag, Z.eqb_refl; [done|].
    rewrite Hh. exact IH.
Qed.

Lemma mpmc_pop_ok n q l :
  mpmc_repr q l →
  match l with
  | [] => fev_bounded_mpmc_queue_pop n q = Some (None, q)
  | x :: l' => ∃ q', fev_bounded_mpmc_queue_pop n q = Some (Some x, q') ∧ mpmc_repr q' l'
  end.
Proof using Hk.
  intros Hr. pose proof (mpmc_pop_loop_ok n q l Hr) as Hloop. pose proof cap_range as Hc.
  unfold fev_bounded_mpmc_queue_pop. destruct l as [|x l]; [by rewrite Hloop|].
  destruct Hloop as (h0 & Hh0 & ->). cbn [mbind option_bind data].
  destruct Hr as (h & Hh & Ht & Hm & Hlen & Hle & Hfull & Hfree). simpl length in *.
  assert (E0 : ∀ z, u32 (u32 h0 + z) = u32 (h + z)) by (intros z; by rewrite <- Hh0, Hh, u32_u32_add).
  rewrite <- Hh0, Hh, Hm, land_cap. rewrite arr_set_eq by (rewrite Hlen; apply mod_cap_range).
  eexists. split; [done|]. exists (h + 1). simpl.
  pose proof (mod_cap_range h) as Hr0.
  assert (Hget : ∀ j c, arr_get (<[Z.to_nat (h mod cap) := c]> (mq_buffer q)) j =
                        if decide (h mod cap = j) then Some c else arr_get (mq_buffer q) j).
  { intros j c. apply arr_get_insert. lia. }
  split; [by rewrite u32_u32_add|]. split; [rewrite Ht; f_equal; lia|]. split; [done|].
  split; [by rewrite length_insert|]. split; [lia|]. split.
  - intros i y Hi Hy. pose proof (lookup_lt_Some _ _ _ Hy). rewrite Hget, decide_False.
    + replace (h + 1 + i) with (h + (i + 1)) by lia. rewrite (Hfull (i + 1) y); [done|lia|].
      replace (Z.to_nat (i + 1)) with (S (Z.to_nat i)) by lia. done.
    + apply mod_cap_ne. lia.
  - intros i Hi. rewrite Hget. destruct (decide (i = h + cap)) as [->|Hne].
    + rewrite mod_cap_wrap, decide_True by done. eexists. split; [done|]. simpl.
      rewrite <- Z.add_assoc, u32_u32_add. f_equal. lia.
    + rewrite decide_False by (apply mod_cap_ne; lia). apply Hfree. lia.
Qed.

Lemma mpmc_push_loop_ok n q l :
  mpmc_repr q l →
  if Z.of_nat (length l) <? cap
  then mpmc_push_loop (S n) n q (mq_tail q) = Some (Some (mq_tail q))
  else mpmc_push_loop (S n) n q (mq_tail q) = Some None.
Proof using Hk.
  intros (h & Hh & Ht & Hm & Hlen & Hle & Hfull & Hfree). pose proof cap_range.
  destruct (Z.ltb_spec (Z.of_nat (length l)) cap) as [Hlt|Hge].
  - destruct (Hfree (h + Z.of_nat (length l))) as (c & Hc & Hs); [lia|].
    rewrite Ht. induction n as [|n IH]; rewrite mpmc_push_loop_S, Hm, land_cap, Hc;
      cbn [mbind option_bind]; rewrite Hs, i32_diff by lia; rewrite Z.sub_diag, Z.eqb_refl; [done|].
    rewrite Ht. exact IH.
  - destruct l as [|x l]; [simpl in Hge; lia|].
    specialize (Hfull 0 x ltac:(lia) eq_refl). rewrite Z.add_0_r in Hfull.
    assert (E : (h + Z.of_nat (length (x :: l))) mod cap = h mod cap).
    { replace (h + Z.of_nat (length (x :: l))) with (h + cap) by lia. apply mod_cap_wrap. }
    rewrite mpmc_push_loop_S, Ht, Hm, land_cap, E, Hfull. cbn [mbind option_bind sequence].
    rewrite i32_diff by lia.
    rewrite (proj2 (Z.eqb_neq _ _)) by lia. by rewrite (proj2 (Z.ltb_lt _ _)) by lia.
Qed.

Lemma mpmc_push_ok n q l x :
  mpmc_repr q l →
  if Z.of_nat (length l) <? cap
  then ∃ q', fev_bounded_mpmc_queue_push n q x = Some (true, q') ∧ mpmc_repr q' (l ++ [x])
  else fev_bounded_mpmc_queue_push n q x = Some (false, q).
Proof using Hk.
  intros Hr. pose proof (mpmc_push_loop_ok n q l Hr) as Hloop. pose proof cap_range as Hc.
  unfold fev_bounded_mpmc_queue_push.
  destruct (Z.ltb_spec (Z.of_nat (length l)) cap) as [Hlt|Hge]; rewrite Hloop; [|done].
  cbn [mbind option_bind].
  destruct Hr as (h & Hh & Ht & Hm & Hlen & Hle & Hfull & Hfree). set (t := h + Z.of_nat (length l)) in *.
  rewrite Ht, Hm, land_cap. rewrite arr_set_eq by (rewrite Hlen; apply mod_cap_range).
  eexists. split; [done|]. exists h. simpl. rewrite length_app. simpl length.
  replace (h + Z.of_nat (length l + 1)) with (t + 1) by lia.
  assert (Hget : ∀ j c, arr_get (<[Z.to_nat (t mod cap) := c]> (mq_buffer q)) j =
                        if decide (t mod cap = j) then Some c else arr_get (mq_buffer q) j).
  { intros j c. apply arr_get_insert. rewrite Hlen. apply mod_cap_range. }
  split; [done|]. split; [by rewrite u32_u32_add|]. split; [done|].
  split; [by rewrite length_insert|]. split; [lia|]. split.
  - intros i y Hi Hy. rewrite Hget. destruct (decide (i = Z.of_nat (length l))) as [->|Hne].
    + fold t. rewrite decide_True, u32_u32_add by done. rewrite Nat2Z.id, list_lookup_middle in Hy by done.
      by simplify_eq.
    + pose proof (lookup_lt_Some _ _ _ Hy) as Hl. rewrite length_app in Hl. simpl in Hl.
      rewrite decide_False by (apply not_eq_sym, mod_cap_ne; lia). apply Hfull; [done|].
      rewrite lookup_app_l in Hy by lia. done.
  - intros i Hi. rewrite Hget, decide_False by (apply mod_cap_ne; lia). apply Hfree. lia.
Qed.

Lemma mpmc_push_stq_loop_ok n q l xs m :
  mpmc_repr q l → 0 <= m → m + Z.of_nat (length xs) < 2 ^ 32 →
  let j := Z.to_nat (cap - Z.of_nat (length l)) in
  ∃ q', mpmc_push_stq_loop n q xs m = Some (m + Z.of_nat (length (take j xs)), drop j xs, q') ∧
        mpmc_repr q' (l ++ take j xs).
Proof using Hk.
  revert q l m. induction xs as [|x xs IH]; intros q l m Hr H0 Hm; cbn zeta.
  - exists q. rewrite take_nil, drop_nil, app_nil_r. simpl. by rewrite Z.add_0_r.
  - simpl mpmc_push_stq_loop. pose proof (mpmc_push_ok n q l x Hr) as Hp. simpl length in Hm.
    destruct (Z.ltb_spec (Z.of_nat (length l)) cap) as [Hlt|Hge].
    + destruct Hp as (q1 & -> & Hr1). cbn [mbind option_bind]. rewrite u32_small by lia.
      destruct (IH q1 _ (m + 1) Hr1) as (q' & -> & Hr'); [lia|lia|]. exists q'.
      rewrite length_app in *. simpl length in *.
      replace (Z.to_nat (cap - Z.of_nat (length l))) with (S (Z.to_nat (cap - Z.of_nat (length l + 1)))) by lia.
      simpl. split; [do 3 f_equal; lia|]. by rewrite <- app_assoc in Hr'.
    + rewrite Hp. simpl. exists q. replace (Z.to_nat _) with O by lia. simpl.
      rewrite app_nil_r, Z.add_0_r. done.
Qed.

Lemma mpmc_push_stq_ok n q l xs :
  mpmc_repr q l → Z.of_nat (length xs) < 2 ^ 32 →
  let j := Z.to_nat (cap - Z.of_nat (length l)) in
  ∃ q', fev_bounded_mpmc_queue_push_stq n q xs (Z.of_nat (length xs)) =
          Some (Z.of_nat (length (take j xs)), drop j xs, q') ∧ mpmc_repr q' (l ++ take j xs).
Proof using Hk.
  intros Hr Hl j. unfold fev_bounded_mpmc_queue_push_stq.
  destruct (mpmc_push_stq_loop_ok n q l xs 0 Hr) as (q' & -> & Hr'); [lia|lia|]. fold j in Hr' |- *.
  cbn [mbind option_bind]. rewrite Z.add_0_l.
  assert (Hb : Bool.eqb (bool_decide (drop j xs = [])) (Z.of_nat (length (take j xs)) =? Z.of_nat (length xs)) = true).
  { apply eqb_true_iff. rewrite length_take. destruct (decide (drop j xs = [])) as [E|E].
    - rewrite bool_decide_true by done. apply (f_equal length) in E. rewrite length_drop in E. simpl in E.
      symmetry. apply Z.eqb_eq. lia.
    - rewrite bool_decide_false by done. symmetry. apply Z.eqb_neq. intros E'. apply E. apply drop_ge. lia. }
  rewrite Hb. eauto.
Qed.

Lemma mpmc_init_ok : ∃ q, fev_bounded_mpmc_queue_init cap = Some q ∧ mpmc_repr q [].
Proof using Hk.
  pose proof cap_range. unfold fev_bounded_mpmc_queue_init. rewrite cap_pow2, (proj2 (Z.leb_le 2 cap)) by lia.
  simpl. eexists. split; [done|]. exists 0. simpl. rewrite length_map, length_seq.
  repeat (split; [done || lia|]). intros i Hi. exists (mk_cell i None).
  rewrite Z.mod_small by lia. split; [|simpl; rewrite u32_small by lia; done].
  apply arr_get_Some. split; [lia|]. rewrite list_lookup_fmap, lookup_seq_lt by lia. simpl. f_equal. f_equal. lia.
Qed.

(** *** The single-producer queue *)

Definition spmc_repr (q : fev_bounded_spmc_queue) (l : list loc) : Prop :=
  ∃ h, let t := h + Z.of_nat (length l) in
    sq_head q = u32 h ∧ sq_tail q = u32 t ∧ sq_mask q = cap - 1 ∧
    Z.of_nat (length (sq_buffer q)) = cap ∧ t <= h + cap ∧
    (∀ i x, 0 <= i → l !! Z.to_nat i = Some x →
       arr_get (sq_buffer q) ((h + i) mod cap) = Some (Some x)).

Lemma spmc_size_eq q l : spmc_repr q l → u32 (sq_tail q - sq_head q) = Z.of_nat (length l).
Proof using Hk.
  intros (h & Hh & Ht & _ & _ & Hle & _). pose proof cap_range. rewrite Hh, Ht, u32_sub, u32_small; lia.
Qed.

Lemma spmc_pop_loop_S fuel spurious q head :
  spmc_pop_loop (S fuel) spurious q head =
    (if head =? sq_tail q then Some None
     else
       cell ← arr_get (sq_buffer q) (Z.land head (sq_mask q));
       d ← cell;
       match spurious with
       | O => Some (Some (d, head))
       | S spurious => spmc_pop_loop fuel spurious q (sq_head q)
       end).
Proof. done. Qed.

Lemma spmc_pop_ok n q l :
  spmc_repr q l →
  match l with
  | [] => fev_bounded_spmc_queue_pop n q = Some (None, q)
  | x :: l' => ∃ q', fev_bounded_spmc_queue_pop n q = Some (Some x, q') ∧ spmc_repr q' l'
  end.
Proof using Hk.
  intros (h & Hh & Ht & Hm & Hlen & Hle & Hfull). pose proof cap_range as Hc.
  unfold fev_bounded_spmc_queue_pop. destruct l as [|x l].
  - rewrite spmc_pop_loop_S, Hh, Ht. simpl length. rewrite Z.add_0_r, Z.eqb_refl. done.
  - assert (Hne : (u32 h =? sq_tail q) = false).
    { rewrite Ht. apply Z.eqb_neq. intros E. simpl length in *.
      assert (E2 : u32 (u32 (h + Z.of_nat (S (length l))) - u32 h) = 0) by (rewrite E, Z.sub_diag; done).
      rewrite u32_sub, u32_small in E2; lia. }
    specialize (Hfull 0 x ltac:(lia) eq_refl) as Hf0. rewrite Z.add_0_r in Hf0.
    assert (spmc_pop_loop (S n) n q (sq_head q) = Some (Some (x, u32 h))) as ->.
    { rewrite Hh. induction n as [|n IH]; rewrite spmc_pop_loop_S, Hne, Hm, land_cap, Hf0;
        cbn [mbind option_bind]; [done|].
      rewrite Hh. exact IH. }
    simpl. eexists. split; [done|]. exists (h + 1). simpl length in *. simpl.
    split; [by rewrite u32_u32_add|]. split; [rewrite Ht; f_equal; lia|]. split; [done|]. split; [done|].
    split; [lia|]. intros i y Hi Hy. replace (h + 1 + i) with (h + (i + 1)) by lia. apply Hfull; [lia|].
    replace (Z.to_nat (i + 1)) with (S (Z.to_nat i)) by lia. done.
Qed.

(** Writing the slot of the tail, for both push operations. *)
Lemma spmc_write q l x :
  spmc_repr q l → Z.of_nat (length l) < cap →
  ∃ buf, arr_set (sq_buffer q) (Z.land (sq_tail q) (sq_mask q)) (Some x) = Some buf ∧
    spmc_repr (mk_spmc buf (sq_mask q) (sq_head q) (u32 (sq_tail q + 1))) (l ++ [x]).
Proof using Hk.
  intros (h & Hh & Ht & Hm & Hlen & Hle & Hfull) Hlt. set (t := h + Z.of_nat (length l)) in *.
  rewrite Ht, Hm, land_cap. rewrite arr_set_eq by (rewrite Hlen; apply mod_cap_range).
  eexists. split; [done|]. exists h. simpl. rewrite length_app. simpl length.
  replace (h + Z.of_nat (length l + 1)) with (t + 1) by lia.
  split; [done|]. split; [by rewrite u32_u32_add|]. split; [done|]. split; [by rewrite length_insert|].
  split; [lia|]. intros i y Hi Hy. rewrite arr_get_insert by (rewrite Hlen; apply mod_cap_range).
  destruct (decide (i = Z.of_nat (length l))) as [->|Hne].
  - fold t. rewrite decide_True by done. rewrite Nat2Z.id, list_lookup_middle in Hy by done. by simplify_eq.
  - pose proof (lookup_lt_Some _ _ _ Hy) as Hl. rewrite length_app in Hl. simpl in Hl.
    rewrite decide_False by (apply not_eq_sym, mod_cap_ne; lia). apply Hfull; [done|].
    rewrite lookup_app_l in Hy by lia. done.
Qed.

Lemma spmc_push_ok q l x :
  spmc_repr q l →
  if Z.of_nat (length l) <? cap
  then ∃ q', fev_bounded_spmc_queue_push q x = Some (true, q') ∧ spmc_repr q' (l ++ [x])
  else fev_bounded_spmc_queue_push q x = Some (false, q).
Proof using Hk.
  intros Hr. unfold fev_bounded_spmc_queue_push. rewrite (spmc_size_eq q l Hr).
  pose proof Hr as (h & _ & _ & Hm & _).
  destruct (Z.ltb_spec (Z.of_nat (length l)) cap) as [Hlt|Hge].
  - rewrite (proj2 (Z.leb_le _ _)) by lia. destruct (spmc_write q l x Hr Hlt) as (buf & -> & Hr').
    simpl. eauto.
  - by rewrite (proj2 (Z.leb_gt _ _)) by lia.
Qed.

Lemma spmc_push_stq_loop_ok n q l xs :
  spmc_repr q l → (n <= length xs)%nat → Z.of_nat (length l) + Z.of_nat n <= cap →
  ∃ buf tail, spmc_push_stq_loop n (sq_mask q) (sq_buffer q) (sq_tail q) xs = Some (buf, tail, drop n xs) ∧
    spmc_repr (mk_spmc buf (sq_mask q) (sq_head q) tail) (l ++ take n xs).
Proof using Hk.
  revert q l xs. induction n as [|n IH]; intros q l xs Hr Hn Hc.
  - simpl. eexists _, _. split; [done|]. rewrite app_nil_r. by destruct q.
  - destruct xs as [|x xs]; [simpl in Hn; lia|]. simpl in Hn |- *.
    destruct (spmc_write q l x Hr) as (buf & -> & Hr1); [lia|]. cbn [mbind option_bind].
    destruct (IH _ _ xs Hr1) as (buf2 & tail2 & E & Hr2); [lia|rewrite length_app; simpl; lia|].
    simpl in E. rewrite E. eexists _, _. split; [done|]. simpl in Hr2. by rewrite <- app_assoc in Hr2.
Qed.

Lemma spmc_push_stq_ok q l xs :
  spmc_repr q l → Z.of_nat (length xs) < 2 ^ 32 →
  let j := Z.to_nat (cap - Z.of_nat (length l)) in
  ∃ q', fev_bounded_spmc_queue_push_stq q xs (Z.of_nat (length xs)) =
          Some (Z.of_nat (length (take j xs)), drop j xs, q') ∧ spmc_repr q' (l ++ take j xs).
Proof using Hk.
  intros Hr Hl j. pose proof cap_range as Hc. unfold fev_bounded_spmc_queue_push_stq.
  pose proof Hr as (h & _ & _ & Hm & _ & Hle & _).
  rewrite (spmc_size_eq q l Hr), Hm. replace (cap - 1 + 1) with cap by lia. rewrite u32_small by lia.
  set (n := if _ <? _ then _ else _).
  assert (Hn : n = Z.of_nat (length (take j xs))).
  { unfold n, j. rewrite length_take. destruct (Z.ltb_spec (cap - Z.of_nat (length l)) (Z.of_nat (length xs))); lia. }
  assert (Hd : drop (Z.to_nat n) xs = drop j xs ∧ take (Z.to_nat n) xs = take j xs).
  { rewrite Hn, length_take, Nat2Z.id. destruct (decide (j <= length xs)%nat).
    - by rewrite Nat.min_l by lia.
    - rewrite Nat.min_r by lia. rewrite !drop_ge, !take_ge by lia. done. }
  destruct Hd as [Hd Ht]. rewrite <- Hm.
  destruct (spmc_push_stq_loop_ok (Z.to_nat n) q l xs Hr) as (buf & tail & -> & Hr').
  { rewrite Hn, length_take. lia. }
  { rewrite Hn, length_take. unfold j. lia. }
  cbn [mbind option_bind]. rewrite Hd, Ht in *.
  assert (Hb : Bool.eqb (bool_decide (drop j xs = [])) (n =? Z.of_nat (length xs)) = true).
  { rewrite Hn, length_take. apply eqb_true_iff. destruct (decide (drop j xs = [])) as [E|E].
    - rewrite bool_decide_true by done. apply (f_equal length) in E. rewrite length_drop in E. simpl in E.
      symmetry. apply Z.eqb_eq. lia.
    - rewrite bool_decide_false by done. symmetry. apply Z.eqb_neq. intros E'. apply E. apply drop_ge. lia. }
  rewrite Hb, Hn. eauto.
Qed.

Lemma spmc_init_ok : ∃ q, fev_bounded_spmc_queue_init cap = Some q ∧ spmc_repr q [].
Proof using Hk.
  pose proof cap_range. unfold fev_bounded_spmc_queue_init. rewrite cap_pow2, (proj2 (Z.leb_le 2 cap)) by lia.
  simpl. eexists. split; [done|]. exists 0. simpl. rewrite length_replicate.
  repeat (split; [done || lia|]). done.
Qed.
End ring.

(** ** The instances *)

#[export] Instance mpmc_ops (k : Z) : RunQueueOps fev_bounded_mpmc_queue := {|
  rq_init := default (mk_mpmc [] 0 0 0) (fev_bounded_mpmc_queue_init (2 ^ k));
  rq_size := fev_bounded_mpmc_queue_size;
  rq_push := fev_bounded_mpmc_queue_push;
  rq_pop := fev_bounded_mpmc_queue_pop;
  rq_push_stq := λ n q xs, fev_bounded_mpmc_queue_push_stq n q xs (Z.of_nat (length xs));
|}.

#[export] Instance spmc_ops (k : Z) : RunQueueOps fev_bounded_spmc_queue := {|
  rq_init := default (mk_spmc [] 0 0 0) (fev_bounded_spmc_queue_init (2 ^ k));
  rq_size := fev_bounded_spmc_queue_size;
  rq_push := λ _, fev_bounded_spmc_queue_push;
  rq_pop := fev_bounded_spmc_queue_pop;
  rq_push_stq := λ _ q xs, fev_bounded_spmc_queue_push_stq q xs (Z.of_nat (length xs));
|}.

Lemma mpmc_size_ok k q l :
  1 <= k <= 31 → mpmc_repr k q l → fev_bounded_mpmc_queue_size q = Z.of_nat (length l).
Proof.
  intros Hk (h & Hh & Ht & _ & _ & Hle & _). pose proof (cap_range k Hk).
  unfold fev_bounded_mpmc_queue_size. rewrite Hh, Ht, u32_sub, u32_small; lia.
Qed.

#[export] Instance mpmc_run_queue (k : Z) (Hk : 1 <= k <= 31) :
  RunQueue fev_bounded_mpmc_queue (Ops := mpmc_ops k).
Proof.
  refine {| rq_capacity := 2 ^ k; rq_repr := mpmc_repr k |}.
  - by apply cap_range.
  - intros q l (h & _ & _ & _ & _ & Hle & _). lia.
  - destruct (mpmc_init_ok k Hk) as (q & E & Hr). simpl. by rewrite E.
  - intros q l. by apply mpmc_size_ok.
  - intros n q l x. by apply mpmc_push_ok.
  - intros n q l. by apply mpmc_pop_ok.
  - intros n q l xs. by apply mpmc_push_stq_ok.
Defined.

#[export] Instance spmc_run_queue (k : Z) (Hk : 1 <= k <= 31) :
  RunQueue fev_bounded_spmc_queue (Ops := spmc_ops k).
Proof.
  refine {| rq_capacity := 2 ^ k; rq_repr := spmc_repr k |}.
  - by apply cap_range.
  - intros q l (h & _ & _ & _ & _ & Hle & _). lia.
  - destruct (spmc_init_ok k Hk) as (q & E & Hr). simpl. by rewrite E.
  - intros q l. by apply spmc_size_eq.
  - intros n q l x. by apply spmc_push_ok.
  - intros n q l. by apply spmc_pop_ok.
  - intros n q l xs. by apply spmc_push_stq_ok.
Defined.

(** ** Properties *)


(** A queue of capacity 4 whose counters are about to wrap around. *)
Definition ex_mpmc : fev_bounded_mpmc_queue :=
  mk_mpmc [mk_cell 0 None; mk_cell 1 None;
           mk_cell (2 ^ 32 - 1) (Some 7%positive); mk_cell 0 (Some 8%positive)] 3 (2 ^ 32 - 2) 0.

Lemma ex_mpmc_repr : mpmc_repr 2 ex_mpmc [7; 8]%positive.
Proof.
  exists (2 ^ 32 - 2). split; [reflexivity|]. split; [reflexivity|]. split; [reflexivity|].
  split; [reflexivity|]. split; [simpl; lia|]. split.
  - intros i x Hi Hx. pose proof (lookup_lt_Some _ _ _ Hx) as Hlt. simpl in Hlt.
    assert (i = 0 ∨ i = 1) as [-> | ->] by lia; simpl in Hx; injection Hx as <-; reflexivity.
  - intros i Hi. simpl in Hi.
    assert (i = 2 ^ 32 ∨ i = 2 ^ 32 + 1) as [-> | ->] by lia; eexists; split; reflexivity.
Qed.

