(* ===== verification/SchedIntf.v ===== *)
(** What a scheduler asks of its run queues.

    The six schedulers of libfev differ in how runnable fibers are stored: one
    queue or one per worker, protected by a lock or lock-free, bounded with an
    unbounded fallback queue or not. [SchedQueue] lists the operations
    [fev_sched_work] and the wake-up functions use, [SchedQueueSpec] says that
    they never lose or duplicate a fiber. Workers are numbered. *)

From S2P Require Import Prelude.

Local Open Scope Z_scope.

Class SchedQueue (Q : Type) := {
  sq_stealing : bool;                                  (* which [fev_sched_work] *)
  sq_push_one : nat → loc → Q → option Q;              (* [fev_push_one] *)
  sq_push_stq : nat → list loc → Q → option Q;         (* [fev_push_stq] *)
  sq_pop : nat → Q → option (option loc * Q);          (* get_local, get_fiber *)
  sq_move : nat → Q → option Q;                        (* the fallback queue *)
  sq_size : nat → Q → option Z;                        (* of the worker's own queue *)
  sq_steal : nat → Q → option (Z * Q);                 (* [fev_sched_steal] *)
  sq_put : loc → Q → option Q;                         (* the push of [fev_sched_put] *)
}.

(** The abstract content: a list per worker, and the fibers that belong to no
    worker. *)
Record acontent := mk_ac { alocals : list (list loc); aglobal : list loc }.

Definition afibers (a : acontent) : list loc := concat (alocals a) ++ aglobal a.
Definition alocal (a : acontent) (w : nat) : list loc := default [] (alocals a !! w).

(** What the operations of the worker [w] may do to the queues of the others. *)
Definition others_empty (w : nat) (a a' : acontent) : Prop :=
  ∀ w', w' ≠ w → alocal a w' = [] → alocal a' w' = [].

Class SchedQueueSpec (Q : Type) `{SchedQueue Q} (N : nat) := {
  sq_repr : Q → acontent → Prop;
  sq_push_one_ok w f q a :
    (w < N)%nat → sq_repr q a → Z.of_nat (length (f :: afibers a)) < 2 ^ 32 →
    ∃ q' a', sq_push_one w f q = Some q' ∧ sq_repr q' a' ∧
             afibers a' ≡ₚ f :: afibers a ∧ others_empty w a a';
  sq_push_stq_ok w fs q a :
    (w < N)%nat → sq_repr q a → fs ≠ [] → Z.of_nat (length (fs ++ afibers a)) < 2 ^ 32 →
    ∃ q' a', sq_push_stq w fs q = Some q' ∧ sq_repr q' a' ∧
             afibers a' ≡ₚ fs ++ afibers a ∧ others_empty w a a';
  sq_pop_ok w q a :
    (w < N)%nat → sq_repr q a →
    ∃ r q' a', sq_pop w q = Some (r, q') ∧ sq_repr q' a' ∧ others_empty w a a' ∧
      match r with
      | None => afibers a' ≡ₚ afibers a
      | Some f => afibers a ≡ₚ f :: afibers a'
      end;
  sq_move_ok w q a :
    (w < N)%nat → sq_repr q a → Z.of_nat (length (afibers a)) < 2 ^ 32 →
    ∃ q' a', sq_move w q = Some q' ∧ sq_repr q' a' ∧ afibers a' ≡ₚ afibers a ∧ others_empty w a a';
  sq_size_ok w q a :
    (w < N)%nat → sq_repr q a → sq_stealing = true →
    sq_size w q = Some (Z.of_nat (length (alocal a w)));
  sq_steal_ok w q a :
    (w < N)%nat → sq_repr q a → sq_stealing = true → alocal a w = [] →
    Z.of_nat (length (afibers a)) < 2 ^ 32 →
    ∃ n q' a', sq_steal w q = Some (n, q') ∧ sq_repr q' a' ∧ afibers a' ≡ₚ afibers a ∧
               others_empty w a a' ∧ 0 <= n;
  sq_put_ok f q a :
    (0 < N)%nat → sq_repr q a → Z.of_nat (length (f :: afibers a)) < 2 ^ 32 →
    ∃ q' a', sq_put f q = Some q' ∧ sq_repr q' a' ∧ afibers a' ≡ₚ f :: afibers a;
}.

(** ** Lemmas on the content *)

Lemma alocal_lookup a w l : alocals a !! w = Some l → alocal a w = l.
Proof. unfold alocal. by intros ->. Qed.

Lemma concat_insert_perm (ls : list (list loc)) w l l' :
  ls !! w = Some l → concat (<[w := l']> ls) ++ l ≡ₚ concat ls ++ l'.
Proof.
  intros Hw. rewrite insert_take_drop by (by eapply lookup_lt_Some).
  rewrite <- (take_drop_middle ls w l Hw) at 3. rewrite !concat_app. simpl. solve_Permutation.
Qed.

(** Replacing the content of one worker. *)
Lemma afibers_insert a w l l' g x y :
  alocals a !! w = Some l → l' ++ g ++ x ≡ₚ l ++ aglobal a ++ y →
  afibers (mk_ac (<[w := l']> (alocals a)) g) ++ x ≡ₚ afibers a ++ y.
Proof.
  intros Hw Hp. unfold afibers. simpl. apply (Permutation_app_inv_r l).
  pose proof (concat_insert_perm _ _ _ l' Hw) as Hc.
  transitivity ((concat (<[w := l']> (alocals a)) ++ l) ++ g ++ x); [solve_Permutation|].
  rewrite Hc. transitivity (concat (alocals a) ++ (l' ++ g ++ x)); [solve_Permutation|].
  rewrite Hp. solve_Permutation.
Qed.

Lemma others_empty_insert a w l' g : others_empty w a (mk_ac (<[w := l']> (alocals a)) g).
Proof. intros w' Hne He. unfold alocal in *. simpl. by rewrite list_lookup_insert_ne by done. Qed.

Lemma others_empty_refl w a : others_empty w a a.
Proof. by intros w' _ He. Qed.

Lemma others_empty_trans w a1 a2 a3 : others_empty w a1 a2 → others_empty w a2 a3 → others_empty w a1 a3.
Proof. intros H1 H2 w' Hne He. by apply H2, H1. Qed.

(** The new content has [fs] more fibers, or as many. *)
Lemma afibers_insert_more a w l l' g fs :
  alocals a !! w = Some l → l' ++ g ≡ₚ fs ++ l ++ aglobal a →
  afibers (mk_ac (<[w := l']> (alocals a)) g) ≡ₚ fs ++ afibers a.
Proof.
  intros Hw Hp. rewrite <- (app_nil_r (afibers (mk_ac _ _))), (Permutation_app_comm fs).
  eapply afibers_insert; [done|]. rewrite app_nil_r, Hp. solve_Permutation.
Qed.

Lemma afibers_insert_less a w l l' g fs :
  alocals a !! w = Some l → fs ++ l' ++ g ≡ₚ l ++ aglobal a →
  afibers a ≡ₚ fs ++ afibers (mk_ac (<[w := l']> (alocals a)) g).
Proof.
  intros Hw Hp. rewrite <- (app_nil_r (afibers a)), (Permutation_app_comm fs).
  symmetry. eapply afibers_insert; [done|]. rewrite app_nil_r, <- Hp. solve_Permutation.
Qed.

Lemma length_aglobal a : (length (aglobal a) <= length (afibers a))%nat.
Proof. unfold afibers. rewrite length_app. lia. Qed.

(** ** Shared queues *)

(** The queue is shared: the list of a worker is not looked at. *)
Lemma others_empty_shared w a a' : others_empty w (mk_ac [] (afibers a)) (mk_ac [] (afibers a')).
Proof. by intros w' _ _. Qed.

Definition shared_repr {S} (R : S → acontent → Prop) (s : S) (a : acontent) : Prop :=
  alocals a = [] ∧ ∃ a0, R s a0 ∧ afibers a0 = aglobal a.

Lemma shared_intro {S} (R : S → acontent → Prop) s a0 : R s a0 → shared_repr R s (mk_ac [] (afibers a0)).
Proof. intros Hr. split; [done|]. eauto. Qed.

Lemma length_alocal a w l : alocals a !! w = Some l → (length l <= length (afibers a))%nat.
Proof.
  intros Hw. unfold afibers. rewrite length_app. pose proof (concat_insert_perm _ _ _ [] Hw) as Hp.
  apply Permutation_length in Hp. rewrite !length_app in Hp. simpl in Hp. lia.
Qed.
