(* ===== verification/SchedBounded.v ===== *)
(** The schedulers with bounded run queues: the queue operations of
    [src/src/fev_sched_steal_bounded_mpmc.c], [src/src/fev_sched_steal_bounded_spmc.c]
    and [src/src/fev_sched_shr_bounded_mpmc.c] with their [_impl.h] headers,
    against the interface of [RunQueue]. *)

From S2P Require Import Prelude RunQueue SchedIntf.

Local Open Scope Z_scope.

(** [FEV_RANDOM_NEXT]. *)
Definition FEV_RANDOM_NEXT (r : Z) : Z := u32 (u64 (r * 48271) mod 2147483647).

Section bounded.
Context {Q : Type} `{RQ : RunQueue Q}.

(** [sp]: how often each compare-and-swap fails spuriously. *)
Context (steal_count : Z) (sp : nat).

(** ** Work stealing *)

Record bworker := mk_bworker { run_queue : Q; rnd : Z }.

Record bsched := mk_bsched {
  workers : list bworker;
  fallback_queue : list loc;
  fallback_queue_len : Z;
}.

Definition set_worker (s : bsched) (w : nat) (x : bworker) : bsched :=
  mk_bsched (<[w := x]> (workers s)) (fallback_queue s) (fallback_queue_len s).

Definition fev_push_one_fallback (s : bsched) (fiber : loc) : bsched :=
  mk_bsched (workers s) (fallback_queue s ++ [fiber]) (u32 (fallback_queue_len s + 1)).

Definition fev_push_stq_fallback (s : bsched) (fibers : list loc) (num_fibers : Z) : option bsched :=
  FEV_ASSERT negb (bool_decide (fibers = []));
  FEV_ASSERT (0 <? num_fibers);
  Some (mk_bsched (workers s) (fallback_queue s ++ fibers) (u32 (fallback_queue_len s + num_fibers))).

Definition fev_push_one (s : bsched) (w : nat) (fiber : loc) : option bsched :=
  x ← workers s !! w;
  '(pushed, rq) ← rq_push sp (run_queue x) fiber;
  let s := set_worker s w (mk_bworker rq (rnd x)) in
  if negb pushed then Some (fev_push_one_fallback s fiber) else Some s.

(** [num_fibers] is the length of the list in every call. *)
Definition fev_push_stq (s : bsched) (w : nat) (fibers : list loc) (num_fibers : Z) : option bsched :=
  FEV_ASSERT negb (bool_decide (fibers = []));
  FEV_ASSERT (0 <? num_fibers);
  x ← workers s !! w;
  '(n, rest, rq) ← rq_push_stq sp (run_queue x) fibers;
  let s := set_worker s w (mk_bworker rq (rnd x)) in
  if negb (n =? num_fibers) then
    FEV_ASSERT (n <? num_fibers);
    fev_push_stq_fallback s rest (u32 (num_fibers - n))
  else Some s.

(** The critical section of [fev_move_from_fallback]. *)
Definition fev_move_from_fallback (s : bsched) (w : nat) : option bsched :=
  let len := fallback_queue_len s in
  if 0 <? len then
    x ← workers s !! w;
    '(n, rest, rq) ← rq_push_stq sp (run_queue x) (fallback_queue s);
    FEV_ASSERT (n <=? len);
    let s := set_worker s w (mk_bworker rq (rnd x)) in
    Some (mk_bsched (workers s) rest (u32 (len - n)))
  else Some s.

(** The inner loop of [fev_sched_steal]: pops from the victim's queue. *)
Fixpoint steal_pops (fuel : nat) (victim_rq : Q) (num_stolen : Z) (fibers : list loc)
    : option (Q * Z * list loc) :=
  match fuel with
  | O => None
  | S fuel =>
    if num_stolen <? steal_count then
      '(popped, rq) ← rq_pop sp victim_rq;
      match popped with
      | None => Some (rq, num_stolen, fibers)
      | Some fiber => steal_pops fuel rq (u32 (num_stolen + 1)) (fibers ++ [fiber])
      end
    else Some (victim_rq, num_stolen, fibers)
  end.

(** The outer loop; [finish] puts the stolen fibers into the worker's queue. *)
Fixpoint steal_loop (finish : bsched → nat → list loc → Z → option bsched) (todo : nat)
    (s : bsched) (w : nat) (r i : Z) : option (Z * bsched) :=
  match todo with
  | O => Some (0, s)
  | S todo =>
    let v := Z.to_nat (u32 (r + i) mod Z.of_nat (length (workers s))) in
    if decide (v = w) then steal_loop finish todo s w r (i + 1)
    else
      victim ← workers s !! v;
      '(rq, num_stolen, fibers) ← steal_pops (S (Z.to_nat steal_count)) (run_queue victim) 0 [];
      let s := set_worker s v (mk_bworker rq (rnd victim)) in
      if 0 <? num_stolen then s ← finish s w fibers num_stolen; Some (num_stolen, s)
      else steal_loop finish todo s w r (i + 1)
  end.

Definition fev_sched_steal (finish : bsched → nat → list loc → Z → option bsched) (s : bsched) (w : nat)
    : option (Z * bsched) :=
  x ← workers s !! w;
  let r := FEV_RANDOM_NEXT (rnd x) in
  let s := set_worker s w (mk_bworker (run_queue x) r) in
  steal_loop finish (length (workers s)) s w r 0.

(** With the single-producer queue everything fits into the worker's queue. *)
Definition spmc_finish (s : bsched) (w : nat) (fibers : list loc) (num_stolen : Z) : option bsched :=
  x ← workers s !! w;
  '(n, _, rq) ← rq_push_stq sp (run_queue x) fibers;
  FEV_ASSERT (n =? num_stolen);
  Some (set_worker s w (mk_bworker rq (rnd x))).

Definition local_pop (w : nat) (s : bsched) : option (option loc * bsched) :=
  x ← workers s !! w;
  '(r, rq) ← rq_pop sp (run_queue x);
  Some (r, set_worker s w (mk_bworker rq (rnd x))).

Definition local_size (w : nat) (s : bsched) : option Z :=
  x ← workers s !! w; Some (rq_size (run_queue x)).

(** The test of [fallback_queue_len] in [fev_sched_work]. *)
Definition check_fallback (w : nat) (s : bsched) : option bsched :=
  if 0 <? fallback_queue_len s then fev_move_from_fallback s w else Some s.

(** [fev_sched_put]: the first worker's queue. *)
Definition fev_sched_put (fiber : loc) (s : bsched) : option bsched :=
  FEV_ASSERT (0 <? Z.of_nat (length (workers s)));
  fev_push_one s 0 fiber.

(** ** Work sharing *)

Record ssched := mk_ssched { srun_queue : Q; sfallback : list loc; sfallback_len : Z }.

Definition shr_push_one_fallback (s : ssched) (fiber : loc) : ssched :=
  mk_ssched (srun_queue s) (sfallback s ++ [fiber]) (u32 (sfallback_len s + 1)).

Definition shr_push_stq_fallback (s : ssched) (fibers : list loc) (num_fibers : Z) : option ssched :=
  FEV_ASSERT negb (bool_decide (fibers = []));
  FEV_ASSERT (0 <? num_fibers);
  Some (mk_ssched (srun_queue s) (sfallback s ++ fibers) (u32 (sfallback_len s + num_fibers))).

Definition shr_push_one (s : ssched) (fiber : loc) : option ssched :=
  '(pushed, rq) ← rq_push sp (srun_queue s) fiber;
  let s := mk_ssched rq (sfallback s) (sfallback_len s) in
  if negb pushed then Some (shr_push_one_fallback s fiber) else Some s.

Definition shr_push_stq (s : ssched) (fibers : list loc) (num_fibers : Z) : option ssched :=
  FEV_ASSERT negb (bool_decide (fibers = []));
  FEV_ASSERT (0 <? num_fibers);
  '(n, rest, rq) ← rq_push_stq sp (srun_queue s) fibers;
  let s := mk_ssched rq (sfallback s) (sfallback_len s) in
  if negb (n =? num_fibers) then
    FEV_ASSERT (n <? num_fibers);
    shr_push_stq_fallback s rest (u32 (num_fibers - n))
  else Some s.

Definition shr_move_from_fallback (s : ssched) : option ssched :=
  let len := sfallback_len s in
  if 0 <? len then
    '(n, rest, rq) ← rq_push_stq sp (srun_queue s) (sfallback s);
    FEV_ASSERT (n <=? len);
    Some (mk_ssched rq rest (u32 (len - n)))
  else Some s.

Definition shr_pop (s : ssched) : option (option loc * ssched) :=
  '(r, rq) ← rq_pop sp (srun_queue s);
  Some (r, mk_ssched rq (sfallback s) (sfallback_len s)).

Definition shr_check_fallback (s : ssched) : option ssched :=
  if 0 <? sfallback_len s then shr_move_from_fallback s else Some s.

(** ** Refinement of the abstract content *)

Definition b_repr (N : nat) (s : bsched) (a : acontent) : Prop :=
  length (workers s) = N ∧
  Forall2 (λ x l, rq_repr (run_queue x) l) (workers s) (alocals a) ∧
  fallback_queue s = aglobal a ∧ fallback_queue_len s = Z.of_nat (length (aglobal a)) ∧
  Z.of_nat (length (aglobal a)) < 2 ^ 32.

Lemma b_repr_worker N s a w :
  b_repr N s a → (w < N)%nat →
  ∃ x l, workers s !! w = Some x ∧ alocals a !! w = Some l ∧ rq_repr (run_queue x) l.
Proof.
  intros (HN & HF & _) Hw. destruct (lookup_lt_is_Some_2 (workers s) w) as [x Hx]; [lia|].
  destruct (Forall2_lookup_l _ _ _ _ _ HF Hx) as (l & Hl & Hr). eauto.
Qed.

(** Replacing the queue of one worker and the fallback queue. *)
Lemma b_repr_set N s a w rq r l' g :
  b_repr N s a → rq_repr rq l' → Z.of_nat (length g) < 2 ^ 32 →
  b_repr N (mk_bsched (<[w := mk_bworker rq r]> (workers s)) g (Z.of_nat (length g)))
    (mk_ac (<[w := l']> (alocals a)) g).
Proof.
  intros (HN & HF & _) Hr Hg. split; [simpl; by rewrite length_insert|].
  split; [|done]. simpl. by apply Forall2_insert.
Qed.

Lemma b_repr_set_worker N s a w rq r l' :
  b_repr N s a → rq_repr rq l' →
  b_repr N (set_worker s w (mk_bworker rq r)) (mk_ac (<[w := l']> (alocals a)) (aglobal a)).
Proof.
  intros Hr Hq. pose proof Hr as (_ & _ & Hf & Hlen & Hb).
  pose proof (b_repr_set N s a w rq r l' (aglobal a) Hr Hq Hb) as HR.
  unfold set_worker. by rewrite Hf, Hlen.
Qed.

(** *** Work stealing *)

Lemma b_push_one_ok N w f s a :
  (w < N)%nat → b_repr N s a → Z.of_nat (length (f :: afibers a)) < 2 ^ 32 →
  ∃ s' a', fev_push_one s w f = Some s' ∧ b_repr N s' a' ∧ afibers a' ≡ₚ f :: afibers a ∧ others_empty w a a'.
Proof.
  intros Hw Hr Hb. destruct (b_repr_worker N s a w Hr Hw) as (x & l & Hx & Hl & Hq).
  pose proof Hr as (_ & _ & Hf & Hlen & _). pose proof (length_aglobal a) as Hg. simpl in Hb.
  unfold fev_push_one. rewrite Hx. cbn [mbind option_bind].
  pose proof (rq_push_ok sp (run_queue x) l f Hq) as Hp.
  destruct (Z.of_nat (length l) <? rq_capacity).
  - destruct Hp as (q' & -> & Hq'). cbn [mbind option_bind negb].
    eexists _, _. split; [done|]. split; [by eapply b_repr_set_worker|].
    split; [|apply others_empty_insert]. change (f :: afibers a) with ([f] ++ afibers a).
    apply (afibers_insert_more _ _ l); [done|solve_Permutation].
  - rewrite Hp. cbn [mbind option_bind negb].
    eexists _, (mk_ac (<[w := l]> (alocals a)) (aglobal a ++ [f])). split; [done|].
    unfold fev_push_one_fallback, set_worker. simpl. rewrite Hf, Hlen. split.
    + replace (u32 _) with (Z.of_nat (length (aglobal a ++ [f]))).
      * apply b_repr_set; [done..|]. rewrite length_app. simpl. lia.
      * rewrite length_app, u32_small by lia. simpl. lia.
    + split; [|apply others_empty_insert]. change (f :: afibers a) with ([f] ++ afibers a).
      apply (afibers_insert_more _ _ l); [done|solve_Permutation].
Qed.

Lemma b_push_stq_ok N w fs s a :
  (w < N)%nat → b_repr N s a → fs ≠ [] → Z.of_nat (length (fs ++ afibers a)) < 2 ^ 32 →
  ∃ s' a', fev_push_stq s w fs (Z.of_nat (length fs)) = Some s' ∧ b_repr N s' a' ∧
           afibers a' ≡ₚ fs ++ afibers a ∧ others_empty w a a'.
Proof.
  intros Hw Hr Hne Hb. destruct (b_repr_worker N s a w Hr Hw) as (x & l & Hx & Hl & Hq).
  pose proof Hr as (_ & _ & Hf & Hlen & _). pose proof (length_aglobal a) as Hg. rewrite length_app in Hb.
  unfold fev_push_stq. rewrite bool_decide_false by done. simpl negb.
  assert (0 < length fs)%nat by (destruct fs; simpl; [done|lia]). rewrite (proj2 (Z.ltb_lt _ _)) by lia.
  rewrite Hx. cbn [mbind option_bind].
  destruct (rq_push_stq_ok sp (run_queue x) l fs Hq) as (q' & -> & Hq'); [lia|].
  set (j := Z.to_nat _) in *. cbn [mbind option_bind].
  destruct (Z.eqb_spec (Z.of_nat (length (take j fs))) (Z.of_nat (length fs))) as [E|E]; cbn [negb].
  - eexists _, _. split; [done|]. split; [by eapply b_repr_set_worker|]. split; [|apply others_empty_insert].
    apply (afibers_insert_more _ _ l); [done|]. rewrite length_take in E. rewrite take_ge by lia. solve_Permutation.
  - rewrite length_take in E |- *. rewrite (proj2 (Z.ltb_lt _ _)) by lia.
    unfold fev_push_stq_fallback. rewrite bool_decide_false.
    2: { intros Hd. apply (f_equal length) in Hd. rewrite length_drop in Hd. simpl in Hd. lia. }
    simpl negb. rewrite u32_small by lia. rewrite (proj2 (Z.ltb_lt 0 _)) by lia.
    eexists _, (mk_ac (<[w := l ++ take j fs]> (alocals a)) (aglobal a ++ drop j fs)). split; [done|].
    unfold set_worker. simpl. rewrite Hf, Hlen. split.
    + replace (u32 _) with (Z.of_nat (length (aglobal a ++ drop j fs))).
      * apply b_repr_set; [done..|]. rewrite length_app, length_drop. lia.
      * rewrite length_app, length_drop, u32_small by lia. lia.
    + split; [|apply others_empty_insert]. apply (afibers_insert_more _ _ l); [done|].
      rewrite <- (take_drop j fs) at 3. solve_Permutation.
Qed.

Lemma b_pop_ok N w s a :
  (w < N)%nat → b_repr N s a →
  ∃ r s' a', local_pop w s = Some (r, s') ∧ b_repr N s' a' ∧ others_empty w a a' ∧
    match r with None => afibers a' ≡ₚ afibers a | Some f => afibers a ≡ₚ f :: afibers a' end.
Proof.
  intros Hw Hr. destruct (b_repr_worker N s a w Hr Hw) as (x & l & Hx & Hl & Hq).
  unfold local_pop. rewrite Hx. cbn [mbind option_bind].
  pose proof (rq_pop_ok sp (run_queue x) l Hq) as Hp. destruct l as [|f l].
  - rewrite Hp. cbn [mbind option_bind]. eexists _, _, _. split; [done|].
    split; [by eapply b_repr_set_worker|]. split; [apply others_empty_insert|].
    apply (afibers_insert_more _ _ [] _ _ []); [done|]. simpl. done.
  - destruct Hp as (q' & -> & Hq'). cbn [mbind option_bind]. eexists _, _, _. split; [done|].
    split; [by eapply b_repr_set_worker|]. split; [apply others_empty_insert|].
    change (f :: ?l) with ([f] ++ l). apply (afibers_insert_less _ _ (f :: l)); [done|]. done.
Qed.

Lemma b_move_ok N w s a :
  (w < N)%nat → b_repr N s a → Z.of_nat (length (afibers a)) < 2 ^ 32 →
  ∃ s' a', check_fallback w s = Some s' ∧ b_repr N s' a' ∧ afibers a' ≡ₚ afibers a ∧ others_empty w a a'.
Proof.
  intros Hw Hr Hb. destruct (b_repr_worker N s a w Hr Hw) as (x & l & Hx & Hl & Hq).
  pose proof Hr as (_ & _ & Hf & Hlen & Hg). unfold check_fallback, fev_move_from_fallback.
  destruct (0 <? fallback_queue_len s) eqn:E0; [|eauto 6 using others_empty_refl].
  rewrite Hx. cbn [mbind option_bind].
  destruct (rq_push_stq_ok sp (run_queue x) l (fallback_queue s) Hq) as (q' & -> & Hq'); [by rewrite Hf|].
  set (j := Z.to_nat _) in *. cbn [mbind option_bind]. rewrite Hf, Hlen in *. rewrite length_take.
  rewrite (proj2 (Z.leb_le _ _)) by lia. unfold set_worker. simpl.
  eexists _, (mk_ac (<[w := l ++ take j (aglobal a)]> (alocals a)) (drop j (aglobal a))). split; [done|].
  split.
  - replace (u32 _) with (Z.of_nat (length (drop j (aglobal a)))).
    + apply b_repr_set; [done..|]. rewrite length_drop. lia.
    + rewrite length_drop, u32_small by lia. lia.
  - split; [|apply others_empty_insert]. apply (afibers_insert_more _ _ l _ _ []); [done|]. simpl.
    rewrite <- (take_drop j (aglobal a)) at 3. solve_Permutation.
Qed.

Lemma b_size_ok N w s a :
  (w < N)%nat → b_repr N s a → local_size w s = Some (Z.of_nat (length (alocal a w))).
Proof.
  intros Hw Hr. destruct (b_repr_worker N s a w Hr Hw) as (x & l & Hx & Hl & Hq).
  unfold local_size. rewrite Hx. simpl. by rewrite (rq_size_ok _ _ Hq), (alocal_lookup _ _ _ Hl).
Qed.

Lemma b_put_ok N f s a :
  (0 < N)%nat → b_repr N s a → Z.of_nat (length (f :: afibers a)) < 2 ^ 32 →
  ∃ s' a', fev_sched_put f s = Some s' ∧ b_repr N s' a' ∧ afibers a' ≡ₚ f :: afibers a.
Proof.
  intros HN Hr Hb. destruct (b_push_one_ok N 0 f s a HN Hr Hb) as (s' & a' & E & Hr' & Hp & _).
  exists s', a'. split; [|done]. unfold fev_sched_put. destruct Hr as (Hl & _).
  by rewrite (proj2 (Z.ltb_lt _ _)) by lia.
Qed.

Lemma steal_pops_ok fuel q l n fs :
  rq_repr q l → 0 <= n → steal_count < 2 ^ 32 → (Z.to_nat (steal_count - n) < fuel)%nat →
  let k := Z.to_nat (steal_count - n) in
  ∃ q', steal_pops fuel q n fs = Some (q', n + Z.of_nat (length (take k l)), fs ++ take k l) ∧
        rq_repr q' (drop k l).
Proof.
  revert q l n fs. induction fuel as [|fuel IH]; intros q l n fs Hq Hn Hsc Hfuel k; [lia|]. simpl.
  destruct (Z.ltb_spec n steal_count) as [Hlt|Hge].
  - pose proof (rq_pop_ok sp q l Hq) as Hp. destruct l as [|f l].
    + rewrite Hp. cbn [mbind option_bind]. exists q. rewrite take_nil, drop_nil, app_nil_r. simpl.
      by rewrite Z.add_0_r.
    + destruct Hp as (q' & -> & Hq'). cbn [mbind option_bind]. rewrite u32_small by lia.
      destruct (IH q' l (n + 1) (fs ++ [f]) Hq') as (q2 & -> & Hq2); [lia..|]. exists q2.
      unfold k. replace (Z.to_nat (steal_count - n)) with (S (Z.to_nat (steal_count - (n + 1)))) by lia.
      simpl. rewrite <- app_assoc. split; [|done].
      replace (n + Z.of_nat (S _)) with (n + 1 + Z.of_nat (length (take (Z.to_nat (steal_count - (n + 1))) l))) by lia.
      done.
  - exists q. unfold k. replace (Z.to_nat _) with O by lia. simpl. by rewrite app_nil_r, Z.add_0_r.
Qed.

(** What [finish] has to do: move the stolen fibers into the queue of [w]. *)
Definition finish_ok (N : nat) (finish : bsched → nat → list loc → Z → option bsched) : Prop :=
  ∀ w fs s a, (w < N)%nat → b_repr N s a → fs ≠ [] → Z.of_nat (length fs) <= steal_count →
    alocal a w = [] → Z.of_nat (length (fs ++ afibers a)) < 2 ^ 32 →
    ∃ s' a', finish s w fs (Z.of_nat (length fs)) = Some s' ∧ b_repr N s' a' ∧
             afibers a' ≡ₚ fs ++ afibers a ∧ others_empty w a a'.

Lemma mpmc_finish_ok N : finish_ok N fev_push_stq.
Proof. intros w fs s a Hw Hr Hne _ _ Hb. by apply b_push_stq_ok. Qed.

Lemma spmc_finish_ok N : steal_count < rq_capacity → finish_ok N spmc_finish.
Proof.
  intros Hsc w fs s a Hw Hr Hne Hlen He Hb. destruct (b_repr_worker N s a w Hr Hw) as (x & l & Hx & Hl & Hq).
  pose proof (alocal_lookup _ _ _ Hl) as El. rewrite He in El. subst l. rewrite length_app in Hb.
  unfold spmc_finish. rewrite Hx. cbn [mbind option_bind].
  destruct (rq_push_stq_ok sp (run_queue x) [] fs Hq) as (q' & -> & Hq'); [lia|]. cbn [mbind option_bind].
  simpl length in *. rewrite Z.sub_0_r in *. rewrite take_ge in * by lia. rewrite Z.eqb_refl.
  eexists _, _. split; [done|]. split; [by eapply b_repr_set_worker|]. split; [|apply others_empty_insert].
  apply (afibers_insert_more _ _ []); [done|]. simpl. done.
Qed.

Lemma steal_loop_ok N finish todo s w r i a :
  finish_ok N finish → 0 <= steal_count < 2 ^ 32 → (w < N)%nat → b_repr N s a → alocal a w = [] →
  Z.of_nat (length (afibers a)) < 2 ^ 32 →
  ∃ n s' a', steal_loop finish todo s w r i = Some (n, s') ∧ b_repr N s' a' ∧ afibers a' ≡ₚ afibers a ∧
    others_empty w a a' ∧ 0 <= n.
Proof.
  intros Hfin Hsc Hw. revert s a i. induction todo as [|todo IH]; intros s a i Hr He Hb; cbn [steal_loop].
  - exists 0, s, a. eauto using others_empty_refl with lia.
  - set (v := Z.to_nat _). destruct (decide (v = w)) as [|Hne]; [by apply IH|].
    assert (Hv : (v < N)%nat).
    { destruct Hr as (HN & _). unfold v. rewrite HN.
      pose proof (Z.mod_pos_bound (u32 (r + i)) (Z.of_nat N)). lia. }
    destruct (b_repr_worker N s a v Hr Hv) as (x & l & Hx & Hl & Hq). rewrite Hx. cbn [mbind option_bind].
    destruct (steal_pops_ok (S (Z.to_nat steal_count)) (run_queue x) l 0 [] Hq) as (q' & E & Hq'); [lia..|].
    rewrite Z.sub_0_r in *. rewrite E. clear E. cbn [mbind option_bind].
    set (k := Z.to_nat steal_count) in *. simpl app. rewrite Z.add_0_l.
    set (a1 := mk_ac (<[v := drop k l]> (alocals a)) (aglobal a)).
    assert (Hr1 : b_repr N (set_worker s v (mk_bworker q' (rnd x))) a1) by (by eapply b_repr_set_worker).
    assert (Hp1 : afibers a ≡ₚ take k l ++ afibers a1).
    { apply (afibers_insert_less _ _ l); [done|]. rewrite <- (take_drop k l) at 3. solve_Permutation. }
    assert (He1 : others_empty w a a1).
    { intros w' Hw' Hl'. unfold alocal in *. simpl. destruct (decide (w' = v)) as [->|].
      - rewrite list_lookup_insert_eq by (by eapply lookup_lt_Some). simpl. rewrite Hl in Hl'. simpl in Hl'.
        subst l. apply drop_nil.
      - by rewrite list_lookup_insert_ne by done. }
    assert (Hw1 : alocal a1 w = []).
    { unfold alocal, a1. simpl. by rewrite list_lookup_insert_ne by done. }
    pose proof (Permutation_length Hp1) as Hlen. rewrite length_app in Hlen.
    destruct (Z.ltb_spec 0 (Z.of_nat (length (take k l)))) as [Hpos|Hz].
    + destruct (Hfin w (take k l) _ a1 Hw Hr1) as (s2 & a2 & -> & Hr2 & Hp2 & He2).
      * intros E. rewrite E in Hpos. simpl in Hpos. lia.
      * rewrite length_take. lia.
      * done.
      * by rewrite <- Hp1.
      * cbn [mbind option_bind]. eexists _, s2, a2. split; [done|]. split; [done|].
        split; [by rewrite Hp2, Hp1|]. split; [by eapply others_empty_trans|]. lia.
    + assert (Ht : take k l = []) by (destruct (take k l); [done|simpl in Hz; lia]). rewrite Ht in Hp1. simpl in Hp1.
      destruct (IH _ a1 (i + 1) Hr1 Hw1) as (n & s2 & a2 & -> & Hr2 & Hp2 & He2 & Hn); [by rewrite <- Hp1|].
      exists n, s2, a2. split; [done|]. split; [done|]. split; [by rewrite Hp2, Hp1|].
      split; [by eapply others_empty_trans|done].
Qed.

Lemma b_steal_ok N finish w s a :
  finish_ok N finish → 0 <= steal_count < 2 ^ 32 → (w < N)%nat → b_repr N s a → alocal a w = [] →
  Z.of_nat (length (afibers a)) < 2 ^ 32 →
  ∃ n s' a', fev_sched_steal finish s w = Some (n, s') ∧ b_repr N s' a' ∧ afibers a' ≡ₚ afibers a ∧
    others_empty w a a' ∧ 0 <= n.
Proof.
  intros Hfin Hsc Hw Hr He Hb. destruct (b_repr_worker N s a w Hr Hw) as (x & l & Hx & Hl & Hq).
  unfold fev_sched_steal. rewrite Hx. cbn [mbind option_bind].
  apply (steal_loop_ok N); try done. pose proof (b_repr_set_worker N s a w _ (FEV_RANDOM_NEXT (rnd x)) l Hr Hq) as Hr'.
  rewrite list_insert_id in Hr' by done. by destruct a.
Qed.

(** *** Work sharing

    One shared queue behaves like the queue of a single worker. *)

Definition as_bsched (s : ssched) : bsched :=
  mk_bsched [mk_bworker (srun_queue s) 0] (sfallback s) (sfallback_len s).

Lemma as_push_one s f : fev_push_one (as_bsched s) 0 f = as_bsched <$> shr_push_one s f.
Proof.
  unfold fev_push_one, shr_push_one. simpl. destruct (rq_push _ _ _) as [[[] rq]|]; done.
Qed.

Lemma as_push_stq s fs n : fev_push_stq (as_bsched s) 0 fs n = as_bsched <$> shr_push_stq s fs n.
Proof.
  unfold fev_push_stq, shr_push_stq. simpl. destruct (negb _), (0 <? n); try done.
  destruct (rq_push_stq _ _ _) as [[[m rest] rq]|]; [|done]. simpl.
  destruct (m =? n); [done|]. simpl. destruct (m <? n); [|done].
  unfold fev_push_stq_fallback, shr_push_stq_fallback. destruct (negb _); [|done].
  by destruct (0 <? u32 _).
Qed.

Lemma as_move s : check_fallback 0 (as_bsched s) = as_bsched <$> shr_check_fallback s.
Proof.
  unfold check_fallback, shr_check_fallback, fev_move_from_fallback, shr_move_from_fallback. simpl.
  destruct (0 <? _); [|done]. destruct (rq_push_stq _ _ _) as [[[m rest] rq]|]; [|done]. simpl.
  by destruct (m <=? _).
Qed.

Lemma as_pop s : local_pop 0 (as_bsched s) = prod_map id as_bsched <$> shr_pop s.
Proof. unfold local_pop, shr_pop. simpl. by destruct (rq_pop _ _) as [[r rq]|]. Qed.

Definition s_repr (s : ssched) (a : acontent) : Prop := b_repr 1 (as_bsched s) a.

Lemma s_push_one_ok f s a :
  s_repr s a → Z.of_nat (length (f :: afibers a)) < 2 ^ 32 →
  ∃ s' a', shr_push_one s f = Some s' ∧ s_repr s' a' ∧ afibers a' ≡ₚ f :: afibers a.
Proof.
  intros Hr Hb. destruct (b_push_one_ok 1 0 f _ a ltac:(lia) Hr Hb) as (s' & a' & E & Hr' & Hp & _).
  rewrite as_push_one in E. apply fmap_Some in E as (s1 & E & ->). eauto.
Qed.

Lemma s_push_stq_ok fs s a :
  s_repr s a → fs ≠ [] → Z.of_nat (length (fs ++ afibers a)) < 2 ^ 32 →
  ∃ s' a', shr_push_stq s fs (Z.of_nat (length fs)) = Some s' ∧ s_repr s' a' ∧ afibers a' ≡ₚ fs ++ afibers a.
Proof.
  intros Hr Hne Hb. destruct (b_push_stq_ok 1 0 fs _ a ltac:(lia) Hr Hne Hb) as (s' & a' & E & Hr' & Hp & _).
  rewrite as_push_stq in E. apply fmap_Some in E as (s1 & E & ->). eauto.
Qed.

Lemma s_move_ok s a :
  s_repr s a → Z.of_nat (length (afibers a)) < 2 ^ 32 →
  ∃ s' a', shr_check_fallback s = Some s' ∧ s_repr s' a' ∧ afibers a' ≡ₚ afibers a.
Proof.
  intros Hr Hb. destruct (b_move_ok 1 0 _ a ltac:(lia) Hr Hb) as (s' & a' & E & Hr' & Hp & _).
  rewrite as_move in E. apply fmap_Some in E as (s1 & E & ->). eauto.
Qed.

Lemma s_pop_ok s a :
  s_repr s a →
  ∃ r s' a', shr_pop s = Some (r, s') ∧ s_repr s' a' ∧
    match r with None => afibers a' ≡ₚ afibers a | Some f => afibers a ≡ₚ f :: afibers a' end.
Proof.
  intros Hr. destruct (b_pop_ok 1 0 _ a ltac:(lia) Hr) as (r & s' & a' & E & Hr' & _ & Hp).
  rewrite as_pop in E. apply fmap_Some in E as ([r1 s1] & E & E2). simplify_eq/=. eauto 6.
Qed.
End bounded.

Arguments bsched : clear implicits.
Arguments ssched : clear implicits.

(** ** The three schedulers *)

Section instances.
Context (k steal_count : Z) (sp : nat).

(** *** Work stealing with the multi-producer queue *)

Definition mpmc_sched_steal : bsched fev_bounded_mpmc_queue → nat → option (Z * bsched fev_bounded_mpmc_queue) :=
  fev_sched_steal (Ops := mpmc_ops k) steal_count sp (fev_push_stq (Ops := mpmc_ops k) sp).

#[export] Instance steal_mpmc : SchedQueue (bsched fev_bounded_mpmc_queue) := {|
  sq_stealing := true;
  sq_push_one w f s := fev_push_one (Ops := mpmc_ops k) sp s w f;
  sq_push_stq w fs s := fev_push_stq (Ops := mpmc_ops k) sp s w fs (Z.of_nat (length fs));
  sq_pop := local_pop (Ops := mpmc_ops k) sp;
  sq_move := check_fallback (Ops := mpmc_ops k) sp;
  sq_size := local_size (Ops := mpmc_ops k);
  sq_steal w s := mpmc_sched_steal s w;
  sq_put := fev_sched_put (Ops := mpmc_ops k) sp;
|}.

(** *** Work stealing with the single-producer queue *)

Definition spmc_push_one_fallback : bsched fev_bounded_spmc_queue → loc → bsched fev_bounded_spmc_queue := fev_push_one_fallback.
Definition spmc_push_stq_fallback : bsched fev_bounded_spmc_queue → list loc → Z → option (bsched fev_bounded_spmc_queue) :=
  fev_push_stq_fallback.
Definition spmc_push_one := fev_push_one (Ops := spmc_ops k) sp.
Definition spmc_push_stq := fev_push_stq (Ops := spmc_ops k) sp.
Definition spmc_move_from_fallback := fev_move_from_fallback (Ops := spmc_ops k) sp.
Definition spmc_check_fallback (w : nat) (s : bsched fev_bounded_spmc_queue) :=
  if 0 <? fallback_queue_len s then spmc_move_from_fallback s w else Some s.
Definition spmc_sched_steal : bsched fev_bounded_spmc_queue → nat → option (Z * bsched fev_bounded_spmc_queue) :=
  fev_sched_steal (Ops := spmc_ops k) steal_count sp (spmc_finish (Ops := spmc_ops k) sp).
Definition spmc_pop := local_pop (Ops := spmc_ops k) sp.
Definition spmc_size := local_size (Ops := spmc_ops k).
Definition spmc_sched_put (fiber : loc) (s : bsched fev_bounded_spmc_queue) :=
  FEV_ASSERT (0 <? Z.of_nat (length (workers s)));
  spmc_push_one s 0 fiber.

#[export] Instance steal_spmc : SchedQueue (bsched fev_bounded_spmc_queue) := {|
  sq_stealing := true;
  sq_push_one w f s := spmc_push_one s w f;
  sq_push_stq w fs s := spmc_push_stq s w fs (Z.of_nat (length fs));
  sq_pop := spmc_pop;
  sq_move := spmc_check_fallback;
  sq_size := spmc_size;
  sq_steal w s := spmc_sched_steal s w;
  sq_put := spmc_sched_put;
|}.

(** *** Work sharing with the multi-producer queue *)

Context (N : nat).

(** [fev_sched_put]: 'sched' is initialised, so there are workers. *)
Definition shr_sched_put (fiber : loc) (s : ssched fev_bounded_mpmc_queue) :=
  FEV_ASSERT (0 <? Z.of_nat N);
  shr_push_one (Ops := mpmc_ops k) sp s fiber.

#[export] Instance shr_mpmc : SchedQueue (ssched fev_bounded_mpmc_queue) := {|
  sq_stealing := false;
  sq_push_one _ f s := shr_push_one (Ops := mpmc_ops k) sp s f;
  sq_push_stq _ fs s := shr_push_stq (Ops := mpmc_ops k) sp s fs (Z.of_nat (length fs));
  sq_pop _ s := shr_pop (Ops := mpmc_ops k) sp s;
  sq_move _ s := shr_check_fallback (Ops := mpmc_ops k) sp s;
  sq_size _ _ := None;
  sq_steal _ _ := None;
  sq_put := shr_sched_put;
|}.

Context (Hk : 1 <= k <= 31) (Hsc : 0 <= steal_count < 2 ^ k).

Lemma steal_count_small : 0 <= steal_count < 2 ^ 32.
Proof using Hk Hsc. pose proof (cap_range k Hk). lia. Qed.

#[export] Instance steal_mpmc_spec : SchedQueueSpec (bsched fev_bounded_mpmc_queue) N.
Proof using Hk Hsc.
  pose proof steal_count_small.
  refine {| sq_repr := b_repr (RQ := mpmc_run_queue k Hk) N |}; intros; simpl.
  - by apply b_push_one_ok.
  - by apply b_push_stq_ok.
  - by apply b_pop_ok.
  - by apply b_move_ok.
  - by apply (b_size_ok (RQ := mpmc_run_queue k Hk) N).
  - apply (b_steal_ok (RQ := mpmc_run_queue k Hk)); try done. apply mpmc_finish_ok.
  - by apply b_put_ok.
Defined.

#[export] Instance steal_spmc_spec : SchedQueueSpec (bsched fev_bounded_spmc_queue) N.
Proof using Hk Hsc.
  pose proof steal_count_small.
  refine {| sq_repr := b_repr (RQ := spmc_run_queue k Hk) N |}; intros; simpl.
  - by apply b_push_one_ok.
  - by apply b_push_stq_ok.
  - by apply b_pop_ok.
  - by apply b_move_ok.
  - by apply (b_size_ok (RQ := spmc_run_queue k Hk) N).
  - apply (b_steal_ok (RQ := spmc_run_queue k Hk)); try done. apply spmc_finish_ok. simpl. lia.
  - by apply b_put_ok.
Defined.

#[export] Instance shr_mpmc_spec : SchedQueueSpec (ssched fev_bounded_mpmc_queue) N.
Proof using Hk.
  refine {| sq_repr := shared_repr (s_repr (RQ := mpmc_run_queue k Hk)) |}; intros; simpl; try done.
  all: match goal with H : shared_repr _ _ _ |- _ => destruct H as (Hl & a0 & Hr & E) end.
  all: match goal with a : acontent |- _ => destruct a as [la ga]; simpl in Hl, E; subst la ga end.
  - edestruct (s_push_one_ok (RQ := mpmc_run_queue k Hk)) as (s' & a' & -> & Hr' & Hp); [done|done|].
    eexists _, _. split; [done|]. split; [by apply shared_intro|]. split; [exact Hp|apply others_empty_shared].
  - edestruct (s_push_stq_ok (RQ := mpmc_run_queue k Hk)) as (s' & a' & -> & Hr' & Hp); [done|done|done|].
    eexists _, _. split; [done|]. split; [by apply shared_intro|]. split; [exact Hp|apply others_empty_shared].
  - edestruct (s_pop_ok (RQ := mpmc_run_queue k Hk)) as (r & s' & a' & -> & Hr' & Hp); [done|].
    eexists _, _, _. split; [done|]. split; [by apply shared_intro|]. split; [apply others_empty_shared|].
    destruct r; exact Hp.
  - edestruct (s_move_ok (RQ := mpmc_run_queue k Hk)) as (s' & a' & -> & Hr' & Hp); [done|done|].
    eexists _, _. split; [done|]. split; [by apply shared_intro|]. split; [exact Hp|apply others_empty_shared].
  - unfold shr_sched_put. rewrite (proj2 (Z.ltb_lt 0 (Z.of_nat N))) by lia.
    edestruct (s_push_one_ok (RQ := mpmc_run_queue k Hk)) as (s' & a' & -> & Hr' & Hp); [done|done|].
    eexists _, _. split; [done|]. split; [by apply shared_intro|exact Hp].
Defined.
End instances.
