(* ===== verification/SchedLocking.v ===== *)
(** The schedulers with locked run queues: the queue operations of
    [src/src/fev_sched_steal_locking.c] and [src/src/fev_sched_shr_locking.c]
    with their [_impl.h] headers. Every operation is one critical section of
    the lock of a run queue. *)

From S2P Require Import Prelude SchedIntf SchedBounded.

Local Open Scope Z_scope.

(** ** Work stealing *)

Record fev_sched_run_queue := mk_rq { head : list loc; size : Z }.
Record lworker := mk_lworker { lrun_queue : fev_sched_run_queue; lrnd : Z }.
Abbreviation lsched := (list lworker).

Definition set_queue (s : lsched) (w : nat) (x : lworker) (rq : fev_sched_run_queue) : lsched :=
  <[w := mk_lworker rq (lrnd x)]> s.

Definition fev_push_one (s : lsched) (w : nat) (fiber : loc) : option lsched :=
  x ← s !! w;
  let rq := lrun_queue x in
  Some (set_queue s w x (mk_rq (head rq ++ [fiber]) (u32 (size rq + 1)))).

Definition fev_push_stq (s : lsched) (w : nat) (fibers : list loc) (num_fibers : Z) : option lsched :=
  FEV_ASSERT negb (bool_decide (fibers = []));
  FEV_ASSERT (0 <? num_fibers);
  x ← s !! w;
  let rq := lrun_queue x in
  Some (set_queue s w x (mk_rq (head rq ++ fibers) (u32 (size rq + num_fibers)))).

(** [get_local]. *)
Definition get_local (w : nat) (s : lsched) : option (option loc * lsched) :=
  x ← s !! w;
  let rq := lrun_queue x in
  match head rq with
  | [] => Some (None, s)
  | cur_fiber :: rest =>
      FEV_ASSERT (0 <? size rq);
      Some (Some cur_fiber, set_queue s w x (mk_rq rest (u32 (size rq - 1))))
  end.

Definition queue_size (w : nat) (s : lsched) : option Z := x ← s !! w; Some (size (lrun_queue x)).

Section steal.
Context (steal_count : Z).

(** The [while] loop over the victim's list: the stolen fibers, the first fiber
    that is not stolen with the rest, and the number. *)
Fixpoint walk (cur : list loc) (num_stolen : Z) : list loc * list loc * Z :=
  match cur with
  | [] => ([], [], num_stolen)
  | f :: next =>
      if num_stolen <? steal_count then
        let '(stolen, rest, n) := walk next (u32 (num_stolen + 1)) in (f :: stolen, rest, n)
      else ([], cur, num_stolen)
  end.

Fixpoint steal_loop (todo : nat) (s : lsched) (w : nat) (r i : Z) : option (Z * lsched) :=
  match todo with
  | O => Some (0, s)
  | S todo =>
    let v := Z.to_nat (u32 (r + i) mod Z.of_nat (length s)) in
    if decide (v = w) then steal_loop todo s w r (i + 1)
    else
      victim ← s !! v;
      let victim_rq := lrun_queue victim in
      let '(stolen, rest, num_stolen) := walk (head victim_rq) 0 in
      FEV_ASSERT (num_stolen <=? size victim_rq);
      let s := set_queue s v victim (mk_rq rest (u32 (size victim_rq - num_stolen))) in
      if 0 <? num_stolen then
        x ← s !! w;
        let rq := lrun_queue x in
        FEV_ASSERT negb (bool_decide (stolen = []));
        FEV_ASSERT bool_decide (head rq = []);
        FEV_ASSERT (size rq =? 0);
        Some (num_stolen, set_queue s w x (mk_rq stolen num_stolen))
      else steal_loop todo s w r (i + 1)
  end.

Definition fev_sched_steal (w : nat) (s : lsched) : option (Z * lsched) :=
  x ← s !! w;
  let r := FEV_RANDOM_NEXT (lrnd x) in
  let s := <[w := mk_lworker (lrun_queue x) r]> s in
  steal_loop (length s) s w r 0.
End steal.

(** [fev_sched_put]: the first worker's queue, without the lock. *)
Definition fev_sched_put (fiber : loc) (s : lsched) : option lsched :=
  FEV_ASSERT (0 <? Z.of_nat (length s));
  x ← s !! 0%nat;
  let rq := lrun_queue x in
  Some (set_queue s 0 x (mk_rq (head rq ++ [fiber]) (u32 (size rq + 1)))).

#[export] Instance steal_locking (steal_count : Z) : SchedQueue lsched := {|
  sq_stealing := true;
  sq_push_one w f s := fev_push_one s w f;
  sq_push_stq w fs s := fev_push_stq s w fs (Z.of_nat (length fs));
  sq_pop := get_local;
  sq_move _ s := Some s;
  sq_size := queue_size;
  sq_steal := fev_sched_steal steal_count;
  sq_put := fev_sched_put;
|}.

(** ** Work sharing: the queue is a list *)

Definition shr_push_one (run_queue : list loc) (fiber : loc) : list loc := run_queue ++ [fiber].

Definition shr_push_stq (run_queue fibers : list loc) (num_fibers : Z) : option (list loc) :=
  FEV_ASSERT negb (bool_decide (fibers = []));
  FEV_ASSERT (0 <? num_fibers);
  Some (run_queue ++ fibers).

(** [get_fiber]. *)
Definition shr_get_fiber (run_queue : list loc) : option loc * list loc :=
  match run_queue with
  | [] => (None, [])
  | cur_fiber :: rest => (Some cur_fiber, rest)
  end.

(** [fev_sched_put] inserts at the head. *)
Definition shr_sched_put (fiber : loc) (run_queue : list loc) : list loc := fiber :: run_queue.

#[export] Instance shr_locking : SchedQueue (list loc) := {|
  sq_stealing := false;
  sq_push_one _ f s := Some (shr_push_one s f);
  sq_push_stq _ fs s := shr_push_stq s fs (Z.of_nat (length fs));
  sq_pop _ s := Some (shr_get_fiber s);
  sq_move _ s := Some s;
  sq_size _ _ := None;
  sq_steal _ _ := None;
  sq_put f s := Some (shr_sched_put f s);
|}.

(** ** Refinement *)

Definition rq_ok (x : lworker) (l : list loc) : Prop :=
  head (lrun_queue x) = l ∧ size (lrun_queue x) = Z.of_nat (length l) ∧ Z.of_nat (length l) < 2 ^ 32.

Definition l_repr (N : nat) (s : lsched) (a : acontent) : Prop :=
  length s = N ∧ Forall2 rq_ok s (alocals a) ∧ aglobal a = [].

Lemma l_repr_worker N s a w :
  l_repr N s a → (w < N)%nat → ∃ x l, s !! w = Some x ∧ alocals a !! w = Some l ∧ rq_ok x l.
Proof.
  intros (HN & HF & _) Hw. destruct (lookup_lt_is_Some_2 s w) as [x Hx]; [lia|].
  destruct (Forall2_lookup_l _ _ _ _ _ HF Hx) as (l & Hl & Hr). eauto.
Qed.

Lemma l_repr_set N s a w x l' :
  l_repr N s a → Z.of_nat (length l') < 2 ^ 32 →
  l_repr N (set_queue s w x (mk_rq l' (Z.of_nat (length l')))) (mk_ac (<[w := l']> (alocals a)) []).
Proof.
  intros (HN & HF & Hg) Hl. split; [unfold set_queue; by rewrite length_insert|]. split; [|done].
  apply Forall2_insert; [done|]. done.
Qed.

Lemma l_push_one_ok N w f s a :
  (w < N)%nat → l_repr N s a → Z.of_nat (length (f :: afibers a)) < 2 ^ 32 →
  ∃ s' a', fev_push_one s w f = Some s' ∧ l_repr N s' a' ∧ afibers a' ≡ₚ f :: afibers a ∧ others_empty w a a'.
Proof.
  intros Hw Hr Hb. destruct (l_repr_worker N s a w Hr Hw) as (x & l & Hx & Hl & Hh & Hs & Hl32).
  pose proof (length_alocal _ _ _ Hl). simpl in Hb.
  unfold fev_push_one. rewrite Hx. cbn [mbind option_bind]. rewrite Hh, Hs.
  replace (u32 (Z.of_nat (length l) + 1)) with (Z.of_nat (length (l ++ [f])))
    by (rewrite length_app, u32_small by lia; simpl; lia).
  eexists _, _. split; [done|]. split; [apply l_repr_set; [done|rewrite length_app; simpl; lia]|].
  split; [|apply others_empty_insert]. change (f :: afibers a) with ([f] ++ afibers a).
  destruct Hr as (_ & _ & Hg). apply (afibers_insert_more _ _ l); [done|]. rewrite Hg. solve_Permutation.
Qed.

Lemma l_push_stq_ok N w fs s a :
  (w < N)%nat → l_repr N s a → fs ≠ [] → Z.of_nat (length (fs ++ afibers a)) < 2 ^ 32 →
  ∃ s' a', fev_push_stq s w fs (Z.of_nat (length fs)) = Some s' ∧ l_repr N s' a' ∧
    afibers a' ≡ₚ fs ++ afibers a ∧ others_empty w a a'.
Proof.
  intros Hw Hr Hne Hb. destruct (l_repr_worker N s a w Hr Hw) as (x & l & Hx & Hl & Hh & Hs & Hl32).
  pose proof (length_alocal _ _ _ Hl). rewrite length_app in Hb.
  assert (0 < length fs)%nat by (destruct fs; [done|simpl; lia]).
  unfold fev_push_stq. rewrite bool_decide_false by done. simpl negb. rewrite (proj2 (Z.ltb_lt 0 _)) by lia.
  rewrite Hx. cbn [mbind option_bind]. rewrite Hh, Hs.
  replace (u32 (Z.of_nat (length l) + Z.of_nat (length fs))) with (Z.of_nat (length (l ++ fs)))
    by (rewrite length_app, u32_small by lia; lia).
  eexists _, _. split; [done|]. split; [apply l_repr_set; [done|rewrite length_app; lia]|].
  split; [|apply others_empty_insert].
  destruct Hr as (_ & _ & Hg). apply (afibers_insert_more _ _ l); [done|]. rewrite Hg. solve_Permutation.
Qed.

Lemma l_pop_ok N w s a :
  (w < N)%nat → l_repr N s a →
  ∃ r s' a', get_local w s = Some (r, s') ∧ l_repr N s' a' ∧ others_empty w a a' ∧
    match r with None => afibers a' ≡ₚ afibers a | Some f => afibers a ≡ₚ f :: afibers a' end.
Proof.
  intros Hw Hr. destruct (l_repr_worker N s a w Hr Hw) as (x & l & Hx & Hl & Hh & Hs & Hl32).
  unfold get_local. rewrite Hx. cbn [mbind option_bind]. rewrite Hh, Hs. destruct l as [|f l].
  - eexists _, s, a. split; [done|]. by eauto using others_empty_refl.
  - simpl length in *. rewrite (proj2 (Z.ltb_lt 0 _)) by lia.
    replace (u32 (Z.of_nat (S (length l)) - 1)) with (Z.of_nat (length l)) by (rewrite u32_small; lia).
    eexists _, _, _. split; [done|]. split; [apply l_repr_set; [done|lia]|]. split; [apply others_empty_insert|].
    change (f :: ?l) with ([f] ++ l). destruct Hr as (_ & _ & Hg).
    apply (afibers_insert_less _ _ (f :: l)); [done|]. by rewrite Hg.
Qed.

Lemma walk_ok c l n :
  0 <= n → n + Z.of_nat (length l) < 2 ^ 32 →
  let k := Z.to_nat (c - n) in
  walk c l n = (take k l, drop k l, n + Z.of_nat (length (take k l))).
Proof.
  revert n. induction l as [|f l IH]; intros n Hn Hb k; simpl.
  - by rewrite take_nil, drop_nil, Z.add_0_r.
  - simpl length in Hb. destruct (Z.ltb_spec n c).
    + rewrite u32_small by lia. rewrite IH by lia. unfold k.
      replace (Z.to_nat (c - n)) with (S (Z.to_nat (c - (n + 1)))) by lia. simpl.
      replace (n + Z.of_nat (S _)) with (n + 1 + Z.of_nat (length (take (Z.to_nat (c - (n + 1))) l))) by lia.
      done.
    + unfold k. replace (Z.to_nat (c - n)) with O by lia. simpl. by rewrite Z.add_0_r.
Qed.

Lemma l_steal_loop_ok N c todo s w r i a :
  (w < N)%nat → l_repr N s a → alocal a w = [] →
  ∃ n s' a', steal_loop c todo s w r i = Some (n, s') ∧ l_repr N s' a' ∧ afibers a' ≡ₚ afibers a ∧
    others_empty w a a' ∧ 0 <= n.
Proof.
  intros Hw. revert s a i. induction todo as [|todo IH]; intros s a i Hr He; cbn [steal_loop].
  - exists 0, s, a. eauto using others_empty_refl with lia.
  - set (v := Z.to_nat _). destruct (decide (v = w)) as [|Hne]; [by apply IH|].
    assert (Hv : (v < N)%nat).
    { destruct Hr as (HN & _). unfold v. rewrite HN.
      pose proof (Z.mod_pos_bound (u32 (r + i)) (Z.of_nat N)). lia. }
    destruct (l_repr_worker N s a v Hr Hv) as (x & l & Hx & Hl & Hh & Hs & Hl32). rewrite Hx.
    cbn [mbind option_bind]. rewrite Hh, walk_ok by lia. rewrite Z.sub_0_r, Hs, Z.add_0_l.
    set (k := Z.to_nat c). rewrite (proj2 (Z.leb_le _ _)) by (rewrite length_take; lia).
    replace (u32 _) with (Z.of_nat (length (drop k l)))
      by (rewrite length_drop, length_take, u32_small by lia; lia).
    set (a1 := mk_ac (<[v := drop k l]> (alocals a)) []).
    assert (Hr1 : l_repr N (set_queue s v x (mk_rq (drop k l) (Z.of_nat (length (drop k l))))) a1).
    { apply l_repr_set; [done|]. rewrite length_drop. lia. }
    pose proof Hr as (_ & _ & Hg).
    assert (Hp1 : afibers a ≡ₚ take k l ++ afibers a1).
    { apply (afibers_insert_less _ _ l); [done|]. rewrite Hg, !app_nil_r. by rewrite take_drop. }
    assert (He1 : others_empty w a a1).
    { intros w' Hw' Hl'. unfold alocal in *. simpl. destruct (decide (w' = v)) as [->|].
      - rewrite list_lookup_insert_eq by (by eapply lookup_lt_Some). simpl. rewrite Hl in Hl'. simpl in Hl'.
        rewrite Hl'. apply drop_nil.
      - by rewrite list_lookup_insert_ne by done. }
    assert (Hw1 : alocal a1 w = []) by (unfold alocal, a1; simpl; by rewrite list_lookup_insert_ne).
    destruct (Z.ltb_spec 0 (Z.of_nat (length (take k l)))) as [Hpos|Hz].
    + destruct (l_repr_worker N _ a1 w Hr1 Hw) as (y & ly & Hy & Hly & Hhy & Hsy & _). rewrite Hy.
      rewrite (alocal_lookup _ _ _ Hly) in Hw1. subst ly. cbn [mbind option_bind]. rewrite Hhy, Hsy.
      rewrite bool_decide_false by (intros E; rewrite E in Hpos; simpl in Hpos; lia). simpl.
      eexists _, _, _. split; [done|]. split; [apply l_repr_set; [done|rewrite length_take; lia]|].
      split; [|split; [eapply others_empty_trans; [done|apply others_empty_insert]|lia]].
      rewrite Hp1. apply (afibers_insert_more _ _ []); [done|]. simpl. by rewrite app_nil_r.
    + assert (Ht : take k l = []) by (destruct (take k l); [done|simpl in Hz; lia]). rewrite Ht in Hp1. simpl in Hp1.
      destruct (IH _ a1 (i + 1) Hr1 Hw1) as (n & s2 & a2 & -> & Hr2 & Hp2 & He2 & Hn).
      exists n, s2, a2. split; [done|]. split; [done|]. split; [by rewrite Hp2, Hp1|].
      split; [by eapply others_empty_trans|done].
Qed.

#[export] Instance steal_locking_spec c N : SchedQueueSpec (H := steal_locking c) lsched N.
Proof.
  refine {| sq_repr := l_repr N |}; intros; simpl.
  - by apply l_push_one_ok.
  - by apply l_push_stq_ok.
  - by apply l_pop_ok.
  - eexists _, a. split; [done|]. by eauto using others_empty_refl.
  - destruct (l_repr_worker N q a w) as (x & l & Hx & Hl & Hh & Hs & _); [done..|].
    unfold queue_size. rewrite Hx. simpl. by rewrite Hs, (alocal_lookup _ _ _ Hl).
  - destruct (l_repr_worker N q a w) as (x & l & Hx & Hl & Hh & Hs & Hl32); [done..|].
    unfold fev_sched_steal. rewrite Hx. cbn [mbind option_bind]. apply (l_steal_loop_ok N); [done| |done].
    match goal with H : l_repr _ _ _ |- _ => destruct H as (HN & HF & Hg) end. split; [by rewrite length_insert|]. split; [|done].
    rewrite <- (list_insert_id (alocals a) w l) by done. by apply Forall2_insert.
  - destruct (l_push_one_ok N 0 f q a) as (s' & a' & E & Hr' & Hp & _); [done..|]. exists s', a'.
    split; [|done]. unfold fev_sched_put.
    match goal with H : l_repr N q a |- _ => destruct H as (HN & _) end.
    rewrite (proj2 (Z.ltb_lt 0 _)) by lia. exact E.
Defined.

#[export] Instance shr_locking_spec N : SchedQueueSpec (list loc) N.
Proof.
  refine {| sq_repr := shared_repr (λ s a, afibers a = s) |}; intros; simpl; try done.
  all: match goal with H : shared_repr _ _ _ |- _ => destruct H as (Hl & a0 & Hr & E) end.
  all: match goal with a : acontent |- _ => destruct a as [la ga]; simpl in Hl, E; subst la ga end.
  all: try match goal with q : list loc |- _ => subst q end.
  - eexists _, (mk_ac [] (afibers (mk_ac [] (afibers a0 ++ [f])))). split; [done|].
    split; [by apply (shared_intro (λ s a, afibers a = s))|]. split; [|by intros ? _ _].
    unfold afibers. simpl. solve_Permutation.
  - unfold shr_push_stq. rewrite bool_decide_false by done. simpl negb.
    assert (0 < length fs)%nat by (destruct fs; [done|simpl; lia]). rewrite (proj2 (Z.ltb_lt 0 _)) by lia.
    eexists _, (mk_ac [] (afibers (mk_ac [] (afibers a0 ++ fs)))). split; [done|].
    split; [by apply (shared_intro (λ s a, afibers a = s))|]. split; [|by intros ? _ _].
    unfold afibers. simpl. solve_Permutation.
  - destruct (afibers a0) as [|f rest] eqn:E; simpl.
    + eexists _, _, (mk_ac [] (afibers (mk_ac [] []))). split; [done|].
      split; [by apply (shared_intro (λ s a, afibers a = s))|]. split; [by intros ? _ _|done].
    + eexists _, _, (mk_ac [] (afibers (mk_ac [] rest))). split; [done|].
      split; [by apply (shared_intro (λ s a, afibers a = s))|]. split; [by intros ? _ _|done].
  - eexists _, (mk_ac [] (afibers a0)). split; [done|].
    split; [by apply (shared_intro (λ s a, afibers a = s))|]. split; [done|by intros ? _ _].
  - eexists _, (mk_ac [] (afibers (mk_ac [] (f :: afibers a0)))). split; [done|].
    split; [by apply (shared_intro (λ s a, afibers a = s))|]. done.
Defined.
