(* ===== verification/Lists.v ===== *)
(** The linked lists of [src/third_party/queue.h] that hold fibers and waiters, with pointers.

    Elsewhere in this development a list is a Rocq list. This file models the macros the library uses, and the places where it
    splices lists with assignments of its own, on a memory with the link fields, and proves that they do to the linked lists
    what the models of the other files do to lists. *)

From S2P Require Import Prelude WaitersQueue RunQueue SchedIntf SchedBounded SchedLocking.

Local Open Scope Z_scope.

(** ** Memory *)

(** Where a pointer to an element is stored: [inl h] is the field [stqh_first] (or [tqh_first]) of the head [h], [inr e] the field
    [stqe_next] (or [tqe_next]) of the element [e]. *)
Abbreviation cell := (loc + loc)%type.

(** [cells]: what is stored there ([None] is [NULL]); [lasts]: the fields [stqh_last] of the heads, [prevs]: the fields [tqe_prev]
    of the elements, which both hold the address of a cell. A field that is not in the map is not allocated. *)
Record lmem := mk_lmem { cells : gmap cell (option loc); lasts : gmap loc cell; prevs : gmap loc cell }.

(** Stores. *)
Definition store (m : lmem) (c : cell) (v : option loc) : option lmem :=
  _ ← cells m !! c; Some (mk_lmem (<[c := v]> (cells m)) (lasts m) (prevs m)).
Definition set_last (m : lmem) (h : loc) (c : cell) : option lmem :=
  _ ← lasts m !! h; Some (mk_lmem (cells m) (<[h := c]> (lasts m)) (prevs m)).
Definition set_prev (m : lmem) (e : loc) (c : cell) : option lmem :=
  _ ← prevs m !! e; Some (mk_lmem (cells m) (lasts m) (<[e := c]> (prevs m))).

(** ** Singly-linked tail queues *)

Definition STAILQ_INIT (m : lmem) (h : loc) : option lmem :=
  m ← store m (inl h) None;
  set_last m h (inl h).

Definition STAILQ_FIRST (m : lmem) (h : loc) : option (option loc) := cells m !! (inl h : cell).
Definition STAILQ_NEXT (m : lmem) (e : loc) : option (option loc) := cells m !! (inr e : cell).
Definition STAILQ_EMPTY (m : lmem) (h : loc) : option bool := f ← STAILQ_FIRST m h; Some (bool_decide (f = None)).

Definition STAILQ_INSERT_HEAD (m : lmem) (h e : loc) : option lmem :=
  f ← STAILQ_FIRST m h;
  m ← store m (inr e) f;
  m ← (if decide (f = None) then set_last m h (inr e) else Some m);
  store m (inl h) (Some e).

Definition STAILQ_INSERT_TAIL (m : lmem) (h e : loc) : option lmem :=
  m ← store m (inr e) None;
  l ← lasts m !! h;
  m ← store m l (Some e);
  set_last m h (inr e).

Definition STAILQ_REMOVE_HEAD (m : lmem) (h : loc) : option lmem :=
  f ← STAILQ_FIRST m h;
  x ← f;
  n ← STAILQ_NEXT m x;
  m ← store m (inl h) n;
  if decide (n = None) then set_last m h (inl h) else Some m.

(** ** What the schedulers and the ilock do with them *)

(** [get_local], [get_fiber]: take the first fiber of a run queue. *)
Definition pop_fiber (m : lmem) (h : loc) : option (option loc * lmem) :=
  f ← STAILQ_FIRST m h;
  match f with
  | None => Some (None, m)
  | Some x => m ← STAILQ_REMOVE_HEAD m h; Some (Some x, m)
  end.

(** [fev_ilock_unlock_slow]: the first waiter, and whether it was the last one. *)
Definition ilock_pop (m : lmem) (h : loc) : option (loc * bool * lmem) :=
  f ← STAILQ_FIRST m h;
  fiber ← f;
  n ← STAILQ_NEXT m fiber;
  m ← store m (inl h) n;
  if decide (n = None) then m ← set_last m h (inl h); Some (fiber, true, m) else Some (fiber, false, m).

(** [fev_push_stq], [fev_push_stq_fallback]: [fibers] is the head of a list that is not used afterwards. *)
Definition push_stq (m : lmem) (q fibers : loc) : option lmem :=
  first ← STAILQ_FIRST m fibers;
  last ← lasts m !! fibers;
  FEV_ASSERT negb (bool_decide (first = None));
  l ← lasts m !! q;
  m ← store m l first;
  set_last m q last.

(** The list begins at [cur], or is empty. *)
Definition cut (m : lmem) (h : loc) (cur : option loc) : option lmem :=
  match cur with Some _ => store m (inl h) cur | None => STAILQ_INIT m h end.

Section steal.
Context (steal_count : Z).

(** The loop of [fev_sched_steal] over the list of the victim: [cur], [last] and [num_stolen] after it. *)
Fixpoint steal_walk (fuel : nat) (m : lmem) (cur last : option loc) (num_stolen : Z) : option (option loc * option loc * Z) :=
  match cur with
  | None => Some (cur, last, num_stolen)
  | Some x =>
      if num_stolen <? steal_count then
        match fuel with
        | O => None
        | S fuel => n ← STAILQ_NEXT m x; steal_walk fuel m n (Some x) (u32 (num_stolen + 1))
        end
      else Some (cur, last, num_stolen)
  end.

(** In the critical section of the victim [v]. The fuel is the number of cells, more than a list can have. *)
Definition steal_take (m : lmem) (v : loc) : option (option loc * option loc * Z * lmem) :=
  first ← STAILQ_FIRST m v;
  '(cur, last, num_stolen) ← steal_walk (base.size (cells m)) m first None 0;
  m ← cut m v cur;
  Some (first, last, num_stolen, m).

(** In the critical section of the own queue [w]. *)
Definition steal_put (m : lmem) (w : loc) (first last : option loc) : option lmem :=
  FEV_ASSERT negb (bool_decide (first = None));
  e ← STAILQ_EMPTY m w;
  FEV_ASSERT e;
  l ← last;
  m ← store m (inr l) None;
  m ← store m (inl w) first;
  set_last m w (inr l).

Definition steal (m : lmem) (v w : loc) : option (Z * lmem) :=
  '(first, last, num_stolen, m) ← steal_take m v;
  if 0 <? num_stolen then m ← steal_put m w first last; Some (num_stolen, m) else Some (num_stolen, m).
End steal.

(** [fev_bounded_mpmc_queue_push_stq]: the loop, and what is done to the list after it. *)
Fixpoint mpmc_pushes (fuel spurious : nat) (m : lmem) (q : fev_bounded_mpmc_queue) (cur : option loc) (n : Z)
    : option (Z * option loc * fev_bounded_mpmc_queue) :=
  match cur with
  | None => Some (n, None, q)
  | Some x =>
      match fuel with
      | O => None
      | S fuel =>
          next ← STAILQ_NEXT m x;
          '(pushed, q) ← fev_bounded_mpmc_queue_push spurious q x;
          if (pushed : bool) then mpmc_pushes fuel spurious m q next (u32 (n + 1)) else Some (n, cur, q)
      end
  end.

Definition mpmc_push_stq (spurious : nat) (m : lmem) (q : fev_bounded_mpmc_queue) (h : loc) (num_fibers : Z)
    : option (Z * fev_bounded_mpmc_queue * lmem) :=
  cur ← STAILQ_FIRST m h;
  '(n, cur, q) ← mpmc_pushes (base.size (cells m)) spurious m q cur 0;
  FEV_ASSERT (Bool.eqb (bool_decide (cur = None)) (n =? num_fibers));
  m ← cut m h cur;
  Some (n, q, m).

Fixpoint spmc_pushes (n : nat) (m : lmem) (mask : Z) (buf : list (option loc)) (tail : Z) (cur : option loc)
    : option (list (option loc) * Z * option loc) :=
  match n with
  | O => Some (buf, tail, cur)
  | S n =>
      x ← cur;
      buf ← arr_set buf (Z.land tail mask) (Some x);
      next ← STAILQ_NEXT m x;
      spmc_pushes n m mask buf (u32 (tail + 1)) next
  end.

Definition spmc_push_stq (m : lmem) (q : fev_bounded_spmc_queue) (h : loc) (num_fibers : Z)
    : option (Z * fev_bounded_spmc_queue * lmem) :=
  let size := sq_mask q + 1 in
  let free := u32 (size - u32 (sq_tail q - sq_head q)) in
  let n := if free <? num_fibers then free else num_fibers in
  cur ← STAILQ_FIRST m h;
  '(buf, tail, cur) ← spmc_pushes (Z.to_nat n) m (sq_mask q) (sq_buffer q) (sq_tail q) cur;
  FEV_ASSERT (Bool.eqb (bool_decide (cur = None)) (n =? num_fibers));
  m ← cut m h cur;
  Some (n, mk_spmc buf (sq_mask q) (sq_head q) tail, m).

(** ** Doubly-linked tail queues *)

Definition TAILQ_INIT (m : lmem) (h : loc) : option lmem :=
  m ← store m (inl h) None;
  set_last m h (inl h).

Definition TAILQ_FIRST (m : lmem) (h : loc) : option (option loc) := cells m !! (inl h : cell).
Definition TAILQ_EMPTY (m : lmem) (h : loc) : option bool := f ← TAILQ_FIRST m h; Some (bool_decide (f = None)).

Definition TAILQ_INSERT_TAIL (m : lmem) (h e : loc) : option lmem :=
  m ← store m (inr e) None;
  l ← lasts m !! h;
  m ← set_prev m e l;
  m ← store m l (Some e);
  set_last m h (inr e).

Definition TAILQ_REMOVE (m : lmem) (h e : loc) : option lmem :=
  next ← cells m !! (inr e : cell);
  p ← prevs m !! e;
  m ← match next with Some n => set_prev m n p | None => set_last m h p end;
  store m p next.

(** ** Lists in memory *)

(** From the cell [c] on, the elements are [xs], and what the last link holds is [e]. *)
Fixpoint chain (m : gmap cell (option loc)) (c : cell) (xs : list loc) (e : option loc) : Prop :=
  match xs with
  | [] => m !! c = Some e
  | x :: xs => m !! c = Some (Some x) ∧ chain m (inr x) xs e
  end.

(** The last link. *)
Definition end_cell (c : cell) (xs : list loc) : cell := match last xs with Some x => inr x | None => c end.

Definition stq (m : lmem) (h : loc) (xs : list loc) : Prop :=
  chain (cells m) (inl h) xs None ∧ lasts m !! h = Some (end_cell (inl h) xs).

Definition tq (m : lmem) (h : loc) (xs : list loc) : Prop :=
  stq m h xs ∧ ∀ pre x post, xs = pre ++ x :: post → prevs m !! x = Some (end_cell (inl h) pre).

(** All elements of some lists, given by their heads. *)
Definition all (L : gmap loc (list loc)) : list loc := concat (map_to_list L).*2.

(** The memory holds the lists [L], which have no element in common; [P] is [stq] or [tq]. The heads [H] and the elements [E] are
    allocated; heads of [H] that are not in [L] are not initialised. *)
Record rep (P : lmem → loc → list loc → Prop) (H E : gset loc) (m : lmem) (L : gmap loc (list loc)) : Prop := {
  rp_list h xs : L !! h = Some xs → P m h xs;
  rp_nodup : NoDup (all L);
  rp_heads : dom L ⊆ H;
  rp_elems x : x ∈ all L → x ∈ E;
  rp_head h : h ∈ H → is_Some (cells m !! (inl h : cell)) ∧ is_Some (lasts m !! h);
  rp_elem x : x ∈ E → is_Some (cells m !! (inr x : cell)) ∧ is_Some (prevs m !! x);
}.

(** ** Facts *)

Lemma is_Some_insert {K A} `{Countable K} (m : gmap K A) i j x : is_Some (m !! j) → is_Some (<[i := x]> m !! j).
Proof. intros ?. apply lookup_insert_is_Some'. by right. Qed.
#[local] Hint Resolve is_Some_insert : core.

(** *** Chains *)

Lemma end_cell_snoc c xs x : end_cell c (xs ++ [x]) = inr x.
Proof. unfold end_cell. by rewrite last_snoc. Qed.
Lemma end_cell_cons c x xs : end_cell c (x :: xs) = end_cell (inr x) xs.
Proof. unfold end_cell. rewrite last_cons. by destruct (last xs). Qed.
Lemma end_cell_app c xs y ys : end_cell c (xs ++ y :: ys) = end_cell (inr y) ys.
Proof. unfold end_cell. rewrite last_app_cons, last_cons. by destruct (last ys). Qed.
Lemma end_cell_in c xs : end_cell c xs = c ∨ ∃ x, end_cell c xs = inr x ∧ x ∈ xs.
Proof. unfold end_cell. destruct (last xs) as [x|] eqn:E; [right; exists x; split; [done|by apply last_Some_elem_of]|by left]. Qed.

(** The cells of a chain. *)
Definition links (c : cell) (xs : list loc) : list cell := c :: (inr <$> xs).

Lemma end_cell_links c xs : end_cell c xs ∈ links c xs.
Proof.
  destruct (end_cell_in c xs) as [->|(x & -> & Hx)]; unfold links; rewrite elem_of_cons; [by left|right].
  apply list_elem_of_fmap. eauto.
Qed.

Lemma elem_of_links_inr c xs x : inr x ∈ links c xs ↔ c = inr x ∨ x ∈ xs.
Proof.
  unfold links. rewrite elem_of_cons, list_elem_of_fmap. split.
  - intros [<-|(y & [= ->] & ?)]; eauto.
  - intros [->|?]; eauto.
Qed.

Lemma links_frame m m' c xs e : (∀ c', c' ∈ links c xs → m' !! c' = m !! c') → chain m c xs e → chain m' c xs e.
Proof.
  revert c. induction xs as [|x xs IH]; intros c Hm; simpl.
  - rewrite Hm by (unfold links; simpl; set_solver). done.
  - intros [H1 H2]. split; [rewrite Hm by (unfold links; simpl; set_solver); done|]. apply IH; [|done].
    intros c' Hc'. apply Hm. unfold links in *. simpl. set_solver.
Qed.

Lemma chain_insert m c xs e c' v : c' ∉ links c xs → chain m c xs e → chain (<[c' := v]> m) c xs e.
Proof. intros Hc. apply links_frame. intros c2 H2. apply lookup_insert_ne. congruence. Qed.

Lemma chain_first m c xs e : chain m c xs e → m !! c = Some (match xs with x :: _ => Some x | [] => e end).
Proof. destruct xs; simpl; tauto. Qed.

Lemma chain_hd m c xs : chain m c xs None → m !! c = Some (hd_error xs).
Proof. intros Hc. rewrite (chain_first _ _ _ _ Hc). by destruct xs. Qed.

Lemma chain_end m c xs e : chain m c xs e → m !! end_cell c xs = Some e.
Proof.
  revert c. induction xs as [|x xs IH]; intros c; simpl; [done|]. intros [_ H]. rewrite end_cell_cons. by apply IH.
Qed.

Lemma chain_app m c xs y ys e : chain m c (xs ++ y :: ys) e ↔ chain m c xs (Some y) ∧ chain m (inr y) ys e.
Proof. revert c. induction xs as [|x xs IH]; intros c; simpl; [done|]. rewrite IH. tauto. Qed.

Lemma NoDup_links_inl h xs : NoDup xs → NoDup (links (inl h) xs).
Proof.
  intros Hn. constructor; [|apply NoDup_fmap; [apply _|done]]. rewrite list_elem_of_fmap. by intros (y & E & _).
Qed.

Lemma chain_set_end m c xs e e' : NoDup (links c xs) → chain m c xs e → chain (<[end_cell c xs := e']> m) c xs e'.
Proof.
  revert c. induction xs as [|x xs IH]; intros c Hn; [simpl; by rewrite lookup_insert_eq|]. intros [H1 H2].
  apply NoDup_cons in Hn as [Hc Hn]. rewrite end_cell_cons. split; [|by apply IH].
  rewrite lookup_insert_ne; [done|]. intros E. apply Hc. change (c ∈ links (inr x) xs). rewrite <- E. apply end_cell_links.
Qed.

Lemma chain_size m c xs e : NoDup xs → chain m c xs e → (length xs ≤ base.size m)%nat.
Proof.
  intros Hn Hc. rewrite <- (size_dom (D := gset cell)), <- (length_fmap (inr : loc → cell)), <- (size_list_to_set (C := gset cell)) by (apply NoDup_fmap; [apply _|done]).
  apply subseteq_size. intros c' Hc'. rewrite elem_of_list_to_set, list_elem_of_fmap in Hc'. destruct Hc' as (x & -> & Hx).
  clear Hn. revert c Hc Hx. induction xs as [|y xs IH]; intros c Hc Hx; [by apply not_elem_of_nil in Hx|].
  destruct Hc as [_ Hc]. apply elem_of_cons in Hx as [->|Hx]; [|by eapply IH].
  apply elem_of_dom. apply chain_first in Hc. rewrite Hc. eauto.
Qed.

(** *** All elements *)

Lemma all_insert L h xs : L !! h = None → all (<[h := xs]> L) ≡ₚ xs ++ all L.
Proof. intros Hn. unfold all. rewrite map_to_list_insert by done. done. Qed.

Lemma all_update L h xs : all (<[h := xs]> L) ≡ₚ xs ++ all (delete h L).
Proof. rewrite <- insert_delete_eq. apply all_insert, lookup_delete_eq. Qed.

Lemma all_split L h xs : L !! h = Some xs → all L ≡ₚ xs ++ all (delete h L).
Proof. intros Hh. rewrite <- (insert_id L h xs) at 1 by done. apply all_update. Qed.

Lemma elem_of_all L h xs x : L !! h = Some xs → x ∈ xs → x ∈ all L.
Proof. intros Hh Hx. rewrite (all_split L h xs Hh). apply elem_of_app. by left. Qed.

Lemma all_disjoint L h h' xs ys x : NoDup (all L) → L !! h = Some xs → L !! h' = Some ys → h ≠ h' → x ∈ xs → x ∉ ys.
Proof.
  intros Hn Hh Hh' Hne Hx Hy. rewrite (all_split L h xs Hh) in Hn. apply NoDup_app in Hn as (_ & Hd & _).
  apply (Hd x Hx). eapply elem_of_all; [|exact Hy]. by rewrite lookup_delete_ne.
Qed.

Lemma all_nodup_list L h xs : NoDup (all L) → L !! h = Some xs → NoDup xs.
Proof. intros Hn Hh. rewrite (all_split L h xs Hh) in Hn. by apply NoDup_app in Hn as [? _]. Qed.

(** *** What an operation changes *)

(** At most the heads in [T] and the elements in [X]; what is allocated stays the same. *)
Record changes (T X : list loc) (m m' : lmem) : Prop := {
  ch_head h : h ∉ T → cells m' !! (inl h : cell) = cells m !! (inl h : cell) ∧ lasts m' !! h = lasts m !! h;
  ch_elem x : x ∉ X → cells m' !! (inr x : cell) = cells m !! (inr x : cell) ∧ prevs m' !! x = prevs m !! x;
  ch_cells c : is_Some (cells m !! c) → is_Some (cells m' !! c);
  ch_lasts h : is_Some (lasts m !! h) → is_Some (lasts m' !! h);
  ch_prevs x : is_Some (prevs m !! x) → is_Some (prevs m' !! x);
}.

Lemma changes_refl T X m : changes T X m m.
Proof. by split. Qed.

Lemma changes_trans T X m1 m2 m3 : changes T X m1 m2 → changes T X m2 m3 → changes T X m1 m3.
Proof.
  intros [A1 A2 A3 A4 A5] [B1 B2 B3 B4 B5]. split; try by auto.
  - intros h Hh. destruct (A1 h Hh), (B1 h Hh). split; congruence.
  - intros x Hx. destruct (A2 x Hx), (B2 x Hx). split; congruence.
Qed.

Definition cell_in (T X : list loc) (c : cell) : Prop := match c with inl h => h ∈ T | inr x => x ∈ X end.

(** The three kinds of stores. *)
Lemma cell_store_ok m c v : is_Some (cells m !! c) →
  ∃ m', store m c v = Some m' ∧ cells m' = <[c := v]> (cells m) ∧ lasts m' = lasts m ∧ prevs m' = prevs m ∧
        ∀ T X, cell_in T X c → changes T X m m'.
Proof.
  intros [x Hx]. unfold store. rewrite Hx. cbn [mbind option_bind]. eexists. split; [reflexivity|]. split_and!; [done..|]. intros T X Hc.
  split; simpl; auto; intros y Hy; (split; [|done]); apply lookup_insert_ne; intros ->; contradiction.
Qed.

Lemma set_last_ok m h c : is_Some (lasts m !! h) →
  ∃ m', set_last m h c = Some m' ∧ cells m' = cells m ∧ lasts m' = <[h := c]> (lasts m) ∧ prevs m' = prevs m ∧
        ∀ T X, h ∈ T → changes T X m m'.
Proof.
  intros [x Hx]. unfold set_last. rewrite Hx. cbn [mbind option_bind]. eexists. split; [reflexivity|]. split_and!; [done..|]. intros T X Hc.
  split; simpl; auto; intros y Hy; (split; [done|]); apply lookup_insert_ne; congruence.
Qed.

Lemma set_prev_ok m e c : is_Some (prevs m !! e) →
  ∃ m', set_prev m e c = Some m' ∧ cells m' = cells m ∧ lasts m' = lasts m ∧ prevs m' = <[e := c]> (prevs m) ∧
        ∀ T X, e ∈ X → changes T X m m'.
Proof.
  intros [x Hx]. unfold set_prev. rewrite Hx. cbn [mbind option_bind]. eexists. split; [reflexivity|]. split_and!; [done..|]. intros T X Hc.
  split; simpl; auto; intros y Hy; (split; [done|]); apply lookup_insert_ne; congruence.
Qed.

(** What a list in memory depends on. *)
Class Local (P : lmem → loc → list loc → Prop) : Prop :=
  local_frame m m' h xs T X : P m h xs → changes T X m m' → h ∉ T → (∀ x, x ∈ xs → x ∉ X) → P m' h xs.

#[export] Instance stq_local : Local stq.
Proof.
  intros m m' h xs T X [Hc Hl] Hm Hh Hx. destruct (ch_head _ _ _ _ Hm h Hh) as [H1 H2]. split; [|by rewrite H2].
  eapply links_frame; [|exact Hc]. intros c Hlk. unfold links in Hlk. apply elem_of_cons in Hlk as [->|Hlk]; [done|].
  apply list_elem_of_fmap in Hlk as (x & -> & ?). apply (ch_elem _ _ _ _ Hm). auto.
Qed.

#[export] Instance tq_local : Local tq.
Proof.
  intros m m' h xs T X [Hs Hp] Hm Hh Hx. split; [by eapply stq_local|]. intros pre x post ->.
  rewrite <- (Hp pre x post eq_refl). apply (ch_elem _ _ _ _ Hm), Hx. set_solver.
Qed.

(** How a memory is shown to hold the new lists: only those with a head in [T] have to be looked at. *)
Lemma rep_update P `{!Local P} H E T X m m' L L' :
  rep P H E m L → changes T X m m' → NoDup (all L') → (∀ x, x ∈ all L' → x ∈ E) → dom L' ⊆ H →
  (∀ h xs, h ∉ T → L' !! h = Some xs → L !! h = Some xs ∧ ∀ x, x ∈ xs → x ∉ X) →
  (∀ h xs, h ∈ T → L' !! h = Some xs → P m' h xs) → rep P H E m' L'.
Proof.
  intros [R1 R2 R3 R4 R5 R6] Hm Hn HE HH Hu Ht. split; [|done|done|done| |].
  - intros h xs Hh. destruct (decide (h ∈ T)) as [Hin|Hin]; [by apply Ht|]. destruct (Hu h xs Hin Hh) as [Hl Hx].
    eapply local_frame; [by apply R1|exact Hm|done|done].
  - intros h Hh. destruct (R5 h Hh). split; [by apply (ch_cells _ _ _ _ Hm)|by apply (ch_lasts _ _ _ _ Hm)].
  - intros x Hx. destruct (R6 x Hx). split; [by apply (ch_cells _ _ _ _ Hm)|by apply (ch_prevs _ _ _ _ Hm)].
Qed.

(** The case of one list, whose old and new elements may be changed. *)
Lemma rep_one P `{!Local P} H E X m m' L h xs ys :
  rep P H E m L → L !! h = Some xs → changes [h] X m m' → (∀ x, x ∈ X → x ∈ xs ∨ x ∉ all L) →
  NoDup ys → (∀ y, y ∈ ys → y ∈ xs ∨ y ∈ E ∧ y ∉ all L) → P m' h ys → rep P H E m' (<[h := ys]> L).
Proof.
  intros R Hh Hm HX Hn Hy HP. pose proof (rp_nodup _ _ _ _ _ R) as Hall.
  apply (rep_update P H E [h] X m m' L); [done|done| | | | |].
  - rewrite all_update. rewrite (all_split L h xs Hh) in Hall. apply NoDup_app in Hall as (_ & Hd & Hn2). apply NoDup_app.
    split_and!; [done| |done]. intros x Hx Hx2. destruct (Hy x Hx) as [Hx3|[_ Hx3]]; [by eapply Hd|].
    apply Hx3. rewrite (all_split L h xs Hh). apply elem_of_app. by right.
  - intros x. rewrite all_update, elem_of_app. intros [Hx|Hx].
    + destruct (Hy x Hx) as [Hx3|[? _]]; [|done]. apply (rp_elems _ _ _ _ _ R). by eapply elem_of_all.
    + apply (rp_elems _ _ _ _ _ R). rewrite (all_split L h xs Hh). apply elem_of_app. by right.
  - rewrite dom_insert_L. pose proof (rp_heads _ _ _ _ _ R). assert (h ∈ dom L) by (apply elem_of_dom; eauto). set_solver.
  - intros h' zs Hne Hl. assert (h' ≠ h) by set_solver. rewrite lookup_insert_ne in Hl by done. split; [done|].
    intros x Hx HxX. destruct (HX x HxX) as [Hx2|Hx2]; [by eapply (all_disjoint L h h' xs zs x)|]. apply Hx2. by eapply elem_of_all.
  - intros h' zs Hh' Hl. apply list_elem_of_singleton in Hh' as ->. rewrite lookup_insert_eq in Hl. by injection Hl as <-.
Qed.

(** *** Appending, prepending and removing, on the cells *)

Lemma end_cell_ne h xs e : e ∉ xs → end_cell (inl h) xs ≠ inr e.
Proof. intros He. destruct (end_cell_in (inl h) xs) as [->|(x & -> & Hx)]; [done|]. intros [= ->]. done. Qed.

Lemma chain_append cs h xs e : NoDup xs → e ∉ xs → chain cs (inl h) xs None →
  chain (<[end_cell (inl h) xs := Some e]> (<[inr e := None]> cs)) (inl h) (xs ++ [e]) None.
Proof.
  intros Hn He Hc. apply chain_app. split.
  - eapply chain_set_end; [by apply NoDup_links_inl|]. apply chain_insert; [|exact Hc]. rewrite elem_of_links_inr. by intros [?|?].
  - simpl. rewrite lookup_insert_ne by by apply end_cell_ne. apply lookup_insert_eq.
Qed.

Lemma chain_tail m c x xs e : c ∉ links (inr x) xs → chain m (inr x) xs e → chain (<[c := Some x]> m) c (x :: xs) e.
Proof. intros Hc Hx. split; [apply lookup_insert_eq|by apply chain_insert]. Qed.

Lemma inl_not_link h x xs : inl h ∉ links (inr x) xs.
Proof. unfold links. rewrite elem_of_cons, list_elem_of_fmap. intros [?|(y & ? & _)]; done. Qed.

(** The chain that begins at the link of its first element now begins at a head. *)
Lemma chain_rehead m h c x xs e : chain m c (x :: xs) e → chain (<[inl h := Some x]> m) (inl h) (x :: xs) e.
Proof. intros [_ Hc]. by apply chain_tail; [apply inl_not_link|]. Qed.

Lemma chain_prepend m h xs e : chain m (inl h) xs None → e ∉ xs →
  ∀ f, m !! (inl h : cell) = Some f → chain (<[inl h := Some e]> (<[inr e := f]> m)) (inl h) (e :: xs) None.
Proof.
  intros Hc He f Hf. pose proof (chain_first _ _ _ _ Hc) as Hf2. rewrite Hf in Hf2. injection Hf2 as Ef. apply chain_tail; [apply inl_not_link|].
  destruct xs as [|x xs]; simpl.
  - by rewrite lookup_insert_eq, Ef.
  - rewrite lookup_insert_eq, Ef. split; [done|]. apply chain_insert; [|apply Hc]. rewrite elem_of_links_inr.
    intros [E|?]; [injection E as ->|]; set_solver.
Qed.

(** *** Singly-linked lists *)

Lemma all_delete_sub L h x : x ∈ all (delete h L) → x ∈ all L.
Proof.
  destruct (L !! h) as [xs|] eqn:Hh; [|by rewrite delete_id]. rewrite (all_split L h xs Hh). intros ?. apply elem_of_app. by right.
Qed.
Lemma all_delete_nodup L h : NoDup (all L) → NoDup (all (delete h L)).
Proof.
  destruct (L !! h) as [xs|] eqn:Hh; [|by rewrite delete_id]. rewrite (all_split L h xs Hh). by intros (_ & _ & ?)%NoDup_app.
Qed.

Section heads.
Context (P : lmem → loc → list loc → Prop) `{HL : !Local P} (H E : gset loc).

Lemma rep_delete m L h : rep P H E m L → rep P H E m (delete h L).
Proof using HL.
  intros R. apply (rep_update P H E [h] [] m m L); [done|apply changes_refl| | | | |].
  - apply all_delete_nodup, R.
  - intros x Hx. apply (rp_elems _ _ _ _ _ R). by eapply all_delete_sub.
  - rewrite dom_delete_L. pose proof (rp_heads _ _ _ _ _ R). set_solver.
  - intros h' xs Hh' Hl. rewrite lookup_delete_ne in Hl by set_solver. split; [done|]. intros x _. apply not_elem_of_nil.
  - intros h' xs Hh' Hl. apply list_elem_of_singleton in Hh' as ->. by rewrite lookup_delete_eq in Hl.
Qed.

(** A head that is not in use, or whose list is given up, becomes the head of the list [xs] of elements of none. *)
Lemma rep_new m m' L h xs X :
  rep P H E m L → h ∈ H → L !! h = None → changes [h] X m m' → (∀ x, x ∈ X → x ∉ all L) →
  NoDup xs → (∀ x, x ∈ xs → x ∈ E ∧ x ∉ all L) → P m' h xs → rep P H E m' (<[h := xs]> L).
Proof using HL.
  intros R Hh Hn Hm HX Hnd Hxs HP. apply (rep_update P H E [h] X m m' L); [done|done| | | | |].
  - rewrite all_insert by done. apply NoDup_app. split_and!; [done| |apply R]. intros x Hx. by apply Hxs.
  - intros x. rewrite all_insert by done. rewrite elem_of_app. intros [Hx|Hx]; [by apply Hxs|by apply R].
  - rewrite dom_insert_L. pose proof (rp_heads _ _ _ _ _ R). set_solver.
  - intros h' zs Hne Hl. rewrite lookup_insert_ne in Hl by set_solver. split; [done|]. intros x Hx HxX. apply (HX x HxX). by eapply elem_of_all.
  - intros h' zs Hh' Hl. apply list_elem_of_singleton in Hh' as ->. rewrite lookup_insert_eq in Hl. by injection Hl as <-.
Qed.

Lemma init_rep m L h : (∀ m', stq m' h [] → P m' h []) →
  rep P H E m L → h ∈ H → ∃ m', STAILQ_INIT m h = Some m' ∧ changes [h] [] m m' ∧ rep P H E m' (<[h := []]> L).
Proof using HL.
  intros HP R Hh. destruct (rp_head _ _ _ _ _ R h Hh) as [H1 H2]. unfold STAILQ_INIT.
  destruct (cell_store_ok m (inl h) None H1) as (m1 & -> & C1 & L1 & _ & D1). cbn [mbind option_bind].
  destruct (set_last_ok m1 h (inl h)) as (m2 & -> & C2 & L2 & _ & D2); [by rewrite L1|].
  assert (Hm : changes [h] [] m m2) by (eapply changes_trans; [apply D1|apply D2]; simpl; set_solver).
  exists m2. split; [done|]. split; [done|]. rewrite <- insert_delete_eq.
  apply (rep_new m _ _ h [] []); [by apply rep_delete|done|apply lookup_delete_eq|done|set_solver|constructor|set_solver|].
  apply HP. split; simpl; [by rewrite C2, C1, lookup_insert_eq|by rewrite L2, lookup_insert_eq].
Qed.
End heads.

Lemma end_cell_in_list h xs X : (∀ x, x ∈ xs → x ∈ X) → cell_in [h] X (end_cell (inl h) xs).
Proof. intros HX. destruct (end_cell_in (inl h) xs) as [->|(x & -> & Hx)]; simpl; [apply list_elem_of_here|auto]. Qed.

(** The effect of appending, which both kinds of lists share: [m'] is the memory after the stores to the cells. *)
Lemma stq_append m m' h xs e : stq m h xs → NoDup xs → e ∉ xs →
  cells m' = <[end_cell (inl h) xs := Some e]> (<[inr e := None]> (cells m)) → lasts m' !! h = Some (inr e) → stq m' h (xs ++ [e]).
Proof. intros [Hc _] Hn He Hm Hl. split; [rewrite Hm; by apply chain_append|by rewrite end_cell_snoc]. Qed.

Section stailq.
Context (H E : gset loc).
Abbreviation R := (rep stq H E).

Lemma rep_facts m L h xs : R m L → L !! h = Some xs →
  chain (cells m) (inl h) xs None ∧ lasts m !! h = Some (end_cell (inl h) xs) ∧ NoDup xs ∧ is_Some (cells m !! (inl h : cell)).
Proof.
  intros HR Hh. destruct (rp_list _ _ _ _ _ HR h xs Hh) as [Hc Hl]. split_and!; [done|done| |].
  - eapply all_nodup_list; [apply HR|done].
  - rewrite (chain_first _ _ _ _ Hc). eauto.
Qed.

Lemma insert_tail_rep m L h xs e : R m L → L !! h = Some xs → e ∈ E → e ∉ all L →
  ∃ m', STAILQ_INSERT_TAIL m h e = Some m' ∧ R m' (<[h := xs ++ [e]]> L).
Proof.
  intros HR Hh He Hnew. destruct (rep_facts m L h xs HR Hh) as (Hc & Hl & Hn & _).
  assert (Hex : e ∉ xs) by (intros ?; apply Hnew; by eapply elem_of_all). destruct (rp_elem _ _ _ _ _ HR e He) as [He1 _].
  unfold STAILQ_INSERT_TAIL. destruct (cell_store_ok m (inr e) None He1) as (m1 & -> & C1 & L1 & _ & D1). cbn [mbind option_bind].
  rewrite L1, Hl. cbn [mbind option_bind].
  destruct (cell_store_ok m1 (end_cell (inl h) xs) (Some e)) as (m2 & -> & C2 & L2 & _ & D2).
  { rewrite C1. apply is_Some_insert. rewrite (chain_end _ _ _ _ Hc). eauto. }
  cbn [mbind option_bind]. destruct (set_last_ok m2 h (inr e)) as (m3 & -> & C3 & L3 & _ & D3); [rewrite L2, L1, Hl; eauto|].
  exists m3. split; [done|]. apply (rep_one stq H E (e :: xs) m m3 L h xs); [done|done| | | | |].
  - eapply changes_trans; [apply D1; simpl; apply list_elem_of_here|]. eapply changes_trans; [apply D2, end_cell_in_list; set_solver|].
    apply D3. set_solver.
  - intros x [->|Hx]%elem_of_cons; [by right|by left].
  - apply NoDup_app. split_and!; [done|set_solver|apply NoDup_singleton].
  - intros y [Hy|Hy]%elem_of_app; [by left|]. apply list_elem_of_singleton in Hy as ->. by right.
  - apply (stq_append m); [done|done|done|by rewrite C3, C2, C1|by rewrite L3, lookup_insert_eq].
Qed.

Lemma insert_head_rep m L h xs e : R m L → L !! h = Some xs → e ∈ E → e ∉ all L →
  ∃ m', STAILQ_INSERT_HEAD m h e = Some m' ∧ R m' (<[h := e :: xs]> L).
Proof.
  intros HR Hh He Hnew. destruct (rep_facts m L h xs HR Hh) as (Hc & Hl & Hn & Hhd).
  assert (Hex : e ∉ xs) by (intros ?; apply Hnew; by eapply elem_of_all). destruct (rp_elem _ _ _ _ _ HR e He) as [He1 _].
  unfold STAILQ_INSERT_HEAD, STAILQ_FIRST. pose proof (chain_first _ _ _ _ Hc) as Hf.
  set (f := match xs with x :: _ => Some x | [] => None end) in *. rewrite Hf. cbn [mbind option_bind].
  destruct (cell_store_ok m (inr e) f He1) as (m1 & -> & C1 & L1 & _ & D1). cbn [mbind option_bind].
  assert (H2 : ∃ m2, (if decide (f = None) then set_last m1 h (inr e) else Some m1) = Some m2 ∧ cells m2 = cells m1 ∧
                     lasts m2 !! h = Some (end_cell (inl h) (e :: xs)) ∧ changes [h] (e :: xs) m1 m2).
  { rewrite end_cell_cons. destruct (decide (f = None)) as [Ef|Ef].
    - destruct (set_last_ok m1 h (inr e)) as (m2 & -> & C2 & L2 & _ & D2); [rewrite L1, Hl; eauto|]. exists m2.
      destruct xs; [|done]. split_and!; [done|done|by rewrite L2, lookup_insert_eq|apply D2; set_solver].
    - exists m1. rewrite L1, Hl. destruct xs; [done|]. split_and!; [done|done|by rewrite !end_cell_cons|apply changes_refl]. }
  destruct H2 as (m2 & -> & C2 & L2 & D2). cbn [mbind option_bind].
  destruct (cell_store_ok m2 (inl h) (Some e)) as (m3 & -> & C3 & L3 & _ & D3); [rewrite C2, C1; by apply is_Some_insert|].
  exists m3. split; [done|]. apply (rep_one stq H E (e :: xs) m m3 L h xs); [done|done| | | | |].
  - eapply changes_trans; [apply D1; simpl; apply list_elem_of_here|]. eapply changes_trans; [exact D2|]. apply D3. simpl. set_solver.
  - intros x [->|Hx]%elem_of_cons; [by right|by left].
  - by constructor.
  - intros y [->|Hy]%elem_of_cons; [by right|by left].
  - split; [|by rewrite L3]. rewrite C3, C2, C1. by apply chain_prepend.
Qed.

(** Without the first elements: what [STAILQ_REMOVE_HEAD], stealing and pushing to a bounded queue leave. *)
Lemma cut_rep m L h xs ys : R m L → L !! h = Some (xs ++ ys) →
  ∃ m', cut m h (hd_error ys) = Some m' ∧ changes [h] [] m m' ∧ R m' (<[h := ys]> L).
Proof.
  intros HR Hh. destruct (rep_facts m L h _ HR Hh) as (Hc & Hl & Hn & Hhd). destruct ys as [|y ys]; cbn [hd_error cut].
  - apply (init_rep stq H E m L h); [auto|done|]. apply (rp_heads _ _ _ _ _ HR), elem_of_dom. eauto.
  - destruct (cell_store_ok m (inl h) (Some y) Hhd) as (m1 & -> & C1 & L1 & _ & D1). exists m1. split; [done|].
    assert (Hm : changes [h] [] m m1) by (apply D1; simpl; set_solver). split; [done|].
    apply chain_app in Hc as [_ Hc]. apply NoDup_app in Hn as (_ & _ & Hn).
    apply (rep_one stq H E [] m m1 L h (xs ++ y :: ys)); [done|done|done|set_solver|done|set_solver|].
    split; [rewrite C1; apply (chain_tail _ (inl h)); [apply inl_not_link|done]|]. rewrite L1, Hl. by rewrite end_cell_app, end_cell_cons.
Qed.

(** *** What the library does with them *)

Lemma remove_head_cut m h x xs : chain (cells m) (inl h) (x :: xs) None → STAILQ_REMOVE_HEAD m h = cut m h (hd_error xs).
Proof.
  intros [Hf Hc]. unfold STAILQ_REMOVE_HEAD, STAILQ_FIRST, STAILQ_NEXT. rewrite Hf. cbn [mbind option_bind]. rewrite (chain_first _ _ _ _ Hc).
  cbn [mbind option_bind]. destruct xs as [|y xs]; cbn [hd_error cut]; unfold STAILQ_INIT; by destruct (store m _ _).
Qed.

Lemma pop_fiber_rep m L h xs : R m L → L !! h = Some xs →
  ∃ m', pop_fiber m h = Some ((shr_get_fiber xs).1, m') ∧ R m' (<[h := (shr_get_fiber xs).2]> L).
Proof.
  intros HR Hh. destruct (rep_facts m L h _ HR Hh) as (Hc & _). unfold pop_fiber, STAILQ_FIRST. rewrite (chain_first _ _ _ _ Hc).
  cbn [mbind option_bind]. destruct xs as [|x xs]; cbn [shr_get_fiber fst snd].
  - exists m. split; [done|]. by rewrite insert_id.
  - rewrite (remove_head_cut m h x xs Hc). destruct (cut_rep m L h [x] xs HR Hh) as (m' & -> & _ & HR'). eauto.
Qed.

Lemma ilock_pop_rep m L h x xs : R m L → L !! h = Some (x :: xs) →
  ∃ m', ilock_pop m h = Some (x, bool_decide (xs = []), m') ∧ R m' (<[h := xs]> L).
Proof.
  intros HR Hh. destruct (rep_facts m L h _ HR Hh) as ([Hf Hc] & _). destruct (cut_rep m L h [x] xs HR Hh) as (m' & E' & _ & HR').
  exists m'. split; [|done]. unfold ilock_pop, STAILQ_FIRST, STAILQ_NEXT. rewrite Hf. cbn [mbind option_bind]. rewrite (chain_first _ _ _ _ Hc).
  cbn [mbind option_bind]. destruct xs as [|y xs]; cbn [hd_error cut] in E'.
  - unfold STAILQ_INIT in E'. destruct (store m (inl h) None) as [m1|]; [|done]. cbn [mbind option_bind] in *. rewrite decide_True by done.
    by rewrite E'.
  - rewrite E'. done.
Qed.

Lemma push_stq_rep m L q fibers xs ys : R m L → L !! q = Some xs → L !! fibers = Some ys → q ≠ fibers → ys ≠ [] →
  ∃ m', push_stq m q fibers = Some m' ∧ R m' (<[q := xs ++ ys]> (delete fibers L)).
Proof.
  intros HR Hq Hf Hne Hys. destruct (rep_facts m L q _ HR Hq) as (Hc & Hl & Hn & _). destruct (rep_facts m L fibers _ HR Hf) as (Hc2 & Hl2 & Hn2 & _).
  destruct ys as [|y ys]; [done|]. destruct Hc2 as [Hf2 Hc2]. unfold push_stq, STAILQ_FIRST. rewrite Hf2, Hl2. cbn [mbind option_bind]. rewrite Hl.
  cbn [negb bool_decide decide_rel option_eq_dec mbind option_bind]. rewrite bool_decide_false by done. cbn [negb].
  destruct (cell_store_ok m (end_cell (inl q) xs) (Some y)) as (m1 & -> & C1 & L1 & _ & D1); [rewrite (chain_end _ _ _ _ Hc); eauto|].
  cbn [mbind option_bind]. destruct (set_last_ok m1 q (end_cell (inl fibers) (y :: ys))) as (m2 & -> & C2 & L2 & _ & D2); [rewrite L1, Hl; eauto|].
  exists m2. split; [done|]. pose proof (rp_nodup _ _ _ _ _ HR) as Hall.
  assert (Hd : ∀ x, x ∈ y :: ys → x ∉ all (delete fibers L)).
  { rewrite (all_split L fibers _ Hf) in Hall. apply NoDup_app in Hall as (_ & Hd & _). exact Hd. }
  assert (Hd2 : ∀ x, x ∈ y :: ys → x ∉ xs). { intros x Hx Hx2. apply (Hd x Hx). eapply elem_of_all; [|exact Hx2]. by rewrite lookup_delete_ne. }
  apply (rep_one stq H E xs m m2 (delete fibers L) q xs); [exact (rep_delete stq H E m L fibers HR)|by rewrite lookup_delete_ne| |auto| | |].
  - eapply changes_trans; [apply D1, end_cell_in_list; auto|apply D2; set_solver].
  - apply NoDup_app. split_and!; [done| |done]. intros x Hx Hx2. by apply (Hd2 x Hx2).
  - intros x [Hx|Hx]%elem_of_app; [by left|]. right. split; [|by apply Hd]. apply (rp_elems _ _ _ _ _ HR). by eapply elem_of_all.
  - split; [|by rewrite L2, lookup_insert_eq, !end_cell_app, end_cell_cons]. rewrite C2, C1. apply chain_app. split.
    + eapply chain_set_end; [by apply NoDup_links_inl|exact Hc].
    + apply chain_insert; [|done]. destruct (end_cell_in (inl q) xs) as [->|(x & -> & Hx)]; [apply inl_not_link|].
      rewrite elem_of_links_inr. intros [E'|Hx2]; [injection E' as ->; apply (Hd2 x); [apply list_elem_of_here|done]|].
      apply (Hd2 x); [by apply list_elem_of_further|done].
Qed.

(** Stealing. *)
Lemma steal_walk_ok count fuel m xs : ∀ c l n stolen rest n',
  chain (cells m) c xs None → (length xs ≤ fuel)%nat → walk count xs n = (stolen, rest, n') →
  xs = stolen ++ rest ∧
  steal_walk count fuel m (hd_error xs) l n = Some (hd_error rest, match last stolen with Some x => Some x | None => l end, n').
Proof.
  revert fuel. induction xs as [|x xs IH]; intros fuel c l n stolen rest n' Hc Hf Hw; cbn [walk] in Hw; [destruct fuel; by injection Hw as <- <- <-|].
  destruct Hc as [_ Hc]. destruct fuel as [|fuel]; simpl in Hf; [lia|]. cbn [hd_error steal_walk]. destruct (n <? count) eqn:En.
  - destruct (walk count xs (u32 (n + 1))) as [[st2 r2] n2] eqn:Ew. injection Hw as <- <- <-.
    destruct (IH fuel (inr x) (Some x) _ _ _ _ Hc ltac:(lia) Ew) as [E1 E2]. split; [by rewrite E1|].
    unfold STAILQ_NEXT. rewrite (chain_hd _ _ _ Hc). cbn [mbind option_bind]. rewrite E2. rewrite last_cons. by destruct (last st2).
  - by injection Hw as <- <- <-.
Qed.

(** The abstract operation, as in the model of the scheduler. *)
Definition asteal (count : Z) (L : gmap loc (list loc)) (v w : loc) : option (Z * gmap loc (list loc)) :=
  xs ← L !! v;
  let '(stolen, rest, num_stolen) := walk count xs 0 in
  let L := <[v := rest]> L in
  if 0 <? num_stolen then
    FEV_ASSERT negb (bool_decide (stolen = []));
    ws ← L !! w;
    FEV_ASSERT bool_decide (ws = []);
    Some (num_stolen, <[w := stolen]> L)
  else Some (num_stolen, L).

Lemma steal_put_rep m L w first tl e : R m L → L !! w = Some [] → chain (cells m) (inr first) tl e → NoDup (first :: tl) →
  (∀ x, x ∈ first :: tl → x ∈ E ∧ x ∉ all L) →
  ∃ m', steal_put m w (Some first) (last (first :: tl)) = Some m' ∧ R m' (<[w := first :: tl]> L).
Proof.
  intros HR Hw Hc Hn Hx. destruct (rep_facts m L w _ HR Hw) as (Hcw & Hlw & _ & Hhw). simpl in Hcw.
  unfold steal_put, STAILQ_EMPTY, STAILQ_FIRST. rewrite Hcw. cbn [mbind option_bind]. rewrite !bool_decide_false, bool_decide_true by done. cbn [negb].
  assert (Hend : ∃ l, last (first :: tl) = Some l ∧ end_cell (inr first) tl = inr l ∧ l ∈ first :: tl).
  { destruct (last (first :: tl)) as [l|] eqn:El; [|by apply last_None in El]. exists l. split; [done|]. split; [|by apply last_Some_elem_of].
    rewrite <- (end_cell_cons (inl w)). unfold end_cell. by rewrite El. }
  destruct Hend as (l & -> & Hend & Hl). cbn [mbind option_bind].
  destruct (cell_store_ok m (inr l) None) as (m1 & -> & C1 & L1 & _ & D1); [rewrite <- Hend, (chain_end _ _ _ _ Hc); eauto|]. cbn [mbind option_bind].
  destruct (cell_store_ok m1 (inl w) (Some first)) as (m2 & -> & C2 & L2 & _ & D2); [rewrite C1; by apply is_Some_insert|]. cbn [mbind option_bind].
  destruct (set_last_ok m2 w (inr l)) as (m3 & -> & C3 & L3 & _ & D3); [rewrite L2, L1, Hlw; eauto|]. exists m3. split; [done|].
  apply (rep_one stq H E (first :: tl) m m3 L w []); [done|done| | |done| |].
  - eapply changes_trans; [apply D1; exact Hl|]. eapply changes_trans; [apply D2|apply D3]; simpl; set_solver.
  - intros x Hx1. right. by apply Hx.
  - intros x Hx1. right. by apply Hx.
  - split; [|by rewrite L3, lookup_insert_eq, end_cell_cons, Hend]. rewrite C3, C2, C1. apply chain_tail; [apply inl_not_link|]. rewrite <- Hend.
    eapply chain_set_end; [|exact Hc]. unfold links. rewrite <- (fmap_cons inr). apply NoDup_fmap; [apply _|done].
Qed.

Lemma steal_rep count m L v w n L' : R m L → v ≠ w → asteal count L v w = Some (n, L') →
  ∃ m', steal count m v w = Some (n, m') ∧ R m' L'.
Proof.
  intros HR Hne Ha. unfold asteal in Ha. destruct (L !! v) as [xs|] eqn:Hv; [|done]. cbn [mbind option_bind] in Ha.
  destruct (walk count xs 0) as [[stolen rest] num] eqn:Ew. destruct (rep_facts m L v _ HR Hv) as (Hc & _ & Hn & _).
  destruct (steal_walk_ok count (base.size (cells m)) m xs (inl v) None 0 _ _ _ Hc (chain_size _ _ _ _ Hn Hc) Ew) as [-> Es].
  destruct (cut_rep m L v stolen rest HR Hv) as (m1 & E1 & D1 & HR1).
  unfold steal, steal_take, STAILQ_FIRST. rewrite (chain_hd _ _ _ Hc). cbn [mbind option_bind].
  rewrite Es. cbn [mbind option_bind]. rewrite E1. cbn [mbind option_bind]. destruct (0 <? num) eqn:Enum; [|injection Ha as <- <-; eauto].
  destruct stolen as [|first tl]; [done|]. rewrite bool_decide_false in Ha by done. cbn [negb] in Ha.
  destruct (<[v:=rest]> L !! w) as [ws|] eqn:Hw; [|done]. cbn [mbind option_bind] in Ha. case_bool_decide as Ews; [|done]. subst ws. injection Ha as <- <-.
  pose proof (rp_nodup _ _ _ _ _ HR) as Hall. rewrite (all_split L v _ Hv), <- app_assoc in Hall. apply NoDup_app in Hall as (Hn1 & Hd & _).
  destruct (steal_put_rep m1 (<[v := rest]> L) w first tl (hd_error rest)) as (m2 & E2 & HR2); [done|done| |done| |].
  - destruct Hc as [_ Hc]. eapply links_frame.
    + intros c Hin. unfold links in Hin. rewrite <- (fmap_cons inr) in Hin. apply list_elem_of_fmap in Hin as (x & -> & _).
      apply (ch_elem _ _ _ _ D1), not_elem_of_nil.
    + destruct rest as [|r rest]; [by rewrite app_nil_r in Hc|]. by apply chain_app in Hc as [Hc _].
  - intros x Hx. split; [apply (rp_elems _ _ _ _ _ HR); eapply elem_of_all; [exact Hv|]; apply elem_of_app; by left|].
    rewrite all_update. by apply Hd.
  - replace (match last (first :: tl) with Some x => Some x | None => None end) with (last (first :: tl)) by by destruct (last _).
    cbn [app hd_error]. rewrite E2. cbn [mbind option_bind]. eauto.
Qed.

(** Pushing to a bounded queue. *)
Lemma mpmc_pushes_ok fuel sp m xs : ∀ c q n n' rest q',
  chain (cells m) c xs None → (length xs ≤ fuel)%nat → mpmc_push_stq_loop sp q xs n = Some (n', rest, q') →
  (∃ pre, xs = pre ++ rest) ∧ mpmc_pushes fuel sp m q (hd_error xs) n = Some (n', hd_error rest, q').
Proof.
  revert fuel. induction xs as [|x xs IH]; intros fuel c q n n' rest q' Hc Hf Hw; cbn [mpmc_push_stq_loop] in Hw.
  - injection Hw as <- <- <-. split; [by exists []|by destruct fuel].
  - destruct Hc as [_ Hc]. destruct fuel as [|fuel]; simpl in Hf; [lia|]. cbn [hd_error mpmc_pushes].
    unfold STAILQ_NEXT. rewrite (chain_hd _ _ _ Hc). cbn [mbind option_bind].
    destruct (fev_bounded_mpmc_queue_push sp q x) as [[[|] q2]|]; cbn [mbind option_bind] in *; [| |done].
    + destruct (IH fuel (inr x) _ _ _ _ _ Hc ltac:(lia) Hw) as [[pre E1] E2]. split; [exists (x :: pre); by rewrite E1|done].
    + injection Hw as <- <- <-. split; [by exists []|done].
Qed.

Lemma mpmc_push_stq_rep sp m L h xs q num n rest q' : R m L → L !! h = Some xs →
  fev_bounded_mpmc_queue_push_stq sp q xs num = Some (n, rest, q') →
  ∃ m', mpmc_push_stq sp m q h num = Some (n, q', m') ∧ R m' (<[h := rest]> L).
Proof.
  intros HR Hh Hp. destruct (rep_facts m L h _ HR Hh) as (Hc & _ & Hn & _). unfold fev_bounded_mpmc_queue_push_stq in Hp.
  destruct (mpmc_push_stq_loop sp q xs 0) as [[[n2 r2] q2]|] eqn:El; [|done]. cbn [mbind option_bind] in Hp.
  destruct (Bool.eqb (bool_decide (r2 = [])) (n2 =? num)) eqn:Ea; [|done]. injection Hp as <- <- <-.
  destruct (mpmc_pushes_ok (base.size (cells m)) sp m xs (inl h) q 0 _ _ _ Hc (chain_size _ _ _ _ Hn Hc) El) as [[pre ->] Es].
  destruct (cut_rep m L h pre r2 HR Hh) as (m1 & E1 & _ & HR1). exists m1. split; [|done].
  unfold mpmc_push_stq, STAILQ_FIRST. rewrite (chain_hd _ _ _ Hc). cbn [mbind option_bind].
  rewrite Es. cbn [mbind option_bind]. replace (bool_decide (hd_error r2 = None)) with (bool_decide (r2 = [])) by by destruct r2.
  rewrite Ea, E1. done.
Qed.

Lemma spmc_pushes_ok m mask : ∀ n xs c buf tail buf' tail' rest,
  chain (cells m) c xs None → spmc_push_stq_loop n mask buf tail xs = Some (buf', tail', rest) →
  (∃ pre, xs = pre ++ rest) ∧ spmc_pushes n m mask buf tail (hd_error xs) = Some (buf', tail', hd_error rest).
Proof.
  induction n as [|n IH]; intros xs c buf tail buf' tail' rest Hc Hw; cbn [spmc_push_stq_loop] in Hw.
  - injection Hw as <- <- <-. split; [by exists []|done].
  - destruct xs as [|x xs]; [done|]. destruct Hc as [_ Hc]. cbn [hd_error spmc_pushes mbind option_bind].
    destruct (arr_set buf (Z.land tail mask) (Some x)) as [b2|]; [|done]. cbn [mbind option_bind] in *.
    unfold STAILQ_NEXT. rewrite (chain_hd _ _ _ Hc). cbn [mbind option_bind].
    destruct (IH xs (inr x) _ _ _ _ _ Hc Hw) as [[pre E1] E2]. split; [exists (x :: pre); by rewrite E1|done].
Qed.

Lemma spmc_push_stq_rep m L h xs q num n rest q' : R m L → L !! h = Some xs →
  fev_bounded_spmc_queue_push_stq q xs num = Some (n, rest, q') →
  ∃ m', spmc_push_stq m q h num = Some (n, q', m') ∧ R m' (<[h := rest]> L).
Proof.
  intros HR Hh Hp. destruct (rep_facts m L h _ HR Hh) as (Hc & _ & Hn & _). unfold fev_bounded_spmc_queue_push_stq in Hp. unfold spmc_push_stq.
  set (k := if _ <? num then _ else num) in *.
  destruct (spmc_push_stq_loop (Z.to_nat k) (sq_mask q) (sq_buffer q) (sq_tail q) xs) as [[[b2 t2] r2]|] eqn:El; [|done]. cbn [mbind option_bind] in Hp.
  destruct (Bool.eqb (bool_decide (r2 = [])) (k =? num)) eqn:Ea; [|done]. injection Hp as <- <- <-.
  destruct (spmc_pushes_ok m _ _ xs (inl h) _ _ _ _ _ Hc El) as [[pre ->] Es].
  destruct (cut_rep m L h pre r2 HR Hh) as (m1 & E1 & _ & HR1). exists m1. split; [|done].
  unfold STAILQ_FIRST. rewrite (chain_hd _ _ _ Hc). cbn [mbind option_bind].
  rewrite Es. cbn [mbind option_bind]. replace (bool_decide (hd_error r2 = None)) with (bool_decide (r2 = [])) by by destruct r2.
  rewrite Ea, E1. done.
Qed.
End stailq.

(** *** Doubly-linked lists *)

Section tailq.
Context (H E : gset loc).
Abbreviation Rt := (rep tq H E).

Lemma rep_tq_facts m L h xs : Rt m L → L !! h = Some xs →
  chain (cells m) (inl h) xs None ∧ lasts m !! h = Some (end_cell (inl h) xs) ∧ NoDup xs ∧
  (∀ pre x post, xs = pre ++ x :: post → prevs m !! x = Some (end_cell (inl h) pre)).
Proof.
  intros HR Hh. destruct (rp_list _ _ _ _ _ HR h xs Hh) as [[Hc Hl] Hp]. split_and!; [done|done| |done].
  eapply all_nodup_list; [apply HR|done].
Qed.

Lemma tailq_init_rep m L h : Rt m L → h ∈ H → ∃ m', TAILQ_INIT m h = Some m' ∧ Rt m' (<[h := []]> L).
Proof.
  intros HR Hh. destruct (init_rep tq H E m L h) as (m' & E' & _ & HR'); [|done|done|by exists m'].
  intros m2 Hs. split; [done|]. intros pre x post E2. by destruct pre.
Qed.

Lemma tailq_insert_rep m L h xs e : Rt m L → L !! h = Some xs → e ∈ E → e ∉ all L →
  ∃ m', TAILQ_INSERT_TAIL m h e = Some m' ∧ Rt m' (<[h := xs ++ [e]]> L).
Proof.
  intros HR Hh He Hnew. destruct (rep_tq_facts m L h xs HR Hh) as (Hc & Hl & Hn & Hp).
  assert (Hex : e ∉ xs) by (intros ?; apply Hnew; by eapply elem_of_all). destruct (rp_elem _ _ _ _ _ HR e He) as [He1 He2].
  unfold TAILQ_INSERT_TAIL. destruct (cell_store_ok m (inr e) None He1) as (m1 & -> & C1 & L1 & P1 & D1). cbn [mbind option_bind].
  rewrite L1, Hl. cbn [mbind option_bind].
  destruct (set_prev_ok m1 e (end_cell (inl h) xs)) as (m2 & -> & C2 & L2 & P2 & D2); [by rewrite P1|]. cbn [mbind option_bind].
  destruct (cell_store_ok m2 (end_cell (inl h) xs) (Some e)) as (m3 & -> & C3 & L3 & P3 & D3).
  { rewrite C2, C1. apply is_Some_insert. rewrite (chain_end _ _ _ _ Hc). eauto. }
  cbn [mbind option_bind]. destruct (set_last_ok m3 h (inr e)) as (m4 & -> & C4 & L4 & P4 & D4); [rewrite L3, L2, L1, Hl; eauto|].
  exists m4. split; [done|]. apply (rep_one tq H E (e :: xs) m m4 L h xs); [done|done| | | | |].
  - eapply changes_trans; [apply D1; simpl; apply list_elem_of_here|]. eapply changes_trans; [apply D2; apply list_elem_of_here|].
    eapply changes_trans; [apply D3, end_cell_in_list; set_solver|]. apply D4. set_solver.
  - intros x [->|Hx]%elem_of_cons; [by right|by left].
  - apply NoDup_app. split_and!; [done|set_solver|apply NoDup_singleton].
  - intros y [Hy|Hy]%elem_of_app; [by left|]. apply list_elem_of_singleton in Hy as ->. by right.
  - split; [apply (stq_append m); [done|done|done|by rewrite C4, C3, C2, C1|by rewrite L4, lookup_insert_eq]|].
    intros pre x post Eq. rewrite P4, P3, P2, P1. destruct post as [|z post _] using rev_ind.
    + apply app_inj_tail in Eq as [-> ->]. by rewrite lookup_insert_eq.
    + rewrite app_comm_cons, app_assoc in Eq. apply app_inj_tail in Eq as [-> ->]. rewrite lookup_insert_ne; [by eapply Hp|].
      intros ->. apply Hex. set_solver.
Qed.

(** [TAILQ_REMOVE] of any element. *)
Lemma tailq_remove_id l n : n ∉ l → tailq_remove l n = l.
Proof.
  unfold tailq_remove. induction l as [|x l IH]; intros Hn; [done|]. rewrite filter_cons_True by set_solver. f_equal. apply IH. set_solver.
Qed.

Lemma tailq_remove_split pre e post : NoDup (pre ++ e :: post) → tailq_remove (pre ++ e :: post) e = pre ++ post.
Proof.
  intros Hn. apply NoDup_app in Hn as (_ & Hd & [He _]%NoDup_cons).
  assert (He2 : e ∉ pre) by (intros Hp; apply (Hd e Hp), list_elem_of_here).
  unfold tailq_remove. rewrite filter_app, filter_cons_False by auto.
  fold (tailq_remove pre e) (tailq_remove post e). by rewrite !tailq_remove_id.
Qed.

(** The links back, after [e] was taken out: only that of its successor changes. *)
Lemma prevs_remove (ps : gmap loc cell) h pre e post :
  NoDup (pre ++ e :: post) →
  (∀ a x b, pre ++ e :: post = a ++ x :: b → ps !! x = Some (end_cell (inl h) a)) →
  let ps' := match post with y :: _ => <[y := end_cell (inl h) pre]> ps | [] => ps end in
  ∀ a x b, pre ++ post = a ++ x :: b → ps' !! x = Some (end_cell (inl h) a).
Proof.
  intros Hn Hp ps' a x b Eq.
  assert (Hpost : ∀ k, post = k ++ x :: b → ps' !! x = Some (end_cell (inl h) (pre ++ k))).
  { intros k ->. destruct k as [|y k]; subst ps'; cbn [app]; [by rewrite lookup_insert_eq, app_nil_r|].
    rewrite lookup_insert_ne.
    - rewrite (Hp (pre ++ e :: y :: k) x b) by by rewrite <- app_assoc. by rewrite !end_cell_app, end_cell_cons.
    - intros ->. apply NoDup_app in Hn as (_ & _ & [_ [Hy _]%NoDup_cons]%NoDup_cons). apply Hy, elem_of_app. right. apply list_elem_of_here. }
  apply app_eq_inv in Eq as [(k & -> & Ek)|(k & -> & Ek)]; [|by apply Hpost].
  destruct k as [|z k]; [pose proof (Hpost [] (eq_sym Ek)) as Q; rewrite !app_nil_r in Q; exact Q|]. injection Ek as <- ->.
  rewrite <- app_assoc in Hp, Hn. subst ps'. rewrite <- (Hp a x (k ++ e :: post) eq_refl). destruct post as [|y post]; [done|].
  apply lookup_insert_ne. intros ->. apply NoDup_app in Hn as (_ & _ & [Hx _]%NoDup_cons). apply Hx. set_solver.
Qed.

Lemma tailq_remove_rep m L h xs e : Rt m L → L !! h = Some xs → e ∈ xs →
  ∃ m', TAILQ_REMOVE m h e = Some m' ∧ Rt m' (<[h := tailq_remove xs e]> L).
Proof.
  intros HR Hh He. destruct (rep_tq_facts m L h xs HR Hh) as (Hc & Hl & Hn & Hp).
  apply list_elem_of_split in He as (pre & post & ->). rewrite tailq_remove_split by done. pose proof Hc as Hc0. apply chain_app in Hc as [Hpre Hpost].
  pose proof (prevs_remove (prevs m) h pre e post Hn Hp) as Hprevs.
  assert (Hn' : NoDup (pre ++ post)). { apply NoDup_app in Hn as (N1 & N2 & [_ N3]%NoDup_cons). apply NoDup_app. split_and!; [done|set_solver|done]. }
  assert (Hnp : NoDup pre) by by apply NoDup_app in Hn' as [? _].
  unfold TAILQ_REMOVE. rewrite (chain_hd _ _ _ Hpost), (Hp pre e post eq_refl). cbn [mbind option_bind].
  set (X := pre ++ e :: post).
  assert (H1 : ∃ m1, match hd_error post with Some n => set_prev m n (end_cell (inl h) pre) | None => set_last m h (end_cell (inl h) pre) end = Some m1 ∧
                     cells m1 = cells m ∧ lasts m1 !! h = Some (end_cell (inl h) (pre ++ post)) ∧
                     prevs m1 = match post with y :: _ => <[y := end_cell (inl h) pre]> (prevs m) | [] => prevs m end ∧ changes [h] X m m1).
  { destruct post as [|y post]; cbn [hd_error].
    - destruct (set_last_ok m h (end_cell (inl h) pre)) as (m1 & -> & C1 & L1 & P1 & D1); [rewrite Hl; eauto|]. exists m1.
      split_and!; [done|done|by rewrite L1, lookup_insert_eq, app_nil_r|done|apply D1; set_solver].
    - destruct (set_prev_ok m y (end_cell (inl h) pre)) as (m1 & -> & C1 & L1 & P1 & D1).
      { rewrite (Hp (pre ++ [e]) y post) by by rewrite <- app_assoc. eauto. }
      exists m1. split_and!; [done|done|by rewrite L1, Hl, !end_cell_app, end_cell_cons|done|apply D1; unfold X; set_solver]. }
  destruct H1 as (m1 & -> & C1 & L1 & P1 & D1). cbn [mbind option_bind].
  destruct (cell_store_ok m1 (end_cell (inl h) pre) (hd_error post)) as (m2 & -> & C2 & L2 & P2 & D2); [rewrite C1, (chain_end _ _ _ _ Hpre); eauto|].
  exists m2. split; [done|]. apply (rep_one tq H E X m m2 L h X); [done|done| |auto|done|unfold X; set_solver|].
  - eapply changes_trans; [exact D1|]. apply D2, end_cell_in_list. unfold X. set_solver.
  - split; [|by rewrite P2, P1]. split; [|by rewrite L2]. rewrite C2, C1. destruct post as [|y post]; cbn [hd_error].
    + rewrite app_nil_r. eapply chain_set_end; [by apply NoDup_links_inl|exact Hpre].
    + destruct Hpost as [_ Hy]. apply chain_app. split; [eapply chain_set_end; [by apply NoDup_links_inl|exact Hpre]|].
      apply chain_insert; [|done]. destruct (end_cell_in (inl h) pre) as [->|(x & -> & Hx)]; [apply inl_not_link|].
      rewrite elem_of_links_inr. apply NoDup_app in Hn' as (_ & Hd & _). intros [E'|Hx2]; [injection E' as ->; apply (Hd x Hx), list_elem_of_here|].
      by apply (Hd x Hx), list_elem_of_further.
Qed.

Lemma tailq_first_rep m L h xs : Rt m L → L !! h = Some xs → TAILQ_FIRST m h = Some (hd_error xs) ∧ TAILQ_EMPTY m h = Some (bool_decide (xs = [])).
Proof.
  intros HR Hh. destruct (rep_tq_facts m L h xs HR Hh) as (Hc & _). unfold TAILQ_EMPTY, TAILQ_FIRST. rewrite (chain_hd _ _ _ Hc).
  split; [done|]. by destruct xs.
Qed.
End tailq.

(** ** Programs *)

(** Operations on the run queues, fallback queues and lists of waiters of ilocks, and on local lists of fibers. The last two take a
    bounded queue as argument and give it back. *)
Inductive sop :=
| SInit (h : loc) | SInsertHead (h e : loc) | SInsertTail (h e : loc) | SPop (h : loc) | SUnlock (h : loc)
| SPushStq (q fibers : loc) | SSteal (v w : loc)
| SMpmc (spurious : nat) (q : fev_bounded_mpmc_queue) (h : loc) (num : Z) | SSpmc (q : fev_bounded_spmc_queue) (h : loc) (num : Z).

(** Operations on the queues of waiting fibers. *)
Inductive top := TInit (h : loc) | TInsert (h e : loc) | TRemove (h e : loc) | TFirst (h : loc).

(** What an operation returns. *)
Inductive answer :=
| ANone | AFiber (f : option loc) | AUnlock (f : loc) (empty : bool) | ANum (n : Z)
| AMpmc (n : Z) (q : fev_bounded_mpmc_queue) | ASpmc (n : Z) (q : fev_bounded_spmc_queue).

Section programs.
Context (count : Z) (H E : gset loc).

(** With pointers. *)
Definition sexec (m : lmem) (o : sop) : option (answer * lmem) :=
  match o with
  | SInit h => pair ANone <$> STAILQ_INIT m h
  | SInsertHead h e => pair ANone <$> STAILQ_INSERT_HEAD m h e
  | SInsertTail h e => pair ANone <$> STAILQ_INSERT_TAIL m h e
  | SPop h => '(f, m) ← pop_fiber m h; Some (AFiber f, m)
  | SUnlock h => '(f, b, m) ← ilock_pop m h; Some (AUnlock f b, m)
  | SPushStq q fibers => pair ANone <$> push_stq m q fibers
  | SSteal v w => '(n, m) ← steal count m v w; Some (ANum n, m)
  | SMpmc sp q h num => '(n, q, m) ← mpmc_push_stq sp m q h num; Some (AMpmc n q, m)
  | SSpmc q h num => '(n, q, m) ← spmc_push_stq m q h num; Some (ASpmc n q, m)
  end.

Definition texec (m : lmem) (o : top) : option (answer * lmem) :=
  match o with
  | TInit h => pair ANone <$> TAILQ_INIT m h
  | TInsert h e => pair ANone <$> TAILQ_INSERT_TAIL m h e
  | TRemove h e => pair ANone <$> TAILQ_REMOVE m h e
  | TFirst h => f ← TAILQ_FIRST m h; Some (AFiber f, m)
  end.

(** With lists, as in the models of the schedulers, the bounded queues and the waiters queue. [None]: the library may not do this, for instance
    insert an element that is still in a list. *)
Definition aexec (L : gmap loc (list loc)) (o : sop) : option (answer * gmap loc (list loc)) :=
  match o with
  | SInit h => FEV_ASSERT bool_decide (h ∈ H); Some (ANone, <[h := []]> L)
  | SInsertHead h e =>
      FEV_ASSERT bool_decide (e ∈ E ∧ e ∉ all L); xs ← L !! h; Some (ANone, <[h := shr_sched_put e xs]> L)
  | SInsertTail h e =>
      FEV_ASSERT bool_decide (e ∈ E ∧ e ∉ all L); xs ← L !! h; Some (ANone, <[h := shr_push_one xs e]> L)
  | SPop h => xs ← L !! h; Some (AFiber (shr_get_fiber xs).1, <[h := (shr_get_fiber xs).2]> L)
  | SUnlock h =>
      xs ← L !! h;
      match xs with [] => None | x :: rest => Some (AUnlock x (bool_decide (rest = [])), <[h := rest]> L) end
  | SPushStq q fibers =>
      FEV_ASSERT bool_decide (q ≠ fibers); xs ← L !! q; ys ← L !! fibers;
      zs ← shr_push_stq xs ys (Z.of_nat (length ys)); Some (ANone, <[q := zs]> (delete fibers L))
  | SSteal v w => FEV_ASSERT bool_decide (v ≠ w); '(n, L) ← asteal count L v w; Some (ANum n, L)
  | SMpmc sp q h num =>
      xs ← L !! h; '(n, rest, q) ← fev_bounded_mpmc_queue_push_stq sp q xs num; Some (AMpmc n q, <[h := rest]> L)
  | SSpmc q h num =>
      xs ← L !! h; '(n, rest, q) ← fev_bounded_spmc_queue_push_stq q xs num; Some (ASpmc n q, <[h := rest]> L)
  end.

Definition atexec (L : gmap loc (list loc)) (o : top) : option (answer * gmap loc (list loc)) :=
  match o with
  | TInit h => FEV_ASSERT bool_decide (h ∈ H); Some (ANone, <[h := []]> L)
  | TInsert h e => FEV_ASSERT bool_decide (e ∈ E ∧ e ∉ all L); xs ← L !! h; Some (ANone, <[h := xs ++ [e]]> L)
  | TRemove h e => xs ← L !! h; FEV_ASSERT bool_decide (e ∈ xs); Some (ANone, <[h := tailq_remove xs e]> L)
  | TFirst h => xs ← L !! h; Some (AFiber (hd_error xs), L)
  end.

Fixpoint runs {S O} (step : S → O → option (answer * S)) (s : S) (os : list O) : option (list answer * S) :=
  match os with
  | [] => Some ([], s)
  | o :: os => '(a, s) ← step s o; '(l, s) ← runs step s os; Some (a :: l, s)
  end.

(** One operation. *)
Lemma sexec_rep m L o a L' : rep stq H E m L → aexec L o = Some (a, L') → ∃ m', sexec m o = Some (a, m') ∧ rep stq H E m' L'.
Proof.
  intros HR Ha. destruct o as [h|h e|h e|h|h|q f|v w|sp q h num|q h num]; cbn [aexec sexec] in *.
  - case_bool_decide; [|done]. injection Ha as <- <-. destruct (init_rep stq H E m L h) as (m' & -> & _ & HR'); [auto|done|done|]. by exists m'.
  - case_bool_decide as He; [|done]. destruct (L !! h) as [xs|] eqn:Hh; [|done]. injection Ha as <- <-.
    destruct (insert_head_rep H E m L h xs e HR Hh (proj1 He) (proj2 He)) as (m' & -> & HR'). by exists m'.
  - case_bool_decide as He; [|done]. destruct (L !! h) as [xs|] eqn:Hh; [|done]. injection Ha as <- <-.
    destruct (insert_tail_rep H E m L h xs e HR Hh (proj1 He) (proj2 He)) as (m' & -> & HR'). by exists m'.
  - destruct (L !! h) as [xs|] eqn:Hh; [|done]. injection Ha as <- <-.
    destruct (pop_fiber_rep H E m L h xs HR Hh) as (m' & -> & HR'). by exists m'.
  - destruct (L !! h) as [[|x xs]|] eqn:Hh; [done| |done]. injection Ha as <- <-.
    destruct (ilock_pop_rep H E m L h x xs HR Hh) as (m' & -> & HR'). by exists m'.
  - case_bool_decide; [|done]. destruct (L !! q) as [xs|] eqn:Hq; [|done]. destruct (L !! f) as [ys|] eqn:Hf; [|done].
    cbn [mbind option_bind] in Ha. destruct ys as [|y ys]; [done|]. injection Ha as <- <-.
    destruct (push_stq_rep H E m L q f xs (y :: ys) HR Hq Hf) as (m' & -> & HR'); [done|done|]. by exists m'.
  - case_bool_decide; [|done]. destruct (asteal count L v w) as [[n L2]|] eqn:Es; [|done]. injection Ha as <- <-.
    destruct (steal_rep H E count m L v w n L2 HR) as (m' & -> & HR'); [done|done|]. by exists m'.
  - destruct (L !! h) as [xs|] eqn:Hh; [|done]. cbn [mbind option_bind] in Ha.
    destruct (fev_bounded_mpmc_queue_push_stq sp q xs num) as [[[n rest] q2]|] eqn:Ep; [|done]. injection Ha as <- <-.
    destruct (mpmc_push_stq_rep H E sp m L h xs q num n rest q2 HR Hh Ep) as (m' & -> & HR'). by exists m'.
  - destruct (L !! h) as [xs|] eqn:Hh; [|done]. cbn [mbind option_bind] in Ha.
    destruct (fev_bounded_spmc_queue_push_stq q xs num) as [[[n rest] q2]|] eqn:Ep; [|done]. injection Ha as <- <-.
    destruct (spmc_push_stq_rep H E m L h xs q num n rest q2 HR Hh Ep) as (m' & -> & HR'). by exists m'.
Qed.

Lemma texec_rep m L o a L' : rep tq H E m L → atexec L o = Some (a, L') → ∃ m', texec m o = Some (a, m') ∧ rep tq H E m' L'.
Proof.
  intros HR Ha. destruct o as [h|h e|h e|h]; cbn [atexec texec] in *.
  - case_bool_decide; [|done]. injection Ha as <- <-. destruct (tailq_init_rep H E m L h) as (m' & -> & HR'); [done|done|]. by exists m'.
  - case_bool_decide as He; [|done]. destruct (L !! h) as [xs|] eqn:Hh; [|done]. injection Ha as <- <-.
    destruct (tailq_insert_rep H E m L h xs e HR Hh (proj1 He) (proj2 He)) as (m' & -> & HR'). by exists m'.
  - destruct (L !! h) as [xs|] eqn:Hh; [|done]. cbn [mbind option_bind] in Ha. case_bool_decide as He; [|done]. injection Ha as <- <-.
    destruct (tailq_remove_rep H E m L h xs e HR Hh He) as (m' & -> & HR'). by exists m'.
  - destruct (L !! h) as [xs|] eqn:Hh; [|done]. injection Ha as <- <-.
    destruct (tailq_first_rep H E m L h xs HR Hh) as [-> _]. by exists m.
Qed.

(** A simulation of one step is one of a program. *)
Lemma runs_sim {S A O} (I : S → A → Prop) (st : S → O → option (answer * S)) (ast : A → O → option (answer * A)) :
  (∀ s a o r a', I s a → ast a o = Some (r, a') → ∃ s', st s o = Some (r, s') ∧ I s' a') →
  ∀ os s a l a', I s a → runs ast a os = Some (l, a') → ∃ s', runs st s os = Some (l, s') ∧ I s' a'.
Proof.
  intros Hstep. induction os as [|o os IH]; intros s a l a' Hi Hr; cbn [runs] in *; [injection Hr as <- <-; eauto|].
  destruct (ast a o) as [[r a1]|] eqn:Ea; [|done]. cbn [mbind option_bind] in Hr. destruct (runs ast a1 os) as [[l1 a2]|] eqn:Er; [|done].
  injection Hr as <- <-. destruct (Hstep _ _ _ _ _ Hi Ea) as (s1 & -> & Hi1). cbn [mbind option_bind].
  destruct (IH _ _ _ _ Hi1 Er) as (s2 & -> & Hi2). by exists s2.
Qed.

(** Memory in which nothing is initialised. *)
Definition fresh : lmem :=
  mk_lmem (gset_to_gmap None (set_map inl H ∪ set_map inr E)) (gset_to_gmap (inl 1%positive) H) (gset_to_gmap (inl 1%positive) E).

Lemma fresh_rep P : rep P H E fresh ∅.
Proof.
  split; [done|apply NoDup_nil_2|set_solver|intros x Hx; by apply not_elem_of_nil in Hx| |]; intros y Hy; cbn [cells lasts prevs fresh];
    (split; eexists; apply lookup_gset_to_gmap_Some; (split; [|reflexivity]); set_solver).
Qed.
End programs.

(** ** Properties *)

(** C20: The linked lists behave as the lists of the other models. Take any program of list operations of the library: initialisation,
    insertion at both ends, taking the first fiber, handing an ilock over, appending a whole list ([fev_push_stq]), stealing a part of the
    list of another worker ([fev_sched_steal]), moving a list to a bounded queue; and for the doubly-linked lists insertion, removal of
    any element and looking at the first one. If the program only inserts elements that are in no list, then the macros and the
    assignments to link fields never access a field that does not exist, every loop ends, each operation returns what the
    operation on lists returns, and afterwards the memory holds exactly the lists of the model, which share no element. *)
Theorem linked_lists_refine (count : Z) (H E : gset loc) (m m2 : lmem) (L L2 : gmap loc (list loc)) :
  rep stq H E m L → rep tq H E m2 L2 →
  (∀ os l L', runs (aexec count H E) L os = Some (l, L') →
     ∃ m', runs (sexec count) m os = Some (l, m') ∧ rep stq H E m' L') ∧
  (∀ os l L', runs (atexec H E) L2 os = Some (l, L') →
     ∃ m', runs texec m2 os = Some (l, m') ∧ rep tq H E m' L').
Proof.
  intros HR HR2. split; intros os l L' Hr.
  - eapply runs_sim; [apply sexec_rep|exact HR|exact Hr].
  - eapply runs_sim; [apply texec_rep|exact HR2|exact Hr].
Qed.

(** Two workers and the local list of a poller: three fibers are woken up, the second worker steals two of them. *)
Definition ex_sops : list sop :=
  [SInit 1; SInit 2; SInit 3; SInsertTail 3 10; SInsertTail 3 11; SInsertTail 3 12; SInsertTail 1 13; SPushStq 1 3; SSteal 1 2;
   SPop 2; SUnlock 2; SPop 1; SPop 2; SInsertHead 1 10].
Definition ex_tops : list top := [TInit 1; TInsert 1 10; TInsert 1 11; TInsert 1 12; TRemove 1 11; TRemove 1 10; TFirst 1].
Definition ex_heads : gset loc := {[1; 2; 3]}%positive.
Definition ex_elems : gset loc := {[10; 11; 12; 13]}%positive.

Lemma linked_lists_refine_witness :
  (∃ m', runs (sexec 2) (fresh ex_heads ex_elems) ex_sops =
     Some ([ANone; ANone; ANone; ANone; ANone; ANone; ANone; ANone; ANum 2; AFiber (Some 13%positive); AUnlock 10 true;
            AFiber (Some 11%positive); AFiber None; ANone], m') ∧ stq m' 1 [10; 12]%positive) ∧
  (∃ m', runs texec (fresh ex_heads ex_elems) ex_tops = Some ([ANone; ANone; ANone; ANone; ANone; ANone; AFiber (Some 12%positive)], m')).
Proof.
  destruct (linked_lists_refine 2 ex_heads ex_elems (fresh ex_heads ex_elems) (fresh ex_heads ex_elems) ∅ ∅
              (fresh_rep _ _ _) (fresh_rep _ _ _)) as [H1 H2].
  split.
  - edestruct (H1 ex_sops) as (m' & E & HR); [vm_compute; reflexivity|]. exists m'. split; [exact E|]. by apply (rp_list _ _ _ _ _ HR).
  - edestruct (H2 ex_tops) as (m' & E & HR); [vm_compute; reflexivity|]. exists m'. exact E.
Defined.
