(* ===== verification/Sched.v ===== *)
(** The scheduler: [fev_sched_work] of the six schedulers, the wake-up functions
    of [src/src/fev_sched_impl.h] and [src/src/fev_sched_common.c], and what a
    fiber does to the scheduler ([fev_fiber_create], [fev_fiber_exit_post],
    [fev_yield], [fev_waiter_wait], [fev_ilock_lock_slow]).

    A worker's program counter says where in these functions it is; a step is
    one access to a shared counter, one operation on the run queues
    ([SchedQueue]), or one system call. The poller is the one of the reactor
    back ends: a single event descriptor interrupts it, and an interrupt is
    consumed by the worker whose [epoll_wait] returns it. *)

From S2P Require Import Prelude SchedIntf.

Local Open Scope Z_scope.

(** ** Program counters *)

Inductive pc :=
(* a fiber runs; [b] is the variable [backoff] of [fev_sched_work] *)
| Fib (f : loc) (b : Z)
| New (f : loc) (b : Z) (g : loc)      (* [fev_fiber_create]: counted, not pushed *)
| Switch (f : loc) (b : Z)             (* not counted any more, context being saved *)
| Post (b : Z)                         (* the call after the context switch *)
| Exit1 (f : loc) (b : Z) | Exit2 (b : Z)
(* the wake-up functions, and where they return to *)
| WakeAdd (n : Z) (ret : pc) | WakeLoad (n : Z) (ret : pc) | WakeSlow (n : Z) (ret : pc)
| WakeIntr (n : Z) (ret : pc) | WakePost (n : Z) (ret : pc) | AllIntr (ret : pc)
(* [fev_sched_work], work stealing *)
| Local (b : Z) | Global | Fallback | Size | Steal | LoadRun | LoadWaiting (r : Z) | LoadFibers
| Xchg | Add (pw : bool) | Reload (pw : bool) (old : Z) | UndoPoller | UndoAdd
| PollWait | PollReset | PollSub | PollSize | Quiescent | SemWait | SemSub
(* [fev_sched_work], work sharing *)
| Get | Backoff | CheckPoller | ShFallback | ShLoadRun | ShStore (r : Z) | ShFibers | ShAdd | ShXchg
| ShPollWait | ShPollReset | ShQuiescent | ShSemWait | ShSub
| Done.

(** What the environment chooses: the fiber's next action, or what
    [epoll_wait] returns ([take]: the interrupt is among the events, [fs]: the
    fibers that the other events make runnable). *)
Inductive action :=
| Tau | AWakeOne (g : loc) | AWakeStq (fs : list loc) | ACreate (g : loc) | ABlock | AExit | AWakeAll
| APoll (take : bool) (fs : list loc).

(** [Disabled]: the action is not possible here, or the worker is blocked.
    [Fault]: an assertion fails or memory is accessed out of bounds. *)
Inductive outcome (S : Type) := Disabled | Fault | Next (s : S).
Arguments Disabled {S}.
Arguments Fault {S}.
Arguments Next {S} s.

Definition attempt {A S} (o : option A) (k : A → outcome S) : outcome S :=
  match o with None => Fault | Some x => k x end.
Notation "x '<~' o ; k" := (attempt o (λ x, k)) (at level 100, o at level 99, k at level 200, right associativity).

Section sched.
Context {Q : Type} `{SQ : SchedQueue Q} (num_workers : nat).
Let N : Z := Z.of_nat num_workers.

Record sched := mk_sched {
  num_run_fibers : Z;
  num_fibers : Z;
  num_waiting : Z;
  poller_waiting : bool;
  poller_backoff : Z;             (* work sharing *)
  sem : Z;
  interrupted : bool;             (* the event descriptor is ready *)
  queues : Q;
  pcs : nat → pc;
  alive : list loc;               (* ghost: the fibers *)
  blocked : list loc;             (* ghost: those that wait *)
}.

Definition go (s : sched) (w : nat) (p : pc) : sched :=
  mk_sched (num_run_fibers s) (num_fibers s) (num_waiting s) (poller_waiting s) (poller_backoff s)
    (sem s) (interrupted s) (queues s) (upd (pcs s) w p) (alive s) (blocked s).
Definition set_run (s : sched) (v : Z) : sched :=
  mk_sched v (num_fibers s) (num_waiting s) (poller_waiting s) (poller_backoff s)
    (sem s) (interrupted s) (queues s) (pcs s) (alive s) (blocked s).
Definition set_fibers (s : sched) (v : Z) (l : list loc) : sched :=
  mk_sched (num_run_fibers s) v (num_waiting s) (poller_waiting s) (poller_backoff s)
    (sem s) (interrupted s) (queues s) (pcs s) l (blocked s).
Definition set_waiting (s : sched) (v : Z) : sched :=
  mk_sched (num_run_fibers s) (num_fibers s) v (poller_waiting s) (poller_backoff s)
    (sem s) (interrupted s) (queues s) (pcs s) (alive s) (blocked s).
Definition set_poller (s : sched) (v : bool) : sched :=
  mk_sched (num_run_fibers s) (num_fibers s) (num_waiting s) v (poller_backoff s)
    (sem s) (interrupted s) (queues s) (pcs s) (alive s) (blocked s).
Definition set_backoff (s : sched) (v : Z) : sched :=
  mk_sched (num_run_fibers s) (num_fibers s) (num_waiting s) (poller_waiting s) v
    (sem s) (interrupted s) (queues s) (pcs s) (alive s) (blocked s).
Definition set_sem (s : sched) (v : Z) : sched :=
  mk_sched (num_run_fibers s) (num_fibers s) (num_waiting s) (poller_waiting s) (poller_backoff s)
    v (interrupted s) (queues s) (pcs s) (alive s) (blocked s).
Definition set_intr (s : sched) (v : bool) : sched :=
  mk_sched (num_run_fibers s) (num_fibers s) (num_waiting s) (poller_waiting s) (poller_backoff s)
    (sem s) v (queues s) (pcs s) (alive s) (blocked s).
Definition set_queues (s : sched) (q : Q) : sched :=
  mk_sched (num_run_fibers s) (num_fibers s) (num_waiting s) (poller_waiting s) (poller_backoff s)
    (sem s) (interrupted s) q (pcs s) (alive s) (blocked s).
Definition set_blocked (s : sched) (l : list loc) : sched :=
  mk_sched (num_run_fibers s) (num_fibers s) (num_waiting s) (poller_waiting s) (poller_backoff s)
    (sem s) (interrupted s) (queues s) (pcs s) (alive s) l.

(** ** The wake-up functions *)

(** [fev_push_one] or [fev_push_stq] of fibers that wait; each of them was chosen
    by exactly one waker. *)
Definition may_wake (s : sched) (fs : list loc) : bool :=
  bool_decide (fs ≠ [] ∧ NoDup fs ∧ fs ⊆ blocked s).

Definition unblock (s : sched) (fs : list loc) : sched :=
  set_blocked s (filter (λ f, f ∉ fs) (blocked s)).

(** [fev_wake_one]. *)
Definition fev_wake_one (s : sched) (w : nat) (g : loc) (ret : pc) : outcome sched :=
  q <~ sq_push_one w g (queues s);
  Next (go (set_queues s q) w (WakeAdd 1 ret)).

(** [fev_wake_stq]. *)
Definition fev_wake_stq (s : sched) (w : nat) (fs : list loc) (ret : pc) : outcome sched :=
  q <~ sq_push_stq w fs (queues s);
  Next (go (set_queues s q) w (WakeAdd (Z.of_nat (length fs)) ret)).

(** [fev_wake_up_waiting_workers]: the counter, then the workers that wait. *)
Definition fev_wake_up_waiting_workers (s : sched) (w : nat) (p : pc) : outcome sched :=
  match p with
  | WakeAdd n ret => Next (go (set_run s (u32 (num_run_fibers s + n))) w (WakeLoad n ret))
  | WakeLoad n ret =>
      let nw := num_waiting s in
      if nw =? 0 then Next (go s w ret) else Next (go s w (WakeSlow (if nw <? n then nw else n) ret))
  | _ => Disabled
  end.

(** [fev_wake_workers_slow]. *)
Definition fev_wake_workers_slow (s : sched) (w : nat) (p : pc) : outcome sched :=
  match p with
  | WakeSlow n ret => Next (go s w (if poller_waiting s then WakeIntr n ret else WakePost n ret))
  | WakeIntr n ret => Next (go (set_intr s true) w (WakePost (u32 (n - 1)) ret))
  | WakePost n ret =>
      if n =? 0 then Next (go s w ret) else Next (go (set_sem s (sem s + 1)) w (WakePost (n - 1) ret))
  | _ => Disabled
  end.

(** [fev_sched_wake_all_workers]: an interrupt, then a post per worker. *)
Definition fev_sched_wake_all_workers (s : sched) (w : nat) (ret : pc) : outcome sched :=
  Next (go (set_intr s true) w (WakePost N ret)).

(** ** Fibers *)

(** Where [fev_sched_work] continues after [fev_context_switch]. *)
Definition after_switch (b : Z) : pc :=
  if sq_stealing then (if b =? 0 then Global else Local (b - 1)) else Backoff.

Definition fiber_step (s : sched) (w : nat) (p : pc) (act : action) : outcome sched :=
  match p, act with
  | (Fib _ _ | Post _), AWakeOne g =>
      if may_wake s [g] then fev_wake_one (unblock s [g]) w g p else Disabled
  | (Fib _ _ | Post _), AWakeStq fs =>
      if may_wake s fs then fev_wake_stq (unblock s fs) w fs p else Disabled
  | Fib f b, ACreate g =>
      if bool_decide (g ∉ alive s) && (num_fibers s <? UINT32_MAX)
      then Next (go (set_fibers s (u32 (num_fibers s + 1)) (g :: alive s)) w (New f b g))
      else Disabled
  | New f b g, Tau => fev_wake_one s w g (Fib f b)
  | Fib f b, ABlock => Next (go (set_run s (u32 (num_run_fibers s - 1))) w (Switch f b))
  | Switch f b, Tau => Next (go (set_blocked s (f :: blocked s)) w (Post b))
  | Post b, Tau => Next (go s w (after_switch b))
  | Fib f b, AExit => Next (go s w (Exit1 f b))
  | Exit1 f b, Tau =>
      Next (go (set_fibers s (u32 (num_fibers s - 1)) (filter (λ x, x ≠ f) (alive s))) w (Exit2 b))
  | Exit2 b, Tau => Next (go (set_run s (u32 (num_run_fibers s - 1))) w (after_switch b))
  | Fib f b, AWakeAll => Next (go s w (AllIntr p))
  | _, _ => Disabled
  end.

(** [fev_poller_check] and the return of [fev_poller_wait]; [ret] follows. *)
Definition poller_process (s : sched) (w : nat) (take : bool) (fs : list loc) (ret : pc) : outcome sched :=
  if take && negb (interrupted s) then Disabled
  else
    let s := set_intr s (if take then false else interrupted s) in
    match fs with
    | [] => Next (go s w ret)
    | _ => if may_wake s fs then fev_wake_stq (unblock s fs) w fs ret else Disabled
    end.

(** ** [fev_sched_work], work stealing *)

Definition steal_work_step (s : sched) (w : nat) (p : pc) (act : action) : outcome sched :=
  match p, act with
  | Local b, Tau =>
      r <~ sq_pop w (queues s);
      Next (go (set_queues s r.2) w (match r.1 with Some f => Fib f b | None => Global end))
  | Global, APoll take fs => poller_process s w take fs Fallback
  | Fallback, Tau => q <~ sq_move w (queues s); Next (go (set_queues s q) w Size)
  | Size, Tau => n <~ sq_size w (queues s); Next (go s w (if 0 <? n then Local n else Steal))
  | Steal, Tau =>
      r <~ sq_steal w (queues s);
      Next (go (set_queues s r.2) w (if 0 <? r.1 then Local r.1 else LoadRun))
  | LoadRun, Tau => Next (go s w (LoadWaiting (num_run_fibers s)))
  | LoadWaiting r, Tau =>
      if u32 (N - num_waiting s) <=? r then Next (go s w Global)
      else Next (go s w (if r =? 0 then LoadFibers else Xchg))
  | LoadFibers, Tau => Next (go s w (if num_fibers s =? 0 then AllIntr Done else Xchg))
  | Xchg, Tau => Next (go (set_poller s true) w (Add (poller_waiting s)))
  | Add pw, Tau => Next (go (set_waiting s (u32 (num_waiting s + 1))) w (Reload pw (num_waiting s)))
  | Reload pw old, Tau =>
      if u32 (N - old) <=? num_run_fibers s then Next (go s w (if pw then UndoAdd else UndoPoller))
      else Next (go s w (if pw then Quiescent else PollWait))
  | UndoPoller, Tau => Next (go (set_poller s false) w UndoAdd)
  | UndoAdd, Tau => Next (go (set_waiting s (u32 (num_waiting s - 1))) w Global)
  | PollWait, APoll take fs => poller_process s w take fs PollReset
  | PollReset, Tau => Next (go (set_poller s false) w PollSub)
  | PollSub, Tau => Next (go (set_waiting s (u32 (num_waiting s - 1))) w PollSize)
  | PollSize, Tau => n <~ sq_size w (queues s); Next (go s w (Local n))
  | Quiescent, Tau => Next (go s w SemWait)
  | SemWait, Tau => if 0 <? sem s then Next (go (set_sem s (sem s - 1)) w SemSub) else Disabled
  | SemSub, Tau => Next (go (set_waiting s (u32 (num_waiting s - 1))) w Global)
  | _, _ => Disabled
  end.

(** ** [fev_sched_work], work sharing *)

Definition shr_work_step (s : sched) (w : nat) (p : pc) (act : action) : outcome sched :=
  match p, act with
  | Get, Tau =>
      r <~ sq_pop w (queues s);
      Next (go (set_queues s r.2) w (match r.1 with Some f => Fib f 0 | None => CheckPoller end))
  | Backoff, Tau =>
      Next (go (set_backoff s (u32 (poller_backoff s - 1))) w
              (if poller_backoff s =? 1 then CheckPoller else Get))
  | CheckPoller, APoll take fs => poller_process s w take fs ShFallback
  | ShFallback, Tau => q <~ sq_move w (queues s); Next (go (set_queues s q) w ShLoadRun)
  | ShLoadRun, Tau => Next (go s w (ShStore (num_run_fibers s)))
  | ShStore r, Tau => Next (go (set_backoff s r) w (if 0 <? r then Get else ShFibers))
  | ShFibers, Tau => Next (go s w (if num_fibers s =? 0 then AllIntr Done else ShAdd))
  | ShAdd, Tau => Next (go (set_waiting s (u32 (num_waiting s + 1))) w ShXchg)
  | ShXchg, Tau => Next (go (set_poller s true) w (if poller_waiting s then ShQuiescent else ShPollWait))
  | ShPollWait, APoll take fs => poller_process s w take fs ShPollReset
  | ShPollReset, Tau => Next (go (set_poller s false) w ShSub)
  | ShQuiescent, Tau => Next (go s w ShSemWait)
  | ShSemWait, Tau => if 0 <? sem s then Next (go (set_sem s (sem s - 1)) w ShSub) else Disabled
  | ShSub, Tau => Next (go (set_waiting s (u32 (num_waiting s - 1))) w Get)
  | _, _ => Disabled
  end.

(** ** The system *)

Definition worker_step (s : sched) (w : nat) (act : action) : outcome sched :=
  let p := pcs s w in
  match p with
  | Fib _ _ | New _ _ _ | Switch _ _ | Post _ | Exit1 _ _ | Exit2 _ => fiber_step s w p act
  | WakeAdd _ _ | WakeLoad _ _ => match act with Tau => fev_wake_up_waiting_workers s w p | _ => Disabled end
  | WakeSlow _ _ | WakeIntr _ _ | WakePost _ _ =>
      match act with Tau => fev_wake_workers_slow s w p | _ => Disabled end
  | AllIntr ret => match act with Tau => fev_sched_wake_all_workers s w ret | _ => Disabled end
  | Done => Disabled
  | _ => if sq_stealing then steal_work_step s w p act else shr_work_step s w p act
  end.

Definition sched_step (s : sched) (l : nat * action) : outcome sched :=
  if (l.1 <? num_workers)%nat then worker_step s l.1 l.2 else Disabled.

Definition sched_next (s : sched) (l : nat * action) : option sched :=
  match sched_step s l with Next s' => Some s' | _ => None end.

(** [fev_fiber_create] before [fev_sched_run]: the fiber is counted and put into
    the queues. *)
Definition fev_sched_put (s : sched) (f : loc) : option sched :=
  let s := set_fibers s (u32 (num_fibers s + 1)) (f :: alive s) in
  q ← sq_put f (queues s);
  Some (set_run (set_queues s q) (u32 (num_run_fibers s + 1))).

Fixpoint put_all (s : sched) (fs : list loc) : option sched :=
  match fs with
  | [] => Some s
  | f :: fs => s ← fev_sched_put s f; put_all s fs
  end.

(** [fev_sched_init], then the workers start. *)
Definition sched_init (q : Q) : sched :=
  mk_sched 0 0 0 false 1 0 false q (λ _, if sq_stealing then Local 0 else Get) [] [].
End sched.
