(* ===== verification/SchedInv.v ===== *)
(** The invariant of the scheduler and its consequences: no fiber is lost, no
    runnable fiber is forgotten, somebody always watches the poller, and the
    workers stop together. *)

From S2P Require Import Prelude SchedIntf Sched.

Local Open Scope Z_scope.

(** ** Sums over the workers *)

Section sums.
Context (N : nat) {A : Type}.

Definition wsum (g : A → Z) (ps : nat → A) : Z := foldr (λ w acc, g (ps w) + acc) 0 (seq 0 N).

Lemma foldr_upd (g : A → Z) (ps : nat → A) w p l :
  NoDup l →
  foldr (λ x acc, g (upd ps w p x) + acc) 0 l =
  foldr (λ x acc, g (ps x) + acc) 0 l + if decide (w ∈ l) then g p - g (ps w) else 0.
Proof.
  induction 1 as [|x l Hx _ IH]; cbn [foldr].
  - destruct (decide (w ∈ [])) as [H|]; [by apply not_elem_of_nil in H|done].
  - rewrite IH. destruct (decide (w = x)) as [->|Hne].
    + rewrite upd_eq, (decide_False (P := x ∈ l)), decide_True by (done || apply list_elem_of_here). lia.
    + rewrite upd_ne by done.
      destruct (decide (w ∈ l)), (decide (w ∈ x :: l)) as [Hi|Hi]; set_solver || lia.
Qed.

Lemma wsum_upd g ps w p : (w < N)%nat → wsum g (upd ps w p) = wsum g ps + (g p - g (ps w)).
Proof.
  intros Hw. unfold wsum. rewrite foldr_upd by apply NoDup_seq. f_equal.
  by rewrite decide_True by (apply elem_of_seq; lia).
Qed.

Lemma foldr_le (g h : A → Z) (ps : nat → A) l :
  (∀ w, w ∈ l → g (ps w) <= h (ps w)) →
  foldr (λ w acc, g (ps w) + acc) 0 l <= foldr (λ w acc, h (ps w) + acc) 0 l.
Proof.
  induction l as [|w l IH]; simpl; intros H; [lia|].
  pose proof (H w (list_elem_of_here _ _)). specialize (IH (λ x Hx, H x (list_elem_of_further _ _ _ Hx))). lia.
Qed.

Lemma wsum_le g h ps : (∀ w, (w < N)%nat → g (ps w) <= h (ps w)) → wsum g ps <= wsum h ps.
Proof. intros H. apply foldr_le. intros w [_ Hw]%elem_of_seq. apply H. lia. Qed.

Lemma wsum_nonneg g ps : (∀ w, (w < N)%nat → 0 <= g (ps w)) → 0 <= wsum g ps.
Proof.
  intros H. pose proof (wsum_le (λ _, 0) g ps H) as Hl. unfold wsum in Hl at 1.
  assert (E : ∀ l : list nat, foldr (λ _ acc, 0 + acc) 0 l = 0) by (induction l; simpl; lia).
  rewrite E in Hl. done.
Qed.

Lemma wsum_zero g ps : (∀ w, (w < N)%nat → g (ps w) = 0) → wsum g ps = 0.
Proof.
  intros H. unfold wsum. assert (H' : ∀ w, w ∈ seq 0 N → g (ps w) = 0).
  { intros w [_ Hw]%elem_of_seq. apply H. lia. }
  induction (seq 0 N) as [|w l IH]; simpl; [done|]. rewrite H' by apply list_elem_of_here.
  apply IH. intros x Hx. apply H'. by apply list_elem_of_further.
Qed.

Lemma wsum_plus g h ps : wsum (λ p, g p + h p) ps = wsum g ps + wsum h ps.
Proof. unfold wsum. induction (seq 0 N) as [|w l IH]; simpl; lia. Qed.

Lemma wsum_sub g h ps : wsum (λ p, g p - h p) ps = wsum g ps - wsum h ps.
Proof. unfold wsum. induction (seq 0 N) as [|w l IH]; simpl; lia. Qed.

Lemma wsum_const c ps : wsum (λ _, c) ps = c * Z.of_nat N.
Proof.
  unfold wsum. assert (E : ∀ l : list nat, foldr (λ _ acc, c + acc) 0 l = c * Z.of_nat (length l))
    by (induction l; simpl length; simpl foldr; lia).
  by rewrite E, length_seq.
Qed.

(** A positive sum of indicators has a positive term. *)
Lemma wsum_pos g ps : 0 < wsum g ps → ∃ w, (w < N)%nat ∧ 0 < g (ps w).
Proof.
  intros H. destruct (decide (Exists (λ w, 0 < g (ps w)) (seq 0 N))) as [He|He].
  - apply Exists_exists in He as (w & [_ Hw]%elem_of_seq & Hp). exists w. split; [lia|done].
  - exfalso. assert (wsum g ps <= wsum (λ _, 0) ps); [|rewrite wsum_const in *; lia].
    apply wsum_le. intros w Hw. destruct (Z.le_gt_cases (g (ps w)) 0); [done|]. exfalso. apply He.
    apply Exists_exists. exists w. split; [apply elem_of_seq; lia|lia].
Qed.

Lemma wsum_ge1 g ps w : (∀ w, (w < N)%nat → 0 <= g (ps w)) → (w < N)%nat → g (ps w) <= wsum g ps.
Proof.
  intros H Hw. unfold wsum.
  assert (H' : ∀ x, x ∈ seq 0 N → 0 <= g (ps x)) by (intros x [_ Hx]%elem_of_seq; apply H; lia).
  assert (Hin : w ∈ seq 0 N) by (apply elem_of_seq; lia).
  induction (seq 0 N) as [|x l IH]; simpl; [by apply not_elem_of_nil in Hin|].
  assert (Hl : 0 <= foldr (λ x acc, g (ps x) + acc) 0 l).
  { assert (Hl' : ∀ y, y ∈ l → 0 <= g (ps y)) by (intros y Hy; apply H'; by apply list_elem_of_further).
    clear -Hl'. induction l as [|y l IH]; simpl; [lia|].
    pose proof (Hl' y (list_elem_of_here _ _)). specialize (IH (λ z Hz, Hl' z (list_elem_of_further _ _ _ Hz))). lia. }
  pose proof (H' x (list_elem_of_here _ _)).
  apply elem_of_cons in Hin as [->|Hin]; [lia|].
  specialize (IH (λ y Hy, H' y (list_elem_of_further _ _ _ Hy)) Hin). lia.
Qed.
End sums.

(** ** What a program counter contributes *)

(** The fibers a worker holds. *)
Fixpoint held (p : pc) : list loc :=
  match p with
  | Fib f _ | Switch f _ | Exit1 f _ => [f]
  | New f _ g => [f; g]
  | WakeAdd _ r | WakeLoad _ r | WakeSlow _ r | WakeIntr _ r | WakePost _ r | AllIntr r => held r
  | _ => []
  end.

(** Its share of [num_run_fibers], next to the queued fibers. *)
Fixpoint cnt (p : pc) : Z :=
  match p with
  | Fib _ _ | New _ _ _ | Exit1 _ _ | Exit2 _ => 1
  | WakeAdd n r => cnt r - n
  | WakeLoad _ r | WakeSlow _ r | WakeIntr _ r | WakePost _ r | AllIntr r => cnt r
  | _ => 0
  end.

(** Is [num_run_fibers] about to be changed for a fiber that is gone already? *)
Definition pending (p : pc) : Z := match p with Exit2 _ | WakeAdd _ _ => 1 | _ => 0 end.

(** Is it counted in [num_waiting]? *)
Fixpoint waiting (p : pc) : Z :=
  match p with
  | Reload _ _ | UndoPoller | UndoAdd | PollWait | PollReset | PollSub | Quiescent | SemWait | SemSub
  | ShXchg | ShPollWait | ShPollReset | ShQuiescent | ShSemWait | ShSub => 1
  | WakeAdd _ r | WakeLoad _ r | WakeSlow _ r | WakeIntr _ r | WakePost _ r | AllIntr r => waiting r
  | _ => 0
  end.

(** Did it set [poller_waiting]? *)
Fixpoint owner (p : pc) : Z :=
  match p with
  | Add false | Reload false _ | UndoPoller | PollWait | PollReset | ShPollWait | ShPollReset => 1
  | WakeAdd _ r | WakeLoad _ r | WakeSlow _ r | WakeIntr _ r | WakePost _ r | AllIntr r => owner r
  | _ => 0
  end.

(** Has it seen that there are no fibers left? *)
Fixpoint leaving (p : pc) : Z :=
  match p with
  | WakeAdd _ r | WakeLoad _ r | WakeSlow _ r | WakeIntr _ r | WakePost _ r | AllIntr r => leaving r
  | Done => 1
  | _ => 0
  end.

Section contributions.
Context (N : nat) (stealing : bool).

(** Will it look at [num_run_fibers] again before it sleeps? The last worker to
    be counted as waiting does. *)
Fixpoint alert (p : pc) : Z :=
  match p with
  | Reload _ old => if old =? Z.of_nat N - 1 then 1 else 0
  | ShStore r => if r =? 0 then 0 else 1
  | PollWait | Quiescent | SemWait | ShPollWait | ShQuiescent | ShSemWait | ShFibers | ShAdd | ShXchg
  | Done => 0
  | WakeAdd _ r | WakeLoad _ r | WakeSlow _ r | WakeIntr _ r | WakePost _ r | AllIntr r => alert r
  | _ => 1
  end.

(** Will it try to become the one that waits for the poller, or is it already? *)
Fixpoint candidate (p : pc) : Z :=
  match p with
  | Add true | Reload true _ | Quiescent | SemWait | ShQuiescent | ShSemWait | Done => 0
  | WakeAdd _ r | WakeLoad _ r | WakeSlow _ r | WakeIntr _ r | WakePost _ r | AllIntr r => candidate r
  | _ => 1
  end.

(** When there are no fibers: will it wake up the others? *)
Fixpoint fresh (p : pc) : Z :=
  match p with
  | LoadWaiting r => if r =? 0 then 1 else 0
  | Xchg | Add _ | Reload _ _ | PollWait | Quiescent | SemWait
  | ShAdd | ShXchg | ShPollWait | ShQuiescent | ShSemWait | Done => 0
  | AllIntr _ => 1
  | WakeAdd _ r | WakeLoad _ r | WakeSlow _ r | WakeIntr _ r | WakePost _ r => fresh r
  | _ => 1
  end.

(** May it wait for the semaphore before it looks at [num_fibers] again? *)
Definition sleepy (p : pc) : Z :=
  match p with
  | LoadWaiting r => if r =? 0 then 0 else 1
  | Xchg | Add true | Reload true _ | Quiescent | SemWait | ShAdd | ShXchg | ShQuiescent | ShSemWait => 1
  | _ => 0
  end.

(** The posts a leaving worker still has to do. *)
Definition posts (p : pc) : Z := match p with WakePost n Done => n | _ => 0 end.

Definition ret_ok (r : pc) : Prop :=
  match r with
  | Fib _ _ | Post _ => True
  | Fallback | PollReset | PollSub => stealing = true
  | ShFallback | ShPollReset | ShSub => stealing = false
  | _ => False
  end.

Definition pc_ok (p : pc) : Prop :=
  match p with
  | WakeAdd n r | WakeLoad n r | WakeSlow n r | WakeIntr n r => 1 <= n ∧ ret_ok r
  | WakePost n r => 0 <= n ∧ (ret_ok r ∨ r = Done)
  | AllIntr r => ret_ok r ∨ r = Done
  | Reload _ old => stealing = true ∧ 0 <= old < Z.of_nat N
  | LoadWaiting r => stealing = true ∧ 0 <= r
  | ShStore r => stealing = false ∧ 0 <= r
  | Local _ | Global | Fallback | Size | Steal | LoadRun | LoadFibers | Xchg | Add _ | UndoPoller | UndoAdd
  | PollWait | PollReset | PollSub | PollSize | Quiescent | SemWait | SemSub => stealing = true
  | Get | Backoff | CheckPoller | ShFallback | ShLoadRun | ShFibers | ShAdd | ShXchg
  | ShPollWait | ShPollReset | ShQuiescent | ShSemWait | ShSub => stealing = false
  | _ => True
  end.

(** Relations between the contributions, proved by looking at every program
    counter and where it may return to. *)
Ltac pc_cases :=
  repeat match goal with
    | b : bool |- _ => assert_fails (constr_eq b stealing); destruct b
    | |- context [if ?x =? ?y then _ else _] => destruct (Z.eqb_spec x y)
    | H : _ ∧ _ |- _ => destruct H
    | H : _ ∨ _ |- _ => destruct H
    end.
Ltac by_pc :=
  intros p Hp; destruct p; simpl in *; try discriminate; pc_cases; try solve [lia|done|intros; lia|intros; congruence];
  match goal with r : pc |- _ => destruct r end; simpl in *; try contradiction; try discriminate; pc_cases;
  solve [lia|done|intros; lia|intros; congruence].

Lemma waiting_bit p : pc_ok p → 0 <= waiting p <= 1.
Proof. revert p. by_pc. Qed.
Lemma owner_bit p : pc_ok p → 0 <= owner p <= candidate p.
Proof. revert p. by_pc. Qed.
Lemma leaving_bit p : pc_ok p → 0 <= leaving p <= 1.
Proof. revert p. by_pc. Qed.
Lemma alert_bit p : pc_ok p → pending p <= alert p ∧ 0 <= pending p.
Proof. revert p. by_pc. Qed.
Lemma fresh_bit p : pc_ok p → 0 <= fresh p.
Proof. revert p. by_pc. Qed.
Lemma sleepy_bit p : pc_ok p → 0 <= sleepy p <= 1.
Proof. revert p. by_pc. Qed.
Lemma posts_bit p : pc_ok p → 0 <= posts p.
Proof. revert p. by_pc. Qed.
Lemma alert_cover p : pc_ok p → stealing = true → 1 - waiting p <= alert p + leaving p.
Proof. revert p. by_pc. Qed.
Lemma cnt_zero p : pc_ok p → held p = [] → pending p = 0 → cnt p = 0.
Proof. revert p. by_pc. Qed.
End contributions.

(** ** The invariant *)

Definition helds (N : nat) (ps : nat → pc) : list loc := concat (map (λ w, held (ps w)) (seq 0 N)).

Lemma helds_upd N ps w p : (w < N)%nat → helds N (upd ps w p) ++ held (ps w) ≡ₚ helds N ps ++ held p.
Proof.
  intros Hw. unfold helds.
  assert (E : map (λ x, held (upd ps w p x)) (seq 0 N) = <[w := held p]> (map (λ x, held (ps x)) (seq 0 N))).
  { apply list_eq. intros i. rewrite list_lookup_fmap, list_lookup_insert, list_lookup_fmap, length_map, length_seq.
    destruct (decide (i < N)%nat) as [Hi|Hi].
    - rewrite lookup_seq_lt by done. simpl. unfold upd. repeat case_decide; naive_solver lia.
    - rewrite lookup_seq_ge by lia. simpl. case_decide; [lia|done]. }
  rewrite E. apply concat_insert_perm. rewrite list_lookup_fmap, lookup_seq_lt by done. done.
Qed.

Lemma elem_of_helds N ps w f : (w < N)%nat → f ∈ held (ps w) → f ∈ helds N ps.
Proof.
  intros Hw Hf. unfold helds. apply list_elem_of_In, in_concat. exists (held (ps w)).
  split; [|by apply list_elem_of_In]. apply in_map_iff. exists w. split; [done|]. apply in_seq. lia.
Qed.

Lemma unblock_perm (fs bl : list loc) :
  NoDup fs → NoDup bl → fs ⊆ bl → bl ≡ₚ fs ++ filter (λ f, f ∉ fs) bl.
Proof.
  intros Hf Hb Hs. apply NoDup_Permutation; [done| |].
  - apply NoDup_app. split; [done|]. split; [|by apply NoDup_filter].
    intros x Hx [Hx' _]%list_elem_of_filter. done.
  - intros x. rewrite elem_of_app, list_elem_of_filter. destruct (decide (x ∈ fs)); set_solver.
Qed.

Section invariant.
Context {Q : Type} `{SQ : SchedQueue Q} (N : nat) `{SP : !SchedQueueSpec Q N}.
Context (HN : Z.of_nat N < 2 ^ 32).

(** The fibers: each is queued, held by a worker or blocked, and
    [num_run_fibers] is what the queues and the workers add up to. *)
Definition qinv (q : Q) (nrf : Z) (al bl : list loc) (ps : nat → pc) : Prop :=
  ∃ a, sq_repr q a ∧ al ≡ₚ afibers a ++ helds N ps ++ bl ∧
    nrf = u32 (Z.of_nat (length (afibers a)) + wsum N cnt ps) ∧
    (∀ w, (w < N)%nat → ps w = Steal → alocal a w = []).

(** The counters and the workers. *)
Record ninv (nrf nf nw : Z) (pw : bool) (sm : Z) (it : bool) (ps : nat → pc) : Prop := {
  n_pc : ∀ w, (w < N)%nat → pc_ok N sq_stealing (ps w);
  n_nw : nw = wsum N waiting ps;
  n_pw : Z.b2z pw = wsum N owner ps;
  n_sem : 0 <= sm;
  n_leaving : 1 <= wsum N leaving ps → nf = 0;
  n_alert : wsum N leaving ps = 0 → nrf ≠ 0 → 1 <= wsum N (alert N) ps;
  n_candidate : wsum N leaving ps = 0 → 1 <= wsum N candidate ps;
  n_stop : 1 <= wsum N leaving ps → wsum N pending ps = 0 →
           1 <= wsum N fresh ps ∨ (it = true ∧ wsum N sleepy ps <= sm + wsum N posts ps);
}.

Record sinv (s : sched) : Prop := {
  s_q : qinv (queues s) (num_run_fibers s) (alive s) (blocked s) (pcs s);
  s_n : ninv (num_run_fibers s) (num_fibers s) (num_waiting s) (poller_waiting s) (sem s)
          (interrupted s) (pcs s);
  s_nodup : NoDup (alive s);
  s_fibers : num_fibers s = Z.of_nat (length (alive s));
  s_bound : Z.of_nat (length (alive s)) < 2 ^ 32;
}.

(** What does not depend on the poller. *)
Record finv (s : sched) : Prop := {
  fv_q : qinv (queues s) (num_run_fibers s) (alive s) (blocked s) (pcs s);
  fv_nodup : NoDup (alive s);
  fv_fibers : num_fibers s = Z.of_nat (length (alive s));
  fv_bound : Z.of_nat (length (alive s)) < 2 ^ 32;
}.

Lemma sinv_finv s : sinv s → finv s.
Proof. by intros [Hq _ Hd Hf Hb]. Qed.
#[local] Hint Resolve sinv_finv : core.

(** *** Facts that follow from the invariant *)

(** Everything the sums of a state satisfy, seen from the worker [w]. *)
Record facts (nf nrf : Z) (ps : nat → pc) (w : nat) : Prop := {
  f_waiting : 1 - waiting (ps w) <= Z.of_nat N - wsum N waiting ps;
  f_waiting0 : 0 <= waiting (ps w) <= wsum N waiting ps;
  f_owner : owner (ps w) <= wsum N owner ps ∧ wsum N owner ps - owner (ps w) <= wsum N candidate ps - candidate (ps w);
  f_leaving : 0 <= leaving (ps w) <= wsum N leaving ps;
  f_pending : pending (ps w) <= wsum N pending ps ∧ 0 <= pending (ps w);
  f_fresh : 0 <= fresh (ps w) <= wsum N fresh ps;
  f_sleepy : 0 <= wsum N sleepy ps <= Z.of_nat N;
  f_posts : 0 <= posts (ps w) <= wsum N posts ps;
  f_cover : sq_stealing = true → Z.of_nat N - wsum N waiting ps <= wsum N (alert N) ps + wsum N leaving ps;
  f_alert : 0 <= alert N (ps w) <= wsum N (alert N) ps;
  f_run : nf = 0 → wsum N pending ps = 0 → nrf = 0;
  f_held : held (ps w) ≠ [] → 1 <= nf;
}.

Lemma qinv_zero q nrf al bl ps :
  (∀ w, (w < N)%nat → pc_ok N sq_stealing (ps w)) →
  qinv q nrf al bl ps → al = [] → wsum N pending ps = 0 → nrf = 0.
Proof.
  intros Hok (a & _ & Hp & -> & _) -> Hz. apply Permutation_nil_l in Hp. symmetry in Hp.
  apply app_nil in Hp as [Ha [Hh _]%app_nil]. rewrite Ha. simpl.
  rewrite wsum_zero; [done|]. intros w Hw. eapply cnt_zero; [by apply Hok| |].
  - destruct (held (ps w)) as [|f l] eqn:E; [done|]. exfalso.
    assert (f ∈ helds N ps) by (apply (elem_of_helds _ _ w); [done|]; rewrite E; apply list_elem_of_here).
    rewrite Hh in *. by eapply not_elem_of_nil.
  - assert (pending (ps w) <= wsum N pending ps).
    { apply wsum_ge1; [|done]. intros w' Hw'. by eapply alert_bit, Hok. }
    pose proof (alert_bit _ _ _ (Hok w Hw)). lia.
Qed.

Lemma finv_facts s w : finv s → (∀ w, (w < N)%nat → pc_ok N sq_stealing (pcs s w)) → (w < N)%nat →
  facts (num_fibers s) (num_run_fibers s) (pcs s) w.
Proof.
  intros [Hq Hnd Hf Hb] Hok Hw.
  assert (G : ∀ g, (∀ p, pc_ok N sq_stealing p → 0 <= g p) → 0 <= g (pcs s w) <= wsum N g (pcs s)).
  { intros g Hg. split; [by apply Hg, Hok|]. apply wsum_ge1; [|done]. intros x Hx. by apply Hg, Hok. }
  split.
  - pose proof (G (λ p, 1 - waiting p)) as [_ H]; [intros p Hp; pose proof (waiting_bit _ _ p Hp); lia|].
    rewrite wsum_sub, wsum_const in H. lia.
  - apply G. intros p Hp. by apply (waiting_bit _ _ p Hp).
  - split; [apply G; intros p Hp; by apply (owner_bit _ _ p Hp)|].
    pose proof (G (λ p, candidate p - owner p)) as [_ H]; [intros p Hp; pose proof (owner_bit _ _ p Hp); lia|].
    rewrite wsum_sub in H. lia.
  - apply G. intros p Hp. by apply (leaving_bit _ _ p Hp).
  - split; [apply G; intros p Hp; by apply (alert_bit _ _ p Hp)|]. by apply (alert_bit _ _ _ (Hok w Hw)).
  - apply G. intros p Hp. by apply (fresh_bit _ _ p Hp).
  - split; [apply wsum_nonneg; intros x Hx; by apply (sleepy_bit _ _ _ (Hok x Hx))|].
    rewrite <- (Z.mul_1_l (Z.of_nat N)), <- (wsum_const N 1 (pcs s)). apply wsum_le.
    intros x Hx. by apply (sleepy_bit _ _ _ (Hok x Hx)).
  - apply G. intros p Hp. by apply (posts_bit _ _ p Hp).
  - intros Hst. rewrite <- wsum_plus. rewrite <- (Z.mul_1_l (Z.of_nat N)), <- (wsum_const N 1 (pcs s)), <- wsum_sub.
    apply wsum_le. intros x Hx. by apply (alert_cover _ _ _ (Hok x Hx)).
  - apply G. intros p Hp. pose proof (alert_bit _ _ p Hp). lia.
  - intros H0. eapply qinv_zero; [done|done|]. apply length_zero_iff_nil. lia.
  - intros Hh. destruct Hq as (a & _ & Hp & _). apply Permutation_length in Hp. rewrite !length_app in Hp.
    destruct (held (pcs s w)) as [|f l] eqn:E; [done|].
    assert (f ∈ helds N (pcs s)) as Hin by (apply (elem_of_helds _ _ w); [done|]; rewrite E; apply list_elem_of_here).
    destruct (helds N (pcs s)); [by apply not_elem_of_nil in Hin|]. simpl in Hp. lia.
Qed.

Lemma sinv_facts s w : sinv s → (w < N)%nat → facts (num_fibers s) (num_run_fibers s) (pcs s) w.
Proof. intros Hi. apply finv_facts; [by apply sinv_finv|]. by destruct (s_n _ Hi). Qed.

(** *** Preservation: the fibers *)

Lemma helds_perm ps w p' X Y :
  (w < N)%nat → held (ps w) ++ X ≡ₚ held p' ++ Y → helds N ps ++ X ≡ₚ helds N (upd ps w p') ++ Y.
Proof.
  intros Hw HXY. pose proof (helds_upd N ps w p' Hw) as Hu. apply (Permutation_app_inv_r (held p')).
  transitivity ((helds N ps ++ held p') ++ X); [solve_Permutation|]. rewrite <- Hu.
  transitivity (helds N (upd ps w p') ++ (held (ps w) ++ X)); [solve_Permutation|]. rewrite HXY. solve_Permutation.
Qed.

Lemma qinv_upd q q' nrf nrf' al bl bl' ps w p' :
  (w < N)%nat → qinv q nrf al bl ps →
  (∀ a, sq_repr q a → (length (held (ps w)) + length (afibers a) + length bl <= length al)%nat →
     (ps w = Steal → alocal a w = []) →
     ∃ a', sq_repr q' a' ∧ others_empty w a a' ∧ (p' = Steal → alocal a' w = []) ∧
       held (ps w) ++ afibers a ++ bl ≡ₚ held p' ++ afibers a' ++ bl' ∧
       nrf' = u32 (nrf + (Z.of_nat (length (afibers a')) - Z.of_nat (length (afibers a)) + (cnt p' - cnt (ps w))))) →
  qinv q' nrf' al bl' (upd ps w p').
Proof.
  intros Hw (a & Hr & Hp & Hn & Hst) H.
  destruct (H a Hr) as (a' & Hr' & Ho & Hst' & Hp' & Hn').
  - pose proof (Permutation_length Hp) as Hl. rewrite !length_app in Hl.
    pose proof (Permutation_length (helds_upd N ps w Done Hw)) as Hl2. rewrite !length_app in Hl2. simpl in Hl2. lia.
  - by apply Hst.
  - exists a'. split; [done|]. split; [|split].
    + rewrite Hp. transitivity (helds N ps ++ (afibers a ++ bl)); [solve_Permutation|].
      rewrite (helds_perm ps w p' _ (afibers a' ++ bl')) by done. solve_Permutation.
    + rewrite wsum_upd by done. rewrite Hn', Hn. unfold u32. rewrite Zplus_mod_idemp_l. f_equal. lia.
    + intros x Hx Hps. unfold upd in Hps. destruct (decide (w = x)) as [<-|Hne]; [by apply Hst'|].
      apply Ho; [done|]. by apply Hst.
Qed.

Lemma qinv_same q nrf al bl ps w p' :
  (w < N)%nat → qinv q nrf al bl ps → held p' = held (ps w) → cnt p' = cnt (ps w) → p' ≠ Steal →
  qinv q nrf al bl (upd ps w p').
Proof.
  intros Hw Hq Hh Hc Hst. eapply qinv_upd; [done|done|]. intros a Hr _ _.
  exists a. split; [done|]. split; [apply others_empty_refl|]. split; [done|]. rewrite Hh, Hc. split; [done|].
  destruct Hq as (a0 & _ & _ & -> & _). unfold u32. rewrite Zplus_mod_idemp_l. f_equal. lia.
Qed.

(** The fiber counter changes with the contribution of the worker. *)
Lemma qinv_count q nrf al bl ps w p' d :
  (w < N)%nat → qinv q nrf al bl ps → held p' = held (ps w) → cnt p' = cnt (ps w) + d → p' ≠ Steal →
  qinv q (u32 (nrf + d)) al bl (upd ps w p').
Proof.
  intros Hw Hq Hh Hc Hst. eapply qinv_upd; [done|done|]. intros a Hr _ _.
  exists a. split; [done|]. split; [apply others_empty_refl|]. split; [done|]. rewrite Hh, Hc. split; [done|].
  f_equal. lia.
Qed.

(** *** Preservation: the counters *)

Ltac npc := let x := fresh "x" in let Hx := fresh "Hx" in
  intros x Hx; unfold upd; case_decide; [subst; simpl; try solve [done|lia|split; (done || lia)|by left|by right|split; [lia|by left]|split; [lia|by right]]|by auto].

(** [ninv] after a step of [w], by arithmetic on the contributions. *)
Ltac nstep Hn F Hpc :=
  destruct Hn as [Hn_pc Hn_nw Hn_pw Hn_sem Hn_lv Hn_al Hn_ca Hn_st];
  match type of Hn_pw with Z.b2z ?b = _ => assert (0 <= Z.b2z b <= 1) by (destruct b; simpl; lia) end;
  destruct F as [F1 F2 F3 F4 F5 F6 F7 F8 F9 F10 F11 F12];
  split; [npc|..]; rewrite ?wsum_upd by done; rewrite Hpc in *; simpl in *;
  repeat match goal with
    | Hs : sq_stealing = true, H : sq_stealing = true → _ |- _ => specialize (H Hs)
    | E : ?b = true, H : Z.b2z ?b = _ |- _ => rewrite E in H; simpl in H
    | E : ?b = false, H : Z.b2z ?b = _ |- _ => rewrite E in H; simpl in H
    | E : ?b = true |- context [Z.b2z ?b] => rewrite E; simpl
    | E : ?b = false |- context [Z.b2z ?b] => rewrite E; simpl
    | |- context [if ?b then _ else _] => destruct b eqn:? in *
    end;
  try lia;
  try solve [intros; destruct Hn_st as [|[]]; [lia|lia|left; lia|right; split; [done|lia]]].

Definition ok (o : outcome sched) : Prop :=
  match o with Disabled => True | Fault => False | Next s => sinv s end.

(** A step that changes neither the queues nor the fibers. *)
Lemma sinv_plain s w p' s' :
  sinv s → (w < N)%nat → pcs s' = upd (pcs s) w p' →
  queues s' = queues s → num_run_fibers s' = num_run_fibers s → num_fibers s' = num_fibers s →
  alive s' = alive s → blocked s' = blocked s →
  held p' = held (pcs s w) → cnt p' = cnt (pcs s w) → p' ≠ Steal →
  (facts (num_fibers s) (num_run_fibers s) (pcs s) w →
   ninv (num_run_fibers s) (num_fibers s) (num_waiting s) (poller_waiting s) (sem s) (interrupted s) (pcs s) →
   ninv (num_run_fibers s) (num_fibers s) (num_waiting s') (poller_waiting s') (sem s') (interrupted s')
     (upd (pcs s) w p')) →
  sinv s'.
Proof.
  intros Hi Hw E1 E2 E3 E4 E5 E6 Hh Hc Hst Hn. pose proof (sinv_facts s w Hi Hw) as F. destruct Hi as [Hq Hn0 Hd Hf Hb].
  split; rewrite ?E1, ?E2, ?E3, ?E4, ?E5, ?E6; try done; [by apply qinv_same|by apply Hn].
Qed.

Ltac plain := eapply sinv_plain; [done|done|reflexivity|reflexivity|reflexivity|reflexivity|reflexivity|reflexivity| | | |];
  match goal with Hpc : pcs _ _ = _ |- _ => rewrite ?Hpc end;
  [try done|try done|try done|let F := fresh "F" in let Hn := fresh "Hn" in
   simpl; intros F Hn; match goal with Hpc : pcs _ _ = _ |- _ => nstep Hn F Hpc end].

(** Where the wake-up functions return to. *)
Lemma ret_facts r : ret_ok sq_stealing r →
  posts r = 0 ∧ sleepy r = 0 ∧ pending r = 0 ∧ fresh r = 1 ∧ alert N r = 1 ∧ leaving r = 0 ∧
  candidate r = 1 ∧ r ≠ Steal ∧ pc_ok N sq_stealing r.
Proof using Type*. destruct r; simpl; intros; repeat split; done. Qed.

Lemma wake_step_ok s w p : sinv s → (w < N)%nat → pcs s w = p →
  match p with
  | WakeLoad _ _ => ok (fev_wake_up_waiting_workers s w p)
  | WakeSlow _ _ | WakeIntr _ _ | WakePost _ _ => ok (fev_wake_workers_slow s w p)
  | AllIntr r => ok (fev_sched_wake_all_workers N s w r)
  | _ => True
  end.
Proof using HN.
  intros Hi Hw Hpc. pose proof (n_pc _ _ _ _ _ _ _ (s_n _ Hi) w Hw) as Hok. rewrite Hpc in Hok.
  destruct p as [| | | | | | |n r|n r|n r|n r|r| | | | | | | | | | | | | | | | | | | | | | | | | | | | | | | | | | |]; try done; simpl in *.
  - destruct Hok as [Hn0 Hret]. destruct (ret_facts r Hret) as (R1 & R2 & R3 & R4 & R5 & R6 & R7 & R8 & R9).
    pose proof (n_nw _ _ _ _ _ _ _ (s_n _ Hi)) as Hnw. pose proof (f_waiting0 _ _ _ _ (sinv_facts s w Hi Hw)).
    destruct (Z.eqb_spec (num_waiting s) 0); [plain|].
    destruct (Z.ltb_spec (num_waiting s) n); plain.
  - destruct Hok as [Hn0 Hret]. destruct (ret_facts r Hret) as (R1 & R2 & R3 & R4 & R5 & R6 & R7 & R8 & R9).
    destruct (poller_waiting s) eqn:Epw; plain; rewrite ?R1 in *; try lia.
  - destruct Hok as [Hn0 Hret]. destruct (ret_facts r Hret) as (R1 & R2 & R3 & R4 & R5 & R6 & R7 & R8 & R9).
    pose proof (u32_range (n - 1)). plain.
  - destruct Hok as [Hn0 [Hret| ->]].
    + destruct (ret_facts r Hret) as (R1 & R2 & R3 & R4 & R5 & R6 & R7 & R8 & R9).
      destruct (Z.eqb_spec n 0); plain.
    + destruct (Z.eqb_spec n 0); plain.
  - destruct Hok as [Hret| ->].
    + destruct (ret_facts r Hret) as (R1 & R2 & R3 & R4 & R5 & R6 & R7 & R8 & R9). plain.
    + plain.
Qed.

(** The steps of [fev_sched_work] that only touch the counters. *)
Lemma steal_counters_ok s w p : sinv s → (w < N)%nat → sq_stealing = true → pcs s w = p →
  match p with
  | LoadRun | LoadWaiting _ | LoadFibers | Xchg | Add _ | Reload _ _ | UndoPoller | UndoAdd
  | PollReset | PollSub | Quiescent | SemWait | SemSub => ok (steal_work_step N s w p Tau)
  | _ => True
  end.
Proof using HN.
  intros Hi Hw Hst Hpc. pose proof (n_pc _ _ _ _ _ _ _ (s_n _ Hi) w Hw) as Hok.
  pose proof (n_nw _ _ _ _ _ _ _ (s_n _ Hi)) as Hnw. pose proof (sinv_facts s w Hi Hw) as [G1 G2 _ _ _ _ _ _ _ _ _ _].
  assert (0 <= num_run_fibers s) by (destruct (s_q _ Hi) as (? & _ & _ & -> & _); apply u32_range).
  rewrite Hpc in *. destruct p; try done; simpl in *.
  - plain.
  - destruct (Z.leb_spec (u32 (Z.of_nat N - num_waiting s)) r); [plain|]. destruct (Z.eqb_spec r 0); plain.
  - destruct (Z.eqb_spec (num_fibers s) 0); plain.
  - destruct (poller_waiting s) eqn:Epw; plain.
  - rewrite u32_small by lia. destruct (Z.eqb_spec (num_waiting s) (Z.of_nat N - 1)); plain.
  - destruct Hok as [_ Hold]. rewrite u32_small by lia. destruct (Z.leb_spec (Z.of_nat N - old) (num_run_fibers s)); destruct pw; plain.
  - plain.
  - rewrite u32_small by lia. plain.
  - plain.
  - rewrite u32_small by lia. plain.
  - plain.
  - destruct (Z.ltb_spec 0 (sem s)); [plain|done].
  - rewrite u32_small by lia. plain.
Qed.

Lemma shr_counters_ok s w p : sinv s → (w < N)%nat → sq_stealing = false → pcs s w = p →
  match p with
  | Backoff | ShLoadRun | ShStore _ | ShFibers | ShAdd | ShXchg | ShPollReset | ShQuiescent | ShSemWait
  | ShSub => ok (shr_work_step s w p Tau)
  | _ => True
  end.
Proof using HN.
  intros Hi Hw Hst Hpc. pose proof (n_pc _ _ _ _ _ _ _ (s_n _ Hi) w Hw) as Hok.
  pose proof (n_nw _ _ _ _ _ _ _ (s_n _ Hi)) as Hnw. pose proof (sinv_facts s w Hi Hw) as [G1 G2 _ _ _ _ _ _ _ _ _ _].
  assert (0 <= num_run_fibers s) by (destruct (s_q _ Hi) as (? & _ & _ & -> & _); apply u32_range).
  rewrite Hpc in *. destruct p; try done; simpl in *.
  - destruct (poller_backoff s =? 1); plain.
  - plain.
  - destruct Hok as [_ Hr]. destruct (Z.ltb_spec 0 r); plain.
  - destruct (Z.eqb_spec (num_fibers s) 0); plain.
  - rewrite u32_small by lia. plain.
  - destruct (poller_waiting s) eqn:Epw; plain.
  - plain.
  - plain.
  - destruct (Z.ltb_spec 0 (sem s)); [plain|done].
  - rewrite u32_small by lia. plain.
Qed.

(** *** Preservation: the queue operations *)

(** A step that leaves the counters alone, and the queues or the fibers change. *)
Lemma sinv_queue s w p' s' :
  sinv s → (w < N)%nat → pcs s' = upd (pcs s) w p' →
  num_fibers s' = num_fibers s → num_waiting s' = num_waiting s → poller_waiting s' = poller_waiting s →
  sem s' = sem s → alive s' = alive s →
  qinv (queues s') (num_run_fibers s') (alive s) (blocked s') (upd (pcs s) w p') →
  (facts (num_fibers s) (num_run_fibers s) (pcs s) w →
   ninv (num_run_fibers s) (num_fibers s) (num_waiting s) (poller_waiting s) (sem s) (interrupted s) (pcs s) →
   ninv (num_run_fibers s') (num_fibers s) (num_waiting s) (poller_waiting s) (sem s) (interrupted s')
     (upd (pcs s) w p')) →
  sinv s'.
Proof.
  intros Hi Hw E1 E2 E3 E4 E5 E6 Hq Hn. pose proof (sinv_facts s w Hi Hw) as F. destruct Hi as [Hq0 Hn0 Hd Hf Hb].
  split; rewrite ?E1, ?E2, ?E3, ?E4, ?E5, ?E6; try done. by apply Hn.
Qed.

Ltac queue Hi Hw Hpc := eapply sinv_queue; [exact Hi|exact Hw|reflexivity|reflexivity|reflexivity|reflexivity|reflexivity|reflexivity| |];
  [simpl|let F := fresh "F" in let Hn := fresh "Hn" in simpl; intros F Hn; nstep Hn F Hpc].

Lemma pop_qinv s w p0 (next : option loc → pc) :
  finv s → (w < N)%nat → held (pcs s w) = [] → cnt (pcs s w) = 0 →
  (∀ f, held (next (Some f)) = [f] ∧ cnt (next (Some f)) = 1 ∧ next (Some f) ≠ Steal) →
  next None = p0 → held p0 = [] → cnt p0 = 0 → p0 ≠ Steal →
  ∃ r q', sq_pop w (queues s) = Some (r, q') ∧
          qinv q' (num_run_fibers s) (alive s) (blocked s) (upd (pcs s) w (next r)).
Proof.
  intros Hi Hw Hh Hc Hsome Hnone Hh0 Hc0 Hs0. destruct (fv_q _ Hi) as (a0 & Hr0 & _ & Hn0 & _).
  destruct (sq_pop_ok w _ _ Hw Hr0) as (r & q' & a' & E & _). exists r, q'. split; [done|].
  eapply qinv_upd; [done|apply Hi|]. intros a Hra _ _.
  destruct (sq_pop_ok w _ _ Hw Hra) as (r1 & q1 & a1 & E1 & Hr1 & Ho1 & Hp1). rewrite E in E1. simplify_eq.
  exists a1. split; [done|]. split; [done|]. rewrite Hh, Hc. destruct r1 as [f|].
  - destruct (Hsome f) as (-> & -> & Hst). split; [done|]. split; [simpl; by rewrite Hp1|].
    rewrite (Permutation_length Hp1). simpl. rewrite Hn0. unfold u32. rewrite Zplus_mod_idemp_l. f_equal. lia.
  - split; [done|]. rewrite Hh0, Hc0. split; [simpl; by rewrite Hp1|].
    rewrite (Permutation_length Hp1), Hn0. unfold u32. rewrite Zplus_mod_idemp_l. f_equal. lia.
Qed.

Lemma pop_step_ok s w p b (next : option loc → pc) :
  sinv s → (w < N)%nat → pcs s w = p → next = (λ r, match r with Some f => Fib f b | None => if sq_stealing then Global else CheckPoller end) →
  (p = Local b ∧ sq_stealing = true ∨ p = Get ∧ sq_stealing = false) →
  ok (r <~ sq_pop w (queues s); Next (go (set_queues s r.2) w (next r.1))).
Proof using HN.
  intros Hi Hw Hpc -> Hp.
  destruct (pop_qinv s w (if sq_stealing then Global else CheckPoller)
    (λ r, match r with Some f => Fib f b | None => if sq_stealing then Global else CheckPoller end)) as (r & q' & E & Hq);
    [auto|done|by rewrite Hpc; destruct Hp as [[-> _]|[-> _]]|by rewrite Hpc; destruct Hp as [[-> _]|[-> _]]|done|done|by destruct sq_stealing..|].
  rewrite E. simpl.
  destruct Hp as [[-> Hst]|[-> Hst]]; rewrite Hst in *; destruct r as [f|]; queue Hi Hw Hpc; done.
Qed.

Lemma move_qinv s w p' :
  finv s → (w < N)%nat → held (pcs s w) = held p' → cnt (pcs s w) = cnt p' → p' ≠ Steal →
  ∃ q', sq_move w (queues s) = Some q' ∧ qinv q' (num_run_fibers s) (alive s) (blocked s) (upd (pcs s) w p').
Proof.
  intros Hi Hw Hh Hc Hst.
  assert (Hb : ∀ a, (length (held (pcs s w)) + length (afibers a) + length (blocked s) <= length (alive s))%nat →
               Z.of_nat (length (afibers a)) < 2 ^ 32) by (pose proof (fv_bound _ Hi); lia).
  destruct (fv_q _ Hi) as (a0 & Hr0 & Hp0 & Hn0 & _).
  destruct (sq_move_ok w _ _ Hw Hr0) as (q' & a' & E & _ & _ & _).
  { apply Permutation_length in Hp0. rewrite !length_app in Hp0. pose proof (fv_bound _ Hi). lia. }
  exists q'. split; [done|]. eapply qinv_upd; [done|apply Hi|]. intros a Hra Hl _.
  destruct (sq_move_ok w _ _ Hw Hra (Hb _ Hl)) as (q1 & a1 & E1 & Hr1 & Hp1 & Ho1). rewrite E in E1. simplify_eq.
  exists a1. split; [done|]. split; [done|]. split; [done|]. rewrite Hh, Hc. split; [by rewrite Hp1|].
  rewrite (Permutation_length Hp1), Hn0. unfold u32. rewrite Zplus_mod_idemp_l. f_equal. lia.
Qed.

Lemma move_step_ok s w p p' :
  sinv s → (w < N)%nat → pcs s w = p →
  (p = Fallback ∧ p' = Size ∧ sq_stealing = true ∨ p = ShFallback ∧ p' = ShLoadRun ∧ sq_stealing = false) →
  ok (q <~ sq_move w (queues s); Next (go (set_queues s q) w p')).
Proof using HN.
  intros Hi Hw Hpc Hp.
  destruct (move_qinv s w p') as (q' & E & Hq); [auto|done|..].
  1-3: rewrite ?Hpc; by destruct Hp as [(-> & -> & _)|(-> & -> & _)].
  rewrite E. simpl. destruct Hp as [(-> & -> & Hs)|(-> & -> & Hs)]; queue Hi Hw Hpc; done.
Qed.

Lemma size_qinv s w : finv s → (w < N)%nat → pcs s w = Size → sq_stealing = true →
  ∃ n, sq_size w (queues s) = Some n ∧
       qinv (queues s) (num_run_fibers s) (alive s) (blocked s) (upd (pcs s) w (if 0 <? n then Local n else Steal)).
Proof.
  intros Hi Hw Hpc Hst. destruct (fv_q _ Hi) as (a0 & Hr0 & _ & Hn0 & _).
  eexists. split; [by apply (sq_size_ok w _ _ Hw Hr0 Hst)|].
  eapply qinv_upd; [done|apply Hi|]. intros a Hra _ _. exists a. split; [done|].
  pose proof (sq_size_ok w _ _ Hw Hra Hst) as E. rewrite (sq_size_ok w _ _ Hw Hr0 Hst) in E. injection E as E.
  split; [apply others_empty_refl|]. rewrite Hpc, E. split; [|split].
  - intros HS. destruct (Z.ltb_spec 0 (Z.of_nat (length (alocal a w)))); [done|].
    destruct (alocal a w); [done|simpl in *; lia].
  - by destruct (0 <? _).
  - rewrite Hn0. unfold u32. rewrite Zplus_mod_idemp_l. f_equal. destruct (0 <? _); simpl; lia.
Qed.

Lemma size_step_ok s w : sinv s → (w < N)%nat → pcs s w = Size → sq_stealing = true →
  ok (n <~ sq_size w (queues s); Next (go s w (if 0 <? n then Local n else Steal))).
Proof using HN.
  intros Hi Hw Hpc Hst. destruct (size_qinv s w) as (n & E & Hq); [auto|done..|]. rewrite E. simpl.
  destruct (0 <? n); queue Hi Hw Hpc; done.
Qed.

Lemma steal_qinv s w : finv s → (w < N)%nat → pcs s w = Steal → sq_stealing = true →
  ∃ n q', sq_steal w (queues s) = Some (n, q') ∧
          qinv q' (num_run_fibers s) (alive s) (blocked s) (upd (pcs s) w (if 0 <? n then Local n else LoadRun)).
Proof.
  intros Hi Hw Hpc Hst. pose proof (fv_bound _ Hi) as Hb. destruct (fv_q _ Hi) as (a0 & Hr0 & Hp0 & Hn0 & Hl0).
  apply Permutation_length in Hp0. rewrite !length_app in Hp0.
  destruct (sq_steal_ok w _ _ Hw Hr0 Hst (Hl0 w Hw Hpc)) as (n & q' & a' & E & _); [lia|].
  exists n, q'. split; [done|]. eapply qinv_upd; [done|apply Hi|]. intros a Hra Hl HS.
  destruct (sq_steal_ok w _ _ Hw Hra Hst (HS Hpc)) as (n1 & q1 & a1 & E1 & Hr1 & Hp1 & Ho1 & _); [lia|].
  rewrite E in E1. simplify_eq. exists a1. split; [done|]. split; [done|]. split; [by destruct (0 <? n1)|].
  rewrite Hpc. simpl. split; [destruct (0 <? n1); by rewrite Hp1|].
  rewrite (Permutation_length Hp1), Hn0. unfold u32. rewrite Zplus_mod_idemp_l. f_equal.
  destruct (0 <? n1); simpl; lia.
Qed.

Lemma steal_step_ok s w : sinv s → (w < N)%nat → pcs s w = Steal → sq_stealing = true →
  ok (r <~ sq_steal w (queues s); Next (go (set_queues s r.2) w (if 0 <? r.1 then Local r.1 else LoadRun))).
Proof using HN.
  intros Hi Hw Hpc Hst. destruct (steal_qinv s w) as (n & q' & E & Hq); [auto|done..|].
  rewrite E. simpl. destruct (0 <? n); queue Hi Hw Hpc; done.
Qed.

Lemma poll_size_step_ok s w : sinv s → (w < N)%nat → pcs s w = PollSize → sq_stealing = true →
  ok (n <~ sq_size w (queues s); Next (go s w (Local n))).
Proof using HN.
  intros Hi Hw Hpc Hst. destruct (s_q _ Hi) as (a0 & Hr0 & _). rewrite (sq_size_ok w _ _ Hw Hr0 Hst). simpl. plain.
Qed.

(** *** Preservation: wake-ups *)

Lemma blocked_nodup s : finv s → NoDup (blocked s).
Proof.
  intros Hi. destruct (fv_q _ Hi) as (a & _ & Hp & _). pose proof (fv_nodup _ Hi) as Hd. rewrite Hp in Hd.
  apply NoDup_app in Hd as (_ & _ & Hd). by apply NoDup_app in Hd as (_ & _ & Hd).
Qed.

(** Pushing [fs], which are removed from the blocked fibers or were held. *)
Lemma qinv_push q q' nrf al bl bl' ps w fs ret :
  (w < N)%nat → qinv q nrf al bl ps → Z.of_nat (length al) < 2 ^ 32 →
  held (ps w) ++ bl ≡ₚ fs ++ held ret ++ bl' → cnt ret = cnt (ps w) → ps w ≠ Steal →
  (∀ a, sq_repr q a → Z.of_nat (length (fs ++ afibers a)) < 2 ^ 32 →
     ∃ a', sq_repr q' a' ∧ afibers a' ≡ₚ fs ++ afibers a ∧ others_empty w a a') →
  qinv q' nrf al bl' (upd ps w (WakeAdd (Z.of_nat (length fs)) ret)).
Proof.
  intros Hw Hq Hb Hp Hc Hst Hpush. pose proof Hq as (a0 & _ & _ & Hn & _).
  eapply qinv_upd; [done|done|]. intros a Hr Hl _.
  pose proof (Permutation_length Hp) as Hpl. rewrite !length_app in Hpl.
  destruct (Hpush a Hr) as (a' & Hr' & Hp' & Ho); [rewrite length_app; lia|].
  exists a'. split; [done|]. split; [done|]. split; [done|]. simpl. split.
  - rewrite Hp'. transitivity ((held (ps w) ++ bl) ++ afibers a); [solve_Permutation|]. rewrite Hp. solve_Permutation.
  - rewrite (Permutation_length Hp'), length_app, Hc, Hn. unfold u32. rewrite Zplus_mod_idemp_l. f_equal. lia.
Qed.

Lemma push_one_ok s w g bl' ret :
  finv s → (w < N)%nat → pcs s w ≠ Steal →
  held (pcs s w) ++ blocked s ≡ₚ g :: held ret ++ bl' → cnt ret = cnt (pcs s w) →
  ∃ q', sq_push_one w g (queues s) = Some q' ∧
        qinv q' (num_run_fibers s) (alive s) bl' (upd (pcs s) w (WakeAdd 1 ret)).
Proof.
  intros Hi Hw Hst Hp Hc. destruct (fv_q _ Hi) as (a0 & Hr0 & Hp0 & _).
  assert (Hl : (length (g :: afibers a0) <= length (alive s))%nat).
  { apply Permutation_length in Hp0, Hp. rewrite !length_app in Hp0. rewrite length_app in Hp. simpl in Hp |- *.
    pose proof (Permutation_length (helds_upd N (pcs s) w Done Hw)) as Hl2. rewrite !length_app in Hl2. simpl in Hl2.
    rewrite length_app in Hp. lia. }
  pose proof (fv_bound _ Hi).
  destruct (sq_push_one_ok w g _ _ Hw Hr0) as (q' & a' & E & _); [lia|]. exists q'. split; [done|].
  apply (qinv_push (queues s) q' _ _ (blocked s) _ _ w [g]); try done; [apply Hi|].
  intros a Hr Hb. destruct (sq_push_one_ok w g _ _ Hw Hr Hb) as (q1 & a1 & E1 & Hr1 & Hp1 & Ho1).
  rewrite E in E1. simplify_eq. eauto.
Qed.

(** A fiber that was blocked is in the queues after the push. *)
Lemma push_one_in s w g q' :
  finv s → (w < N)%nat → g ∈ blocked s → sq_push_one w g (queues s) = Some q' → ∃ a, sq_repr q' a ∧ g ∈ afibers a.
Proof.
  intros Hi Hw Hg E. destruct (fv_q _ Hi) as (a0 & Hr0 & Hp0 & _). apply Permutation_length in Hp0. rewrite !length_app in Hp0.
  assert (length (blocked s) ≠ 0%nat) by (destruct (blocked s); [by apply not_elem_of_nil in Hg|done]). pose proof (fv_bound _ Hi).
  destruct (sq_push_one_ok w g _ _ Hw Hr0) as (q1 & a & E1 & Hr & Hp & _); [simpl; lia|]. rewrite E in E1. simplify_eq.
  exists a. split; [done|]. rewrite Hp. apply list_elem_of_here.
Qed.

Lemma push_stq_ok s w fs bl' ret :
  finv s → (w < N)%nat → pcs s w ≠ Steal → fs ≠ [] →
  held (pcs s w) ++ blocked s ≡ₚ fs ++ held ret ++ bl' → cnt ret = cnt (pcs s w) →
  ∃ q', sq_push_stq w fs (queues s) = Some q' ∧
        qinv q' (num_run_fibers s) (alive s) bl' (upd (pcs s) w (WakeAdd (Z.of_nat (length fs)) ret)).
Proof.
  intros Hi Hw Hst Hne Hp Hc. destruct (fv_q _ Hi) as (a0 & Hr0 & Hp0 & _).
  assert (Hl : (length (fs ++ afibers a0) <= length (alive s))%nat).
  { apply Permutation_length in Hp0, Hp. rewrite !length_app in Hp0. rewrite !length_app in Hp. rewrite length_app.
    pose proof (Permutation_length (helds_upd N (pcs s) w Done Hw)) as Hl2. rewrite !length_app in Hl2. simpl in Hl2.
    lia. }
  pose proof (fv_bound _ Hi).
  destruct (sq_push_stq_ok w fs _ _ Hw Hr0 Hne) as (q' & a' & E & _); [lia|]. exists q'. split; [done|].
  apply (qinv_push (queues s) q' _ _ (blocked s)); try done; [apply Hi|].
  intros a Hr Hb. destruct (sq_push_stq_ok w fs _ _ Hw Hr Hne Hb) as (q1 & a1 & E1 & Hr1 & Hp1 & Ho1).
  rewrite E in E1. simplify_eq. eauto.
Qed.

Lemma may_wake_perm s fs h : finv s → may_wake s fs = true →
  fs ≠ [] ∧ h ++ blocked s ≡ₚ fs ++ h ++ filter (λ f, f ∉ fs) (blocked s).
Proof.
  intros Hi (Hne & Hd & Hs)%bool_decide_eq_true_1. split; [done|].
  rewrite (unblock_perm fs (blocked s)) at 1 by (done || by apply blocked_nodup). solve_Permutation.
Qed.

(** Every worker that wakes fibers up knows where it continues. *)
Definition wake_from (p ret : pc) : Prop :=
  match p with
  | Fib _ _ | Post _ => ret = p
  | Global => ret = Fallback | PollWait => ret = PollReset
  | CheckPoller => ret = ShFallback | ShPollWait => ret = ShPollReset
  | _ => False
  end.

Lemma wake_from_facts p ret : pc_ok N sq_stealing p → wake_from p ret →
  ret_ok sq_stealing ret ∧ held ret = held p ∧ cnt ret = cnt p ∧ p ≠ Steal.
Proof using Type*. destruct p; simpl; intros H1 H2; try done; subst; done. Qed.

Lemma wake_ninv s w p ret n nrf it :
  sinv s → (w < N)%nat → pcs s w = p → wake_from p ret → 1 <= n → nrf = num_run_fibers s →
  ninv nrf (num_fibers s) (num_waiting s) (poller_waiting s) (sem s) it (upd (pcs s) w (WakeAdd n ret)).
Proof using HN.
  intros Hi Hw Hpc Hwf Hn0 ->. pose proof (sinv_facts s w Hi Hw) as F. pose proof (s_n _ Hi) as Hn.
  pose proof (n_pc _ _ _ _ _ _ _ Hn w Hw) as Hok. rewrite Hpc in Hok.
  destruct (wake_from_facts p ret Hok Hwf) as (Hr & _).
  destruct p; try done; simpl in Hwf; subst ret; nstep Hn F Hpc.
Qed.

Lemma wake_one_step_ok s w p g :
  sinv s → (w < N)%nat → pcs s w = p → wake_from p p → may_wake s [g] = true →
  ok (fev_wake_one (unblock s [g]) w g p).
Proof using HN.
  intros Hi Hw Hpc Hwf Hm. destruct (may_wake_perm s [g] (held p) (sinv_finv s Hi) Hm) as [_ Hp].
  pose proof (n_pc _ _ _ _ _ _ _ (s_n _ Hi) w Hw) as Hok. rewrite Hpc in Hok.
  destruct (wake_from_facts p p Hok Hwf) as (_ & _ & _ & Hst).
  destruct (push_one_ok s w g (filter (λ f, f ∉ [g]) (blocked s)) p) as (q' & E & Hq); rewrite ?Hpc; auto.
  unfold fev_wake_one. simpl. rewrite E. simpl.
  eapply sinv_queue; [exact Hi|exact Hw|reflexivity..|exact Hq|]. intros _ _. simpl. by eapply wake_ninv.
Qed.

Lemma wake_stq_ok s w p fs ret it :
  sinv s → (w < N)%nat → pcs s w = p → wake_from p ret → may_wake s fs = true →
  ok (fev_wake_stq (unblock (set_intr s it) fs) w fs ret).
Proof using HN.
  intros Hi Hw Hpc Hwf Hm. destruct (may_wake_perm s fs (held p) (sinv_finv s Hi) Hm) as [Hne Hp].
  pose proof (n_pc _ _ _ _ _ _ _ (s_n _ Hi) w Hw) as Hok. rewrite Hpc in Hok.
  destruct (wake_from_facts p ret Hok Hwf) as (_ & Hh & Hc & Hst).
  destruct (push_stq_ok s w fs (filter (λ f, f ∉ fs) (blocked s)) ret) as (q' & E & Hq); rewrite ?Hpc, ?Hh; auto.
  unfold fev_wake_stq. simpl. rewrite E. simpl.
  eapply sinv_queue; [exact Hi|exact Hw|reflexivity..|exact Hq|]. intros _ _. simpl. eapply wake_ninv; try done.
  destruct fs; [done|simpl; lia].
Qed.

Lemma poll_step_ok s w p take fs ret :
  sinv s → (w < N)%nat → pcs s w = p → wake_from p ret → match p with Fib _ _ | Post _ => False | _ => True end →
  ok (poller_process s w take fs ret).
Proof using HN.
  intros Hi Hw Hpc Hwf Hnf. unfold poller_process. destruct (take && negb (interrupted s)) eqn:Et; [done|].
  pose proof (n_pc _ _ _ _ _ _ _ (s_n _ Hi) w Hw) as Hok. rewrite Hpc in Hok.
  destruct (wake_from_facts p ret Hok Hwf) as (_ & Hh' & Hc' & _).
  destruct fs as [|f fs].
  - destruct p; try done; simpl in Hwf; subst ret; simpl in Hok; plain.
  - destruct (may_wake _ _) eqn:Hm; [|done]. by eapply wake_stq_ok.
Qed.

(** *** Preservation: the counters of fibers *)

Lemma wake_add_ok s w n r : sinv s → (w < N)%nat → pcs s w = WakeAdd n r →
  ok (fev_wake_up_waiting_workers s w (WakeAdd n r)).
Proof using HN.
  intros Hi Hw Hpc. pose proof (n_pc _ _ _ _ _ _ _ (s_n _ Hi) w Hw) as Hok. rewrite Hpc in Hok. destruct Hok as [Hn0 Hret].
  destruct (ret_facts r Hret) as (R1 & R2 & R3 & R4 & R5 & R6 & R7 & R8 & R9). simpl.
  queue Hi Hw Hpc. apply qinv_count; [done|apply Hi|by rewrite Hpc|rewrite Hpc; simpl; lia|done].
Qed.

(** The ways out of a fiber. *)
Lemma block_ok s w f b : sinv s → (w < N)%nat → pcs s w = Fib f b →
  ok (fiber_step s w (Fib f b) ABlock).
Proof using HN.
  intros Hi Hw Hpc. simpl. queue Hi Hw Hpc.
  change (num_run_fibers s - 1) with (num_run_fibers s + -1).
  apply qinv_count; [done|apply Hi|by rewrite Hpc|rewrite Hpc; simpl; lia|done].
Qed.

Lemma after_switch_facts b :
  held (after_switch b) = [] ∧ cnt (after_switch b) = 0 ∧ after_switch b ≠ Steal ∧
  pc_ok N sq_stealing (after_switch b) ∧ waiting (after_switch b) = 0 ∧ owner (after_switch b) = 0 ∧
  leaving (after_switch b) = 0 ∧ alert N (after_switch b) = 1 ∧ candidate (after_switch b) = 1 ∧
  fresh (after_switch b) = 1 ∧ sleepy (after_switch b) = 0 ∧ posts (after_switch b) = 0 ∧ pending (after_switch b) = 0.
Proof using Type*.
  unfold after_switch. destruct sq_stealing eqn:E; [destruct (b =? 0)|]; simpl; rewrite ?E; done.
Qed.

Lemma exit2_ok s w b : sinv s → (w < N)%nat → pcs s w = Exit2 b → ok (fiber_step s w (Exit2 b) Tau).
Proof using HN.
  intros Hi Hw Hpc. destruct (after_switch_facts b) as (A1 & A2 & A3 & A4 & A5 & A6 & A7 & A8 & A9 & A10 & A11 & A12 & A13).
  simpl. queue Hi Hw Hpc. change (num_run_fibers s - 1) with (num_run_fibers s + -1).
  apply qinv_count; [done|apply Hi|by rewrite Hpc, A1|rewrite Hpc, A2; simpl; lia|done].
Qed.

Lemma post_ok s w b : sinv s → (w < N)%nat → pcs s w = Post b → ok (fiber_step s w (Post b) Tau).
Proof using HN.
  intros Hi Hw Hpc. destruct (after_switch_facts b) as (A1 & A2 & A3 & A4 & A5 & A6 & A7 & A8 & A9 & A10 & A11 & A12 & A13).
  simpl. plain.
Qed.

Lemma switch_ok s w f b : sinv s → (w < N)%nat → pcs s w = Switch f b → ok (fiber_step s w (Switch f b) Tau).
Proof using HN.
  intros Hi Hw Hpc. simpl. queue Hi Hw Hpc. eapply qinv_upd; [done|apply Hi|]. intros a Hr _ _. exists a.
  split; [done|]. split; [apply others_empty_refl|]. split; [done|]. rewrite Hpc. simpl. split; [solve_Permutation|].
  destruct (s_q _ Hi) as (a0 & _ & _ & -> & _). unfold u32. rewrite Zplus_mod_idemp_l. f_equal. lia.
Qed.

(** [fev_fiber_create] and [fev_fiber_exit_post] change the set of fibers. *)
Lemma create_finv s w f b g :
  finv s → (w < N)%nat → pcs s w = Fib f b → g ∉ alive s → num_fibers s < UINT32_MAX →
  finv (go (set_fibers s (u32 (num_fibers s + 1)) (g :: alive s)) w (New f b g)).
Proof.
  clear HN. intros [Hq Hd Hf Hb] Hw Hpc Hg Hlt. unfold UINT32_MAX in Hlt. rewrite u32_small by lia. split; simpl.
  - destruct Hq as (a & Hr & Hp & -> & Hst). exists a. split; [done|]. split; [|split].
    + rewrite Hp. transitivity (afibers a ++ (helds N (pcs s) ++ (g :: blocked s))); [solve_Permutation|].
      rewrite (helds_perm _ w (New f b g) _ (blocked s)) by (done || rewrite Hpc; simpl; solve_Permutation). done.
    + rewrite wsum_upd by done. rewrite Hpc. simpl. f_equal. lia.
    + intros x Hx Hps. unfold upd in Hps. destruct (decide (w = x)); [done|]. by apply Hst.
  - by constructor.
  - rewrite Hf. lia.
  - lia.
Qed.

Lemma create_ok s w f b g : sinv s → (w < N)%nat → pcs s w = Fib f b → ok (fiber_step s w (Fib f b) (ACreate g)).
Proof using HN.
  intros Hi Hw Hpc. simpl. destruct (bool_decide_reflect (g ∉ alive s)) as [Hg|]; [|done].
  destruct (Z.ltb_spec (num_fibers s) UINT32_MAX) as [Hlt|]; [|done]. simpl.
  destruct (create_finv s w f b g) as [Hq' Hd' Hf' Hb']; [auto|done..|].
  pose proof (sinv_facts s w Hi Hw) as F. pose proof (s_n _ Hi) as Hn. split; try done. simpl.
  simpl in Hf'. nstep Hn F Hpc. assert (1 <= num_fibers s) by (by apply F12). lia.
Qed.

Lemma exit1_finv s w f b : finv s → (w < N)%nat → pcs s w = Exit1 f b →
  finv (go (set_fibers s (u32 (num_fibers s - 1)) (filter (λ x, x ≠ f) (alive s))) w (Exit2 b)) ∧
  u32 (num_fibers s - 1) = num_fibers s - 1.
Proof.
  clear HN. intros [Hq Hd Hf Hb] Hw Hpc.
  assert (Hin : f ∈ alive s).
  { destruct Hq as (a & _ & Hp & _). rewrite Hp. rewrite !elem_of_app. right. left.
    apply (elem_of_helds _ _ w); [done|]. rewrite Hpc. apply list_elem_of_here. }
  assert (Hal : alive s ≡ₚ f :: filter (λ x, x ≠ f) (alive s)).
  { rewrite (unblock_perm [f] (alive s)) at 1; [|apply NoDup_singleton|done|set_solver]. simpl.
    f_equiv. apply NoDup_Permutation; [by apply NoDup_filter..|]. intros x. rewrite !list_elem_of_filter. set_solver. }
  pose proof (Permutation_length Hal) as Hlen. simpl in Hlen.
  rewrite u32_small by lia. split; [|done]. split; simpl.
  - destruct Hq as (a & Hr & Hp & -> & Hst). exists a. split; [done|]. split; [|split].
    + apply (Permutation_cons_inv (a := f)). rewrite <- Hal, Hp.
      transitivity (afibers a ++ (helds N (pcs s) ++ blocked s)); [done|].
      rewrite (helds_perm _ w (Exit2 b) _ (f :: blocked s)) by (done || rewrite Hpc; simpl; solve_Permutation).
      solve_Permutation.
    + rewrite wsum_upd by done. rewrite Hpc. simpl. f_equal. lia.
    + intros x Hx Hps. unfold upd in Hps. destruct (decide (w = x)); [done|]. by apply Hst.
  - by apply NoDup_filter.
  - lia.
  - lia.
Qed.

Lemma exit1_ok s w f b : sinv s → (w < N)%nat → pcs s w = Exit1 f b → ok (fiber_step s w (Exit1 f b) Tau).
Proof using HN.
  intros Hi Hw Hpc. simpl. pose proof (sinv_facts s w Hi Hw) as F.
  destruct (exit1_finv s w f b) as [[Hq' Hd' Hf' Hb'] E]; [auto|done..|]. pose proof (s_n _ Hi) as Hn.
  split; try done. simpl. rewrite E. nstep Hn F Hpc.
Qed.

Lemma new_ok s w f b g : sinv s → (w < N)%nat → pcs s w = New f b g → ok (fiber_step s w (New f b g) Tau).
Proof using HN.
  intros Hi Hw Hpc. simpl. unfold fev_wake_one.
  destruct (push_one_ok s w g (blocked s) (Fib f b)) as (q' & E & Hq);
    [auto|done|by rewrite Hpc|rewrite Hpc; simpl; solve_Permutation|by rewrite Hpc|].
  rewrite E. simpl. queue Hi Hw Hpc. done.
Qed.

Lemma fiber_step_ok s w p act : sinv s → (w < N)%nat → pcs s w = p → ok (fiber_step s w p act).
Proof using HN.
  intros Hi Hw Hpc.
  destruct p; try (by destruct act).
  - destruct act; try done.
    + simpl. destruct (may_wake s [g]) eqn:Hm; [|done]. by apply wake_one_step_ok.
    + simpl. destruct (may_wake s fs) eqn:Hm; [|done].
      replace (unblock s fs) with (unblock (set_intr s (interrupted s)) fs) by (by destruct s). by eapply wake_stq_ok.
    + by apply create_ok.
    + by apply block_ok.
    + simpl. plain.
    + simpl. plain.
  - destruct act; try done. by apply new_ok.
  - destruct act; try done. by apply switch_ok.
  - destruct act; try done.
    + by apply post_ok.
    + simpl. destruct (may_wake s [g]) eqn:Hm; [|done]. by apply wake_one_step_ok.
    + simpl. destruct (may_wake s fs) eqn:Hm; [|done].
      replace (unblock s fs) with (unblock (set_intr s (interrupted s)) fs) by (by destruct s). by eapply wake_stq_ok.
  - destruct act; try done. by apply exit1_ok.
  - destruct act; try done. by apply exit2_ok.
Qed.

Lemma steal_work_step_ok s w p act : sinv s → (w < N)%nat → sq_stealing = true → pcs s w = p →
  ok (steal_work_step N s w p act).
Proof using HN.
  intros Hi Hw Hst Hpc. pose proof (steal_counters_ok s w p Hi Hw Hst Hpc) as Hc.
  destruct p; try (by destruct act); destruct act; try done; simpl in Hc |- *; try exact Hc.
  - apply (pop_step_ok s w (Local b) b (λ r, match r with Some f => Fib f b | None => Global end)); try done; [|by left].
    by rewrite Hst.
  - by eapply poll_step_ok.
  - eapply move_step_ok; try done. by left.
  - by apply size_step_ok.
  - by apply steal_step_ok.
  - by eapply poll_step_ok.
  - by apply poll_size_step_ok.
Qed.

Lemma shr_work_step_ok s w p act : sinv s → (w < N)%nat → sq_stealing = false → pcs s w = p →
  ok (shr_work_step s w p act).
Proof using HN.
  intros Hi Hw Hst Hpc. pose proof (shr_counters_ok s w p Hi Hw Hst Hpc) as Hc.
  destruct p; try (by destruct act); destruct act; try done; simpl in Hc |- *; try exact Hc.
  - apply (pop_step_ok s w Get 0 (λ r, match r with Some f => Fib f 0 | None => CheckPoller end)); try done; [|by right].
    by rewrite Hst.
  - by eapply poll_step_ok.
  - eapply move_step_ok; try done. by right.
  - by eapply poll_step_ok.
Qed.

Lemma sched_step_ok s l : sinv s → ok (sched_step N s l).
Proof using HN.
  intros Hi. destruct l as [w act]. unfold sched_step. simpl. destruct (Nat.ltb_spec w N) as [Hw|]; [|done].
  unfold worker_step. destruct (pcs s w) eqn:Hpc; try done;
    try (by apply fiber_step_ok);
    try (destruct sq_stealing eqn:Hst; [by apply steal_work_step_ok|by apply shr_work_step_ok]);
    try (destruct act; try done; by apply (wake_step_ok s w _ Hi Hw Hpc)).
  destruct act; try done. by apply wake_add_ok.
Qed.

(** ** The start *)

(** The workers have not started and some fibers were put into the queues. *)
Definition booted (q : Q) (s : sched) : Prop :=
  (∃ a, sq_repr q a ∧ afibers a = []) ∧
  ∃ fs, NoDup fs ∧ Z.of_nat (length fs) < 2 ^ 32 ∧ put_all (sched_init q) fs = Some s.

Record pinv (s : sched) (fs : list loc) : Prop := {
  p_q : ∃ a, sq_repr (queues s) a ∧ alive s ≡ₚ afibers a;
  p_pcs : pcs s = (λ _, if sq_stealing then Local 0 else Get);
  p_rest : num_waiting s = 0 ∧ poller_waiting s = false ∧ sem s = 0 ∧ blocked s = [];
  p_alive : alive s = fs;
  p_counts : num_fibers s = Z.of_nat (length (alive s)) ∧ num_run_fibers s = Z.of_nat (length (alive s));
}.

Lemma put_all_ok s fs0 fs :
  (0 < N)%nat → pinv s fs0 → NoDup (fs ++ fs0) → Z.of_nat (length (fs ++ fs0)) < 2 ^ 32 →
  ∃ s', put_all s fs = Some s' ∧ pinv s' (rev fs ++ fs0).
Proof.
  intros H0. revert s fs0. induction fs as [|f fs IH]; intros s fs0 Hp Hd Hl; simpl; [eauto|].
  destruct Hp as [(a & Hr & Hpa) Hpc (E1 & E2 & E3 & E4) Ha [Hf Hn]].
  simpl in Hl. rewrite length_app in Hl.
  assert (Hla : length (afibers a) = length fs0) by (by rewrite <- Ha, (Permutation_length Hpa)).
  destruct (sq_put_ok f (queues s) a H0 Hr) as (q' & a' & Ep & Hr' & Hp'); [simpl; lia|].
  unfold fev_sched_put. simpl. rewrite Ep. simpl. rewrite <- (app_assoc (rev fs) [f] fs0). simpl.
  apply IH.
  - split; simpl; try done.
    + exists a'. split; [done|]. by rewrite Hp', Hpa.
    + by rewrite Ha.
    + rewrite Hf, Hn, Ha, !u32_small by lia. lia.
  - change ((f :: fs) ++ fs0) with ([f] ++ fs ++ fs0) in Hd. change (f :: fs0) with ([f] ++ fs0).
    eapply NoDup_Permutation_proper; [|exact Hd]. solve_Permutation.
  - rewrite length_app. simpl. lia.
Qed.

Lemma pinv_sinv s fs : (0 < N)%nat → pinv s fs → NoDup fs → Z.of_nat (length fs) < 2 ^ 32 → sinv s.
Proof using HN.
  intros H0 [(a & Hr & Hpa) Hpc (E1 & E2 & E3 & E4) Ha [Hf Hn]] Hd Hl.
  set (p0 := if sq_stealing then Local 0 else Get) in *.
  assert (Hs : ∀ g c, g p0 = c → wsum N g (pcs s) = c * Z.of_nat N).
  { intros g c Hg. rewrite Hpc, <- (wsum_const N c (λ _, p0)). unfold wsum. by rewrite Hg. }
  assert (Hh : helds N (pcs s) = []).
  { unfold helds. rewrite Hpc. unfold p0. induction (seq 0 N); simpl; [done|]. by destruct sq_stealing. }
  split; [|split|..]; rewrite ?Ha; try done.
  - exists a. rewrite Hh, E4, app_nil_r. split; [done|]. rewrite <- Ha. split; [done|].
    rewrite Hn, (Permutation_length Hpa), (Hs cnt 0) by (unfold p0; by destruct sq_stealing).
    split; [rewrite u32_small; rewrite <- (Permutation_length Hpa), Ha; lia|].
    intros w Hw. rewrite Hpc. unfold p0. by destruct sq_stealing.
  - intros w Hw. rewrite Hpc. unfold p0. by destruct sq_stealing.
  - rewrite (Hs waiting 0); [lia|]. unfold p0. by destruct sq_stealing.
  - rewrite E2, (Hs owner 0); [simpl; lia|]. unfold p0. by destruct sq_stealing.
  - lia.
  - rewrite (Hs leaving 0); [lia|]. unfold p0. by destruct sq_stealing.
  - rewrite (Hs (alert N) 1); [lia|]. unfold p0. by destruct sq_stealing.
  - rewrite (Hs candidate 1); [lia|]. unfold p0. by destruct sq_stealing.
  - rewrite (Hs leaving 0); [lia|]. unfold p0. by destruct sq_stealing.
  - by rewrite Hf, Ha.
Qed.

Lemma booted_sinv q s : (0 < N)%nat → booted q s → sinv s.
Proof using HN.
  intros H0 ((a & Hr & Ha) & fs & Hd & Hl & E).
  destruct (put_all_ok (sched_init q) [] fs) as (s' & E' & Hp); [done| |by rewrite app_nil_r|by rewrite app_nil_r|].
  - split; simpl; try done. exists a. by rewrite Ha.
  - rewrite app_nil_r in Hp. rewrite E in E'. simplify_eq. eapply pinv_sinv; try done.
    + by rewrite <- Permutation_rev.
    + by rewrite length_rev.
Qed.

Lemma reach_sinv q s0 s : (0 < N)%nat → booted q s0 → reach (sched_next N) s0 s → sinv s.
Proof using HN.
  intros H0 Hb. apply reach_invariant; [by eapply booted_sinv|].
  intros s1 l s2 Hi Hs. unfold sched_next in Hs. pose proof (sched_step_ok s1 l Hi) as Hok.
  destruct (sched_step N s1 l); simplify_eq. exact Hok.
Qed.

(** ** Sleeping workers *)

(** The worker has returned from [fev_sched_work], or it sleeps and nothing will
    wake it up but a wake-up function or an event. *)
Definition asleep (s : sched (Q := Q)) (p : pc) : Prop :=
  match p with
  | Done => True
  | SemWait | ShSemWait => sem s = 0
  | PollWait | ShPollWait => interrupted s = false
  | _ => False
  end.

Lemma asleep_facts s p : asleep s p →
  held p = [] ∧ cnt p = 0 ∧ pending p = 0 ∧ alert N p = 0 ∧ fresh p = 0 ∧ posts p = 0 ∧
  candidate p = owner p ∧ (leaving p = 1 ↔ p = Done) ∧ (leaving p = 0 ∨ leaving p = 1).
Proof. destruct p; simpl; intros; try done; repeat split; (done || lia || by (left + right)). Qed.

Lemma asleep_helds s : (∀ w, (w < N)%nat → asleep s (pcs s w)) → helds N (pcs s) = [].
Proof.
  intros Ha. unfold helds.
  assert (H : ∀ w, w ∈ seq 0 N → held (pcs s w) = []).
  { intros w [_ Hw]%elem_of_seq. apply (asleep_facts s). apply Ha. lia. }
  induction (seq 0 N) as [|w l IH]; simpl; [done|]. rewrite H by apply list_elem_of_here. simpl. apply IH.
  intros x Hx. apply H. by apply list_elem_of_further.
Qed.

Lemma asleep_sums s : sinv s → (∀ w, (w < N)%nat → asleep s (pcs s w)) →
  wsum N cnt (pcs s) = 0 ∧ wsum N pending (pcs s) = 0 ∧ wsum N (alert N) (pcs s) = 0 ∧
  wsum N fresh (pcs s) = 0 ∧ wsum N posts (pcs s) = 0 ∧ wsum N candidate (pcs s) = wsum N owner (pcs s).
Proof.
  intros Hi Ha. assert (H : ∀ w, (w < N)%nat → _) by (intros w Hw; exact (asleep_facts s _ (Ha w Hw))).
  repeat split; try (apply wsum_zero; intros w Hw; by apply (H w Hw)).
  assert (E : wsum N (λ p, candidate p - owner p) (pcs s) = 0).
  { apply wsum_zero. intros w Hw. destruct (H w Hw) as (_ & _ & _ & _ & _ & _ & -> & _). lia. }
  rewrite wsum_sub in E. lia.
Qed.

(** If a worker has returned, all have; otherwise one waits for the poller. *)
Lemma quiescent_leaving s : sinv s → (∀ w, (w < N)%nat → asleep s (pcs s w)) →
  1 <= wsum N leaving (pcs s) → num_fibers s = 0 ∧ ∀ w, (w < N)%nat → pcs s w = Done.
Proof.
  intros Hi Ha Hl. destruct (asleep_sums s Hi Ha) as (_ & Hp & _ & Hf & Hpo & _).
  pose proof (s_n _ Hi) as [Hok _ _ _ Hlv _ _ Hst]. split; [by apply Hlv|]. intros w Hw.
  destruct (Hst Hl Hp) as [Hfr|[Hit Hsl]]; [lia|].
  assert (Hs0 : ∀ x, (x < N)%nat → sleepy (pcs s x) <= sem s).
  { intros x Hx. assert (sleepy (pcs s x) <= wsum N sleepy (pcs s)); [|lia].
    apply wsum_ge1; [|done]. intros y Hy. by apply (sleepy_bit _ _ _ (Hok y Hy)). }
  specialize (Ha w Hw). specialize (Hs0 w Hw). destruct (pcs s w); simpl in *; try done; try congruence; lia.
Qed.

Lemma quiescent_poller s : sinv s → (∀ w, (w < N)%nat → asleep s (pcs s w)) →
  wsum N leaving (pcs s) = 0 →
  num_run_fibers s = 0 ∧ ∃ w, (w < N)%nat ∧ (pcs s w = PollWait ∨ pcs s w = ShPollWait).
Proof.
  intros Hi Ha Hl. destruct (asleep_sums s Hi Ha) as (_ & _ & Hal & _ & _ & Hco).
  pose proof (s_n _ Hi) as [Hok _ _ _ _ Halert Hca _]. split.
  - destruct (decide (num_run_fibers s = 0)) as [|Hne]; [done|]. specialize (Halert Hl Hne). lia.
  - destruct (wsum_pos N owner (pcs s)) as (w & Hw & Ho); [specialize (Hca Hl); lia|]. exists w. split; [done|].
    specialize (Ha w Hw). destruct (pcs s w); simpl in *; try done; try lia; by (left + right).
Qed.

Lemma quiescent_cases s : sinv s → (0 < N)%nat → (∀ w, (w < N)%nat → asleep s (pcs s w)) →
  (∃ a, sq_repr (queues s) a ∧ afibers a = []) ∧
  (alive s = [] ∧ (∀ w, (w < N)%nat → pcs s w = Done) ∨
   alive s ≡ₚ blocked s ∧ (∀ w, (w < N)%nat → pcs s w ≠ Done) ∧
   ∃ w, (w < N)%nat ∧ (pcs s w = PollWait ∨ pcs s w = ShPollWait)).
Proof using HN.
  intros Hi H0 Ha. pose proof (sinv_facts s 0 Hi H0) as F. pose proof (asleep_helds s Ha) as Hh.
  destruct (asleep_sums s Hi Ha) as (Hc & Hp & _). destruct (s_q _ Hi) as (a & Hr & Hpa & Hn & _).
  pose proof (s_bound _ Hi) as Hb. pose proof (Permutation_length Hpa) as Hlen. rewrite !length_app in Hlen.
  pose proof (f_leaving _ _ _ _ F) as Hl0.
  assert (Hrun : num_run_fibers s = 0 → afibers a = []).
  { intros Hz. rewrite Hn, Hc, u32_small in Hz by lia. destruct (afibers a); [done|simpl in Hz; lia]. }
  destruct (Z.eq_dec (wsum N leaving (pcs s)) 0) as [Hl|Hl].
  - destruct (quiescent_poller s Hi Ha Hl) as [Hz Hw]. specialize (Hrun Hz). split; [by exists a|]. right.
    split; [by rewrite Hpa, Hrun, Hh|]. split; [|done]. intros w Hx E.
    assert (leaving (pcs s w) <= wsum N leaving (pcs s)).
    { apply wsum_ge1; [|done]. intros y Hy. apply (leaving_bit N sq_stealing). by apply (n_pc _ _ _ _ _ _ _ (s_n _ Hi)). }
    rewrite E in *. simpl in *. lia.
  - destruct (quiescent_leaving s Hi Ha) as [Hz Hd]; [lia|]. pose proof (f_run _ _ _ _ F Hz Hp) as Hr0.
    split; [exists a; auto|]. left. split; [|done]. apply length_zero_iff_nil. rewrite (s_fibers _ Hi) in Hz. lia.
Qed.
End invariant.
