(* ===== verification/SimpleStack.v ===== *)
(** The lock-free stack of [src/src/fev_simple_mpmc_stack.h], which holds the
    unused nodes of the memory pool.

    A step is one atomic access; [fev_cmpxchg2] exchanges the pointer and the
    counter at once. Nodes stay in memory once they are allocated. The ghost
    part of the state says which thread owns a node that is not in the stack,
    how many exchanges have succeeded, and the history of calls and of their
    effects. *)

From S2P Require Import Prelude.

Local Open Scope Z_scope.

(** ** The atomic stack *)

Inductive sop := OPush (n : loc) | OPop (r : option loc).

(** A call of a thread, or the moment at which an operation takes effect. *)
Inductive sevent := Call (t : nat) | Lin (t : nat) (o : sop).

#[export] Instance sop_eq_dec : EqDecision sop.
Proof. solve_decision. Defined.
#[export] Instance sevent_eq_dec : EqDecision sevent.
Proof. solve_decision. Defined.

Definition ev_thread (e : sevent) : nat := match e with Call t | Lin t _ => t end.

Definition stack_op (l : list loc) (o : sop) : option (list loc) :=
  match o, l with
  | OPush n, _ => Some (n :: l)
  | OPop None, [] => Some []
  | OPop (Some n), x :: l' => if decide (n = x) then Some l' else None
  | OPop _, _ => None
  end.

(** The content after a history; the most recent event comes first. *)
Fixpoint replay (h : list sevent) : option (list loc) :=
  match h with
  | [] => Some []
  | Call _ :: h => replay h
  | Lin _ o :: h => l ← replay h; stack_op l o
  end.

(** ** The stack of the code *)

Inductive spc :=
| SIdle
| PushCount (n : loc) | PushTop (n : loc) (count : Z)
| PushStore (n : loc) (top : option loc) (count : Z) | PushCas (n : loc) (top : option loc) (count : Z)
| PopCount | PopTop (count : Z) | PopNext (top : option loc) (count : Z)
| PopCas (top : loc) (next : option loc) (count : Z)
| SRet (o : sop).

#[export] Instance spc_eq_dec : EqDecision spc.
Proof. solve_decision. Defined.

Record fev_simple_mpmc_stack := mk_stack {
  top : option loc;
  count : Z;
  next : gmap loc (option loc);    (* the nodes in memory *)
  spcs : nat → spc;
  owner : gmap loc nat;            (* ghost *)
  xchgs : Z;                       (* ghost *)
  hist : list sevent;              (* ghost *)
}.

Implicit Types s : fev_simple_mpmc_stack.

Definition sgo s t p := mk_stack (top s) (count s) (next s) (upd (spcs s) t p) (owner s) (xchgs s) (hist s).
Definition sset_next s n o := mk_stack (top s) (count s) (<[n := o]> (next s)) (spcs s) (owner s) (xchgs s) (hist s).
Definition sset_owner s o := mk_stack (top s) (count s) (next s) (spcs s) o (xchgs s) (hist s).
Definition sadd s e := mk_stack (top s) (count s) (next s) (spcs s) (owner s) (xchgs s) (e :: hist s).
Definition sxchg s o :=
  mk_stack o (u64 (count s + 1)) (next s) (spcs s) (owner s) (xchgs s + 1) (hist s).

Definition fev_simple_mpmc_stack_init : fev_simple_mpmc_stack := mk_stack None 0 ∅ (λ _, SIdle) ∅ 0 [].

(** The thread sees an empty stack: the pop takes effect. *)
Definition see_top s t (o : option loc) : fev_simple_mpmc_stack :=
  match o with None => sadd s (Lin t (OPop None)) | Some _ => s end.

Definition cas_ok s (o : option loc) (c : Z) : bool := bool_decide (top s = o) && (count s =? c).

(** [fev_simple_mpmc_stack_push(stack, n)]. *)
Definition push_step s t (p : spc) : option fev_simple_mpmc_stack :=
  match p with
  | PushCount n => Some (sgo s t (PushTop n (count s)))
  | PushTop n c => Some (sgo s t (PushStore n (top s) c))
  | PushStore n o c => _ ← next s !! n; Some (sgo (sset_next s n o) t (PushCas n o c))
  | PushCas n o c =>
      if cas_ok s o c
      then Some (sgo (sadd (sset_owner (sxchg s (Some n)) (delete n (owner s))) (Lin t (OPush n))) t
                   (SRet (OPush n)))
      else Some (sgo s t (PushStore n (top s) (count s)))
  | _ => None
  end.

(** [fev_simple_mpmc_stack_pop(stack)]. *)
Definition pop_step s t (p : spc) : option fev_simple_mpmc_stack :=
  match p with
  | PopCount => Some (sgo s t (PopTop (count s)))
  | PopTop c => Some (sgo (see_top s t (top s)) t (PopNext (top s) c))
  | PopNext None c => Some (sgo s t (SRet (OPop None)))
  | PopNext (Some n) c => nx ← next s !! n; Some (sgo s t (PopCas n nx c))
  | PopCas n nx c =>
      if cas_ok s (Some n) c
      then Some (sgo (sadd (sset_owner (sxchg s nx) (<[n := t]> (owner s))) (Lin t (OPop (Some n)))) t
                   (SRet (OPop (Some n))))
      else Some (sgo (see_top s t (top s)) t (PopNext (top s) (count s)))
  | _ => None
  end.

(** [SAlloc]: the thread gets a new node from the system allocator. *)
Inductive slabel := SPush (t : nat) (n : loc) | SPop (t : nat) | SAlloc (t : nat) (n : loc) | STau (t : nat).

(** A thread pushes only nodes it owns. *)
Definition stack_enabled s (l : slabel) : bool :=
  match l with
  | SPush t n => bool_decide (spcs s t = SIdle) && bool_decide (owner s !! n = Some t)
  | SPop t => bool_decide (spcs s t = SIdle)
  | SAlloc t n => bool_decide (spcs s t = SIdle) && bool_decide (next s !! n = None)
  | STau t => negb (bool_decide (spcs s t = SIdle))
  end.

Definition stack_step s (l : slabel) : option fev_simple_mpmc_stack :=
  match l with
  | SPush t n => Some (sgo (sadd s (Call t)) t (PushCount n))
  | SPop t => Some (sgo (sadd s (Call t)) t PopCount)
  | SAlloc t n => Some (sset_owner (sset_next s n None) (<[n := t]> (owner s)))
  | STau t =>
      match spcs s t with
      | SIdle => None
      | SRet _ => Some (sgo s t SIdle)
      | (PushCount _ | PushTop _ _ | PushStore _ _ _ | PushCas _ _ _) as p => push_step s t p
      | (PopCount | PopTop _ | PopNext _ _ | PopCas _ _ _) as p => pop_step s t p
      end
  end.

Definition stack_next s l := if stack_enabled s l then stack_step s l else None.

(** ** The invariant

    As long as fewer than 2^64 exchanges have succeeded the counter has not
    wrapped around, so that a counter that is read twice with the same value
    says that nothing has changed in between. *)

Fixpoint chain (nx : gmap loc (option loc)) (o : option loc) (l : list loc) : Prop :=
  match l with
  | [] => o = None
  | n :: l => o = Some n ∧ ∃ o', nx !! n = Some o' ∧ chain nx o' l
  end.

Lemma chain_frame nx n o o' l : n ∉ l → chain nx o' l → chain (<[n := o]> nx) o' l.
Proof.
  revert o'. induction l as [|x l IH]; intros o' Hn Hc; [done|]. simpl in *.
  destruct Hc as (-> & o2 & Hx & Hc). split; [done|]. exists o2. apply not_elem_of_cons in Hn as [Hne Hn].
  rewrite lookup_insert_ne by done. auto.
Qed.

Lemma chain_alloc nx o l n : chain nx o l → n ∈ l → is_Some (nx !! n).
Proof.
  revert o. induction l as [|x l IH]; intros o Hc Hl; [by apply not_elem_of_nil in Hl|].
  destruct Hc as (_ & o' & Hx & Hc). apply elem_of_cons in Hl as [->|Hl]; eauto.
Qed.

Definition thist s t : list sevent := filter (λ e, ev_thread e = t) (hist s).

(** What a thread knows. *)
Definition knows s t (p : spc) : Prop :=
  match p with
  | SIdle | SRet _ | PopCount | PopNext None _ => True
  | PushCount n => owner s !! n = Some t
  | PushTop n c | PushStore n _ c => owner s !! n = Some t
  | PushCas n o _ => owner s !! n = Some t ∧ next s !! n = Some o
  | PopTop c => c <= count s
  | PopNext (Some n) c => c <= count s ∧ is_Some (next s !! n) ∧ (c = count s → top s = Some n)
  | PopCas n nx c => c <= count s ∧ (c = count s → top s = Some n ∧ next s !! n = Some nx)
  end.

(** The operation has taken effect exactly once since the call, or not yet. *)
Definition effect s t (p : spc) : Prop :=
  match p with
  | SIdle => True
  | SRet o => ∃ h, thist s t = Lin t o :: Call t :: h
  | PopNext None _ => ∃ h, thist s t = Lin t (OPop None) :: Call t :: h
  | _ => ∃ h, thist s t = Call t :: h
  end.

Record stinv s (l : list loc) : Prop := {
  st_count : count s = xchgs s;
  st_pos : 0 <= xchgs s;
  st_replay : replay (hist s) = Some l;
  st_chain : chain (next s) (top s) l;
  st_nodup : NoDup l;
  st_stk : ∀ n, n ∈ l → owner s !! n = None;
  st_own : ∀ n t, owner s !! n = Some t → is_Some (next s !! n);
  st_knows : ∀ t, knows s t (spcs s t);
  st_effect : ∀ t, effect s t (spcs s t);
}.

Lemma stinv_init : stinv fev_simple_mpmc_stack_init [].
Proof. split; try done. constructor. Qed.

Lemma chain_top nx n l : chain nx (Some n) l → ∃ l' o, l = n :: l' ∧ nx !! n = Some o ∧ chain nx o l'.
Proof. destruct l as [|x l]; [done|]. intros (E & o & Hx & Hc). simplify_eq. eauto. Qed.

Lemma top_next s l n : stinv s l → top s = Some n → is_Some (next s !! n) ∧ owner s !! n = None.
Proof.
  intros Hi Ht. pose proof (st_chain _ _ Hi) as Hc. rewrite Ht in Hc. apply chain_top in Hc as (l' & o & -> & Hn & _).
  split; [eauto|]. apply (st_stk _ _ Hi). apply list_elem_of_here.
Qed.

Lemma effect_frame s s' t p : thist s' t = thist s t → effect s t p → effect s' t p.
Proof. unfold effect. by intros ->. Qed.

Lemma thist_add s s' e u :
  hist s' = e :: hist s → thist s' u = if decide (ev_thread e = u) then e :: thist s u else thist s u.
Proof. intros E. unfold thist. by rewrite E, filter_cons. Qed.

(** An event of the thread [t]. *)
Lemma effect_add s s' t e q :
  hist s' = e :: hist s → ev_thread e = t → (∀ u, effect s u (spcs s u)) → spcs s' = upd (spcs s) t q →
  (thist s' t = e :: thist s t → effect s' t q) → ∀ u, effect s' u (spcs s' u).
Proof.
  intros Eh <- He Ep Hq u. rewrite Ep. pose proof (thist_add s s' e u Eh) as Hu.
  destruct (decide (ev_thread e = u)) as [<-|Hne].
  - rewrite upd_eq. by apply Hq.
  - rewrite upd_ne by done. by apply (effect_frame s).
Qed.

(** A step that changes neither the stack nor the ownership of nodes. *)
Lemma stinv_go s l t p : stinv s l → knows s t p → effect s t p → stinv (sgo s t p) l.
Proof.
  intros [] Hk He. split; try done; simpl; intros u; (destruct (decide (t = u)) as [<-|Hne];
    [rewrite upd_eq|rewrite upd_ne by done]); [exact Hk|apply st_knows0|exact He|apply st_effect0].
Qed.

(** A thread sees the top of the stack. *)
Lemma stinv_see s l t p c :
  stinv s l → spcs s t = p → (∃ h, thist s t = Call t :: h) → c <= count s →
  stinv (sgo (see_top s t (top s)) t (PopNext (top s) c)) l.
Proof.
  intros Hi Hp Hh Hc. destruct (top s) as [n|] eqn:Et; simpl.
  - apply stinv_go; [done| |done]. destruct (top_next s l n Hi Et). done.
  - pose proof Hi as []. destruct l; [|by rewrite Et in st_chain0; destruct st_chain0].
    split; simpl in *; try done.
    + by rewrite st_replay0.
    + intros u. destruct (decide (t = u)) as [<-|Hne]; [by rewrite upd_eq|rewrite upd_ne by done]. apply (st_knows0 u).
    + eapply (effect_add s); [done|done|apply Hi|done|]. simpl. destruct Hh as [h ->]. eauto.
Qed.

(** A node that a thread owns may be written by it only. *)
Lemma stinv_store s l t n o :
  stinv s l → (owner s !! n = Some t ∨ next s !! n = None) → (∀ c o, spcs s t ≠ PushCas n o c) →
  stinv (sset_next s n o) l.
Proof.
  intros Hi Hn Hp. pose proof Hi as [].
  assert (Hnl : n ∉ l).
  { intros Hl. destruct Hn as [Hn|Hn]; [by rewrite (st_stk0 n Hl) in Hn|].
    destruct (chain_alloc _ _ _ n st_chain0 Hl). congruence. }
  split; simpl; try done.
  - by apply chain_frame.
  - intros x u Hx. rewrite lookup_insert_is_Some. destruct (decide (n = x)); [by left|right; eauto].
  - intros u. pose proof (st_knows0 u) as Hk. destruct (spcs s u) as [| | | |x ox| | |[x|]|x ox|] eqn:Eu; simpl in *; try done.
    + destruct Hk as [Ho Hx]. split; [done|]. destruct (decide (n = x)) as [->|Hne]; [|by rewrite lookup_insert_ne].
      exfalso. destruct Hn as [Hn|Hn]; [|congruence]. simplify_eq. by eapply Hp.
    + destruct Hk as (Hc & Hx & Ht). split_and!; [done| |done]. rewrite lookup_insert_is_Some.
      destruct (decide (n = x)); [by left|by right].
    + destruct Hk as (Hc & Ht). split; [done|]. intros E. destruct (Ht E) as [Et Hx]. split; [done|].
      rewrite lookup_insert_ne; [done|]. intros ->. apply Hnl.
      rewrite Et in st_chain0. apply chain_top in st_chain0 as (? & ? & -> & _). apply list_elem_of_here.
Qed.

(** What the others know after an exchange: their counters are too old. *)
Lemma knows_xchg s s' t u p :
  t ≠ u → knows s u p → count s' = count s + 1 → next s' = next s →
  (∀ n, owner s !! n = Some u → owner s' !! n = Some u) → knows s' u p.
Proof.
  intros Hne Hk Hc Hx Ho. destruct p as [| | | | | | |[]| |]; simpl in *; rewrite ?Hc, ?Hx; try done; auto.
  - naive_solver.
  - lia.
  - destruct Hk as (? & ? & ?). split_and!; [lia|done|lia].
  - destruct Hk as (? & ?). split; [lia|]. lia.
Qed.

Lemma stinv_push s l t n o c :
  stinv s l → spcs s t = PushCas n o c → cas_ok s o c = true → xchgs s + 1 < 2 ^ 64 →
  stinv (sgo (sadd (sset_owner (sxchg s (Some n)) (delete n (owner s))) (Lin t (OPush n))) t (SRet (OPush n))) (n :: l).
Proof.
  intros Hi Hp [Ho%bool_decide_eq_true Hc%Z.eqb_eq]%andb_true_iff Hb. pose proof Hi as [].
  pose proof (st_knows0 t) as Hk. rewrite Hp in Hk. destruct Hk as [Hk Hx].
  assert (Hnl : n ∉ l) by (intros Hl; by rewrite (st_stk0 n Hl) in Hk).
  split; simpl.
  - rewrite st_count0, u64_small by lia. done.
  - lia.
  - by rewrite st_replay0.
  - split; [done|]. exists o. by subst o.
  - by constructor.
  - intros x [->|Hx']%elem_of_cons; [by rewrite lookup_delete_eq|].
    rewrite lookup_delete_ne by (by intros ->). auto.
  - intros x u [_ Hu]%lookup_delete_Some. eauto.
  - intros u. destruct (decide (t = u)) as [<-|Hne]; [by rewrite upd_eq|rewrite upd_ne by done].
    eapply knows_xchg; [done|apply (st_knows0 u)| |done|].
    + simpl. rewrite st_count0, u64_small by lia. done.
    + intros x Hx'. simpl. rewrite lookup_delete_ne; [done|]. intros ->. congruence.
  - eapply (effect_add s); [done|done|done|done|]. pose proof (st_effect0 t) as He. rewrite Hp in He.
    destruct He as [h Hh]. simpl. rewrite Hh. eauto.
Qed.

Lemma stinv_pop s l t n nx c :
  stinv s l → spcs s t = PopCas n nx c → cas_ok s (Some n) c = true → xchgs s + 1 < 2 ^ 64 →
  ∃ l', l = n :: l' ∧
  stinv (sgo (sadd (sset_owner (sxchg s nx) (<[n := t]> (owner s))) (Lin t (OPop (Some n)))) t (SRet (OPop (Some n)))) l'.
Proof.
  intros Hi Hp [Ho%bool_decide_eq_true Hc%Z.eqb_eq]%andb_true_iff Hb. pose proof Hi as [].
  pose proof (st_knows0 t) as Hk. rewrite Hp in Hk. destruct Hk as [_ Hk]. destruct (Hk (eq_sym Hc)) as [_ Hx].
  rewrite Ho in st_chain0. apply chain_top in st_chain0 as (l' & o & -> & Hx' & Hch). simplify_eq.
  apply NoDup_cons in st_nodup0 as [Hnl Hnd]. exists l'. split; [done|].
  assert (Hn : owner s !! n = None) by apply st_stk0, list_elem_of_here.
  split; simpl; try done.
  - rewrite st_count0, u64_small by lia. done.
  - lia.
  - rewrite st_replay0. simpl. by rewrite decide_True.
  - intros x Hx2. rewrite lookup_insert_ne by (by intros ->). apply st_stk0. by apply list_elem_of_further.
  - intros x u. destruct (decide (n = x)) as [<-|Hne]; [eauto|]. rewrite lookup_insert_ne by done. eauto.
  - intros u. destruct (decide (t = u)) as [<-|Hne]; [by rewrite upd_eq|rewrite upd_ne by done].
    eapply knows_xchg; [done|apply (st_knows0 u)| |done|].
    + simpl. rewrite st_count0, u64_small by lia. done.
    + intros x Hx2. simpl. rewrite lookup_insert_ne; [done|]. intros ->. congruence.
  - eapply (effect_add s); [done|done|done|done|]. pose proof (st_effect0 t) as He. rewrite Hp in He.
    destruct He as [h Hh]. simpl. rewrite Hh. eauto.
Qed.

Lemma stack_step_ok s l lb :
  stinv s l → stack_enabled s lb = true →
  ∃ s', stack_step s lb = Some s' ∧ xchgs s <= xchgs s' ∧ (xchgs s' < 2 ^ 64 → ∃ l', stinv s' l').
Proof.
  intros Hi He. destruct lb as [t n|t|t n|t]; simpl in He |- *.
  - apply andb_true_iff in He as [Hp%bool_decide_eq_true Ho%bool_decide_eq_true].
    eexists. split; [done|]. split; [done|]. intros _. exists l.
    pose proof Hi as []. split; try done; simpl.
    + intros u. destruct (decide (t = u)) as [<-|Hne]; [by rewrite upd_eq|rewrite upd_ne by done]. apply (st_knows0 u).
    + eapply (effect_add s); [done|done|done|done|]. simpl. eauto.
  - apply bool_decide_eq_true in He. eexists. split; [done|]. split; [done|]. intros _. exists l.
    pose proof Hi as []. split; try done; simpl.
    + intros u. destruct (decide (t = u)) as [<-|Hne]; [by rewrite upd_eq|rewrite upd_ne by done]. apply (st_knows0 u).
    + eapply (effect_add s); [done|done|done|done|]. simpl. eauto.
  - apply andb_true_iff in He as [Hp%bool_decide_eq_true Hn%bool_decide_eq_true].
    eexists. split; [done|]. split; [done|]. intros _. exists l.
    assert (Hi' : stinv (sset_next s n None) l).
    { eapply stinv_store; [done|by right|]. by rewrite Hp. }
    assert (Hno : ∀ u, owner s !! n ≠ Some u) by (intros u Hu; apply (st_own _ _ Hi) in Hu; destruct Hu; congruence).
    assert (Hnl : n ∉ l).
    { intros Hl. destruct (chain_alloc _ _ _ n (st_chain _ _ Hi) Hl). congruence. }
    destruct Hi'. split; simpl in *; try done.
    + intros x Hx. rewrite lookup_insert_ne by (by intros ->). auto.
    + intros x u. destruct (decide (n = x)) as [<-|Hne]; [rewrite !lookup_insert_eq; eauto|].
      rewrite !lookup_insert_ne by done. intros Hu. by apply (st_own _ _ Hi) in Hu.
    + intros u. specialize (st_knows0 u).
      assert (Ho : ∀ x, owner s !! x = Some u → <[n := t]> (owner s) !! x = Some u).
      { intros x Hx. rewrite lookup_insert_ne; [done|]. intros ->. by eapply Hno. }
      destruct (spcs s u) as [| | | | | | |[]| |]; simpl in *; try done; auto. naive_solver.
  - apply negb_true_iff, bool_decide_eq_false in He. pose proof Hi as [].
    pose proof (st_knows0 t) as Hk. pose proof (st_effect0 t) as Hf.
    destruct (spcs s t) as [|n|n c|n o c|n o c| |c|[n|] c|n nx c|o] eqn:Ep; [done|..]; cbn [knows effect] in Hk, Hf; simpl.
    + eexists. split; [done|]. split; [done|]. intros _. exists l. by apply stinv_go.
    + eexists. split; [done|]. split; [done|]. intros _. exists l. by apply stinv_go.
    + destruct (st_own0 n t Hk) as [o' Ho']. rewrite Ho'. eexists. split; [done|]. split; [done|]. intros _. exists l.
      apply stinv_go; [|simpl; by rewrite lookup_insert_eq|done]. eapply stinv_store; [done|by left|by rewrite Ep].
    + destruct (cas_ok s o c) eqn:Ec; eexists; (split; [done|]).
      * simpl. split; [lia|]. intros Hb. eexists. by eapply stinv_push.
      * split; [done|]. intros _. exists l. apply stinv_go; [done|by destruct Hk|done].
    + eexists. split; [done|]. split; [done|]. intros _. exists l. apply stinv_go; [done|simpl; lia|done].
    + eexists. split; [done|]. split; [by destruct (top s)|]. intros _. exists l. by eapply stinv_see.
    + destruct Hk as (Hc & [nx Hx] & Ht). rewrite Hx. eexists. split; [done|]. split; [done|]. intros _. exists l.
      apply stinv_go; [done|simpl|done]. auto.
    + eexists. split; [done|]. split; [done|]. intros _. exists l. by apply stinv_go.
    + destruct (cas_ok s (Some n) c) eqn:Ec; eexists; (split; [done|]).
      * simpl. split; [lia|]. intros Hb. edestruct stinv_pop as (l' & _ & Hi'); [done..|]. eauto.
      * split; [by destruct (top s)|]. intros _. exists l. eapply stinv_see; [done|done|done|lia].
    + eexists. split; [done|]. split; [done|]. intros _. exists l. by apply stinv_go.
Qed.

Lemma stack_reach_inv s :
  reach stack_next fev_simple_mpmc_stack_init s → xchgs s < 2 ^ 64 → ∃ l, stinv s l.
Proof.
  induction 1 as [|s lb s' Hr IH Hs]; intros Hb; [exists []; apply stinv_init|].
  unfold stack_next in Hs. destruct (stack_enabled s lb) eqn:He; [|done].
  assert (Hm : xchgs s <= xchgs s').
  { clear - Hs. unfold stack_step, push_step, pop_step, see_top in Hs.
    destruct lb; simplify_eq/=; [lia|lia|lia|]. destruct (spcs s t); inv_opt Hs; simplify_eq/=; try lia;
      destruct (top s); simpl; lia. }
  destruct IH as [l Hi]; [lia|]. destruct (stack_step_ok s l lb Hi He) as (s2 & E & _ & Hi'). simplify_eq. auto.
Qed.

(** ** Properties *)

(** C38: The stack is linearizable: in every interleaving of pushes and pops, with
    nodes that are pushed again after they were popped, each operation takes
    effect at once at some moment between its call and its return, the result
    it returns is the one of that moment, and the linked list in memory is the
    list these effects produce. No step accesses a node that was never
    allocated. This holds as long as the counter has not wrapped around. *)
Theorem simple_stack_linearizable s :
  reach stack_next fev_simple_mpmc_stack_init s → xchgs s < 2 ^ 64 →
  (∃ l, replay (hist s) = Some l ∧ chain (next s) (top s) l ∧ NoDup l ∧ (∀ n, n ∈ l → owner s !! n = None)) ∧
  (∀ t o, spcs s t = SRet o → ∃ h, thist s t = Lin t o :: Call t :: h) ∧
  (∀ lb, stack_enabled s lb = true → is_Some (stack_step s lb)).
Proof.
  intros Hr Hb. destruct (stack_reach_inv s Hr Hb) as [l Hi]. split; [|split].
  - exists l. by destruct Hi.
  - intros t o Hp. pose proof (st_effect _ _ Hi t) as He. by rewrite Hp in He.
  - intros lb He. destruct (stack_step_ok s l lb Hi He) as (s' & -> & _). eauto.
Qed.

(** Thread 0 is about to pop node 2, with node 1 below it; meanwhile thread 1 pops both
    and pushes node 2 again. The exchange of thread 0 fails and it pops node 2 with the
    new list below. *)
Definition ex_stack_run : list slabel :=
  [SAlloc 0 1; SAlloc 0 2] ++ [SPush 0 1] ++ replicate 5 (STau 0) ++ [SPush 0 2] ++ replicate 5 (STau 0) ++
  [SPop 0; STau 0; STau 0; STau 0] ++
  [SPop 1] ++ replicate 5 (STau 1) ++ [SPop 1] ++ replicate 5 (STau 1) ++ [SPush 1 2] ++ replicate 5 (STau 1) ++
  replicate 3 (STau 0).

Definition ex_stack : fev_simple_mpmc_stack :=
  default fev_simple_mpmc_stack_init (run stack_next fev_simple_mpmc_stack_init ex_stack_run).

Lemma ex_stack_reach : reach stack_next fev_simple_mpmc_stack_init ex_stack.
Proof.
  assert (is_Some (run stack_next fev_simple_mpmc_stack_init ex_stack_run)) as [s Hs] by (vm_compute; by eexists).
  unfold ex_stack. rewrite Hs. by eapply run_reach; [constructor|].
Qed.

Lemma simple_stack_linearizable_witness :
  spcs ex_stack 0%nat = SRet (OPop (Some 2%positive)) ∧ replay (hist ex_stack) = Some [] ∧
  ∃ h, thist ex_stack 0%nat = Lin 0%nat (OPop (Some 2%positive)) :: Call 0%nat :: h.
Proof.
  assert (Hb : xchgs ex_stack < 2 ^ 64) by (vm_compute; reflexivity).
  assert (Hp : spcs ex_stack 0%nat = SRet (OPop (Some 2%positive))) by (vm_compute; reflexivity).
  split; [exact Hp|]. split; [vm_compute; reflexivity|].
  exact (proj1 (proj2 (simple_stack_linearizable ex_stack ex_stack_reach Hb)) 0%nat (OPop (Some 2%positive)) Hp).
Defined.
