(* ===== verification/SimpleQueue.v ===== *)
(** The lock-free queue of [src/src/fev_simple_mpmc_queue.h], a variant of the
    queue of Michael and Scott whose nodes are used again.

    A step is one access to memory; [fev_cmpxchg2] exchanges a pointer and its
    counter at once. A node that was popped goes back to a pool
    ([fev_simple_mpmc_pool.h]) and may be pushed again at any time, also while
    other threads still hold pointers to it. The pool is represented by the set
    of its nodes; that its operations are atomic is shown in [SimpleStack].

    The queue of the code differs from the original in two points. A push
    resets the counter of its node's link, so the counter does not tell an old
    link from a new one. And a pop does not read the head again before it
    returns that the queue is empty. The properties below say what remains
    true, the examples at the end what does not. *)

From S2P Require Import Prelude.

Local Open Scope Z_scope.

Abbreviation value := (option loc).    (* void * *)

Record fev_simple_mpmc_queue_node := mk_qnode {
  qvalue : value;
  next_ptr : option loc;
  next_count : Z;
}.

Definition set_value x v := mk_qnode v (next_ptr x) (next_count x).
Definition set_ptr x o := mk_qnode (qvalue x) o (next_count x).
Definition set_count x c := mk_qnode (qvalue x) (next_ptr x) c.

(** ** Program counters

    [n] is the node being pushed, [tp], [tc] are [tail_ptr] and [tail_count],
    [nc], [np] are [next_count] and [next_ptr], [hp], [hc] are [head_ptr] and
    [head_count]. *)

Inductive qpc :=
| QIdle
(* fev_simple_mpmc_queue_push *)
| EValue (n : loc) (v : value) | ENull (n : loc) | ECount (n : loc)
| ETailC (n : loc) | ETailP (n : loc) (tc : Z)
| ENextC (n tp : loc) (tc : Z) | ENextP (n tp : loc) (tc nc : Z)
| ECheck (n tp : loc) (tc nc : Z) (np : option loc)
| EHelp (n tp : loc) (tc : Z) (np : loc)
| ELink (n tp : loc) (tc nc : Z) | ESwing (n tp : loc) (tc : Z)
| ERet
(* fev_simple_mpmc_queue_pop *)
| DHeadC | DHeadP (hc : Z)
| DTailC (hp : loc) (hc : Z) | DTailP (hp : loc) (hc tc : Z) | DNext (hp : loc) (hc : Z) (tp : loc) (tc : Z)
| DHelp (tp : loc) (tc : Z) (np : loc)
| DValue (hp : loc) (hc : Z) (np : loc) | DCas (hp : loc) (hc : Z) (np : loc) (v : value)
| DRet (r : option (value * loc)).

#[export] Instance qpc_eq_dec : EqDecision qpc.
Proof. solve_decision. Defined.

Record fev_simple_mpmc_queue := mk_queue {
  head_ptr : loc; head_count : Z;
  tail_ptr : loc; tail_count : Z;
  mem : gmap loc fev_simple_mpmc_queue_node;
  qpcs : nat → qpc;
  free : gset loc;               (* ghost: the nodes in the pool *)
  own : gmap loc nat;            (* ghost: the nodes in the hands of a thread *)
  pushed : list value;           (* ghost: the values whose push has taken effect, latest first *)
  popped : list value;           (* ghost: the values that were popped, earliest first *)
  hx : Z; tx : Z;                (* ghost: number of exchanges of the head and of the tail *)
}.

Implicit Types s : fev_simple_mpmc_queue.

Definition qgo s t p :=
  mk_queue (head_ptr s) (head_count s) (tail_ptr s) (tail_count s) (mem s) (upd (qpcs s) t p) (free s)
    (own s) (pushed s) (popped s) (hx s) (tx s).
Definition qmem s m :=
  mk_queue (head_ptr s) (head_count s) (tail_ptr s) (tail_count s) m (qpcs s) (free s)
    (own s) (pushed s) (popped s) (hx s) (tx s).
Definition qown s o f :=
  mk_queue (head_ptr s) (head_count s) (tail_ptr s) (tail_count s) (mem s) (qpcs s) f
    o (pushed s) (popped s) (hx s) (tx s).
Definition qpush s v :=
  mk_queue (head_ptr s) (head_count s) (tail_ptr s) (tail_count s) (mem s) (qpcs s) (free s)
    (own s) (v :: pushed s) (popped s) (hx s) (tx s).
Definition qpop s v :=
  mk_queue (head_ptr s) (head_count s) (tail_ptr s) (tail_count s) (mem s) (qpcs s) (free s)
    (own s) (pushed s) (popped s ++ [v]) (hx s) (tx s).

(** [fev_simple_mpmc_queue_init(queue, init_node)]. *)
Definition fev_simple_mpmc_queue_init (init_node : loc) : fev_simple_mpmc_queue :=
  mk_queue init_node 0 init_node 0 {[ init_node := mk_qnode None None 0 ]} (λ _, QIdle) ∅ ∅ [] [] 0 0.

(** [fev_simple_mpmc_queue_fini(queue, &freed_node)]. *)
Definition fev_simple_mpmc_queue_fini s : loc := head_ptr s.

(** [fev_cmpxchg2(&queue->tail, &tp, &tc, n, tc + 1)]. *)
Definition cas_tail s (tp : loc) (tc : Z) (n : loc) : bool * fev_simple_mpmc_queue :=
  if bool_decide (tail_ptr s = tp) && (tail_count s =? tc)
  then (true, mk_queue (head_ptr s) (head_count s) n (u64 (tc + 1)) (mem s) (qpcs s) (free s)
                (own s) (pushed s) (popped s) (hx s) (tx s + 1))
  else (false, s).

(** [fev_cmpxchg2(&queue->head, &hp, &hc, n, hc + 1)]. *)
Definition cas_head s (hp : loc) (hc : Z) (n : loc) : bool * fev_simple_mpmc_queue :=
  if bool_decide (head_ptr s = hp) && (head_count s =? hc)
  then (true, mk_queue n (u64 (hc + 1)) (tail_ptr s) (tail_count s) (mem s) (qpcs s) (free s)
                (own s) (pushed s) (popped s) (hx s + 1) (tx s))
  else (false, s).

(** [fev_cmpxchg2(&tp->next, &np, &nc, n, nc + 1)] with [np == NULL]. *)
Definition cas_next s (tp : loc) (nc : Z) (n : loc) : option (bool * fev_simple_mpmc_queue) :=
  x ← mem s !! tp;
  if bool_decide (next_ptr x = None) && (next_count x =? nc)
  then Some (true, qmem s (<[tp := mk_qnode (qvalue x) (Some n) (u64 (nc + 1))]> (mem s)))
  else Some (false, s).

Definition push_step s t (p : qpc) : option fev_simple_mpmc_queue :=
  match p with
  | EValue n v => x ← mem s !! n; Some (qgo (qmem s (<[n := set_value x v]> (mem s))) t (ENull n))
  | ENull n => x ← mem s !! n; Some (qgo (qmem s (<[n := set_ptr x None]> (mem s))) t (ECount n))
  | ECount n => x ← mem s !! n; Some (qgo (qmem s (<[n := set_count x 0]> (mem s))) t (ETailC n))
  | ETailC n => Some (qgo s t (ETailP n (tail_count s)))
  | ETailP n tc => Some (qgo s t (ENextC n (tail_ptr s) tc))
  | ENextC n tp tc => x ← mem s !! tp; Some (qgo s t (ENextP n tp tc (next_count x)))
  | ENextP n tp tc nc => x ← mem s !! tp; Some (qgo s t (ECheck n tp tc nc (next_ptr x)))
  | ECheck n tp tc nc np =>
      if negb (tail_count s =? tc) then Some (qgo s t (ETailC n))
      else match np with
           | Some np => Some (qgo s t (EHelp n tp tc np))
           | None => Some (qgo s t (ELink n tp tc nc))
           end
  | EHelp n tp tc np =>
      match cas_tail s tp tc np with
      | (true, s) => Some (qgo s t (ENextC n tp tc))
      | (false, s) => Some (qgo s t (ENextC n (tail_ptr s) (tail_count s)))
      end
  | ELink n tp tc nc =>
      r ← cas_next s tp nc n;
      match r with
      | (true, s) =>
          x ← mem s !! n;
          Some (qgo (qpush (qown s (delete n (own s)) (free s)) (qvalue x)) t (ESwing n tp tc))
      | (false, s) => Some (qgo s t (ETailC n))
      end
  | ESwing n tp tc => Some (qgo (cas_tail s tp tc n).2 t ERet)
  | _ => None
  end.

Definition pop_step s t (p : qpc) : option fev_simple_mpmc_queue :=
  match p with
  | DHeadC => Some (qgo s t (DHeadP (head_count s)))
  | DHeadP hc => Some (qgo s t (DTailC (head_ptr s) hc))
  | DTailC hp hc => Some (qgo s t (DTailP hp hc (tail_count s)))
  | DTailP hp hc tc => Some (qgo s t (DNext hp hc (tail_ptr s) tc))
  | DNext hp hc tp tc =>
      x ← mem s !! hp;
      if decide (hp = tp) then
        match next_ptr x with
        | None => Some (qgo s t (DRet None))
        | Some np => Some (qgo s t (DHelp tp tc np))
        end
      else
        match next_ptr x with
        | None => Some (qgo s t DHeadC)
        | Some np => Some (qgo s t (DValue hp hc np))
        end
  | DHelp tp tc np => Some (qgo (cas_tail s tp tc np).2 t DHeadC)
  | DValue hp hc np => x ← mem s !! np; Some (qgo s t (DCas hp hc np (qvalue x)))
  | DCas hp hc np v =>
      match cas_head s hp hc np with
      | (true, s) => Some (qgo (qpop (qown s (<[hp := t]> (own s)) (free s)) v) t (DRet (Some (v, hp))))
      | (false, s) => Some (qgo s t (DTailC (head_ptr s) (head_count s)))
      end
  | _ => None
  end.

(** [QAlloc]: the thread takes a node from the pool, or a new one, with an
    arbitrary content, from the system. [QFree]: it gives a node to the pool. *)
Inductive qlabel :=
| QPush (t : nat) (n : loc) (v : value) | QPop (t : nat)
| QAlloc (t : nat) (n : loc) (x : fev_simple_mpmc_queue_node) | QFree (t : nat) (n : loc)
| QTau (t : nat).

Definition idle s t : bool := bool_decide (qpcs s t = QIdle).

Section system.
Context (N : nat).    (* the number of threads *)

Definition queue_enabled s (l : qlabel) : bool :=
  match l with
  | QPush t n v => idle s t && bool_decide (own s !! n = Some t) && (t <? N)%nat
  | QPop t => idle s t && (t <? N)%nat
  | QAlloc t n _ => idle s t && (bool_decide (n ∈ free s) || bool_decide (mem s !! n = None)) && (t <? N)%nat
  | QFree t n => idle s t && bool_decide (own s !! n = Some t)
  | QTau t => negb (idle s t)
  end.

Definition queue_step s (l : qlabel) : option fev_simple_mpmc_queue :=
  match l with
  | QPush t n v => Some (qgo s t (EValue n v))
  | QPop t => Some (qgo s t DHeadC)
  | QAlloc t n x =>
      let m := if decide (n ∈ free s) then mem s else <[n := x]> (mem s) in
      Some (qown (qmem s m) (<[n := t]> (own s)) (free s ∖ {[ n ]}))
  | QFree t n => Some (qown s (delete n (own s)) ({[ n ]} ∪ free s))
  | QTau t =>
      match qpcs s t with
      | QIdle => None
      | ERet | DRet _ => Some (qgo s t QIdle)
      | (EValue _ _ | ENull _ | ECount _ | ETailC _ | ETailP _ _ | ENextC _ _ _ | ENextP _ _ _ _ | ECheck _ _ _ _ _
        | EHelp _ _ _ _ | ELink _ _ _ _ | ESwing _ _ _) as p => push_step s t p
      | p => pop_step s t p
      end
  end.

Definition queue_next s l := if queue_enabled s l then queue_step s l else None.
End system.

(** ** Linked lists *)

Section seg.
Implicit Types (m : gmap loc fev_simple_mpmc_queue_node) (l : list loc).

Definition ptr_of m x : option (option loc) := next_ptr <$> m !! x.
Definition vals m l : list value := (λ x, from_option qvalue None (m !! x)) <$> l.

Fixpoint seg m l : Prop :=
  match l with
  | [] => True
  | x :: l' => ptr_of m x = Some (head l') ∧ seg m l'
  end.

Lemma seg_frame m m' l : (∀ x, x ∈ l → ptr_of m' x = ptr_of m x) → seg m l → seg m' l.
Proof.
  induction l as [|x l IH]; [done|]. intros Hx [Hp Hs]. split.
  - rewrite Hx by apply list_elem_of_here. done.
  - apply IH; [|done]. intros y Hy. apply Hx. by apply list_elem_of_further.
Qed.

Lemma vals_frame m m' l : (∀ x, x ∈ l → qvalue <$> m' !! x = qvalue <$> m !! x) → vals m' l = vals m l.
Proof.
  induction l as [|x l IH]; [done|]. intros Hx. unfold vals in *. simpl. f_equal.
  - specialize (Hx x (list_elem_of_here _ _)). destruct (m !! x), (m' !! x); simplify_eq/=; congruence.
  - apply IH. intros y Hy. apply Hx. by apply list_elem_of_further.
Qed.

Lemma seg_app m l1 l2 : seg m (l1 ++ l2) → seg m l2.
Proof. induction l1 as [|x l1 IH]; [done|]. intros [_ Hs]. auto. Qed.

Lemma seg_last m l x : seg m l → x ∈ l → ptr_of m x = Some None → ∃ l', l = l' ++ [x].
Proof.
  induction l as [|y l IH]; intros Hs Hx Hp; [by apply not_elem_of_nil in Hx|].
  apply elem_of_cons in Hx as [->|Hx].
  - destruct Hs as [Hp' _]. rewrite Hp in Hp'. destruct l; [by exists []|done].
  - destruct Hs as [_ Hs]. destruct (IH Hs Hx Hp) as [l' ->]. by exists (y :: l').
Qed.

Lemma seg_next m l x y : seg m l → x ∈ l → ptr_of m x = Some (Some y) → ∃ l1 l2, l = l1 ++ x :: y :: l2.
Proof.
  induction l as [|z l IH]; intros Hs Hx Hp; [by apply not_elem_of_nil in Hx|].
  apply elem_of_cons in Hx as [->|Hx].
  - destruct Hs as [Hp' _]. rewrite Hp in Hp'. destruct l as [|a l]; simplify_eq/=. by exists [], l.
  - destruct Hs as [_ Hs]. destruct (IH Hs Hx Hp) as (l1 & l2 & ->). by exists (z :: l1), l2.
Qed.

(** Linking a second list to the last node of the first. *)
Lemma seg_link m m' l1 x y l2 :
  seg m (l1 ++ [x]) → seg m (y :: l2) → x ∉ l1 → x ∉ y :: l2 →
  ptr_of m' x = Some (Some y) → (∀ z, z ≠ x → ptr_of m' z = ptr_of m z) → seg m' ((l1 ++ [x]) ++ y :: l2).
Proof.
  intros H1 H2 Hx1 Hx2 Hp Hf.
  assert (Hs2 : seg m' (y :: l2)) by (eapply seg_frame; [|exact H2]; intros z Hz; apply Hf; by intros ->).
  induction l1 as [|a l1 IH].
  - split; [exact Hp|exact Hs2].
  - apply not_elem_of_cons in Hx1 as [Hne Hx1]. destruct H1 as [Ha H1]. split; [|by apply IH].
    rewrite Hf by done. rewrite Ha. by destruct l1.
Qed.
End seg.
#[local] Arguments seg : simpl never.

(** ** Ghost state

    [pl] says where a node is: in the queue [gq], attached to a node that a
    thread is still pushing ([gp t]), in the hands of a thread, or in the pool.
    [gu] are the nodes that have been initialised. The counter of a node's link
    does not tell whether the node was removed and pushed again, time does:
    [gs x] is the moment a thread got hold of [x], [gl t] the moment at which
    thread [t] read the tail. *)

Inductive place := InQ | Pend (t : nat) | Own (t : nat) | InPool.

Record ghost := mk_ghost {
  gq : list loc;
  gp : nat → list loc;
  pl : gmap loc place;
  gu : gset loc;
  gs : loc → Z;
  gl : nat → Z;
  gc : Z;
}.

Implicit Types g : ghost.

Section gather.
Context {A : Type} (N : nat).

Definition gather (f : nat → list A) : list A := concat (f <$> seq 0 N).

Lemma elem_of_gather f x : x ∈ gather f ↔ ∃ t, (t < N)%nat ∧ x ∈ f t.
Proof.
  unfold gather. rewrite list_elem_of_In, in_concat. setoid_rewrite <- list_elem_of_In. split.
  - intros (l & [t [-> Ht]]%list_elem_of_fmap & Hx). apply elem_of_seq in Ht. exists t. split; [lia|done].
  - intros (t & Ht & Hx). exists (f t). split; [|done]. apply list_elem_of_fmap. exists t. split; [done|].
    apply elem_of_seq. lia.
Qed.

Lemma gather_upd f t l : (t < N)%nat → gather (upd f t l) ++ f t ≡ₚ gather f ++ l.
Proof.
  intros Ht. unfold gather.
  assert (Hs : seq 0 N = seq 0 t ++ t :: seq (S t) (N - S t)).
  { replace N with (t + S (N - S t))%nat at 1 by lia. by rewrite seq_app. }
  assert (Hf : ∀ a b, (∀ x, x ∈ seq a b → x ≠ t) → upd f t l <$> seq a b = f <$> seq a b).
  { intros a b Hx. apply list_fmap_ext. intros i x Hi. apply upd_ne. intros ->. eapply Hx; [|done].
    by eapply list_elem_of_lookup_2. }
  rewrite Hs, !fmap_app, !concat_app. simpl. rewrite upd_eq, !Hf.
  - solve_Permutation.
  - intros x Hx%elem_of_seq. lia.
  - intros x Hx%elem_of_seq. lia.
Qed.

Lemma gather_nil f : (∀ t, f t = []) → gather f = [].
Proof. intros Hf. unfold gather. induction (seq 0 N) as [|t l IH]; [done|]. simpl. by rewrite Hf. Qed.
End gather.

(** The node a thread is pushing, once it is initialised, and the tail it has read. *)
Definition node_of (p : qpc) : option loc :=
  match p with
  | EValue n _ | ENull n | ECount n | ETailC n | ETailP n _ | ENextC n _ _ | ENextP n _ _ _
  | ECheck n _ _ _ _ | EHelp n _ _ _ | ELink n _ _ _ => Some n
  | _ => None
  end.

Definition live (p : qpc) : option loc :=
  match p with EValue _ _ | ENull _ | ECount _ => None | _ => node_of p end.

Definition stale (p : qpc) : option loc :=
  match p with
  | ENextC _ tp _ | ENextP _ tp _ _ | ECheck _ tp _ _ _ | EHelp _ tp _ _ | ELink _ tp _ _ => Some tp
  | _ => None
  end.

(** What a thread knows about the queue, if the counters have not changed since. *)
Definition next_is s (tp : loc) (tc : Z) (n : loc) : Prop :=
  tc <= tx s ∧ (tc = tx s → tp = tail_ptr s ∧ ptr_of (mem s) tp = Some (Some n)).

Definition at_head s g (hp : loc) (hc : Z) : Prop := hc <= hx s ∧ hp ∈ gu g ∧ (hc = hx s → hp = head_ptr s).

Definition know s g (p : qpc) : Prop :=
  match p with
  | ECount n => ptr_of (mem s) n = Some None
  | ETailP n tc => tc <= tx s
  | ENextC n tp tc => tc <= tx s ∧ (tc = tx s → tp = tail_ptr s)
  | ENextP n tp tc nc => tc <= tx s ∧ (tc = tx s → tp = tail_ptr s ∧ (ptr_of (mem s) tp = Some None → nc = 0))
  | ECheck n tp tc nc np =>
      tc <= tx s ∧ (tc = tx s → tp = tail_ptr s ∧ (np = None → nc = 0) ∧
                    ∀ y, np = Some y → ptr_of (mem s) tp = Some (Some y))
  | EHelp n tp tc np => next_is s tp tc np
  | ELink n tp tc nc => nc = 0 ∧ tc <= tx s ∧ (tc = tx s → tp = tail_ptr s)
  | ESwing n tp tc => next_is s tp tc n
  | DHelp tp tc np => next_is s tp tc np
  | DHeadP hc => hc <= hx s
  | DTailC hp hc => at_head s g hp hc
  | DTailP hp hc tc => at_head s g hp hc ∧ tc <= tx s
  | DNext hp hc tp tc =>
      at_head s g hp hc ∧ tc <= tx s ∧ (tc = tx s → tp = tail_ptr s) ∧
      (hc = hx s → hp ≠ tp → head_ptr s ≠ tail_ptr s)
  | DValue hp hc np =>
      at_head s g hp hc ∧ is_Some (mem s !! np) ∧
      (hc = hx s → ptr_of (mem s) hp = Some (Some np) ∧ head_ptr s ≠ tail_ptr s)
  | DCas hp hc np v =>
      at_head s g hp hc ∧
      (hc = hx s → ptr_of (mem s) hp = Some (Some np) ∧ head_ptr s ≠ tail_ptr s ∧
                   qvalue <$> mem s !! np = Some v)
  | _ => True
  end.

(** An initialised node has an empty link with counter 0 exactly if it is the last of a
    list. *)
Definition placed s g (x : loc) : Prop :=
  match pl g !! x with
  | Some InQ | Some (Pend _) => True
  | Some (Own t) => live (qpcs s t) = Some x
  | _ => False
  end.

Record qinv (N : nat) s g : Prop := {
  qi_hc : head_count s = hx s; qi_hpos : 0 <= hx s;
  qi_tc : tail_count s = tx s; qi_tpos : 0 <= tx s;
  qi_threads : ∀ t, (N <= t)%nat → qpcs s t = QIdle;
  qi_head : head (gq g) = Some (head_ptr s);
  qi_tail : tail_ptr s ∈ gq g;
  qi_seg : seg (mem s) (gq g);
  qi_nodup : NoDup (gq g);
  qi_plq : ∀ x, x ∈ gq g ↔ pl g !! x = Some InQ;
  qi_plp : ∀ x t, x ∈ gp g t ↔ pl g !! x = Some (Pend t);
  qi_plo : ∀ x t, own s !! x = Some t ↔ pl g !! x = Some (Own t);
  qi_plf : ∀ x, x ∈ free s ↔ pl g !! x = Some InPool;
  qi_dom : ∀ x, is_Some (mem s !! x) ↔ is_Some (pl g !! x);
  qi_pend : ∀ t, match live (qpcs s t) with
                 | Some n => seg (mem s) (n :: gp g t) ∧ NoDup (gp g t)
                 | None => gp g t = []
                 end;
  qi_node : ∀ t n, node_of (qpcs s t) = Some n → pl g !! n = Some (Own t);
  qi_init : ∀ x, placed s g x → x ∈ gu g;
  qi_used : ∀ x, x ∈ gu g → is_Some (mem s !! x);
  qi_count : ∀ x nd, x ∈ gu g → mem s !! x = Some nd →
    (next_count nd = 0 ↔ next_ptr nd = None ∧ placed s g x);
  qi_ptr : ∀ x nd y, x ∈ gu g → mem s !! x = Some nd → next_ptr nd = Some y → is_Some (mem s !! y);
  qi_since : ∀ x, gs g x <= gc g;
  qi_order : ∀ t n x, live (qpcs s t) = Some n → x ∈ gp g t → gs g x < gs g n;
  qi_stale : ∀ t n tp, live (qpcs s t) = Some n → stale (qpcs s t) = Some tp →
    tp ∈ gu g ∧ gs g n < gl g t <= gc g ∧
    ∀ u, pl g !! tp = Some (Pend u) ∨ pl g !! tp = Some (Own u) → gl g t < gs g tp;
  qi_know : ∀ t, know s g (qpcs s t);
  qi_vals : pushed s ≡ₚ popped s ++ vals (mem s) (tail (gq g)) ++ vals (mem s) (gather N (gp g));
}.

(** ** What one thread knows survives the steps of the others *)

Record frame s s' g : Prop := {
  fr_tx : tx s <= tx s';
  fr_tail : tx s = tx s' → tail_ptr s' = tail_ptr s;
  fr_hx : hx s <= hx s';
  fr_head : hx s = hx s' → head_ptr s' = head_ptr s;
  fr_dom : ∀ x, is_Some (mem s !! x) → is_Some (mem s' !! x);
  fr_node : ∀ x nd, x ∈ gq g → mem s !! x = Some nd →
    ∃ nd', mem s' !! x = Some nd' ∧ qvalue nd' = qvalue nd ∧ (next_ptr nd' = next_ptr nd ∨ next_ptr nd = None);
  fr_ht : hx s = hx s' → head_ptr s ≠ tail_ptr s → head_ptr s' ≠ tail_ptr s';
}.

Lemma frame_ptr s s' g x y :
  frame s s' g → x ∈ gq g → ptr_of (mem s) x = Some (Some y) → ptr_of (mem s') x = Some (Some y).
Proof.
  intros Hf Hx. unfold ptr_of. destruct (mem s !! x) as [nd|] eqn:E; [|done]. simpl.
  destruct (fr_node _ _ _ Hf x nd Hx E) as (nd' & -> & _ & [E'|?]); simpl; congruence.
Qed.

Lemma frame_none s s' g x :
  frame s s' g → x ∈ gq g → is_Some (mem s !! x) → ptr_of (mem s') x = Some None → ptr_of (mem s) x = Some None.
Proof.
  intros Hf Hx [nd E]. unfold ptr_of. rewrite E.
  destruct (fr_node _ _ _ Hf x nd Hx E) as (nd' & -> & _ & [E'|?]); simpl; congruence.
Qed.

Lemma qi_gq_mem N s g x : qinv N s g → x ∈ gq g → is_Some (mem s !! x).
Proof. intros Hi Hx. apply (qi_dom _ _ _ Hi). apply (qi_plq _ _ _ Hi) in Hx. eauto. Qed.

Lemma qi_head_in N s g : qinv N s g → head_ptr s ∈ gq g.
Proof. intros Hi. pose proof (qi_head _ _ _ Hi). destruct (gq g); simplify_eq/=. apply list_elem_of_here. Qed.

Lemma know_frame N s s' g g' p :
  qinv N s g → frame s s' g → gu g ⊆ gu g' →
  (∀ n, p = ECount n → ptr_of (mem s) n = Some None → ptr_of (mem s') n = Some None) →
  know s g p → know s' g' p.
Proof.
  intros Hi Hf Hg Hec. pose proof (qi_tail _ _ _ Hi) as Ht. pose proof (qi_head_in _ _ _ Hi) as Hh.
  pose proof (fr_tx _ _ _ Hf) as Hx. pose proof (fr_hx _ _ _ Hf) as Hx'.
  assert (Hn : ∀ tp tc n, next_is s tp tc n → next_is s' tp tc n).
  { intros tp tc n [Hc Hk]. split; [lia|]. intros E. destruct Hk as [-> Hp]; [lia|].
    rewrite (fr_tail _ _ _ Hf) by lia. split; [done|]. by eapply frame_ptr. }
  assert (Ha : ∀ hp hc, at_head s g hp hc → at_head s' g' hp hc).
  { intros hp hc (Hc & Hp & Hk). split; [lia|]. split; [by apply Hg|]. intros E.
    rewrite (fr_head _ _ _ Hf) by lia. apply Hk. lia. }
  assert (Hl : ∀ tp tc, tc <= tx s → (tc = tx s → tp = tail_ptr s) → tc <= tx s' ∧ (tc = tx s' → tp = tail_ptr s')).
  { intros tp tc Hc Hk. split; [lia|]. intros E. rewrite (fr_tail _ _ _ Hf) by lia. apply Hk. lia. }
  destruct p; simpl; auto.
  - lia.
  - intros [? ?]. auto.
  - intros [Hc Hk]. split; [lia|]. intros E. destruct Hk as [-> Hp]; [lia|].
    rewrite (fr_tail _ _ _ Hf) by lia. split; [done|]. intros Hp'. apply Hp. eapply frame_none; [done..| |done].
    by eapply qi_gq_mem.
  - intros [Hc Hk]. split; [lia|]. intros E. destruct Hk as (-> & Hp & Hq); [lia|].
    rewrite (fr_tail _ _ _ Hf) by lia. split_and!; [done|done|]. intros y Hy. eapply frame_ptr; [done..|]. auto.
  - intros (-> & Hc & Hk). auto.
  - lia.
  - intros [Hh' Hc]. split; [auto|lia].
  - intros (Hh' & Hc & Hk & Hne). destruct (Hl _ _ Hc Hk). split_and!; auto. intros E. pose proof Hh' as (? & _).
    intros Hd. apply (fr_ht _ _ _ Hf); [lia|]. apply Hne; [lia|done].
  - intros (Hh' & Hm & Hk). split_and!; auto; [by apply (fr_dom _ _ _ Hf)|].
    intros E. pose proof Hh' as (? & _ & Hq). rewrite Hq in * by lia. destruct Hk as [Hp Hd]; [lia|].
    split; [by eapply frame_ptr|]. apply (fr_ht _ _ _ Hf); [lia|done].
  - intros (Hh' & Hk). split; auto.
    intros E. pose proof Hh' as (? & _ & Hq). rewrite Hq in * by lia. destruct Hk as (Hp & Hd & Hv); [lia|].
    split_and!; [by eapply frame_ptr|apply (fr_ht _ _ _ Hf); [lia|done]|].
    destruct (mem s !! np) as [nd|] eqn:En; [|done].
    destruct (seg_next _ _ _ _ (qi_seg _ _ _ Hi) Hh Hp) as (l1 & l2 & El).
    destruct (fr_node _ _ _ Hf np nd) as (nd' & -> & Ev & _); [|done|simpl in *; congruence].
    rewrite El. apply elem_of_app. right. apply list_elem_of_further, list_elem_of_here.
Qed.

(** ** Steps of one thread that change nothing else *)

Lemma frame_refl s s' g :
  tx s' = tx s → hx s' = hx s → tail_ptr s' = tail_ptr s → head_ptr s' = head_ptr s → mem s' = mem s → frame s s' g.
Proof. intros E1 E2 E3 E4 E5. split; rewrite ?E1, ?E2, ?E3, ?E4, ?E5; try done. eauto. Qed.

Lemma placed_go s g t p x : live p = live (qpcs s t) → placed (qgo s t p) g x ↔ placed s g x.
Proof.
  intros El. unfold placed. destruct (pl g !! x) as [[| |u|]|]; try done. simpl.
  destruct (decide (t = u)) as [<-|Hne]; [by rewrite upd_eq, El|by rewrite upd_ne].
Qed.

(** Setting the program counter; [gl'] and [gc'] record a load of the tail. *)
Lemma qinv_go N s g t p gl' gc' :
  let g' := mk_ghost (gq g) (gp g) (pl g) (gu g) (gs g) gl' gc' in
  qinv N s g → (t < N)%nat → live p = live (qpcs s t) →
  (∀ n, node_of p = Some n → pl g !! n = Some (Own t)) →
  gc g <= gc' → (∀ u, u ≠ t → gl' u = gl g u) →
  (∀ n tp, live p = Some n → stale p = Some tp →
    tp ∈ gu g ∧ gs g n < gl' t <= gc' ∧
    ∀ u, pl g !! tp = Some (Pend u) ∨ pl g !! tp = Some (Own u) → gl' t < gs g tp) →
  know s g p → qinv N (qgo s t p) g'.
Proof.
  intros g' Hi Ht El Hn Hgc Hgl Hst Hk. pose proof Hi as []. split; simpl; try done.
  - intros u Hu. rewrite upd_ne by lia. auto.
  - intros u. destruct (decide (t = u)) as [<-|Hne]; [rewrite upd_eq, El|rewrite upd_ne by done]; apply qi_pend0.
  - intros u n. destruct (decide (t = u)) as [<-|Hne]; [rewrite upd_eq; auto|rewrite upd_ne by done; auto].
  - intros x Hx. apply qi_init0. by apply (placed_go s g t p x El).
  - intros x nd Hx Hm. rewrite (qi_count0 x nd Hx Hm). f_equiv. symmetry. by apply (placed_go s g t p x El).
  - intros x. specialize (qi_since0 x). lia.
  - intros u n x. destruct (decide (t = u)) as [<-|Hne]; [rewrite upd_eq, El|rewrite upd_ne by done]; apply qi_order0.
  - intros u n tp. destruct (decide (t = u)) as [<-|Hne]; [rewrite upd_eq; auto|rewrite upd_ne by done].
    intros Hl Hs. destruct (qi_stale0 u n tp Hl Hs) as (? & ? & ?). rewrite Hgl by done. split_and!; try done; lia.
  - intros u. destruct (decide (t = u)) as [<-|Hne]; [rewrite upd_eq|rewrite upd_ne by done]; [exact Hk|apply (qi_know0 u)].
Qed.

(** ** Writes to a node that is not initialised yet *)

Lemma ptr_of_insert_ne (m : gmap loc fev_simple_mpmc_queue_node) n nd x :
  n ≠ x → ptr_of (<[n := nd]> m) x = ptr_of m x.
Proof. intros. unfold ptr_of. by rewrite lookup_insert_ne. Qed.

Lemma insert_is_Some (m : gmap loc fev_simple_mpmc_queue_node) n nd x :
  is_Some (m !! n) → is_Some (<[n := nd]> m !! x) ↔ is_Some (m !! x).
Proof. intros Hn. rewrite lookup_insert_is_Some. destruct (decide (n = x)) as [->|]; naive_solver. Qed.

Lemma vals_insert (m : gmap loc fev_simple_mpmc_queue_node) n nd l : n ∉ l → vals (<[n := nd]> m) l = vals m l.
Proof. intros Hn. apply vals_frame. intros x Hx. rewrite lookup_insert_ne; [done|]. by intros ->. Qed.

Lemma gq_tail_sub (l : list loc) x : x ∈ tail l → x ∈ l.
Proof. destruct l; [done|]. apply list_elem_of_further. Qed.

(** The lists do not contain a node that a thread owns. *)
Lemma own_notin N s g n t :
  qinv N s g → pl g !! n = Some (Own t) → n ∉ gq g ∧ (∀ u, n ∉ gp g u) ∧ n ∉ gather N (gp g).
Proof.
  intros Hi Hn. split_and!.
  - intros Hx%(qi_plq _ _ _ Hi). congruence.
  - intros u Hx%(qi_plp _ _ _ Hi). congruence.
  - intros (u & _ & Hx)%elem_of_gather. apply (qi_plp _ _ _ Hi) in Hx. congruence.
Qed.

Lemma frame_write N s g n nd t :
  qinv N s g → pl g !! n = Some (Own t) → is_Some (mem s !! n) → frame s (qmem s (<[n := nd]> (mem s))) g.
Proof.
  intros Hi Hn Hm. split; try done; simpl.
  - intros x. by rewrite insert_is_Some.
  - intros x nd' Hx Hnd. destruct (own_notin _ _ _ _ _ Hi Hn) as [Hg _].
    rewrite lookup_insert_ne by (by intros ->). eauto.
Qed.

Lemma qinv_write N s g t n nd nd' :
  qinv N s g → node_of (qpcs s t) = Some n → live (qpcs s t) = None → mem s !! n = Some nd →
  next_count nd' = next_count nd → (next_ptr nd' = next_ptr nd ∨ next_ptr nd' = None) →
  qinv N (qmem s (<[n := nd']> (mem s))) g.
Proof.
  intros Hi Hn Hl Hm Hc Hp. pose proof (qi_node _ _ _ Hi t n Hn) as Ho.
  destruct (own_notin _ _ _ _ _ Hi Ho) as (Hq & Hpe & Hga).
  assert (Hnl : ∀ u, live (qpcs s u) ≠ Some n).
  { intros u Hu. assert (node_of (qpcs s u) = Some n) by (by destruct (qpcs s u)).
    assert (u = t) as -> by (pose proof (qi_node _ _ _ Hi u n); naive_solver). congruence. }
  assert (Hnp : ¬ placed s g n) by (unfold placed; rewrite Ho; congruence).
  pose proof (frame_write N s g n nd' t Hi Ho (ex_intro _ _ Hm)) as Hf. pose proof Hi as [].
  assert (Hptr : ∀ x, x ≠ n → ptr_of (<[n := nd']> (mem s)) x = ptr_of (mem s) x)
    by (intros; by apply ptr_of_insert_ne).
  split; simpl; try done.
  - eapply seg_frame; [|done]. intros x Hx. apply Hptr. by intros ->.
  - intros x. rewrite insert_is_Some by eauto. auto.
  - intros u. specialize (qi_pend0 u). destruct (live (qpcs s u)) as [m|] eqn:El; [|done].
    destruct qi_pend0 as [Hs Hd]. split; [|done]. eapply (seg_frame (mem s)); [|exact Hs].
    intros x [->|Hx]%elem_of_cons; apply Hptr; [by intros ->; eapply Hnl|by intros ->; eapply Hpe].
  - intros x Hx. rewrite insert_is_Some by eauto. auto.
  - intros x nd2 Hx. destruct (decide (n = x)) as [<-|Hne].
    + rewrite lookup_insert_eq. intros E. simplify_eq. change (placed (qmem s _) g n) with (placed s g n).
      rewrite Hc. pose proof (qi_count0 n nd Hx Hm). tauto.
    + rewrite lookup_insert_ne by done. apply (qi_count0 x nd2 Hx).
  - intros x nd2 y Hx Hnd Hy. rewrite insert_is_Some by eauto. destruct (decide (n = x)) as [<-|Hne].
    + rewrite lookup_insert_eq in Hnd. simplify_eq. destruct Hp as [Hp|Hp]; rewrite Hp in Hy; [eauto|done].
    + rewrite lookup_insert_ne in Hnd by done. eauto.
  - intros u. eapply know_frame; try done. intros k Hk Hpk. simpl. destruct (decide (k = n)) as [->|Hne]; [|by rewrite Hptr].
    unfold ptr_of in *. rewrite lookup_insert_eq. rewrite Hm in Hpk. simpl in *. destruct Hp as [Hp|Hp]; congruence.
  - by rewrite !vals_insert by (first [done|by intros ?%gq_tail_sub]).
Qed.

(** The last of these writes: the node is initialised. *)
Lemma qinv_ready N s g t n nd :
  qinv N s g → qpcs s t = ECount n → mem s !! n = Some nd → next_ptr nd = None →
  qinv N (qgo (qmem s (<[n := set_count nd 0]> (mem s))) t (ETailC n))
    (mk_ghost (gq g) (gp g) (pl g) ({[ n ]} ∪ gu g) (gs g) (gl g) (gc g)).
Proof.
  intros Hi Hpc Hm Hnone. assert (Hn : node_of (qpcs s t) = Some n) by (by rewrite Hpc).
  pose proof (qi_node _ _ _ Hi t n Hn) as Ho.
  destruct (own_notin _ _ _ _ _ Hi Ho) as (Hq & Hpe & Hga).
  pose proof (frame_write N s g n (set_count nd 0) t Hi Ho (ex_intro _ _ Hm)) as Hf. pose proof Hi as [].
  assert (Ht : (t < N)%nat).
  { destruct (decide (t < N)%nat); [done|]. by rewrite qi_threads0 in Hpc by lia. }
  assert (Hptr : ∀ x, x ≠ n → ptr_of (<[n := set_count nd 0]> (mem s)) x = ptr_of (mem s) x)
    by (intros; by apply ptr_of_insert_ne).
  assert (Hpn : gp g t = []) by (specialize (qi_pend0 t); by rewrite Hpc in qi_pend0).
  assert (Hnl : ∀ u, live (qpcs s u) ≠ Some n).
  { intros u Hu. assert (Hu' : node_of (qpcs s u) = Some n) by (by destruct (qpcs s u)).
    pose proof (qi_node0 u n Hu'). simplify_eq. by rewrite Hpc in Hu. }
  set (s' := qgo _ _ _). set (g' := mk_ghost _ _ _ _ _ _ _).
  assert (Hpl : ∀ x, placed s' g' x ↔ x = n ∨ placed s g x).
  { intros x. unfold placed. simpl. destruct (decide (x = n)) as [->|Hne].
    - rewrite Ho, upd_eq. simpl. tauto.
    - destruct (pl g !! x) as [[| |u|]|] eqn:Ex; try tauto.
      destruct (decide (t = u)) as [<-|Hne2]; [|rewrite upd_ne by done; tauto].
      rewrite upd_eq, Hpc. simpl. split; [intros; simplify_eq|by intros [?|?]]. }
  split; simpl; try done.
  - intros u Hu. rewrite upd_ne by lia. auto.
  - eapply seg_frame; [|done]. intros x Hx. apply Hptr. by intros ->.
  - intros x. rewrite insert_is_Some by eauto. auto.
  - intros u. destruct (decide (t = u)) as [<-|Hne]; [rewrite upd_eq|rewrite upd_ne by done].
    + simpl. rewrite Hpn. split; [split; [|done]|constructor]. unfold ptr_of. rewrite lookup_insert_eq. simpl. by rewrite Hnone.
    + specialize (qi_pend0 u). destruct (live (qpcs s u)) as [m|] eqn:El; [|done].
      destruct qi_pend0 as [Hs Hd]. split; [|done]. eapply (seg_frame (mem s)); [|exact Hs].
      intros x [->|Hx]%elem_of_cons; apply Hptr; [by intros ->; eapply Hnl|by intros ->; eapply Hpe].
  - intros u m. destruct (decide (t = u)) as [<-|Hne]; [rewrite upd_eq; simpl; by intros [= <-]|rewrite upd_ne by done; auto].
  - intros x [->|Hx]%Hpl; set_solver.
  - intros x Hx. rewrite insert_is_Some by eauto. set_solver.
  - intros x nd2 Hx. rewrite Hpl. destruct (decide (n = x)) as [<-|Hne].
    + rewrite lookup_insert_eq. intros E. simplify_eq. simpl. tauto.
    + rewrite lookup_insert_ne by done. intros Hnd. rewrite (qi_count0 x nd2); [|set_solver|done]. split; [tauto|]. intros [? [?|?]]; [congruence|done].
  - intros x nd2 y Hx Hnd Hy. rewrite insert_is_Some by eauto. destruct (decide (n = x)) as [<-|Hne].
    + rewrite lookup_insert_eq in Hnd. simplify_eq. simpl in Hy. congruence.
    + rewrite lookup_insert_ne in Hnd by done. eapply qi_ptr0; [|done..]. set_solver.
  - intros u m x. destruct (decide (t = u)) as [<-|Hne]; [rewrite upd_eq, Hpn; by intros _ ?%not_elem_of_nil|].
    rewrite upd_ne by done. apply qi_order0.
  - intros u m tp. destruct (decide (t = u)) as [<-|Hne]; [by rewrite upd_eq|rewrite upd_ne by done].
    intros H1 H2. destruct (qi_stale0 u m tp H1 H2) as (? & ?). split; [set_solver|done].
  - intros u. destruct (decide (t = u)) as [<-|Hne]; [by rewrite upd_eq|rewrite upd_ne by done].
    eapply (know_frame N s _ g); [done| |simpl; set_solver| |done]; [destruct Hf; by split|].
    intros k Hk. simpl. rewrite Hptr; [done|]. intros ->. pose proof (qi_node0 u n ltac:(by rewrite Hk)). congruence.
  - by rewrite !vals_insert by (first [done|by intros ?%gq_tail_sub]).
Qed.

(** ** Moving the tail *)

Definition swing s (n : loc) :=
  mk_queue (head_ptr s) (head_count s) n (u64 (tail_count s + 1)) (mem s) (qpcs s) (free s)
    (own s) (pushed s) (popped s) (hx s) (tx s + 1).

Lemma nodup_second (l l1 l2 : list loc) x y h :
  NoDup l → head l = Some h → l = l1 ++ x :: y :: l2 → h ≠ y ∧ y ∈ l ∧ x ≠ y.
Proof.
  intros Hd Hh ->. assert (Hy : y ∈ l1 ++ x :: y :: l2).
  { apply elem_of_app. right. apply list_elem_of_further, list_elem_of_here. }
  apply NoDup_app in Hd as (_ & Hd & Hd2). apply NoDup_cons in Hd2 as [Hx _].
  split_and!; [|done|by intros ->; apply Hx, list_elem_of_here].
  intros <-. destruct l1 as [|a l1]; simplify_eq/=; [apply Hx, list_elem_of_here|].
  apply (Hd h); [apply list_elem_of_here|apply list_elem_of_further, list_elem_of_here].
Qed.

Lemma qinv_swing N s g n :
  qinv N s g → ptr_of (mem s) (tail_ptr s) = Some (Some n) → tx s + 1 < 2 ^ 64 → qinv N (swing s n) g.
Proof.
  intros Hi Hp Hb. pose proof Hi as [].
  destruct (seg_next _ _ _ _ qi_seg0 qi_tail0 Hp) as (l1 & l2 & El).
  destruct (nodup_second _ _ _ _ _ _ qi_nodup0 qi_head0 El) as (Hne & Hin & _).
  split; simpl; try done.
  - rewrite qi_tc0, u64_small by lia. done.
  - lia.
  - intros u. eapply (know_frame N s); [done| |done|done|apply (qi_know0 u)]. split; simpl; try done; [lia|lia|eauto].
Qed.

(** ** Removing the first node *)

Definition take_head s (t : nat) (n : loc) (v : value) :=
  mk_queue n (u64 (head_count s + 1)) (tail_ptr s) (tail_count s) (mem s) (qpcs s) (free s)
    (<[head_ptr s := t]> (own s)) (pushed s) (popped s ++ [v]) (hx s + 1) (tx s).

Lemma qinv_take N s g t n v :
  qinv N s g → node_of (qpcs s t) = None → ptr_of (mem s) (head_ptr s) = Some (Some n) →
  head_ptr s ≠ tail_ptr s → qvalue <$> mem s !! n = Some v → hx s + 1 < 2 ^ 64 →
  let h := head_ptr s in
  qinv N (take_head s t n v)
    (mk_ghost (tail (gq g)) (gp g) (<[h := Own t]> (pl g)) (gu g)
       (λ x, if decide (x = h) then gc g + 1 else gs g x) (gl g) (gc g + 1)) ∧
  vals (mem s) (tail (gq g)) = v :: vals (mem s) (tail (tail (gq g))).
Proof.
  intros Hi Hnn Hp Hne Hv Hb h. pose proof (qi_head_in _ _ _ Hi) as Hh. pose proof Hi as [].
  assert (∃ l2, gq g = h :: n :: l2) as [l2 El].
  { destruct (gq g) as [|a l] eqn:E; simplify_eq/=. destruct qi_seg0 as [Hp' _]. rewrite Hp in Hp'.
    destruct l; simplify_eq/=. eauto. }
  pose proof qi_nodup0 as Hnd. rewrite El in Hnd. apply NoDup_cons in Hnd as [Hhn Hnd].
  assert (Hplh : pl g !! h = Some InQ) by (by apply qi_plq0).
  assert (Hln : ∀ u, live (qpcs s u) ≠ Some h ∧ node_of (qpcs s u) ≠ Some h).
  { intros u. assert (node_of (qpcs s u) ≠ Some h) by (intros Hu%qi_node0; congruence). split; [|done].
    intros Hu. by destruct (qpcs s u). }
  assert (Hpl : ∀ x, x ≠ h → <[h := Own t]> (pl g) !! x = pl g !! x) by (intros; by apply lookup_insert_ne).
  assert (Hnl : live (qpcs s t) = None) by (by destruct (qpcs s t)).
  set (g' := mk_ghost _ _ _ _ _ _ _).
  assert (Hpd : ∀ x, placed (take_head s t n v) g' x ↔ placed s g x ∧ x ≠ h).
  { intros x. unfold placed. simpl. destruct (decide (x = h)) as [->|Hx].
    - rewrite lookup_insert_eq, Hnl. split; [done|tauto].
    - rewrite Hpl by done. destruct (pl g !! x) as [[]|]; tauto. }
  assert (Hsn : ∀ x, x ≠ h → gs g' x = gs g x) by (intros x Hx; simpl; by rewrite decide_False).
  split; [|rewrite El; unfold vals; simpl; f_equal; by destruct (mem s !! n); simplify_eq/=].
  split; simpl; try done.
  - rewrite qi_hc0, u64_small by lia. done.
  - lia.
  - by rewrite El.
  - rewrite El in qi_tail0 |- *. apply elem_of_cons in qi_tail0 as [E|?]; [by destruct Hne|done].
  - rewrite El in qi_seg0 |- *. by destruct qi_seg0.
  - by rewrite El.
  - intros x. rewrite El. simpl. destruct (decide (x = h)) as [->|Hx].
    + rewrite lookup_insert_eq. split; [done|congruence].
    + rewrite Hpl by done. rewrite <- qi_plq0, El. rewrite (elem_of_cons _ x h). tauto.
  - intros x u. destruct (decide (x = h)) as [->|Hx].
    + rewrite lookup_insert_eq, qi_plp0. split; congruence.
    + by rewrite Hpl.
  - intros x u. fold h. destruct (decide (x = h)) as [->|Hx].
    + rewrite !lookup_insert_eq. split; congruence.
    + rewrite Hpl, lookup_insert_ne by done. auto.
  - intros x. destruct (decide (x = h)) as [->|Hx].
    + rewrite lookup_insert_eq, qi_plf0. split; congruence.
    + by rewrite Hpl.
  - intros x. rewrite qi_dom0. destruct (decide (x = h)) as [->|Hx].
    + rewrite lookup_insert_eq, Hplh. split; eauto.
    + by rewrite Hpl.
  - intros u m Hu. rewrite Hpl by (intros ->; by eapply Hln). auto.
  - intros x [Hx _]%Hpd. auto.
  - intros x nd Hx Hnd'. rewrite Hpd, (qi_count0 x nd Hx Hnd'). split; [|tauto]. intros [Hnone Hpx]. split; [done|].
    split; [done|]. intros ->. unfold ptr_of in Hp. fold h in Hp. rewrite Hnd' in Hp. simpl in Hp. congruence.
  - intros x. specialize (qi_since0 x). case_decide; lia.
  - intros u m x Hu Hx. fold h. rewrite !decide_False; [by eapply qi_order0| |].
    + intros ->. by eapply (proj1 (Hln u)).
    + intros ->. apply qi_plp0 in Hx. congruence.
  - intros u m tp Hu Hs. destruct (qi_stale0 u m tp Hu Hs) as (H1 & H2 & H3). split; [done|]. fold h.
    rewrite (decide_False (P := m = h)) by (intros ->; by eapply (proj1 (Hln u))). split; [lia|].
    intros w Hw. destruct (decide (tp = h)) as [->|Htp]; [lia|]. rewrite Hpl in Hw by done. eauto.
  - intros u. eapply (know_frame N s); [done| |done|done|apply (qi_know0 u)]. split; simpl; try done; [lia|lia|eauto|lia].
  - rewrite qi_vals0, El. unfold vals. simpl. destruct (mem s !! n); simplify_eq/=. solve_Permutation.
Qed.

(** ** The pool *)

Lemma idle_live s t : idle s t = true → live (qpcs s t) = None ∧ node_of (qpcs s t) = None.
Proof. intros H%bool_decide_eq_true. by rewrite H. Qed.

Lemma qinv_alloc N s g t n x s' :
  qinv N s g → queue_enabled N s (QAlloc t n x) = true → queue_step s (QAlloc t n x) = Some s' →
  qinv N s' (mk_ghost (gq g) (gp g) (<[n := Own t]> (pl g)) (gu g)
               (λ y, if decide (y = n) then gc g + 1 else gs g y) (gl g) (gc g + 1)).
Proof.
  intros Hi [[[Hid _]%idle_live Hn]%andb_true_iff _]%andb_true_iff [= <-]. pose proof Hi as [].
  set (m := if decide (n ∈ free s) then mem s else <[n := x]> (mem s)).
  assert (Hpn : pl g !! n = Some InPool ∨ pl g !! n = None ∧ mem s !! n = None).
  { apply orb_true_iff in Hn as [Hn%bool_decide_eq_true|Hn%bool_decide_eq_true]; [left; by apply qi_plf0|right].
    split; [|done]. specialize (qi_dom0 n). rewrite Hn in qi_dom0. destruct (pl g !! n); [|done].
    destruct (proj2 qi_dom0); eauto. done. }
  assert (Hm : ∀ y, y ≠ n → m !! y = mem s !! y).
  { intros y Hy. unfold m. destruct (decide (n ∈ free s)); [done|]. by rewrite lookup_insert_ne. }
  assert (Hmn : is_Some (m !! n)).
  { unfold m. destruct (decide (n ∈ free s)) as [Hf|Hf]; [|rewrite lookup_insert_eq; eauto].
    apply qi_plf0 in Hf. apply qi_dom0. eauto. }
  assert (Hmem : ∀ nd, mem s !! n = Some nd → m !! n = Some nd).
  { intros nd Hnd. unfold m. rewrite decide_True; [done|]. apply qi_plf0. destruct Hpn as [?|[_ ?]]; [done|congruence]. }
  assert (Hpl : ∀ y, y ≠ n → <[n := Own t]> (pl g) !! y = pl g !! y) by (intros; by apply lookup_insert_ne).
  assert (Hq : n ∉ gq g) by (intros H%qi_plq0; destruct Hpn as [?|[? _]]; congruence).
  assert (Hp : ∀ u, n ∉ gp g u) by (intros u H%qi_plp0; destruct Hpn as [?|[? _]]; congruence).
  assert (Hln : ∀ u, node_of (qpcs s u) ≠ Some n) by (intros u H%qi_node0; destruct Hpn as [?|[? _]]; congruence).
  assert (Hlv : ∀ u, live (qpcs s u) ≠ Some n) by (intros u H; apply (Hln u); by destruct (qpcs s u)).
  assert (Hptr : ∀ y, y ≠ n → ptr_of m y = ptr_of (mem s) y) by (intros y Hy; unfold ptr_of; by rewrite Hm).
  assert (Hvals : ∀ l, n ∉ l → vals m l = vals (mem s) l).
  { intros l Hl. apply vals_frame. intros y Hy. rewrite Hm; [done|]. by intros ->. }
  set (s' := qown _ _ _). set (g' := mk_ghost _ _ _ _ _ _ _).
  assert (Hpd : ∀ y, placed s' g' y ↔ placed s g y).
  { intros y. unfold placed. simpl. destruct (decide (y = n)) as [->|Hy]; [|by rewrite Hpl].
    rewrite lookup_insert_eq, Hid. by destruct Hpn as [->|[-> _]]. }
  split; simpl; try done.
  - eapply seg_frame; [|done]. intros y Hy. apply Hptr. by intros ->.
  - intros y. destruct (decide (y = n)) as [->|Hy]; [|by rewrite Hpl]. rewrite lookup_insert_eq. split; [done|congruence].
  - intros y u. destruct (decide (y = n)) as [->|Hy]; [|by rewrite Hpl].
    rewrite lookup_insert_eq. split; [by intros ?%Hp|congruence].
  - intros y u. destruct (decide (y = n)) as [->|Hy]; [|rewrite Hpl, lookup_insert_ne by done; auto].
    rewrite !lookup_insert_eq. split; congruence.
  - intros y. rewrite elem_of_difference, elem_of_singleton.
    destruct (decide (y = n)) as [->|Hy]; [|rewrite Hpl by done; rewrite qi_plf0; tauto].
    rewrite lookup_insert_eq. split; [tauto|congruence].
  - intros y. destruct (decide (y = n)) as [->|Hy]; [|by rewrite Hpl, Hm]. rewrite lookup_insert_eq. split; eauto.
  - intros u. specialize (qi_pend0 u). destruct (live (qpcs s u)) as [k|] eqn:El; [|done].
    destruct qi_pend0 as [Hs Hd]. split; [|done]. eapply (seg_frame (mem s)); [|exact Hs].
    intros y [->|Hy]%elem_of_cons; apply Hptr; [by intros ->; eapply Hlv|by intros ->; eapply Hp].
  - intros u k Hu. rewrite Hpl by (intros ->; by eapply Hln). auto.
  - intros y Hy%Hpd. auto.
  - intros y Hy. destruct (decide (y = n)) as [->|Hyn]; [done|]. rewrite Hm by done. auto.
  - intros y nd Hy Hnd. rewrite Hpd. apply qi_count0; [done|]. destruct (decide (y = n)) as [->|Hyn]; [|by rewrite <- Hm].
    destruct (qi_used0 n Hy) as [nd' Hnd']. rewrite (Hmem nd' Hnd') in Hnd. congruence.
  - intros y nd z Hy Hnd Hz. destruct (decide (z = n)) as [->|Hzn]; [done|]. rewrite Hm by done.
    eapply qi_ptr0; [exact Hy| |exact Hz]. destruct (decide (y = n)) as [->|Hyn]; [|by rewrite <- Hm].
    destruct (qi_used0 n Hy) as [nd' Hnd']. rewrite (Hmem nd' Hnd') in Hnd. congruence.
  - intros y. specialize (qi_since0 y). destruct (decide (y = n)); lia.
  - intros u k y Hu Hy. rewrite !decide_False; [by eapply qi_order0| |].
    + intros ->. by eapply Hlv.
    + intros ->. by eapply Hp.
  - intros u k tp Hu Hs. destruct (qi_stale0 u k tp Hu Hs) as (H1 & H2 & H3). split; [done|].
    rewrite (decide_False (P := k = n)) by (intros ->; by eapply Hlv). split; [lia|].
    intros w Hw. destruct (decide (tp = n)) as [->|Htp]; [lia|]. rewrite Hpl in Hw by done. eauto.
  - intros u. eapply (know_frame N s); [done| |done| |apply (qi_know0 u)].
    2: { intros k Hk. simpl. rewrite Hptr; [done|]. intros ->. apply (Hln u). by rewrite Hk. }
    split; simpl; try done.
    + intros y Hy. destruct (decide (y = n)) as [->|Hyn]; [done|]. by rewrite Hm.
    + intros y nd Hy Hnd. exists nd. rewrite Hm by (by intros ->). auto.
  - rewrite !Hvals; [done| |by intros ?%gq_tail_sub]. intros (u & _ & Hu)%elem_of_gather. by eapply Hp.
Qed.

Lemma qinv_free N s g t n :
  qinv N s g → idle s t = true → own s !! n = Some t →
  qinv N (qown s (delete n (own s)) ({[ n ]} ∪ free s))
    (mk_ghost (gq g) (gp g) (<[n := InPool]> (pl g)) (gu g) (gs g) (gl g) (gc g)).
Proof.
  intros Hi [Hid Hnn]%idle_live Ho%(qi_plo _ _ _ Hi). pose proof Hi as [].
  destruct (own_notin _ _ _ _ _ Hi Ho) as (Hq & Hp & Hga).
  assert (Hpl : ∀ y, y ≠ n → <[n := InPool]> (pl g) !! y = pl g !! y) by (intros; by apply lookup_insert_ne).
  assert (Hln : ∀ u, node_of (qpcs s u) ≠ Some n).
  { intros u Hu. pose proof (qi_node0 u n Hu). simplify_eq. }
  set (s' := qown _ _ _). set (g' := mk_ghost _ _ _ _ _ _ _).
  assert (Hpd : ∀ y, placed s' g' y ↔ placed s g y).
  { intros y. unfold placed. simpl. destruct (decide (y = n)) as [->|Hy]; [|by rewrite Hpl].
    by rewrite lookup_insert_eq, Ho, Hid. }
  split; simpl; try done.
  - intros y. destruct (decide (y = n)) as [->|Hy]; [|by rewrite Hpl]. rewrite lookup_insert_eq. split; [done|congruence].
  - intros y u. destruct (decide (y = n)) as [->|Hy]; [|by rewrite Hpl].
    rewrite lookup_insert_eq. split; [by intros ?%Hp|congruence].
  - intros y u. destruct (decide (y = n)) as [->|Hy]; [|rewrite Hpl, lookup_delete_ne by done; auto].
    rewrite lookup_insert_eq, lookup_delete_eq. split; congruence.
  - intros y. rewrite elem_of_union, elem_of_singleton.
    destruct (decide (y = n)) as [->|Hy]; [|rewrite Hpl by done; rewrite qi_plf0; tauto].
    rewrite lookup_insert_eq. tauto.
  - intros y. rewrite qi_dom0. destruct (decide (y = n)) as [->|Hy]; [|by rewrite Hpl].
    rewrite lookup_insert_eq, Ho. split; eauto.
  - intros u k Hu. rewrite Hpl by (intros ->; by eapply Hln). auto.
  - intros y Hy%Hpd. auto.
  - intros y nd Hy Hnd. rewrite Hpd. by apply qi_count0.
  - intros u k tp Hu Hs. destruct (qi_stale0 u k tp Hu Hs) as (H1 & H2 & H3). split; [done|]. split; [lia|].
    intros w Hw. destruct (decide (tp = n)) as [->|Htp]; [|rewrite Hpl in Hw by done; eauto].
    rewrite lookup_insert_eq in Hw. destruct Hw; congruence.
Qed.

(** ** Linking a node *)

Definition set_places (P : place) (l : list loc) (m : gmap loc place) : gmap loc place :=
  foldr (λ x m, <[x := P]> m) m l.

Lemma lookup_set_places P l m x : set_places P l m !! x = if decide (x ∈ l) then Some P else m !! x.
Proof.
  induction l as [|y l IH]; cbn [set_places foldr]; [by rewrite decide_False by apply not_elem_of_nil|].
  destruct (decide (y = x)) as [->|Hne].
  - by rewrite lookup_insert_eq, decide_True by apply list_elem_of_here.
  - rewrite lookup_insert_ne by done. fold (set_places P l m). rewrite IH. destruct (decide (x ∈ l)) as [Hx|Hx].
    + by rewrite decide_True by (by apply list_elem_of_further).
    + rewrite decide_False; [done|]. intros [?|?]%elem_of_cons; congruence.
Qed.

(** The state after the exchange of [tp->next]: the list [n :: gp g t] is now behind [tp]. *)
Definition linked s t n tp tc nd v :=
  qgo (qpush (qown (qmem s (<[tp := mk_qnode (qvalue nd) (Some n) 1]> (mem s))) (delete n (own s)) (free s)) v)
    t (ESwing n tp tc).

Definition moved g t n P gq' gp' :=
  mk_ghost gq' gp' (set_places P (n :: gp g t) (pl g)) (gu g) (gs g) (gl g) (gc g).

Section link.
Context (N : nat) (s : fev_simple_mpmc_queue) (g : ghost) (t : nat) (n tp : loc) (tc : Z).
Context (nd ndn : fev_simple_mpmc_queue_node).
Context (Hi : qinv N s g) (Hpc : qpcs s t = ELink n tp tc 0) (Hm : mem s !! tp = Some nd).
Context (Hnone : next_ptr nd = None) (Hcnt : next_count nd = 0) (Hn : mem s !! n = Some ndn).

Lemma link_own : pl g !! n = Some (Own t).
Proof using Hi Hpc. apply (qi_node _ _ _ Hi). by rewrite Hpc. Qed.

Lemma link_list : seg (mem s) (n :: gp g t) ∧ NoDup (n :: gp g t).
Proof using Hi Hpc.
  pose proof (qi_pend _ _ _ Hi t) as Hp. rewrite Hpc in Hp. destruct Hp as [Hs Hd]. split; [done|].
  constructor; [|done]. intros Hx%(qi_plp _ _ _ Hi). pose proof link_own. congruence.
Qed.

Lemma link_places x : x ∈ n :: gp g t → pl g !! x = Some (Own t) ∧ x = n ∨ pl g !! x = Some (Pend t).
Proof using Hi Hpc.
  intros [->|Hx]%elem_of_cons; [left; by split; [apply link_own|]|right]. by apply (qi_plp _ _ _ Hi).
Qed.

(** The thread has read the tail after it got hold of [n] and of all that is attached to
    it, so the node it points to cannot be one of these. *)
Lemma link_time : tp ∈ gu g ∧ (∀ x, x ∈ n :: gp g t → gs g x <= gs g n) ∧ gs g n < gl g t ∧
  ∀ u, pl g !! tp = Some (Pend u) ∨ pl g !! tp = Some (Own u) → gl g t < gs g tp.
Proof using Hi Hpc.
  pose proof (qi_stale _ _ _ Hi t n tp) as Hs. rewrite Hpc in Hs. destruct (Hs eq_refl eq_refl) as (H1 & H2 & H3).
  split_and!; [done| |lia|done]. intros x [->|Hx]%elem_of_cons; [done|].
  apply Z.lt_le_incl, (qi_order _ _ _ Hi t n x); [by rewrite Hpc|done].
Qed.

Lemma link_notin : tp ∉ n :: gp g t.
Proof using Hi Hpc.
  intros Hx. destruct link_time as (_ & H1 & H2 & H3). specialize (H1 _ Hx).
  destruct (link_places _ Hx) as [[Hp _]|Hp]; [specialize (H3 t (or_intror Hp))|specialize (H3 t (or_introl Hp))]; lia.
Qed.

Lemma link_placed : placed s g tp.
Proof using Hi Hpc Hm Hcnt. by apply (qi_count _ _ _ Hi tp nd (proj1 link_time) Hm). Qed.

Lemma link_ptr x : x ≠ tp → ptr_of (<[tp := mk_qnode (qvalue nd) (Some n) 1]> (mem s)) x = ptr_of (mem s) x.
Proof. intros Hx. by apply ptr_of_insert_ne. Qed.

Lemma link_vals l : vals (<[tp := mk_qnode (qvalue nd) (Some n) 1]> (mem s)) l = vals (mem s) l.
Proof using Hm.
  apply vals_frame. intros x _. destruct (decide (tp = x)) as [<-|Hne].
  - by rewrite lookup_insert_eq, Hm.
  - by rewrite lookup_insert_ne.
Qed.

Lemma link_frame : frame s (linked s t n tp tc nd (qvalue ndn)) g.
Proof using Hm Hnone.
  split; try done; simpl.
  - intros x. rewrite insert_is_Some by eauto. done.
  - intros x y Hx Hy. destruct (decide (tp = x)) as [<-|Hne].
    + rewrite lookup_insert_eq. simplify_eq. eexists. split; [done|]. auto.
    + rewrite lookup_insert_ne by done. eauto.
Qed.

(** What has to be shown about the new lists. *)
Lemma qinv_link P gq' gp' :
  (P = InQ ∨ ∃ u, P = Pend u) →
  let m' := <[tp := mk_qnode (qvalue nd) (Some n) 1]> (mem s) in
  head gq' = head (gq g) → (∀ x, x ∈ gq g → x ∈ gq') → seg m' gq' → NoDup gq' →
  (∀ x, x ∈ gq' ↔ set_places P (n :: gp g t) (pl g) !! x = Some InQ) →
  (∀ x u, x ∈ gp' u ↔ set_places P (n :: gp g t) (pl g) !! x = Some (Pend u)) →
  gp' t = [] →
  (∀ u k, u ≠ t → live (qpcs s u) = Some k → seg m' (k :: gp' u) ∧ NoDup (gp' u) ∧ ∀ x, x ∈ gp' u → gs g x < gs g k) →
  (∀ u, u ≠ t → live (qpcs s u) = None → gp' u = []) →
  vals (mem s) (tail gq') ++ vals (mem s) (gather N gp') ≡ₚ
    vals (mem s) (tail (gq g)) ++ qvalue ndn :: vals (mem s) (gather N (gp g)) →
  qinv N (linked s t n tp tc nd (qvalue ndn)) (moved g t n P gq' gp').
Proof using Hi Hpc Hm Hnone Hcnt Hn.
  intros HP m' Hhd Hsub Hseg Hnd Hplq Hplp Hgt Hlive Hnl Hvals.
  pose proof link_own as Ho. pose proof link_list as [Hs Hd]. pose proof link_notin as Htp.
  destruct link_time as (Hu & _ & _ & _). pose proof Hi as [].
  assert (Hpl : ∀ x, x ∉ n :: gp g t → set_places P (n :: gp g t) (pl g) !! x = pl g !! x)
    by (intros; by rewrite lookup_set_places, decide_False).
  assert (HplP : ∀ x, x ∈ n :: gp g t → set_places P (n :: gp g t) (pl g) !! x = Some P)
    by (intros; by rewrite lookup_set_places, decide_True).
  assert (Hmn : n ∈ n :: gp g t) by apply list_elem_of_here.
  assert (Ht : (t < N)%nat).
  { destruct (decide (t < N)%nat); [done|]. by rewrite qi_threads0 in Hpc by lia. }
  set (s' := linked _ _ _ _ _ _ _). set (g' := moved _ _ _ _ _ _).
  assert (Hpd : ∀ x, placed s' g' x ↔ placed s g x).
  { intros x. unfold placed. simpl pl. destruct (decide (x ∈ n :: gp g t)) as [Hx|Hx].
    - rewrite HplP by done. destruct (link_places x Hx) as [[-> ->]| ->].
      + rewrite Hpc. simpl. destruct HP as [->|[u ->]]; tauto.
      + destruct HP as [->|[u ->]]; tauto.
    - rewrite Hpl by done. destruct (pl g !! x) as [[| |u|]|] eqn:Ex; try tauto.
      simpl. destruct (decide (t = u)) as [<-|Hne]; [|by rewrite upd_ne].
      rewrite upd_eq, Hpc. simpl. split; [done|]. intros [= <-]. by destruct Hx. }
  assert (Hcase : ∀ x u, pl g !! x = Some (Own u) → u ≠ t → x ∉ n :: gp g t).
  { intros x u Hx Hne Hin. destruct (link_places x Hin) as [[? _]|?]; congruence. }
  split; simpl; fold m'; try done.
  - intros u Hu'. rewrite upd_ne by lia. auto.
  - by rewrite Hhd.
  - auto.
  - intros x u. destruct (decide (x ∈ n :: gp g t)) as [Hx|Hx].
    + rewrite HplP by done. split; [|by destruct HP as [->|[? ->]]].
      intros [Hne Hx']%lookup_delete_Some. apply qi_plo0 in Hx'. destruct (link_places x Hx) as [[_ ->]|?]; congruence.
    + rewrite Hpl by done. rewrite lookup_delete_ne; [auto|]. by intros <-.
  - intros x. rewrite qi_plf0. destruct (decide (x ∈ n :: gp g t)) as [Hx|Hx]; [|by rewrite Hpl].
    rewrite HplP by done. split; [|by destruct HP as [->|[? ->]]]. destruct (link_places x Hx) as [[? _]|?]; congruence.
  - intros x. unfold m'. rewrite insert_is_Some, qi_dom0 by eauto. destruct (decide (x ∈ n :: gp g t)) as [Hx|Hx]; [|by rewrite Hpl].
    rewrite HplP by done. destruct (link_places x Hx) as [[-> _]| ->]; split; eauto.
  - intros u. destruct (decide (t = u)) as [<-|Hne]; [by rewrite upd_eq|rewrite upd_ne by done].
    destruct (live (qpcs s u)) as [k|] eqn:El; [|by apply Hnl].
    destruct (Hlive u k (not_eq_sym Hne) El) as (? & ? & _). done.
  - intros u k. destruct (decide (t = u)) as [<-|Hne]; [by rewrite upd_eq|rewrite upd_ne by done].
    intros Hk%qi_node0. rewrite Hpl by (eapply Hcase; eauto). done.
  - intros x Hx%Hpd. auto.
  - intros x Hx. unfold m'. rewrite insert_is_Some by eauto. auto.
  - intros x nd2 Hx Hnd2. rewrite Hpd. unfold m' in Hnd2. destruct (decide (tp = x)) as [<-|Hne].
    + rewrite lookup_insert_eq in Hnd2. simplify_eq. simpl. split; [done|by intros [? _]].
    + rewrite lookup_insert_ne in Hnd2 by done. by apply qi_count0.
  - intros x nd2 y Hx Hnd2 Hy. unfold m' in *. rewrite insert_is_Some by eauto. destruct (decide (tp = x)) as [<-|Hne].
    + rewrite lookup_insert_eq in Hnd2. simplify_eq. simpl in Hy. simplify_eq. eauto.
    + rewrite lookup_insert_ne in Hnd2 by done. eauto.
  - intros u k x. destruct (decide (t = u)) as [<-|Hne]; [by rewrite upd_eq|rewrite upd_ne by done].
    intros Hk Hx. destruct (Hlive u k (not_eq_sym Hne) Hk) as (_ & _ & H). auto.
  - intros u k tp' . destruct (decide (t = u)) as [<-|Hne]; [by rewrite upd_eq|rewrite upd_ne by done].
    intros H1 H2. destruct (qi_stale0 u k tp' H1 H2) as (H3 & H4 & H5). split_and!; try done; try lia.
    intros w Hw. destruct (decide (tp' ∈ n :: gp g t)) as [Hx|Hx]; [|rewrite Hpl in Hw by done; eauto].
    destruct (link_places tp' Hx) as [[Hp _]|Hp]; eauto.
  - intros u. destruct (decide (t = u)) as [<-|Hne]; [rewrite upd_eq|rewrite upd_ne by done].
    + pose proof (qi_know0 t) as Hk. rewrite Hpc in Hk. destruct Hk as (_ & Hc & Hk). split; [done|]. simpl. intros E.
      split; [by apply Hk|]. unfold ptr_of. by rewrite lookup_insert_eq.
    + eapply (know_frame N s _ g); [done|apply link_frame|done| |apply qi_know0].
      intros k Hk. simpl. rewrite link_ptr; [done|]. intros ->. pose proof link_placed as Hx. unfold placed in Hx.
      rewrite (qi_node0 u tp) in Hx by (by rewrite Hk). by rewrite Hk in Hx.
  - unfold m'. rewrite !link_vals, qi_vals0, Hvals. solve_Permutation.
Qed.

Lemma vals_app (m : gmap loc fev_simple_mpmc_queue_node) l1 l2 : vals m (l1 ++ l2) = vals m l1 ++ vals m l2.
Proof. apply fmap_app. Qed.

Lemma vals_perm (m : gmap loc fev_simple_mpmc_queue_node) l1 l2 : l1 ≡ₚ l2 → vals m l1 ≡ₚ vals m l2.
Proof. intros H. unfold vals. by rewrite H. Qed.

Lemma vals_n : vals (mem s) (n :: gp g t) = qvalue ndn :: vals (mem s) (gp g t).
Proof using Hn. unfold vals. simpl. by rewrite Hn. Qed.

(** The list of a thread other than [t] does not change if [tp] is not in it. *)
Lemma link_other u k :
  live (qpcs s u) = Some k → tp ∉ k :: gp g u →
  seg (<[tp := mk_qnode (qvalue nd) (Some n) 1]> (mem s)) (k :: gp g u) ∧ NoDup (gp g u) ∧
  ∀ x, x ∈ gp g u → gs g x < gs g k.
Proof using Hi.
  intros Hl Hx. pose proof (qi_pend _ _ _ Hi u) as Hp. rewrite Hl in Hp. destruct Hp as [Hs Hd].
  split_and!; [|done|by intros x; apply (qi_order _ _ _ Hi)].
  eapply seg_frame; [|exact Hs]. intros x Hx'. apply link_ptr. by intros ->.
Qed.

Lemma live_place u k : live (qpcs s u) = Some k → pl g !! k = Some (Own u).
Proof using Hi. intros Hl. apply (qi_node _ _ _ Hi). by destruct (qpcs s u). Qed.

(** The node is the last one of the queue. *)
Lemma qinv_link_queue :
  pl g !! tp = Some InQ →
  qinv N (linked s t n tp tc nd (qvalue ndn))
    (moved g t n InQ (gq g ++ n :: gp g t) (upd (gp g) t [])).
Proof using Hi Hpc Hm Hnone Hcnt Hn.
  intros Hq. pose proof link_list as [Hs Hd]. pose proof Hi as [].
  destruct (seg_last (mem s) (gq g) tp) as [l' El]; [done|by apply qi_plq0|unfold ptr_of; rewrite Hm; simpl; by rewrite Hnone|].
  assert (Htl : tp ∉ l').
  { rewrite El in qi_nodup0. apply NoDup_app in qi_nodup0 as (_ & H & _). intros Hx. by apply (H _ Hx), list_elem_of_here. }
  assert (Ht : (t < N)%nat).
  { destruct (decide (t < N)%nat); [done|]. by rewrite qi_threads0 in Hpc by lia. }
  assert (Hgne : gq g ≠ []) by (rewrite El; by destruct l').
  apply qinv_link.
  - by left.
  - destruct (gq g); done.
  - intros x Hx. apply elem_of_app. by left.
  - rewrite El in qi_seg0 |- *. eapply (seg_link (mem s)); [done|done|done|apply link_notin| |apply link_ptr].
    unfold ptr_of. by rewrite lookup_insert_eq.
  - apply NoDup_app. split_and!; [done| |done]. intros x Hx%qi_plq0 Hx'.
    destruct (link_places x Hx') as [[? _]|?]; congruence.
  - intros x. rewrite elem_of_app, lookup_set_places, qi_plq0. destruct (decide (x ∈ n :: gp g t)); tauto.
  - intros x u. rewrite lookup_set_places. destruct (decide (x ∈ n :: gp g t)) as [Hx|Hx].
    + split; [|congruence]. destruct (decide (t = u)) as [<-|Hne]; [rewrite upd_eq; by intros ?%not_elem_of_nil|].
      rewrite upd_ne by done. intros Hx'%qi_plp0. destruct (link_places x Hx) as [[? _]|?]; congruence.
    + rewrite <- qi_plp0. destruct (decide (t = u)) as [<-|Hne]; [|by rewrite upd_ne]. rewrite upd_eq.
      split; [by intros ?%not_elem_of_nil|]. intros Hx'. destruct Hx. by apply list_elem_of_further.
  - by rewrite upd_eq.
  - intros u k Hne Hl. rewrite upd_ne by done. apply link_other; [done|].
    intros [->|Hx]%elem_of_cons; [apply live_place in Hl; congruence|apply qi_plp0 in Hx; congruence].
  - intros u Hne Hl. rewrite upd_ne by done. specialize (qi_pend0 u). by rewrite Hl in qi_pend0.
  - assert (Et : tail (gq g ++ n :: gp g t) = tail (gq g) ++ n :: gp g t) by (by destruct (gq g)).
    rewrite Et, vals_app, vals_n. pose proof (gather_upd N (gp g) t [] Ht) as Hg. rewrite app_nil_r in Hg.
    rewrite <- (vals_perm _ _ _ Hg), vals_app. solve_Permutation.
Qed.

(** The node is the last one of what another thread is about to push. *)
Lemma qinv_link_pending u k :
  live (qpcs s u) = Some k → tp ∈ k :: gp g u →
  qinv N (linked s t n tp tc nd (qvalue ndn))
    (moved g t n (Pend u) (gq g) (upd (upd (gp g) t []) u (gp g u ++ n :: gp g t))).
Proof using Hi Hpc Hm Hnone Hcnt Hn.
  intros Hl Hin. pose proof link_list as [Hs Hd]. pose proof link_notin as Hnot. destruct link_time as (_ & Hsn & Hlt & Hst).
  pose proof Hi as [].
  assert (Hpl : pl g !! tp = Some (Own u) ∧ tp = k ∨ pl g !! tp = Some (Pend u)).
  { apply elem_of_cons in Hin as [->|Hx]; [left; by split; [apply live_place|]|right; by apply qi_plp0]. }
  assert (Hut : u ≠ t).
  { intros ->. rewrite Hpc in Hl. simpl in Hl. simplify_eq. done. }
  pose proof (qi_pend0 u) as Hpu. rewrite Hl in Hpu. destruct Hpu as [Hsu Hdu].
  assert (Hku : k ∉ gp g u) by (intros Hx%qi_plp0; apply live_place in Hl; congruence).
  destruct (seg_last (mem s) (k :: gp g u) tp) as [l' El];
    [done|done|unfold ptr_of; rewrite Hm; simpl; by rewrite Hnone|].
  assert (Htl : tp ∉ l').
  { assert (Hdk : NoDup (k :: gp g u)) by (by constructor). rewrite El in Hdk.
    apply NoDup_app in Hdk as (_ & H & _). intros Hx. by apply (H _ Hx), list_elem_of_here. }
  assert (Ht : (t < N)%nat).
  { destruct (decide (t < N)%nat); [done|]. by rewrite qi_threads0 in Hpc by lia. }
  assert (Hu : (u < N)%nat).
  { destruct (decide (u < N)%nat); [done|]. by rewrite qi_threads0 in Hl by lia. }
  assert (Hold : gs g tp <= gs g k).
  { apply elem_of_cons in Hin as [->|Hx]; [lia|]. specialize (qi_order0 u k tp Hl Hx). lia. }
  assert (Hgl : gl g t < gs g tp) by (apply (Hst u); tauto).
  apply qinv_link.
  - eauto.
  - done.
  - done.
  - eapply seg_frame; [|done]. intros x Hx%qi_plq0. apply link_ptr. intros ->. destruct Hpl as [[? _]|?]; congruence.
  - done.
  - intros x. rewrite lookup_set_places, qi_plq0. destruct (decide (x ∈ n :: gp g t)) as [Hx|Hx]; [|done].
    destruct (link_places x Hx) as [[-> _]| ->]; split; congruence.
  - intros x w. rewrite lookup_set_places. destruct (decide (u = w)) as [<-|Hne].
    + rewrite upd_eq, elem_of_app, qi_plp0. destruct (decide (x ∈ n :: gp g t)); tauto.
    + rewrite upd_ne by done. destruct (decide (x ∈ n :: gp g t)) as [Hx|Hx].
      * split; [|congruence]. destruct (decide (t = w)) as [<-|Hne2]; [rewrite upd_eq; by intros ?%not_elem_of_nil|].
        rewrite upd_ne by done. intros Hx'%qi_plp0. destruct (link_places x Hx) as [[? _]|?]; congruence.
      * rewrite <- qi_plp0. destruct (decide (t = w)) as [<-|Hne2]; [|by rewrite upd_ne]. rewrite upd_eq.
        split; [by intros ?%not_elem_of_nil|]. intros Hx'. destruct Hx. by apply list_elem_of_further.
  - rewrite upd_ne by done. by rewrite upd_eq.
  - intros w k' Hne Hl'. destruct (decide (u = w)) as [<-|Hne2].
    + rewrite Hl in Hl'. simplify_eq. rewrite upd_eq. split_and!.
      * change (k' :: gp g u ++ n :: gp g t) with ((k' :: gp g u) ++ n :: gp g t). rewrite El in Hsu |- *.
        eapply (seg_link (mem s)); [done|done|done|done| |apply link_ptr]. unfold ptr_of. by rewrite lookup_insert_eq.
      * apply NoDup_app. split_and!; [done| |done]. intros x Hx%qi_plp0 Hx'.
        destruct (link_places x Hx') as [[? _]|?]; congruence.
      * intros x [Hx|Hx]%elem_of_app; [by eapply qi_order0|]. specialize (Hsn x Hx). lia.
    + rewrite !upd_ne by done. apply link_other; [done|].
      intros [->|Hx]%elem_of_cons; [apply live_place in Hl'; destruct Hpl as [[? _]|?]; congruence|].
      apply qi_plp0 in Hx. destruct Hpl as [[? _]|?]; congruence.
  - intros w Hne Hl'. destruct (decide (u = w)) as [<-|Hne2]; [congruence|]. rewrite !upd_ne by done.
    specialize (qi_pend0 w). by rewrite Hl' in qi_pend0.
  - assert (Hg : gather N (upd (upd (gp g) t []) u (gp g u ++ n :: gp g t)) ≡ₚ n :: gather N (gp g)).
    { apply (Permutation_app_inv_r (gp g u)). apply (Permutation_app_inv_r (gp g t)).
      pose proof (gather_upd N (upd (gp g) t []) u (gp g u ++ n :: gp g t) Hu) as G1.
      rewrite (upd_ne (gp g)) in G1 by done. rewrite G1.
      pose proof (gather_upd N (gp g) t [] Ht) as G2. rewrite app_nil_r in G2. rewrite <- G2. solve_Permutation. }
    rewrite (vals_perm _ _ _ Hg). unfold vals. simpl. rewrite Hn. done.
Qed.
End link.

(** ** Every step *)

Definition contents s g : list value := vals (mem s) (tail (gq g)).

(** The queue grows at its end, or loses its first value. *)
Definition fifo (vs : list value) s (vs' : list value) s' : Prop :=
  (∃ new, vs' = vs ++ new ∧ popped s' = popped s) ∨ (∃ v, vs = v :: vs' ∧ popped s' = popped s ++ [v]).

Lemma fifo_same vs s s' : popped s' = popped s → fifo vs s vs s'.
Proof. intros E. left. exists []. by rewrite app_nil_r. Qed.

(** The next state, unless a counter wraps around. *)
Definition step_ok (N : nat) s g s' : Prop :=
  hx s <= hx s' ∧ tx s <= tx s' ∧
  (hx s' < 2 ^ 64 → tx s' < 2 ^ 64 → ∃ g', qinv N s' g' ∧ fifo (contents s g) s (contents s' g') s').

Lemma step_ok_same N s g s' g' :
  hx s' = hx s → tx s' = tx s → popped s' = popped s → contents s' g' = contents s g → qinv N s' g' → step_ok N s g s'.
Proof.
  intros E1 E2 E3 E4 Hi. split; [lia|]. split; [lia|]. intros _ _. exists g'. split; [done|]. rewrite E4. by apply fifo_same.
Qed.

(** Only the program counter changes, and the thread has read nothing of the tail. *)
Lemma step_go N s g t p :
  qinv N s g → (t < N)%nat → live p = live (qpcs s t) → (∀ n, node_of p = Some n → pl g !! n = Some (Own t)) →
  (∀ tp, stale p = Some tp → stale (qpcs s t) = Some tp) → know s g p → step_ok N s g (qgo s t p).
Proof.
  intros Hi Ht Hl Hn Hs Hk. eapply step_ok_same; [done..| |apply (qinv_go N s g t p (gl g) (gc g)); try done]; [done|].
  intros n tp H1 H2. rewrite Hl in H1. apply (qi_stale _ _ _ Hi t n tp H1). auto.
Qed.

(** The thread reads the pointer to the tail. *)
Lemma queue_step_load N s g t n p :
  qinv N s g → (t < N)%nat → live p = Some n → live (qpcs s t) = Some n → node_of p = Some n →
  stale p = Some (tail_ptr s) → know s g p → step_ok N s g (qgo s t p).
Proof.
  intros Hi Ht Hl Hl' Hn Hs Hk. pose proof (live_place N s g Hi t n Hl') as Ho.
  eapply (step_ok_same _ _ _ _ (mk_ghost _ _ _ _ _ (upd (gl g) t (gc g + 1)) (gc g + 1))); [done..|].
  apply qinv_go; try done; [congruence|naive_solver|lia|intros u Hu; by apply upd_ne|].
  intros n' tp Hl2 Hs2. simplify_eq. rewrite upd_eq. pose proof (qi_tail _ _ _ Hi) as Ht'.
  pose proof (proj1 (qi_plq _ _ _ Hi _) Ht') as Hpl. split_and!.
  - apply (qi_init _ _ _ Hi). unfold placed. by rewrite Hpl.
  - pose proof (qi_since _ _ _ Hi n). lia.
  - lia.
  - intros u [?|?]; congruence.
Qed.

(** A thread that moves the tail, or does not because it has moved already. *)
Lemma cas_tail_ok N s g tp tc n :
  qinv N s g → next_is s tp tc n →
  let r := cas_tail s tp tc n in
  (r.1 = false ∧ r.2 = s) ∨
  (r.1 = true ∧ r.2 = swing s n ∧ tc = tx s ∧ tp = tail_ptr s ∧ (tx s + 1 < 2 ^ 64 → qinv N (swing s n) g)).
Proof.
  intros Hi [Hc Hk]. unfold cas_tail. case_bool_decide as Ep; simpl; [|by left].
  destruct (Z.eqb_spec (tail_count s) tc) as [Ec|]; [|by left]. right.
  rewrite (qi_tc _ _ _ Hi) in Ec. destruct Hk as [Hp Hn]; [done|]. simpl.
  split_and!; [done|by unfold swing; rewrite <- Ec, (qi_tc _ _ _ Hi)|done|done|].
  intros Hb. apply qinv_swing; [done|congruence|done].
Qed.

Lemma step_swing N s g t p n :
  qinv N s g → qinv N (swing s n) g ∨ 2 ^ 64 <= tx s + 1 → (t < N)%nat → live p = live (qpcs s t) →
  (∀ n, node_of p = Some n → pl g !! n = Some (Own t)) →
  (∀ tp, stale p = Some tp → stale (qpcs s t) = Some tp) → know (swing s n) g p → step_ok N s g (qgo (swing s n) t p).
Proof.
  intros Hi Hs Ht Hl Hn Hst Hk. split; [done|]. split; [simpl; lia|]. intros Hb1 Hb2. simpl in Hb1, Hb2.
  destruct Hs as [Hs|Hs]; [|lia]. destruct (step_go N (swing s n) g t p Hs Ht Hl Hn Hst Hk) as (_ & _ & H).
  exact (H Hb1 Hb2).
Qed.

Lemma thread_lt N s g t : qinv N s g → qpcs s t ≠ QIdle → (t < N)%nat.
Proof. intros Hi Hp. destruct (decide (t < N)%nat); [done|]. destruct Hp. apply (qi_threads _ _ _ Hi). lia. Qed.

Lemma contents_write N s g n nd t :
  qinv N s g → pl g !! n = Some (Own t) → vals (<[n := nd]> (mem s)) (tail (gq g)) = vals (mem s) (tail (gq g)).
Proof.
  intros Hi Ho. apply vals_insert. intros Hx%gq_tail_sub. by destruct (own_notin _ _ _ _ _ Hi Ho) as [? _].
Qed.

Lemma step_write N s g t n nd nd' p :
  qinv N s g → node_of (qpcs s t) = Some n → live (qpcs s t) = None → mem s !! n = Some nd →
  next_count nd' = next_count nd → (next_ptr nd' = next_ptr nd ∨ next_ptr nd' = None) →
  node_of p = Some n → live p = None → know (qmem s (<[n := nd']> (mem s))) g p →
  step_ok N s g (qgo (qmem s (<[n := nd']> (mem s))) t p).
Proof.
  intros Hi Hn Hl Hnd Hc Hp Hn' Hl' Hk. pose proof (qi_node _ _ _ Hi t n Hn) as Ho.
  eapply step_ok_same; [done..| |apply (qinv_go N (qmem s _) g t _ (gl g) (gc g)); simpl; try done].
  - exact (contents_write N s g n nd' t Hi Ho).
  - by eapply qinv_write.
  - apply (thread_lt N s g t Hi). intros E. by rewrite E in Hn.
  - congruence.
  - intros m Hm. congruence.
  - intros m tp Hm. congruence.
Qed.

Lemma step_link N s g t n tp tc nd ndn :
  qinv N s g → qpcs s t = ELink n tp tc 0 → mem s !! tp = Some nd → next_ptr nd = None → next_count nd = 0 →
  mem s !! n = Some ndn → step_ok N s g (linked s t n tp tc nd (qvalue ndn)).
Proof.
  intros Hi Hp Hnd H0 H1 Hn. split; [done|]. split; [done|]. intros _ _.
  pose proof (link_placed N s g t n tp tc nd Hi Hp Hnd H1) as Hpl. unfold placed in Hpl.
  destruct (pl g !! tp) as [[|u|u|]|] eqn:E; try done.
  - eexists. split; [by apply qinv_link_queue|]. left. exists (vals (mem s) (n :: gp g t)). split; [|done].
    unfold contents, moved. cbn [gq]. etrans; [apply (link_vals s n tp nd Hnd)|]. rewrite <- vals_app. f_equal.
    pose proof (qi_head _ _ _ Hi). by destruct (gq g).
  - assert (Hx : tp ∈ gp g u) by (by apply (qi_plp _ _ _ Hi)). pose proof (qi_pend _ _ _ Hi u) as Hpe.
    destruct (live (qpcs s u)) as [k|] eqn:El; [|rewrite Hpe in Hx; by apply not_elem_of_nil in Hx].
    eexists. split; [eapply (qinv_link_pending N s g t n tp tc nd ndn Hi Hp Hnd H0 H1 Hn u k El); by apply list_elem_of_further|].
    unfold contents. simpl. rewrite (link_vals s n tp nd Hnd). by apply fifo_same.
  - eexists. split; [eapply (qinv_link_pending N s g t n tp tc nd ndn Hi Hp Hnd H0 H1 Hn u tp Hpl), list_elem_of_here|].
    unfold contents. simpl. rewrite (link_vals s n tp nd Hnd). by apply fifo_same.
Qed.

Lemma push_step_ok N s g t p :
  qinv N s g → qpcs s t = p → node_of p ≠ None ∨ (∃ n tp tc, p = ESwing n tp tc) →
  ∃ s', push_step s t p = Some s' ∧ step_ok N s g s'.
Proof.
  intros Hi Hp Hpush. assert (Hid : qpcs s t ≠ QIdle) by (rewrite Hp; destruct p; try done; by destruct Hpush as [?|(? & ? & ? & ?)]).
  pose proof (thread_lt N s g t Hi Hid) as Ht. pose proof (qi_know _ _ _ Hi t) as Hk. rewrite Hp in Hk.
  assert (Hown : ∀ n, node_of p = Some n → pl g !! n = Some (Own t) ∧ is_Some (mem s !! n)).
  { intros n Hn. assert (Ho : pl g !! n = Some (Own t)) by (apply (qi_node _ _ _ Hi); by rewrite Hp).
    split; [done|]. apply (qi_dom _ _ _ Hi). eauto. }
  assert (Hst : ∀ n tp, live p = Some n → stale p = Some tp → tp ∈ gu g ∧ is_Some (mem s !! tp)).
  { intros n tp H1 H2. rewrite <- Hp in H1, H2. destruct (qi_stale _ _ _ Hi t n tp H1 H2) as (H3 & _). split; [done|].
    by apply (qi_used _ _ _ Hi). }
  assert (Hg : ∀ p', live p' = live p → node_of p' = node_of p → (∀ tp, stale p' = Some tp → stale p = Some tp) → know s g p' →
    step_ok N s g (qgo s t p')).
  { intros p' H1 H2 H3 H4. apply step_go; rewrite ?Hp; try done. intros n Hn. apply Hown. congruence. }
  destruct p as [|n v|n|n|n|n tc|n tp tc|n tp tc nc|n tp tc nc np|n tp tc np|n tp tc nc|n tp tc| | | | | | | | | |];
    try (by destruct Hpush as [?|(? & ? & ? & ?)]); cbn [know] in Hk; simpl push_step.
  - destruct (Hown n eq_refl) as [Ho [nd Hnd]]. rewrite Hnd. simpl. eexists. split; [done|].
    eapply step_write; rewrite ?Hp; try done. by left.
  - destruct (Hown n eq_refl) as [Ho [nd Hnd]]. rewrite Hnd. simpl. eexists. split; [done|].
    eapply step_write; rewrite ?Hp; try done; [by right|]. simpl. unfold ptr_of. by rewrite lookup_insert_eq.
  - destruct (Hown n eq_refl) as [Ho [nd Hnd]]. rewrite Hnd. simpl. eexists. split; [done|].
    unfold ptr_of in Hk. rewrite Hnd in Hk. simpl in Hk.
    eapply step_ok_same; [done..| |apply (qinv_ready N s g t n nd); [done|done|done|congruence]].
    exact (contents_write N s g n _ t Hi Ho).
  - eexists. split; [done|]. apply Hg; try done. simpl. rewrite (qi_tc _ _ _ Hi). lia.
  - eexists. split; [done|]. eapply queue_step_load; rewrite ?Hp; done.
  - destruct (Hst n tp eq_refl eq_refl) as [Hu [nd Hnd]]. rewrite Hnd. simpl. eexists. split; [done|]. apply Hg; try done.
    simpl. destruct Hk as [Hc Hk]. split; [done|]. intros E. specialize (Hk E). split; [done|]. unfold ptr_of. rewrite Hnd.
    simpl. intros [= Hn0]. apply (qi_count _ _ _ Hi tp nd Hu Hnd). split; [done|]. unfold placed.
    by rewrite (proj1 (qi_plq _ _ _ Hi tp)) by (rewrite Hk; apply Hi).
  - destruct (Hst n tp eq_refl eq_refl) as [Hu [nd Hnd]]. rewrite Hnd. simpl. eexists. split; [done|]. apply Hg; try done.
    simpl. destruct Hk as [Hc Hk]. split; [done|]. intros E. destruct (Hk E) as [Ek Hz]. unfold ptr_of in *. rewrite Hnd in *. simpl in *.
    split_and!; [done| |congruence]. intros E0. rewrite E0 in Hz. auto.
  - destruct Hk as [Hc Hk]. destruct (Z.eqb_spec (tail_count s) tc) as [E|E]; simpl.
    + rewrite (qi_tc _ _ _ Hi) in E. destruct (Hk (eq_sym E)) as (Ht1 & Hz & Hy). destruct np as [np|]; eexists; (split; [done|]); apply Hg; try done.
      * simpl. split; [done|]. intros _. auto.
      * simpl. auto.
    + eexists. split; [done|]. by apply Hg.
  - destruct (cas_tail_ok N s g tp tc np Hi Hk) as [[E1 E2]|(E1 & E2 & Ec & Et & Hs)];
      destruct (cas_tail s tp tc np) as [b s1]; simpl in E1, E2; subst b s1; (eexists; split; [done|]).
    + eapply queue_step_load; rewrite ?Hp; try done. simpl. rewrite (qi_tc _ _ _ Hi). split; [lia|done].
    + apply step_swing; rewrite ?Hp; try done.
      * destruct (decide (tx s + 1 < 2 ^ 64)); [left; auto|right; lia].
      * intros m [= <-]. by apply Hown.
      * simpl. lia.
  - destruct Hk as (-> & Hc & Hk). destruct (Hst n tp eq_refl eq_refl) as [Hu [nd Hnd]]. unfold cas_next. rewrite Hnd. simpl.
    destruct (bool_decide (next_ptr nd = None) && (next_count nd =? 0)) eqn:E; simpl.
    + apply andb_true_iff in E as [E1%bool_decide_eq_true E2%Z.eqb_eq]. destruct (Hown n eq_refl) as [Ho [ndn Hn]].
      pose proof (link_notin N s g t n tp tc Hi Hp) as Hni. apply not_elem_of_cons in Hni as [Hni _].
      rewrite lookup_insert_ne by done. rewrite Hn. simpl. eexists. split; [done|].
      by apply (step_link N s g t n tp tc nd ndn).
    + eexists. split; [done|]. by apply Hg.
  - destruct (cas_tail_ok N s g tp tc n Hi Hk) as [[E1 E2]|(E1 & E2 & Ec & Et & Hs)]; rewrite E2; (eexists; split; [done|]).
    + apply step_go; rewrite ?Hp; done.
    + apply step_swing; rewrite ?Hp; try done. destruct (decide (tx s + 1 < 2 ^ 64)); [left; auto|right; lia].
Qed.

Lemma queue_pop_step_ok N s g t p :
  qinv N s g → qpcs s t = p →
  match p with DHeadC | DHeadP _ | DTailC _ _ | DTailP _ _ _ | DNext _ _ _ _ | DHelp _ _ _ | DValue _ _ _ | DCas _ _ _ _ => True | _ => False end →
  ∃ s', pop_step s t p = Some s' ∧ step_ok N s g s'.
Proof.
  intros Hi Hp Hpop. assert (Hid : qpcs s t ≠ QIdle) by (rewrite Hp; by destruct p).
  pose proof (thread_lt N s g t Hi Hid) as Ht. pose proof (qi_know _ _ _ Hi t) as Hk. rewrite Hp in Hk.
  assert (Hg : ∀ p', live p' = None → node_of p' = None → stale p' = None → know s g p' → step_ok N s g (qgo s t p')).
  { intros p' H1 H2 H3 H4. apply step_go; rewrite ?Hp, ?H1, ?H2, ?H3; try done. by destruct p. }
  assert (Hhead : at_head s g (head_ptr s) (head_count s)).
  { rewrite (qi_hc _ _ _ Hi). split; [lia|]. split; [|done]. apply (qi_init _ _ _ Hi). unfold placed.
    by rewrite (proj1 (qi_plq _ _ _ Hi _) (qi_head_in _ _ _ Hi)). }
  assert (Hmem : ∀ hp hc, at_head s g hp hc → is_Some (mem s !! hp)) by (intros hp hc (_ & H & _); by apply (qi_used _ _ _ Hi)).
  destruct p as [| | | | | | | | | | | | | |hc|hp hc|hp hc tc|hp hc tp tc|tp tc np|hp hc np|hp hc np v|]; try done;
    cbn [know] in Hk; simpl pop_step.
  - eexists. split; [done|]. apply Hg; try done. simpl. rewrite (qi_hc _ _ _ Hi). lia.
  - eexists. split; [done|]. apply Hg; try done. simpl. destruct Hhead as (_ & ? & _). done.
  - eexists. split; [done|]. apply Hg; try done. simpl. rewrite (qi_tc _ _ _ Hi). split; [done|lia].
  - eexists. split; [done|]. apply Hg; try done. simpl. destruct Hk as [Hh Hc]. split_and!; try done.
    intros E Hne. destruct Hh as (_ & _ & Hh). rewrite (Hh E) in Hne. done.
  - destruct Hk as (Hh & Hc & Htp & Hne). destruct (Hmem hp hc Hh) as [nd Hnd]. rewrite Hnd. simpl.
    destruct (decide (hp = tp)) as [->|Hd].
    + destruct (next_ptr nd) as [np|] eqn:En; (eexists; split; [done|]); apply Hg; try done.
      simpl. split; [done|]. intros E. split; [auto|]. unfold ptr_of. rewrite Hnd. simpl. by rewrite En.
    + destruct (next_ptr nd) as [np|] eqn:En; (eexists; split; [done|]); apply Hg; try done.
      simpl. split_and!; [done| |].
      * destruct Hh as (_ & Hu & _). by eapply (qi_ptr _ _ _ Hi).
      * intros E. split; [|by apply Hne]. unfold ptr_of. rewrite Hnd. simpl. by rewrite En.
  - destruct (cas_tail_ok N s g tp tc np Hi Hk) as [[E1 E2]|(E1 & E2 & Ec & Et & Hs)]; rewrite E2; (eexists; split; [done|]).
    + apply step_go; rewrite ?Hp; done.
    + apply step_swing; rewrite ?Hp; try done. destruct (decide (tx s + 1 < 2 ^ 64)); [left; auto|right; lia].
  - destruct Hk as (Hh & [nd Hnd] & Hn). rewrite Hnd. simpl. eexists. split; [done|]. apply Hg; try done.
    simpl. split; [done|]. intros E. destruct (Hn E). rewrite Hnd. done.
  - destruct Hk as (Hh & Hn). unfold cas_head. case_bool_decide as E1; simpl; [|eexists; split; [done|]; by apply Hg].
    destruct (Z.eqb_spec (head_count s) hc) as [E2|]; [|eexists; split; [done|]; by apply Hg].
    eexists. split; [done|]. rewrite (qi_hc _ _ _ Hi) in E2. destruct (Hn (eq_sym E2)) as (Hptr & Hne & Hv). subst hp.
    split; [simpl; lia|]. split; [done|]. intros Hb _. simpl in Hb.
    destruct (qinv_take N s g t np v Hi) as [Hi' Hvals]; try done; [by rewrite Hp|].
    subst hc. unfold take_head in Hi'. rewrite (qi_hc _ _ _ Hi) in Hi'.
    eexists. split.
    + eapply (qinv_go N _ _ t _ _ _ Hi'); simpl; rewrite ?Hp; try done.
    + right. exists v. split; [|done]. exact Hvals.
Qed.

Lemma queue_step_ok N s g l :
  qinv N s g → queue_enabled N s l = true → ∃ s', queue_step s l = Some s' ∧ step_ok N s g s'.
Proof.
  intros Hi He. destruct l as [t n v|t|t n x|t n|t].
  - apply andb_true_iff in He as [[[Hl Hn]%idle_live Ho%bool_decide_eq_true]%andb_true_iff Ht%Nat.ltb_lt].
    eexists. split; [done|]. apply step_go; rewrite ?Hl; try done. intros ? [= <-]. by apply (qi_plo _ _ _ Hi).
  - apply andb_true_iff in He as [[Hl Hn]%idle_live Ht%Nat.ltb_lt].
    eexists. split; [done|]. apply step_go; rewrite ?Hl; done.
  - eexists. split; [done|]. eapply step_ok_same; [done..| |by eapply qinv_alloc].
    unfold contents. cbn [gq]. apply vals_frame. intros y Hy. simpl. destruct (decide (n ∈ free s)); [done|].
    apply andb_true_iff in He as [[_ [Hn%bool_decide_eq_true|Hn%bool_decide_eq_true]%orb_true_iff]%andb_true_iff _]; [done|].
    rewrite lookup_insert_ne; [done|]. intros <-. apply gq_tail_sub, (qi_gq_mem N s g _ Hi) in Hy. destruct Hy. congruence.
  - apply andb_true_iff in He as [Hid Ho%bool_decide_eq_true]. eexists. split; [done|].
    eapply step_ok_same; [done..| |by eapply qinv_free]. done.
  - apply negb_true_iff, bool_decide_eq_false in He. cbn [queue_step]. pose proof (thread_lt N s g t Hi He) as Ht.
    destruct (qpcs s t) as [| | | | | | | | | | | | | | | | | | | | |r] eqn:Ep; [done|..]; cbv beta iota;
      first [apply queue_pop_step_ok; done|apply push_step_ok; [done|done|by left]|apply push_step_ok; [done|done|right; eauto]|
        eexists; split; [done|]; apply step_go; rewrite ?Ep; done].
Qed.

Lemma qinv_init N n : qinv N (fev_simple_mpmc_queue_init n)
  (mk_ghost [n] (λ _, []) {[ n := InQ ]} {[ n ]} (λ _, 0) (λ _, 0) 0).
Proof.
  assert (Hnn : ∀ x (P : place), ({[ n := InQ ]} : gmap loc place) !! x = Some P → x = n ∧ P = InQ).
  { by intros x P [-> <-]%lookup_singleton_Some. }
  split; simpl; try done.
  - apply list_elem_of_here.
  - split; [|done]. unfold ptr_of. by rewrite lookup_singleton_eq.
  - apply NoDup_singleton.
  - intros x. rewrite list_elem_of_singleton. split; [intros ->; by rewrite lookup_singleton_eq|by intros [-> _]%Hnn].
  - intros x t. split; [by intros ?%not_elem_of_nil|by intros [_ ?]%Hnn].
  - intros x t. split; [by rewrite lookup_empty|by intros [_ ?]%Hnn].
  - intros x. split; [by intros ?%elem_of_empty|by intros [_ ?]%Hnn].
  - intros x. destruct (decide (n = x)) as [<-|Hne].
    + rewrite !lookup_singleton_eq. split; eauto.
    + rewrite !lookup_singleton_ne by done. split; by intros [].
  - intros x. unfold placed. simpl. destruct (decide (n = x)) as [<-|Hne]; [intros _; by apply elem_of_singleton|].
    by rewrite lookup_singleton_ne.
  - intros x ->%elem_of_singleton. rewrite lookup_singleton_eq. eauto.
  - intros x nd ->%elem_of_singleton [_ <-]%lookup_singleton_Some. unfold placed. simpl. by rewrite lookup_singleton_eq.
  - by intros x nd y ->%elem_of_singleton [_ <-]%lookup_singleton_Some.
  - by rewrite gather_nil.
Qed.

Lemma cas_mono s a c n :
  (hx s <= hx (cas_tail s a c n).2 ∧ tx s <= tx (cas_tail s a c n).2) ∧
  (hx s <= hx (cas_head s a c n).2 ∧ tx s <= tx (cas_head s a c n).2) ∧
  ∀ r, cas_next s a c n = Some r → hx s <= hx r.2 ∧ tx s <= tx r.2.
Proof.
  unfold cas_tail, cas_head, cas_next. split_and!; [by case_match; simpl; lia..|].
  intros r. destruct (mem s !! a); simpl; [|done]. case_match; intros [= <-]; simpl; lia.
Qed.

Lemma queue_mono s l s' : queue_step s l = Some s' → hx s <= hx s' ∧ tx s <= tx s'.
Proof.
  destruct l as [t n v|t|t n x|t n|t]; simpl; [by intros [= <-]..|]. intros H.
  destruct (qpcs s t) as [| | | | | | | | |n tp tc np|n tp tc nc|n tp tc| | | | | |hp hc tp tc|tp tc np| |hp hc np v|];
    simpl in H; inv_opt H; simplify_eq/=; try lia.
  1-2: destruct (cas_mono s tp tc np) as (Hm & _); rewrite E in Hm; done.
  1-2: destruct (cas_mono s tp nc n) as (_ & _ & Hm); exact (Hm _ E).
  1: by destruct (cas_mono s tp tc n) as (Hm & _).
  1: by destruct (cas_mono s tp tc np) as (Hm & _).
  1-2: destruct (cas_mono s hp hc np) as (_ & Hm & _); rewrite E in Hm; done.
Qed.

Lemma queue_reach_inv N n s :
  reach (queue_next N) (fev_simple_mpmc_queue_init n) s → hx s < 2 ^ 64 → tx s < 2 ^ 64 → ∃ g, qinv N s g.
Proof.
  induction 1 as [|s l s' Hr IH Hs]; intros Hb1 Hb2; [eexists; apply qinv_init|].
  unfold queue_next in Hs. destruct (queue_enabled N s l) eqn:He; [|done].
  destruct (queue_mono _ _ _ Hs). destruct IH as [g Hi]; [lia|lia|].
  destruct (queue_step_ok N s g l Hi He) as (s2 & E & _ & _ & H'). simplify_eq.
  destruct (H' Hb1 Hb2) as (g' & Hi' & _). eauto.
Qed.

(** ** Properties *)

(** The values between the head and the end of the list in memory. *)
Definition content s (vs : list value) : Prop :=
  ∃ l, seg (mem s) (head_ptr s :: l) ∧ vs = vals (mem s) l.

Lemma seg_unique m x l1 l2 : seg m (x :: l1) → seg m (x :: l2) → l1 = l2.
Proof.
  revert x l2. induction l1 as [|y l1 IH]; intros x [|z l2] [H1 S1] [H2 S2]; try done; rewrite H1 in H2; simplify_eq/=.
  f_equal. by eapply IH.
Qed.

Lemma qinv_content N s g : qinv N s g → gq g = head_ptr s :: tail (gq g) ∧ content s (contents s g).
Proof.
  intros Hi. pose proof (qi_head _ _ _ Hi) as Hh. pose proof (qi_seg _ _ _ Hi) as Hs.
  destruct (gq g) as [|h l] eqn:E; simplify_eq/=. split; [done|]. exists l. unfold contents. rewrite E. done.
Qed.

Lemma content_unique N s g vs : qinv N s g → content s vs → vs = contents s g.
Proof.
  intros Hi (l & Hl & ->). destruct (qinv_content _ _ _ Hi) as (E & l' & Hl' & E'). rewrite E'. f_equal.
  by eapply seg_unique.
Qed.

(** Nothing is lost or duplicated: in every interleaving of pushes and pops, with
    nodes that are used again as soon as they are popped, the values pushed are
    those popped, those in the list, and those that hang on a node which
    another thread is still pushing; when no push is in progress there are none
    of the latter. No node of the list is in the pool or in the hands of a
    thread, and no step accesses a node that was never allocated. This holds as long
    as the counters of head and tail have not wrapped around. *)
Theorem simple_queue_conserves N n s :
  reach (queue_next N) (fev_simple_mpmc_queue_init n) s → hx s < 2 ^ 64 → tx s < 2 ^ 64 →
  (∃ vs pend, content s vs ∧ pushed s ≡ₚ popped s ++ vs ++ pend ∧
     ((∀ t, node_of (qpcs s t) = None) → pend = [])) ∧
  (∃ l, seg (mem s) (head_ptr s :: l) ∧ tail_ptr s ∈ head_ptr s :: l ∧
     ∀ x, x ∈ head_ptr s :: l → own s !! x = None ∧ x ∉ free s) ∧
  (∀ l, queue_enabled N s l = true → is_Some (queue_step s l)).
Proof.
  intros Hr Hb1 Hb2. destruct (queue_reach_inv N n s Hr Hb1 Hb2) as [g Hi].
  destruct (qinv_content N s g Hi) as [El Hc]. split_and!.
  - exists (contents s g), (vals (mem s) (gather N (gp g))). split_and!; [done|apply Hi|].
    intros Hn. rewrite gather_nil; [done|]. intros t. pose proof (qi_pend _ _ _ Hi t) as Hp.
    destruct (live (qpcs s t)) eqn:E; [|done]. specialize (Hn t). by destruct (qpcs s t).
  - exists (tail (gq g)). rewrite <- El. split_and!; [apply Hi|apply Hi|]. intros x Hx%(qi_plq _ _ _ Hi). split.
    + destruct (own s !! x) as [t|] eqn:E; [|done]. apply (qi_plo _ _ _ Hi) in E. congruence.
    + intros Hf%(qi_plf _ _ _ Hi). congruence.
  - intros l He. destruct (queue_step_ok N s g l Hi He) as (s' & -> & _). eauto.
Qed.

(** The queue is a FIFO: every step appends values at the end of the list, or removes
    the first one, which is the value that the pop returns, or leaves it alone. *)
Theorem simple_queue_fifo N n s l s' vs vs' :
  reach (queue_next N) (fev_simple_mpmc_queue_init n) s → queue_next N s l = Some s' →
  hx s' < 2 ^ 64 → tx s' < 2 ^ 64 → content s vs → content s' vs' → fifo vs s vs' s'.
Proof.
  intros Hr Hs Hb1 Hb2 Hc Hc'. unfold queue_next in Hs. destruct (queue_enabled N s l) eqn:He; [|done].
  destruct (queue_mono _ _ _ Hs). destruct (queue_reach_inv N n s Hr) as [g Hi]; [lia|lia|].
  destruct (queue_step_ok N s g l Hi He) as (s2 & E & _ & _ & H'). simplify_eq.
  destruct (H' Hb1 Hb2) as (g' & Hi' & Hf). by rewrite (content_unique _ _ _ _ Hi Hc), (content_unique _ _ _ _ Hi' Hc').
Qed.

(** A pop finds the queue empty only if it is, or if another pop has succeeded since
    it read the head. *)
Theorem simple_queue_empty N n s t hp hc tp tc s' :
  reach (queue_next N) (fev_simple_mpmc_queue_init n) s → hx s < 2 ^ 64 → tx s < 2 ^ 64 →
  qpcs s t = DNext hp hc tp tc → queue_next N s (QTau t) = Some s' → qpcs s' t = DRet None →
  head_count s = hc → content s [].
Proof.
  intros Hr Hb1 Hb2 Hp Hs Hret Hc. destruct (queue_reach_inv N n s Hr Hb1 Hb2) as [g Hi].
  pose proof (qi_know _ _ _ Hi t) as Hk. rewrite Hp in Hk. destruct Hk as ((_ & _ & Hh) & _ & _ & _).
  rewrite (qi_hc _ _ _ Hi) in Hc. specialize (Hh (eq_sym Hc)).
  unfold queue_next in Hs. simpl in Hs. destruct (negb (idle s t)); [|done]. rewrite Hp in Hs. simpl in Hs.
  destruct (mem s !! hp) as [nd|] eqn:Em; [|done]. simpl in Hs.
  assert (En : next_ptr nd = None).
  { destruct (decide (hp = tp)), (next_ptr nd); simplify_eq/=; rewrite upd_eq in Hret; congruence. }
  destruct (qinv_content _ _ _ Hi) as (El & l & Hl & _). exists []. split; [|done].
  destruct Hl as [Hpt _]. subst hp. unfold ptr_of in Hpt. rewrite Em in Hpt. simpl in Hpt. rewrite En in Hpt.
  split; [|done]. unfold ptr_of. rewrite Em. simpl. by rewrite En.
Qed.

(** ** Schedules *)

Definition junk : fev_simple_mpmc_queue_node := mk_qnode (Some 99%positive) (Some 98%positive) 7.
Definition q_push (t : nat) (n v : loc) : list qlabel := QPush t n (Some v) :: replicate 11 (QTau t).
Definition q_pop (t : nat) : list qlabel := QPop t :: replicate 8 (QTau t).
Definition q0 := fev_simple_mpmc_queue_init 1.
Definition q_state (ls : list qlabel) : fev_simple_mpmc_queue := default q0 (run (queue_next 3) q0 ls).

(** Thread 1 has read the head (node 1) when thread 2 pops, which gives node 1 back to the
    pool, and pushes node 1 again. *)
Definition ex_fill : list qlabel :=
  [QAlloc 0 2 junk] ++ q_push 0 2 12 ++ [QAlloc 0 3 junk] ++ q_push 0 3 13.
Definition ex_reuse : list qlabel :=
  [QPop 1; QTau 1; QTau 1] ++ q_pop 2 ++ [QFree 2 1; QAlloc 2 1 junk] ++ q_push 2 1 11 ++ [QTau 1; QTau 1; QTau 1].

(** Thread 0 is about to link its node 2 to node 1 when thread 1 pushes node 3 and pops it, so that node 1
    goes back to the pool; thread 2 has just initialised node 1 for a push of its own. *)
Definition ex_delay : list qlabel :=
  [QAlloc 0 2 junk; QPush 0 2 (Some 12%positive)] ++ replicate 8 (QTau 0) ++
  [QAlloc 1 3 junk] ++ q_push 1 3 13 ++ q_pop 1 ++ [QFree 1 1; QAlloc 2 1 junk; QPush 2 1 (Some 11%positive); QTau 2; QTau 2; QTau 2] ++
  replicate 3 (QTau 0).

Lemma q_reach ls : is_Some (run (queue_next 3) q0 ls) → reach (queue_next 3) q0 (q_state ls).
Proof. intros [s Hs]. unfold q_state. rewrite Hs. by eapply run_reach; [constructor|]. Qed.

Lemma ex_runs :
  is_Some (run (queue_next 3) q0 (ex_fill ++ ex_reuse)) ∧ is_Some (run (queue_next 3) q0 ex_delay) ∧
  is_Some (run (queue_next 3) q0 (ex_delay ++ replicate 8 (QTau 2))).
Proof. split_and!; vm_compute; by eexists. Qed.

(** The pop of thread 1 returns that the queue is empty although it never was: it has held at
    least one value since before the call. *)
Theorem simple_queue_spurious_empty :
  qpcs (q_state (ex_fill ++ ex_reuse)) 1%nat = DRet None ∧
  ∀ k, (k <= length ex_reuse)%nat →
    ptr_of (mem (q_state (ex_fill ++ take k ex_reuse))) (head_ptr (q_state (ex_fill ++ take k ex_reuse))) ≠ Some None.
Proof.
  split; [vm_compute; reflexivity|].
  assert (H : Forall (λ k, ptr_of (mem (q_state (ex_fill ++ take k ex_reuse)))
                             (head_ptr (q_state (ex_fill ++ take k ex_reuse))) ≠ Some None) (seq 0 (S (length ex_reuse)))).
  { apply (bool_decide_eq_true_1 _). vm_compute. reflexivity. }
  intros k Hk. rewrite Forall_forall in H. apply H, elem_of_seq. lia.
Qed.

(** The push of thread 0 has returned, but its value 12 is not in the queue, which is empty; only when thread 2
    goes on does it appear, behind the value 11 of thread 2. *)
Theorem simple_queue_delayed_push :
  let s := q_state ex_delay in
  let s' := q_state (ex_delay ++ replicate 8 (QTau 2)) in
  qpcs s 0%nat = QIdle ∧ pushed s = [Some 12%positive; Some 13%positive] ∧ popped s = [Some 13%positive] ∧ content s [] ∧
  content s' [Some 11%positive; Some 12%positive].
Proof.
  cbv zeta. split_and!; [vm_compute; reflexivity..| |].
  - exists []. split; [vm_compute; done|done].
  - exists [1%positive; 2%positive]. split; vm_compute; done.
Qed.

(** ** Witnesses *)

Lemma q_bound ls : bool_decide (hx (q_state ls) < 2 ^ 64 ∧ tx (q_state ls) < 2 ^ 64) = true →
  hx (q_state ls) < 2 ^ 64 ∧ tx (q_state ls) < 2 ^ 64.
Proof. apply bool_decide_eq_true_1. Qed.

Lemma simple_queue_conserves_witness :
  ∃ vs pend, content (q_state ex_delay) vs ∧ pushed (q_state ex_delay) ≡ₚ popped (q_state ex_delay) ++ vs ++ pend.
Proof.
  destruct (q_bound ex_delay ltac:(vm_compute; reflexivity)) as [Hb1 Hb2].
  destruct (simple_queue_conserves 3 1 (q_state ex_delay) (q_reach _ (proj1 (proj2 ex_runs))) Hb1 Hb2)
    as ((vs & pend & H1 & H2 & _) & _).
  exists vs, pend. exact (conj H1 H2).
Defined.

(** The step with which thread 2 pops the value 12. *)
Definition ex_pop_pre : list qlabel := ex_fill ++ take 10 ex_reuse.

Lemma ex_pop_values :
  is_Some (run (queue_next 3) q0 ex_pop_pre) ∧
  queue_next 3 (q_state ex_pop_pre) (QTau 2) = Some (q_state (ex_fill ++ take 11 ex_reuse)).
Proof. split_and!; [vm_compute; by eexists|vm_compute; reflexivity]. Qed.

Lemma ex_pop_content :
  content (q_state ex_pop_pre) [Some 12%positive; Some 13%positive] ∧
  content (q_state (ex_fill ++ take 11 ex_reuse)) [Some 13%positive].
Proof.
  split.
  - exists [2%positive; 3%positive]. split; vm_compute; done.
  - exists [3%positive]. split; vm_compute; done.
Qed.

Lemma simple_queue_fifo_witness :
  fifo [Some 12%positive; Some 13%positive] (q_state ex_pop_pre) [Some 13%positive] (q_state (ex_fill ++ take 11 ex_reuse)) ∧
  popped (q_state (ex_fill ++ take 11 ex_reuse)) = [Some 12%positive].
Proof.
  destruct (q_bound (ex_fill ++ take 11 ex_reuse) ltac:(vm_compute; reflexivity)) as [Hb1 Hb2].
  split; [|vm_compute; reflexivity].
  exact (simple_queue_fifo 3 1 (q_state ex_pop_pre) (QTau 2) (q_state (ex_fill ++ take 11 ex_reuse)) _ _
           (q_reach _ (proj1 ex_pop_values)) (proj2 ex_pop_values) Hb1 Hb2 (proj1 ex_pop_content) (proj2 ex_pop_content)).
Defined.

(** A pop of the empty queue. *)
Definition ex_empty : list qlabel := QPop 0 :: replicate 4 (QTau 0).

Lemma ex_empty_values :
  is_Some (run (queue_next 3) q0 ex_empty) ∧ qpcs (q_state ex_empty) 0%nat = DNext 1 0 1 0 ∧
  queue_next 3 (q_state ex_empty) (QTau 0) = Some (q_state (ex_empty ++ [QTau 0])) ∧
  qpcs (q_state (ex_empty ++ [QTau 0])) 0%nat = DRet None ∧ head_count (q_state ex_empty) = 0.
Proof. split_and!; [vm_compute; by eexists|vm_compute; reflexivity..]. Qed.

Lemma simple_queue_empty_witness : content (q_state ex_empty) [].
Proof.
  destruct ex_empty_values as (H1 & H2 & H3 & H4 & H5).
  destruct (q_bound ex_empty ltac:(vm_compute; reflexivity)) as [Hb1 Hb2].
  exact (simple_queue_empty 3 1 (q_state ex_empty) 0 1 0 1 0 _ (q_reach _ H1) Hb1 Hb2 H2 H3 H4 H5).
Defined.
