(* ===== verification/SimplePool.v ===== *)
(** The memory pool of [src/src/fev_simple_mpmc_pool.h] and the run queue of the
    scheduler [src/src/fev_sched_shr_simple_mpmc.c], which takes the nodes of its
    lock-free queue from that pool.

    The operations of the queue and of the stack are the step systems of
    [SimpleQueue] and [SimpleStack], run to their end without interference from other
    threads; what happens when they are interleaved is shown there. A pool element has
    one address, which is that of its queue node and of its stack node. *)

From S2P Require Import Prelude SchedIntf SimpleStack SimpleQueue.

Local Open Scope Z_scope.

(** ** Operations without interference *)

(** Runs the operation of thread [t] to its end. *)
Fixpoint queue_finish (fuel : nat) (q : fev_simple_mpmc_queue) (t : nat) : option (qpc * fev_simple_mpmc_queue) :=
  match fuel with
  | O => None
  | S fuel =>
      match qpcs q t with
      | (ERet | DRet _) as p => Some (p, qgo q t QIdle)
      | _ => q ← queue_step q (QTau t); queue_finish fuel q t
      end
  end.

Fixpoint stack_finish (fuel : nat) (st : fev_simple_mpmc_stack) (t : nat) : option (sop * fev_simple_mpmc_stack) :=
  match fuel with
  | O => None
  | S fuel =>
      match spcs st t with
      | SRet o => Some (o, sgo st t SIdle)
      | _ => st ← stack_step st (STau t); stack_finish fuel st t
      end
  end.

(** No operation takes more than 10 steps when nobody interferes. *)
Abbreviation FUEL := 12%nat.

Definition fev_simple_mpmc_queue_push (q : fev_simple_mpmc_queue) (t : nat) (node : loc) (v : value) : option fev_simple_mpmc_queue :=
  '(_, q) ← queue_finish FUEL (qgo q t (EValue node v)) t;
  Some q.

(** The value and the node that is not needed any more. *)
Definition fev_simple_mpmc_queue_pop (q : fev_simple_mpmc_queue) (t : nat)
    : option (option (value * loc) * fev_simple_mpmc_queue) :=
  '(p, q) ← queue_finish FUEL (qgo q t DHeadC) t;
  match p with DRet r => Some (r, q) | _ => None end.

Definition fev_simple_mpmc_stack_push (st : fev_simple_mpmc_stack) (t : nat) (node : loc) : option fev_simple_mpmc_stack :=
  '(_, st) ← stack_finish FUEL (sgo (sadd st (Call t)) t (PushCount node)) t;
  Some st.

Definition fev_simple_mpmc_stack_pop (st : fev_simple_mpmc_stack) (t : nat) : option (option loc * fev_simple_mpmc_stack) :=
  '(o, st) ← stack_finish FUEL (sgo (sadd st (Call t)) t PopCount) t;
  match o with OPop r => Some (r, st) | _ => None end.

(** ** The pool *)

(** [struct fev_simple_mpmc_pool_local]: the elements linked by [local_next]. *)
Record fev_simple_mpmc_pool_local := mk_local {
  elems : list loc;
  max_size : Z;
  cur_size : Z;
}.

(** The run queue of the scheduler with its pools. *)
Record psched := mk_psched {
  run_queue : fev_simple_mpmc_queue;
  pool_global : fev_simple_mpmc_stack;
  pool_locals : list fev_simple_mpmc_pool_local;
}.

Implicit Types s : psched.

Definition with_queue s q := mk_psched q (pool_global s) (pool_locals s).
Definition with_global s g := mk_psched (run_queue s) g (pool_locals s).
Definition with_local s w l := mk_psched (run_queue s) (pool_global s) (<[w := l]> (pool_locals s)).

Definition fev_simple_mpmc_pool_init_local (sz : Z) : fev_simple_mpmc_pool_local := mk_local [] sz 0.

(** A new element; what its memory holds does not matter. *)
Definition new_elem s (n : loc) : psched :=
  mk_psched (qmem (run_queue s) (<[n := junk]> (mem (run_queue s)))) (sset_next (pool_global s) n None) (pool_locals s).

Section pool.
(** [fev_aligned_alloc] of an element: an address, or [NULL]. *)
Context (alloc : psched → option loc).

Definition fev_simple_mpmc_pool_alloc_global s (t : nat) : option (option loc * psched) :=
  '(r, g) ← fev_simple_mpmc_stack_pop (pool_global s) t;
  let s := with_global s g in
  match r with
  | Some node => Some (Some node, s)
  | None => match alloc s with
            | None => Some (None, s)
            | Some n => Some (Some n, new_elem s n)
            end
  end.

Definition fev_simple_mpmc_pool_free_global s (t : nat) (node : loc) : option psched :=
  g ← fev_simple_mpmc_stack_push (pool_global s) t node;
  Some (with_global s g).

(** [fev_simple_mpmc_pool_alloc_local(&worker->pool_local)] of worker [w]. *)
Definition fev_simple_mpmc_pool_alloc_local s (w : nat) : option (option loc * psched) :=
  l ← pool_locals s !! w;
  FEV_ASSERT (cur_size l <=? max_size l);
  match elems l with
  | [] =>
      FEV_ASSERT (cur_size l =? 0);
      fev_simple_mpmc_pool_alloc_global s w
  | e :: es => Some (Some e, with_local s w (mk_local es (max_size l) (u64 (cur_size l - 1))))
  end.

Definition fev_simple_mpmc_pool_free_local s (w : nat) (node : loc) : option psched :=
  l ← pool_locals s !! w;
  FEV_ASSERT (cur_size l <=? max_size l);
  if cur_size l =? max_size l then fev_simple_mpmc_pool_free_global s w node
  else Some (with_local s w (mk_local (node :: elems l) (max_size l) (u64 (cur_size l + 1)))).

(** The loop of [fev_simple_mpmc_pool_fini_local]. *)
Fixpoint fini_local_loop s (t : nat) (top : list loc) : option psched :=
  match top with
  | [] => Some s
  | e :: top => s ← fev_simple_mpmc_pool_free_global s t e; fini_local_loop s t top
  end.

Definition fev_simple_mpmc_pool_fini_local s (t w : nat) : option psched :=
  l ← pool_locals s !! w;
  fini_local_loop s t (elems l).

(** [fev_simple_mpmc_pool_fini_global]: the elements it frees. *)
Fixpoint fini_global_loop (fuel : nat) s (t : nat) (freed : list loc) : option (list loc * psched) :=
  match fuel with
  | O => None
  | S fuel =>
      '(r, g) ← fev_simple_mpmc_stack_pop (pool_global s) t;
      let s := with_global s g in
      match r with
      | None => Some (freed, s)
      | Some e => fini_global_loop fuel s t (freed ++ [e])
      end
  end.

(** Every iteration removes an element, so their number bounds the iterations. *)
Definition fev_simple_mpmc_pool_fini_global s (t : nat) : option (list loc * psched) :=
  fini_global_loop (S (size (next (pool_global s)))) s t [].

(** ** The run queue of the scheduler *)

(** Pushing may end in [fev_sched_oom], which aborts the process. *)
Inductive presult := Aborted | Pushed (s : psched).

Definition fev_push_one s (w : nat) (fiber : loc) : option presult :=
  '(r, s) ← fev_simple_mpmc_pool_alloc_local s w;
  match r with
  | None => Some Aborted
  | Some node => q ← fev_simple_mpmc_queue_push (run_queue s) w node (Some fiber); Some (Pushed (with_queue s q))
  end.

Fixpoint push_stq_loop s (w : nat) (fibers : list loc) : option presult :=
  match fibers with
  | [] => Some (Pushed s)
  | cur :: next =>
      '(r, s) ← fev_simple_mpmc_pool_alloc_local s w;
      match r with
      | None => Some Aborted
      | Some node => q ← fev_simple_mpmc_queue_push (run_queue s) w node (Some cur); push_stq_loop (with_queue s q) w next
      end
  end.

Definition fev_push_stq s (w : nat) (fibers : list loc) (num_fibers : Z) : option presult :=
  FEV_ASSERT negb (bool_decide (fibers = []));
  FEV_ASSERT (0 <? num_fibers);
  push_stq_loop s w fibers.

(** [get_fiber]: the fiber, whose node goes back to the worker's pool. *)
Definition get_fiber s (w : nat) : option (option loc * psched) :=
  '(r, q) ← fev_simple_mpmc_queue_pop (run_queue s) w;
  let s := with_queue s q in
  match r with
  | None => Some (None, s)
  | Some (v, node) => s ← fev_simple_mpmc_pool_free_local s w node; fiber ← v; Some (Some fiber, s)
  end.

(** [fev_sched_put], called before the workers run. *)
Definition fev_sched_put s (fiber : loc) : option (Z * psched) :=
  '(r, s) ← fev_simple_mpmc_pool_alloc_global s 0;
  match r with
  | None => Some (- ENOMEM, s)
  | Some node => q ← fev_simple_mpmc_queue_push (run_queue s) 0 node (Some fiber); Some (0, with_queue s q)
  end.
End pool.

(** ** The operations of stack and queue, run alone *)

Lemma cas_ok_refl (st : fev_simple_mpmc_stack) : cas_ok st (top st) (count st) = true.
Proof. unfold cas_ok. rewrite bool_decide_true by done. apply Z.eqb_refl. Qed.

Lemma stack_finish_S f st t st' :
  (∀ o, spcs st t ≠ SRet o) → stack_step st (STau t) = Some st' → stack_finish (S f) st t = stack_finish f st' t.
Proof. intros Hp Hs. cbn [stack_finish]. rewrite Hs. destruct (spcs st t) eqn:E; try done. by destruct (Hp o). Qed.

Lemma stack_finish_ret f st t o : spcs st t = SRet o → stack_finish (S f) st t = Some (o, sgo st t SIdle).
Proof. intros Hp. cbn [stack_finish]. by rewrite Hp. Qed.

Lemma queue_finish_S f q t q' :
  (∀ r, qpcs q t ≠ DRet r) → qpcs q t ≠ ERet → queue_step q (QTau t) = Some q' → queue_finish (S f) q t = queue_finish f q' t.
Proof.
  intros Hp Hp' Hs. cbn [queue_finish]. rewrite Hs. destruct (qpcs q t) eqn:E; try done. by destruct (Hp r).
Qed.

Lemma queue_finish_ret f q t p :
  qpcs q t = p → (p = ERet ∨ ∃ r, p = DRet r) → queue_finish (S f) q t = Some (p, qgo q t QIdle).
Proof. intros <- Hp. cbn [queue_finish]. by destruct Hp as [->|[r ->]]. Qed.

#[local] Opaque stack_finish queue_finish.

(** The part of a state that an operation of [t] looks at. *)
Definition sview st t p tp c nx : Prop := spcs st t = p ∧ top st = tp ∧ count st = c ∧ next st = nx.
Definition qview q t p h hc l lc m : Prop :=
  qpcs q t = p ∧ head_ptr q = h ∧ head_count q = hc ∧ tail_ptr q = l ∧ tail_count q = lc ∧ mem q = m.

(** One step of a thread that runs alone, from one view to the next; [tac] computes it. The state itself is
    forgotten, so that the terms stay small. *)
Ltac stack_tau tac :=
  lazymatch goal with
  | Hv : sview ?st ?t _ _ _ _ |- context [stack_finish (S ?f) ?st ?t] =>
      let H1 := fresh in let H2 := fresh in let H3 := fresh in let H4 := fresh in
      destruct Hv as (H1 & H2 & H3 & H4);
      erewrite (stack_finish_S f st t); [|by rewrite H1|simpl; rewrite H1; simpl; unfold cas_ok; rewrite ?H2, ?H3, ?H4; tac; reflexivity];
      lazymatch goal with
      | |- context [stack_finish f ?x t] =>
          eassert (Hv : sview x t _ _ _ _)
            by (unfold sview; simpl; rewrite upd_eq, ?H2, ?H3, ?H4; split_and!; reflexivity);
          clear H1 H2 H3 H4; revert Hv; generalize x; clear st; intros st Hv
      end
  end.

Ltac queue_tau tac :=
  lazymatch goal with
  | Hv : qview ?q ?t _ _ _ _ _ _ |- context [queue_finish (S ?f) ?q ?t] =>
      let H1 := fresh in let H2 := fresh in let H3 := fresh in let H4 := fresh in let H5 := fresh in let H6 := fresh in
      destruct Hv as (H1 & H2 & H3 & H4 & H5 & H6);
      erewrite (queue_finish_S f q t);
        [|by rewrite H1|by rewrite H1|simpl; rewrite H1; simpl; unfold cas_next, cas_tail, cas_head; rewrite ?H2, ?H3, ?H4, ?H5, ?H6; tac; reflexivity];
      lazymatch goal with
      | |- context [queue_finish f ?x t] =>
          eassert (Hv : qview x t _ _ _ _ _ _)
            by (unfold qview; simpl; rewrite upd_eq, ?H2, ?H3, ?H4, ?H5, ?H6; split_and!; reflexivity);
          clear H1 H2 H3 H4 H5 H6; revert Hv; generalize x; clear q; intros q Hv
      end
  end.

Lemma stack_push_run st t n tp c nx o :
  sview st t (PushCount n) tp c nx → nx !! n = Some o →
  ∃ st', stack_finish FUEL st t = Some (OPush n, st') ∧ top st' = Some n ∧ next st' = <[n := tp]> nx.
Proof.
  intros Hv Ho. do 2 stack_tau idtac. stack_tau ltac:(rewrite Ho; simpl).
  stack_tau ltac:(rewrite bool_decide_true, Z.eqb_refl by done; simpl).
  destruct Hv as (H1 & H2 & H3 & H4). erewrite stack_finish_ret by done. eexists. split; [done|]. done.
Qed.

Lemma stack_pop_run st t tp c nx l :
  sview st t PopCount tp c nx → chain nx tp l →
  ∃ st', stack_finish FUEL st t = Some (OPop (head l), st') ∧ chain nx (top st') (tail l) ∧ next st' = nx.
Proof.
  intros Hv Hc. stack_tau idtac. destruct l as [|n l]; simpl in Hc.
  - subst tp. do 2 stack_tau idtac. destruct Hv as (H1 & H2 & H3 & H4). erewrite stack_finish_ret by done.
    eexists. split; [done|]. done.
  - destruct Hc as (-> & o & Ho & Hc). stack_tau idtac. stack_tau ltac:(rewrite Ho; simpl).
    stack_tau ltac:(rewrite bool_decide_true, Z.eqb_refl by done; simpl).
    destruct Hv as (H1 & H2 & H3 & H4). erewrite stack_finish_ret by done. eexists. split; [done|]. simpl. by rewrite H2.
Qed.

Lemma stack_push_alone st t n l :
  chain (next st) (top st) l → n ∉ l → is_Some (next st !! n) →
  ∃ st', fev_simple_mpmc_stack_push st t n = Some st' ∧ chain (next st') (top st') (n :: l) ∧
    next st' = <[n := top st]> (next st).
Proof.
  intros Hc Hn [o Ho].
  destruct (stack_push_run (sgo (sadd st (Call t)) t (PushCount n)) t n (top st) (count st) (next st) o)
    as (st' & E & Et & En); [unfold sview; simpl; by rewrite upd_eq|done|].
  exists (st'). unfold fev_simple_mpmc_stack_push. rewrite E. split; [done|].
  rewrite Et, En. split; [|done]. split; [done|]. exists (top st). rewrite lookup_insert_eq. split; [done|].
  by apply chain_frame.
Qed.

Lemma stack_pop_alone st t l :
  chain (next st) (top st) l →
  ∃ st', fev_simple_mpmc_stack_pop st t = Some (head l, st') ∧ chain (next st') (top st') (tail l) ∧ next st' = next st.
Proof.
  intros Hc. destruct (stack_pop_run (sgo (sadd st (Call t)) t PopCount) t (top st) (count st) (next st) l)
    as (st' & E & Et & En); [unfold sview; simpl; by rewrite upd_eq|done|].
  exists st'. unfold fev_simple_mpmc_stack_pop. rewrite E. split; [done|].
  by rewrite En.
Qed.

(** The list of the queue when no operation is in progress: the tail is its last node. *)
Definition list_of (q : fev_simple_mpmc_queue) (l : list loc) : Prop :=
  seg (mem q) l ∧ NoDup l ∧ head l = Some (head_ptr q) ∧ last l = Some (tail_ptr q).

Lemma queue_push_run q t n v h hc tp tc m nd x :
  qview q t (EValue n v) h hc tp tc m → n ≠ tp → m !! n = Some nd → m !! tp = Some x → next_ptr x = None →
  ∃ q' c, queue_finish FUEL q t = Some (ERet, q') ∧ head_ptr q' = h ∧ tail_ptr q' = n ∧
    mem q' = <[tp := mk_qnode (qvalue x) (Some n) c]> (<[n := mk_qnode v None 0]> m).
Proof.
  intros Hv Hne Hnd Hx Hx0.
  queue_tau ltac:(rewrite Hnd; simpl).
  do 2 queue_tau ltac:(rewrite lookup_insert_eq; simpl).
  do 2 queue_tau idtac.
  do 2 queue_tau ltac:(rewrite !lookup_insert_ne, Hx by done; simpl).
  queue_tau ltac:(rewrite Z.eqb_refl; simpl; rewrite Hx0).
  queue_tau ltac:(rewrite !lookup_insert_ne, Hx by done; simpl; rewrite Hx0, bool_decide_true, Z.eqb_refl by done; simpl;
    rewrite lookup_insert_ne, lookup_insert_eq by done; simpl).
  queue_tau ltac:(rewrite bool_decide_true, Z.eqb_refl by done; simpl).
  destruct Hv as (H1 & H2 & H3 & H4 & H5 & H6). erewrite queue_finish_ret by (first [done|by left]).
  eexists _, _. split; [done|]. simpl. rewrite H2, H4, H6. split_and!; [done|done|]. by rewrite !insert_insert_eq.
Qed.

Lemma queue_push_alone q t n v l :
  list_of q l → n ∉ l → is_Some (mem q !! n) →
  ∃ q', fev_simple_mpmc_queue_push q t n v = Some q' ∧ list_of q' (l ++ [n]) ∧
    vals (mem q') (tail (l ++ [n])) = vals (mem q) (tail l) ++ [v] ∧ dom (mem q') = dom (mem q).
Proof.
  intros (Hs & Hd & Hh & Hl) Hn [nd Hnd]. apply last_Some in Hl as [l' El].
  assert (Ht : tail_ptr q ∈ l) by (rewrite El; apply elem_of_app; right; apply list_elem_of_here).
  assert (Hne : n ≠ tail_ptr q) by (by intros ->).
  assert (∃ x, mem q !! tail_ptr q = Some x ∧ next_ptr x = None) as (x & Hx & Hx0).
  { rewrite El in Hs. apply seg_app in Hs as [Hp _]. unfold ptr_of in Hp.
    destruct (mem q !! tail_ptr q) as [x|]; simplify_eq/=. eauto. }
  destruct (queue_push_run (qgo q t (EValue n v)) t n v (head_ptr q) (head_count q) (tail_ptr q) (tail_count q) (mem q) nd x)
    as (q' & c & E & E1 & E2 & E3); [unfold qview; simpl; by rewrite upd_eq|done..|].
  exists q'. unfold fev_simple_mpmc_queue_push. rewrite E. split; [done|].
  assert (Htl : tail_ptr q ∉ l').
  { rewrite El in Hd. apply NoDup_app in Hd as (_ & H & _). intros Hx'. by apply (H _ Hx'), list_elem_of_here. }
  split_and!.
  - split_and!.
    + rewrite El. eapply (seg_link (<[n := mk_qnode v None 0]> (mem q))).
      * rewrite <- El. eapply seg_frame; [|done]. intros y Hy. apply ptr_of_insert_ne. by intros ->.
      * split; [|done]. unfold ptr_of. by rewrite lookup_insert_eq.
      * done.
      * by rewrite list_elem_of_singleton.
      * rewrite E3. unfold ptr_of. by rewrite lookup_insert_eq.
      * intros z Hz. rewrite E3. by apply ptr_of_insert_ne.
    + apply NoDup_app. split_and!; [done| |apply NoDup_singleton]. by intros y Hy ->%list_elem_of_singleton.
    + rewrite E1. by destruct l.
    + by rewrite last_snoc, E2.
  - assert (Htail : tail (l ++ [n]) = tail l ++ [n]) by (by destruct l). rewrite Htail, vals_app. f_equal.
    + rewrite E3. apply vals_frame. intros y Hy%gq_tail_sub. destruct (decide (tail_ptr q = y)) as [<-|Hy'].
      * rewrite lookup_insert_eq, Hx. done.
      * rewrite !lookup_insert_ne; [done| |done]. by intros ->.
    + unfold vals. simpl. rewrite E3, lookup_insert_ne, lookup_insert_eq by done. done.
  - rewrite E3, !dom_insert_lookup_L; [done|eauto|]. rewrite lookup_insert_ne by done. eauto.
Qed.

Lemma queue_pop_run q t h hc tp tc m x l :
  qview q t DHeadC h hc tp tc m → m !! h = Some x → next_ptr x = head l → last (h :: l) = Some tp → h ∉ l →
  (∀ y, y ∈ l → is_Some (m !! y)) →
  ∃ q', queue_finish FUEL q t = Some (DRet (y ← head l; Some (from_option qvalue None (m !! y), h)), q') ∧
    head_ptr q' = default h (head l) ∧ tail_ptr q' = tp ∧ mem q' = m.
Proof.
  intros Hv Hx Hn Hl Hh Hm. do 4 queue_tau idtac. destruct l as [|y l]; simpl in Hn, Hl; simplify_eq.
  - queue_tau ltac:(rewrite Hx; simpl; rewrite decide_True by done; rewrite Hn).
    destruct Hv as (H1 & H2 & H3 & H4 & H5 & H6). erewrite queue_finish_ret by (first [done|by right; eauto]).
    eexists. split; [done|]. simpl. done.
  - destruct (Hm y (list_elem_of_here _ _)) as [z Hz].
    assert (Hne : h ≠ tp).
    { intros ->. apply Hh. by apply last_Some_elem_of. }
    queue_tau ltac:(rewrite Hx; simpl; rewrite decide_False by done; rewrite Hn).
    queue_tau ltac:(rewrite Hz; simpl).
    queue_tau ltac:(rewrite bool_decide_true, Z.eqb_refl by done; simpl).
    destruct Hv as (H1 & H2 & H3 & H4 & H5 & H6). erewrite queue_finish_ret by (first [done|by right; eauto]).
    eexists. simpl. rewrite Hz. split; [done|]. simpl. done.
Qed.

Lemma queue_pop_alone q t h l :
  list_of q (h :: l) → (∀ y, y ∈ l → is_Some (mem q !! y)) →
  ∃ q', fev_simple_mpmc_queue_pop q t = Some (y ← head l; Some (from_option qvalue None (mem q !! y), h), q') ∧
    list_of q' (match l with [] => [h] | _ => l end) ∧ mem q' = mem q.
Proof.
  intros (Hs & Hd & Hh & Hl) Hm. simpl in Hh. simplify_eq. destruct Hs as [Hp Hs]. unfold ptr_of in Hp.
  destruct (mem q !! head_ptr q) as [x|] eqn:Hx; simplify_eq/=. apply NoDup_cons in Hd as [Hn Hd].
  destruct (queue_pop_run (qgo q t DHeadC) t (head_ptr q) (head_count q) (tail_ptr q) (tail_count q) (mem q) x l)
    as (q' & E & E1 & E2 & E3); [unfold qview; simpl; by rewrite upd_eq|done..|].
  exists q'. unfold fev_simple_mpmc_queue_pop. rewrite E. split; [done|]. split; [|done].
  destruct l as [|y l].
  - split_and!; [|apply NoDup_singleton|by rewrite E1|by rewrite E2].
    split; [|done]. unfold ptr_of. rewrite E3, Hx. simpl. by rewrite Hp.
  - split_and!; [by rewrite E3|done|by rewrite E1|]. rewrite E2. exact Hl.
Qed.

#[local] Opaque fev_simple_mpmc_queue_push fev_simple_mpmc_queue_pop fev_simple_mpmc_stack_push fev_simple_mpmc_stack_pop.

(** ** Where the elements are *)

Definition local_elems s : list loc := concat (elems <$> pool_locals s).

(** The run queue is the list [l], its first node being the dummy, and holds the fibers [fs]; [gl] are the
    elements in the shared pool, [hand] those that an operation in progress holds. Every element that was ever
    allocated is in exactly one of these places or in the pool of a worker. *)
Record prep (N : nat) (sz : Z) s (hand l gl fs : list loc) : Prop := {
  pr_queue : list_of (run_queue s) l;
  pr_vals : vals (mem (run_queue s)) (tail l) = Some <$> fs;
  pr_global : chain (next (pool_global s)) (top (pool_global s)) gl;
  pr_locals : Forall (λ p, cur_size p = Z.of_nat (length (elems p)) ∧ cur_size p <= max_size p ∧ max_size p = sz) (pool_locals s);
  pr_len : length (pool_locals s) = N;
  pr_nodup : NoDup (hand ++ l ++ gl ++ local_elems s);
  pr_mem : ∀ x, is_Some (mem (run_queue s) !! x) ↔ x ∈ hand ++ l ++ gl ++ local_elems s;
  pr_next : ∀ x, x ∈ hand ++ l ++ gl ++ local_elems s → is_Some (next (pool_global s) !! x);
}.

Lemma prep_intro N sz s hand l gl fs all :
  list_of (run_queue s) l → vals (mem (run_queue s)) (tail l) = Some <$> fs →
  chain (next (pool_global s)) (top (pool_global s)) gl →
  Forall (λ p, cur_size p = Z.of_nat (length (elems p)) ∧ cur_size p <= max_size p ∧ max_size p = sz) (pool_locals s) →
  length (pool_locals s) = N → NoDup all →
  (∀ x, is_Some (mem (run_queue s) !! x) ↔ x ∈ all) → (∀ x, x ∈ all → is_Some (next (pool_global s) !! x)) →
  all ≡ₚ hand ++ l ++ gl ++ local_elems s → prep N sz s hand l gl fs.
Proof.
  intros H1 H2 H3 H4 H5 H6 H7 H8 Hp. split; try done; [by rewrite <- Hp|..].
  - intros x. by rewrite H7, Hp.
  - intros x. rewrite <- Hp. auto.
Qed.

Lemma concat_elems_insert (ls : list fev_simple_mpmc_pool_local) w p p' :
  ls !! w = Some p → concat (elems <$> <[w := p']> ls) ++ elems p ≡ₚ concat (elems <$> ls) ++ elems p'.
Proof.
  intros Hw. rewrite list_fmap_insert. apply concat_insert_perm. by rewrite list_lookup_fmap, Hw.
Qed.

Lemma bind_eq {A B} (f : A → option B) e x : e = Some x → e ≫= f = f x.
Proof. by intros ->. Qed.

Section correct.
Context (N : nat) (sz : Z) (alloc : psched → option loc).
Context (Hsz : 0 <= sz < 2 ^ 64).
(** The system allocator returns memory that is not in use. *)
Context (alloc_fresh : ∀ s n, alloc s = Some n → mem (run_queue s) !! n = None ∧ next (pool_global s) !! n = None).

Abbreviation rep := (prep N sz).

(** An element taken from the pool, or the failure of the system allocator. *)
Definition alloc_spec (l gl fs : list loc) (r : option loc) s' : Prop :=
  match r with
  | Some n => ∃ gl', rep s' [n] l gl' fs
  | None => rep s' [] l gl fs ∧ gl = [] ∧ ∃ s0, alloc s0 = None
  end.

Lemma alloc_global_ok s l gl fs t :
  rep s [] l gl fs → ∃ r s', fev_simple_mpmc_pool_alloc_global alloc s t = Some (r, s') ∧ alloc_spec l gl fs r s'.
Proof using alloc_fresh Hsz.
  intros Hr. pose proof Hr as []. unfold fev_simple_mpmc_pool_alloc_global.
  destruct (stack_pop_alone (pool_global s) t gl pr_global0) as (g & E & Hc & Hn). rewrite (bind_eq _ _ _ E). cbv beta iota zeta.
  set (s1 := with_global s g).
  destruct gl as [|n gl]; simpl in *.
  - assert (Hr1 : rep s1 [] l [] fs).
    { eapply prep_intro; simpl; try done. intros x Hx. rewrite Hn. by apply pr_next0. }
    destruct (alloc s1) as [n|] eqn:Ea; (eexists _, _; split; [done|]).
    + exists []. destruct (alloc_fresh s1 n Ea) as [Hm Hx]. simpl in Hm, Hx.
      assert (Hni : n ∉ l ++ local_elems s).
      { intros H. apply pr_mem0 in H as [? ?]. congruence. }
      assert (Hnl : n ∉ l) by (intros H; apply Hni, elem_of_app; by left).
      apply (prep_intro _ _ _ _ _ _ _ (n :: l ++ local_elems s)); simpl; try done.
      * destruct pr_queue0 as (Hs & ? & ? & ?). split_and!; try done. simpl. eapply seg_frame; [|done].
        intros x Hx'. apply ptr_of_insert_ne. by intros ->.
      * rewrite vals_insert; [done|]. by intros ?%gq_tail_sub.
      * by constructor.
      * intros x. rewrite lookup_insert_is_Some, elem_of_cons, <- pr_mem0. destruct (decide (n = x)) as [->|]; [tauto|].
        split; [intros [?|[_ ?]]; [done|by right]|intros [?|?]; [congruence|by right]].
      * intros x Hx'. rewrite lookup_insert_is_Some. destruct (decide (n = x)); [by left|right]. split; [done|].
        rewrite Hn. apply pr_next0. apply elem_of_cons in Hx' as [?|?]; [congruence|done].
    + split; [done|]. split; [done|]. eauto.
  - eexists _, _. split; [done|]. exists gl. apply (prep_intro _ _ _ _ _ _ _ (l ++ n :: gl ++ local_elems s)); simpl; try done.
    + intros x Hx. rewrite Hn. by apply pr_next0.
    + unfold local_elems. simpl. solve_Permutation.
Qed.

Lemma local_lookup s hand l gl fs w :
  rep s hand l gl fs → (w < N)%nat → ∃ p, pool_locals s !! w = Some p ∧ cur_size p = Z.of_nat (length (elems p)) ∧
    cur_size p <= max_size p ∧ max_size p = sz.
Proof.
  intros [] Hw. destruct (lookup_lt_is_Some_2 (pool_locals s) w) as [p Hp]; [lia|]. exists p. split; [done|].
  by apply (Forall_lookup_1 _ _ _ _ pr_locals0 Hp).
Qed.

(** Changing the pool of a worker. *)
Lemma with_local_ok s hand l gl fs w p es hand' :
  rep s hand l gl fs → pool_locals s !! w = Some p → Z.of_nat (length es) <= sz →
  hand ++ elems p ≡ₚ hand' ++ es →
  rep (with_local s w (mk_local es sz (Z.of_nat (length es)))) hand' l gl fs.
Proof.
  intros [] Hw Hl Hp. apply (prep_intro _ _ _ _ _ _ _ (hand ++ l ++ gl ++ local_elems s)); simpl; try done.
  - apply Forall_insert; [done|]. simpl. done.
  - by rewrite length_insert.
  - unfold local_elems. simpl. apply (Permutation_app_inv_r (elems p)).
    pose proof (concat_elems_insert _ _ _ (mk_local es sz (Z.of_nat (length es))) Hw) as Hc. simpl in Hc.
    rewrite <- !app_assoc, Hc. transitivity ((hand ++ elems p) ++ l ++ gl ++ concat (elems <$> pool_locals s)); [solve_Permutation|].
    rewrite Hp. solve_Permutation.
Qed.

Lemma alloc_local_ok s l gl fs w :
  rep s [] l gl fs → (w < N)%nat →
  ∃ r s', fev_simple_mpmc_pool_alloc_local alloc s w = Some (r, s') ∧ alloc_spec l gl fs r s'.
Proof using alloc_fresh Hsz.
  intros Hr Hw. destruct (local_lookup _ _ _ _ _ _ Hr Hw) as (p & Hp & Hc & Hm & Hz).
  unfold fev_simple_mpmc_pool_alloc_local. rewrite (bind_eq _ _ _ Hp), (proj2 (Z.leb_le _ _) Hm).
  destruct (elems p) as [|e es] eqn:Ee; simpl in Hc.
  - rewrite Hc. by apply alloc_global_ok.
  - eexists _, _. split; [done|]. exists gl.
    replace (u64 (cur_size p - 1)) with (Z.of_nat (length es)) by (rewrite u64_small by lia; lia).
    rewrite Hz. eapply with_local_ok; [done|done|lia|]. rewrite Ee. done.
Qed.

Lemma free_global_ok s n l gl fs t :
  rep s [n] l gl fs → ∃ s', fev_simple_mpmc_pool_free_global s t n = Some s' ∧ rep s' [] l (n :: gl) fs ∧
    pool_locals s' = pool_locals s ∧ run_queue s' = run_queue s.
Proof.
  intros []. unfold fev_simple_mpmc_pool_free_global. simpl in *. apply NoDup_cons in pr_nodup0 as [Hn Hd].
  destruct (stack_push_alone (pool_global s) t n gl) as (g & E & Hc & Hx); [done| |by apply pr_next0, list_elem_of_here|].
  { intros H. apply Hn, elem_of_app. right. apply elem_of_app. by left. }
  rewrite (bind_eq _ _ _ E). eexists. split; [done|]. split; [|done].
  apply (prep_intro _ _ _ _ _ _ _ (n :: l ++ gl ++ local_elems s)); simpl; try done.
  - by constructor.
  - intros x Hx'. rewrite Hx, lookup_insert_is_Some. destruct (decide (n = x)); [by left|right]. auto.
  - unfold local_elems. simpl. solve_Permutation.
Qed.

Lemma free_local_ok s n l gl fs w :
  rep s [n] l gl fs → (w < N)%nat →
  ∃ s' gl', fev_simple_mpmc_pool_free_local s w n = Some s' ∧ rep s' [] l gl' fs.
Proof using Hsz.
  intros Hr Hw. destruct (local_lookup _ _ _ _ _ _ Hr Hw) as (p & Hp & Hc & Hm & Hz).
  unfold fev_simple_mpmc_pool_free_local. rewrite (bind_eq _ _ _ Hp), (proj2 (Z.leb_le _ _) Hm).
  destruct (Z.eqb_spec (cur_size p) (max_size p)) as [E|E].
  - destruct (free_global_ok s n l gl fs w Hr) as (s' & -> & Hr' & _). eauto.
  - eexists _, gl. split; [done|].
    replace (u64 (cur_size p + 1)) with (Z.of_nat (length (n :: elems p))) by (rewrite u64_small by lia; simpl; lia).
    rewrite Hz. eapply with_local_ok; [done|done|simpl; lia|]. simpl. done.
Qed.

(** ** The run queue *)

Lemma queue_push_ok s n l gl fs t f :
  rep s [n] l gl fs →
  ∃ q, fev_simple_mpmc_queue_push (run_queue s) t n (Some f) = Some q ∧ rep (with_queue s q) [] (l ++ [n]) gl (fs ++ [f]).
Proof.
  intros []. simpl in *. pose proof pr_nodup0 as Hd. apply NoDup_cons in Hd as [Hn _].
  destruct (queue_push_alone (run_queue s) t n (Some f) l) as (q & -> & Hl & Hv & Hdom); [done| | |].
  { intros H. apply Hn, elem_of_app. by left. }
  { apply pr_mem0, list_elem_of_here. }
  eexists. split; [done|]. apply (prep_intro _ _ _ _ _ _ _ (n :: l ++ gl ++ local_elems s)); simpl; try done.
  - by rewrite Hv, pr_vals0, fmap_app.
  - intros x. rewrite <- pr_mem0, <- !elem_of_dom. by rewrite Hdom.
  - unfold local_elems. simpl. solve_Permutation.
Qed.

Definition push_spec (fs fs' : list loc) (r : presult) : Prop :=
  match r with
  | Aborted => ∃ s0, alloc s0 = None
  | Pushed s' => ∃ l' gl', rep s' [] l' gl' (fs ++ fs')
  end.

Lemma pool_push_one_ok s l gl fs w f :
  rep s [] l gl fs → (w < N)%nat → ∃ r, fev_push_one alloc s w f = Some r ∧ push_spec fs [f] r.
Proof using alloc_fresh Hsz.
  intros Hr Hw. unfold fev_push_one. destruct (alloc_local_ok s l gl fs w Hr Hw) as ([n|] & s' & E & Hs); rewrite (bind_eq _ _ _ E); cbv beta iota.
  - destruct Hs as [gl' Hs]. destruct (queue_push_ok s' n l gl' fs w f Hs) as (q & E2 & Hq). rewrite (bind_eq _ _ _ E2).
    eexists. split; [done|]. simpl. eauto.
  - eexists. split; [done|]. by destruct Hs as (_ & _ & ?).
Qed.

Lemma pool_push_stq_ok s l gl fs w fs' :
  rep s [] l gl fs → (w < N)%nat → ∃ r, push_stq_loop alloc s w fs' = Some r ∧ push_spec fs fs' r.
Proof using alloc_fresh Hsz.
  revert s l gl fs. induction fs' as [|f fs' IH]; intros s l gl fs Hr Hw; cbn [push_stq_loop].
  - eexists. split; [done|]. simpl. rewrite app_nil_r. eauto.
  - destruct (alloc_local_ok s l gl fs w Hr Hw) as ([n|] & s' & E & Hs); rewrite (bind_eq _ _ _ E); cbv beta iota.
    + destruct Hs as [gl' Hs]. destruct (queue_push_ok s' n l gl' fs w f Hs) as (q & E2 & Hq). rewrite (bind_eq _ _ _ E2).
      destruct (IH _ _ _ _ Hq Hw) as (r & -> & Hr'). exists r. split; [done|]. destruct r; [done|].
      simpl in *. rewrite <- app_assoc in Hr'. done.
    + eexists. split; [done|]. by destruct Hs as (_ & _ & ?).
Qed.

Lemma get_fiber_ok s l gl fs w :
  rep s [] l gl fs → (w < N)%nat →
  ∃ s' l' gl', get_fiber s w = Some (head fs, s') ∧ rep s' [] l' gl' (tail fs).
Proof using Hsz.
  intros Hr Hw. pose proof Hr as []. unfold get_fiber. destruct l as [|h l]; [by destruct pr_queue0 as (_ & _ & ? & _)|].
  destruct (queue_pop_alone (run_queue s) w h l) as (q & E & Hl & Hm); [done| |].
  { intros y Hy. apply pr_mem0. simpl. apply list_elem_of_further, elem_of_app. by left. }
  rewrite (bind_eq _ _ _ E). cbv beta iota zeta. simpl in pr_vals0. destruct l as [|y l].
  - destruct fs; [|done]. simpl. eexists _, _, _. split; [done|]. apply (prep_intro _ _ _ _ [h] gl _ ([h] ++ gl ++ local_elems s)); simpl; try done.
    intros x. rewrite Hm. apply pr_mem0.
  - destruct fs as [|f fs]; [done|]. unfold vals in pr_vals0. simpl in pr_vals0. injection pr_vals0 as Hf Hfs. simpl. rewrite Hf.
    assert (Hr1 : rep (with_queue s q) [h] (y :: l) gl fs).
    { apply (prep_intro _ _ _ _ _ _ _ ((h :: y :: l) ++ gl ++ local_elems s)); simpl; try done.
      - by rewrite Hm.
      - intros x. rewrite Hm. apply pr_mem0. }
    destruct (free_local_ok (with_queue s q) h (y :: l) gl fs w Hr1 Hw) as (s' & gl' & E2 & Hr'). rewrite (bind_eq _ _ _ E2). simpl. eauto.
Qed.

Lemma sched_put_ok s l gl fs f :
  rep s [] l gl fs →
  ∃ ret s', fev_sched_put alloc s f = Some (ret, s') ∧
    ((ret = 0 ∧ ∃ l' gl', rep s' [] l' gl' (fs ++ [f])) ∨ (ret = - ENOMEM ∧ rep s' [] l gl fs ∧ ∃ s0, alloc s0 = None)).
Proof using alloc_fresh Hsz.
  intros Hr. unfold fev_sched_put. destruct (alloc_global_ok s l gl fs 0 Hr) as ([n|] & s' & E & Hs); rewrite (bind_eq _ _ _ E); cbv beta iota.
  - destruct Hs as [gl' Hs]. destruct (queue_push_ok s' n l gl' fs 0 f Hs) as (q & E2 & Hq). rewrite (bind_eq _ _ _ E2).
    eexists _, _. split; [done|]. left. eauto.
  - eexists _, _. split; [done|]. right. destruct Hs as (? & _ & ?). done.
Qed.
End correct.

(** ** Creation and destruction *)

(** [fev_sched_init], the part that concerns the run queue: [node] is what the first allocation returns. *)
Definition simple_init (node : loc) (num_workers : nat) (sz : Z) : psched :=
  mk_psched (fev_simple_mpmc_queue_init node) (sset_next fev_simple_mpmc_stack_init node None)
    (replicate num_workers (fev_simple_mpmc_pool_init_local sz)).

(** [fev_sched_fini_workers]: the elements in the pools of the workers go to the shared pool. *)
Fixpoint fini_workers s (t i todo : nat) : option psched :=
  match todo with
  | O => Some s
  | S todo => s ← fev_simple_mpmc_pool_fini_local s t i; fini_workers s t (S i) todo
  end.

(** [fev_sched_fini]: the elements that are freed. *)
Definition simple_fini s (t num_workers : nat) : option (list loc * psched) :=
  s ← fini_workers s t 0 num_workers;
  let node := fev_simple_mpmc_queue_fini (run_queue s) in
  s ← fev_simple_mpmc_pool_free_global s t node;
  fev_simple_mpmc_pool_fini_global s t.

Lemma simple_init_ok N sz node : 0 <= sz → prep N sz (simple_init node N sz) [] [node] [] [].
Proof.
  intros Hsz. assert (Hl : local_elems (simple_init node N sz) = []).
  { unfold local_elems, simple_init. cbn [pool_locals]. induction N as [|n IH]; [done|]. exact IH. }
  split; rewrite ?Hl; simpl; try done.
  - split_and!; try done; [|apply NoDup_singleton]. split; [|done]. simpl. unfold ptr_of. by rewrite lookup_singleton_eq.
  - by apply Forall_replicate.
  - by rewrite length_replicate.
  - apply NoDup_singleton.
  - intros x. rewrite list_elem_of_singleton. destruct (decide (node = x)) as [->|Hne].
    + rewrite lookup_singleton_eq. split; eauto.
    + rewrite lookup_singleton_ne by done. split; [by intros []|intros ->; done].
  - intros x ->%list_elem_of_singleton. rewrite lookup_insert_eq. eauto.
Qed.

(** Elements in the shared pool, none of them twice. *)
Definition pooled s (gl : list loc) : Prop :=
  chain (next (pool_global s)) (top (pool_global s)) gl ∧ NoDup gl.

Lemma free_pooled s t n gl :
  pooled s gl → n ∉ gl → is_Some (next (pool_global s) !! n) →
  ∃ s', fev_simple_mpmc_pool_free_global s t n = Some s' ∧ pooled s' (n :: gl) ∧
    pool_locals s' = pool_locals s ∧ run_queue s' = run_queue s ∧
    (∀ x, is_Some (next (pool_global s) !! x) → is_Some (next (pool_global s') !! x)).
Proof.
  intros [Hc Hd] Hn Hx. destruct (stack_push_alone (pool_global s) t n gl Hc Hn Hx) as (g & E & Hc' & Hg).
  unfold fev_simple_mpmc_pool_free_global. rewrite (bind_eq _ _ _ E). eexists. split; [done|].
  split; [split; [done|by constructor]|]. split_and!; [done|done|]. intros x Hx'. simpl. rewrite Hg, lookup_insert_is_Some.
  destruct (decide (n = x)); auto.
Qed.

Lemma fini_local_loop_ok s t es gl :
  pooled s gl → NoDup (es ++ gl) → (∀ x, x ∈ es → is_Some (next (pool_global s) !! x)) →
  ∃ s', fini_local_loop s t es = Some s' ∧ pooled s' (reverse es ++ gl) ∧
    pool_locals s' = pool_locals s ∧ run_queue s' = run_queue s ∧
    (∀ x, is_Some (next (pool_global s) !! x) → is_Some (next (pool_global s') !! x)).
Proof.
  revert s gl. induction es as [|e es IH]; intros s gl Hp Hd Hx; cbn [fini_local_loop]; [by exists s|].
  simpl in Hd. apply NoDup_cons in Hd as [He Hd].
  destruct (free_pooled s t e gl Hp) as (s1 & E & Hp1 & Hl1 & Hq1 & Hx1).
  { intros H. apply He, elem_of_app. by right. }
  { apply Hx, list_elem_of_here. }
  rewrite (bind_eq _ _ _ E). destruct (IH s1 (e :: gl) Hp1) as (s2 & -> & Hp2 & Hl2 & Hq2 & Hx2).
  - rewrite <- Permutation_middle. by constructor.
  - intros x Hx'. apply Hx1, Hx. by apply list_elem_of_further.
  - exists s2. split; [done|]. rewrite reverse_cons, <- app_assoc. split_and!; [done|congruence|congruence|auto].
Qed.

Lemma fini_workers_ok s t i todo gl es :
  pooled s gl → drop i (pool_locals s) = es → length es = todo → NoDup (concat (elems <$> es) ++ gl) →
  (∀ x, x ∈ concat (elems <$> es) → is_Some (next (pool_global s) !! x)) →
  ∃ s' gl', fini_workers s t i todo = Some s' ∧ pooled s' gl' ∧ gl' ≡ₚ concat (elems <$> es) ++ gl ∧
    run_queue s' = run_queue s ∧ (∀ x, is_Some (next (pool_global s) !! x) → is_Some (next (pool_global s') !! x)).
Proof.
  revert s i gl es. induction todo as [|todo IH]; intros s i gl es Hp Hdr Hlen Hd Hx; cbn [fini_workers].
  { destruct es; [|done]. exists s, gl. simpl. done. }
  destruct es as [|p es]; [done|]. rewrite fmap_cons in *. cbn [concat] in *. set (B := concat (elems <$> es)) in *.
  assert (Hi : pool_locals s !! i = Some p) by (rewrite <- (Nat.add_0_r i), <- lookup_drop, Hdr; done).
  assert (Hperm : (elems p ++ B) ++ gl ≡ₚ B ++ elems p ++ gl) by solve_Permutation.
  rewrite Hperm in Hd. pose proof Hd as (_ & _ & Hd1)%NoDup_app.
  destruct (fini_local_loop_ok s t (elems p) gl Hp Hd1) as (s1 & E & Hp1 & Hl1 & Hq1 & Hx1).
  { intros x Hx'. apply Hx, elem_of_app. by left. }
  assert (E1 : fev_simple_mpmc_pool_fini_local s t i = Some s1).
  { unfold fev_simple_mpmc_pool_fini_local. by rewrite (bind_eq _ _ _ Hi). }
  rewrite (bind_eq _ _ _ E1).
  destruct (IH s1 (S i) (reverse (elems p) ++ gl) es Hp1) as (s2 & gl' & -> & Hp2 & Hg2 & Hq2 & Hx2).
  - rewrite Hl1. replace (S i) with (i + 1)%nat by lia. by rewrite <- drop_drop, Hdr.
  - simpl in Hlen. lia.
  - fold B. by rewrite reverse_Permutation.
  - intros x Hx'. apply Hx1, Hx, elem_of_app. by right.
  - exists s2, gl'. split; [done|]. split_and!; [done| |congruence|auto]. rewrite Hg2. fold B.
    by rewrite reverse_Permutation, Hperm.
Qed.

Lemma fini_global_loop_ok fuel s t gl freed :
  pooled s gl → (length gl < fuel)%nat → ∃ s', fini_global_loop fuel s t freed = Some (freed ++ gl, s').
Proof.
  revert s gl freed. induction fuel as [|fuel IH]; intros s gl freed [Hc Hd] Hf; [lia|]. cbn [fini_global_loop].
  destruct (stack_pop_alone (pool_global s) t gl Hc) as (g & E & Hc' & Hn). rewrite (bind_eq _ _ _ E). cbv beta iota zeta.
  destruct gl as [|e gl]; cbv [head].
  - rewrite app_nil_r. eauto.
  - simpl in Hf. apply NoDup_cons in Hd as [_ Hd].
    destruct (IH (with_global s g) gl (freed ++ [e])) as (s' & ->); [by split|lia|]. rewrite <- app_assoc. eauto.
Qed.

Lemma pooled_length s gl : pooled s gl → (length gl <= size (next (pool_global s)))%nat.
Proof.
  intros [Hc Hd]. rewrite <- size_dom, <- (size_list_to_set (C := gset loc)) by done.
  apply subseteq_size. intros x Hx%elem_of_list_to_set. apply elem_of_dom. by eapply chain_alloc.
Qed.

(** ** The scheduler *)

(** An allocator that does not fail. *)
Definition get_alloc s : option loc :=
  Some (fresh (dom (mem (run_queue s)) ∪ dom (next (pool_global s)) : gset loc)).

Lemma get_alloc_fresh s n : get_alloc s = Some n → mem (run_queue s) !! n = None ∧ next (pool_global s) !! n = None.
Proof.
  intros [= <-]. pose proof (is_fresh (dom (mem (run_queue s)) ∪ dom (next (pool_global s)) : gset loc)) as Hf.
  apply not_elem_of_union in Hf as [H1%not_elem_of_dom H2%not_elem_of_dom]. done.
Qed.

Definition pushed_ (r : presult) : option psched := match r with Pushed s => Some s | Aborted => None end.

#[export] Instance shr_simple : SchedQueue psched := {|
  sq_stealing := false;
  sq_push_one w f s := r ← fev_push_one get_alloc s w f; pushed_ r;
  sq_push_stq w fs s := r ← fev_push_stq get_alloc s w fs (Z.of_nat (length fs)); pushed_ r;
  sq_pop w s := get_fiber s w;
  sq_move _ s := Some s;
  sq_size _ _ := None;
  sq_steal _ _ := None;
  sq_put f s := '(ret, s) ← fev_sched_put get_alloc s f; if ret =? 0 then Some s else None;
|}.

Definition simple_repr (N : nat) (sz : Z) s (a : acontent) : Prop :=
  alocals a = [] ∧ ∃ l gl, prep N sz s [] l gl (aglobal a).

Lemma others_empty_simple w a fs : alocals a = [] → others_empty w a (mk_ac [] fs).
Proof. by intros E w' _ _. Qed.

Lemma simple_afibers a : alocals a = [] → afibers a = aglobal a.
Proof. intros E. unfold afibers. by rewrite E. Qed.

Lemma simple_repr_push N sz a s l gl fs :
  alocals a = [] → prep N sz s [] l gl (aglobal a ++ fs) →
  simple_repr N sz s (mk_ac [] (aglobal a ++ fs)) ∧ afibers (mk_ac [] (aglobal a ++ fs)) ≡ₚ fs ++ afibers a.
Proof. intros E Hr. split; [by split; [|eauto]|]. rewrite (simple_afibers a E). unfold afibers. simpl. solve_Permutation. Qed.

#[export] Instance shr_simple_spec N sz (Hsz : 0 <= sz < 2 ^ 64) : SchedQueueSpec psched N.
Proof.
  refine {| sq_repr := simple_repr N sz |}; try done.
  - intros w f s a Hw [Hl (l & gl & Hr)] _. cbn [sq_push_one shr_simple].
    destruct (pool_push_one_ok N sz get_alloc Hsz get_alloc_fresh s l gl _ w f Hr Hw) as ([|s'] & E & Hs);
      [by destruct Hs|]. destruct Hs as (l' & gl' & Hr'). rewrite (bind_eq _ _ _ E).
    destruct (simple_repr_push N sz a s' l' gl' [f] Hl Hr') as [H1 H2].
    eexists _, _. split; [done|]. split; [exact H1|]. split; [exact H2|by apply others_empty_simple].
  - intros w fs s a Hw [Hl (l & gl & Hr)] Hne _. cbn [sq_push_stq shr_simple].
    destruct (pool_push_stq_ok N sz get_alloc Hsz get_alloc_fresh s l gl _ w fs Hr Hw) as ([|s'] & E & Hs);
      [by destruct Hs|]. destruct Hs as (l' & gl' & Hr').
    assert (E1 : fev_push_stq get_alloc s w fs (Z.of_nat (length fs)) = Some (Pushed s')).
    { unfold fev_push_stq. rewrite bool_decide_false by done. simpl negb.
      assert (0 < length fs)%nat by (destruct fs; [done|simpl; lia]). by rewrite (proj2 (Z.ltb_lt 0 _)) by lia. }
    rewrite (bind_eq _ _ _ E1). destruct (simple_repr_push N sz a s' l' gl' fs Hl Hr') as [H1 H2].
    eexists _, _. split; [done|]. split; [exact H1|]. split; [exact H2|by apply others_empty_simple].
  - intros w s a Hw [Hl (l & gl & Hr)]. cbn [sq_pop shr_simple].
    destruct (get_fiber_ok N sz Hsz s l gl _ w Hr Hw) as (s' & l' & gl' & E & Hr').
    exists (head (aglobal a)), s', (mk_ac [] (tail (aglobal a))). split; [exact E|]. split; [by split; [|eauto]|].
    split; [by apply others_empty_simple|]. rewrite (simple_afibers a Hl). unfold afibers. simpl. destruct (aglobal a); cbv [head tail]; done.
  - intros w s a Hw Hr _. exists s, a. split; [done|]. split; [done|]. split; [done|apply others_empty_refl].
  - intros f s a H0 [Hl (l & gl & Hr)] _. cbn [sq_put shr_simple].
    destruct (sched_put_ok N sz get_alloc Hsz get_alloc_fresh s l gl _ f Hr) as (ret & s' & E & Hs).
    destruct Hs as [(-> & l' & gl' & Hr')|(_ & _ & ? & ?)]; [|done].
    rewrite (bind_eq _ _ _ E). destruct (simple_repr_push N sz a s' l' gl' [f] Hl Hr') as [H1 H2].
    eexists _, _. split; [done|]. split; [exact H1|exact H2].
Defined.

(** ** Properties *)

(** The run queue of the scheduler is a FIFO of fibers whose nodes are never lost or used twice: pushing
    appends the fibers in order and getting a fiber removes the first one, while every pool element stays in exactly
    one place. When the system allocator fails, [fev_push_one] and [fev_push_stq] abort the process, and
    [fev_sched_put] returns [-ENOMEM] without any effect; they fail for no other reason. *)
Theorem simple_run_queue_fifo N sz alloc s l gl fs w f fs' :
  0 <= sz < 2 ^ 64 →
  (∀ s n, alloc s = Some n → mem (run_queue s) !! n = None ∧ next (pool_global s) !! n = None) →
  prep N sz s [] l gl fs → (w < N)%nat → fs' ≠ [] →
  (∃ r, fev_push_one alloc s w f = Some r ∧ push_spec N sz alloc fs [f] r) ∧
  (∃ r, fev_push_stq alloc s w fs' (Z.of_nat (length fs')) = Some r ∧ push_spec N sz alloc fs fs' r) ∧
  (∃ s' l' gl', get_fiber s w = Some (head fs, s') ∧ prep N sz s' [] l' gl' (tail fs)) ∧
  (∃ ret s', fev_sched_put alloc s f = Some (ret, s') ∧
     ((ret = 0 ∧ ∃ l' gl', prep N sz s' [] l' gl' (fs ++ [f])) ∨
      (ret = - ENOMEM ∧ prep N sz s' [] l gl fs ∧ ∃ s0, alloc s0 = None))).
Proof.
  intros Hsz Ha Hr Hw Hne. split; [by apply (pool_push_one_ok _ _ _ Hsz Ha s l gl)|]. split.
  { unfold fev_push_stq. rewrite bool_decide_false by done. simpl negb.
    assert (0 < length fs')%nat by (destruct fs'; [done|simpl; lia]). rewrite (proj2 (Z.ltb_lt 0 _)) by lia.
    by apply (pool_push_stq_ok _ _ _ Hsz Ha s l gl). }
  split; [by apply (get_fiber_ok _ _ Hsz s l gl)|]. by apply (sched_put_ok _ _ _ Hsz Ha s l gl).
Qed.

(** Destruction frees every pool element that was ever allocated, and none of them twice, when the run queue is
    empty: those in the pools of the workers, those in the shared pool, and the node the queue still has. *)
Theorem simple_pool_no_leak N sz s h gl t :
  prep N sz s [] [h] gl [] →
  ∃ freed s', simple_fini s t N = Some (freed, s') ∧ NoDup freed ∧
    ∀ x, x ∈ freed ↔ is_Some (mem (run_queue s) !! x).
Proof.
  intros []. simpl in *. pose proof pr_nodup0 as Hd. apply NoDup_cons in Hd as [Hh Hd].
  assert (Hperm : gl ++ local_elems s ≡ₚ concat (elems <$> pool_locals s) ++ gl) by (unfold local_elems; solve_Permutation).
  pose proof Hd as (Hdg & _ & _)%NoDup_app.
  destruct (fini_workers_ok s t 0 N gl (pool_locals s)) as (s1 & gl1 & E1 & Hp1 & Hg1 & Hq1 & Hx1); [by split|done|done| | |].
  { by rewrite <- Hperm. }
  { intros x Hx. apply pr_next0, list_elem_of_further. rewrite Hperm. apply elem_of_app. by left. }
  rewrite <- Hperm in Hg1.
  assert (Hhead : head_ptr (run_queue s) = h) by (destruct pr_queue0 as (_ & _ & ? & _); by simplify_eq/=).
  destruct (free_pooled s1 t h gl1 Hp1) as (s2 & E2 & Hp2 & _).
  { by rewrite Hg1. }
  { apply Hx1, pr_next0, list_elem_of_here. }
  destruct (fini_global_loop_ok (S (size (next (pool_global s2)))) s2 t (h :: gl1) [] Hp2) as (s3 & E3).
  { pose proof (pooled_length s2 _ Hp2). lia. }
  exists (h :: gl1), s3. split.
  - unfold simple_fini. rewrite (bind_eq _ _ _ E1). unfold fev_simple_mpmc_queue_fini. rewrite Hq1, Hhead, (bind_eq _ _ _ E2). exact E3.
  - split; [by apply Hp2|]. intros x. by rewrite pr_mem0, !elem_of_cons, Hg1.
Qed.

(** Two workers with pools for one element each. *)
Definition ex_simple : psched := simple_init 1 2 1.

Lemma ex_simple_prep : prep 2 1 ex_simple [] [1%positive] [] [].
Proof. apply simple_init_ok. lia. Qed.

(** The allocator fails: nothing is pushed. *)
Lemma simple_run_queue_fifo_witness :
  fev_push_one (λ _, None) ex_simple 0 7 = Some Aborted ∧
  ∃ s', fev_sched_put (λ _, None) ex_simple 7 = Some (- ENOMEM, s') ∧ prep 2 1 s' [] [1%positive] [] [].
Proof.
  destruct (simple_run_queue_fifo 2 1 (λ _, None) ex_simple [1%positive] [] [] 0 7 [7%positive])
    as (_ & _ & _ & ret & s' & E & H); [lia|done|exact ex_simple_prep|lia|done|].
  split; [vm_compute; reflexivity|]. exists s'.
  destruct H as [[Hret _]|(Hret & H & _)]; rewrite Hret in E; [exfalso; vm_compute in E; discriminate E|exact (conj E H)].
Defined.

Lemma simple_pool_no_leak_witness :
  ∃ freed s', simple_fini ex_simple 0 2 = Some (freed, s') ∧ NoDup freed.
Proof.
  destruct (simple_pool_no_leak 2 1 ex_simple 1 [] 0 ex_simple_prep) as (freed & s' & E & Hd & _).
  exists freed, s'. exact (conj E Hd).
Defined.

(** A run: three pushes, two of them by worker 0; the nodes of the fibers it gets go to its pool, and from there
    to the next push. *)
Example ex_simple_run :
  (r ← fev_push_stq get_alloc ex_simple 0 [7; 8; 9]%positive 3; s ← pushed_ r;
   '(f1, s) ← get_fiber s 0; '(f2, s) ← get_fiber s 0; '(f3, s) ← get_fiber s 1; '(f4, s) ← get_fiber s 1;
   r ← fev_push_one get_alloc s 1 6; s ← pushed_ r; '(f5, s) ← get_fiber s 0;
   '(freed, _) ← simple_fini s 0 2;
   Some ([f1; f2; f3; f4; f5], length freed)) =
  Some ([Some 7; Some 8; Some 9; None; Some 6]%positive, 4%nat).
Proof. vm_compute. reflexivity. Qed.
