(* ===== verification/SchedThms.v ===== *)
(** The properties of the scheduler, for every implementation of the run queues,
    and the schedulers they hold for. *)

From S2P Require Import Prelude SimplePool RunQueue SchedIntf SchedBounded SchedLocking Sched SchedInv.

Local Open Scope Z_scope.

(** ** The schedulers *)

(** [fev_sched_work] of each scheduler, with the rest of the system. *)
Definition fev_sched_work_steal_mpmc (k steal_count : Z) (sp : nat) :=
  sched_step (SQ := steal_mpmc k steal_count sp).
Definition fev_sched_work_steal_spmc (k steal_count : Z) (sp : nat) :=
  sched_step (SQ := steal_spmc k steal_count sp).
Definition fev_sched_work_steal_locking (steal_count : Z) :=
  sched_step (SQ := steal_locking steal_count).
Definition fev_sched_work_shr_mpmc (k : Z) (sp num_workers : nat) :=
  sched_step (SQ := shr_mpmc k sp num_workers) num_workers.
Definition fev_sched_work_shr_locking := sched_step (SQ := shr_locking).
Definition fev_sched_work_shr_simple := sched_step (SQ := shr_simple).

Section properties.
Context {Q : Type} `{SQ : SchedQueue Q} (N : nat) `{SP : !SchedQueueSpec Q N}.
Implicit Type s : sched (Q := Q).

(** C3: No step of any worker fails an assertion of the scheduler or of a run
    queue, or accesses a run queue out of bounds. *)
Theorem sched_never_faults q s0 s l :
  Z.of_nat N < 2 ^ 32 → (0 < N)%nat → booted N q s0 → reach (sched_next N) s0 s →
  sched_step N s l ≠ Fault.
Proof.
  intros HN H0 Hb Hr. pose proof (sched_step_ok N HN s l (reach_sinv N HN q s0 s H0 Hb Hr)) as Hok.
  by intros E; rewrite E in Hok.
Qed.

(** C2: No fiber is lost or duplicated: at any time every fiber is in exactly one
    place, a run queue, the hands of one worker, or blocked. In particular no
    fiber runs on two workers, and [num_fibers] is the number of fibers. *)
Theorem sched_keeps_fibers q s0 s :
  Z.of_nat N < 2 ^ 32 → (0 < N)%nat → booted N q s0 → reach (sched_next N) s0 s →
  NoDup (alive s) ∧ num_fibers s = Z.of_nat (length (alive s)) ∧
  (∃ a, sq_repr (queues s) a ∧ alive s ≡ₚ afibers a ++ helds N (pcs s) ++ blocked s) ∧
  (∀ w1 w2 f, (w1 < N)%nat → (w2 < N)%nat → f ∈ held (pcs s w1) → f ∈ held (pcs s w2) → w1 = w2).
Proof.
  intros HN H0 Hb Hr. pose proof (reach_sinv N HN q s0 s H0 Hb Hr) as Hi.
  split; [apply Hi|]. split; [apply Hi|]. destruct (s_q _ _ Hi) as (a & Hra & Hp & _).
  split; [eauto|]. intros w1 w2 f Hw1 Hw2 Hf1 Hf2. destruct (decide (w1 = w2)) as [|Hne]; [done|]. exfalso.
  pose proof (s_nodup _ _ Hi) as Hd. rewrite Hp in Hd. apply NoDup_app in Hd as (_ & _ & Hd).
  apply NoDup_app in Hd as (Hd & _ & _).
  assert (Hp2 : helds N (pcs s) ++ held Done ≡ₚ helds N (upd (pcs s) w1 Done) ++ held (pcs s w1))
    by (by rewrite (helds_upd N (pcs s) w1 Done Hw1)).
  simpl in Hp2. rewrite app_nil_r in Hp2. rewrite Hp2 in Hd. apply NoDup_app in Hd as (_ & Hd & _).
  apply (Hd f); [|done]. apply (elem_of_helds _ _ w2); [done|]. by rewrite upd_ne.
Qed.

(** C1: The workers never sleep while there is something to do. Whenever every
    worker has returned or sleeps with no wake-up on its way, no fiber is
    runnable, and either all fibers are finished and every worker has returned,
    or none has returned, all remaining fibers are blocked, and one worker
    waits in the poller for the events that unblock them. *)
Theorem sched_quiescence q s0 s :
  Z.of_nat N < 2 ^ 32 → (0 < N)%nat → booted N q s0 → reach (sched_next N) s0 s →
  (∀ w, (w < N)%nat → asleep s (pcs s w)) →
  (∃ a, sq_repr (queues s) a ∧ afibers a = []) ∧
  (alive s = [] ∧ (∀ w, (w < N)%nat → pcs s w = Done) ∨
   alive s ≡ₚ blocked s ∧ (∀ w, (w < N)%nat → pcs s w ≠ Done) ∧
   ∃ w, (w < N)%nat ∧ (pcs s w = PollWait ∨ pcs s w = ShPollWait)).
Proof.
  intros HN H0 Hb Hr Ha. pose proof (reach_sinv N HN q s0 s H0 Hb Hr) as Hi. apply (quiescent_cases N HN s Hi H0 Ha).
Qed.

(** [fev_yield]: the fiber is not counted any more, its context is saved, and then its worker runs [fev_cur_wake_one] with it. *)
Definition fev_yield (w : nat) (f : loc) : list (nat * action) := [(w, ABlock); (w, Tau); (w, AWakeOne f)].

(** A fiber that yields goes back into the run queues, and nothing else changes. *)
Theorem yield_keeps_runnable q s0 s w f b :
  Z.of_nat N < 2 ^ 32 → (0 < N)%nat → booted N q s0 → reach (sched_next N) s0 s → (w < N)%nat → pcs s w = Fib f b →
  ∃ s', run (sched_next N) s (fev_yield w f) = Some s' ∧ pcs s' w = WakeAdd 1 (Post b) ∧ alive s' = alive s ∧
    blocked s' ≡ₚ blocked s ∧ ∃ a, sq_repr (queues s') a ∧ f ∈ afibers a.
Proof.
  intros HN H0 Hb Hr Hw Hpc. pose proof (reach_sinv N HN q s0 s H0 Hb Hr) as Hi.
  assert (Hstep : ∀ s1 l s2, sinv N s1 → sched_step N s1 l = Next s2 → sched_next N s1 l = Some s2 ∧ sinv N s2).
  { intros s1 l s2 Hi1 E. pose proof (sched_step_ok N HN s1 l Hi1) as Hok. unfold sched_next. by rewrite E in Hok |- *. }
  assert (Hlt : (w <? N)%nat = true) by (by apply Nat.ltb_lt).
  set (s1 := go (set_run s (u32 (num_run_fibers s - 1))) w (Switch f b)).
  destruct (Hstep s (w, ABlock) s1 Hi) as [E1 Hi1]; [unfold sched_step, worker_step; simpl; by rewrite Hlt, Hpc|].
  set (s2 := go (set_blocked s1 (f :: blocked s)) w (Post b)).
  destruct (Hstep s1 (w, Tau) s2 Hi1) as [E2 Hi2]; [unfold sched_step, worker_step; simpl; by rewrite Hlt, upd_eq|].
  assert (Hm : may_wake s2 [f] = true).
  { apply bool_decide_eq_true. split_and!; [done|apply NoDup_singleton|simpl; set_solver]. }
  destruct (may_wake_perm N s2 [f] (held (Post b)) (sinv_finv N s2 Hi2) Hm) as [_ Hp].
  assert (Hpc2 : pcs s2 w = Post b) by apply upd_eq.
  destruct (push_one_ok N s2 w f (filter (λ x, x ∉ [f]) (blocked s2)) (Post b)) as (q' & E & Hq); rewrite ?Hpc2; try done;
    [by apply sinv_finv|].
  set (s3 := go (set_queues (unblock s2 [f]) q') w (WakeAdd 1 (Post b))).
  destruct (Hstep s2 (w, AWakeOne f) s3 Hi2) as [E3 Hi3].
  { unfold sched_step, worker_step. simpl fst. simpl snd. rewrite Hlt, Hpc2. simpl. rewrite Hm. unfold fev_wake_one. simpl in *. by rewrite E. }
  exists s3. unfold fev_yield. cbn [run]. rewrite E1. cbn [mbind option_bind]. rewrite E2. cbn [mbind option_bind]. rewrite E3.
  split; [done|]. split; [apply upd_eq|]. split; [done|]. split.
  - assert (Hx : f :: blocked s ≡ₚ f :: blocked s3) by exact Hp. by apply Permutation_cons_inv in Hx.
  - apply (push_one_in N s2 w f q' (sinv_finv N s2 Hi2) Hw); [apply list_elem_of_here|exact E].
Qed.
End properties.

(** ** Witnesses: two workers that steal, one fiber that blocks *)

Definition ex_queue : bsched fev_bounded_mpmc_queue :=
  let q := default (mk_mpmc [] 0 0 0) (fev_bounded_mpmc_queue_init (2 ^ 1)) in
  mk_bsched [mk_bworker q 1; mk_bworker q 2] [] 0.

#[local] Instance ex_sq : SchedQueue (bsched fev_bounded_mpmc_queue) := steal_mpmc 1 1 0.
#[local] Instance ex_spec : SchedQueueSpec (bsched fev_bounded_mpmc_queue) 2 :=
  steal_mpmc_spec 1 1 0 2 ltac:(lia) ltac:(lia).

Definition ex_start : sched (Q := bsched fev_bounded_mpmc_queue) :=
  default (sched_init ex_queue) (put_all (sched_init ex_queue) [7%positive]).

Definition ex_idle (w : nat) (n : nat) : list (nat * action) :=
  (w, APoll false []) :: replicate n (w, Tau).

Definition ex_schedule : list (nat * action) :=
  [(0, Tau); (0, ABlock); (0, Tau); (0, Tau)]%nat ++ ex_idle 0 9 ++ (1%nat, Tau) :: ex_idle 1 10.

Definition ex_sched : sched (Q := bsched fev_bounded_mpmc_queue) :=
  default ex_start (run (sched_next 2) ex_start ex_schedule).

Lemma ex_booted : booted 2 ex_queue ex_start.
Proof.
  split.
  - exists (mk_ac [[]; []] []). split; [|done].
    split; [done|]. split; [|done]. destruct (mpmc_init_ok 1 ltac:(lia)) as (q & E & Hr).
    unfold ex_queue. rewrite E. simpl. by repeat constructor.
  - exists [7%positive]. split; [apply NoDup_singleton|]. split; [simpl; lia|]. vm_compute. reflexivity.
Qed.

Lemma ex_sched_reach : reach (sched_next 2) ex_start ex_sched.
Proof. apply (run_reach _ _ ex_start ex_schedule); [constructor|]. vm_compute. reflexivity. Qed.

Lemma ex_asleep w : (w < 2)%nat → asleep ex_sched (pcs ex_sched w).
Proof. intros Hw. destruct w as [|[|w]]; [vm_compute; reflexivity..|lia]. Qed.

Lemma sched_never_faults_witness : sched_step 2 ex_sched (0%nat, APoll false [7%positive]) ≠ Fault.
Proof. apply (sched_never_faults 2 ex_queue ex_start); [lia|lia|apply ex_booted|apply ex_sched_reach]. Defined.

Lemma sched_keeps_fibers_witness : NoDup (alive ex_sched) ∧ num_fibers ex_sched = 1.
Proof.
  destruct (sched_keeps_fibers 2 ex_queue ex_start ex_sched) as (H1 & H2 & _);
    [lia|lia|apply ex_booted|apply ex_sched_reach|]. split; [exact H1|exact H2].
Defined.

Lemma ex_values :
  alive ex_sched = [7%positive] ∧ blocked ex_sched = [7%positive] ∧
  pcs ex_sched 0 = PollWait ∧ pcs ex_sched 1 = SemWait.
Proof. vm_compute. done. Qed.

Lemma sched_quiescence_witness :
  alive ex_sched ≡ₚ blocked ex_sched ∧ pcs ex_sched 0 = PollWait ∧ pcs ex_sched 1 = SemWait.
Proof.
  destruct (sched_quiescence 2 ex_queue ex_start ex_sched) as (_ & H);
    [lia|lia|apply ex_booted|apply ex_sched_reach|apply ex_asleep|].
  destruct ex_values as (Ea & _ & Ep). split; [|exact Ep].
  destruct H as [[E _]|[E _]]; [rewrite Ea in E; discriminate E|exact E].
Defined.
