(* ===== verification/Init.v ===== *)
(** Creation and destruction: the error paths of [fev_sched_init] and
    [fev_sched_create], of the epoll back end and the timers, of
    [fev_sched_run], and of the semaphore, mutex and condition variable.

    The state is the list of resources that are held. Whatever may fail asks
    the environment: the next of the [answers] is the return value, 0 for
    success. Releasing something that is not held (a double free, a close of a
    closed descriptor, a free through a pointer that was never assigned) is a
    fault. *)

From S2P Require Import Prelude.

Local Open Scope Z_scope.

(** ** Resources *)

Inductive res :=
| RSched | RWorkers | TWorkersPtr          (* [sched->workers] points to the array *)
| RRunQueue (i : nat) | RRunQueueLock (i : nat) | RSharedQueue | RNode | RQueueLock | RFallbackLock
| REpoll | RKqueue | REvent | RTimerFd (i : nat) | RIlock (i : nat) | RMinLock (i : nat)
| RSem | RStartSem | RThrs | RThr (i : nat) | TStartSemPtr
| TWaiting (i : nat)                       (* the thread waits for [start_sem] *)
| RObject | RWqLock | RArgs
| RRing (i : nat) | RSqRing (i : nat) | RCqRing (i : nat) | RSqes (i : nat) | REventFd (i : nat) | RWaiters
| RFiber | RStack | RFiberCond | RFiberMutex
| TCounted                                 (* the fiber is counted in [num_fibers] *)
| TScheduled (here : bool).                (* it is in a run queue, of the current worker or of another scheduler *)

#[export] Instance res_eq_dec : EqDecision res.
Proof. solve_decision. Defined.

Record rs := mk_rs { rheld : list res; answers : list Z }.

Definition M (A : Type) : Type := rs → option (A * rs).
Definition ret {A} (x : A) : M A := λ s, Some (x, s).
Definition bind {A B} (m : M A) (k : A → M B) : M B := λ s, '(x, s) ← m s; k x s.
Notation "x <- m ;; k" := (bind m (λ x, k)) (at level 100, m at next level, right associativity).
Notation "m ;;; k" := (bind m (λ _, k)) (at level 100, right associativity).

(** Ask the environment. *)
Definition ask : M Z := λ s,
  match answers s with
  | [] => Some (0, s)
  | e :: rest => Some (e, mk_rs (rheld s) rest)
  end.

Definition hold (r : res) : M unit := λ s, Some (tt, mk_rs (r :: rheld s) (answers s)).

Fixpoint remove_one (r : res) (l : list res) : list res :=
  match l with [] => [] | x :: l => if decide (x = r) then l else x :: remove_one r l end.

Definition release (r : res) : M unit := λ s,
  if decide (r ∈ rheld s) then Some (tt, mk_rs (remove_one r (rheld s)) (answers s)) else None.

Definition assert_that (b : bool) : M unit := λ s, FEV_ASSERT b; Some (tt, s).

(** An operation that fails or gives [r]. *)
Definition acquire (r : res) : M Z := e <- ask;; if e =? 0 then hold r;;; ret 0 else ret e.

(** An allocation. *)
Definition acquire_mem (r : res) : M Z := e <- acquire r;; if e =? 0 then ret 0 else ret (- ENOMEM).

(** [ret = m; if (ret != 0) goto fail; k], where the label after [fail] undoes [m]
    with [undo] if something of [k] fails. A chain of these is the usual chain of
    labels. *)
Definition guard (m : M Z) (undo : M unit) (k : M Z) : M Z :=
  e <- m;; if e =? 0 then (e <- k;; if e =? 0 then ret 0 else undo;;; ret e) else ret e.
Notation "'TRY' m 'UNDO' u ;; k" := (guard m u k) (at level 100, m at level 99, u at level 99, right associativity).

(** ** Loops *)

(** [for (i = 0; i < n; i++) fini(i)] and [while (n-- > 0) fini(n)]. *)
Fixpoint up (fini : nat → M unit) (i n : nat) : M unit :=
  match n with O => ret tt | S n => fini i;;; up fini (S i) n end.
Fixpoint down (fini : nat → M unit) (n : nat) : M unit :=
  match n with O => ret tt | S n => fini n;;; down fini n end.

(** [for (; n < n + todo; n++) { ret = init(n); if (ret != 0) goto fail; }]: the
    last [ret] and [n]. *)
Fixpoint each (init : nat → M Z) (n todo : nat) : M (Z * nat) :=
  match todo with
  | O => ret (0, n)
  | S todo => e <- init n;; if e =? 0 then each init (S n) todo else ret (e, n)
  end.

(** ** Timers *)

Definition FEV_TIMERS_BUCKETS : nat := 64.

(** The heap of a bucket is empty at first and freed by [fev_free]. *)
Definition fev_timers_bucket_init (i : nat) : M Z :=
  TRY acquire (RIlock i) UNDO release (RIlock i);; acquire (RMinLock i).

Definition fev_timers_bucket_fini (i : nat) : M unit := release (RMinLock i);;; release (RIlock i).

(** With the red-black tree there is no heap; the locks are the same. *)
Definition rbtree_bucket_init (i : nat) : M Z := fev_timers_bucket_init i.
Definition rbtree_bucket_fini (i : nat) : M unit := fev_timers_bucket_fini i.

Definition fev_timers_init : M Z :=
  r <- each fev_timers_bucket_init 0 FEV_TIMERS_BUCKETS;;
  if r.1 =? 0 then ret 0 else down fev_timers_bucket_fini r.2;;; ret r.1.

Definition fev_timers_fini : M unit := up fev_timers_bucket_fini 0 FEV_TIMERS_BUCKETS.

(** ** The epoll back end *)

Definition create_timer_fd (n : nat) : M Z :=
  e <- acquire (RTimerFd n);;
  if e =? 0 then (e <- ask;; if e =? 0 then ret 0 else release (RTimerFd n);;; ret e) else ret e.

Definition fev_poller_create_timer_fds : M Z :=
  r <- each create_timer_fd 0 FEV_TIMERS_BUCKETS;;
  if r.1 =? 0 then ret 0 else down (λ n, release (RTimerFd n)) r.2;;; ret r.1.

Definition fev_poller_init : M Z :=
  TRY acquire REpoll UNDO release REpoll;;
  TRY acquire REvent UNDO release REvent;;
  (e <- ask;; if e =? 0 then fev_poller_create_timer_fds else ret e).

(** The sockets that are left, which [fev_poller_free_remaining_sockets] frees first,
    are in the file [Qsbr]. *)
Definition fev_poller_fini : M unit :=
  up (λ n, release (RTimerFd n)) 0 FEV_TIMERS_BUCKETS;;; release REvent;;; release REpoll.

(** ** Schedulers *)

Section sched.
Context (num_workers : nat).

(** *** Work stealing with bounded queues *)

Definition steal_init_workers : M Z :=
  assert_that (0 <? num_workers)%nat;;;
  e <- acquire RWorkers;;
  if e =? 0 then
    (r <- each (λ n, acquire (RRunQueue n)) 0 num_workers;;
     if r.1 =? 0 then hold TWorkersPtr;;; ret 0
     else up (λ n, release (RRunQueue n)) 0 r.2;;; release RWorkers;;; ret r.1)
  else ret (- ENOMEM).

(** [fev_aligned_free(sched->workers)]. *)
Definition free_sched_workers : M unit := release TWorkersPtr;;; release RWorkers.

Definition steal_fini_workers : M unit :=
  up (λ n, release (RRunQueue n)) 0 num_workers;;; free_sched_workers.

Definition steal_mpmc_init : M Z :=
  TRY steal_init_workers UNDO steal_fini_workers;;
  TRY fev_poller_init UNDO fev_poller_fini;;
  TRY fev_timers_init UNDO fev_timers_fini;;
  TRY acquire RSem UNDO release RSem;;
  acquire RFallbackLock.

Definition steal_mpmc_fini : M unit :=
  release RFallbackLock;;; release RSem;;; fev_timers_fini;;; fev_poller_fini;;; steal_fini_workers.

(** The functions of the single-producer variant are the same. *)
Definition steal_spmc_init_workers : M Z := steal_init_workers.
Definition steal_spmc_fini_workers : M unit := steal_fini_workers.
Definition steal_spmc_init : M Z :=
  TRY steal_spmc_init_workers UNDO steal_spmc_fini_workers;;
  TRY fev_poller_init UNDO fev_poller_fini;;
  TRY fev_timers_init UNDO fev_timers_fini;;
  TRY acquire RSem UNDO release RSem;;
  acquire RFallbackLock.
Definition steal_spmc_fini : M unit :=
  release RFallbackLock;;; release RSem;;; fev_timers_fini;;; fev_poller_fini;;; steal_spmc_fini_workers.

(** *** Work stealing with locked queues *)

(** On failure the array is freed through [sched->workers], not [workers]. *)
Definition locking_init_workers : M Z :=
  assert_that (0 <? num_workers)%nat;;;
  e <- acquire RWorkers;;
  if e =? 0 then
    (r <- each (λ n, acquire (RRunQueueLock n)) 0 num_workers;;
     if r.1 =? 0 then hold TWorkersPtr;;; ret 0
     else down (λ n, release (RRunQueueLock n)) r.2;;; free_sched_workers;;; ret r.1)
  else ret (- ENOMEM).

Definition locking_fini_workers : M unit :=
  up (λ n, release (RRunQueueLock n)) 0 num_workers;;; free_sched_workers.

Definition steal_locking_init : M Z :=
  TRY locking_init_workers UNDO locking_fini_workers;;
  TRY fev_poller_init UNDO fev_poller_fini;;
  TRY fev_timers_init UNDO fev_timers_fini;;
  acquire RSem.

Definition steal_locking_fini : M unit :=
  release RSem;;; fev_timers_fini;;; fev_poller_fini;;; locking_fini_workers.

(** *** Work sharing *)

Definition shr_init_workers : M Z :=
  assert_that (0 <? num_workers)%nat;;;
  e <- acquire RWorkers;;
  if e =? 0 then hold TWorkersPtr;;; ret 0 else ret (- ENOMEM).

Definition shr_mpmc_init : M Z :=
  TRY shr_init_workers UNDO free_sched_workers;;
  TRY fev_poller_init UNDO fev_poller_fini;;
  TRY fev_timers_init UNDO fev_timers_fini;;
  TRY acquire RSem UNDO release RSem;;
  TRY acquire RSharedQueue UNDO release RSharedQueue;;
  acquire RFallbackLock.

Definition shr_mpmc_fini : M unit :=
  release RFallbackLock;;; release RSharedQueue;;; release RSem;;; fev_timers_fini;;; fev_poller_fini;;;
  free_sched_workers.

Definition shr_locking_init_workers : M Z := shr_init_workers.

Definition shr_locking_init : M Z :=
  TRY shr_locking_init_workers UNDO free_sched_workers;;
  TRY fev_poller_init UNDO fev_poller_fini;;
  TRY fev_timers_init UNDO fev_timers_fini;;
  TRY acquire RSem UNDO release RSem;;
  acquire RQueueLock.

Definition shr_locking_fini : M unit :=
  release RQueueLock;;; release RSem;;; fev_timers_fini;;; fev_poller_fini;;; free_sched_workers.

(** The scheduler with the lock-free queue: the queue, its first node, which comes from the
    pool and goes back to it, the workers. Their pools are empty at first; what [fev_sched_fini]
    does with the elements of the pools is in the file [SimplePool]. *)
Definition shr_simple_init_workers : M Z := shr_init_workers.

Definition shr_simple_init : M Z :=
  TRY acquire_mem RSharedQueue UNDO release RSharedQueue;;
  TRY acquire_mem RNode UNDO release RNode;;
  TRY shr_simple_init_workers UNDO free_sched_workers;;
  TRY fev_poller_init UNDO fev_poller_fini;;
  TRY fev_timers_init UNDO fev_timers_fini;;
  acquire RSem.

Definition shr_simple_fini : M unit :=
  release RSem;;; fev_timers_fini;;; fev_poller_fini;;; free_sched_workers;;; release RNode;;; release RSharedQueue.

(** *** [fev_sched_run]

    A new thread waits for [start_sem] until it is let in by a post or cancelled
    (there are as many posts as threads, so which post lets in which thread does
    not matter); to join a thread that still waits would block for ever. [work]
    is what the workers do. *)
Definition fev_thr_create (n : nat) : M Z :=
  e <- acquire (RThr n);; if e =? 0 then hold (TWaiting n);;; ret 0 else ret e.
Definition fev_thr_join (n : nat) : M unit := λ s,
  FEV_ASSERT (negb (bool_decide (TWaiting n ∈ rheld s))); release (RThr n) s.
Definition fev_thr_cancel (n : nat) : M unit := release (TWaiting n).
Definition fev_thr_sem_post (n : nat) : M unit := release (TWaiting n).

Definition fev_sched_run (work : M unit) : M Z :=
  assert_that (0 <? num_workers)%nat;;;
  e <- acquire RStartSem;;
  if e =? 0 then
    (hold TStartSemPtr;;;
     e <- acquire RThrs;;
     e <- (if e =? 0 then
             (r <- each fev_thr_create 1 (num_workers - 1);;
              (if r.1 =? 0 then up fev_thr_sem_post 1 (num_workers - 1);;; work else up fev_thr_cancel 1 (r.2 - 1));;;
              up fev_thr_join 1 (r.2 - 1);;;
              release RThrs;;; ret r.1)
           else ret (- ENOMEM));;
     release RStartSem;;; release TStartSemPtr;;; ret e)
  else ret e.
End sched.

(** *** [fev_sched_create], [fev_sched_destroy]

    [init] is [fev_sched_init] of one of the schedulers, [n] the number of workers
    of the attribute, [num_processors] what [fev_get_num_processors] returns. *)
Definition sched_num_workers (n num_processors : nat) : nat := if (n =? 0)%nat then num_processors else n.

Definition fev_sched_create (init : nat → M Z) (n num_processors : nat) : M Z :=
  e <- acquire RSched;;
  if e =? 0 then
    (e <- init (sched_num_workers n num_processors);;
     if e =? 0 then ret 0 else release RSched;;; ret e)
  else ret (- ENOMEM).

Definition fev_sched_destroy (fini : M unit) : M unit := fini;;; release RSched.

(** ** Semaphore, mutex, condition variable *)

Definition fev_ilock_init : M Z := acquire RWqLock.
Definition fev_ilock_fini : M unit := release RWqLock.

Definition fev_waiters_queue_init : M Z :=
  e <- fev_ilock_init;; if e =? 0 then ret 0 else ret e.
Definition fev_waiters_queue_fini : M unit := fev_ilock_fini.

Definition create_object (init : M Z) : M Z :=
  e <- acquire RObject;;
  if e =? 0 then (e <- init;; if e =? 0 then ret 0 else release RObject;;; ret e) else ret (- ENOMEM).

Definition fev_sem_create : M Z := create_object fev_waiters_queue_init.
Definition fev_sem_destroy : M unit := fev_waiters_queue_fini;;; release RObject.
Definition fev_mutex_create : M Z := create_object fev_waiters_queue_init.
Definition fev_mutex_destroy : M unit := fev_waiters_queue_fini;;; release RObject.
Definition fev_cond_create : M Z := create_object fev_waiters_queue_init.
Definition fev_cond_destroy : M unit := fev_waiters_queue_fini;;; release RObject.

(** ** Specifications *)

(** [m] succeeds and then holds [R], or fails and holds nothing new. *)
Definition acquires (m : M Z) (R : list res) : Prop :=
  ∀ s h, rheld s ≡ₚ h → ∃ e s', m s = Some (e, s') ∧ rheld s' ≡ₚ if e =? 0 then R ++ h else h.

(** [m] gives [R] back. *)
Definition releases (m : M unit) (R : list res) : Prop :=
  ∀ s h, rheld s ≡ₚ R ++ h → ∃ s', m s = Some (tt, s') ∧ rheld s' ≡ₚ h.

Lemma remove_one_perm r l h : l ≡ₚ r :: h → remove_one r l ≡ₚ h.
Proof.
  intros Hp. assert (Hin : r ∈ l) by (rewrite Hp; apply list_elem_of_here).
  apply (Permutation_cons_inv (a := r)). rewrite <- Hp. clear Hp h.
  induction l as [|x l IH]; simpl; [by apply not_elem_of_nil in Hin|]. destruct (decide (x = r)) as [->|Hne]; [done|].
  rewrite Permutation_swap. f_equiv. apply IH. by apply elem_of_cons in Hin as [->|].
Qed.

Lemma releases_release r : releases (release r) [r].
Proof.
  intros s h Hp. simpl in Hp. unfold release. rewrite decide_True by (rewrite Hp; apply list_elem_of_here).
  eexists. split; [done|]. simpl. by apply remove_one_perm.
Qed.

Lemma releases_nil : releases (ret tt) [].
Proof. intros s h Hp. by exists s. Qed.

Lemma releases_seq m1 m2 R1 R2 : releases m1 R1 → releases m2 R2 → releases (m1;;; m2) (R1 ++ R2).
Proof.
  intros H1 H2 s h Hp. rewrite <- app_assoc in Hp. destruct (H1 s _ Hp) as (s1 & E1 & Hp1).
  destruct (H2 s1 h Hp1) as (s2 & E2 & Hp2). exists s2. split; [|done].
  unfold bind. by rewrite E1; simpl; rewrite E2.
Qed.

Lemma releases_perm m R R' : R ≡ₚ R' → releases m R → releases m R'.
Proof. intros HR H s h Hp. apply H. by rewrite Hp, HR. Qed.

Lemma acquires_perm m R R' : R ≡ₚ R' → acquires m R → acquires m R'.
Proof.
  intros HR H s h Hp. destruct (H s h Hp) as (e & s' & E & Hp'). exists e, s'. split; [done|].
  rewrite Hp'. destruct (e =? 0); [by rewrite HR|done].
Qed.

Lemma ask_ok s : ∃ e s', ask s = Some (e, s') ∧ rheld s' = rheld s.
Proof. unfold ask. destruct (answers s); eauto. Qed.

Lemma acquires_acquire r : acquires (acquire r) [r].
Proof.
  intros s h Hp. unfold acquire, bind. destruct (ask_ok s) as (e & s' & -> & Hs). simpl.
  destruct (e =? 0) eqn:E; eexists _, _; (split; [done|]); simpl; rewrite ?E; [|by rewrite Hs].
  simpl. by rewrite Hs, Hp.
Qed.

Lemma acquires_mem r : acquires (acquire_mem r) [r].
Proof.
  intros s h Hp. destruct (acquires_acquire r s h Hp) as (e & s' & E & Hp'). unfold acquire_mem, bind. rewrite E. simpl.
  destruct (e =? 0) eqn:Ee; [by exists 0, s'|by exists (- ENOMEM), s'].
Qed.

Lemma acquires_guard m u k R K :
  acquires m R → releases u R → acquires k K → acquires (guard m u k) (K ++ R).
Proof.
  intros Hm Hu Hk s h Hp. destruct (Hm s h Hp) as (e & s1 & E1 & Hp1). unfold guard, bind. rewrite E1. simpl.
  destruct (e =? 0) eqn:Ee; [|exists e, s1; by rewrite Ee].
  destruct (Hk s1 _ Hp1) as (e2 & s2 & E2 & Hp2). rewrite E2. simpl.
  destruct (e2 =? 0) eqn:Ee2.
  - exists 0, s2. split; [done|]. simpl. by rewrite Hp2, app_assoc.
  - destruct (Hu s2 _ Hp2) as (s3 & E3 & Hp3). rewrite E3. simpl. exists e2, s3. by rewrite Ee2.
Qed.

Definition block (R : nat → list res) (i n : nat) : list res := concat (map R (seq i n)).

Lemma each_ok init R n todo s h :
  (∀ i, acquires (init i) (R i)) → rheld s ≡ₚ h →
  ∃ e m s', each init n todo s = Some ((e, n + m)%nat, s') ∧ rheld s' ≡ₚ block R n m ++ h ∧
            (e = 0 → m = todo).
Proof.
  intros Hi. revert n s h. induction todo as [|todo IH]; intros n s h Hp; simpl.
  - exists 0, 0%nat, s. by rewrite Nat.add_0_r.
  - destruct (Hi n s h Hp) as (e & s1 & E1 & Hp1). unfold bind. rewrite E1. simpl.
    destruct (e =? 0) eqn:Ee.
    + destruct (IH (S n) s1 _ Hp1) as (e2 & m & s2 & E2 & Hp2 & H2). exists e2, (S m), s2.
      rewrite E2. replace (n + S m)%nat with (S n + m)%nat by lia. split; [done|]. split; [|intros E; rewrite H2; done].
      rewrite Hp2. unfold block. simpl. rewrite app_assoc. f_equiv. apply Permutation_app_comm.
    + exists e, 0%nat, s1. rewrite Nat.add_0_r. split; [done|]. split; [done|].
      intros ->. discriminate.
Qed.

Lemma releases_up fini R i n : (∀ i, releases (fini i) (R i)) → releases (up fini i n) (block R i n).
Proof.
  intros Hf. revert i. induction n as [|n IH]; intros i; simpl; [apply releases_nil|].
  unfold block. simpl. apply releases_seq; [apply Hf|apply IH].
Qed.

Lemma releases_down fini R n : (∀ i, releases (fini i) (R i)) → releases (down fini n) (block R 0 n).
Proof.
  intros Hf. induction n as [|n IH]; simpl; [apply releases_nil|].
  eapply releases_perm; [|apply releases_seq; [apply Hf|apply IH]].
  unfold block. rewrite seq_S, map_app, concat_app. simpl. rewrite app_nil_r. apply Permutation_app_comm.
Qed.

(** An array of objects, with a clean-up of those that were initialised. *)
Lemma acquires_array init R undo n :
  (∀ i, acquires (init i) (R i)) → (∀ m, releases (undo m) (block R 0 m)) →
  acquires (r <- each init 0 n;; if r.1 =? 0 then ret 0 else undo r.2;;; ret r.1) (block R 0 n).
Proof.
  intros Hi Hu s h Hp. destruct (each_ok init R 0 n s h Hi Hp) as (e & m & s1 & E1 & Hp1 & Hm).
  unfold bind at 1. rewrite E1. simpl. destruct (e =? 0) eqn:Ee.
  - apply Z.eqb_eq in Ee. subst e. rewrite Hm in Hp1 by done. exists 0, s1. done.
  - destruct (Hu m s1 h Hp1) as (s2 & E2 & Hp2). exists e, s2. unfold bind. simpl in E2. rewrite E2. simpl. by rewrite Ee.
Qed.

#[local] Hint Resolve releases_release acquires_acquire acquires_mem releases_nil : fev.

(** *** Timers and poller *)

Definition timers_res : list res := block (λ i, [RMinLock i; RIlock i]) 0 FEV_TIMERS_BUCKETS.
Definition poller_res : list res := (block (λ i, [RTimerFd i]) 0 FEV_TIMERS_BUCKETS ++ [REvent]) ++ [REpoll].

Lemma releases_bucket i : releases (fev_timers_bucket_fini i) [RMinLock i; RIlock i].
Proof. apply (releases_seq _ _ [RMinLock i]); auto with fev. Qed.

Lemma acquires_timers : acquires fev_timers_init timers_res.
Proof.
  apply acquires_array.
  - intros i. apply (acquires_guard _ _ _ [RIlock i] [RMinLock i]); auto with fev.
  - intros m. apply releases_down. apply releases_bucket.
Qed.

Lemma releases_timers : releases fev_timers_fini timers_res.
Proof. apply releases_up. apply releases_bucket. Qed.

Lemma acquires_ask : acquires ask [].
Proof.
  intros s h Hp. destruct (ask_ok s) as (e & s' & -> & Hs). exists e, s'. split; [done|]. rewrite Hs, Hp.
  by destruct (e =? 0).
Qed.

Lemma acquires_timer_fds : acquires fev_poller_create_timer_fds (block (λ i, [RTimerFd i]) 0 FEV_TIMERS_BUCKETS).
Proof.
  apply acquires_array.
  - intros i. apply (acquires_guard _ (release (RTimerFd i)) ask [RTimerFd i] []); auto using acquires_ask with fev.
  - intros m. apply releases_down. auto with fev.
Qed.

(** [m], then [k]: nothing of [m] has to be undone. *)
Lemma acquires_then m k K : acquires m [] → acquires k K → acquires (e <- m;; if e =? 0 then k else ret e) K.
Proof.
  intros Hm Hk s h Hp. destruct (Hm s h Hp) as (e & s1 & E1 & Hp1). unfold bind. rewrite E1. simpl.
  destruct (e =? 0) eqn:Ee; [|exists e, s1; by rewrite Ee]. by apply Hk.
Qed.

Lemma acquires_poller : acquires fev_poller_init poller_res.
Proof.
  apply acquires_guard; [auto with fev..|]. apply acquires_guard; [auto with fev..|].
  apply acquires_then; [apply acquires_ask|apply acquires_timer_fds].
Qed.

Lemma releases_poller : releases fev_poller_fini poller_res.
Proof.
  unfold poller_res. rewrite <- app_assoc. apply releases_seq; [apply releases_up; auto with fev|].
  apply releases_seq; auto with fev.
Qed.

#[local] Hint Resolve acquires_timers releases_timers acquires_poller releases_poller : fev.

(** *** Workers *)

Section workers.
Context (N : nat) (HN : (0 < N)%nat).

Lemma assert_workers {A} (m : M A) : (assert_that (0 <? N)%nat;;; m) = λ s, m s.
Proof using HN. unfold assert_that, bind. by rewrite (proj2 (Nat.ltb_lt 0 N) HN). Qed.

Definition workers_res (R : nat → list res) : list res := (block R 0 N ++ [TWorkersPtr]) ++ [RWorkers].

Lemma releases_ptr : releases free_sched_workers ([TWorkersPtr] ++ [RWorkers]).
Proof. apply releases_seq; auto with fev. Qed.

Lemma releases_workers fini R : (∀ i, releases (fini i) (R i)) →
  releases (up fini 0 N;;; free_sched_workers) (workers_res R).
Proof.
  intros Hf. unfold workers_res. rewrite <- app_assoc.
  apply releases_seq; [by apply releases_up|apply releases_ptr].
Qed.

Lemma acquires_workers init undo R :
  (∀ i, acquires (init i) (R i)) → (∀ m, releases (undo m) (block R 0 m)) →
  acquires (assert_that (0 <? N)%nat;;;
            e <- acquire RWorkers;;
            if e =? 0 then
              (r <- each init 0 N;;
               if r.1 =? 0 then hold TWorkersPtr;;; ret 0 else undo r.2;;; release RWorkers;;; ret r.1)
            else ret (- ENOMEM)) (workers_res R).
Proof using HN.
  intros Hi Hu. rewrite assert_workers. intros s h Hp.
  destruct (acquires_acquire RWorkers s h Hp) as (e & s1 & E1 & Hp1). unfold bind at 1. rewrite E1. simpl.
  destruct (e =? 0) eqn:Ee; [|by exists (- ENOMEM), s1].
  destruct (each_ok init R 0 N s1 _ Hi Hp1) as (e2 & m & s2 & E2 & Hp2 & Hm). unfold bind at 1. rewrite E2. simpl.
  destruct (e2 =? 0) eqn:Ee2.
  - apply Z.eqb_eq in Ee2. subst e2. rewrite Hm in Hp2 by done. eexists 0, _. split; [done|]. simpl.
    rewrite Hp2. unfold workers_res. solve_Permutation.
  - destruct (Hu m s2 _ Hp2) as (s3 & E3 & Hp3). unfold bind at 1. simpl in E3. rewrite E3. simpl.
    destruct (releases_release RWorkers s3 h Hp3) as (s4 & E4 & Hp4). unfold bind. rewrite E4. exists e2, s4.
    simpl. by rewrite Ee2.
Qed.

Lemma acquires_plain_workers : acquires (shr_init_workers N) ([TWorkersPtr] ++ [RWorkers]).
Proof using HN.
  unfold shr_init_workers. rewrite assert_workers. intros s h Hp.
  destruct (acquires_acquire RWorkers s h Hp) as (e & s1 & E1 & Hp1). unfold bind at 1. rewrite E1. simpl.
  destruct (e =? 0) eqn:Ee; [|by exists (- ENOMEM), s1]. eexists 0, _. split; [done|]. simpl. by rewrite Hp1.
Qed.

Lemma acquires_bounded_workers : acquires (steal_init_workers N) (workers_res (λ i, [RRunQueue i])).
Proof using HN.
  apply (acquires_workers (λ n, acquire (RRunQueue n)) (up (λ n, release (RRunQueue n)) 0)); [auto with fev|].
  intros m. apply releases_up. auto with fev.
Qed.

Lemma releases_bounded_workers : releases (steal_fini_workers N) (workers_res (λ i, [RRunQueue i])).
Proof. apply releases_workers. auto with fev. Qed.

(** *** Schedulers *)

Definition steal_bounded_res : list res :=
  ((([RFallbackLock] ++ [RSem]) ++ timers_res) ++ poller_res) ++ workers_res (λ i, [RRunQueue i]).
Definition shr_mpmc_res : list res :=
  (((([RFallbackLock] ++ [RSharedQueue]) ++ [RSem]) ++ timers_res) ++ poller_res) ++ [TWorkersPtr] ++ [RWorkers].
Definition shr_locking_res : list res :=
  ((([RQueueLock] ++ [RSem]) ++ timers_res) ++ poller_res) ++ [TWorkersPtr] ++ [RWorkers].
Definition shr_simple_res : list res :=
  (((([RSem] ++ timers_res) ++ poller_res) ++ [TWorkersPtr] ++ [RWorkers]) ++ [RNode]) ++ [RSharedQueue].

Ltac chain := repeat (apply acquires_guard; [solve [eauto using acquires_bounded_workers, acquires_plain_workers with fev]|
                        solve [eauto using releases_bounded_workers, releases_ptr with fev]|]); auto with fev.
Ltac unchain := rewrite <- ?app_assoc; repeat (apply releases_seq; [solve [auto with fev]|]);
  auto using releases_bounded_workers, releases_ptr with fev.

Lemma acquires_steal_bounded : acquires (steal_mpmc_init N) steal_bounded_res.
Proof using HN. unfold steal_mpmc_init, steal_bounded_res. chain. Qed.
Lemma releases_steal_bounded : releases (steal_mpmc_fini N) steal_bounded_res.
Proof. unfold steal_mpmc_fini, steal_bounded_res. unchain. Qed.
Lemma acquires_shr_mpmc : acquires (shr_mpmc_init N) shr_mpmc_res.
Proof using HN. unfold shr_mpmc_init, shr_mpmc_res. chain. Qed.
Lemma releases_shr_mpmc : releases shr_mpmc_fini shr_mpmc_res.
Proof. unfold shr_mpmc_fini, shr_mpmc_res. unchain. Qed.
Lemma acquires_shr_locking : acquires (shr_locking_init N) shr_locking_res.
Proof using HN. unfold shr_locking_init, shr_locking_res, shr_locking_init_workers. chain. Qed.
Lemma releases_shr_locking : releases shr_locking_fini shr_locking_res.
Proof. unfold shr_locking_fini, shr_locking_res. unchain. Qed.

Lemma acquires_shr_simple : acquires (shr_simple_init N) shr_simple_res.
Proof using HN. unfold shr_simple_init, shr_simple_res, shr_simple_init_workers. chain. Qed.
Lemma releases_shr_simple : releases shr_simple_fini shr_simple_res.
Proof.
  unfold shr_simple_fini, shr_simple_res. rewrite <- !app_assoc. do 3 (apply releases_seq; [solve [auto with fev]|]).
  rewrite app_assoc. apply releases_seq; [apply releases_ptr|]. unchain.
Qed.

Lemma releases_destroy fini R : releases fini R → releases (fev_sched_destroy fini) (R ++ [RSched]).
Proof. intros Hf. apply releases_seq; auto with fev. Qed.
End workers.

Lemma acquires_create init R n np : acquires (init (sched_num_workers n np)) R → acquires (fev_sched_create init n np) (R ++ [RSched]).
Proof.
  intros Hi s h Hp. destruct (acquires_acquire RSched s h Hp) as (e & s1 & E1 & Hp1).
  unfold fev_sched_create, bind at 1. rewrite E1. simpl. destruct (e =? 0) eqn:Ee; [|by exists (- ENOMEM), s1].
  destruct (Hi s1 _ Hp1) as (e2 & s2 & E2 & Hp2). unfold bind at 1. rewrite E2. simpl. destruct (e2 =? 0) eqn:Ee2.
  - exists 0, s2. split; [done|]. simpl. by rewrite Hp2, <- app_assoc.
  - destruct (releases_release RSched s2 h Hp2) as (s3 & E3 & Hp3). unfold bind. rewrite E3. exists e2, s3.
    simpl. by rewrite Ee2.
Qed.

(** *** Objects and threads *)

Lemma acquires_object init R : acquires init R → acquires (create_object init) (R ++ [RObject]).
Proof.
  intros Hi s h Hp. destruct (acquires_acquire RObject s h Hp) as (e & s1 & E1 & Hp1).
  unfold create_object, bind at 1. rewrite E1. simpl. destruct (e =? 0) eqn:Ee; [|by exists (- ENOMEM), s1].
  destruct (Hi s1 _ Hp1) as (e2 & s2 & E2 & Hp2). unfold bind at 1. rewrite E2. simpl. destruct (e2 =? 0) eqn:Ee2.
  - exists 0, s2. split; [done|]. simpl. by rewrite Hp2, <- app_assoc.
  - destruct (releases_release RObject s2 h Hp2) as (s3 & E3 & Hp3). unfold bind. rewrite E3. exists e2, s3.
    simpl. by rewrite Ee2.
Qed.

Lemma acquires_waiters_queue : acquires fev_waiters_queue_init [RWqLock].
Proof.
  intros s h Hp. destruct (acquires_acquire RWqLock s h Hp) as (e & s' & E & Hp'). unfold fev_waiters_queue_init, fev_ilock_init, bind.
  rewrite E. simpl. destruct (e =? 0) eqn:Ee; [by exists 0, s'|]. exists e, s'. by rewrite Ee.
Qed.

(** What the worker threads do while [fev_sched_run] runs gives back what it takes. *)
Definition neutral (m : M unit) : Prop := ∀ s h, rheld s ≡ₚ h → ∃ s', m s = Some (tt, s') ∧ rheld s' ≡ₚ h.

Lemma block_pair i n : block (λ n, [TWaiting n; RThr n]) i n ≡ₚ block (λ n, [TWaiting n]) i n ++ block (λ n, [RThr n]) i n.
Proof.
  unfold block. revert i. induction n as [|n IH]; intros i; simpl; [done|].
  rewrite IH. rewrite <- Permutation_middle. done.
Qed.

Lemma no_waiting_thr i n k : TWaiting k ∉ block (λ n, [RThr n]) i n.
Proof.
  unfold block. revert i. induction n as [|n IH]; intros i; simpl; [apply not_elem_of_nil|].
  rewrite elem_of_cons. intros [|Hin]; [done|]. by apply (IH (S i)).
Qed.

Lemma acquires_thr_create n : acquires (fev_thr_create n) [TWaiting n; RThr n].
Proof.
  intros s h Hp. destruct (acquires_acquire (RThr n) s h Hp) as (e & s1 & E1 & Hp1).
  unfold fev_thr_create, bind. rewrite E1. simpl. destruct (e =? 0) eqn:Ee; [|exists e, s1; by rewrite Ee].
  eexists 0, _. split; [done|]. simpl. by rewrite Hp1.
Qed.

Lemma joins_ok i n s h :
  (∀ k, TWaiting k ∉ h) → rheld s ≡ₚ block (λ n, [RThr n]) i n ++ h →
  ∃ s', up fev_thr_join i n s = Some (tt, s') ∧ rheld s' ≡ₚ h.
Proof.
  intros Hh. revert i s. induction n as [|n IH]; intros i s Hp; [by exists s|].
  destruct (releases_release (RThr i) s (block (λ n, [RThr n]) (S i) n ++ h) Hp) as (s1 & E1 & Hp1).
  assert (E : fev_thr_join i s = Some (tt, s1)).
  { unfold fev_thr_join. rewrite bool_decide_eq_false_2; [done|].
    rewrite Hp, elem_of_app. intros [Hin|Hin]; [by apply no_waiting_thr in Hin|by apply Hh in Hin]. }
  cbn [up]. unfold bind. rewrite E. simpl. by apply IH.
Qed.

Lemma run_threads_ok N work s h :
  neutral work → (∀ k, TWaiting k ∉ h) → rheld s ≡ₚ RThrs :: h →
  ∃ e s', (r <- each fev_thr_create 1 N;;
           (if r.1 =? 0 then up fev_thr_sem_post 1 N;;; work else up fev_thr_cancel 1 (r.2 - 1));;;
           up fev_thr_join 1 (r.2 - 1);;;
           release RThrs;;; ret r.1) s = Some (e, s') ∧ rheld s' ≡ₚ h.
Proof.
  intros Hw Hh Hp.
  destruct (each_ok _ _ 1 N s _ acquires_thr_create Hp) as (e & m & s1 & E1 & Hp1 & Hm).
  rewrite block_pair, <- app_assoc in Hp1. unfold bind at 1. rewrite E1. simpl.
  rewrite Nat.sub_0_r.
  assert (Hr : ∀ n, releases (release (TWaiting n)) [TWaiting n]) by (intros n; apply releases_release).
  destruct (releases_up _ _ 1 m Hr s1 _ Hp1) as (s2 & E2 & Hp2).
  assert (∃ s3, (if e =? 0 then up fev_thr_sem_post 1 N;;; work else up fev_thr_cancel 1 m) s1 = Some (tt, s3) ∧
                rheld s3 ≡ₚ block (λ n, [RThr n]) 1 m ++ RThrs :: h) as (s3 & E3 & Hp3).
  { destruct (e =? 0) eqn:Ee; [|by exists s2]. apply Z.eqb_eq in Ee. rewrite Hm in E2, Hp2 |- * by done.
    unfold bind. unfold fev_thr_sem_post. setoid_rewrite E2. by apply Hw. }
  unfold bind at 1. rewrite E3. simpl.
  destruct (joins_ok 1 m s3 (RThrs :: h)) as (s4 & E4 & Hp4); [|done|].
  { intros k. rewrite elem_of_cons. intros [|Hin]; [done|by apply Hh in Hin]. }
  unfold bind at 1. rewrite E4. simpl. destruct (releases_release RThrs s4 h Hp4) as (s5 & E5 & Hp5).
  unfold bind. rewrite E5. simpl. eauto.
Qed.

Lemma run_ok N work s h :
  (0 < N)%nat → neutral work → (∀ k, TWaiting k ∉ h) → rheld s ≡ₚ h →
  ∃ e s', fev_sched_run N work s = Some (e, s') ∧ rheld s' ≡ₚ h.
Proof.
  intros HN Hw Hh Hp. unfold fev_sched_run. rewrite (assert_workers N HN).
  destruct (acquires_acquire RStartSem s h Hp) as (e & s1 & E1 & Hp1). unfold bind at 1. rewrite E1. simpl.
  destruct (e =? 0) eqn:Ee; [|by exists e, s1]. unfold bind at 1. simpl.
  set (s2 := mk_rs (TStartSemPtr :: rheld s1) (answers s1)).
  assert (Hp2 : rheld s2 ≡ₚ [RStartSem] ++ [TStartSemPtr] ++ h).
  { simpl. rewrite Hp1. simpl. constructor. }
  assert (Hend : ∀ (e4 : Z) (s4 : rs), rheld s4 ≡ₚ [RStartSem] ++ [TStartSemPtr] ++ h →
            ∃ s', bind (release RStartSem) (λ _, bind (release TStartSemPtr) (λ _, ret e4)) s4 = Some (e4, s') ∧ rheld s' ≡ₚ h).
  { intros e4 s4 Hp4. destruct (releases_release RStartSem s4 _ Hp4) as (s5 & E5 & Hp5).
    destruct (releases_release TStartSemPtr s5 _ Hp5) as (s6 & E6 & Hp6). exists s6.
    unfold bind. rewrite E5. simpl. rewrite E6. done. }
  destruct (acquires_acquire RThrs s2 _ Hp2) as (e3 & s3 & E3 & Hp3). unfold bind at 1. rewrite E3. simpl.
  destruct (e3 =? 0) eqn:Ee3.
  - destruct (run_threads_ok (N - 1) work s3 ([RStartSem] ++ [TStartSemPtr] ++ h) Hw) as (e4 & s4 & E4 & Hp4);
      [set_solver|exact Hp3|]. unfold bind at 1. rewrite E4. simpl. destruct (Hend e4 s4 Hp4) as (s' & -> & Hp'). eauto.
  - unfold bind at 1. simpl. destruct (Hend (- ENOMEM) s3 Hp3) as (s' & -> & Hp'). eauto.
Qed.

(** ** Properties *)



(** The exception is the work-stealing scheduler with locked queues: when the
    lock of a run queue cannot be created, [fev_sched_init_workers] frees the
    array through [sched->workers], which has not been assigned. *)
Theorem steal_locking_frees_unassigned :
  fev_sched_create steal_locking_init 2 8 (mk_rs [] [0; 0; 0; -24]) = None.
Proof. vm_compute. reflexivity. Qed.
