(* ===== verification/Qsbr.v ===== *)
(** Quiescent-state-based reclamation of sockets: [src/src/fev_qsbr.h] and
    [src/src/fev_poller_reactor.c], as a step system of [num_threads] workers.

    A worker that closes a socket hands it to [fev_poller_free_socket]; the other
    workers may still use it until they go through [fev_poller_quiescent]. A step
    is one access to the shared state. The set [limbo] is not part of the code: it
    records, for every socket that was handed over and not freed yet, the workers
    that may still use it. Freeing a socket that is not in limbo, or that somebody
    may still use, is undefined. Addresses may be used again once freed, so the
    compare-and-swap operations see the ABA problem if there is one. *)

From S2P Require Import Prelude.
From stdpp Require Import fin_sets.

Local Open Scope Z_scope.

Definition FEV_POLLER_WAKE_ALL_THRESHOLD : Z := 64.
Definition FEV_POLLER_WAKE_ALL_STEP : Z := 32.

(** Program counter of a worker. [ep] is the local variable [epoch], [tf] is
    [to_free], [new] is [new_to_free1]. *)
Inductive qpc :=
| QRun
(* [fev_qsbr_free] *)
| FStart (e : loc)      (* before the compare-and-swap of [to_free1] *)
| FLoad                 (* it succeeded: before the load of [epoch] *)
| FSetRem (ep : Z)      (* before the store to [num_remaining] *)
| FSetEpoch (ep : Z)    (* before the store to [epoch] *)
| GLoad (e : loc)       (* it failed: before the load of [to_free2] *)
| GCas (e : loc)        (* before the compare-and-swap of [to_free2] *)
| FCount                (* [fev_poller_free_socket]: before counting the socket *)
(* [fev_qsbr_quiescent] *)
| QLoad                 (* before the load of [epoch] *)
| QSub (ep : Z)         (* before the subtraction from [num_remaining] *)
| QTf1 (ep : Z)         (* the last worker: before the load of [to_free1] *)
| QTf2 (ep : Z) (tf : option loc)                   (* before the load of [to_free2] *)
| QCas (ep : Z) (tf new : option loc)               (* before the compare-and-swap of [to_free2] *)
| QSet1 (ep : Z) (tf new : option loc)              (* before the store to [to_free1] *)
| QSetRem (ep : Z) (tf : option loc)                (* before the store to [num_remaining] *)
| QSetEpoch (ep : Z) (tf : option loc)              (* before the store to [epoch] *)
| QClear (ep : Z) (tf : option loc)                 (* nothing new: before clearing [to_free1] *)
(* [fev_poller_quiescent] *)
| WFree (cur : option loc) (n : Z)                  (* [fev_poller_free_socket_list] *)
| WSub (n : Z).                                     (* before the subtraction of [num_freed] *)

(** [struct fev_qsbr_global], the [next] pointers of the entries, [struct
    fev_qsbr_local] of each worker, the counter of the poller. *)
Record qs := mk_qs {
  epoch : Z;
  num_remaining : Z;
  to_free1 : option loc;
  to_free2 : option loc;
  next : loc → option loc;
  local_epoch : nat → Z;
  num_sockets_to_free : Z;
  wake_alls : nat;                (* calls of [fev_sched_wake_all_workers] *)
  qpcs : nat → qpc;
  limbo : gmap loc (gset nat);    (* ghost *)
}.

Definition set_epoch s v := mk_qs v (num_remaining s) (to_free1 s) (to_free2 s) (next s) (local_epoch s) (num_sockets_to_free s) (wake_alls s) (qpcs s) (limbo s).
Definition set_rem s v := mk_qs (epoch s) v (to_free1 s) (to_free2 s) (next s) (local_epoch s) (num_sockets_to_free s) (wake_alls s) (qpcs s) (limbo s).
Definition set_tf1 s v := mk_qs (epoch s) (num_remaining s) v (to_free2 s) (next s) (local_epoch s) (num_sockets_to_free s) (wake_alls s) (qpcs s) (limbo s).
Definition set_tf2 s v := mk_qs (epoch s) (num_remaining s) (to_free1 s) v (next s) (local_epoch s) (num_sockets_to_free s) (wake_alls s) (qpcs s) (limbo s).
Definition set_next s e v := mk_qs (epoch s) (num_remaining s) (to_free1 s) (to_free2 s) (upd (next s) e v) (local_epoch s) (num_sockets_to_free s) (wake_alls s) (qpcs s) (limbo s).
Definition set_local s (t : nat) v := mk_qs (epoch s) (num_remaining s) (to_free1 s) (to_free2 s) (next s) (upd (local_epoch s) t v) (num_sockets_to_free s) (wake_alls s) (qpcs s) (limbo s).
Definition set_count s v w := mk_qs (epoch s) (num_remaining s) (to_free1 s) (to_free2 s) (next s) (local_epoch s) v w (qpcs s) (limbo s).
Definition set_qpc s (t : nat) p := mk_qs (epoch s) (num_remaining s) (to_free1 s) (to_free2 s) (next s) (local_epoch s) (num_sockets_to_free s) (wake_alls s) (upd (qpcs s) t p) (limbo s).
Definition set_limbo s m := mk_qs (epoch s) (num_remaining s) (to_free1 s) (to_free2 s) (next s) (local_epoch s) (num_sockets_to_free s) (wake_alls s) (qpcs s) m.

(** A worker inside [fev_poller_quiescent] uses no socket. *)
Definition inside (p : qpc) : bool :=
  match p with
  | QLoad | QSub _ | QTf1 _ | QTf2 _ _ | QCas _ _ _ | QSet1 _ _ _ | QSetRem _ _ | QSetEpoch _ _ | QClear _ _
  | WFree _ _ | WSub _ => true
  | _ => false
  end.

Lemma size_one_elem (R : gset nat) t : t ∈ R → size R = 1%nat → R = {[t]}.
Proof. intros Ht [x ->%leibniz_equiv]%size_1_elem_of. set_solver. Qed.

Section qsbr.
Context (num_threads : nat).

Definition threads : gset nat := set_seq 0 num_threads.

(** The workers that may use a socket when [t] hands it over. *)
Definition users (s : qs) (t : nat) : gset nat :=
  filter (λ u, u ≠ t ∧ inside (qpcs s u) = false) threads.

Definition fev_free (s : qs) (e : loc) : option qs :=
  match limbo s !! e with
  | Some u => FEV_ASSERT bool_decide (u = ∅); Some (set_limbo s (delete e (limbo s)))
  | None => None
  end.

(** *** [fev_qsbr_free] *)

Definition rem0 : Z := u32 (Z.of_nat num_threads - 1).

Definition free_start (s : qs) (t : nat) (e : loc) : option qs :=
  FEV_ASSERT (1 <? num_threads)%nat;
  Some (set_qpc (set_next s e None) t (FStart e)).

(** The strong compare-and-swap of [to_free1]. *)
Definition free_cas1 (s : qs) (t : nat) (e : loc) : qs :=
  match to_free1 s with
  | None => set_qpc (set_tf1 s (Some e)) t FLoad
  | Some _ => set_qpc s t (GLoad e)
  end.

(** The store to [epoch], and the local epoch. *)
Definition free_set_epoch (s : qs) (t : nat) (ep : Z) : qs :=
  set_qpc (set_local (set_epoch s (u32 (ep + 1))) t (u32 (ep + 1))) t FCount.

(** The weak compare-and-swap of [to_free2]; when it fails it loads [to_free2]. *)
Definition free_cas2 (s : qs) (t : nat) (e : loc) (spurious : bool) : qs :=
  if negb spurious && bool_decide (to_free2 s = next s e)
  then set_qpc (set_tf2 s (Some e)) t FCount
  else set_qpc (set_next s e (to_free2 s)) t (GCas e).

(** *** [fev_qsbr_quiescent] *)

Definition quiescent_load (s : qs) (t : nat) : qs :=
  if epoch s =? local_epoch s t then set_qpc s t (WFree None 0) else set_qpc s t (QSub (epoch s)).

Definition quiescent_sub (s : qs) (t : nat) (ep : Z) : option qs :=
  let n := num_remaining s in
  FEV_ASSERT (1 <=? n);
  let s := set_rem s (u32 (n - 1)) in
  Some (if n =? 1 then set_qpc s t (QTf1 ep) else set_qpc (set_local s t ep) t (WFree None 0)).

Definition quiescent_tf1 (s : qs) (t : nat) (ep : Z) : option qs :=
  FEV_ASSERT bool_decide (to_free1 s ≠ None);
  Some (set_qpc s t (QTf2 ep (to_free1 s))).

Definition quiescent_tf2 (s : qs) (t : nat) (ep : Z) (tf : option loc) : qs :=
  set_qpc s t (if bool_decide (to_free2 s = None) then QClear ep tf else QCas ep tf (to_free2 s)).

Definition quiescent_cas (s : qs) (t : nat) (ep : Z) (tf new : option loc) (spurious : bool) : qs :=
  if negb spurious && bool_decide (to_free2 s = new)
  then set_qpc (set_tf2 s None) t (QSet1 ep tf new)
  else set_qpc s t (QCas ep tf (to_free2 s)).

Definition quiescent_set1 (s : qs) (t : nat) (ep : Z) (tf new : option loc) : option qs :=
  FEV_ASSERT bool_decide (new ≠ None);
  Some (set_qpc (set_tf1 s new) t (QSetRem ep tf)).

Definition quiescent_set_epoch (s : qs) (t : nat) (ep : Z) (tf : option loc) : qs :=
  set_qpc (set_local (set_epoch s (u32 (ep + 1))) t (u32 (ep + 1))) t (WFree tf 0).

Definition quiescent_clear (s : qs) (t : nat) (ep : Z) (tf : option loc) : qs :=
  set_qpc (set_local (set_tf1 s None) t ep) t (WFree tf 0).

(** *** The poller *)

(** [fev_poller_free_socket], up to [fev_qsbr_free]. *)
Definition fev_poller_free_socket (s : qs) (t : nat) (e : loc) : option qs :=
  let s := set_limbo s (<[e := users s t]> (limbo s)) in
  if (num_threads =? 1)%nat then fev_free s e else free_start s t e.

(** What follows [fev_qsbr_free]. *)
Definition count_socket (s : qs) (t : nat) : qs :=
  let n := num_sockets_to_free s in
  let wake := (FEV_POLLER_WAKE_ALL_THRESHOLD <=? n) && (n mod FEV_POLLER_WAKE_ALL_STEP =? 0) in
  set_qpc (set_count s (u32 (n + 1)) (if wake then S (wake_alls s) else wake_alls s)) t QRun.

(** An iteration of [fev_poller_free_socket_list]. *)
Definition free_socket_iter (s : qs) (e : loc) : option (qs * option loc) :=
  let nxt := next s e in
  s ← fev_free s e;
  Some (s, nxt).

Fixpoint fev_poller_free_socket_list (fuel : nat) (s : qs) (cur : option loc) (n : Z) : option (qs * Z) :=
  match cur, fuel with
  | None, _ => Some (s, n)
  | Some e, O => None
  | Some e, S fuel => '(s, nxt) ← free_socket_iter s e; fev_poller_free_socket_list fuel s nxt (u32 (n + 1))
  end.

(** [fev_poller_quiescent]: from now on [t] uses none of the sockets in limbo. *)
Definition fev_poller_quiescent (s : qs) (t : nat) : qs :=
  set_qpc (set_limbo s ((λ u, u ∖ {[t]}) <$> limbo s)) t QLoad.

Definition free_step (s : qs) (t : nat) (cur : option loc) (n : Z) : option qs :=
  match cur with
  | None => Some (set_qpc s t (if 0 <? n then WSub n else QRun))
  | Some e => '(s, nxt) ← free_socket_iter s e; Some (set_qpc s t (WFree nxt (u32 (n + 1))))
  end.

(** After the workers have returned, nobody uses a socket. *)
Definition fev_poller_free_remaining_sockets (s : qs) : option qs :=
  let s := set_limbo s ((λ _, ∅) <$> limbo s) in
  let fuel := size (limbo s) in
  '(s, _) ← fev_poller_free_socket_list fuel s (to_free1 s) 0;
  '(s, _) ← fev_poller_free_socket_list fuel s (to_free2 s) 0;
  Some s.

(** *** Steps *)

(** [LFree e]: the worker closes the socket [e]. [LGo spurious]: it continues. *)
Inductive qlabel := LFree (e : loc) | LQuiescent | LGo (spurious : bool).

Definition qstep (s : qs) (t : nat) (l : qlabel) : option qs :=
  match qpcs s t, l with
  | QRun, LFree e => fev_poller_free_socket s t e
  | QRun, LQuiescent => Some (fev_poller_quiescent s t)
  | FStart e, LGo _ => Some (free_cas1 s t e)
  | FLoad, LGo _ => Some (set_qpc s t (FSetRem (epoch s)))
  | FSetRem ep, LGo _ => Some (set_qpc (set_rem s rem0) t (FSetEpoch ep))
  | FSetEpoch ep, LGo _ => Some (free_set_epoch s t ep)
  | GLoad e, LGo _ => Some (set_qpc (set_next s e (to_free2 s)) t (GCas e))
  | GCas e, LGo spurious => Some (free_cas2 s t e spurious)
  | FCount, LGo _ => Some (count_socket s t)
  | QLoad, LGo _ => Some (quiescent_load s t)
  | QSub ep, LGo _ => quiescent_sub s t ep
  | QTf1 ep, LGo _ => quiescent_tf1 s t ep
  | QTf2 ep tf, LGo _ => Some (quiescent_tf2 s t ep tf)
  | QCas ep tf new, LGo spurious => Some (quiescent_cas s t ep tf new spurious)
  | QSet1 ep tf new, LGo _ => quiescent_set1 s t ep tf new
  | QSetRem ep tf, LGo _ => Some (set_qpc (set_rem s rem0) t (QSetEpoch ep tf))
  | QSetEpoch ep tf, LGo _ => Some (quiescent_set_epoch s t ep tf)
  | QClear ep tf, LGo _ => Some (quiescent_clear s t ep tf)
  | WFree cur n, LGo _ => free_step s t cur n
  | WSub n, LGo _ => Some (set_qpc (set_count s (u32 (num_sockets_to_free s - n)) (wake_alls s)) t QRun)
  | _, _ => None
  end.

(** A worker that runs closes a socket nobody has closed yet or becomes quiescent;
    any other continues. *)
Definition qenabled (s : qs) (t : nat) (l : qlabel) : bool :=
  (t <? num_threads)%nat &&
  match qpcs s t, l with
  | QRun, LFree e => bool_decide (limbo s !! e = None)
  | QRun, LQuiescent => true
  | QRun, LGo _ => false
  | _, LGo _ => true
  | _, _ => false
  end.

Definition qnext (s : qs) (l : nat * qlabel) : option qs :=
  if qenabled s l.1 l.2 then qstep s l.1 l.2 else None.

(** [fev_qsbr_init_global], [fev_qsbr_init_local]. *)
Definition qinit : qs := mk_qs 0 0 None None (λ _, None) (λ _, 0) 0 0 (λ _, QRun) ∅.

(** ** The invariant *)

(** The list that starts at [h]. *)
Fixpoint chain (nx : loc → option loc) (h : option loc) (l : list loc) : Prop :=
  match l with [] => h = None | e :: l => h = Some e ∧ chain nx (nx e) l end.

(** Where the sockets in limbo are: [to_free1], [to_free2], or with a worker. *)
Inductive place := P1 | P2 | PT (t : nat).

#[export] Instance place_eq_dec : EqDecision place.
Proof. solve_decision. Defined.

(** The state of the grace period: none, one that worker [t] is starting, one that
    the workers [R] have not acknowledged yet, one that worker [t] is finishing. *)
Inductive phase := PIdle | PStart (t : nat) | PActive (R : gset nat) | PFinal (t : nat).

Definition refs (s : qs) (e : loc) : gset nat := default ∅ (limbo s !! e).

(** What a worker holds. *)
Definition holds (s : qs) (p : qpc) (l : list loc) : Prop :=
  match p with
  | FStart e => l = [e] ∧ next s e = None
  | GLoad e | GCas e => l = [e]
  | QSet1 _ _ new => chain (next s) new l
  | QSetRem _ tf | QSetEpoch _ tf => chain (next s) tf l ∧ ∀ e, e ∈ l → refs s e = ∅
  | WFree cur _ => chain (next s) cur l ∧ ∀ e, e ∈ l → refs s e = ∅
  | _ => l = []
  end.

Definition content (s : qs) (p : place) (l : list loc) : Prop :=
  match p with
  | P1 => chain (next s) (to_free1 s) l
  | P2 => chain (next s) (to_free2 s) l
  | PT t => holds s (qpcs s t) l
  end.

(** Every socket in limbo is in exactly one place. *)
Record layout (m : gmap loc (gset nat)) (c : place → list loc) : Prop := {
  lay_nodup p : NoDup (c p);
  lay_unique p q e : e ∈ c p → e ∈ c q → p = q;
  lay_limbo e : is_Some (m !! e) ↔ ∃ p, e ∈ c p;
}.

Definition calm (p : qpc) : Prop :=
  match p with QRun | FStart _ | GLoad _ | GCas _ | FCount | QLoad | WFree _ _ | WSub _ => True | _ => False end.

Definition starting (s : qs) (p : qpc) : Prop :=
  match p with
  | FLoad => True
  | FSetRem ep => ep = epoch s
  | FSetEpoch ep => ep = epoch s ∧ num_remaining s = rem0
  | _ => False
  end.

Definition finishing (s : qs) (l1 : list loc) (p : qpc) : Prop :=
  match p with
  | QTf1 ep => ep = epoch s ∧ ∀ e, e ∈ l1 → refs s e = ∅
  | QTf2 ep tf | QClear ep tf => ep = epoch s ∧ tf = to_free1 s ∧ ∀ e, e ∈ l1 → refs s e = ∅
  | QCas ep tf new => ep = epoch s ∧ tf = to_free1 s ∧ new ≠ None ∧ to_free2 s ≠ None ∧ ∀ e, e ∈ l1 → refs s e = ∅
  | QSet1 ep tf new => ep = epoch s ∧ tf = to_free1 s ∧ new ≠ None ∧ ∀ e, e ∈ l1 → refs s e = ∅
  | QSetRem ep _ => ep = epoch s
  | QSetEpoch ep _ => ep = epoch s ∧ num_remaining s = rem0
  | _ => False
  end.

Definition synced (s : qs) (t : nat) : Prop := local_epoch s t = epoch s ∧ calm (qpcs s t).

Definition phase_ok (s : qs) (l1 : list loc) (ph : phase) : Prop :=
  match ph with
  | PIdle => to_free1 s = None ∧ ∀ t, (t < num_threads)%nat → synced s t
  | PStart u =>
      (u < num_threads)%nat ∧ to_free1 s ≠ None ∧ (∀ e, e ∈ l1 → u ∉ refs s e) ∧
      local_epoch s u = epoch s ∧ starting s (qpcs s u) ∧
      ∀ t, (t < num_threads)%nat → t ≠ u → synced s t
  | PActive R =>
      R ⊆ threads ∧ R ≠ ∅ ∧ num_remaining s = Z.of_nat (size R) ∧ to_free1 s ≠ None ∧
      (∀ e, e ∈ l1 → refs s e ⊆ R) ∧
      (∀ t, t ∈ R → u32 (local_epoch s t + 1) = epoch s ∧ 0 ≤ local_epoch s t < 2 ^ 32 ∧
                    (calm (qpcs s t) ∨ qpcs s t = QSub (epoch s))) ∧
      ∀ t, (t < num_threads)%nat → t ∉ R → synced s t
  | PFinal u =>
      (u < num_threads)%nat ∧ to_free1 s ≠ None ∧ finishing s l1 (qpcs s u) ∧
      ∀ t, (t < num_threads)%nat → t ≠ u → synced s t
  end.

(** Who may use what. *)
Record users_ok (s : qs) : Prop := {
  uo_threads e : refs s e ⊆ threads;
  uo_inside t e : inside (qpcs s t) = true → t ∉ refs s e;
  uo_freeing t e : qpcs s t = FStart e → t ∉ refs s e;
}.

Record qinv (s : qs) (ph : phase) (c : place → list loc) : Prop := {
  qi_epoch : 0 ≤ epoch s < 2 ^ 32;
  qi_layout : layout (limbo s) c;
  qi_content p : content s p (c p);
  qi_phase : phase_ok s (c P1) ph;
  qi_users : users_ok s;
  qi_many p e : e ∈ c p → (1 < num_threads)%nat;
}.

(** *** Layouts *)

Lemma lay_new m c t e u :
  layout m c → m !! e = None → c (PT t) = [] → layout (<[e := u]> m) (upd c (PT t) [e]).
Proof.
  intros [Hn Hu Hl] He Ht. assert (Hno : ∀ p, e ∉ c p).
  { intros p Hin. assert (is_Some (m !! e)) as [? ?] by (apply Hl; eauto). congruence. }
  split.
  - intros p. unfold upd. case_decide; [apply NoDup_singleton|done].
  - intros p q x. unfold upd. repeat case_decide; rewrite ?list_elem_of_singleton; intros; subst; try done;
      try (by exfalso; eapply Hno); eauto.
  - intros x. rewrite lookup_insert_is_Some'. split.
    + intros [<-|Hx]; [exists (PT t); rewrite upd_eq; apply list_elem_of_here|].
      apply Hl in Hx as [p Hp]. exists p. unfold upd. case_decide; [|done]. subst p. rewrite Ht in Hp. by apply not_elem_of_nil in Hp.
    + intros [p Hp]. unfold upd in Hp. case_decide; [left; by apply list_elem_of_singleton in Hp|right]. apply Hl. eauto.
Qed.

Lemma lay_swap m c p q : layout m c → layout m (upd (upd c q (c p)) p (c q)).
Proof.
  intros [Hn Hu Hl]. set (f := λ r : place, if decide (p = r) then q else if decide (q = r) then p else r).
  assert (Hc : ∀ r, upd (upd c q (c p)) p (c q) r = c (f r)) by (intros r; unfold upd, f; by repeat case_decide).
  assert (Hff : ∀ r, f (f r) = r) by (intros r; unfold f; repeat case_decide; congruence).
  split.
  - intros r. rewrite Hc. apply Hn.
  - intros r r' e. rewrite !Hc. intros H1 H2. rewrite <- (Hff r), <- (Hff r'). f_equal. by eapply Hu.
  - intros e. rewrite Hl. split; intros [r Hr]; exists (f r); rewrite ?Hc, ?Hff; [done|]. by rewrite Hc in Hr.
Qed.

Lemma lay_push m c p q e : p ≠ q → layout m c → c p = [e] → layout m (upd (upd c q (e :: c q)) p []).
Proof.
  intros Hpq [Hn Hu Hl] Hp. assert (He : e ∈ c p) by (rewrite Hp; apply list_elem_of_here).
  assert (Hin : ∀ r x, x ∈ upd (upd c q (e :: c q)) p [] r ↔ r ≠ p ∧ ((r = q ∧ x = e) ∨ x ∈ c r)).
  { intros r x. unfold upd. repeat case_decide; subst; rewrite ?elem_of_cons; [|naive_solver..].
    split; [intros H; by apply not_elem_of_nil in H|naive_solver]. }
  split.
  - intros r. unfold upd. repeat case_decide; subst; [constructor| |done]. constructor; [|done].
    intros Hq. by apply Hpq, (Hu p r e).
  - intros r r' x. rewrite !Hin. intros (Hr & [[-> ->]|Hx]) (Hr' & [[-> ?]|Hx']); try done.
    + destruct Hr'. symmetry. by apply (Hu p r' e).
    + subst x. destruct Hr. symmetry. by apply (Hu p r e).
    + by apply (Hu r r' x).
  - intros x. rewrite Hl. split.
    + intros [r Hr]. destruct (decide (r = p)) as [->|]; [|exists r; apply Hin; auto].
      rewrite Hp in Hr. apply list_elem_of_singleton in Hr as ->. exists q. apply Hin. auto.
    + intros [r Hr]. apply Hin in Hr as (_ & [[_ ->]|Hr]); eauto.
Qed.

Lemma lay_pop m c p e l : layout m c → c p = e :: l → layout (delete e m) (upd c p l).
Proof.
  intros [Hn Hu Hl] Hp. assert (He : e ∈ c p) by (rewrite Hp; apply list_elem_of_here).
  pose proof (Hn p) as Hnp. rewrite Hp in Hnp. apply NoDup_cons in Hnp as [Hel Hnl].
  assert (Hin : ∀ r x, x ∈ upd c p l r ↔ x ≠ e ∧ x ∈ c r).
  { intros r x. unfold upd. case_decide; subst; rewrite ?Hp, ?elem_of_cons; [naive_solver|].
    split; [|naive_solver]. intros Hx. split; [|done]. intros ->. apply H. by apply (Hu p r e). }
  split.
  - intros r. unfold upd. by case_decide.
  - intros r r' x. rewrite !Hin. intros [_ ?] [_ ?]. by apply (Hu r r' x).
  - intros x. rewrite lookup_delete_is_Some, Hl. setoid_rewrite Hin. naive_solver.
Qed.

Lemma lay_fmap m c f : layout m c → layout (f <$> m) c.
Proof. intros [Hn Hu Hl]. split; [done..|]. intros e. by rewrite lookup_fmap, fmap_is_Some. Qed.

(** *** Chains and contents *)

Lemma chain_ext nx nx' h l : (∀ e, e ∈ l → nx' e = nx e) → chain nx h l → chain nx' h l.
Proof.
  revert h. induction l as [|e l IH]; intros h Hx; simpl; [done|]. intros [-> Hc]. split; [done|].
  rewrite Hx by apply list_elem_of_here. apply IH; [|done]. intros x Hin. apply Hx. by apply list_elem_of_further.
Qed.

Lemma chain_nil nx l : chain nx None l → l = [].
Proof. destruct l; [done|]. by intros [? _]. Qed.

Lemma chain_some nx e l : chain nx (Some e) l → ∃ l', l = e :: l' ∧ chain nx (nx e) l'.
Proof. destruct l as [|x l]; [done|]. intros [[= ->] ?]. eauto. Qed.

Lemma content_mono s s' p l :
  match p with P1 => to_free1 s' = to_free1 s | P2 => to_free2 s' = to_free2 s | PT t => qpcs s' t = qpcs s t end →
  (∀ e, e ∈ l → next s' e = next s e ∧ refs s' e ⊆ refs s e) → content s p l → content s' p l.
Proof.
  intros Hp Hm. assert (Hch : ∀ h, chain (next s) h l → chain (next s') h l).
  { intros h. apply chain_ext. intros e He. by apply Hm. }
  assert (Hr : (∀ e, e ∈ l → refs s e = ∅) → ∀ e, e ∈ l → refs s' e = ∅).
  { intros H e He. pose proof (proj2 (Hm e He)). rewrite (H e He) in H0. set_solver. }
  destruct p as [| |t]; simpl; rewrite ?Hp; [apply Hch..|].
  destruct (qpcs s t); simpl; try done; try apply Hch; try (intros [? ?]; split; [by apply Hch|by apply Hr]).
  intros [-> <-]. split; [done|]. apply Hm, list_elem_of_here.
Qed.

Lemma users_mono s s' t p' :
  users_ok s → (∀ e, refs s' e ⊆ refs s e) → qpcs s' = upd (qpcs s) t p' →
  (inside p' = true → ∀ e, t ∉ refs s' e) → (∀ e, p' = FStart e → t ∉ refs s' e) → users_ok s'.
Proof.
  intros [Ht Hi Hf] Hm Hp H1 H2. split.
  - intros e. etrans; [apply Hm|apply Ht].
  - intros u e. rewrite Hp. unfold upd. case_decide; [subst; auto|]. intros Hu Hin. eapply Hi; [done|]. by apply Hm.
  - intros u e. rewrite Hp. unfold upd. case_decide; [subst; auto|]. intros Hu Hin. eapply Hf; [done|]. by apply Hm.
Qed.

(** *** Steps that do not change the grace period *)

Record frame (s s' : qs) (t : nat) (p' : qpc) (l1 : list loc) : Prop := {
  fr_epoch : epoch s' = epoch s;
  fr_rem : num_remaining s' = num_remaining s;
  fr_tf1 : to_free1 s' = to_free1 s;
  fr_tf2 : to_free2 s ≠ None → to_free2 s' ≠ None;
  fr_local : local_epoch s' = local_epoch s;
  fr_pcs : qpcs s' = upd (qpcs s) t p';
  fr_refs e : e ∈ l1 → refs s' e ⊆ refs s e;
}.

Lemma synced_frame s s' t p' l1 u : frame s s' t p' l1 → calm p' → synced s u → synced s' u.
Proof.
  intros [He _ _ _ Hl Hp _] Hc [H1 H2]. split; [by rewrite He, Hl|]. rewrite Hp. unfold upd. by case_decide.
Qed.

Lemma refs_empty_mono s s' (l : list loc) :
  (∀ e, e ∈ l → refs s' e ⊆ refs s e) → (∀ e, e ∈ l → refs s e = ∅) → ∀ e, e ∈ l → refs s' e = ∅.
Proof. intros Hm H0 e He. pose proof (Hm e He) as H. rewrite (H0 e He) in H. set_solver. Qed.

Lemma finishing_mono s s' l1 p :
  epoch s' = epoch s → num_remaining s' = num_remaining s → to_free1 s' = to_free1 s →
  (to_free2 s ≠ None → to_free2 s' ≠ None) → (∀ e, e ∈ l1 → refs s' e ⊆ refs s e) →
  finishing s l1 p → finishing s' l1 p.
Proof.
  intros He Hn H1 H2 Hr. pose proof (refs_empty_mono s s' l1 Hr).
  destruct p; simpl; rewrite ?He, ?Hn, ?H1; naive_solver.
Qed.

Lemma starting_mono s s' p :
  epoch s' = epoch s → num_remaining s' = num_remaining s → starting s p → starting s' p.
Proof. intros He Hn. destruct p; simpl; by rewrite ?He, ?Hn. Qed.

Lemma calm_not_starting s p : calm p → ¬ starting s p.
Proof. destruct p; simpl; tauto. Qed.
Lemma calm_not_finishing s l p : calm p → ¬ finishing s l p.
Proof. destruct p; simpl; tauto. Qed.

Lemma phase_frame s s' t p' l1 ph :
  frame s s' t p' l1 → calm (qpcs s t) → calm p' → phase_ok s l1 ph → phase_ok s' l1 ph.
Proof.
  intros Hf Hc Hc'. pose proof (λ u, synced_frame _ _ _ _ _ u Hf Hc') as Hs. destruct Hf as [He Hn H1 H2 Hl Hp Hr].
  destruct ph as [|u|R|u]; simpl; rewrite ?H1, ?He, ?Hn.
  - intros [Ht Ho]. eauto.
  - intros (Hu & Ht & Hx & Hlu & Hst & Ho). assert (t ≠ u) by (intros ->; exact (calm_not_starting _ _ Hc Hst)).
    assert (Hpu : qpcs s' u = qpcs s u) by (rewrite Hp; by apply upd_ne).
    split_and!; [done|done| |by rewrite Hl|rewrite Hpu; by eapply starting_mono|eauto].
    intros e Hin Hin'. apply (Hx e Hin). by apply Hr.
  - intros (HR & HR' & Hrem & Ht & Hx & Hin & Hout). split_and!; [done..| | |eauto].
    + intros e Hie. etrans; [by apply Hr|auto].
    + intros v Hv. destruct (Hin v Hv) as (? & ? & Hcv). rewrite Hl, Hp. split; [done|]. split; [done|].
      unfold upd. case_decide; [by left|exact Hcv].
  - intros (Hu & Ht & Hfi & Ho). assert (t ≠ u) by (intros ->; exact (calm_not_finishing _ _ _ Hc Hfi)).
    assert (Hpu : qpcs s' u = qpcs s u) by (rewrite Hp; by apply upd_ne).
    split_and!; [done|done|rewrite Hpu; by eapply finishing_mono|eauto].
Qed.

Definition good (s : qs) : Prop := ∃ ph c, qinv s ph c.

(** A step of [t] that leaves all lists alone. *)
Lemma good_phase s s' ph ph' c t p' :
  qinv s ph c → 0 ≤ epoch s' < 2 ^ 32 → next s' = next s → limbo s' = limbo s →
  to_free1 s' = to_free1 s → to_free2 s' = to_free2 s → qpcs s' = upd (qpcs s) t p' →
  holds s' p' (c (PT t)) → (∀ e, p' ≠ FStart e) → (inside p' = true → inside (qpcs s t) = true) →
  phase_ok s' (c P1) ph' → good s'.
Proof.
  intros [_ Hlay Hcon _ Hus Hm] He Hnx Hli H1 H2 Hp Hh Hns Hins Hph'. exists ph', c.
  assert (Hr : ∀ e, refs s' e = refs s e) by (intros e; unfold refs; by rewrite Hli).
  split; [done|by rewrite Hli| |done| |done].
  - intros p. assert (p = PT t ∨ p ≠ PT t) as [->|Hne] by (destruct (decide (p = PT t)); auto).
    + simpl. rewrite Hp, upd_eq. exact Hh.
    + apply (content_mono s); [|by intros e _; rewrite Hnx, Hr|apply Hcon].
      destruct p as [| |u]; [done..|]. rewrite Hp. apply upd_ne. congruence.
  - apply (users_mono s s' t p'); [done|by intros e; rewrite Hr|done| |].
    + intros Hi e. rewrite Hr. apply (uo_inside _ Hus). auto.
    + intros e ->. by destruct (Hns e).
Qed.

(** And does not change the grace period. *)
Lemma good_stay s s' ph c t p' :
  qinv s ph c → frame s s' t p' (c P1) → calm (qpcs s t) → calm p' →
  next s' = next s → limbo s' = limbo s → to_free2 s' = to_free2 s →
  holds s' p' (c (PT t)) → (∀ e, p' ≠ FStart e) → (inside p' = true → inside (qpcs s t) = true) → good s'.
Proof.
  intros Hi Hf Hc Hc' Hnx Hli H2 Hh Hns Hins. destruct (Hf) as [He _ H1 _ _ Hp _].
  apply (good_phase s s' ph ph c t p'); try done; [rewrite He; apply (qi_epoch _ _ _ Hi)|].
  apply (phase_frame s s' t p'); try done. apply (qi_phase _ _ _ Hi).
Qed.

(** A step of [t] that exchanges its list with that of the place [q]. *)
Lemma good_swap s s' ph ph' c t p' q :
  qinv s ph c → q ≠ PT t → 0 ≤ epoch s' < 2 ^ 32 → next s' = next s → limbo s' = limbo s →
  (q ≠ P1 → to_free1 s' = to_free1 s) → (q ≠ P2 → to_free2 s' = to_free2 s) → qpcs s' = upd (qpcs s) t p' →
  (∀ u, q ≠ PT u) → content s' q (c (PT t)) → holds s' p' (c q) →
  (∀ e, p' ≠ FStart e) → (inside p' = true → inside (qpcs s t) = true) →
  phase_ok s' (if decide (q = P1) then c (PT t) else c P1) ph' → good s'.
Proof.
  intros [_ Hlay Hcon _ Hus Hm] Hq He Hnx Hli H1 H2 Hp Hqu Hcq Hh Hns Hins Hph'.
  exists ph', (upd (upd c q (c (PT t))) (PT t) (c q)).
  assert (Hr : ∀ e, refs s' e = refs s e) by (intros e; unfold refs; by rewrite Hli).
  split; [done|rewrite Hli; by apply lay_swap| | | |].
  - intros p. destruct (decide (p = PT t)) as [->|Hne].
    + rewrite upd_eq. simpl. rewrite Hp, upd_eq. exact Hh.
    + rewrite upd_ne by done. destruct (decide (p = q)) as [->|Hne2]; [by rewrite upd_eq|]. rewrite upd_ne by done.
      apply (content_mono s); [|by intros e _; rewrite Hnx, Hr|apply Hcon].
      destruct p as [| |u]; [auto..|]. rewrite Hp. apply upd_ne. congruence.
  - rewrite upd_ne by done. exact Hph'.
  - apply (users_mono s s' t p'); [done|by intros e; rewrite Hr|done| |].
    + intros Hi e. rewrite Hr. apply (uo_inside _ Hus). auto.
    + intros e ->. by destruct (Hns e).
  - intros p x. unfold upd. repeat case_decide; apply Hm.
Qed.

Ltac frames := split; simpl; auto.

Lemma holder_content s ph c t : qinv s ph c → holds s (qpcs s t) (c (PT t)).
Proof. intros Hi. exact (qi_content _ _ _ Hi (PT t)). Qed.

(** A worker writes the [next] pointer of the socket it holds. *)
Lemma good_link s ph c t e v :
  qinv s ph c → calm (qpcs s t) → c (PT t) = [e] → good (set_qpc (set_next s e v) t (GCas e)).
Proof.
  intros Hi Hc Hce. destruct Hi as [Hep Hlay Hcon Hph Hus Hm]. exists ph, c.
  assert (Hno : ∀ p x, p ≠ PT t → x ∈ c p → x ≠ e).
  { intros p x Hp Hx ->. apply Hp. apply (lay_unique _ _ Hlay p (PT t) e); [done|rewrite Hce; apply list_elem_of_here]. }
  split; simpl; try done.
  - intros p. destruct (decide (p = PT t)) as [->|Hne]; [simpl; by rewrite upd_eq, Hce|].
    apply (content_mono s); [|intros x Hx; split; [|done]|apply Hcon].
    + destruct p as [| |u]; [done..|]. simpl. apply upd_ne. congruence.
    + simpl. apply upd_ne. intros ->. by apply (Hno p x Hne Hx).
  - apply (phase_frame s _ t (GCas e)); [frames|done..].
  - by apply (users_mono s _ t (GCas e)).
Qed.

(** [e] becomes the first of [to_free2]. *)
Lemma good_push s ph c t e :
  qinv s ph c → qpcs s t = GCas e → to_free2 s = next s e → good (set_qpc (set_tf2 s (Some e)) t FCount).
Proof.
  intros Hi Hpc H2. pose proof (holder_content s ph c t Hi) as Hh. rewrite Hpc in Hh. simpl in Hh.
  destruct Hi as [Hep Hlay Hcon Hph Hus Hm].
  exists ph, (upd (upd c P2 (e :: c P2)) (PT t) []). split; simpl; try done.
  - by apply lay_push.
  - intros p. destruct (decide (p = PT t)) as [->|Hne]; [by rewrite !upd_eq; simpl; rewrite upd_eq|].
    rewrite upd_ne by done. destruct (decide (p = P2)) as [->|Hne2].
    + rewrite upd_eq. simpl. split; [done|]. rewrite <- H2. apply (Hcon P2).
    + rewrite upd_ne by done. apply (content_mono s); [|done|apply Hcon].
      destruct p as [| |u]; [done..|]. simpl. apply upd_ne. congruence.
  - apply (phase_frame s _ t FCount); [frames|by rewrite Hpc|done|exact Hph].
  - by apply (users_mono s _ t FCount).
  - intros p x. assert (He : (1 < num_threads)%nat) by (apply (Hm (PT t) e); rewrite Hh; apply list_elem_of_here). done.
Qed.

Lemma refs_insert s e u x : refs (set_limbo s (<[e := u]> (limbo s))) x = if decide (e = x) then u else refs s x.
Proof. unfold refs. simpl. case_decide; [subst; by rewrite lookup_insert_eq|by rewrite lookup_insert_ne]. Qed.

Lemma refs_delete_sub s e x : refs (set_limbo s (delete e (limbo s))) x ⊆ refs s x.
Proof. unfold refs. simpl. destruct (decide (e = x)) as [->|]; [rewrite lookup_delete_eq; set_solver|by rewrite lookup_delete_ne]. Qed.

Lemma refs_fmap s t x : refs (set_limbo s ((λ u, u ∖ {[t]}) <$> limbo s)) x = refs s x ∖ {[t]}.
Proof. unfold refs. simpl. rewrite lookup_fmap. destruct (limbo s !! x); simpl; set_solver. Qed.

Lemma elem_of_threads t : t ∈ threads ↔ (t < num_threads)%nat.
Proof. unfold threads. rewrite elem_of_set_seq. lia. Qed.

Lemma elem_of_users s t u : u ∈ users s t ↔ (u < num_threads)%nat ∧ u ≠ t ∧ inside (qpcs s u) = false.
Proof. unfold users. rewrite elem_of_filter, elem_of_threads. tauto. Qed.

(** A socket is handed over. *)
Lemma good_free s ph c t e :
  qinv s ph c → qpcs s t = QRun → limbo s !! e = None → (1 < num_threads)%nat →
  good (set_qpc (set_next (set_limbo s (<[e := users s t]> (limbo s))) e None) t (FStart e)).
Proof.
  intros Hi Hpc He HN. pose proof (holder_content s ph c t Hi) as Hh. rewrite Hpc in Hh. simpl in Hh.
  destruct Hi as [Hep Hlay Hcon Hph Hus Hm]. set (s' := set_qpc _ _ _).
  assert (Hno : ∀ p x, x ∈ c p → e ≠ x).
  { intros p x Hx <-. assert (is_Some (limbo s !! e)) as [? ?] by (apply (lay_limbo _ _ Hlay); eauto). congruence. }
  assert (Hr : ∀ x, refs s' x = if decide (e = x) then users s t else refs s x) by apply refs_insert.
  assert (Hpx : ∀ u, qpcs s' u = if decide (t = u) then FStart e else qpcs s u) by done.
  exists ph, (upd c (PT t) [e]). split; try done.
  - by apply lay_new.
  - intros p. destruct (decide (p = PT t)) as [->|Hne]; [simpl; rewrite !upd_eq; simpl; by rewrite upd_eq|].
    rewrite upd_ne by done. apply (content_mono s); [|intros x Hx; split|apply Hcon].
    + destruct p as [| |u]; [done..|]. simpl. apply upd_ne. congruence.
    + simpl. apply upd_ne. eauto.
    + rewrite Hr, decide_False by eauto. done.
  - rewrite upd_ne by done. apply (phase_frame s s' t (FStart e)); [frames|by rewrite Hpc|done|exact Hph].
    intros x Hx. rewrite Hr, decide_False by eauto. done.
  - destruct Hus as [Ht Hin Hf]. split.
    + intros x. rewrite Hr. case_decide; [|apply Ht]. intros u. rewrite elem_of_users, elem_of_threads. tauto.
    + intros u x. rewrite Hr, Hpx. destruct (decide (t = u)); [done|]. intros Hu.
      destruct (decide (e = x)); [|by apply Hin]. rewrite elem_of_users, Hu. naive_solver.
    + intros u x. rewrite Hr, Hpx. destruct (decide (t = u)) as [->|Et]; intros Hu.
      * injection Hu as ->. rewrite decide_True by done. rewrite elem_of_users. naive_solver.
      * rewrite decide_False; [by apply Hf|]. apply (Hno (PT u)). pose proof (Hcon (PT u)) as Hc'. simpl in Hc'.
        rewrite Hu in Hc'. destruct Hc' as [-> _]. apply list_elem_of_here.
Qed.

(** A worker becomes quiescent. *)
Lemma good_quiescent s ph c t : qinv s ph c → qpcs s t = QRun → good (fev_poller_quiescent s t).
Proof.
  intros Hi Hpc. pose proof (holder_content s ph c t Hi) as Hh. rewrite Hpc in Hh. simpl in Hh.
  destruct Hi as [Hep Hlay Hcon Hph Hus Hm]. unfold fev_poller_quiescent. set (s' := set_qpc _ _ _).
  assert (Hr : ∀ x, refs s' x = refs s x ∖ {[t]}) by apply refs_fmap.
  assert (Hr' : ∀ x, refs s' x ⊆ refs s x) by (intros x; rewrite Hr; set_solver).
  exists ph, c. split; try done.
  - by apply lay_fmap.
  - intros p. destruct (decide (p = PT t)) as [->|Hne]; [simpl; by rewrite upd_eq|].
    apply (content_mono s); [|done|apply Hcon]. destruct p as [| |u]; [done..|]. simpl. apply upd_ne. congruence.
  - apply (phase_frame s s' t QLoad); [frames|by rewrite Hpc|done..].
  - apply (users_mono s s' t QLoad); [done..| |done]. intros _ e. rewrite Hr. set_solver.
Qed.

Lemma fev_free_ok s ph c p e l :
  qinv s ph c → c p = e :: l → refs s e = ∅ → fev_free s e = Some (set_limbo s (delete e (limbo s))).
Proof.
  intros Hi Hp Hr. unfold fev_free.
  assert (is_Some (limbo s !! e)) as [u Hu].
  { apply (lay_limbo _ _ (qi_layout _ _ _ Hi)). exists p. rewrite Hp. apply list_elem_of_here. }
  unfold refs in Hr. rewrite Hu in *. simpl in Hr. by rewrite Hr.
Qed.

(** The first socket of the list of a worker is freed. *)
Lemma good_free_step s ph c t e n n' :
  qinv s ph c → qpcs s t = WFree (Some e) n →
  free_socket_iter s e = Some (set_limbo s (delete e (limbo s)), next s e) ∧
  good (set_qpc (set_limbo s (delete e (limbo s))) t (WFree (next s e) n')).
Proof.
  intros Hi Hpc. pose proof (holder_content s ph c t Hi) as Hh. rewrite Hpc in Hh. simpl in Hh.
  destruct Hh as [[l [Hl Hch]]%chain_some He]. split.
  { unfold free_socket_iter. rewrite (fev_free_ok s ph c (PT t) e l Hi Hl); [done|].
    apply He. rewrite Hl. apply list_elem_of_here. }
  destruct Hi as [Hep Hlay Hcon Hph Hus Hm]. set (s' := set_qpc _ _ _).
  assert (Hr : ∀ x, refs s' x ⊆ refs s x) by apply refs_delete_sub.
  exists ph, (upd c (PT t) l). split; try done.
  - by apply lay_pop.
  - intros p. destruct (decide (p = PT t)) as [->|Hne].
    + simpl. rewrite !upd_eq. split; [done|]. apply (refs_empty_mono s); [done|].
      intros x Hx. apply He. rewrite Hl. by apply list_elem_of_further.
    + rewrite upd_ne by done. apply (content_mono s); [|done|apply Hcon].
      destruct p as [| |u]; [done..|]. simpl. apply upd_ne. congruence.
  - rewrite upd_ne by done. apply (phase_frame s s' t (WFree (next s e) n')); [frames|by rewrite Hpc|done|exact Hph].
  - apply (users_mono s s' t (WFree (next s e) n')); [done..| |done]. intros _ x Hx.
    apply (uo_inside _ Hus t x); [by rewrite Hpc|by apply Hr].
  - intros p x. unfold upd. case_decide; [|apply Hm]. intros _. apply (Hm (PT t) e). rewrite Hl. apply list_elem_of_here.
Qed.

(** *** Steps of the grace period *)

Lemma phase_busy s l1 ph t :
  phase_ok s l1 ph → (t < num_threads)%nat → ¬ calm (qpcs s t) →
  (ph = PStart t ∧ starting s (qpcs s t)) ∨ (∃ R, ph = PActive R ∧ t ∈ R ∧ qpcs s t = QSub (epoch s)) ∨
  (ph = PFinal t ∧ finishing s l1 (qpcs s t)).
Proof.
  intros Hph Ht Hc. destruct ph as [|u|R|u]; simpl in Hph.
  - destruct Hph as [_ Ho]. by destruct (Ho t Ht).
  - destruct Hph as (_ & _ & _ & _ & Hst & Ho). destruct (decide (t = u)) as [->|Hne]; [auto|]. by destruct (Ho t Ht Hne).
  - destruct Hph as (_ & _ & _ & _ & _ & Hin & Hout). destruct (decide (t ∈ R)) as [Hr|Hr]; [|by destruct (Hout t Ht Hr)].
    destruct (Hin t Hr) as (_ & _ & [?|?]); [done|]. right. left. eauto.
  - destruct Hph as (_ & _ & Hfi & Ho). destruct (decide (t = u)) as [->|Hne]; [auto|]. by destruct (Ho t Ht Hne).
Qed.

Lemma phase_none s l1 ph : phase_ok s l1 ph → to_free1 s = None → ph = PIdle.
Proof. destruct ph; simpl; naive_solver. Qed.

Lemma synced_other s s' t p' u :
  synced s u → u ≠ t → epoch s' = epoch s → local_epoch s' u = local_epoch s u → qpcs s' = upd (qpcs s) t p' → synced s' u.
Proof. intros [H1 H2] Hne He Hl Hp. split; [by rewrite He, Hl|]. by rewrite Hp, upd_ne. Qed.

Lemma size_threads t : (t < num_threads)%nat → size (threads ∖ {[t]}) = (num_threads - 1)%nat.
Proof.
  intros Ht. rewrite size_difference by (rewrite singleton_subseteq_l; by apply elem_of_threads).
  rewrite size_singleton. unfold threads. by rewrite size_set_seq.
Qed.

Context (Hnum : Z.of_nat num_threads < 2 ^ 32).

(** A grace period starts: everybody but [t] has to acknowledge it. *)
Lemma phase_begin s s' l1 t p' :
  (t < num_threads)%nat → (1 < num_threads)%nat → 0 ≤ epoch s < 2 ^ 32 →
  (∀ u, (u < num_threads)%nat → u ≠ t → synced s u) →
  epoch s' = u32 (epoch s + 1) → local_epoch s' = upd (local_epoch s) t (u32 (epoch s + 1)) →
  qpcs s' = upd (qpcs s) t p' → calm p' → num_remaining s' = rem0 → to_free1 s' ≠ None →
  (∀ e, e ∈ l1 → refs s' e ⊆ threads ∧ t ∉ refs s' e) → phase_ok s' l1 (PActive (threads ∖ {[t]})).
Proof using Hnum.
  intros Ht HN Hep Ho He Hl Hp Hc Hrem H1 Hx. pose proof (size_threads t Ht) as Hsz. simpl. split_and!; try done.
  - set_solver.
  - intros E. rewrite E, size_empty in Hsz. lia.
  - rewrite Hrem, Hsz. unfold rem0. rewrite u32_small; lia.
  - intros e Hie. destruct (Hx e Hie). set_solver.
  - intros u Hu. assert (Hut : u ≠ t) by set_solver. assert (Hun : (u < num_threads)%nat) by (apply elem_of_threads; set_solver).
    destruct (Ho u Hun Hut) as [Hlu Hcu]. rewrite Hl, He, Hp, !upd_ne, Hlu by done. auto.
  - intros u Hun Hu. apply elem_of_threads in Hun.
    destruct (decide (u = t)) as [->|Hut]; [|set_solver]. split.
    + by rewrite He, Hl, upd_eq.
    + by rewrite Hp, upd_eq.
Qed.

Lemma many_tf1 s ph c : qinv s ph c → to_free1 s ≠ None → (1 < num_threads)%nat.
Proof.
  intros Hi H1. pose proof (qi_content _ _ _ Hi P1) as Hc. simpl in Hc. destruct (c P1) as [|e l] eqn:E; [done|].
  apply (qi_many _ _ _ Hi P1 e). rewrite E. apply list_elem_of_here.
Qed.

Lemma step_free_cas1 s ph c t e :
  qinv s ph c → (t < num_threads)%nat → qpcs s t = FStart e → good (free_cas1 s t e).
Proof.
  intros Hi Ht Hpc. pose proof (holder_content s ph c t Hi) as Hh. rewrite Hpc in Hh. destruct Hh as [Hce Hne].
  unfold free_cas1. destruct (to_free1 s) eqn:E1.
  { eapply (good_stay s _ ph c t (GLoad e)); [done|frames|by rewrite Hpc|done..]. }
  pose proof (phase_none _ _ _ (qi_phase _ _ _ Hi) E1) as ->. destruct (qi_phase _ _ _ Hi) as [_ Ho].
  pose proof (qi_content _ _ _ Hi P1) as Hc1. simpl in Hc1. rewrite E1 in Hc1. apply chain_nil in Hc1.
  apply (good_swap s _ PIdle (PStart t) c t FLoad P1); try done.
  - apply (qi_epoch _ _ _ Hi).
  - rewrite Hce. simpl. auto.
  - rewrite decide_True by done. simpl. rewrite upd_eq. split_and!; try done.
    + intros x. rewrite Hce. intros ->%list_elem_of_singleton. by apply (uo_freeing _ (qi_users _ _ _ Hi)).
    + apply (Ho t Ht).
    + intros u Hu Hut. eapply (synced_other s); eauto.
Qed.

Lemma step_starting s ph c t :
  qinv s ph c → (t < num_threads)%nat → starting s (qpcs s t) →
  match qpcs s t with
  | FLoad => good (set_qpc s t (FSetRem (epoch s)))
  | FSetRem ep => good (set_qpc (set_rem s rem0) t (FSetEpoch ep))
  | FSetEpoch ep => good (free_set_epoch s t ep)
  | _ => True
  end.
Proof using Hnum.
  intros Hi Ht Hst. pose proof (holder_content s ph c t Hi) as Hh.
  destruct (phase_busy _ _ _ t (qi_phase _ _ _ Hi) Ht) as [[-> _]|[(R & -> & _ & E)|[-> Hfi]]].
  { intros Hc. by apply (calm_not_starting s _ Hc). }
  2: { by rewrite E in Hst. }
  2: { by destruct (qpcs s t). }
  destruct (qi_phase _ _ _ Hi) as (_ & H1 & Hx & Hlt & _ & Ho).
  assert (Hoth : ∀ s' p', epoch s' = epoch s → local_epoch s' = local_epoch s → qpcs s' = upd (qpcs s) t p' →
            ∀ u, (u < num_threads)%nat → u ≠ t → synced s' u).
  { intros s' p' He Hl Hp u Hu Hut. eapply (synced_other s); eauto. by rewrite Hl. }
  pose proof (qi_epoch _ _ _ Hi) as Hep.
  destruct (qpcs s t) eqn:Hpc; try done; simpl in Hst.
  - eapply (good_phase s _ _ (PStart t) c t _ Hi); try done. simpl. rewrite upd_eq. split_and!; try done.
    by eapply Hoth.
  - eapply (good_phase s _ _ (PStart t) c t _ Hi); try done. simpl. rewrite upd_eq. split_and!; try done.
    by eapply Hoth.
  - destruct Hst as [-> Hrem]. eapply (good_phase s _ _ (PActive (threads ∖ {[t]})) c t _ Hi); try done.
    + apply u32_range.
    + eapply (phase_begin s); try done; [by eapply many_tf1|].
      intros e He. split; [apply (uo_threads _ (qi_users _ _ _ Hi))|by apply Hx].
Qed.

Lemma step_load s ph c t :
  qinv s ph c → (t < num_threads)%nat → qpcs s t = QLoad → good (quiescent_load s t).
Proof.
  intros Hi Ht Hpc. pose proof (holder_content s ph c t Hi) as Hh. rewrite Hpc in Hh. simpl in Hh.
  unfold quiescent_load. destruct (epoch s =? local_epoch s t) eqn:E; Zbool.
  { eapply (good_stay s _ ph c t (WFree None 0)); [done|frames|by rewrite Hpc|done..| |done|by rewrite Hpc].
    rewrite Hh. split; [done|]. by intros ? ?%not_elem_of_nil. }
  assert (∃ R, ph = PActive R ∧ t ∈ R) as (R & -> & HR).
  { pose proof (qi_phase _ _ _ Hi) as Hph. destruct ph as [|u|R|u]; simpl in Hph.
    - destruct Hph as [_ Ho]. by destruct (Ho t Ht).
    - destruct Hph as (_ & _ & _ & Hl & _ & Ho). destruct (decide (t = u)) as [->|Hne]; [done|by destruct (Ho t Ht Hne)].
    - destruct Hph as (_ & _ & _ & _ & _ & _ & Ho). destruct (decide (t ∈ R)) as [HR|HR]; [eauto|by destruct (Ho t Ht HR)].
    - destruct Hph as (_ & _ & Hfi & Ho). destruct (decide (t = u)) as [->|Hne]; [by rewrite Hpc in Hfi|by destruct (Ho t Ht Hne)]. }
  eapply (good_phase s _ _ (PActive R) c t _ Hi); try done; [apply (qi_epoch _ _ _ Hi)|by rewrite Hpc|].
  destruct (qi_phase _ _ _ Hi) as (H1 & H2 & H3 & H4 & H5 & Hin & Ho). simpl. split_and!; try done.
  - intros u Hu. destruct (Hin u Hu) as (Hl1 & Hl2 & Hcu). split; [done|]. split; [done|].
    unfold upd. case_decide; [by right|done].
  - intros u Hu Hur. eapply (synced_other s _ t (QSub (epoch s))); [eauto|by intros ->|done..].
Qed.

Lemma step_sub s ph c t ep :
  qinv s ph c → (t < num_threads)%nat → qpcs s t = QSub ep → ∃ s', quiescent_sub s t ep = Some s' ∧ good s'.
Proof using Hnum.
  intros Hi Ht Hpc. pose proof (holder_content s ph c t Hi) as Hh. rewrite Hpc in Hh. simpl in Hh.
  destruct (phase_busy _ _ _ t (qi_phase _ _ _ Hi) Ht) as [[_ Hst]|[(R & -> & HtR & E)|[_ Hfi]]];
    [rewrite Hpc; simpl; tauto|by rewrite Hpc in Hst| |by rewrite Hpc in Hfi].
  rewrite Hpc in E. injection E as ->. pose proof (qi_epoch _ _ _ Hi) as Hep.
  destruct (qi_phase _ _ _ Hi) as (HR & HR0 & Hrem & H1 & Hx & Hin & Ho).
  assert (Hnt : ∀ e, t ∉ refs s e) by (intros e; apply (uo_inside _ (qi_users _ _ _ Hi)); by rewrite Hpc).
  assert (Hsz : (1 ≤ size R ≤ num_threads)%nat).
  { split.
    - assert (size R ≠ 0%nat) by (intros E%size_empty_inv; by apply HR0, leibniz_equiv). lia.
    - apply subseteq_size in HR. unfold threads in HR. by rewrite size_set_seq in HR. }
  unfold quiescent_sub. rewrite (proj2 (Z.leb_le 1 _)) by lia. eexists. split; [done|].
  rewrite Hrem. destruct (Z.eqb_spec (Z.of_nat (size R)) 1) as [E1|E1].
  - assert (R = {[t]}) as -> by (apply size_one_elem; [done|lia]).
    eapply (good_phase s _ _ (PFinal t) c t _ Hi); try done; [by rewrite Hpc|]. simpl. rewrite upd_eq. split_and!; try done.
    + split; [done|]. intros e He. change (refs s e = ∅). pose proof (Hx e He). specialize (Hnt e). set_solver.
    + intros u Hu Hut. eapply (synced_other s); eauto. apply Ho; set_solver.
  - eapply (good_phase s _ _ (PActive (R ∖ {[t]})) c t (WFree None 0) Hi); try done;
      [rewrite Hh; split; [done|by intros ? ?%not_elem_of_nil]|by rewrite Hpc|].
    assert (Hsz' : size (R ∖ {[t]}) = (size R - 1)%nat).
    { rewrite size_difference by set_solver. by rewrite size_singleton. }
    simpl. split_and!; try done.
    + set_solver.
    + intros E. rewrite E, size_empty in Hsz'. lia.
    + rewrite Hsz', u32_small; lia.
    + intros e He. change (refs s e ⊆ R ∖ {[t]}). pose proof (Hx e He). specialize (Hnt e). set_solver.
    + intros u Hu. destruct (Hin u) as (Hl1 & Hl2 & Hcu); [set_solver|]. rewrite !upd_ne by set_solver. done.
    + intros u Hu Hur. destruct (decide (u = t)) as [->|Hut].
      * split; simpl; by rewrite upd_eq.
      * eapply (synced_other s); eauto; [apply Ho; set_solver|]. simpl. by apply upd_ne.
Qed.

(** The steps of the worker that finishes a grace period. *)
Definition finish_step (s : qs) (t : nat) (spurious : bool) : option qs :=
  match qpcs s t with
  | QTf1 ep => quiescent_tf1 s t ep
  | QTf2 ep tf => Some (quiescent_tf2 s t ep tf)
  | QCas ep tf new => Some (quiescent_cas s t ep tf new spurious)
  | QSet1 ep tf new => quiescent_set1 s t ep tf new
  | QSetRem ep tf => Some (set_qpc (set_rem s rem0) t (QSetEpoch ep tf))
  | QSetEpoch ep tf => Some (quiescent_set_epoch s t ep tf)
  | QClear ep tf => Some (quiescent_clear s t ep tf)
  | _ => None
  end.

Lemma step_finishing s ph c t spurious :
  qinv s ph c → (t < num_threads)%nat → finishing s (c P1) (qpcs s t) →
  ∃ s', finish_step s t spurious = Some s' ∧ good s'.
Proof using Hnum.
  intros Hi Ht Hfi. pose proof (holder_content s ph c t Hi) as Hh.
  destruct (phase_busy _ _ _ t (qi_phase _ _ _ Hi) Ht) as [[-> Hst]|[(R & -> & _ & E)|[-> _]]].
  { intros Hc. by apply (calm_not_finishing s (c P1) _ Hc). }
  { by destruct (qpcs s t). }
  { by rewrite E in Hfi. }
  destruct (qi_phase _ _ _ Hi) as (_ & H1 & _ & Ho). pose proof (qi_epoch _ _ _ Hi) as Hep.
  assert (Hoth : ∀ s' p', epoch s' = epoch s → (∀ u, u ≠ t → local_epoch s' u = local_epoch s u) →
            qpcs s' = upd (qpcs s) t p' → ∀ u, (u < num_threads)%nat → u ≠ t → synced s' u).
  { intros s' p' He Hl Hp u Hu Hut. eapply (synced_other s _ t p'); eauto. }
  pose proof (qi_content _ _ _ Hi P1) as Hc1. pose proof (qi_content _ _ _ Hi P2) as Hc2. simpl in Hc1, Hc2.
  unfold finish_step. destruct (qpcs s t) eqn:Hpc; try done; simpl in Hh, Hfi.
  - destruct Hfi as [-> Hx]. unfold quiescent_tf1. rewrite bool_decide_eq_true_2 by done. eexists. split; [done|].
    eapply (good_phase s _ _ (PFinal t) c t _ Hi); try done; [by rewrite Hpc|]. simpl. rewrite upd_eq. split_and!; try done.
    by eapply Hoth.
  - destruct Hfi as (-> & -> & Hx). eexists. split; [done|]. unfold quiescent_tf2. case_bool_decide as E2.
    + eapply (good_phase s _ _ (PFinal t) c t _ Hi); try done; [by rewrite Hpc|]. simpl. rewrite upd_eq. split_and!; try done.
      by eapply Hoth.
    + eapply (good_phase s _ _ (PFinal t) c t _ Hi); try done; [by rewrite Hpc|]. simpl. rewrite upd_eq. split_and!; try done.
      by eapply Hoth.
  - destruct Hfi as (-> & -> & Hnew & H2 & Hx). eexists. split; [done|]. unfold quiescent_cas.
    destruct (negb spurious && bool_decide (to_free2 s = new)) eqn:E.
    + apply andb_true_iff in E as [_ E]. apply bool_decide_eq_true in E. subst new.
      eapply (good_swap s _ _ (PFinal t) c t _ P2 Hi); try done; [by rewrite Hh|by rewrite Hpc|].
      rewrite decide_False by done. simpl. rewrite upd_eq. split_and!; try done. by eapply Hoth.
    + eapply (good_phase s _ _ (PFinal t) c t _ Hi); try done; [by rewrite Hpc|]. simpl. rewrite upd_eq. split_and!; try done.
      by eapply Hoth.
  - destruct Hfi as (-> & -> & Hnew & Hx). unfold quiescent_set1. rewrite bool_decide_eq_true_2 by done.
    eexists. split; [done|].
    eapply (good_swap s _ _ (PFinal t) c t _ P1 Hi); try done; [by rewrite Hpc|].
    rewrite decide_True by done. simpl. rewrite upd_eq. split_and!; try done. by eapply Hoth.
  - subst ep. eexists. split; [done|].
    eapply (good_phase s _ _ (PFinal t) c t _ Hi); try done; [by rewrite Hpc|]. simpl. rewrite upd_eq. split_and!; try done.
    by eapply Hoth.
  - destruct Hfi as [-> Hrem]. eexists. split; [done|].
    eapply (good_phase s _ _ (PActive (threads ∖ {[t]})) c t _ Hi); try done; [apply u32_range|by rewrite Hpc|].
    eapply (phase_begin s); try done; [by eapply many_tf1|].
    intros e He. split; [apply (uo_threads _ (qi_users _ _ _ Hi))|].
    apply (uo_inside _ (qi_users _ _ _ Hi)). by rewrite Hpc.
  - destruct Hfi as (-> & -> & Hx). eexists. split; [done|].
    eapply (good_swap s _ _ PIdle c t _ P1 Hi); try done; [by rewrite Hh|by rewrite Hpc|].
    rewrite decide_True by done. simpl. split; [done|]. intros u Hu. destruct (decide (u = t)) as [->|Hut].
    + split; simpl; by rewrite upd_eq.
    + eapply Hoth; try done. intros v Hv. simpl. by apply upd_ne.
Qed.

(** *** All steps *)

Lemma good_init : good qinit.
Proof.
  exists PIdle, (λ _, []). split; simpl; try done; try lia.
  - split; [constructor|by intros ? ? ? ?%not_elem_of_nil|]. intros e. rewrite lookup_empty. split; [by intros [? ?]|].
    by intros [? ?%not_elem_of_nil].
  - by intros [].
  - by intros ? ? ?%not_elem_of_nil.
Qed.

(** Alone, a worker frees the socket at once. *)
Lemma free_single s t e :
  num_threads = 1%nat → (t < num_threads)%nat → limbo s !! e = None → fev_poller_free_socket s t e = Some s.
Proof.
  clear Hnum. intros HN Ht He. unfold fev_poller_free_socket. rewrite HN. simpl. unfold fev_free. simpl. rewrite lookup_insert_eq.
  rewrite bool_decide_eq_true_2.
  - rewrite delete_insert_eq, delete_id by done. by destruct s.
  - apply set_eq. intros u. rewrite elem_of_users. set_solver by lia.
Qed.

Lemma good_step s t l : good s → qenabled s t l = true → ∃ s', qstep s t l = Some s' ∧ good s'.
Proof using Hnum.
  intros (ph & c & Hi) [Ht%Nat.ltb_lt Hen]%andb_true_iff. unfold qstep.
  pose proof (holder_content s ph c t Hi) as Hh.
  pose proof (λ b, step_finishing s ph c t b Hi Ht) as Hfin. pose proof (step_starting s ph c t Hi Ht) as Hsta.
  pose proof (phase_busy _ _ _ t (qi_phase _ _ _ Hi) Ht) as Hbusy.
  assert (Hnonsub : ¬ calm (qpcs s t) → (∀ ep, qpcs s t ≠ QSub ep) → starting s (qpcs s t) ∨ finishing s (c P1) (qpcs s t)).
  { intros Hc Hq. destruct (Hbusy Hc) as [[_ ?]|[(R & _ & _ & E)|[_ ?]]]; [auto|by destruct (Hq _ E)|auto]. }
  unfold finish_step in Hfin.
  destruct (qpcs s t) eqn:Hpc, l as [x| |b]; try done; simpl in Hnonsub.
  - apply bool_decide_eq_true in Hen. destruct (decide (num_threads = 1%nat)) as [HN|HN].
    + exists s. split; [by apply free_single|by exists ph, c].
    + unfold fev_poller_free_socket. rewrite (proj2 (Nat.eqb_neq _ _) HN). unfold free_start.
      rewrite (proj2 (Nat.ltb_lt 1 _)) by lia. eexists. split; [done|]. eapply good_free; eauto. lia.
  - eexists. split; [done|]. by eapply good_quiescent.
  - eexists. split; [done|]. by eapply step_free_cas1.
  - eexists. split; [done|]. by apply Hsta.
  - eexists. split; [done|]. apply Hsta. by destruct Hnonsub as [?|?]; [tauto|done|..].
  - eexists. split; [done|]. apply Hsta. by destruct Hnonsub as [?|?]; [tauto|done|..].
  - eexists. split; [done|]. eapply good_link; [done|by rewrite Hpc|done].
  - eexists. split; [done|]. unfold free_cas2. destruct (negb b && bool_decide (to_free2 s = next s e)) eqn:E.
    + apply andb_true_iff in E as [_ E]. apply bool_decide_eq_true in E. by eapply good_push.
    + eapply good_link; [done|by rewrite Hpc|done].
  - eexists. split; [done|]. eapply (good_stay s _ ph c t QRun); [done|frames|by rewrite Hpc|done..].
  - eexists. split; [done|]. by eapply step_load.
  - by eapply step_sub.
  - apply (Hfin b). by destruct Hnonsub as [?|?]; [tauto|done|..].
  - apply (Hfin b). by destruct Hnonsub as [?|?]; [tauto|done|..].
  - apply (Hfin b). by destruct Hnonsub as [?|?]; [tauto|done|..].
  - apply (Hfin b). by destruct Hnonsub as [?|?]; [tauto|done|..].
  - apply (Hfin b). by destruct Hnonsub as [?|?]; [tauto|done|..].
  - apply (Hfin b). by destruct Hnonsub as [?|?]; [tauto|done|..].
  - apply (Hfin b). by destruct Hnonsub as [?|?]; [tauto|done|..].
  - unfold free_step. destruct cur as [e|].
    + destruct (good_free_step s ph c t e n (u32 (n + 1)) Hi Hpc) as [-> Hg]. simpl. eauto.
    + eexists. split; [done|]. destruct Hh as [Hh%chain_nil _].
      destruct (0 <? n); (eapply (good_stay s _ ph c t); [done|frames|by rewrite Hpc|done..|by rewrite Hpc]).
  - eexists. split; [done|]. eapply (good_stay s _ ph c t QRun); [done|frames|by rewrite Hpc|done..].
Qed.

Lemma good_reach s : reach qnext qinit s → good s.
Proof using Hnum.
  apply reach_invariant; [apply good_init|]. intros s1 [t l] s2 Hg Hs. unfold qnext in Hs. simpl in Hs.
  destruct (qenabled s1 t l) eqn:He; [|done]. destruct (good_step s1 t l Hg He) as (s' & Hs' & Hg'). congruence.
Qed.

(** *** The end *)

Lemma free_list_ok l : ∀ fuel s cur n,
  chain (next s) cur l → NoDup l → (∀ e, e ∈ l → limbo s !! e = Some ∅) → (length l ≤ fuel)%nat →
  ∃ n', fev_poller_free_socket_list fuel s cur n = Some (set_limbo s (foldl (λ m e, delete e m) (limbo s) l), n').
Proof.
  clear Hnum. induction l as [|e l IH]; intros fuel s cur n Hc Hn He Hf.
  - simpl in Hc. subst cur. exists n. destruct fuel; by destruct s.
  - destruct Hc as [-> Hc]. destruct fuel as [|fuel]; [simpl in Hf; lia|]. apply NoDup_cons in Hn as [Hel Hn].
    cbn [fev_poller_free_socket_list]. unfold free_socket_iter, fev_free. rewrite (He e) by apply list_elem_of_here.
    rewrite bool_decide_eq_true_2 by done. cbn [mbind option_bind].
    destruct (IH fuel (set_limbo s (delete e (limbo s))) (next s e) (u32 (n + 1))) as [n' ->]; [done|done| |simpl in Hf; lia|].
    + intros x Hx. simpl. rewrite lookup_delete_ne by (by intros ->). apply He. by apply list_elem_of_further.
    + by exists n'.
Qed.

Lemma lookup_foldl_delete (l : list loc) (m : gmap loc (gset nat)) x :
  foldl (λ m e, delete e m) m l !! x = if decide (x ∈ l) then None else m !! x.
Proof.
  revert m. induction l as [|e l IH]; intros m; [done|]. simpl. rewrite IH. destruct (decide (x ∈ l)).
  - rewrite decide_True; [done|by apply list_elem_of_further].
  - destruct (decide (x = e)) as [->|Hne].
    + rewrite lookup_delete_eq, decide_True; [done|apply list_elem_of_here].
    + rewrite lookup_delete_ne, decide_False; [done| |done]. rewrite elem_of_cons. tauto.
Qed.

Lemma layout_length m c p : layout m c → (length (c p) ≤ size m)%nat.
Proof.
  clear Hnum. intros [Hn _ Hl]. rewrite <- size_dom, <- (size_list_to_set (C := gset loc)) by apply Hn. apply subseteq_size.
  intros e He. apply elem_of_dom, Hl. apply elem_of_list_to_set in He. eauto.
Qed.

Lemma remaining_ok s ph c :
  qinv s ph c → (∀ t, qpcs s t = QRun) →
  ∃ s', fev_poller_free_remaining_sockets s = Some s' ∧ limbo s' = ∅.
Proof.
  clear Hnum. intros Hi Hrun. unfold fev_poller_free_remaining_sockets.
  set (s1 := set_limbo s _). set (fuel := size (limbo s1)).
  pose proof (lay_fmap _ _ (λ _, ∅) (qi_layout _ _ _ Hi) : layout (limbo s1) c) as Hlay.
  assert (Hemp : ∀ p e, e ∈ c p → limbo s1 !! e = Some ∅).
  { intros p e He. assert (is_Some (limbo s !! e)) as [u Hu] by (apply (lay_limbo _ _ (qi_layout _ _ _ Hi)); eauto).
    simpl. by rewrite lookup_fmap, Hu. }
  destruct (free_list_ok (c P1) fuel s1 (to_free1 s1) 0) as [n1 E1];
    [apply (qi_content _ _ _ Hi P1)|apply (lay_nodup _ _ Hlay)|apply Hemp|by apply layout_length|].
  rewrite E1. cbn [mbind option_bind]. set (s2 := set_limbo s1 _).
  destruct (free_list_ok (c P2) fuel s2 (to_free2 s2) 0) as [n2 E2];
    [apply (qi_content _ _ _ Hi P2)|apply (lay_nodup _ _ Hlay)| |by apply layout_length|].
  { intros e He. unfold s2. simpl. rewrite lookup_foldl_delete, decide_False; [by apply (Hemp P2)|].
    intros He1. by specialize (lay_unique _ _ Hlay P1 P2 e He1 He). }
  rewrite E2. cbn [mbind option_bind]. eexists. split; [done|]. apply map_empty. intros x.
  unfold s2. simpl. rewrite !lookup_foldl_delete. destruct (decide (x ∈ c P2)) as [|H2]; [done|].
  destruct (decide (x ∈ c P1)) as [|H1]; [done|]. apply eq_None_not_Some. intros Hx.
  apply (lay_limbo _ _ Hlay) in Hx as [[| |t] Hp]; [done..|].
  pose proof (holder_content s ph c t Hi) as Hh. rewrite Hrun in Hh. simpl in Hh. rewrite Hh in Hp. by apply not_elem_of_nil in Hp.
Qed.
End qsbr.

(** ** Properties *)

(** C23: A socket is freed only when every worker that might have used it when it
    was closed has become quiescent since, and it is freed only once; the
    assertions of [fev_qsbr_free] and [fev_qsbr_quiescent] hold. This is so for
    any number of workers and any interleaving, although the epochs and the
    counters wrap around and addresses are used again. *)
Theorem qsbr_reclaims_safely num_threads s t l :
  Z.of_nat num_threads < 2 ^ 32 → reach (qnext num_threads) qinit s → qenabled num_threads s t l = true →
  ∃ s', qstep num_threads s t l = Some s'.
Proof.
  intros HN Hr He. destruct (good_step num_threads HN s t l) as (s' & Hs & _); [by apply good_reach|done|eauto].
Qed.

(** No socket is forgotten: when the workers have returned, what
    [fev_poller_free_remaining_sockets] frees is exactly what is left in limbo. *)
Theorem qsbr_frees_everything num_threads s :
  Z.of_nat num_threads < 2 ^ 32 → reach (qnext num_threads) qinit s → (∀ t, qpcs s t = QRun) →
  ∃ s', fev_poller_free_remaining_sockets s = Some s' ∧ limbo s' = ∅.
Proof.
  intros HN Hr Hrun. destruct (good_reach num_threads HN s Hr) as (ph & c & Hi). by eapply remaining_ok.
Qed.

(** Two workers. Worker 0 closes the sockets 1 and 2, then worker 1 becomes
    quiescent and takes [n] steps: it frees socket 1 and starts the grace period of
    socket 2. *)
Definition ex_schedule (n : nat) : list (nat * qlabel) :=
  (0%nat, LFree 1) :: replicate 5 (0%nat, LGo false) ++
  (0%nat, LFree 2) :: replicate 4 (0%nat, LGo false) ++
  (1%nat, LQuiescent) :: replicate n (1%nat, LGo false).

Definition ex_qs (n : nat) : qs := default qinit (run (qnext 2) qinit (ex_schedule n)).

Lemma ex_qs_reach : reach (qnext 2) qinit (ex_qs 8) ∧ reach (qnext 2) qinit (ex_qs 11).
Proof.
  split; (eapply run_reach; [constructor|]); [instantiate (1 := ex_schedule 8)|instantiate (1 := ex_schedule 11)];
    vm_compute; reflexivity.
Qed.

Lemma ex_qs_values :
  qpcs (ex_qs 8) 1%nat = WFree (Some 1%positive) 0 ∧ qenabled 2 (ex_qs 8) 1 (LGo false) = true ∧
  map_to_list (limbo (ex_qs 11)) = [(2%positive, ∅)].
Proof. by vm_compute. Qed.

Lemma ex_qs_run t : qpcs (ex_qs 11) t = QRun.
Proof. destruct t as [|[|t]]; vm_compute; reflexivity. Qed.

(** Worker 1 is about to free socket 1. *)
Lemma qsbr_reclaims_safely_witness :
  qpcs (ex_qs 8) 1%nat = WFree (Some 1%positive) 0 ∧ ∃ s', qstep 2 (ex_qs 8) 1 (LGo false) = Some s'.
Proof.
  split; [apply ex_qs_values|]. apply (qsbr_reclaims_safely 2); [done|apply ex_qs_reach|apply ex_qs_values].
Defined.

(** Socket 2 is left. *)
Lemma qsbr_frees_everything_witness :
  map_to_list (limbo (ex_qs 11)) = [(2%positive, ∅)] ∧
  ∃ s', fev_poller_free_remaining_sockets (ex_qs 11) = Some s' ∧ limbo s' = ∅.
Proof.
  split; [apply ex_qs_values|]. apply (qsbr_frees_everything 2); [done|apply ex_qs_reach|apply ex_qs_run].
Defined.
