(* ===== verification/QsbrQueue.v ===== *)
(** The queue of [src/src/fev_qsbr_queue.h]: an unbounded lock-free queue whose nodes are never used again before
    all threads have been quiescent (file [Qsbr]).

    A step is one access to the queue or to a node that is in it. A weak compare-and-swap may fail although the
    value is the expected one; the label says so. The caller of a pop hands the node it gets back over to QSBR: the node
    may be freed when every thread has announced a quiescent state since then. Accessing a freed node or [NULL] is
    undefined. *)

From S2P Require Import Prelude.

(** ** The queue *)

Record fev_qsbr_queue_node := mk_node { value : Z; next : option loc }.

(** [n]: the node that is pushed; [t]: the local variable [tail]; [h]: the local variable [head]. *)
Inductive qpc :=
| QIdle
| PTail (n : loc) | PLink (n : loc) (t : option loc) | PHelp (n : loc) (t nx : option loc) | PSwing (n : loc) (t : option loc)
| DHead | DNext (h : loc) | DCas (h nx : loc) | DValue (h nx : loc)
| DRet (r : option (Z * loc)).

#[export] Instance qpc_eq_dec : EqDecision qpc.
Proof. solve_decision. Defined.

(** Ghost: the operations in the order in which they take effect. *)
Inductive event := EPush (v : Z) | EPop (r : option Z).

Record queue := mk_queue {
  nodes : gmap loc fev_qsbr_queue_node;
  head : loc;
  tail : option loc;
  pcs : nat → qpc;
  freed : gset loc;
  pending : gmap loc (gset nat);       (* released nodes, and the threads that have not been quiescent since *)
  hist : list (nat * event);           (* latest first *)
}.

Implicit Types (s : queue) (t : nat).

Definition go s t p := mk_queue (nodes s) (head s) (tail s) (upd (pcs s) t p) (freed s) (pending s) (hist s).
Definition set_nodes s m := mk_queue m (head s) (tail s) (pcs s) (freed s) (pending s) (hist s).
Definition set_head s h := mk_queue (nodes s) h (tail s) (pcs s) (freed s) (pending s) (hist s).
Definition set_tail s h := mk_queue (nodes s) (head s) h (pcs s) (freed s) (pending s) (hist s).
Definition set_freed s f p := mk_queue (nodes s) (head s) (tail s) (pcs s) f p (hist s).
Definition log s t e := mk_queue (nodes s) (head s) (tail s) (pcs s) (freed s) (pending s) ((t, e) :: hist s).

Definition fev_qsbr_queue_init (init_node : loc) : queue :=
  mk_queue {[ init_node := mk_node 0 None ]} init_node (Some init_node) (λ _, QIdle) ∅ ∅ [].

Definition fev_qsbr_queue_fini s : loc := head s.

(** Every access to a node. *)
Definition get s (l : loc) : option fev_qsbr_queue_node := if decide (l ∈ freed s) then None else nodes s !! l.

(** [fev_qsbr_queue_push(queue, node, value)]: the stores to the node, which is not shared yet. *)
Definition push_start s t (n : loc) (v : Z) : queue := go (set_nodes s (<[n := mk_node v None]> (nodes s))) t (PTail n).

Definition push_step s t (sp : bool) (p : qpc) : option queue :=
  match p with
  | PTail n => Some (go s t (PLink n (tail s)))
  | PLink n t0 =>
      l ← t0;
      x ← get s l;
      if sp || negb (bool_decide (next x = None)) then Some (go s t (PHelp n t0 (next x)))
      else
        y ← get s n;
        Some (go (log (set_nodes s (<[l := mk_node (value x) (Some n)]> (nodes s))) t (EPush (value y))) t (PSwing n t0))
  | PHelp n t0 nx =>
      if negb sp && bool_decide (tail s = t0) then Some (go (set_tail s nx) t (PLink n t0))
      else Some (go s t (PLink n (tail s)))
  | PSwing n t0 => Some (go (if bool_decide (tail s = t0) then set_tail s (Some n) else s) t QIdle)
  | _ => None
  end.

Definition pop_step s t (sp : bool) (p : qpc) : option queue :=
  match p with
  | DHead => Some (go s t (DNext (head s)))
  | DNext h =>
      x ← get s h;
      match next x with
      | None => Some (go (log s t (EPop None)) t (DRet None))
      | Some nx => Some (go s t (DCas h nx))
      end
  | DCas h nx =>
      if negb sp && bool_decide (head s = h) then
        y ← nodes s !! nx;
        Some (go (log (set_head s nx) t (EPop (Some (value y)))) t (DValue h nx))
      else Some (go s t (DNext (head s)))
  | DValue h nx => x ← get s nx; Some (go s t (DRet (Some (value x, h))))
  | _ => None
  end.

Inductive label :=
| LPush (t : nat) (n : loc) (v : Z)
| LPop (t : nat)
| LStep (t : nat) (sp : bool)      (* [sp]: a weak compare-and-swap fails without a reason *)
| LRet (t : nat)                   (* the caller of a pop releases the node *)
| LQuiescent (t : nat)
| LFree (n : loc).

(** [N] threads. *)
Definition qstep (N : nat) s (l : label) : option queue :=
  match l with
  | LPush t n v =>
      if bool_decide (t < N) && bool_decide (pcs s t = QIdle) && bool_decide (nodes s !! n = None) then Some (push_start s t n v) else None
  | LPop t => if bool_decide (t < N) && bool_decide (pcs s t = QIdle) then Some (go s t DHead) else None
  | LStep t sp =>
      match pcs s t with
      | PTail _ | PLink _ _ | PHelp _ _ _ | PSwing _ _ => push_step s t sp (pcs s t)
      | p => pop_step s t sp p
      end
  | LRet t =>
      match pcs s t with
      | DRet None => Some (go s t QIdle)
      | DRet (Some (_, h)) => Some (go (set_freed s (freed s) (<[h := list_to_set (seq 0 N)]> (pending s))) t QIdle)
      | _ => None
      end
  | LQuiescent t =>
      match pcs s t with QIdle => Some (set_freed s (freed s) ((λ w, w ∖ {[t]}) <$> pending s)) | _ => None end
  | LFree n =>
      match pending s !! n with
      | Some w => if bool_decide (w = ∅) then Some (set_freed s ({[n]} ∪ freed s) (delete n (pending s))) else None
      | None => None
      end
  end.

(** A label is enabled if its thread can take the step at all; an enabled step that gives [None] is undefined. *)
Definition enabled (N : nat) s (l : label) : bool :=
  match l with
  | LPush t n _ => bool_decide (t < N) && bool_decide (pcs s t = QIdle) && bool_decide (nodes s !! n = None)
  | LPop t => bool_decide (t < N) && bool_decide (pcs s t = QIdle)
  | LStep t _ => match pcs s t with QIdle | DRet _ => false | _ => true end
  | LRet t => match pcs s t with DRet _ => true | _ => false end
  | LQuiescent t => bool_decide (pcs s t = QIdle)
  | LFree n => bool_decide (pending s !! n = Some ∅)
  end.

(** The steps of a machine whose weak compare-and-swap does not fail without a reason, with memory that is not freed
    while the queue is used. *)
Definition plain (l : label) : bool := match l with LStep _ sp => negb sp | LFree _ => false | _ => true end.

Definition qnext (N : nat) s (l : label) : option queue := if plain l && enabled N s l then qstep N s l else None.

(** ** What a queue is *)

(** The effect of the operations on a list of values, and whether their results are right. *)
Fixpoint replay (h : list (nat * event)) : option (list Z) :=
  match h with
  | [] => Some []
  | (_, e) :: h =>
      q ← replay h;
      match e with
      | EPush v => Some (q ++ [v])
      | EPop None => match q with [] => Some [] | _ => None end
      | EPop (Some v) => match q with x :: q => if decide (x = v) then Some q else None | [] => None end
      end
  end.

(** The nodes linked from [l] on. *)
Fixpoint linked (m : gmap loc fev_qsbr_queue_node) (l : loc) (ns : list loc) : Prop :=
  match ns with
  | [] => ∃ v, m !! l = Some (mk_node v None)
  | n :: ns => (∃ v, m !! l = Some (mk_node v (Some n))) ∧ linked m n ns
  end.

Definition vals (m : gmap loc fev_qsbr_queue_node) (ns : list loc) : list Z := omap (λ n, value <$> m !! n) ns.

(** The events of a thread. *)
Definition thist s t : list event := snd <$> filter (λ e, e.1 = t) (hist s).

(** ** The invariant *)

(** The node a thread is about to push. *)
Definition pend (p : qpc) : option loc :=
  match p with PTail n | PLink n _ | PHelp n _ _ => Some n | _ => None end.

(** [ch]: all nodes that were ever linked, in order; [hi]: the position of the head. *)
Section know.
Context (s : queue) (ch : list loc) (hi : nat).

Definition private (n : loc) : Prop := n ∉ ch ∧ ∃ v, nodes s !! n = Some (mk_node v None).
Definition in_chain (o : option loc) : Prop := ∃ l, o = Some l ∧ l ∈ ch.

Definition know (t : nat) (p : qpc) : Prop :=
  match p with
  | QIdle | DHead => True
  | PTail n => private n
  | PLink n t0 => private n ∧ in_chain t0
  | PHelp n t0 nx => private n ∧ in_chain t0 ∧ in_chain nx
  | PSwing n t0 => n ∈ ch
  | DNext h => ∃ i, ch !! i = Some h ∧ i ≤ hi
  | DCas h nx => ∃ i, ch !! i = Some h ∧ ch !! S i = Some nx ∧ i ≤ hi
  | DValue h nx => nx ∈ ch ∧ ∃ v, value <$> nodes s !! nx = Some v ∧ ∃ es, thist s t = EPop (Some v) :: es
  | DRet r => ∃ es, thist s t = EPop (fst <$> r) :: es
  end.
End know.

Record inv s (ch : list loc) (hi : nat) : Prop := {
  i_nodup : NoDup ch;
  i_link i l : ch !! i = Some l → ∃ v, nodes s !! l = Some (mk_node v (ch !! S i));
  i_head : ch !! hi = Some (head s);
  i_tail : in_chain ch (tail s);
  i_freed : freed s = ∅;
  i_hist : replay (hist s) = Some (vals (nodes s) (drop (S hi) ch));
  i_know t : know s ch hi t (pcs s t);
  i_own t t' n : pend (pcs s t) = Some n → pend (pcs s t') = Some n → t = t';
}.

Lemma thist_log s t e t' : thist (log s t e) t' = if decide (t = t') then e :: thist s t' else thist s t'.
Proof.
  unfold thist. simpl. case_decide as E; [rewrite filter_cons_True by done|rewrite filter_cons_False by done]; done.
Qed.

(** What the other threads know stays true when the chain grows at the end, the head advances, values are kept, and the
    nodes they are about to push are left alone. *)
Lemma know_mono s s' ch ch' hi hi' t p :
  know s ch hi t p → ch `prefix_of` ch' → hi ≤ hi' →
  (∀ n, pend p = Some n → n ∉ ch' ∧ nodes s' !! n = nodes s !! n) →
  (∀ l v, l ∈ ch → value <$> nodes s !! l = Some v → value <$> nodes s' !! l = Some v) →
  thist s' t = thist s t → know s' ch' hi' t p.
Proof.
  intros Hk Hp Hh Hn Hv Ht.
  assert (Hin : ∀ l, l ∈ ch → l ∈ ch') by (destruct Hp as [k ->]; intros l Hl; apply elem_of_app; by left).
  assert (Hpr : ∀ n, pend p = Some n → private s ch n → private s' ch' n).
  { intros n En [_ [v Ev]]. destruct (Hn n En) as [H1 H2]. split; [done|]. exists v. by rewrite H2. }
  assert (Hic : ∀ o, in_chain ch o → in_chain ch' o) by (intros o (l & -> & Hl); exists l; auto).
  destruct p; simpl in *; try done; rewrite ?Ht.
  - by apply Hpr.
  - destruct Hk. auto.
  - destruct Hk as (? & ? & ?). auto.
  - auto.
  - destruct Hk as (i & Hi & Hle). exists i. split; [by eapply prefix_lookup_Some|lia].
  - destruct Hk as (i & Hi & Hi' & Hle). exists i. split_and!; [by eapply prefix_lookup_Some..|lia].
  - destruct Hk as (Hi & v & Hv1 & Hes). split; [auto|]. exists v. auto.
  - exact Hk.
Qed.

(** A step of thread [t] to [p]. *)
Lemma know_step s s' ch ch' hi hi' t p :
  (∀ t, know s ch hi t (pcs s t)) → pcs s' = upd (pcs s) t p → ch `prefix_of` ch' → hi ≤ hi' →
  (∀ t' n, t' ≠ t → pend (pcs s t') = Some n → n ∉ ch' ∧ nodes s' !! n = nodes s !! n) →
  (∀ l v, l ∈ ch → value <$> nodes s !! l = Some v → value <$> nodes s' !! l = Some v) →
  (∀ t', t' ≠ t → thist s' t' = thist s t') → know s' ch' hi' t p → ∀ t', know s' ch' hi' t' (pcs s' t').
Proof.
  intros Hk -> Hp Hh Hn Hv Ht Hkt t'. destruct (decide (t = t')) as [<-|Hne]; [by rewrite upd_eq|]. rewrite upd_ne by done.
  eapply know_mono; [apply Hk|done|done|by intros n; apply Hn|done|by apply Ht].
Qed.

Lemma own_step (f : nat → qpc) t p :
  (∀ t t' n, pend (f t) = Some n → pend (f t') = Some n → t = t') →
  (∀ t' n, t' ≠ t → pend (f t') = Some n → pend p ≠ Some n) →
  ∀ t1 t2 n, pend (upd f t p t1) = Some n → pend (upd f t p t2) = Some n → t1 = t2.
Proof.
  intros Ho Hp t1 t2 n. unfold upd. repeat case_decide; subst; try done; intros H1 H2.
  - exfalso. by eapply (Hp t2).
  - exfalso. by eapply (Hp t1).
  - by eapply Ho.
Qed.

(** A step that changes nothing but the program counter, and the history by [es]. *)
Lemma inv_go s ch hi t p :
  inv s ch hi → know s ch hi t p → (pend p = pend (pcs s t) ∨ pend p = None) → inv (go s t p) ch hi.
Proof.
  intros [A1 A2 A3 A4 A5 A6 A7 A8] Hk Hp. split; try done.
  - apply (know_step s (go s t p) ch ch hi hi t p); try done. intros t' n Hne Hn. split; [|done].
    pose proof (A7 t') as Hk'. destruct (pcs s t'); simplify_eq/=; unfold private in *; naive_solver.
  - apply own_step; [done|]. intros t' n Hne Hn. destruct Hp as [-> | ->]; [|done]. intros Hn'. by apply Hne, (A8 t' t n).
Qed.

Section steps.
Context (N : nat) (s : queue) (ch : list loc) (hi : nat) (Hi : inv s ch hi).

Lemma get_eq l : get s l = nodes s !! l.
Proof using Hi. unfold get. by rewrite (i_freed _ _ _ Hi), decide_False by set_solver. Qed.

Lemma pend_private t n : pend (pcs s t) = Some n → private s ch n.
Proof using Hi. intros Hn. pose proof (i_know _ _ _ Hi t) as Hk. destruct (pcs s t); simplify_eq/=; naive_solver. Qed.

Lemma chain_node l : l ∈ ch → ∃ i v, ch !! i = Some l ∧ nodes s !! l = Some (mk_node v (ch !! S i)).
Proof using Hi. intros [i Hl]%list_elem_of_lookup. destruct (i_link _ _ _ Hi i l Hl) as [v Hv]. eauto. Qed.

Lemma vals_ext m m' ns : (∀ l, l ∈ ns → value <$> m !! l = value <$> m' !! l) → vals m ns = vals m' ns.
Proof using Type.
  induction ns as [|n ns IH]; intros H; [done|]. unfold vals in *. cbn [omap list_omap]. rewrite <- (H n) by apply list_elem_of_here.
  rewrite IH by (intros l Hl; apply H; by apply list_elem_of_further). done.
Qed.

Lemma elem_of_drop_chain l k : l ∈ drop k ch → l ∈ ch.
Proof using Type. intros [i Hl]%list_elem_of_lookup. rewrite lookup_drop in Hl. by apply list_elem_of_lookup_2 in Hl. Qed.

Lemma inv_pending p : inv (set_freed s (freed s) p) ch hi.
Proof using Hi. destruct Hi. by split. Qed.

Lemma inv_tail o : in_chain ch o → inv (set_tail s o) ch hi.
Proof using Hi. intros Ho. destruct Hi. by split. Qed.

Lemma push_start_ok t n v :
  pcs s t = QIdle → nodes s !! n = None → inv (push_start s t n v) ch hi.
Proof using Hi.
  intros Hp Hn. assert (Hc : n ∉ ch) by (intros (i & u & _ & E)%chain_node; congruence).
  assert (Hne : ∀ l, l ∈ ch → n ≠ l) by (intros l Hl <-; done).
  pose proof Hi as [A1 A2 A3 A4 A5 A6 A7 A8]. split; try done; simpl.
  - intros i l Hl. rewrite lookup_insert_ne by (by eapply Hne, list_elem_of_lookup_2). by apply A2.
  - rewrite A6. f_equal. apply vals_ext. intros l Hl%elem_of_drop_chain. by rewrite lookup_insert_ne by auto.
  - apply (know_step s (push_start s t n v) ch ch hi hi t (PTail n)); try done; simpl.
    + intros t' n' Hne' Hp'. destruct (pend_private t' n' Hp') as [H1 [u H2]]. split; [done|]. rewrite lookup_insert_ne by congruence. done.
    + intros l u Hl. by rewrite lookup_insert_ne by auto.
    + split; [done|]. exists v. apply lookup_insert_eq.
  - apply own_step; [done|]. intros t' n' _ Hp' [= ->]. destruct (pend_private t' n' Hp') as [_ [u Hu]]. congruence.
Qed.

(** The node is linked behind the last one. *)
Lemma link_ok t n (o : option loc) l v vn i :
  pcs s t = PLink n o → ch !! i = Some l → ch !! S i = None → nodes s !! l = Some (mk_node v None) → nodes s !! n = Some (mk_node vn None) →
  n ∉ ch →
  inv (go (log (set_nodes s (<[l := mk_node v (Some n)]> (nodes s))) t (EPush vn)) t (PSwing n o)) (ch ++ [n]) hi.
Proof using Hi.
  intros Hp Hl HS Hv Hvn Hc. pose proof Hi as [A1 A2 A3 A4 A5 A6 A7 A8].
  pose proof (lookup_lt_Some _ _ _ Hl) as Hlt. apply lookup_ge_None in HS. pose proof (lookup_lt_Some _ _ _ A3) as Hhi.
  assert (Hnl : l ≠ n) by (intros ->; by apply Hc, (list_elem_of_lookup_2 _ i)).
  assert (Hval : ∀ x, value <$> <[l := mk_node v (Some n)]> (nodes s) !! x = value <$> nodes s !! x).
  { intros x. destruct (decide (l = x)) as [<-|Hx]; [by rewrite lookup_insert_eq, Hv|by rewrite lookup_insert_ne]. }
  split; simpl.
  - apply NoDup_app. split_and!; [done|intros x Hx ->%list_elem_of_singleton; done|apply NoDup_singleton].
  - intros j x Hj. apply lookup_app_Some in Hj as [Hj|[Hge Hj]].
    + pose proof (lookup_lt_Some _ _ _ Hj) as Hjlt. destruct (decide (l = x)) as [<-|Hx].
      * rewrite lookup_insert_eq. exists v. assert (j = i) as -> by (eapply NoDup_lookup; done). do 2 f_equal.
        rewrite lookup_app_r by lia. by replace (S i - length ch) with 0 by lia.
      * rewrite lookup_insert_ne by done. assert (Hjs : S j < length ch).
        { destruct (decide (j = i)) as [->|]; [congruence|lia]. }
        rewrite lookup_app_l by done. by apply A2.
    + apply list_lookup_singleton_Some in Hj as [Hj <-]. rewrite lookup_insert_ne by done. exists vn. rewrite Hvn. do 2 f_equal.
      symmetry. apply lookup_ge_None. rewrite length_app. simpl. lia.
  - by apply lookup_app_l_Some.
  - destruct A4 as (x & Hx & Hin). exists x. split; [done|]. apply elem_of_app. by left.
  - done.
  - rewrite A6. simpl. f_equal. rewrite drop_app_le by lia. unfold vals at 2. rewrite omap_app. f_equal.
    + apply vals_ext. intros x _. by rewrite Hval.
    + cbn [omap list_omap]. by rewrite Hval, Hvn.
  - apply (know_step s (go (log (set_nodes s (<[l := mk_node v (Some n)]> (nodes s))) t (EPush vn)) t (PSwing n o)) ch (ch ++ [n]) hi hi t (PSwing n o));
      try done; simpl.
    + by apply prefix_app_r.
    + intros t' n' Hne Hp'. destruct (pend_private t' n' Hp') as [H1 H2]. assert (n' ≠ n) by (intros ->; apply Hne, (A8 t' t n); [done|by rewrite Hp]).
      split; [rewrite elem_of_app, list_elem_of_singleton; tauto|]. rewrite lookup_insert_ne; [done|]. intros ->. by apply H1, (list_elem_of_lookup_2 _ i).
    + intros x u _ Hu. by rewrite Hval.
    + intros t' Hne. unfold thist. simpl. by rewrite filter_cons_False by (simpl; congruence).
    + apply elem_of_app. right. apply list_elem_of_here.
  - apply own_step; [done|]. done.
Qed.

Lemma qpush_step_ok t :
  pend (pcs s t) ≠ None ∨ (∃ n o, pcs s t = PSwing n o) →
  ∃ s' ch', push_step s t false (pcs s t) = Some s' ∧ inv s' ch' hi.
Proof using Hi.
  intros Hp. pose proof (i_know _ _ _ Hi t) as Hk. destruct (pcs s t) as [|n|n t0|n t0 nx|n t0| | | | |] eqn:E;
    try (exfalso; destruct Hp as [?|(? & ? & ?)]; done); simpl in Hk |- *.
  - eexists _, ch. split; [done|]. apply inv_go; [done|split; [done|apply Hi]|left; by rewrite E].
  - destruct Hk as [Hpr (l & -> & Hl)]. cbn [mbind option_bind]. rewrite !get_eq. destruct (chain_node l Hl) as (i & v & Hli & Hv).
    rewrite Hv. cbn [mbind option_bind next value]. destruct (ch !! S i) as [x|] eqn:Ex.
    + rewrite bool_decide_eq_false_2 by done. simpl. eexists _, ch. split; [done|]. apply inv_go; [done| |left; by rewrite E].
      split_and!; [done|by exists l|]. exists x. split; [done|by eapply list_elem_of_lookup_2].
    + rewrite bool_decide_eq_true_2 by done. simpl. destruct Hpr as [Hn [vn Hvn]]. rewrite Hvn. simpl.
      eexists _, (ch ++ [n]). split; [done|]. by eapply link_ok.
  - destruct Hk as (Hpr & Ht & Hx). case_bool_decide as Et.
    + eexists _, ch. split; [done|]. apply inv_go; [by apply inv_tail|done|left; simpl; by rewrite E].
    + eexists _, ch. split; [done|]. apply inv_go; [done|split; [done|apply Hi]|left; by rewrite E].
  - eexists _, ch. split; [done|]. apply inv_go; [|done|by right]. case_bool_decide; [|done]. apply inv_tail. by exists n.
Qed.
(** A pop that finds no node behind the head it read: the queue is empty at this moment. *)
Lemma empty_ok t h i :
  pcs s t = DNext h → ch !! i = Some h → i ≤ hi → ch !! S i = None → inv (go (log s t (EPop None)) t (DRet None)) ch hi.
Proof using Hi.
  intros Hp Hh Hle HS. pose proof Hi as [A1 A2 A3 A4 A5 A6 A7 A8]. split; try done; simpl.
  - rewrite A6. simpl. apply lookup_ge_None in HS. by rewrite drop_ge by lia.
  - apply (know_step s (go (log s t (EPop None)) t (DRet None)) ch ch hi hi t (DRet None)); try done.
    + intros t' n' _ Hp'. by destruct (pend_private t' n' Hp').
    + intros t' Hne. unfold thist. simpl. by rewrite filter_cons_False by (simpl; congruence).
    + exists (thist s t). unfold thist. simpl. by rewrite filter_cons_True by done.
  - by apply own_step.
Qed.

(** A pop that advances the head. *)
Lemma advance_ok t h nx v o :
  pcs s t = DCas h nx → ch !! S hi = Some nx → nodes s !! nx = Some (mk_node v o) →
  inv (go (log (set_head s nx) t (EPop (Some v))) t (DValue h nx)) ch (S hi).
Proof using Hi.
  intros Hp HS Hv. pose proof Hi as [A1 A2 A3 A4 A5 A6 A7 A8]. split; try done; simpl.
  - rewrite A6. simpl. rewrite (drop_S _ _ _ HS). unfold vals at 1. cbn [omap list_omap]. rewrite Hv. simpl. by rewrite decide_True.
  - apply (know_step s (go (log (set_head s nx) t (EPop (Some v))) t (DValue h nx)) ch ch hi (S hi) t (DValue h nx)); try done; [lia| | |].
    + intros t' n' _ Hp'. by destruct (pend_private t' n' Hp').
    + intros t' Hne. unfold thist. simpl. by rewrite filter_cons_False by (simpl; congruence).
    + split; [by eapply list_elem_of_lookup_2|]. exists v. split; [simpl; by rewrite Hv|].
      exists (thist s t). unfold thist. simpl. by rewrite filter_cons_True by done.
  - by apply own_step.
Qed.

Lemma qpop_step_ok t :
  (match pcs s t with DHead | DNext _ | DCas _ _ | DValue _ _ => True | _ => False end) →
  ∃ s' hi', pop_step s t false (pcs s t) = Some s' ∧ inv s' ch hi'.
Proof using Hi.
  intros Hp. pose proof (i_know _ _ _ Hi t) as Hk. destruct (pcs s t) as [| | | | | |h|h nx|h nx|] eqn:E; try done; simpl in Hk |- *.
  - eexists _, hi. split; [done|]. apply inv_go; [done| |by right]. exists hi. split; [apply Hi|done].
  - destruct Hk as (i & Hh & Hle). rewrite get_eq. destruct (i_link _ _ _ Hi i h Hh) as [v Hv]. rewrite Hv. simpl.
    destruct (ch !! S i) as [nx|] eqn:ES.
    + eexists _, hi. split; [done|]. apply inv_go; [done|by exists i|by right].
    + eexists _, hi. split; [done|]. by eapply empty_ok.
  - destruct Hk as (i & Hh & Hn & Hle). case_bool_decide as Eh.
    + assert (i = hi) as -> by (eapply NoDup_lookup; [apply Hi|exact Hh|rewrite <- Eh; apply Hi]).
      destruct (i_link _ _ _ Hi _ _ Hn) as [v Hv]. rewrite Hv. simpl. eexists _, (S hi). split; [done|]. by eapply advance_ok.
    + eexists _, hi. split; [done|]. apply inv_go; [done| |by right]. exists hi. split; [apply Hi|done].
  - destruct Hk as (Hin & v & Hv & Hes). rewrite get_eq. destruct (nodes s !! nx) as [x|]; [|done]. simpl in *.
    eexists _, hi. split; [done|]. apply inv_go; [done| |by right]. simplify_eq. exact Hes.
Qed.

Lemma qstep_ok l : plain l = true → enabled N s l = true → ∃ s' ch' hi', qstep N s l = Some s' ∧ inv s' ch' hi'.
Proof using Hi.
  intros Hpl He. destruct l as [t n v|t|t sp|t|t|n]; cbn [enabled plain qstep] in *; try done.
  - rewrite He. apply andb_true_iff in He as [[_ He]%andb_true_iff Hn]. apply bool_decide_eq_true in He, Hn.
    eexists _, ch, hi. split; [done|]. by apply push_start_ok.
  - rewrite He. eexists _, ch, hi. split; [done|]. apply inv_go; [done|done|by right].
  - apply negb_true_iff in Hpl as ->. destruct (pcs s t) eqn:E; try done;
      (destruct (qpush_step_ok t) as (s' & ch' & Hs & Hi'); [rewrite E; try (left; done); right; eauto|]; rewrite E in Hs; rewrite Hs; eauto) ||
      (destruct (qpop_step_ok t) as (s' & hi' & Hs & Hi'); [by rewrite E|]; rewrite E in Hs; rewrite Hs; eauto).
  - destruct (pcs s t) as [| | | | | | | | |[[v h]|]] eqn:E; try done; (eexists _, ch, hi; split; [done|]; apply inv_go;
      [try apply inv_pending; done|done|by right]).
  - apply bool_decide_eq_true in He. rewrite He. eexists _, ch, hi. split; [done|]. apply inv_pending.
Qed.
End steps.

Lemma inv_init n : inv (fev_qsbr_queue_init n) [n] 0.
Proof.
  split; try done; simpl.
  - apply NoDup_singleton.
  - intros i l Hl. apply list_lookup_singleton_Some in Hl as [-> <-]. exists 0%Z. apply lookup_singleton_eq.
  - exists n. split; [done|apply list_elem_of_here].
Qed.

Lemma reach_inv N n s : reach (qnext N) (fev_qsbr_queue_init n) s → ∃ ch hi, inv s ch hi.
Proof.
  intros Hr. apply (reach_invariant (qnext N) (λ s, ∃ ch hi, inv s ch hi) (fev_qsbr_queue_init n)); [by exists [n], 0; apply inv_init| |done].
  intros s1 l s2 (ch & hi & Hi) Hs. unfold qnext in Hs. destruct (plain l && enabled N s1 l) eqn:E; [|done].
  apply andb_true_iff in E as [E1 E2]. destruct (qstep_ok N s1 ch hi Hi l E1 E2) as (s' & ch' & hi' & Hs' & Hi'). simplify_eq. eauto.
Qed.

Lemma inv_linked s ch hi : inv s ch hi → linked (nodes s) (head s) (drop (S hi) ch).
Proof.
  intros Hi. assert (H : ∀ k i l, ch !! i = Some l → length (drop (S i) ch) = k → linked (nodes s) l (drop (S i) ch)).
  { induction k as [|k IH]; intros i l Hl Hk; destruct (i_link _ _ _ Hi i l Hl) as [v Hv].
    - apply length_zero_iff_nil in Hk. rewrite Hk. simpl. exists v. rewrite Hv. do 2 f_equal.
      apply lookup_ge_None. apply (f_equal length) in Hk. rewrite length_drop in Hk. simpl in Hk. lia.
    - rewrite length_drop in Hk. destruct (lookup_lt_is_Some_2 ch (S i)) as [x Hx]; [lia|]. rewrite (drop_S _ _ _ Hx). simpl.
      split; [exists v; by rewrite Hv, Hx|]. apply IH; [done|]. rewrite length_drop. lia. }
  by eapply H; [apply Hi|].
Qed.

(** ** Properties *)


(** Thread 0 pushes 10; thread 1 pops while the tail has not been advanced yet. *)
Definition ex_run : list label :=
  [LPush 0 2 10; LStep 0 false; LStep 0 false; LPop 1; LStep 1 false; LStep 1 false; LStep 1 false; LStep 1 false].
Definition ex_queue : queue := default (fev_qsbr_queue_init 1) (run (qnext 2) (fev_qsbr_queue_init 1) ex_run).


(** The run gets to a step that is undefined. *)
Definition ends_undefined (N : nat) (ls : list label) (l : label) : bool :=
  match run (qstep N) (fev_qsbr_queue_init 1) ls with
  | Some s => enabled N s l && match qstep N s l with Some _ => false | None => true end
  | None => false
  end.

(** When the weak compare-and-swap on the link fails without a reason, [next] is [NULL] and is stored in [queue->tail]; the
    next push dereferences it. *)
Definition spurious_run : list label :=
  [LPush 0 2 10; LStep 0 false; LStep 0 true; LStep 0 false; LStep 0 false; LStep 0 false; LPush 0 3 11; LStep 0 false].

Lemma qsbr_queue_spurious_failure : ends_undefined 1 spurious_run (LStep 0 false) = true.
Proof. vm_compute. reflexivity. Qed.

(** A pop may overtake the tail: it releases the node the tail points to. A push that starts when it has been quiescent reads
    the tail before the other push advances it; when this one is quiescent, too, the node is freed, and the first push
    accesses it. *)
Definition overtake_run : list label :=
  [LPush 0 2 10; LStep 0 false; LStep 0 false;
   LPop 1; LStep 1 false; LStep 1 false; LStep 1 false; LStep 1 false; LRet 1; LQuiescent 1; LQuiescent 2;
   LPush 2 3 11; LStep 2 false;
   LStep 0 false; LQuiescent 0; LFree 1].

Lemma qsbr_queue_use_after_free : ends_undefined 3 overtake_run (LStep 2 false) = true.
Proof. vm_compute. reflexivity. Qed.
