(* ===== verification/Fiber.v ===== *)
(** Fibers: [src/src/fev_fiber.h] and [src/src/fev_fiber.c].

    Creation with its error paths is a program over resources, as in [Init]. The
    rest of the life of a fiber, from its start routine to the last reference, is
    a step system: the fiber itself, which exits, and other fibers that call
    [fev_fiber_join] and [fev_fiber_detach] on it. A step is one operation on the
    mutex or the condition variable of the fiber (files [Mutex] and [Cond]), one
    atomic access, or what is done under the mutex. Accessing the fiber after it
    was freed is undefined. *)

From S2P Require Import Prelude Init.

Local Open Scope Z_scope.

(** ** Creation *)

(** [struct fev_fiber_attr], without the sizes. *)
Record fev_fiber_attr := mk_attr { attr_user_stack : bool; attr_detached : bool }.

Definition fev_fiber_create_default_attr : fev_fiber_attr := mk_attr false false.
Definition fev_fiber_spawn_default_attr : fev_fiber_attr := mk_attr false true.

(** Where the fiber is scheduled: [Some true]: in the current worker, [Some false]:
    in another scheduler, which must not be running. [cur]: the scheduler of the
    current worker, if there is one. *)
Definition create_target (sched cur : option loc) (is_running : loc → bool) : option bool :=
  match sched, cur with
  | None, None => None
  | None, Some _ => Some true
  | Some x, Some y => if decide (x = y) then Some true else if is_running x then None else Some false
  | Some x, None => if is_running x then None else Some false
  end.

(** Stack, condition variable and mutex. *)
Definition create_parts (attr : fev_fiber_attr) : M Z :=
  TRY (if attr_user_stack attr then ret 0 else acquire RStack)
  UNDO (if attr_user_stack attr then ret tt else release RStack);;
  TRY acquire RFiberCond UNDO release RFiberCond;;
  acquire RFiberMutex.

(** [put] is [fev_sched_put] of the scheduler; its result is not looked at. *)
Definition fev_fiber_create (sched cur : option loc) (is_running : loc → bool) (put : M Z)
    (attr : option fev_fiber_attr) : M Z :=
  let attr := default fev_fiber_create_default_attr attr in
  match create_target sched cur is_running with
  | None => ret (- EINVAL)
  | Some here =>
      if negb here && negb (attr_detached attr) then ret (- EINVAL)
      else
        e <- acquire RFiber;;
        if e =? 0 then
          e <- create_parts attr;;
          if e =? 0 then
            hold TCounted;;;
            (if here then hold (TScheduled true) else put;;; ret tt);;;
            ret 0
          else release RFiber;;; ret e
        else ret (- ENOMEM)
  end.

Definition fev_fiber_spawn (sched cur : option loc) (is_running : loc → bool) (put : M Z) : M Z :=
  fev_fiber_create sched cur is_running put (Some fev_fiber_spawn_default_attr).

(** What a created fiber holds. *)
Definition fiber_res (attr : fev_fiber_attr) (here : bool) : list res :=
  [TScheduled here; TCounted] ++
  (([RFiberMutex] ++ [RFiberCond]) ++ (if attr_user_stack attr then [] else [RStack])) ++ [RFiber].

(** ** Flags *)

Definition FEV_FIBER_DEAD : Z := 1.
Definition FEV_FIBER_JOINABLE : Z := 2.
Definition FEV_FIBER_JOINING : Z := 4.

Definition flag (flags f : Z) : bool := negb (Z.land flags f =? 0).

(** ** Exit, join and detach *)

(** Program counter of the fiber. *)
Inductive xpc :=
| XStart               (* in its start routine *)
| XLock (v : Z)        (* [fev_fiber_exit(v)]: before locking the mutex *)
| XSet (v : Z)         (* before setting the return value and [FEV_FIBER_DEAD] *)
| XUnlock | XNotify
| XStack               (* [fev_fiber_exit_post]: before freeing the stack *)
| XRelease             (* before [fev_fiber_release] *)
| XCount1 | XCount2    (* before decrementing [num_fibers], [num_run_fibers] *)
| XDone.

(** Program counter of a caller of [fev_fiber_join] or [fev_fiber_detach]. *)
Inductive cpc :=
| CIdle
| JLock | JFlags       (* before locking, before testing [FEV_FIBER_JOINING] *)
| JLoop                (* at the head of the loop *)
| JWaiting             (* in [fev_cond_wait], in the queue *)
| JRelock              (* in [fev_cond_wait], woken up: before locking the mutex *)
| JUnlock | JRead      (* the fiber is dead: before unlocking, before reading the value *)
| JRelease (v : Z)
| DLock | DFlags | DUnlock | DRelease
| CFail                (* before unlocking and returning [-EINVAL] *)
| CRet (r : Z) (v : option Z).

Record fstate := mk_fstate {
  flags : Z;
  ref_count : Z;
  return_value : option Z;             (* [None]: [NULL] *)
  holder : option (option loc);        (* of the mutex: nobody, the fiber, a caller *)
  cond : list loc;                     (* waiting on the condition variable *)
  user_stack : bool;
  stack : bool;                        (* a stack was allocated and not freed yet *)
  freed : bool;                        (* the fiber was freed *)
  num_fibers : Z;
  num_run_fibers : Z;
  xpc_of : xpc;
  cpcs : loc → cpc;
  exited : option Z;                   (* ghost: the argument of [fev_fiber_exit] *)
}.

Definition set_flags s v := mk_fstate v (ref_count s) (return_value s) (holder s) (cond s) (user_stack s) (stack s) (freed s) (num_fibers s) (num_run_fibers s) (xpc_of s) (cpcs s) (exited s).
Definition set_ref s v f := mk_fstate (flags s) v (return_value s) (holder s) (cond s) (user_stack s) (stack s) f (num_fibers s) (num_run_fibers s) (xpc_of s) (cpcs s) (exited s).
Definition set_value s v := mk_fstate (flags s) (ref_count s) v (holder s) (cond s) (user_stack s) (stack s) (freed s) (num_fibers s) (num_run_fibers s) (xpc_of s) (cpcs s) (exited s).
Definition set_holder s v := mk_fstate (flags s) (ref_count s) (return_value s) v (cond s) (user_stack s) (stack s) (freed s) (num_fibers s) (num_run_fibers s) (xpc_of s) (cpcs s) (exited s).
Definition set_cond s v := mk_fstate (flags s) (ref_count s) (return_value s) (holder s) v (user_stack s) (stack s) (freed s) (num_fibers s) (num_run_fibers s) (xpc_of s) (cpcs s) (exited s).
Definition set_stack s v := mk_fstate (flags s) (ref_count s) (return_value s) (holder s) (cond s) (user_stack s) v (freed s) (num_fibers s) (num_run_fibers s) (xpc_of s) (cpcs s) (exited s).
Definition set_nums s v w := mk_fstate (flags s) (ref_count s) (return_value s) (holder s) (cond s) (user_stack s) (stack s) (freed s) v w (xpc_of s) (cpcs s) (exited s).
Definition set_xpc s v := mk_fstate (flags s) (ref_count s) (return_value s) (holder s) (cond s) (user_stack s) (stack s) (freed s) (num_fibers s) (num_run_fibers s) v (cpcs s) (exited s).
Definition set_cpc s c v := mk_fstate (flags s) (ref_count s) (return_value s) (holder s) (cond s) (user_stack s) (stack s) (freed s) (num_fibers s) (num_run_fibers s) (xpc_of s) (upd (cpcs s) c v) (exited s).
Definition set_exited s v := mk_fstate (flags s) (ref_count s) (return_value s) (holder s) (cond s) (user_stack s) (stack s) (freed s) (num_fibers s) (num_run_fibers s) (xpc_of s) (cpcs s) v.

(** Every access to the fiber. *)
Definition touch {A} (s : fstate) (k : option A) : option A := FEV_ASSERT (negb (freed s)); k.

(** [fev_fiber_release]. *)
Definition fev_fiber_release (s : fstate) : option fstate :=
  touch s (
    let n := ref_count s in
    FEV_ASSERT (0 <? n);
    Some (set_ref s (n - 1) (n =? 1))).

(** [fev_cond_notify_one]: the first caller that waits goes on to lock the mutex. *)
Definition notify (s : fstate) : fstate :=
  match cond s with [] => s | c :: rest => set_cpc (set_cond s rest) c JRelock end.

(** [fev_fiber_exit] and [fev_fiber_exit_post]. *)
Definition exit_step (s : fstate) : option fstate :=
  match xpc_of s with
  | XLock v => touch s (Some (set_xpc (set_holder s (Some None)) (XSet v)))
  | XSet v => touch s (Some (set_xpc (set_flags (set_value s (Some v)) (Z.lor (flags s) FEV_FIBER_DEAD)) XUnlock))
  | XUnlock => touch s (Some (set_xpc (set_holder s None) XNotify))
  | XNotify => touch s (Some (set_xpc (notify s) XStack))
  | XStack =>
      touch s (if user_stack s then Some (set_xpc s XRelease)
               else FEV_ASSERT (stack s); Some (set_xpc (set_stack s false) XRelease))
  | XRelease => s ← fev_fiber_release s; Some (set_xpc s XCount1)
  | XCount1 => Some (set_xpc (set_nums s (u32 (num_fibers s - 1)) (num_run_fibers s)) XCount2)
  | XCount2 => Some (set_xpc (set_nums s (num_fibers s) (u32 (num_run_fibers s - 1))) XDone)
  | XStart | XDone => None
  end.

(** [fev_fiber_join], by the caller [c]. *)
Definition join_step (s : fstate) (c : loc) : option fstate :=
  match cpcs s c with
  | JLock => touch s (Some (set_cpc (set_holder s (Some (Some c))) c JFlags))
  | JFlags =>
      touch s (if flag (flags s) FEV_FIBER_JOINING then Some (set_cpc s c CFail)
               else Some (set_cpc (set_flags s (Z.lor (flags s) FEV_FIBER_JOINING)) c JLoop))
  | JLoop =>
      touch s (if negb (flag (flags s) FEV_FIBER_JOINABLE) then Some (set_cpc s c CFail)
               else if flag (flags s) FEV_FIBER_DEAD then Some (set_cpc s c JUnlock)
               else Some (set_cpc (set_holder (set_cond s (cond s ++ [c])) None) c JWaiting))
  | JRelock => touch s (Some (set_cpc (set_holder s (Some (Some c))) c JLoop))
  | JUnlock => touch s (Some (set_cpc (set_holder s None) c JRead))
  | JRead => touch s (Some (set_cpc s c (JRelease (default 0 (return_value s)))))
  | JRelease v => s ← fev_fiber_release s; Some (set_cpc s c (CRet 0 (Some v)))
  | CFail => touch s (Some (set_cpc (set_holder s None) c (CRet (- EINVAL) None)))
  | _ => None
  end.

(** [fev_fiber_detach], by the caller [c]. *)
Definition detach_step (s : fstate) (c : loc) : option fstate :=
  match cpcs s c with
  | DLock => touch s (Some (set_cpc (set_holder s (Some (Some c))) c DFlags))
  | DFlags =>
      touch s (if negb (flag (flags s) FEV_FIBER_JOINABLE) then Some (set_cpc s c CFail)
               else Some (set_cpc (set_flags s (Z.ldiff (flags s) FEV_FIBER_JOINABLE)) c DUnlock))
  | DUnlock => touch s (Some (set_cpc (set_holder s None) c DRelease))
  | DRelease => s ← fev_fiber_release s; Some (set_cpc s c (CRet 0 None))
  | _ => None
  end.

(** [FExit v]: the start routine calls [fev_fiber_exit(v)] or returns [v]. [FGo]: the
    fiber goes on. [FJoin c worker], [FDetach c worker]: [c] calls the function;
    [worker]: it runs in a worker thread. [FStep c]: it goes on. *)
Inductive flabel := FExit (v : Z) | FGo | FJoin (c : loc) (worker : bool) | FDetach (c : loc) (worker : bool) | FStep (c : loc).

Definition fstep (s : fstate) (l : flabel) : option fstate :=
  match l with
  | FExit v => Some (set_exited (set_xpc s (XLock v)) (Some v))
  | FGo => exit_step s
  | FJoin c worker => Some (set_cpc s c (if worker then JLock else CRet (- EINVAL) None))
  | FDetach c worker => Some (set_cpc s c (if worker then DLock else CRet (- EINVAL) None))
  | FStep c => match cpcs s c with
               | DLock | DFlags | DUnlock | DRelease => detach_step s c
               | _ => join_step s c
               end
  end.

(** A locked mutex blocks. *)
Definition fenabled (s : fstate) (l : flabel) : bool :=
  let lock_free := freed s || bool_decide (holder s = None) in
  match l with
  | FExit _ => match xpc_of s with XStart => true | _ => false end
  | FGo => match xpc_of s with XStart | XDone => false | XLock _ => lock_free | _ => true end
  | FJoin c _ | FDetach c _ => match cpcs s c with CIdle => true | _ => false end
  | FStep c => match cpcs s c with
               | CIdle | CRet _ _ | JWaiting => false
               | JLock | JRelock | DLock => lock_free
               | _ => true
               end
  end.

Definition fnext (s : fstate) (l : flabel) : option fstate := if fenabled s l then fstep s l else None.

(** The fiber [fev_fiber_create] makes: [n] fibers exist, [r] of them are runnable. *)
Definition fiber_init (attr : fev_fiber_attr) (n r : Z) : fstate :=
  mk_fstate (if attr_detached attr then 0 else FEV_FIBER_JOINABLE) (if attr_detached attr then 1 else 2) None None []
    (attr_user_stack attr) (negb (attr_user_stack attr)) false n r XStart (λ _, CIdle) None.

(** The owner of a joinable fiber, caller 1, calls one of the functions once. *)
Definition disciplined (attr : fev_fiber_attr) (l : flabel) : bool :=
  match l with
  | FJoin c worker | FDetach c worker => negb (attr_detached attr) && bool_decide (c = 1%positive) && worker
  | _ => true
  end.

Definition fnext_owner (attr : fev_fiber_attr) (s : fstate) (l : flabel) : option fstate :=
  if disciplined attr l then fnext s l else None.

(** ** The invariant *)

(** Where the fiber and its owner are determines the rest. *)
Definition x_dead (x : xpc) : bool :=
  match x with XStart | XLock _ | XSet _ => false | _ => true end.
Definition x_holds (x : xpc) : bool := match x with XSet _ | XUnlock => true | _ => false end.
Definition x_notified (x : xpc) : bool :=
  match x with XStack | XRelease | XCount1 | XCount2 | XDone => true | _ => false end.
Definition x_stack (x : xpc) : bool :=
  match x with XRelease | XCount1 | XCount2 | XDone => false | _ => true end.
Definition x_released (x : xpc) : bool := match x with XCount1 | XCount2 | XDone => true | _ => false end.
Definition c_holds (p : cpc) : bool :=
  match p with JFlags | JLoop | JUnlock | DFlags | DUnlock => true | _ => false end.
Definition c_joining (p : cpc) : bool :=
  match p with JLoop | JWaiting | JRelock | JUnlock | JRead | JRelease _ | CRet _ (Some _) => true | _ => false end.
Definition c_detached (p : cpc) : bool := match p with DUnlock | DRelease | CRet _ None => true | _ => false end.
Definition c_released (p : cpc) : bool := match p with CRet _ _ => true | _ => false end.

Definition flags_of (attr : fev_fiber_attr) (x : xpc) (p : cpc) : Z :=
  Z.lor (Z.lor (if attr_detached attr || c_detached p then 0 else FEV_FIBER_JOINABLE) (if x_dead x then FEV_FIBER_DEAD else 0))
    (if c_joining p then FEV_FIBER_JOINING else 0).

Definition refs_of (attr : fev_fiber_attr) (x : xpc) (p : cpc) : Z :=
  (if attr_detached attr then 1 else 2) - Z.b2z (x_released x) - Z.b2z (c_released p).

(** Which places are possible together. *)
Definition possible (x : xpc) (p : cpc) : bool :=
  negb (x_holds x && c_holds p) &&
  match p with
  | JWaiting => negb (x_notified x)
  | JRelock => x_notified x
  | JUnlock | JRead | JRelease _ => x_dead x
  | CRet r v => (r =? 0) && (match v with Some _ => x_dead x | None => true end)
  | CFail => false
  | _ => true
  end.

(** The values along the way. *)
Definition value_ok (x : xpc) (p : cpc) (e r : option Z) : Prop :=
  match x with XStart => e = None | XLock v | XSet v => e = Some v | _ => is_Some e ∧ r = e end ∧
  match p with JRelease v | CRet _ (Some v) => e = Some v | _ => True end.

Record finv (attr : fev_fiber_attr) (n r : Z) (s : fstate) : Prop := {
  fi_others c : c ≠ 1%positive → cpcs s c = CIdle;
  fi_attr : user_stack s = attr_user_stack attr ∧ (attr_detached attr = true → cpcs s 1%positive = CIdle);
  fi_flags : flags s = flags_of attr (xpc_of s) (cpcs s 1%positive);
  fi_refs : ref_count s = refs_of attr (xpc_of s) (cpcs s 1%positive);
  fi_freed : freed s = (refs_of attr (xpc_of s) (cpcs s 1%positive) =? 0);
  fi_holder : holder s = if x_holds (xpc_of s) then Some None
                         else if c_holds (cpcs s 1%positive) then Some (Some 1%positive) else None;
  fi_cond : cond s = match cpcs s 1%positive with JWaiting => [1%positive] | _ => [] end;
  fi_stack : stack s = negb (attr_user_stack attr) && x_stack (xpc_of s);
  fi_possible : possible (xpc_of s) (cpcs s 1%positive) = true;
  fi_value : value_ok (xpc_of s) (cpcs s 1%positive) (exited s) (return_value s);
  fi_nums : num_fibers s = (match xpc_of s with XCount2 | XDone => u32 (n - 1) | _ => n end) ∧
            num_run_fibers s = (match xpc_of s with XDone => u32 (r - 1) | _ => r end);
}.

Section lifecycle.
Context (attr : fev_fiber_attr) (n r : Z).

Lemma finv_init : finv attr n r (fiber_init attr n r).
Proof. split; simpl; try done; by destruct attr as [[] []]. Qed.

Ltac fcase s Hi :=
  destruct s as [fl rc rv ho co us st fr nf nr x cp ex]; destruct Hi as [Hoth [Hus Hdet] Hfl Hrc Hfr Hho Hco Hst Hpos Hval Hnum];
  simpl in *; subst us fl rc fr ho co st; destruct Hnum as [-> ->].

(** Everything but the values is computed; the values are equations. *)
Ltac fdone :=
  eexists; split; [reflexivity|]; split; simpl; unfold upd; simpl; try reflexivity;
  try match goal with E : _ = _ :> cpc |- _ => rewrite E; simpl end; try reflexivity;
  first [ assumption | by auto | by (intros; case_decide; auto)
        | unfold value_ok in *; simpl in *; repeat match goal with H : _ ∧ _ |- _ => destruct H | H : is_Some _ |- _ => destruct H end;
          subst; simpl in *; by eauto 6 ].

Ltac fsplit x p :=
  destruct x, p as [| | | | | | | |v'| | | | | |r' v'] eqn:Ec; try discriminate; try destruct v' as [v'|]; simpl in *;
  try match goal with H : possible _ _ = true |- _ => unfold possible in H; simpl in H; rewrite ?andb_false_r, ?andb_true_r in H end;
  try discriminate; try match goal with H : (_ =? 0) = true |- _ => apply Z.eqb_eq in H; subst end.

(** The fiber. *)
Lemma finv_exit s :
  finv attr n r s → fenabled s FGo = true → ∃ s', exit_step s = Some s' ∧ finv attr n r s'.
Proof.
  intros Hi He. fcase s Hi. destruct attr as [us [|]]; simpl in *.
  - specialize (Hdet eq_refl). rewrite Hdet in *. destruct x; try discriminate; simpl in *; try destruct us; fdone.
  - clear Hdet. fsplit x (cp 1%positive); try destruct us; fdone.
Qed.

(** The owner. *)
Lemma finv_owner s :
  finv attr n r s → fenabled s (FStep 1) = true → ∃ s', fstep s (FStep 1) = Some s' ∧ finv attr n r s'.
Proof.
  intros Hi He. fcase s Hi. unfold join_step, detach_step. simpl. destruct attr as [us [|]]; simpl in *.
  - rewrite (Hdet eq_refl) in He. discriminate.
  - clear Hdet. fsplit x (cp 1%positive); fdone.
Qed.

Lemma finv_call s p :
  finv attr n r s → attr_detached attr = false → cpcs s 1%positive = CIdle → p = JLock ∨ p = DLock →
  finv attr n r (set_cpc s 1%positive p).
Proof.
  intros Hi Hd Hc Hp. fcase s Hi. rewrite Hc in *. destruct attr as [us det]. simpl in *. subst det.
  destruct Hp; subst p; split; simpl; unfold upd; simpl; try done;
    try (intros; case_decide; by auto); destruct x; done.
Qed.

Lemma finv_exited s v :
  finv attr n r s → xpc_of s = XStart → finv attr n r (set_exited (set_xpc s (XLock v)) (Some v)).
Proof.
  intros Hi Hx. fcase s Hi. subst x. split; simpl; try done. unfold value_ok in *. destruct Hval as [He Hp]. split; [done|].
  simpl in Hpos. destruct (cp 1%positive) as [| | | | | | | |v'| | | | | |r' [v'|]]; try done.
  unfold possible in Hpos. simpl in Hpos. by rewrite andb_false_r in Hpos.
Qed.

Lemma finv_step s l s' : finv attr n r s → fnext_owner attr s l = Some s' → finv attr n r s'.
Proof.
  intros Hi. unfold fnext_owner, fnext. destruct (disciplined attr l) eqn:Hd; [|done].
  destruct (fenabled s l) eqn:He; [|done]. intros Hs. destruct l as [v| |c w|c w|c]; simpl in *.
  - simplify_eq. apply finv_exited; [done|]. by destruct (xpc_of s).
  - destruct (finv_exit s Hi He) as (s1 & E & Hi'). congruence.
  - apply andb_true_iff in Hd as [[Hd Hc%bool_decide_eq_true]%andb_true_iff ->]. subst c. simplify_eq.
    apply finv_call; [done|by apply negb_true_iff|by destruct (cpcs s 1%positive)|by left].
  - apply andb_true_iff in Hd as [[Hd Hc%bool_decide_eq_true]%andb_true_iff ->]. subst c. simplify_eq.
    apply finv_call; [done|by apply negb_true_iff|by destruct (cpcs s 1%positive)|by right].
  - destruct (decide (c = 1%positive)) as [->|Hne].
    + destruct (finv_owner s Hi He) as (s1 & E & Hi'). simpl in E. congruence.
    + by rewrite (fi_others _ _ _ _ Hi c Hne) in He.
Qed.

Lemma finv_reach s : reach (fnext_owner attr) (fiber_init attr n r) s → finv attr n r s.
Proof. apply reach_invariant; [apply finv_init|apply finv_step]. Qed.

(** No step is undefined. *)
Lemma finv_safe s l : finv attr n r s → fenabled s l = true → is_Some (fstep s l).
Proof.
  intros Hi He. destruct l as [v| |c w|c w|c]; simpl; [eauto| |eauto..|].
  - destruct (finv_exit s Hi He) as (s1 & -> & _). eauto.
  - destruct (decide (c = 1%positive)) as [->|Hne].
    + destruct (finv_owner s Hi He) as (s1 & E & _). simpl in E. rewrite E. eauto.
    + simpl in He. by rewrite (fi_others _ _ _ _ Hi c Hne) in He.
Qed.

(** Somebody can go on, or the fiber has exited and nobody is in a call, or the
    fiber runs its start routine and the owner, if it has called, waits or is done. *)
Lemma finv_progress s :
  finv attr n r s →
  fenabled s FGo = true ∨ fenabled s (FStep 1) = true ∨
  (xpc_of s = XStart ∧ match cpcs s 1%positive with CIdle | JWaiting | CRet _ _ => True | _ => False end) ∨
  (xpc_of s = XDone ∧ match cpcs s 1%positive with CIdle | CRet _ _ => True | _ => False end).
Proof.
  intros Hi. fcase s Hi. destruct attr as [us det]. simpl in *.
  fsplit x (cp 1%positive); rewrite ?orb_true_r; auto 6.
Qed.

(** What is left at the end. *)
Lemma finv_final s :
  finv attr n r s → xpc_of s = XDone →
  (attr_detached attr = true ∨ ∃ x v, cpcs s 1%positive = CRet x v) →
  freed s = true ∧ stack s = false ∧ num_fibers s = u32 (n - 1) ∧ num_run_fibers s = u32 (r - 1).
Proof.
  intros Hi Hx Hc. fcase s Hi. subst x. simpl. rewrite andb_false_r. split_and!; [|done..].
  unfold refs_of. simpl. destruct (attr_detached attr) eqn:Ed.
  - by rewrite (Hdet eq_refl).
  - destruct Hc as [?|(x & v & ->)]; done.
Qed.

(** What the calls return. *)
Lemma finv_result s x v :
  finv attr n r s → cpcs s 1%positive = CRet x v →
  x = 0 ∧ match v with Some v => exited s = Some v ∧ x_dead (xpc_of s) = true | None => True end.
Proof.
  intros Hi Hc. destruct Hi as [_ _ _ _ _ _ _ _ Hpos [_ Hval] _]. rewrite Hc in Hpos, Hval. simpl in Hpos, Hval.
  unfold possible in Hpos. simpl in Hpos. rewrite andb_false_r in Hpos. simpl in Hpos.
  apply andb_true_iff in Hpos as [->%Z.eqb_eq Hd]. destruct v; auto.
Qed.
End lifecycle.

(** ** Creation *)

(** [fev_sched_put] of the schedulers in [SchedBounded] and [SchedLocking] always succeeds. *)
Definition puts (put : M Z) : Prop :=
  ∀ s h, rheld s ≡ₚ h → ∃ s', put s = Some (0, s') ∧ rheld s' ≡ₚ TScheduled false :: h.

Lemma acquires_parts attr :
  acquires (create_parts attr) (([RFiberMutex] ++ [RFiberCond]) ++ if attr_user_stack attr then [] else [RStack]).
Proof.
  unfold create_parts. apply acquires_guard; [| |apply acquires_guard; auto using acquires_acquire, releases_release].
  - destruct (attr_user_stack attr); [intros s h Hp; by exists 0, s|apply acquires_acquire].
  - destruct (attr_user_stack attr); [apply releases_nil|apply releases_release].
Qed.

Lemma schedule_ok (here : bool) put s h :
  puts put → rheld s ≡ₚ h →
  ∃ s', (if here then hold (TScheduled true) else (put;;; ret tt)) s = Some (tt, s') ∧ rheld s' ≡ₚ TScheduled here :: h.
Proof.
  intros Hput Hp. destruct here.
  - eexists. split; [done|]. simpl. by rewrite Hp.
  - destruct (Hput s h Hp) as (s' & E & Hp'). exists s'. unfold bind. by rewrite E.
Qed.

Lemma fiber_create_ok sched cur is_running put attr here s h :
  puts put → create_target sched cur is_running = Some here →
  here || attr_detached (default fev_fiber_create_default_attr attr) = true → rheld s ≡ₚ h →
  ∃ e s', fev_fiber_create sched cur is_running put attr s = Some (e, s') ∧
          rheld s' ≡ₚ if e =? 0 then fiber_res (default fev_fiber_create_default_attr attr) here ++ h else h.
Proof.
  intros Hput Ht Hd Hp. unfold fev_fiber_create. rewrite Ht. set (a := default _ attr) in *.
  replace (negb here && negb (attr_detached a)) with false by (destruct here, (attr_detached a); done).
  destruct (acquires_acquire RFiber s h Hp) as (e & s1 & E1 & Hp1). unfold bind at 1. rewrite E1. simpl.
  destruct (e =? 0) eqn:Ee; [|by exists (- ENOMEM), s1].
  destruct (acquires_parts a s1 _ Hp1) as (e2 & s2 & E2 & Hp2). unfold bind at 1. rewrite E2. simpl.
  destruct (e2 =? 0) eqn:Ee2.
  - unfold bind at 1. simpl. set (s3 := mk_rs _ _).
    destruct (schedule_ok here put s3 (TCounted :: rheld s2) Hput) as (s4 & E4 & Hp4); [done|].
    unfold bind at 1. rewrite E4. simpl. exists 0, s4. split; [done|]. simpl. rewrite Hp4, Hp2. simpl.
    by rewrite <- app_assoc.
  - destruct (releases_release RFiber s2 h Hp2) as (s3 & E3 & Hp3). unfold bind. rewrite E3. simpl. exists e2, s3.
    by rewrite Ee2.
Qed.

(** ** Properties *)

(** [fev_fiber_create] refuses, with -EINVAL and without any effect, a call
    outside the workers that names no scheduler, a scheduler that is running
    elsewhere, and a joinable fiber in another scheduler. Otherwise it fails and
    gives back everything it had allocated, or succeeds: the fiber is then counted
    and scheduled, exactly once and in the right place. *)
Theorem fiber_create_balanced sched cur is_running put attr s :
  puts put →
  let a := default fev_fiber_create_default_attr attr in
  ∃ e s', fev_fiber_create sched cur is_running put attr s = Some (e, s') ∧
  match create_target sched cur is_running with
  | Some here =>
      if here || attr_detached a
      then rheld s' ≡ₚ if e =? 0 then fiber_res a here ++ rheld s else rheld s
      else e = - EINVAL ∧ s' = s
  | None => e = - EINVAL ∧ s' = s
  end.
Proof.
  intros Hput a. destruct (create_target sched cur is_running) as [here|] eqn:Ht.
  - destruct (here || attr_detached a) eqn:Hd; [by apply fiber_create_ok|].
    exists (- EINVAL), s. split; [|done]. unfold fev_fiber_create. rewrite Ht. fold a.
    destruct here, (attr_detached a); done.
  - exists (- EINVAL), s. split; [|done]. unfold fev_fiber_create. by rewrite Ht.
Qed.

(** The mutex cannot be created; the scheduler is another one that does not run. *)
Lemma fiber_create_balanced_witness :
  puts (hold (TScheduled false);;; ret 0) ∧
  ∃ e s', fev_fiber_spawn (Some 1%positive) None (λ _, false) (hold (TScheduled false);;; ret 0) (mk_rs [] [0; 0; 0; -12])
          = Some (e, s') ∧ e = -12 ∧ rheld s' ≡ₚ [].
Proof.
  assert (Hput : puts (hold (TScheduled false);;; ret 0)).
  { intros s h Hp. eexists. split; [reflexivity|]. simpl. by rewrite Hp. }
  split; [exact Hput|].
  destruct (fiber_create_balanced (Some 1%positive) None (λ _, false) _ (Some fev_fiber_spawn_default_attr)
              (mk_rs [] [0; 0; 0; -12]) Hput) as (e & s' & E & H).
  exists e, s'. split; [exact E|]. assert (e = -12) as -> by (vm_compute in E; congruence). split; [done|exact H].
Defined.

(** C24: From the return of [fev_fiber_create] on, with an owner that calls
    [fev_fiber_join] or [fev_fiber_detach] at most once, no step of the fiber or
    of the owner accesses the fiber after it was freed, frees it or its stack
    twice, or fails the assertion on [ref_count]. *)
Theorem fiber_lifecycle_safe attr n r s l :
  reach (fnext_owner attr) (fiber_init attr n r) s → fenabled s l = true → is_Some (fstep s l).
Proof. intros Hr. by eapply finv_safe, finv_reach. Qed.


(** The owner joins and waits; the fiber exits with 7. *)
Definition ex_labels (k : nat) : list flabel :=
  [FJoin 1 true; FStep 1; FStep 1; FStep 1; FExit 7; FGo; FGo; FGo; FGo; FGo; FGo; FGo; FGo] ++ replicate k (FStep 1).

Definition ex_start : fstate := fiber_init fev_fiber_create_default_attr 2 2.
Definition ex_join (k : nat) : fstate := default ex_start (run (fnext_owner fev_fiber_create_default_attr) ex_start (ex_labels k)).

Lemma ex_join_some k : (k <= 5)%nat → is_Some (run (fnext_owner fev_fiber_create_default_attr) ex_start (ex_labels k)).
Proof. intros Hk. do 6 (destruct k as [|k]; [vm_compute; by eexists|]). lia. Qed.

Lemma ex_join_reach k : (k <= 5)%nat → reach (fnext_owner fev_fiber_create_default_attr) ex_start (ex_join k).
Proof.
  intros [s Hs]%ex_join_some. unfold ex_join. rewrite Hs. by eapply run_reach; [constructor|].
Qed.

Lemma fiber_lifecycle_safe_witness : fenabled (ex_join 4) (FStep 1) = true ∧ is_Some (fstep (ex_join 4) (FStep 1)).
Proof.
  assert (He : fenabled (ex_join 4) (FStep 1) = true) by (vm_compute; reflexivity). split; [exact He|].
  apply (fiber_lifecycle_safe fev_fiber_create_default_attr 2 2); [apply ex_join_reach; lia|exact He].
Defined.


(** Detaching a fiber that another one is joining, which [fev_fiber_detach] does
    not refuse, is not safe: the fiber then frees itself on exit while the joiner,
    woken up, is about to lock its mutex. *)
Theorem detach_while_joining_faults :
  ∃ s, reach fnext (fiber_init fev_fiber_create_default_attr 2 2) s ∧
       cpcs s 2%positive = CRet 0 None ∧ fenabled s (FStep 1) = true ∧ fstep s (FStep 1) = None.
Proof.
  pose (sch := [FJoin 1 true; FStep 1; FStep 1; FStep 1; FDetach 2 true; FStep 2; FStep 2; FStep 2; FStep 2;
                FExit 7; FGo; FGo; FGo; FGo; FGo; FGo]).
  destruct (run fnext (fiber_init fev_fiber_create_default_attr 2 2) sch) as [s|] eqn:E; [|vm_compute in E; discriminate].
  exists s. split; [by eapply run_reach; [constructor|]|]. vm_compute in E. injection E as <-. done.
Qed.
