(* ===== verification/SocketOp.v ===== *)
(** Blocking socket operations: the loop of [FEV_GEN_SOCKET_OP] in
    [src/src/fev_socket_reactor.c] with [fev_process_socket] of
    [src/src/fev_poller_epoll.c], as a step system for one end of a socket.

    A fiber calls the operation again and again; the waiter of the end is reused
    from call to call without being initialised again, while any number of
    workers handle events of the socket. The steps of the waiter are those of the
    file [Waiter]. The kernel is edge triggered: it queues an event when the end
    becomes ready, when an error or a hang-up occurs, and when the end is
    registered in such a state; a worker takes the event from the queue and
    handles it at its own pace. *)

From S2P Require Import Prelude Waiter.

Local Open Scope Z_scope.

(** Program counter of the operation. *)
Inductive spc :=
| SIdle
| SReset1        (* before [reason = FEV_WAITER_NONE] *)
| SOp1           (* before the system call *)
| SFiber         (* it would block: before storing the fiber and testing [active] *)
| SReg           (* before [fev_poller_register] *)
| SActive        (* before [active = true] *)
| SAssert        (* at the head of the loop *)
| SError         (* before the test of [error] *)
| SWait          (* in [fev_waiter_wait] *)
| SReset2 | SOp2
| SRet (r : Z).

(** A worker that handles an event: [HEv ready err]: it has taken the event, which
    has the flag of this end or an error flag. *)
Inductive hpc := HIdle | HEv (ready err : bool) | HWake.

#[export] Instance fpc_eq_dec : EqDecision fpc.
Proof. solve_decision. Defined.
#[export] Instance ppc_eq_dec : EqDecision ppc.
Proof. solve_decision. Defined.
#[export] Instance wpc_eq_dec : EqDecision wpc.
Proof. solve_decision. Defined.
#[export] Instance spc_eq_dec : EqDecision spc.
Proof. solve_decision. Defined.
#[export] Instance hpc_eq_dec : EqDecision hpc.
Proof. solve_decision. Defined.

Record sstate := mk_sstate {
  sw : wstate;            (* the waiter, [fev_waiter_wait], the post operation, [fev_waiter_wake] *)
  sp : spc;
  active : bool;          (* end->active *)
  serror : bool;          (* socket->error *)
  registered : bool;      (* kernel: the interest is registered *)
  ready : bool;           (* kernel: the system call would not block *)
  kerror : bool;          (* kernel: error or hang-up *)
  pending : bool;         (* kernel: an event is queued *)
  hs : nat → hpc;
}.

Definition set_sw s v := mk_sstate v (sp s) (active s) (serror s) (registered s) (ready s) (kerror s) (pending s) (hs s).
Definition set_sp s v := mk_sstate (sw s) v (active s) (serror s) (registered s) (ready s) (kerror s) (pending s) (hs s).
Definition set_active s := mk_sstate (sw s) (sp s) true (serror s) (registered s) (ready s) (kerror s) (pending s) (hs s).
Definition set_serror s v := mk_sstate (sw s) (sp s) (active s) v (registered s) (ready s) (kerror s) (pending s) (hs s).
Definition set_kernel s g r e p := mk_sstate (sw s) (sp s) (active s) (serror s) g r e p (hs s).
Definition set_h s i v := mk_sstate (sw s) (sp s) (active s) (serror s) (registered s) (ready s) (kerror s) (pending s) (upd (hs s) i v).

Definition no_reason (s : sstate) : sstate := set_sw s (with_wt (sw s) (set_reason (wt (sw s)) FEV_WAITER_NONE)).

(** [SCall]: the fiber calls the operation. [SGo]: it goes on. [SysCall r rest]: the
    system call gives [r]; afterwards the end is ready or not. [SRegister r]:
    [epoll_ctl] gives [r]. [SPost]: the post operation goes on. [SArrive], [SHangup]: what
    the peer does. [SDeliver i ev err]: the worker [i] takes the event. [SHandle i]: it
    goes on. *)
Inductive slabel :=
| SCall | SGo | SysCall (r : Z) (rest : bool) | SRegister (r : Z) | SPost
| SArrive | SHangup | SDeliver (i : nat) (ev err : bool) | SHandle (i : nat).

(** The result of the system call in the places where [op] stands. *)
Definition after_op (s : sstate) (again : spc) (r : Z) (rest : bool) : sstate :=
  let s := set_kernel s (registered s) rest (kerror s) (pending s) in
  set_sp s (if r =? - EAGAIN then again else SRet r).

(** The fiber in [FEV_GEN_SOCKET_OP]. *)
Definition op_step (s : sstate) (l : slabel) : option sstate :=
  match sp s, l with
  | (SIdle | SRet _), SCall => Some (set_sp s SReset1)
  | SReset1, SGo => Some (set_sp (no_reason s) SOp1)
  | SOp1, SysCall r rest => Some (after_op s SFiber r rest)
  | SFiber, SGo => Some (set_sp s (if active s then SAssert else SReg))
  | SReg, SRegister r =>
      if r =? 0
      then Some (set_sp (set_kernel s true (ready s) (kerror s) (pending s || ready s || kerror s)) SActive)
      else Some (set_sp s (SRet r))
  | SActive, SGo => Some (set_sp (set_active s) SAssert)
  | SAssert, SGo => FEV_ASSERT negb (do_wake (wt (sw s))); Some (set_sp s SError)
  | SError, SGo =>
      if serror s then Some (set_sp s (SRet (- ECONNRESET)))
      else FEV_ASSERT negb (do_wake (wt (sw s))); Some (set_sp (set_sw s (with_fib (sw s) FStart)) SWait)
  | SWait, SGo =>
      match fib (sw s) with
      | FRet _ => Some (set_sp s SReset2)
      | _ => w ← fiber_step (sw s); Some (set_sw s w)
      end
  | SReset2, SGo => Some (set_sp (no_reason s) SOp2)
  | SOp2, SysCall r rest => Some (after_op s SAssert r rest)
  | _, _ => None
  end.

(** A fiber is woken up only while it is blocked. *)
Definition wakes (s : sstate) (b : bool) (k : option sstate) : option sstate :=
  FEV_ASSERT (negb b || bool_decide (fib (sw s) = FBlocked)); k.

Definition post_op (s : sstate) : option sstate :=
  wakes s (bool_decide (post (sw s) = PWake true)) (w ← post_step (sw s); Some (set_sw s w)).

(** [fev_process_socket], for one end. *)
Definition handle (s : sstate) (i : nat) : option sstate :=
  match hs s i with
  | HIdle => None
  | HEv ev err =>
      let s := if err then set_serror s true else s in
      if ev || err
      then Some (set_h (set_sw s (with_wk (sw s) i (WCas FEV_WAITER_READY))) i HWake)
      else Some (set_h s i HIdle)
  | HWake =>
      wakes s (bool_decide (wks (sw s) i = WRet FEV_WAITER_SET_AND_WAKE_UP))
        (w ← waker_step (sw s) i;
         let s := set_sw s w in
         Some (match wks w i with WDone _ => set_h s i HIdle | _ => s end))
  end.

Definition sock_step (s : sstate) (l : slabel) : option sstate :=
  match l with
  | SPost => post_op s
  | SArrive => Some (set_kernel s (registered s) true (kerror s) (pending s || registered s))
  | SHangup => Some (set_kernel s (registered s) (ready s) true (pending s || registered s))
  | SDeliver i ev err => Some (set_h (set_kernel s (registered s) (ready s) (kerror s) false) i (HEv ev err))
  | SHandle i => handle s i
  | _ => op_step s l
  end.

(** What may happen: a system call that would block leaves the end not ready, one on an
    end that is not ready may fail or block; an event has the flags of the state it is
    taken in, at least. *)
Definition sock_enabled (s : sstate) (l : slabel) : bool :=
  match l with
  | SCall => match sp s with SIdle | SRet _ => true | _ => false end
  | SGo => match sp s with
           | SIdle | SRet _ | SOp1 | SReg | SOp2 => false
           | SWait => negb (bool_decide (fib (sw s) = FBlocked))
           | _ => true
           end
  | SysCall r rest =>
      match sp s with SOp1 | SOp2 => true | _ => false end &&
      (if r =? - EAGAIN then negb (ready s) && negb rest else true)
  | SRegister r => match sp s with SReg => true | _ => false end
  | SPost => match post (sw s) with PIdle | PDone => false | _ => true end
  | SArrive | SHangup => true
  | SDeliver i ev err =>
      pending s && bool_decide (hs s i = HIdle) && implb (ready s) ev && eqb err (kerror s)
  | SHandle i => negb (bool_decide (hs s i = HIdle))
  end.

Definition sock_next (s : sstate) (l : slabel) : option sstate := if sock_enabled s l then sock_step s l else None.

(** A socket after [fev_socket_init] and [fev_socket_open]; [f] is the fiber. *)
Definition sock_init (f : loc) : sstate :=
  mk_sstate
    (mk_wstate (mk_waiter FEV_WAITER_NONE false FEV_WAITER_NONE false false f) (FRet FEV_WAITER_NONE) PIdle
       (λ _, WDone FEV_WAITER_FAILED) 0 None)
    SIdle false false false false false false (λ _, HIdle).

(** ** The right to wake up the fiber

    While the fiber is blocked, the right to wake it up is in exactly one place: it
    comes into being when the post operation stores to [do_wake], is then in [do_wake],
    and belongs to who clears [do_wake]. *)

Inductive who := TNone | TStore | TFlag | TPost | TWk (i : nat).

#[export] Instance who_eq_dec : EqDecision who.
Proof. solve_decision. Defined.

Definition tok_post (p : ppc) : bool :=
  match p with PReason _ | PClear true | PWake true => true | _ => false end.
Definition tok_wk (p : wpc) : bool :=
  match p with WReason _ | WClear FEV_WAITER_SET_AND_WAKE_UP | WRet FEV_WAITER_SET_AND_WAKE_UP => true | _ => false end.
Definition post_runs (p : ppc) : bool :=
  match p with PStore | PLoad | PXchg _ | PReason _ | PClear _ => true | _ => false end.

Record tok (w : wstate) (t : who) : Prop := {
  tk_fib : fib w = FBlocked ↔ t ≠ TNone;
  tk_store : post w = PStore ↔ t = TStore;
  tk_flag : do_wake (wt w) = true ↔ t = TFlag;
  tk_post : tok_post (post w) = true ↔ t = TPost;
  tk_wk i : tok_wk (wks w i) = true ↔ t = TWk i;
  tk_run : post_runs (post w) = true → wait_for_post (wt w) = true ∧ (fib w = FBlocked ∨ fib w = FSpin);
  tk_switch : fib w = FSwitch → wait_for_post (wt w) = true;
  tk_nowake : wait_for_wake (wt w) = false;
  tk_cas i r : wks w i = WCas r ∨ wks w i = WXchg r → r ≠ FEV_WAITER_NONE;
  (** a reason that was set does not stay unnoticed *)
  tk_seen : t = TFlag → reason (wt w) ≠ FEV_WAITER_NONE →
    post w = PLoad ∨ (∃ r, post w = PXchg r) ∨ ∃ i r, wks w i = WXchg r;
}.

Lemma tok_none w t : tok w t → fib w ≠ FBlocked → t = TNone.
Proof. intros H Hf. destruct (decide (t = TNone)) as [|Hn]; [done|]. by apply (tk_fib _ _ H) in Hn. Qed.

Ltac tks := simpl; try done; try (split; intros ?; (done || congruence)); try (intros; (done || discriminate || congruence)).

Lemma tok_fiber w t w' : tok w t → fiber_step w = Some w' → ∃ t', tok w' t'.
Proof.
  intros Ht Hs. pose proof (tok_none w t Ht) as Hn. destruct Ht as [H1 H2 H3 H4 H5 H6 H7 H8 H9 H10]. unfold fiber_step in Hs.
  destruct (fib w) eqn:Ef; simplify_eq; assert (t = TNone) as -> by (by apply Hn).
  - (* FStart *) exists TNone. split; tks. intros Hr. by destruct (H6 Hr) as [_ [?|?]].
  - (* FSwitch *) exists TStore. split; tks.
    + split; [|done]. intros E. by apply H3 in E.
    + intros i. split; [|done]. intros E. by apply H5 in E.
    + intros _. split; [by apply H7|by left].
  - (* FSpin *) destruct (wait_for_post (wt w) || wait_for_wake (wt w)) eqn:E; simplify_eq.
    { exists TNone. split; rewrite ?Ef; tks. }
    apply orb_false_iff in E as [E _]. exists TNone. split; tks. intros Hr. destruct (H6 Hr) as [? _]. congruence.
  - (* FLoad *) exists TNone. split; tks. intros Hr. by destruct (H6 Hr) as [_ [?|?]].
Qed.

Lemma tok_post_step w t w' :
  tok w t → post_step w = Some w' → (post w = PWake true → fib w = FBlocked) ∧ ∃ t', tok w' t'.
Proof.
  intros [H1 H2 H3 H4 H5 H6 H7 H8 H9 H10] Hs. unfold post_step in Hs. split.
  { intros E. rewrite E in H4. apply H1. by rewrite (proj1 H4). }
  destruct (post w) as [| | |r|r|f|f|] eqn:Ep; simplify_eq; simpl in *.
  - (* PStore *) assert (t = TStore) as -> by (by apply H2). exists TFlag. split; tks.
    + split; [done|]. intros _. by apply H1.
    + intros i. split; [|done]. intros E. by apply H5 in E.
    + auto.
  - (* PLoad *) exists t. case_decide as Er; split; tks; try (by split; [|intros E; apply H2 in E]);
      try (by split; [|intros E; apply H4 in E]).
    + intros _ _. right. left. eauto.
  - (* PXchg *) destruct (do_wake (wt w)) eqn:Ed.
    + assert (t = TFlag) as -> by (by apply H3). exists TPost. split; tks.
      * split; [done|]. intros _. by apply H1.
      * intros i. split; [|done]. intros E. by apply H5 in E.
    + exists t. split; tks; try (by split; [|intros E; apply H2 in E]); try (by split; [|intros E; apply H4 in E]);
        try (by split; [|intros E; apply H3 in E]). intros E. by apply H3 in E.
  - (* PReason *) assert (t = TPost) as -> by (by apply H4). exists TPost. by split; tks.
  - (* PClear *) exists t. destruct (H6 eq_refl) as [_ Hf]. split; tks; try (by split; [|intros E; apply H2 in E]).
    + intros E. destruct Hf; congruence.
    + intros E1 E2. destruct (H10 E1 E2) as [?|[[? ?]|?]]; [done..|]. auto.
  - (* PWake *) destruct f; simpl.
    + assert (t = TPost) as -> by (by apply H4). assert (Hf : fib w = FBlocked) by (by apply H1). exists TNone.
      split; simpl; rewrite ?Hf; tks.
      * split; [|done]. intros E. by apply H3 in E.
      * intros i. split; [|done]. intros E. by apply H5 in E.
    + exists t. split; tks; try (by split; [|intros E; apply H2 in E]); try (by split; [|intros E; apply H4 in E]).
      intros E1 E2. destruct (H10 E1 E2) as [?|[[? ?]|?]]; [done..|]. auto.
Qed.

(** A worker's step changes the right only if it takes it or uses it. *)
Lemma tok_wk_move w t i q (p : wpc) :
  (∀ j, tok_wk (wks w j) = true ↔ t = TWk j) → wks w i = q → tok_wk q = tok_wk p →
  ∀ j, tok_wk (upd (wks w) i p j) = true ↔ t = TWk j.
Proof. intros H Hq E j. unfold upd. case_decide; [subst; by rewrite <- E|done]. Qed.

Lemma upd_cas (f : nat → wpc) i p (P : fev_waiter_wake_reason → Prop) :
  (∀ j r, f j = WCas r ∨ f j = WXchg r → P r) → (∀ r, p = WCas r ∨ p = WXchg r → P r) →
  ∀ j r, upd f i p j = WCas r ∨ upd f i p j = WXchg r → P r.
Proof. intros H Hp j r. unfold upd. case_decide; eauto. Qed.

Lemma upd_xchg (f : nat → wpc) i p :
  (∀ r, f i ≠ WXchg r) → (∃ j r, f j = WXchg r) → ∃ j r, upd f i p j = WXchg r.
Proof. intros Hi (j & r & Hj). exists j, r. rewrite upd_ne; [done|]. intros ->. by apply (Hi r). Qed.

Lemma tok_waker w t i w' :
  tok w t → waker_step w i = Some w' →
  (wks w i = WRet FEV_WAITER_SET_AND_WAKE_UP → fib w = FBlocked) ∧ ∃ t', tok w' t'.
Proof.
  intros [H1 H2 H3 H4 H5 H6 H7 H8 H9 H10] Hs. unfold waker_step in Hs. split.
  { intros E. specialize (H5 i). rewrite E in H5. apply H1. by rewrite (proj1 H5). }
  destruct (wks w i) as [r|r|r|res|res|res] eqn:Ei; simplify_eq.
  - (* WCas *) assert (Hr : r ≠ FEV_WAITER_NONE) by (apply (H9 i); auto). exists t. case_decide as Er; split; tks.
    + by eapply tok_wk_move.
    + apply upd_cas; [done|]. naive_solver.
    + intros _ _. do 2 right. exists i, r. apply upd_eq.
    + by eapply tok_wk_move.
    + apply upd_cas; [done|]. naive_solver.
    + intros E1 E2. destruct (H10 E1 E2) as [?|[?|?]]; auto. do 2 right. apply upd_xchg; [by rewrite Ei|done].
  - (* WXchg *) destruct (do_wake (wt w)) eqn:Ed.
    + assert (t = TFlag) as -> by (by apply H3). exists (TWk i). split; tks.
      * split; [done|]. intros _. by apply H1.
      * split; [|done]. intros E. by apply H2 in E.
      * split; [|done]. intros E. by apply H4 in E.
      * intros j. unfold upd. case_decide; [by subst|]. rewrite H5. naive_solver.
      * apply upd_cas; [done|]. naive_solver.
    + exists t. split; tks.
      * by eapply tok_wk_move.
      * apply upd_cas; [done|]. naive_solver.
      * intros E. by apply H3 in E.
  - (* WReason *) exists t. split; tks.
    + by eapply tok_wk_move.
    + apply upd_cas; [done|]. naive_solver.
    + intros E1 E2. destruct (H10 E1 E2) as [?|[?|?]]; auto. do 2 right. apply upd_xchg; [by rewrite Ei|done].
  - (* WClear *) exists t. split; tks.
    + eapply tok_wk_move; [done|done|by destruct res].
    + apply upd_cas; [done|]. naive_solver.
    + intros E1 E2. destruct (H10 E1 E2) as [?|[?|?]]; auto. do 2 right. apply upd_xchg; [by rewrite Ei|done].
  - (* WRet *) case_decide as Er.
    + subst res. assert (t = TWk i) as -> by (apply H5; by rewrite Ei). assert (Hf : fib w = FBlocked) by (by apply H1).
      exists TNone. split; simpl; rewrite ?Hf; tks.
      * split; [|done]. intros E. by apply H2 in E.
      * split; [|done]. intros E. by apply H3 in E.
      * split; [|done]. intros E. by apply H4 in E.
      * intros j. split; [|done]. unfold upd. case_decide; [done|]. intros E. apply H5 in E. congruence.
      * intros Hr. split; [by apply H6|by right].
      * apply upd_cas; [done|]. naive_solver.
    + exists t. split; tks.
      * eapply tok_wk_move; [done|done|by destruct res].
      * apply upd_cas; [done|]. naive_solver.
      * intros E1 E2. destruct (H10 E1 E2) as [?|[?|?]]; auto. do 2 right. apply upd_xchg; [by rewrite Ei|done].
Qed.

(** What the operation does to the waiter between waits. *)
Lemma tok_reset w t : tok w t → fib w ≠ FBlocked → tok (with_wt w (set_reason (wt w) FEV_WAITER_NONE)) t.
Proof. intros Ht Hf. pose proof (tok_none w t Ht Hf) as ->. destruct Ht. split; tks. Qed.

Lemma tok_start w t r : tok w t → fib w = FRet r → tok (with_fib w FStart) t.
Proof.
  intros Ht Hf. assert (t = TNone) as -> by (apply (tok_none w); [done|by rewrite Hf]).
  destruct Ht as [H1 H2 H3 H4 H5 H6 H7 H8 H9 H10]. rewrite Hf in *. split; tks.
  intros Hr. by destruct (H6 Hr) as [_ [?|?]].
Qed.

Lemma tok_event w t i res :
  tok w t → wks w i = WDone res → tok (with_wk w i (WCas FEV_WAITER_READY)) t.
Proof.
  intros [H1 H2 H3 H4 H5 H6 H7 H8 H9 H10] Hi. split; tks.
  - by eapply tok_wk_move.
  - apply upd_cas; [done|]. naive_solver.
  - intros E1 E2. destruct (H10 E1 E2) as [?|[?|?]]; auto. do 2 right. apply upd_xchg; [by rewrite Hi|done].
Qed.

(** ** No event is missed *)

Definition waiting (f : fpc) : bool := match f with FStart | FSwitch | FBlocked => true | _ => false end.

(** The system call would have blocked since the reason was reset. *)
Definition committed (s : sstate) : bool :=
  match sp s with SFiber | SReg | SActive | SAssert | SError => true | SWait => waiting (fib (sw s)) | _ => false end.
(** The end is registered. *)
Definition settled (s : sstate) : bool :=
  match sp s with SActive | SAssert | SError | SWait | SReset2 | SOp2 => true | _ => false end.
(** The system call would have blocked and there was no error. *)
Definition late (s : sstate) : bool := match sp s with SWait => waiting (fib (sw s)) | _ => false end.

(** Something is on its way that will be noticed. *)
Definition cover (s : sstate) : Prop :=
  pending s = true ∨ (∃ i ev err, hs s i = HEv ev err ∧ ev || err = true) ∨
  (∃ i r, wks (sw s) i = WCas r) ∨ reason (wt (sw s)) ≠ FEV_WAITER_NONE.

Record sinv (s : sstate) : Prop := {
  si_tok : ∃ t, tok (sw s) t;
  si_sp : sp s ≠ SWait → ∃ r, fib (sw s) = FRet r;
  si_idle i : hs s i ≠ HWake ↔ ∃ r, wks (sw s) i = WDone r;
  si_reg : active s = true ∨ settled s = true → registered s = true;
  si_err : registered s = true → kerror s = true →
    serror s = true ∨ pending s = true ∨ ∃ i ev, hs s i = HEv ev true;
  si_ready : committed s = true → registered s = true → ready s = true → cover s;
  si_kerr : late s = true → kerror s = true → cover s;
  si_real : serror s = true → kerror s = true;
  si_event i ev : hs s i = HEv ev true → kerror s = true;
}.

Lemma sinv_init f : sinv (sock_init f).
Proof.
  split; simpl; try done.
  - exists TNone. split; tks; naive_solver.
  - eauto.
  - intros i. split; eauto.
  - by intros [?|?].
Qed.

Lemma late_settled s : late s = true → settled s = true.
Proof. unfold late, settled. by destruct (sp s). Qed.

(** Frames of the steps of the waiter. *)
Lemma fiber_step_frame w w' :
  fiber_step w = Some w' → wks w' = wks w ∧ reason (wt w') = reason (wt w) ∧ (waiting (fib w') = true → waiting (fib w) = true).
Proof. unfold fiber_step. destruct (fib w) eqn:E; intros; simplify_eq; simpl; auto. case_match; simplify_eq; simpl; auto; by rewrite E. Qed.

Lemma post_step_frame w w' :
  post_step w = Some w' → wks w' = wks w ∧ reason (wt w') = reason (wt w) ∧
  (fib w' = fib w ∨ fib w = FBlocked ∧ fib w' = FSpin).
Proof.
  unfold post_step. destruct (post w) as [| | | | | |[]|]; intros; simplify_eq; simpl; auto.
  destruct (fib w); auto.
Qed.

Lemma waker_step_frame w i w' :
  waker_step w i = Some w' →
  (∀ j, i ≠ j → wks w' j = wks w j) ∧ (∀ r, wks w' i ≠ WCas r) ∧
  (reason (wt w) ≠ FEV_WAITER_NONE ∨ (∃ r, wks w i = WCas r ∧ r ≠ FEV_WAITER_NONE) → reason (wt w') ≠ FEV_WAITER_NONE) ∧
  (fib w' = fib w ∨ fib w = FBlocked ∧ fib w' = FSpin).
Proof.
  unfold waker_step. destruct (wks w i) as [r|r|r|res|res|res] eqn:Ei; intros; simplify_eq.
  - case_decide as Er; simpl; (split_and!; [intros; by apply upd_ne|intros; by rewrite upd_eq| |by left]); naive_solver.
  - simpl. split_and!; [intros; by apply upd_ne|intros; rewrite upd_eq; by case_match| |by left]; naive_solver.
  - simpl. split_and!; [intros; by apply upd_ne|intros; by rewrite upd_eq| |by left]; naive_solver.
  - simpl. split_and!; [intros; by apply upd_ne|intros; by rewrite upd_eq| |by left]; naive_solver.
  - case_decide as Er; simpl; (split_and!; [intros; by apply upd_ne|intros; by rewrite upd_eq|naive_solver|]); [|by left].
    destruct (fib w); auto.
Qed.

(** *** The fiber *)

(** A step that only moves the program counter, outside the wait. *)
Lemma sinv_sp s p :
  sinv s → sp s ≠ SWait → p ≠ SWait → (committed (set_sp s p) = true → committed s = true) →
  (settled (set_sp s p) = true → registered s = true) → sinv (set_sp s p).
Proof.
  intros [H1 H2 H3 H4 H5 H6 H7 H8 H9] Hs Hp Hc Hst. split; simpl; try done; auto.
  - intros [?|?]; auto.
  - unfold late. simpl. by destruct p.
Qed.

(** The reason is reset before the system call. *)
Lemma sinv_reset s p :
  sinv s → sp s ≠ SWait → p = SOp1 ∨ (p = SOp2 ∧ registered s = true) → sinv (set_sp (no_reason s) p).
Proof.
  intros [[t H1] H2 H3 H4 H5 H6 H7 H8 H9] Hs Hp. destruct (H2 Hs) as [r Hf]. split; simpl; try done; auto.
  - exists t. apply tok_reset; [done|by rewrite Hf].
  - intros [?|Hst]; [auto|]. by destruct Hp as [->|[-> ?]].
  - intros Hco. by destruct Hp as [->|[-> ?]].
  - intros Hco. by destruct Hp as [->|[-> ?]].
Qed.

Lemma sinv_syscall s again r rest :
  sinv s → sp s ≠ SWait → (r = - EAGAIN → rest = false) → again = SFiber ∨ (again = SAssert ∧ registered s = true) →
  sinv (after_op s again r rest).
Proof.
  intros [H1 H2 H3 H4 H5 H6 H7 H8 H9] Hs Hr Ha. unfold after_op. destruct (Z.eqb_spec r (- EAGAIN)) as [->|Hne].
  - rewrite Hr by done. split; simpl; try done; auto.
    + intros [?|Hst]; [auto|]. destruct Ha as [->|[-> ?]]; done.
    + by destruct Ha as [->|[-> ?]].
  - split; simpl; try done; auto. intros [?|Hst]; [auto|done].
Qed.

Lemma sinv_register s :
  sinv s → sp s = SReg →
  sinv (set_sp (set_kernel s true (ready s) (kerror s) (pending s || ready s || kerror s)) SActive).
Proof.
  intros [H1 H2 H3 H4 H5 H6 H7 H8 H9] Hs. rewrite Hs in H2. split; simpl; try done; auto.
  - intros _ Hk. right. left. rewrite Hk. by rewrite orb_true_r.
  - intros _ _ Hr. left. simpl. rewrite Hr. by rewrite orb_true_r.
Qed.

Lemma sinv_active s : sinv s → sp s = SActive → sinv (set_sp (set_active s) SAssert).
Proof.
  intros [H1 H2 H3 H4 H5 H6 H7 H8 H9] Hs. rewrite Hs in H2. unfold settled, committed in H4, H6. rewrite Hs in H4, H6.
  split; simpl; try done; auto.
Qed.

Lemma sinv_wait s :
  sinv s → sp s = SError → serror s = false → sinv (set_sp (set_sw s (with_fib (sw s) FStart)) SWait).
Proof.
  intros [[t H1] H2 H3 H4 H5 H6 H7 H8 H9] Hs He. rewrite Hs in H2. destruct (H2 ltac:(done)) as [r Hf].
  unfold settled, committed in H4, H6. rewrite Hs in H4, H6. split; simpl; try done; auto.
  - exists t. by eapply tok_start.
  - intros _ Hk. destruct (H5 (H4 (or_intror eq_refl)) Hk) as [?|[?|(i & ev & Hi)]]; [congruence|by left|].
    right. left. exists i, ev, true. split; [done|]. apply orb_true_r.
Qed.

Lemma do_wake_idle s t : tok (sw s) t → fib (sw s) ≠ FBlocked → do_wake (wt (sw s)) = false.
Proof.
  intros Ht Hf. pose proof (tok_none _ _ Ht Hf) as ->. destruct (do_wake (wt (sw s))) eqn:E; [|done].
  by apply (tk_flag _ _ Ht) in E.
Qed.

(** Steps inside the waiter that leave the workers alone. *)
Lemma sinv_waiter s w t :
  sinv s → tok w t → sp s = SWait ∨ fib w = fib (sw s) → wks w = wks (sw s) → reason (wt w) = reason (wt (sw s)) →
  (waiting (fib w) = true → waiting (fib (sw s)) = true) → sinv (set_sw s w).
Proof.
  intros [H1 H2 H3 H4 H5 H6 H7 H8 H9] Ht Hsp Hw Hr Hf.
  assert (Hc : cover s → cover (set_sw s w)) by (unfold cover; simpl; by rewrite Hw, Hr).
  assert (Hset : settled (set_sw s w) = true → settled s = true) by (unfold settled; simpl; by destruct (sp s); auto).
  assert (Hcom : committed (set_sw s w) = true → committed s = true) by (unfold committed; simpl; by destruct (sp s); auto).
  assert (Hlate : late (set_sw s w) = true → late s = true) by (unfold late; simpl; by destruct (sp s); auto).
  split; simpl; try done; auto.
  - eauto.
  - intros Hs. destruct Hsp as [?|Hfe]; [done|]. rewrite Hfe. auto.
  - intros i. rewrite Hw. auto.
Qed.

(** *** The environment and the workers *)

Lemma sinv_arrive s r k :
  sinv s → (ready s = true → r = true) → (kerror s = true → k = true) →
  sinv (set_kernel s (registered s) r k (pending s || registered s)).
Proof.
  intros [H1 H2 H3 H4 H5 H6 H7 H8 H9] Hr Hk.
  assert (Hreg : registered s = true → pending s || registered s = true) by (intros ->; apply orb_true_r).
  split; simpl; try done; eauto.
  - intros _ ? _. left. simpl. auto.
  - intros Hl _. left. simpl. apply Hreg, H4. right. by apply late_settled in Hl.
Qed.

Lemma sinv_deliver s i ev err :
  sinv s → hs s i = HIdle → (ready s = true → ev = true) → err = kerror s →
  sinv (set_h (set_kernel s (registered s) (ready s) (kerror s) false) i (HEv ev err)).
Proof.
  intros [H1 H2 H3 H4 H5 H6 H7 H8 H9] Hi Hev ->. split; simpl; try done; auto.
  - intros j. unfold upd. case_decide; [subst j|auto]. split; [|done]. intros _. apply H3. by rewrite Hi.
  - intros _ Hk. do 2 right. exists i, ev. by rewrite upd_eq, Hk.
  - intros _ _ Hr. right. left. exists i, ev, (kerror s). simpl. rewrite upd_eq, Hev by done. done.
  - intros _ Hk. right. left. exists i, ev, (kerror s). simpl. rewrite upd_eq. split; [done|]. rewrite Hk. apply orb_true_r.
  - intros j ev'. unfold upd. case_decide; [|eauto]. intros E. congruence.
Qed.

(** A worker that sees an event of this end starts to wake up the waiter. *)
Lemma sinv_event s i ev err :
  sinv s → hs s i = HEv ev err → ev || err = true →
  sinv (set_h (set_sw (if err then set_serror s true else s) (with_wk (sw s) i (WCas FEV_WAITER_READY))) i HWake).
Proof.
  intros [[t H1] H2 H3 H4 H5 H6 H7 H8 H9] Hi He. set (s1 := if err then _ else s).
  assert (Hw : sw s1 = sw s ∧ sp s1 = sp s ∧ active s1 = active s ∧ registered s1 = registered s ∧ ready s1 = ready s ∧
               kerror s1 = kerror s ∧ pending s1 = pending s ∧ hs s1 = hs s) by (by destruct err).
  destruct Hw as (E1 & E2 & E3 & E4 & E5 & E6 & E7 & E8).
  assert (Hd : ∃ r, wks (sw s) i = WDone r) by (apply H3; by rewrite Hi). destruct Hd as [r0 Hd].
  assert (Hcov : cover (set_h (set_sw s1 (with_wk (sw s) i (WCas FEV_WAITER_READY))) i HWake)).
  { right. right. left. exists i, FEV_WAITER_READY. simpl. apply upd_eq. }
  split; simpl; rewrite ?E2, ?E3, ?E4, ?E5, ?E6, ?E7, ?E8; try done.
  - exists t. by eapply tok_event.
  - intros j. unfold upd. case_decide; [subst j|auto]. split; [done|]. by intros [? ?].
  - unfold settled in *. simpl. by rewrite E2.
  - intros Hr Hk. destruct err; [by left|]. destruct (H5 Hr Hk) as [?|[?|(j & ev' & Hj)]]; auto.
    do 2 right. exists j, ev'. rewrite upd_ne; [done|]. intros ->. congruence.
  - unfold s1. destruct err; simpl; [intros _; by eapply H9|done].
  - intros j ev'. unfold upd. case_decide; [done|eauto].
Qed.

(** An event that is not for this end. *)
Lemma sinv_no_event s i : sinv s → hs s i = HEv false false → sinv (set_h s i HIdle).
Proof.
  intros [H1 H2 H3 H4 H5 H6 H7 H8 H9] Hi.
  assert (Hc : cover s → cover (set_h s i HIdle)).
  { intros [?|[(j & ev & err & Hj & He)|?]]; [by left| |by do 2 right]. right. left. exists j, ev, err. simpl.
    rewrite upd_ne; [done|]. intros ->. rewrite Hi in Hj. by simplify_eq. }
  split; simpl; try done; auto.
  - intros j. unfold upd. case_decide; [subst j|auto]. split; [|done]. intros _. apply H3. by rewrite Hi.
  - intros Hr Hk. destruct (H5 Hr Hk) as [?|[?|(j & ev' & Hj)]]; auto.
    do 2 right. exists j, ev'. rewrite upd_ne; [done|]. intros ->. congruence.
  - intros j ev. unfold upd. case_decide; [done|eauto].
Qed.

(** A step of [fev_waiter_wake]. *)
Lemma sinv_waker s i w t :
  sinv s → hs s i = HWake → waker_step (sw s) i = Some w → tok w t →
  sinv (match wks w i with WDone _ => set_h (set_sw s w) i HIdle | _ => set_sw s w end).
Proof.
  intros [[t0 H1] H2 H3 H4 H5 H6 H7 H8 H9] Hi Hs Ht.
  destruct (waker_step_frame _ _ _ Hs) as (Hoth & Hncas & Hrea & Hfib).
  set (s' := match wks w i with WDone _ => _ | _ => _ end).
  assert (Hf : sw s' = w ∧ sp s' = sp s ∧ active s' = active s ∧ registered s' = registered s ∧ ready s' = ready s ∧
               kerror s' = kerror s ∧ pending s' = pending s ∧ serror s' = serror s ∧ (∀ j, i ≠ j → hs s' j = hs s j) ∧
               (hs s' i ≠ HWake ↔ ∃ r, wks w i = WDone r) ∧ (∀ ev err, hs s' i ≠ HEv ev err)).
  { unfold s'. destruct (wks w i) eqn:E; simpl; rewrite ?upd_eq, ?Hi; split_and!; try done;
      try (intros ? ?; by rewrite ?upd_eq, ?Hi); try (by intros j Hj; apply upd_ne); try (split; [done|by intros [? ?]]).
    by split; eauto. }
  destruct Hf as (E1 & E2 & E3 & E4 & E5 & E6 & E7 & E8 & E9 & E10 & E11).
  assert (Hwai : waiting (fib w) = true → waiting (fib (sw s)) = true) by (destruct Hfib as [->|[-> _]]; done).
  assert (Hc : cover s → cover s').
  { unfold cover. rewrite E1, E7. intros [?|[(j & ev & err & Hj & He)|[(j & r & Hj)|Hr]]]; [by left| | |].
    - right. left. exists j, ev, err. rewrite E9; [done|]. intros ->. congruence.
    - do 2 right. destruct (decide (i = j)) as [->|Hne].
      + right. apply Hrea. right. exists r. split; [done|]. eapply (tk_cas _ _ H1). eauto.
      + left. exists j, r. by rewrite Hoth.
    - do 3 right. auto. }
  split; rewrite ?E1, ?E2, ?E3, ?E4, ?E5, ?E6, ?E7, ?E8; try done.
  - eauto.
  - intros Hn. destruct (H2 Hn) as [r Hr]. destruct Hfib as [->|[Hb _]]; [eauto|congruence].
  - intros j. destruct (decide (i = j)) as [<-|Hne]; [done|]. rewrite E9, Hoth by done. apply H3.
  - intros [?|Hse]; [auto|]. apply H4. right. revert Hse. unfold settled. by rewrite E2.
  - intros Hr Hk. destruct (H5 Hr Hk) as [?|[?|(j & ev' & Hj)]]; auto.
    do 2 right. exists j, ev'. rewrite E9; [done|]. intros ->. congruence.
  - intros Hco ? ?. apply Hc, H6; try done. revert Hco. unfold committed. rewrite E1, E2. by destruct (sp s); auto.
  - intros Hla ?. apply Hc, H7; try done. revert Hla. unfold late. rewrite E1, E2. by destruct (sp s); auto.
  - intros j ev. destruct (decide (i = j)) as [<-|Hne]; [by intros ?%E11|]. rewrite E9 by done. apply H9.
Qed.

(** *** All steps *)

Lemma sinv_op s l s' : sinv s → sock_enabled s l = true → op_step s l = Some s' → sinv s'.
Proof.
  intros Hi He Hs. pose proof (si_reg _ Hi) as Hreg. unfold settled in Hreg.
  assert (Hag : ∀ r rest, (if r =? - EAGAIN then negb (ready s) && negb rest else true) = true → r = - EAGAIN → rest = false).
  { intros r rest H ->. simpl in H. apply andb_true_iff in H as [_ H]. by apply negb_true_iff. }
  unfold op_step in Hs. destruct (sp s) eqn:Ep, l; simplify_eq; simpl in He; rewrite ?Ep in He; simpl in He.
  - apply sinv_sp; by rewrite ?Ep.
  - apply sinv_reset; [done|by rewrite Ep|by left].
  - apply sinv_syscall; [done|by rewrite Ep|eauto|by left].
  - apply sinv_sp; rewrite ?Ep; [done..|by case_match| |].
    + unfold committed. by rewrite Ep.
    + destruct (active s) eqn:Ea; [auto|]. done.
  - destruct (Z.eqb_spec r 0); simplify_eq; [by apply sinv_register|]. apply sinv_sp; by rewrite ?Ep.
  - by apply sinv_active.
  - destruct (negb (do_wake (wt (sw s)))); simplify_eq. apply sinv_sp; rewrite ?Ep; [done..| |auto].
    unfold committed. by rewrite Ep.
  - destruct (serror s) eqn:Ee; simplify_eq; [apply sinv_sp; by rewrite ?Ep|].
    destruct (negb (do_wake (wt (sw s)))); simplify_eq. by apply sinv_wait.
  - destruct (fib (sw s)) eqn:Ef; simpl in Hs.
    all: try (destruct (fiber_step (sw s)) as [w|] eqn:Es; simpl in Hs; simplify_eq;
              destruct (si_tok _ Hi) as [t Ht]; destruct (tok_fiber _ _ _ Ht Es) as [t' Ht'];
              destruct (fiber_step_frame _ _ Es) as (Hw & Hr & Hwa);
              eapply sinv_waiter; eauto).
    simplify_eq. destruct Hi as [H1 H2 H3 H4 H5 H6 H7 H8 H9]. split; simpl; try done; eauto.
  - apply sinv_reset; [done|by rewrite Ep|right; auto].
  - apply sinv_syscall; [done|by rewrite Ep|eauto|right; auto].
  - apply sinv_sp; by rewrite ?Ep.
Qed.

Lemma op_defined s l : sinv s → sock_enabled s l = true →
  match l with SCall | SGo | SysCall _ _ | SRegister _ => is_Some (op_step s l) | _ => True end.
Proof.
  intros Hi He. destruct (si_tok _ Hi) as [t Ht].
  assert (Hd : sp s ≠ SWait → do_wake (wt (sw s)) = false).
  { intros Hs. destruct (si_sp _ Hi Hs) as [r Hr]. apply (do_wake_idle s t Ht). by rewrite Hr. }
  unfold op_step. destruct l; try done; simpl in He; destruct (sp s) eqn:Ep; try done; eauto.
  - rewrite Hd by done. eauto.
  - destruct (serror s); [eauto|]. rewrite Hd by done. eauto.
  - unfold fiber_step. destruct (fib (sw s)) eqn:Ef; simpl in *; eauto; [done|]. case_match; eauto.
  - by destruct (r =? 0); eauto.
Qed.

Lemma sinv_post s : sinv s → sock_enabled s SPost = true → ∃ s', post_op s = Some s' ∧ sinv s'.
Proof.
  intros Hi He. destruct (si_tok _ Hi) as [t Ht]. simpl in He.
  destruct (post_step (sw s)) as [w|] eqn:Es.
  2:{ exfalso. unfold post_step in Es. by destruct (post (sw s)). }
  destruct (tok_post_step _ _ _ Ht Es) as [Hw [t' Ht']]. destruct (post_step_frame _ _ Es) as (Hk & Hr & Hf).
  unfold post_op, wakes. rewrite Es. exists (set_sw s w). split.
  - case_bool_decide as Ep; [|done]. simpl. by rewrite bool_decide_eq_true_2 by auto.
  - eapply sinv_waiter; eauto.
    + destruct Hf as [Hf|[Hf _]]; [by right|left]. destruct (decide (sp s = SWait)) as [|Hn]; [done|].
      destruct (si_sp _ Hi Hn) as [? ?]. congruence.
    + destruct Hf as [->|[_ ->]]; done.
Qed.

Lemma sinv_handle s i : sinv s → hs s i ≠ HIdle → ∃ s', handle s i = Some s' ∧ sinv s'.
Proof.
  intros Hi Hn. destruct (si_tok _ Hi) as [t Ht]. unfold handle. destruct (hs s i) as [|ev err|] eqn:Eh; [done| |].
  - destruct (ev || err) eqn:Ee; eexists; (split; [done|]).
    + pose proof (sinv_event s i ev err Hi Eh Ee) as H. by destruct err.
    + apply orb_false_iff in Ee as [-> ->]. by apply sinv_no_event.
  - destruct (waker_step (sw s) i) as [w|] eqn:Es.
    2:{ exfalso. unfold waker_step in Es. assert (Hw : ¬ (∃ r, wks (sw s) i = WDone r)).
        { intros Hr. by apply (si_idle _ Hi) in Hr. }
        destruct (wks (sw s) i); simplify_eq. apply Hw. eauto. }
    destruct (tok_waker _ _ _ _ Ht Es) as [Hw [t' Ht']]. unfold wakes. eexists. split.
    + case_bool_decide as Ep; simpl; [rewrite bool_decide_eq_true_2 by auto|]; done.
    + by eapply sinv_waker.
Qed.

Lemma sinv_step s l : sinv s → sock_enabled s l = true → ∃ s', sock_step s l = Some s' ∧ sinv s'.
Proof.
  intros Hi He.
  assert (Hop : match l with SCall | SGo | SysCall _ _ | SRegister _ => ∃ s', op_step s l = Some s' ∧ sinv s' | _ => True end).
  { pose proof (op_defined s l Hi He) as Hd. destruct l; try done; destruct Hd as [s' Hs']; exists s';
      (split; [done|by eapply sinv_op]). }
  destruct l; simpl; try done.
  - by apply sinv_post.
  - eexists. split; [done|]. by apply sinv_arrive.
  - eexists. split; [done|]. by apply sinv_arrive.
  - simpl in He. apply andb_true_iff in He as [[[_ Hh%bool_decide_eq_true]%andb_true_iff Hr]%andb_true_iff He%eqb_prop].
    eexists. split; [done|]. apply sinv_deliver; try done. intros E. rewrite E in Hr. by destruct ev.
  - simpl in He. apply negb_true_iff, bool_decide_eq_false in He. by apply sinv_handle.
Qed.

Lemma sop_inv_reach f s : reach sock_next (sock_init f) s → sinv s.
Proof.
  apply reach_invariant; [apply sinv_init|]. intros s1 l s2 Hi Hs. unfold sock_next in Hs.
  destruct (sock_enabled s1 l) eqn:He; [|done]. destruct (sinv_step s1 l Hi He) as (s' & E & Hi'). congruence.
Qed.

(** A blocked fiber with nobody about to wake it up. *)
Lemma sinv_quiet s :
  sinv s → sp s = SWait → fib (sw s) = FBlocked → post_runs (post (sw s)) = false → post (sw s) ≠ PWake true →
  (∀ i, hs s i = HIdle) → pending s = false →
  do_wake (wt (sw s)) = true ∧ reason (wt (sw s)) = FEV_WAITER_NONE ∧ ready s = false ∧ kerror s = false.
Proof.
  intros Hi Hsp Hf Hpr Hpw Hh Hpe. destruct (si_tok _ Hi) as [t Ht].
  assert (Hdone : ∀ i, ∃ r, wks (sw s) i = WDone r) by (intros i; apply (si_idle _ Hi); by rewrite Hh).
  assert (t = TFlag) as ->.
  { destruct t as [| | | |i]; [by apply (tk_fib _ _ Ht) in Hf| |done| |].
    - by rewrite (proj2 (tk_store _ _ Ht) eq_refl) in Hpr.
    - pose proof (proj2 (tk_post _ _ Ht) eq_refl) as Hp. destruct (post (sw s)) as [| | | | | |[]|]; done.
    - pose proof (proj2 (tk_wk _ _ Ht i) eq_refl) as Hp. destruct (Hdone i) as [r Hr]. by rewrite Hr in Hp. }
  assert (Hr : reason (wt (sw s)) = FEV_WAITER_NONE).
  { destruct (decide (reason (wt (sw s)) = FEV_WAITER_NONE)) as [|Hr]; [done|].
    destruct (tk_seen _ _ Ht eq_refl Hr) as [E|[[r E]|(i & r & E)]]; [by rewrite E in Hpr..|].
    destruct (Hdone i) as [? ?]. congruence. }
  assert (Hnc : ¬ cover s).
  { intros [?|[(i & ev & err & Hi' & _)|[(i & r & E)|?]]]; [congruence| | |done].
    - by rewrite Hh in Hi'.
    - destruct (Hdone i) as [? ?]. congruence. }
  assert (Hc : committed s = true ∧ late s = true ∧ settled s = true).
  { unfold committed, late, settled. rewrite Hsp, Hf. done. }
  destruct Hc as (Hc1 & Hc2 & Hc3). split_and!; [by apply (tk_flag _ _ Ht)|done| |].
  - destruct (ready s) eqn:E; [|done]. destruct Hnc. apply (si_ready _ Hi); auto. apply (si_reg _ Hi). auto.
  - destruct (kerror s) eqn:E; [|done]. destruct Hnc. by apply (si_kerr _ Hi).
Qed.

(** ** Properties *)



(** The end is not ready and not registered; data arrives while the fiber is on its way to
    block, and the worker that handles the event is slow. Later the fiber waits again. *)
Definition ex_sock : list slabel :=
  [SCall; SGo; SysCall (- EAGAIN) false; SGo; SRegister 0; SGo; SGo; SGo; SArrive; SDeliver 0 true false; SHandle 0; SHandle 0;
   SGo; SGo; SPost; SHandle 0; SPost; SPost; SPost; SHandle 0; SHandle 0; SHandle 0;
   SGo; SGo; SGo; SGo; SysCall 5 false; SCall; SGo; SysCall (- EAGAIN) false; SGo; SGo; SGo; SGo; SGo; SPost; SPost; SPost].

Definition ex_sstate (k : nat) : sstate := default (sock_init 1) (run sock_next (sock_init 1) (take k ex_sock)).

Lemma ex_sstate_some k : k = 21%nat ∨ k = 38%nat → is_Some (run sock_next (sock_init 1) (take k ex_sock)).
Proof. intros [-> | ->]; vm_compute; by eexists. Qed.

Lemma ex_sstate_reach k : k = 21%nat ∨ k = 38%nat → reach sock_next (sock_init 1) (ex_sstate k).
Proof. intros [s Hs]%ex_sstate_some. unfold ex_sstate. rewrite Hs. by eapply run_reach; [constructor|]. Qed.

Lemma ex_sstate_idle i : hs (ex_sstate 38) i = HIdle.
Proof. destruct i as [|i]; vm_compute; reflexivity. Qed.

Lemma ex_sstate_values :
  sock_enabled (ex_sstate 21) (SHandle 0) = true ∧ wks (sw (ex_sstate 21)) 0%nat = WRet FEV_WAITER_SET_AND_WAKE_UP ∧
  sp (ex_sstate 38) = SWait ∧ fib (sw (ex_sstate 38)) = FBlocked ∧ post_runs (post (sw (ex_sstate 38))) = false ∧
  bool_decide (post (sw (ex_sstate 38)) = PWake true) = false ∧ pending (ex_sstate 38) = false.
Proof. by vm_compute. Qed.


