(* ===== verification/Socket.v ===== *)
(** Sockets: the functions of [src/src/fev_socket_reactor.c] and the socket part of
    [src/src/fev_poller_epoll.c], each running without interference.

    The interleaving of a blocking operation with the workers that handle events is in
    the file [SocketOp]; here are the operations themselves with all their results, the
    registration with epoll, and the handling of a batch of events. The kernel's interest
    list is a map from file descriptors to event masks; what a system call returns is an
    argument. *)

From S2P Require Import Prelude Time TimersIntf Binheap Waiter Timers TimedWait.

Local Open Scope Z_scope.

(** ** Data *)

Definition EPOLLIN : Z := 0x1.
Definition EPOLLOUT : Z := 0x4.
Definition EPOLLERR : Z := 0x8.
Definition EPOLLHUP : Z := 0x10.
Definition EPOLLRDHUP : Z := 0x2000.
Definition EPOLLET : Z := 0x80000000.

Definition ENOENT : Z := 2.
Definition EEXIST : Z := 17.
Definition EALREADY : Z := 114.

Record fev_socket_end := mk_end { end_waiter : fev_waiter; end_active : bool }.

Record fev_socket := mk_socket {
  read_end : fev_socket_end;
  write_end : fev_socket_end;
  fd : Z;
  error : Z;
}.

(** The ends of a socket, [true] is the one for reading. *)
Definition get_end (s : fev_socket) (r : bool) : fev_socket_end := if r then read_end s else write_end s.
Definition set_end (s : fev_socket) (r : bool) (e : fev_socket_end) : fev_socket :=
  if r then mk_socket e (write_end s) (fd s) (error s) else mk_socket (read_end s) e (fd s) (error s).

(** ** Creation and the simple calls *)

(** All fields zero ([0] stands for [NULL] in [fiber], which is never read before it is set). *)
Definition fev_socket_init (null : loc) : fev_socket :=
  let e := mk_end (mk_waiter FEV_WAITER_NONE false FEV_WAITER_NONE false false null) false in
  mk_socket e e (-1) 0.

(** [fev_socket_create]: [ok]: the allocation succeeds. *)
Definition fev_socket_create (ok : bool) (null : loc) : Z * option fev_socket :=
  if ok then (0, Some (fev_socket_init null)) else (- ENOMEM, None).

(** [ioctl], [setsockopt], [bind], [listen]: 0 or an [errno]. *)
Definition sys_result (ret errno : Z) : Z := if ret =? 0 then 0 else - errno.
Definition fev_set_nonblock (ret errno : Z) : Z := sys_result ret errno.
Definition fev_socket_set_opt (ret errno : Z) : Z := sys_result ret errno.
Definition fev_socket_bind (ret errno : Z) : Z := sys_result ret errno.
Definition fev_socket_listen (ret errno : Z) : Z := sys_result ret errno.

Definition fev_socket_native_handle (s : fev_socket) : Z := fd s.

(** [fds]: the descriptors that are open. [sock] is what [socket] returns, a descriptor
    or [-errno]; [nb] what [fev_set_nonblock] returns. *)
Definition fev_socket_open (s : fev_socket) (fds : gset Z) (sock nb : Z) : Z * fev_socket * gset Z :=
  if sock <? 0 then (sock, s, fds)
  else
    let fds := {[sock]} ∪ fds in
    if nb =? 0 then (0, mk_socket (read_end s) (write_end s) sock (error s), fds)
    else (nb, s, fds ∖ {[sock]}).

(** [close] removes the descriptor from the interest list. [c]: what it returns. *)
Definition fev_socket_close (s : fev_socket) (fds : gset Z) (tbl : gmap Z Z) (c : Z)
    : Z * fev_socket * gset Z * gmap Z Z :=
  if fd s =? -1 then (0, s, fds, tbl)
  else if c <? 0 then (c, s, fds, tbl)
  else (0, mk_socket (read_end s) (write_end s) (-1) (error s), fds ∖ {[fd s]}, delete (fd s) tbl).

(** [fev_accept_nonblock] without [accept4]: [a] is what [accept] returns, [nb] what
    [fev_set_nonblock] returns. *)
Definition fev_accept_nonblock (fds : gset Z) (a nb : Z) : Z * gset Z :=
  if a <? 0 then (a, fds)
  else
    let fds := {[a]} ∪ fds in
    if nb =? 0 then (a, fds) else (nb, fds ∖ {[a]}).

(** ** Registration *)

Definition reg_mask (new_flags : Z) : Z := Z.lor (Z.lor (Z.lor EPOLLRDHUP EPOLLHUP) EPOLLET) new_flags.

Definition old_flags (s : fev_socket) : Z :=
  Z.lor (if end_active (read_end s) then EPOLLIN else 0) (if end_active (write_end s) then EPOLLOUT else 0).

(** [epoll_ctl(op, fd, events)]; [add]: [EPOLL_CTL_ADD], otherwise [EPOLL_CTL_MOD]. *)
Definition epoll_ctl (tbl : gmap Z Z) (add : bool) (fd mask : Z) : Z * gmap Z Z :=
  match tbl !! fd, add with
  | Some _, true => (- EEXIST, tbl)
  | None, false => (- ENOENT, tbl)
  | _, _ => (0, <[fd := mask]> tbl)
  end.

(** [sys] is 0, or an error the kernel reports for a reason of its own. *)
Definition fev_poller_register (s : fev_socket) (flag : Z) (tbl : gmap Z Z) (sys : Z) : option (Z * gmap Z Z) :=
  FEV_ASSERT (flag =? EPOLLIN) || (flag =? EPOLLOUT);
  let old := old_flags s in
  FEV_ASSERT (Z.land old flag =? 0);
  let new := Z.lor old flag in
  if sys =? 0 then Some (epoll_ctl tbl (old =? 0) (fd s) (reg_mask new)) else Some (sys, tbl).

(** ** The operations *)

(** The [op] argument of the macros: what the system call returned, and what the
    operation makes of it: done with a result, or an error. *)
Inductive op_result := Done (r : Z) | Err (e : Z).

(** [FEV_SOCKET_ACCEPT_OP]: [ret] is what [fev_accept_nonblock] returned; the new
    descriptor goes into the new socket. *)
Definition accept_op (ret : Z) : op_result := if 0 <=? ret then Done 0 else Err ret.
(** [FEV_SOCKET_CONNECT_OP]. *)
Definition connect_op (ret errno : Z) : op_result :=
  if ret =? 0 then Done 0 else Err (if errno =? EINPROGRESS then - EAGAIN else - errno).
(** [FEV_SOCKET_READ_OP] and [FEV_SOCKET_WRITE_OP]. *)
Definition rw_op (n errno : Z) : op_result := if 0 <=? n then Done n else Err (- errno).

(** The loop. [errs]: the value of [socket->error != 0] at the head of each iteration;
    [waits]: what [fev_timed_wait] returns; [ops]: what the operation gives. [None]: the
    fiber is still waiting; a failed assertion is [Some None]. *)
Fixpoint op_loop (errs : list bool) (waits : list Z) (ops : list op_result) : option (option Z) :=
  match errs with
  | [] => None
  | err :: errs =>
      if err : bool then Some (Some (- ECONNRESET))
      else
        match waits with
        | [] => None
        | res :: waits =>
            if res =? - ENOMEM then Some (Some (- ENOMEM))
            else if res =? - ETIMEDOUT then Some (Some (- ETIMEDOUT))
            else if (res =? 0) || (res =? - EAGAIN) then
              match ops with
              | [] => None
              | Done r :: _ => Some (Some r)
              | Err e :: ops => if e =? - EAGAIN then op_loop errs waits ops else Some (Some e)
              end
            else Some None
        end
  end.

(** [FEV_GEN_SOCKET_OP_TIMEOUT]; [reg] is what [fev_poller_register] returns. The second
    component is [end->active] afterwards. [FEV_GEN_SOCKET_OP] is the same with waits that
    return 0. *)
Definition gen_socket_op_timeout (active : bool) (reg : Z) (errs : list bool) (waits : list Z) (ops : list op_result)
    : option (option Z * bool) :=
  match ops with
  | [] => None
  | Done r :: _ => Some (Some r, active)
  | Err e :: ops =>
      if negb (e =? - EAGAIN) then Some (Some e, active)
      else if negb active && negb (reg =? 0) then Some (Some reg, active)
      else r ← op_loop errs waits ops; Some (r, true)
  end.

Definition gen_socket_op (active : bool) (reg : Z) (errs : list bool) (n : nat) (ops : list op_result) :=
  gen_socket_op_timeout active reg errs (replicate n 0) ops.

(** The functions of the interface. What the system calls return is given in order; for a timed
    operation [waits] says what [fev_timed_wait] returns when it is given the deadline. *)
Section interface.
Context (active : bool) (reg : Z) (errs : list bool).

Definition op_pair (op : Z → Z → op_result) (p : Z * Z) : op_result := op p.1 p.2.

Definition fev_socket_accept (n : nat) (rets : list Z) := gen_socket_op active reg errs n (accept_op <$> rets).
Definition fev_socket_connect (n : nat) (rets : list (Z * Z)) := gen_socket_op active reg errs n (op_pair connect_op <$> rets).
Definition fev_socket_read (n : nat) (rets : list (Z * Z)) := gen_socket_op active reg errs n (op_pair rw_op <$> rets).
Definition fev_socket_write (n : nat) (rets : list (Z * Z)) := gen_socket_op active reg errs n (op_pair rw_op <$> rets).

Context (waits : timespec → list Z).

Definition fev_socket_try_accept_until (abs_time : timespec) (rets : list Z) :=
  gen_socket_op_timeout active reg errs (waits abs_time) (accept_op <$> rets).
Definition fev_socket_try_connect_until (abs_time : timespec) (rets : list (Z * Z)) :=
  gen_socket_op_timeout active reg errs (waits abs_time) (op_pair connect_op <$> rets).
Definition fev_socket_try_read_until (abs_time : timespec) (rets : list (Z * Z)) :=
  gen_socket_op_timeout active reg errs (waits abs_time) (op_pair rw_op <$> rets).
Definition fev_socket_try_write_until (abs_time : timespec) (rets : list (Z * Z)) :=
  gen_socket_op_timeout active reg errs (waits abs_time) (op_pair rw_op <$> rets).

(** [FEV_GET_ABS_TIME] stands before the loop: the deadline is computed when the operation
    would block and the end is registered. *)
Definition enters_loop (ops : list op_result) : bool :=
  match ops with Err e :: _ => (e =? - EAGAIN) && (active || (reg =? 0)) | _ => false end.

Definition gen_socket_op_for (now rel_time : timespec) (ops : list op_result) :=
  if enters_loop ops
  then abs_time ← fev_get_abs_time_since_now now rel_time; gen_socket_op_timeout active reg errs (waits abs_time) ops
  else gen_socket_op_timeout active reg errs [] ops.

Definition fev_socket_try_accept_for (now rel_time : timespec) (rets : list Z) :=
  gen_socket_op_for now rel_time (accept_op <$> rets).
Definition fev_socket_try_connect_for (now rel_time : timespec) (rets : list (Z * Z)) :=
  gen_socket_op_for now rel_time (op_pair connect_op <$> rets).
Definition fev_socket_try_read_for (now rel_time : timespec) (rets : list (Z * Z)) :=
  gen_socket_op_for now rel_time (op_pair rw_op <$> rets).
Definition fev_socket_try_write_for (now rel_time : timespec) (rets : list (Z * Z)) :=
  gen_socket_op_for now rel_time (op_pair rw_op <$> rets).
End interface.

(** ** Events *)

(** What [event.data.ptr] holds: [NULL] for the event descriptor, the address of a bucket
    with the lowest bit set, the address of a socket. *)
Definition bucket_ptr (bucket : Z) : Z := Z.lor bucket 1.

Inductive event_source := EvInterrupt | EvTimer (bucket : Z) | EvSocket (socket : Z).

Definition event_source_of (ptr : Z) : event_source :=
  if ptr =? 0 then EvInterrupt
  else if negb (Z.land ptr 1 =? 0) then EvTimer (Z.lxor ptr 1)
  else EvSocket ptr.

Definition is_error (events : Z) : bool := negb (Z.land events (Z.lor (Z.lor EPOLLRDHUP EPOLLERR) EPOLLHUP) =? 0).

(** Does the event concern the end? *)
Definition hits (events : Z) (r : bool) : bool :=
  negb (Z.land events (if r then EPOLLIN else EPOLLOUT) =? 0) || is_error events.

(** One of the two [if] statements of [fev_process_socket]. *)
Definition wake_end (events : Z) (s : fev_socket) (r : bool) (fibers : list loc) : option (fev_socket * list loc) :=
  if hits events r then
    let e := get_end s r in
    '(result, w) ← fev_waiter_wake (end_waiter e) FEV_WAITER_READY;
    Some (set_end s r (mk_end w (end_active e)),
          if decide (result = FEV_WAITER_SET_AND_WAKE_UP) then fibers ++ [fiber w] else fibers)
  else Some (s, fibers).

Definition fev_process_socket (events : Z) (s : fev_socket) (fibers : list loc) : option (fev_socket * list loc) :=
  let s := if is_error events then mk_socket (read_end s) (write_end s) (fd s) 1 else s in
  '(s, fibers) ← wake_end events s true fibers;
  wake_end events s false fibers.

Section process.
Context {X B : Type} `{Ops : !TimersBucketOps X B}.

(** Sockets and buckets by address. *)
Record pstate := mk_pstate { sockets : gmap Z fev_socket; buckets : gmap Z (twstate X B) }.

(** An iteration of the loop of [fev_poller_process]: [ev] is the pointer and the events. *)
Definition process_event (st : pstate * list loc) (ev : Z * Z) : option (pstate * list loc) :=
  let '(s, fibers) := st in
  match event_source_of ev.1 with
  | EvInterrupt => Some (s, fibers)
  | EvTimer b =>
      x ← buckets s !! b;
      '(x, f) ← fev_process_timer_fd x;
      Some (mk_pstate (sockets s) (<[b := x]> (buckets s)), fibers ++ option_list f)
  | EvSocket a =>
      sock ← sockets s !! a;
      '(sock, fibers) ← fev_process_socket ev.2 sock fibers;
      Some (mk_pstate (<[a := sock]> (sockets s)) (buckets s), fibers)
  end.

Fixpoint process_events (st : pstate * list loc) (evs : list (Z * Z)) : option (pstate * list loc) :=
  match evs with
  | [] => Some st
  | ev :: evs => st ← process_event st ev; process_events st evs
  end.

(** [fev_poller_process], up to [fev_wake_stq] with the fibers it gives: [n] is what
    [epoll_wait] returns, [evs] the events it stored. A negative [n] is fatal. *)
Definition fev_poller_process (s : pstate) (n : Z) (evs : list (Z * Z)) : option (pstate * list loc) :=
  if n <? 0 then None else process_events (s, []) (take (Z.to_nat n) evs).
End process.
Arguments pstate : clear implicits.

(** ** Handling a batch of events *)

Definition key : Type := Z * bool.

Section batch.
Context {X B : Type} `{Ops : !TimersBucketOps X B}.
Implicit Types (s : pstate X B) (k : key).

Definition waiter_of s k : option fev_waiter := (λ sock, end_waiter (get_end sock k.2)) <$> sockets s !! k.1.

(** A fiber waits at the end and has not been chosen yet. *)
Definition armed s k : bool :=
  match waiter_of s k with Some w => do_wake w && bool_decide (reason w = FEV_WAITER_NONE) | None => false end.
Definition fiber_of s k : loc := match waiter_of s k with Some w => fiber w | None => 1%positive end.

(** The ends an event concerns. *)
Definition event_keys (ev : Z * Z) : list key :=
  match event_source_of ev.1 with
  | EvSocket a => filter (λ k, hits ev.2 k.2 = true) [(a, true); (a, false)]
  | _ => []
  end.

(** [s'] and [fs] result from waking up the ends [ks] of [s]. *)
Record wakes_to s (ks : list key) s' (fs : list loc) : Prop := {
  wt_fibers : fs ≡ₚ fiber_of s <$> elements (filter (λ k, armed s k = true) (list_to_set ks : gset key));
  wt_woken k w : k ∈ ks → waiter_of s' k = Some w → reason w ≠ FEV_WAITER_NONE;
  wt_armed k : armed s' k = armed s k && negb (bool_decide (k ∈ ks));
  wt_others k : k ∉ ks → waiter_of s' k = waiter_of s k;
  wt_fiber k : fiber_of s' k = fiber_of s k;
  wt_dom k : is_Some (waiter_of s' k) ↔ is_Some (waiter_of s k);
}.

Lemma wakes_nil s s' : (∀ k, waiter_of s' k = waiter_of s k) → wakes_to s [] s' [].
Proof.
  intros H. split; unfold armed, fiber_of; intros; rewrite ?H; try done.
  - by apply not_elem_of_nil in H0.
  - by rewrite bool_decide_eq_false_2, andb_true_r by apply not_elem_of_nil.
Qed.

Lemma wakes_trans s ks1 s1 fs1 ks2 s2 fs2 :
  wakes_to s ks1 s1 fs1 → wakes_to s1 ks2 s2 fs2 → wakes_to s (ks1 ++ ks2) s2 (fs1 ++ fs2).
Proof.
  intros [A1 A2 A3 A4 A5 A6] [B1 B2 B3 B4 B5 B6]. split.
  - rewrite A1, B1. rewrite (list_fmap_ext (fiber_of s1) (fiber_of s)) by (intros; apply A5). rewrite <- fmap_app. f_equiv.
    rewrite <- elements_disj_union.
    + f_equiv. intros k. rewrite list_to_set_app_L, elem_of_union, !elem_of_filter, elem_of_union, !elem_of_list_to_set, A3.
      destruct (decide (k ∈ ks1)); [rewrite bool_decide_eq_true_2 by done|rewrite bool_decide_eq_false_2 by done];
        rewrite ?andb_false_r, ?andb_true_r; naive_solver.
    + intros k. rewrite !elem_of_filter, !elem_of_list_to_set, A3. intros [_ H1] [H2 _].
      rewrite bool_decide_eq_true_2 in H2 by done. by rewrite andb_false_r in H2.
  - intros k w Hk Hw. destruct (decide (k ∈ ks2)) as [H2|H2]; [eauto|]. rewrite (B4 k H2) in Hw.
    apply elem_of_app in Hk as [Hk|Hk]; [eauto|done].
  - intros k. rewrite B3, A3. rewrite <- andb_assoc. f_equal. rewrite <- negb_orb. f_equal.
    apply eq_bool_prop_intro. rewrite orb_True, !bool_decide_spec, elem_of_app. done.
  - intros k Hk. rewrite elem_of_app in Hk. rewrite B4, A4 by tauto. done.
  - intros k. by rewrite B5, A5.
  - intros k. by rewrite B6, A6.
Qed.

Lemma waiter_wake_ready w :
  ∃ result w', fev_waiter_wake w FEV_WAITER_READY = Some (result, w') ∧ fiber w' = fiber w ∧
    reason w' ≠ FEV_WAITER_NONE ∧
    (result = FEV_WAITER_SET_AND_WAKE_UP ↔ do_wake w && bool_decide (reason w = FEV_WAITER_NONE) = true).
Proof.
  unfold fev_waiter_wake. simpl. destruct (decide (reason w = FEV_WAITER_NONE)) as [E|E].
  - rewrite bool_decide_eq_true_2 by done. destruct (do_wake w); eexists _, _; (split; [done|]); simpl; naive_solver.
  - rewrite bool_decide_eq_false_2 by done. eexists _, _. split; [done|]. rewrite andb_false_r. naive_solver.
Qed.

Lemma get_set_end sock r e r' : get_end (set_end sock r e) r' = if decide (r = r') then e else get_end sock r'.
Proof. by destruct r, r'. Qed.

(** One end. *)
Lemma wake_end_ok s a sock r events fibers :
  sockets s !! a = Some sock →
  ∃ sock' fs, wake_end events sock r fibers = Some (sock', fibers ++ fs) ∧
    wakes_to s (filter (λ k, hits events k.2 = true) [(a, r)]) (mk_pstate (<[a := sock']> (sockets s)) (buckets s)) fs.
Proof.
  intros Ha. unfold wake_end. destruct (hits events r) eqn:Eh.
  2:{ exists sock, []. rewrite app_nil_r. split; [done|]. rewrite filter_cons_False by (simpl; congruence).
      rewrite insert_id by done. by apply wakes_nil. }
  destruct (waiter_wake_ready (end_waiter (get_end sock r))) as (result & w' & Ew & Hf & Hr & Hres).
  rewrite Ew. cbn [mbind option_bind]. rewrite filter_cons_True by done. rewrite filter_nil.
  set (sock' := set_end _ _ _). set (s' := mk_pstate (<[a := sock']> (sockets s)) (buckets s)).
  assert (Hw : waiter_of s (a, r) = Some (end_waiter (get_end sock r))) by (unfold waiter_of; simpl; by rewrite Ha).
  assert (Hk : ∀ k, waiter_of s' k = if decide (k = (a, r)) then Some w' else waiter_of s k).
  { intros [a' r']. unfold waiter_of, s'. simpl. destruct (decide (a = a')) as [<-|Hne].
    - rewrite lookup_insert_eq, Ha. simpl. unfold sock'. rewrite get_set_end.
      destruct (decide (r = r')) as [<-|Hr']; [by rewrite decide_True|by rewrite decide_False by congruence].
    - rewrite lookup_insert_ne, decide_False by congruence. done. }
  exists sock', (if decide (result = FEV_WAITER_SET_AND_WAKE_UP) then [fiber w'] else []). split.
  { destruct (decide (result = FEV_WAITER_SET_AND_WAKE_UP)); by rewrite ?app_nil_r. }
  assert (Harm : armed s (a, r) = true ↔ result = FEV_WAITER_SET_AND_WAKE_UP) by (unfold armed; rewrite Hw, Hres; done).
  split.
  - rewrite list_to_set_singleton_L. destruct (decide (result = FEV_WAITER_SET_AND_WAKE_UP)) as [Er|Er].
    + assert (Hp : armed s (a, r) = true) by (by apply Harm).
      rewrite (filter_singleton_L (λ k, armed s k = true) (a, r)), decide_True, elements_singleton by done. simpl. unfold fiber_of.
      by rewrite Hw, Hf.
    + assert (Hp : ¬ armed s (a, r) = true) by (intros E; by apply Harm in E).
      rewrite (filter_singleton_L (λ k, armed s k = true) (a, r)), decide_False, elements_empty by done. done.
  - intros k w ->%list_elem_of_singleton. rewrite Hk, decide_True by done. by intros [= <-].
  - intros k. unfold armed. rewrite Hk. destruct (decide (k = (a, r))) as [Ek|Ek].
    + subst k. rewrite (bool_decide_eq_true_2 ((a, r) ∈ _)) by apply list_elem_of_here.
      rewrite bool_decide_eq_false_2 by done. by rewrite !andb_false_r.
    + rewrite (bool_decide_eq_false_2 (k ∈ _)), andb_true_r; [done|]. by rewrite list_elem_of_singleton.
  - intros k Hn. rewrite Hk, decide_False; [done|]. by rewrite <- list_elem_of_singleton.
  - intros k. unfold fiber_of. rewrite Hk. destruct (decide (k = (a, r))); [subst; by rewrite Hw, Hf|done].
  - intros k. rewrite Hk. destruct (decide (k = (a, r))); [subst; rewrite Hw|done]. split; eauto.
Qed.

(** An event of a socket that exists, or of the event descriptor. *)
Definition valid_event s (ev : Z * Z) : Prop :=
  match event_source_of ev.1 with EvInterrupt => True | EvTimer _ => False | EvSocket a => is_Some (sockets s !! a) end.

Lemma waiter_of_error s a sock e k :
  sockets s !! a = Some sock →
  waiter_of (mk_pstate (<[a := mk_socket (read_end sock) (write_end sock) (fd sock) e]> (sockets s)) (buckets s)) k = waiter_of s k.
Proof.
  intros Ha. unfold waiter_of. simpl. destruct (decide (a = k.1)) as [<-|Hne].
  - rewrite lookup_insert_eq, Ha. simpl. by destruct (k.2).
  - by rewrite lookup_insert_ne.
Qed.

Lemma process_socket_ok s a sock events fibers :
  sockets s !! a = Some sock →
  ∃ sock' fs, fev_process_socket events sock fibers = Some (sock', fibers ++ fs) ∧
    wakes_to s (filter (λ k, hits events k.2 = true) [(a, true); (a, false)])
      (mk_pstate (<[a := sock']> (sockets s)) (buckets s)) fs.
Proof.
  intros Ha. unfold fev_process_socket. set (sock0 := if is_error events then _ else sock).
  set (s0 := mk_pstate (<[a := sock0]> (sockets s)) (buckets s)).
  assert (H0 : wakes_to s [] s0 []).
  { apply wakes_nil. intros k. unfold s0, sock0. destruct (is_error events); [by apply waiter_of_error|].
    rewrite insert_id by done. by destruct s. }
  destruct (wake_end_ok s0 a sock0 true events fibers) as (sock1 & fs1 & E1 & W1); [apply lookup_insert_eq|].
  rewrite E1. cbn [mbind option_bind]. simpl in W1. rewrite insert_insert_eq in W1.
  set (s1 := mk_pstate _ _) in W1.
  destruct (wake_end_ok s1 a sock1 false events (fibers ++ fs1)) as (sock2 & fs2 & E2 & W2); [apply lookup_insert_eq|].
  exists sock2, (fs1 ++ fs2). rewrite E2, app_assoc. split; [done|].
  simpl in W2. rewrite insert_insert_eq in W2.
  pose proof (wakes_trans _ _ _ _ _ _ _ H0 (wakes_trans _ _ _ _ _ _ _ W1 W2)) as W.
  simpl in W. replace [(a, true); (a, false)] with ([(a, true)] ++ [(a, false)]) by done. by rewrite filter_app.
Qed.

Lemma process_event_ok s fibers ev :
  valid_event s ev →
  ∃ s' fs, process_event (s, fibers) ev = Some (s', fibers ++ fs) ∧ wakes_to s (event_keys ev) s' fs ∧
    dom (sockets s') = dom (sockets s).
Proof.
  unfold valid_event, process_event, event_keys. destruct (event_source_of ev.1) as [|b|a]; intros Hv; [|done|].
  - exists s, []. rewrite app_nil_r. split_and!; [done|by apply wakes_nil|done].
  - destruct Hv as [sock Ha]. rewrite Ha. cbn [mbind option_bind].
    destruct (process_socket_ok s a sock ev.2 fibers Ha) as (sock' & fs & E & W). rewrite E. cbn [mbind option_bind].
    eexists _, fs. split_and!; [done|exact W|]. simpl. rewrite dom_insert_L. apply elem_of_dom_2 in Ha. set_solver.
Qed.

Lemma process_events_ok evs : ∀ s fibers,
  Forall (valid_event s) evs →
  ∃ s' fs, process_events (s, fibers) evs = Some (s', fibers ++ fs) ∧ wakes_to s (concat (event_keys <$> evs)) s' fs.
Proof.
  induction evs as [|ev evs IH]; intros s fibers Hv.
  - exists s, []. rewrite app_nil_r. split; [done|]. by apply wakes_nil.
  - apply Forall_cons in Hv as [Hv Hvs]. destruct (process_event_ok s fibers ev Hv) as (s1 & fs1 & E1 & W1 & Hd).
    cbn [process_events]. rewrite E1. cbn [mbind option_bind].
    destruct (IH s1 (fibers ++ fs1)) as (s2 & fs2 & E2 & W2).
    { eapply Forall_impl; [done|]. intros ev'. unfold valid_event. destruct (event_source_of ev'.1); try done.
      rewrite <- !elem_of_dom, Hd. done. }
    exists s2, (fs1 ++ fs2). rewrite E2, app_assoc. split; [done|]. by eapply wakes_trans.
Qed.
End batch.

(** ** Properties *)


(** The pointer stored with an event identifies its source: the event descriptor, a
    timers bucket, whose address is tagged in the lowest bit, or a socket, for every even
    address. *)
Theorem event_source_round_trip addr :
  0 < addr → Z.even addr = true →
  event_source_of 0 = EvInterrupt ∧ event_source_of (bucket_ptr addr) = EvTimer addr ∧ event_source_of addr = EvSocket addr.
Proof. intros Hp He. by destruct addr as [|[p|p|]|p]. Qed.

Lemma event_source_round_trip_witness : event_source_of (bucket_ptr 0x7f00a040) = EvTimer 0x7f00a040.
Proof. apply (event_source_round_trip 0x7f00a040); [lia|reflexivity]. Defined.

(** *** Registration *)

Definition flag_of (r : bool) : Z := if r then EPOLLIN else EPOLLOUT.

(** The interest list has what the flags [active] say. *)
Definition interest_ok (s : fev_socket) (tbl : gmap Z Z) : Prop :=
  tbl !! fd s = if old_flags s =? 0 then None else Some (reg_mask (old_flags s)).

Lemma old_flags_set s r e :
  end_active (get_end s r) = false → end_active e = true → old_flags (set_end s r e) = Z.lor (old_flags s) (flag_of r).
Proof.
  unfold old_flags. destruct r; simpl; intros -> ->; [destruct (end_active (write_end s))|destruct (end_active (read_end s))]; done.
Qed.

(** Registering an end never fails an assertion, keeps the interest list in step with the
    [active] flags when the fiber sets its flag afterwards, touches no other descriptor, and
    fails only if the kernel refuses, in which case nothing changes. *)
Theorem register_keeps_interest s r tbl sys w :
  interest_ok s tbl → end_active (get_end s r) = false →
  ∃ ret tbl', fev_poller_register s (flag_of r) tbl sys = Some (ret, tbl') ∧ ret = sys ∧
    (ret = 0 → interest_ok (set_end s r (mk_end w true)) tbl' ∧ ∀ x, x ≠ fd s → tbl' !! x = tbl !! x) ∧
    (ret ≠ 0 → tbl' = tbl).
Proof.
  intros Hok Hr. unfold fev_poller_register.
  replace ((flag_of r =? EPOLLIN) || (flag_of r =? EPOLLOUT)) with true by (by destruct r).
  assert (Hl : Z.land (old_flags s) (flag_of r) =? 0 = true).
  { unfold old_flags. destruct r; simpl in *; rewrite Hr; [destruct (end_active (write_end s))|destruct (end_active (read_end s))]; done. }
  rewrite Hl. destruct (Z.eqb_spec sys 0) as [->|Hs]; [|exists sys, tbl; done].
  assert (Hc : epoll_ctl tbl (old_flags s =? 0) (fd s) (reg_mask (Z.lor (old_flags s) (flag_of r))) =
               (0, <[fd s := reg_mask (Z.lor (old_flags s) (flag_of r))]> tbl)).
  { unfold epoll_ctl. rewrite Hok. by destruct (old_flags s =? 0). }
  rewrite Hc. eexists 0, _. split_and!; [done..| |done]. intros _. split.
  - unfold interest_ok. rewrite old_flags_set by done.
    replace (fd (set_end s r (mk_end w true))) with (fd s) by (by destruct r). rewrite lookup_insert_eq.
    destruct (Z.eqb_spec (Z.lor (old_flags s) (flag_of r)) 0) as [E|]; [|done].
    apply Z.lor_eq_0_iff in E as [_ E]. by destruct r.
  - intros x Hx. by apply lookup_insert_ne.
Qed.

(** A socket that was just opened. *)
Definition ex_socket : fev_socket := (fev_socket_open (fev_socket_init 1) ∅ 5 0).1.2.

Lemma register_keeps_interest_witness :
  ∃ tbl', fev_poller_register ex_socket EPOLLOUT ∅ 0 = Some (0, tbl') ∧
          interest_ok (set_end ex_socket false (mk_end (end_waiter (write_end ex_socket)) true)) tbl'.
Proof.
  destruct (register_keeps_interest ex_socket false ∅ 0 (end_waiter (write_end ex_socket))) as (ret & tbl' & E & -> & H & _);
    [reflexivity|reflexivity|]. exists tbl'. split; [exact E|]. by apply H.
Defined.

(** Two fibers that start to read and to write at the same time both find no flag set; the one
    that comes second is told that the descriptor is registered already. *)
Theorem register_race s tbl tbl' :
  old_flags s = 0 → fev_poller_register s EPOLLIN tbl 0 = Some (0, tbl') →
  fev_poller_register s EPOLLOUT tbl' 0 = Some (- EEXIST, tbl').
Proof.
  intros Ho. unfold fev_poller_register. rewrite Ho. simpl. unfold epoll_ctl. simpl.
  destruct (tbl !! fd s) eqn:E; [done|]. intros [= <-]. by rewrite lookup_insert_eq.
Qed.

(** A socket that was waited on, closed and opened again keeps its [active] flag, but the new
    descriptor is not registered: nothing will wake up the next fiber that waits. *)
Theorem reopened_socket_not_registered s fds tbl sock :
  end_active (read_end s) = true → fd s ≠ -1 → 0 ≤ sock → tbl !! sock = None ∨ sock = fd s →
  let '(_, s1, fds1, tbl1) := fev_socket_close s fds tbl 0 in
  let '(ret, s2, _) := fev_socket_open s1 fds1 sock 0 in
  ret = 0 ∧ fd s2 = sock ∧ end_active (read_end s2) = true ∧ tbl1 !! fd s2 = None.
Proof.
  intros Ha Hf Hs Ht. unfold fev_socket_close. rewrite (proj2 (Z.eqb_neq _ _) Hf). simpl.
  unfold fev_socket_open. rewrite (proj2 (Z.ltb_ge _ _) Hs). simpl. split_and!; [done..|].
  destruct (decide (fd s = sock)) as [<-|Hne]; [apply lookup_delete_eq|]. rewrite lookup_delete_ne by done.
  destruct Ht; [done|congruence].
Qed.

(** *** Results of the operations *)

Definition timed_wait_result (r : Z) : bool :=
  (r =? 0) || (r =? - EAGAIN) || (r =? - ETIMEDOUT) || (r =? - ENOMEM).

(** The operation was tried [i] times in vain. *)
Definition would_block (ops : list op_result) (i : nat) : Prop := ∀ j, (j < i)%nat → ops !! j = Some (Err (- EAGAIN)).

Definition op_outcome (ops : list op_result) (r : Z) : Prop :=
  ∃ i, would_block ops i ∧ (ops !! i = Some (Done r) ∨ ops !! i = Some (Err r) ∧ r ≠ - EAGAIN).

Definition loop_outcome (errs : list bool) (waits : list Z) (ops : list op_result) (r : Z) : Prop :=
  op_outcome ops r ∨ (r = - ECONNRESET ∧ true ∈ errs) ∨ (r = - ETIMEDOUT ∧ r ∈ waits) ∨ (r = - ENOMEM ∧ r ∈ waits).

Lemma op_outcome_cons ops r : op_outcome ops r → op_outcome (Err (- EAGAIN) :: ops) r.
Proof.
  intros (i & Hb & Hi). exists (S i). split; [|exact Hi]. intros [|j] Hj; [done|]. simpl. apply Hb. lia.
Qed.

Lemma op_loop_ok errs : ∀ waits ops o,
  forallb timed_wait_result waits = true → op_loop errs waits ops = Some o →
  ∃ r, o = Some r ∧ loop_outcome errs waits ops r.
Proof.
  induction errs as [|err errs IH]; intros waits ops o Hw Ho; [done|]. cbn [op_loop] in Ho. destruct err.
  { simplify_eq. eexists. split; [done|]. right. left. split; [done|apply list_elem_of_here]. }
  destruct waits as [|res waits]; [done|]. simpl in Hw. apply andb_true_iff in Hw as [Hres Hw].
  destruct (Z.eqb_spec res (- ENOMEM)) as [->|H1].
  { simplify_eq. eexists. split; [done|]. do 3 right. split; [done|apply list_elem_of_here]. }
  destruct (Z.eqb_spec res (- ETIMEDOUT)) as [->|H2].
  { simplify_eq. eexists. split; [done|]. do 2 right. left. split; [done|apply list_elem_of_here]. }
  assert (Hok : (res =? 0) || (res =? - EAGAIN) = true).
  { unfold timed_wait_result in Hres. rewrite (proj2 (Z.eqb_neq _ _) H1), (proj2 (Z.eqb_neq _ _) H2), !orb_false_r in Hres. done. }
  rewrite Hok in Ho. destruct ops as [|[r|e] ops]; [done| |].
  { simplify_eq. eexists. split; [done|]. left. exists 0%nat. split; [intros j Hj; lia|by left]. }
  destruct (Z.eqb_spec e (- EAGAIN)) as [->|He].
  - destruct (IH waits ops o Hw Ho) as (r & -> & Hr). exists r. split; [done|].
    destruct Hr as [Hr|[[-> Hr]|[[-> Hr]|[-> Hr]]]].
    + left. by apply op_outcome_cons.
    + right. left. split; [done|by apply list_elem_of_further].
    + do 2 right. left. split; [done|by apply list_elem_of_further].
    + do 3 right. split; [done|by apply list_elem_of_further].
  - simplify_eq. eexists. split; [done|]. left. exists 0%nat. split; [intros j Hj; lia|]. right. done.
Qed.

Lemma op_loop_returns errs : ∀ waits ops i,
  (i < length errs)%nat → (i < length waits)%nat → (i < length ops)%nat → ops !! i ≠ Some (Err (- EAGAIN)) →
  is_Some (op_loop errs waits ops).
Proof.
  induction errs as [|err errs IH]; intros waits ops i He Hw Hi Hn; [simpl in He; lia|]. cbn [op_loop].
  destruct err; [eauto|]. destruct waits as [|res waits]; [simpl in Hw; lia|].
  destruct (res =? - ENOMEM); [eauto|]. destruct (res =? - ETIMEDOUT); [eauto|].
  destruct ((res =? 0) || (res =? - EAGAIN)); [|eauto].
  destruct ops as [|[r|e] ops]; [simpl in Hi; lia|eauto|]. destruct (Z.eqb_spec e (- EAGAIN)) as [->|]; [|eauto].
  destruct i as [|i]; [done|]. simpl in *. apply (IH waits ops i); try lia. done.
Qed.



(** A timed connect that is woken up by a time-out of another fiber tries again, is told that the
    connection is still being set up, and gives up with that error. *)
Theorem timed_connect_fails_early :
  gen_socket_op_timeout false 0 [false] [- EAGAIN] [connect_op (-1) EINPROGRESS; connect_op (-1) EALREADY]
  = Some (Some (- EALREADY), true).
Proof. reflexivity. Qed.

(** Fibers 7 and 8 wait at the two ends of a socket. There are an interrupt, data, and data with a
    hang-up. *)
Definition ex_pstate : pstate Z heap_bucket :=
  let e f := mk_end (mk_waiter FEV_WAITER_NONE true FEV_WAITER_NONE false false f) true in
  mk_pstate {[ 0x1000 := mk_socket (e 7%positive) (e 8%positive) 5 0 ]} ∅.

