(* ===== verification/Epoll.v ===== *)
(** The descriptors of the epoll poller, [src/src/fev_poller_epoll.c]: the timer descriptor of each timers bucket and the
    descriptor for interrupts, with what the kernel does with them.

    [fev_poller_set_timeout] arms a timer descriptor, time passes, and [epoll_wait] reports descriptors that became ready since they
    were reported last (they are registered edge-triggered and never read). *)

From S2P Require Import Prelude Time.

Local Open Scope Z_scope.

(** ** The kernel *)

(** [armed]: the timers that are armed, with their expiration; [expired]: the timer descriptors that became ready and have not been
    reported; the counter of the event descriptor, and whether it has to be reported. *)
Record kernel := mk_kernel { armed : gmap Z timespec; expired : gset Z; counter : Z; signalled : bool }.

Definition kernel_init : kernel := mk_kernel ∅ ∅ 0 false.

(** [timerfd_settime] with [TFD_TIMER_ABSTIME] and no interval: replaces the previous setting, whose expirations are forgotten; a time of
    0 disarms the timer. [EINVAL] for an invalid time. *)
Definition timerfd_settime (k : kernel) (fd : Z) (t : timespec) : Z * kernel :=
  if negb (fev_timespec_assert_valid t) then (- EINVAL, k)
  else
    (0, mk_kernel (if decide (t = mk_timespec 0 0) then delete fd (armed k) else <[fd := t]> (armed k)) (expired k ∖ {[fd]})
          (counter k) (signalled k)).

(** [write] of 1 to a non-blocking event descriptor: the number of bytes written. *)
Definition eventfd_write (k : kernel) : Z * kernel :=
  if counter k <? UINT64_MAX - 1 then (8, mk_kernel (armed k) (expired k) (counter k + 1) true) else (- EAGAIN, k).

(** The time is [now]: timers expire, once. *)
Definition due (now : timespec) (t : timespec) : Prop := ts_ns t ≤ ts_ns now.
#[export] Instance due_dec now t : Decision (due now t).
Proof. unfold due. apply _. Defined.

Definition tick (k : kernel) (now : timespec) : kernel :=
  mk_kernel (filter (λ x, ¬ due now x.2) (armed k)) (expired k ∪ dom (filter (λ x, due now x.2) (armed k))) (counter k) (signalled k).

(** [epoll_wait] reports one descriptor. *)
Definition report_timer (k : kernel) (fd : Z) : option kernel :=
  if decide (fd ∈ expired k) then Some (mk_kernel (armed k) (expired k ∖ {[fd]}) (counter k) (signalled k)) else None.
Definition report_event (k : kernel) : option kernel :=
  if signalled k then Some (mk_kernel (armed k) (expired k) (counter k) false) else None.

(** ** The poller *)

(** [fd]: the descriptor [timer_fd] of the bucket. *)
Definition fev_poller_set_timeout (k : kernel) (fd : Z) (abs_time : timespec) : option kernel :=
  FEV_ASSERT fev_timespec_assert_valid abs_time;
  let '(ret, k) := timerfd_settime k fd abs_time in
  FEV_ASSERT (ret =? 0);
  Some k.

Definition fev_poller_interrupt (k : kernel) : option kernel :=
  let '(num_written, k) := eventfd_write k in
  FEV_ASSERT (num_written =? 8);
  Some k.

(** ** What the timers rely on *)

(** Each bucket has a deadline that has been set and not reported. *)
Record wanted := mk_wanted { deadlines : gmap Z timespec; interrupted : bool }.

(** The poller as the timers and the scheduler see it: a time-out is reported when its time has come, once, and only the one set last;
    interrupts are reported. *)
Inductive op := OSet (fd : Z) (t : timespec) | OInterrupt | OTick (now : timespec) | OTimer (fd : Z) | OEvent.

Definition spec (w : wanted) (clock : timespec) (o : op) : option (wanted * timespec) :=
  match o with
  | OSet fd t => Some (mk_wanted (<[fd := t]> (deadlines w)) (interrupted w), clock)
  | OInterrupt => Some (mk_wanted (deadlines w) true, clock)
  | OTick now => if decide (due now clock) then Some (w, now) else None
  | OTimer fd =>
      t ← deadlines w !! fd;
      if decide (due clock t) then Some (mk_wanted (delete fd (deadlines w)) (interrupted w), clock) else None
  | OEvent => if interrupted w then Some (mk_wanted (deadlines w) false, clock) else None
  end.

(** The kernel; [clock] is the time of the last tick. A deadline that has passed when it is set expires at once. *)
Definition impl (k : kernel) (clock : timespec) (o : op) : option (kernel * timespec) :=
  match o with
  | OSet fd t => k ← fev_poller_set_timeout k fd t; Some (tick k clock, clock)
  | OInterrupt => k ← fev_poller_interrupt k; Some (k, clock)
  | OTick now => if decide (due now clock) then Some (tick k now, now) else None
  | OTimer fd => k ← report_timer k fd; Some (k, clock)
  | OEvent => k ← report_event k; Some (k, clock)
  end.

(** A valid deadline other than 0. *)
Definition op_ok (o : op) : Prop := match o with OSet _ t => ts_valid t ∧ t ≠ mk_timespec 0 0 | _ => True end.

Fixpoint run {S} (step : S → timespec → op → option (S * timespec)) (s : S) (clock : timespec) (os : list op) : option (S * timespec) :=
  match os with
  | [] => Some (s, clock)
  | o :: os => '(s, clock) ← step s clock o; run step s clock os
  end.

(** ** Facts *)

Record agree (n : Z) (k : kernel) (w : wanted) (clock : timespec) : Prop := {
  ag_armed fd t : armed k !! fd = Some t ↔ deadlines w !! fd = Some t ∧ ¬ due clock t;
  ag_expired fd : fd ∈ expired k ↔ ∃ t, deadlines w !! fd = Some t ∧ due clock t;
  ag_signal : signalled k = interrupted w;
  ag_counter : 0 ≤ counter k ≤ n;
}.

Lemma agree_weaken n m k w c : agree n k w c → n ≤ m → agree m k w c.
Proof. intros [A1 A2 A3 A4] H. split; [done..|lia]. Qed.

(** Time passes: the timers that are due expire. *)
Lemma tick_agree n k w c now : agree n k w c → due now c → agree n (tick k now) w now.
Proof.
  intros [A1 A2 A3 A4] Hc. unfold due in *. split; simpl; [| |done|done].
  - intros fd t. rewrite map_lookup_filter_Some, A1. unfold due. simpl. intuition lia.
  - intros fd. rewrite elem_of_union, A2, elem_of_dom. unfold is_Some. setoid_rewrite map_lookup_filter_Some. setoid_rewrite A1. unfold due. simpl. split.
    + intros [(t & Ht & Hd)|(t & [Ht Hd] & Hd2)]; exists t; (split; [done|lia]).
    + intros (t & Ht & Hd). destruct (decide (ts_ns t ≤ ts_ns c)); [left|right]; exists t; repeat split; (done || lia).
Qed.

(** Setting a deadline, before its time has been compared with the clock. *)
Lemma set_agree n k w c fd t : agree n k w c → ts_valid t → t ≠ mk_timespec 0 0 →
  ∃ k', fev_poller_set_timeout k fd t = Some k' ∧ agree n (tick k' c) (mk_wanted (<[fd := t]> (deadlines w)) (interrupted w)) c.
Proof.
  intros [A1 A2 A3 A4] Hv Hz. unfold fev_poller_set_timeout, timerfd_settime. rewrite (ts_valid_assert t Hv). cbn [negb]. rewrite decide_False by done.
  eexists. split; [reflexivity|]. split; simpl; [| |done|done].
  - intros f x. rewrite map_lookup_filter_Some. simpl. destruct (decide (f = fd)) as [->|Hne]; [by rewrite !lookup_insert_eq|].
    rewrite !lookup_insert_ne by done. rewrite A1. tauto.
  - intros f. rewrite elem_of_union, elem_of_difference, A2, elem_of_dom, not_elem_of_singleton. unfold is_Some. setoid_rewrite map_lookup_filter_Some. simpl.
    destruct (decide (f = fd)) as [->|Hne].
    + rewrite !lookup_insert_eq. split; [intros [[_ ?]|(x & Hx)]; [done|by exists x]|intros (x & Hx); right; by exists x].
    + rewrite !lookup_insert_ne by done. split; [|intros (x & Hx); left; eauto].
      intros [[? _]|(x & Hx & Hd)]; [done|]. exists x. split; [by apply A1|done].
Qed.

Lemma step_agree n k w c o : agree n k w c → n < UINT64_MAX - 1 → op_ok o →
  match impl k c o, spec w c o with
  | Some (k', c1), Some (w', c2) => c1 = c2 ∧ agree (n + 1) k' w' c1
  | None, None => True
  | _, _ => False
  end.
Proof.
  intros HA Hn Ho. assert (HA1 : agree (n + 1) k w c) by (apply (agree_weaken n); [done|lia]). destruct o as [fd t| |now|fd|]; cbn [impl spec].
  - destruct Ho as [Hv Hz]. destruct (set_agree (n + 1) k w c fd t HA1 Hv Hz) as (k' & -> & HA'). done.
  - destruct HA as [A1 A2 A3 A4]. unfold fev_poller_interrupt, eventfd_write. destruct (Z.ltb_spec (counter k) (UINT64_MAX - 1)); [|lia]. cbn.
    split; [done|]. split; simpl; [done|done|done|lia].
  - destruct (decide (due now c)) as [Hd|]; [|done]. split; [done|]. by apply (tick_agree (n + 1) k w c).
  - destruct HA1 as [A1 A2 A3 A4]. unfold report_timer. destruct (decide (fd ∈ expired k)) as [Hin|Hin].
    + apply A2 in Hin as Ht. destruct Ht as (t & Ht & Hd). rewrite Ht. cbn [mbind option_bind]. rewrite decide_True by done. split; [done|]. split; simpl; [| |done|done].
      * intros f x. rewrite lookup_delete_Some, A1. split; [|tauto]. intros [Hx Hnd]. split; [|done]. split; [|done]. intros <-. rewrite Ht in Hx. by injection Hx as ->.
      * intros f. rewrite elem_of_difference, A2, not_elem_of_singleton. setoid_rewrite lookup_delete_Some. naive_solver.
    + destruct (deadlines w !! fd) as [t|] eqn:Ht; cbn [mbind option_bind]; [|done]. destruct (decide (due c t)) as [Hd|]; [|done]. apply Hin, A2. eauto.
  - destruct HA1 as [A1 A2 A3 A4]. unfold report_event. rewrite A3. destruct (interrupted w); [|done]. cbn. split; [done|]. by split.
Qed.

(** ** Properties *)

(** The epoll poller reports what it should: any sequence of time-outs that are set, interrupts, passing time and reports is possible with the
    kernel if and only if it is possible with the specification. A time-out is thus reported if and only if its deadline was the
    last one set for its bucket, has passed and was not reported since, an interrupt if and only if it came after the last
    report of one, and no assertion fails. This needs deadlines that are valid and not 0, and fewer than 2^64 - 2 interrupts. *)
Theorem epoll_reports_exact os clock :
  Forall op_ok os → Z.of_nat (length os) < UINT64_MAX - 1 →
  is_Some (run impl kernel_init clock os) ↔ is_Some (run spec (mk_wanted ∅ false) clock os).
Proof.
  intros Hok Hlen. assert (HA : agree 0 kernel_init (mk_wanted ∅ false) clock).
  { split; simpl; [|set_solver|done|lia]. intros fd t. rewrite !lookup_empty. by split; [|intros [? _]]. }
  assert (Hn : 0 + Z.of_nat (length os) < UINT64_MAX - 1) by lia. revert HA Hn. generalize kernel_init (mk_wanted ∅ false) 0 clock. clear Hlen clock.
  induction Hok as [|o os Ho _ IH]; intros k w n c HA Hn; cbn [run]; [split; intros _; eauto|]. cbn [length] in Hn.
  pose proof (step_agree n k w c o HA ltac:(lia) Ho) as Hs. destruct (impl k c o) as [[k' c1]|], (spec w c o) as [[w' c2]|]; cbn [mbind option_bind]; [|done|done|].
  - destruct Hs as [<- HA']. apply (IH _ _ (n + 1)); [done|lia].
  - split; intros [? ?]; done.
Qed.

Lemma epoll_reports_exact_witness :
  is_Some (run spec (mk_wanted ∅ false) (mk_timespec 5 0)
             [OSet 1 (mk_timespec 7 0); OInterrupt; OSet 1 (mk_timespec 6 0); OTick (mk_timespec 6 1); OTimer 1; OEvent]).
Proof.
  apply epoll_reports_exact; [|vm_compute; reflexivity|vm_compute; eauto].
  repeat constructor; try (vm_compute; discriminate); intros [=].
Defined.

(** A deadline of 0, although valid, disarms the timer of its bucket: it is never reported, and neither are the later deadlines in the
    bucket, for which the timer is only armed when the first one has been processed. *)
Lemma zero_deadline_never_reported k fd now :
  ∃ k', fev_poller_set_timeout k fd (mk_timespec 0 0) = Some k' ∧ report_timer (tick k' now) fd = None.
Proof.
  unfold fev_poller_set_timeout, timerfd_settime. cbn. eexists. split; [reflexivity|]. unfold report_timer. rewrite decide_False; [done|]. simpl.
  rewrite elem_of_union, elem_of_difference, elem_of_dom. intros [[_ ?]|[x Hx]]; [set_solver|]. rewrite map_lookup_filter_Some, lookup_delete_eq in Hx. by destruct Hx.
Qed.
