(* ===== verification/Kqueue.v ===== *)
(** The kqueue poller of BSD and macOS: [src/src/fev_poller_kqueue.c] and [fev_poller_kqueue.h].

    The kernel's side is a table of events by identifier and filter. Registration, timeouts, interrupts and the
    delivery of events work on it; the handling of a batch of events works on the same state as that of epoll
    (file [Socket]), so that the two pollers can be compared. *)

From S2P Require Import Prelude Time TimersIntf Binheap Waiter Timers TimedWait Init Socket.

Local Open Scope Z_scope.

(** ** The kernel *)

Definition EVFILT_READ : Z := -1.
Definition EVFILT_WRITE : Z := -2.
Definition EVFILT_TIMER : Z := -7.
Definition EVFILT_USER : Z := -11.

Definition EV_ADD : Z := 0x1.
Definition EV_ENABLE : Z := 0x4.
Definition EV_ONESHOT : Z := 0x10.
Definition EV_CLEAR : Z := 0x20.

Definition NOTE_NSECONDS : Z := 0x8.
Definition NOTE_TRIGGER : Z := 0x01000000.
Definition NOTE_FFNOP : Z := 0.

(** [struct kevent]. *)
Record kevent_t := mk_kevent { ident : Z; kfilter : Z; kflags : Z; fflags : Z; data : Z; udata : Z }.

(** What the kernel keeps of an event; [triggered] is that of [EVFILT_USER]. *)
Record knote := mk_knote { kn_flags : Z; kn_data : Z; kn_udata : Z; triggered : bool }.

Abbreviation kqueue_t := (gmap (Z * Z) knote).

(** The conversion of an unsigned value to [intptr_t]. *)
Definition intptr (v : Z) : Z := if v <? 2 ^ 63 then v else v - 2 ^ 64.

(** One entry of a change list, by the documentation: an event that is added again is modified; an event that was
    not added cannot be enabled or triggered; a negative period is refused. [sys]: 0, or an error the kernel reports for
    a reason of its own. *)
Definition kevent (kq : kqueue_t) (e : kevent_t) (sys : Z) : Z * kqueue_t :=
  let k := (ident e, kfilter e) in
  if negb (sys =? 0) then (sys, kq)
  else if negb (Z.land (kflags e) EV_ADD =? 0) then
    if (kfilter e =? EVFILT_TIMER) && (data e <? 0) then (- EINVAL, kq)
    else (0, <[k := mk_knote (kflags e) (data e) (udata e) false]> kq)
  else
    match kq !! k with
    | None => (- ENOENT, kq)
    | Some n => (0, <[k := mk_knote (kn_flags n) (kn_data n) (kn_udata n) (triggered n || negb (Z.land (fflags e) NOTE_TRIGGER =? 0))]> kq)
    end.

(** The kernel reports the event with this identifier and filter, if it has it: it disappears if it was to be reported
    once, and its state is reset otherwise. *)
Definition deliver (kq : kqueue_t) (id flt : Z) : option kevent_t * kqueue_t :=
  match kq !! (id, flt) with
  | None => (None, kq)
  | Some n =>
      (Some (mk_kevent id flt (kn_flags n) 0 (kn_data n) (kn_udata n)),
       if negb (Z.land (kn_flags n) EV_ONESHOT =? 0) then delete (id, flt) kq
       else <[(id, flt) := mk_knote (kn_flags n) (kn_data n) (kn_udata n) false]> kq)
  end.

(** Closing a descriptor removes its events. *)
Definition close_fd (kq : kqueue_t) (fd : Z) : kqueue_t := delete (fd, EVFILT_READ) (delete (fd, EVFILT_WRITE) kq).

(** ** The poller *)

(** [enum fev_poller_flag]: [FEV_POLLER_IN] and [FEV_POLLER_OUT] are the filters. *)
Definition kq_flag (r : bool) : Z := if r then EVFILT_READ else EVFILT_WRITE.

(** [socket]: the address of the socket. *)
Definition fev_poller_register (kq : kqueue_t) (socket fd flag sys : Z) : option (Z * kqueue_t) :=
  FEV_ASSERT (flag =? EVFILT_READ) || (flag =? EVFILT_WRITE);
  FEV_ASSERT (0 <=? fd);
  Some (kevent kq (mk_kevent fd flag (Z.lor EV_ADD EV_CLEAR) 0 0 socket) sys).

(** [now]: the clock, which [fev_timespec_abs_to_rel] reads. *)
Definition fev_poller_set_timeout (kq : kqueue_t) (bucket : Z) (now abs_time : timespec) (sys : Z) : option kqueue_t :=
  rel_time ← fev_timespec_abs_to_rel now abs_time;
  ns ← fev_timespec_to_ns rel_time;
  let '(ret, kq) :=
    kevent kq (mk_kevent bucket EVFILT_TIMER (Z.lor (Z.lor EV_ADD EV_ONESHOT) EV_CLEAR) NOTE_NSECONDS (intptr ns) 0) sys in
  FEV_ASSERT (ret =? 0);
  Some kq.

Definition fev_poller_interrupt (kq : kqueue_t) (sys : Z) : option kqueue_t :=
  let '(ret, kq) := kevent kq (mk_kevent 0 EVFILT_USER EV_ENABLE NOTE_TRIGGER 0 0) sys in
  FEV_ASSERT (ret =? 0);
  Some kq.

(** The event for interrupts, which [fev_poller_init] adds. *)
Definition init_event : kevent_t := mk_kevent 0 EVFILT_USER (Z.lor EV_ADD EV_CLEAR) NOTE_FFNOP 0 0.
Definition kq_init : kqueue_t := (kevent ∅ init_event 0).2.

(** Creation: the descriptor of the kqueue, and the event. *)
Definition fev_poller_init : M Z :=
  e <- acquire RKqueue;;
  if e =? 0 then (e <- ask;; if e =? 0 then ret 0 else release RKqueue;;; ret e) else ret e.

(** After [fev_poller_free_remaining_sockets], which is modelled with the reclamation of sockets. *)
Definition fev_poller_fini : M unit := release RKqueue.

Section process.
Context {X B : Type} `{Ops : !TimersBucketOps X B}.

Definition fev_process_timer_event (s : twstate X B) : option (twstate X B * option loc) :=
  match tmin (ts_ s) with
  | None => Some (s, None)
  | Some min =>
      t ← store (ts_ s) !! min;
      w ← wtrs (ts_ s) !! waiter t;
      '(result, w) ← fev_waiter_wake w FEV_WAITER_TIMED_OUT_CHECK;
      Some (set_waiter s (waiter t) w,
            if decide (result = FEV_WAITER_SET_AND_WAKE_UP) then Some (fiber w) else None)
  end.

Definition fev_process_socket (s : fev_socket) (flt : Z) : option (fev_socket * option loc) :=
  FEV_ASSERT (flt =? EVFILT_READ) || (flt =? EVFILT_WRITE);
  let r := flt =? EVFILT_READ in
  let e := get_end s r in
  '(result, w) ← fev_waiter_wake (end_waiter e) FEV_WAITER_READY;
  Some (set_end s r (mk_end w (end_active e)),
        if decide (result = FEV_WAITER_SET_AND_WAKE_UP) then Some (fiber w) else None).

(** An iteration of the loop of [fev_poller_process]. *)
Definition process_kevent (st : pstate X B * list loc) (ev : kevent_t) : option (pstate X B * list loc) :=
  let '(s, fibers) := st in
  if udata ev =? 0 then
    FEV_ASSERT (kfilter ev =? EVFILT_TIMER) || (kfilter ev =? EVFILT_USER);
    if kfilter ev =? EVFILT_USER then Some (s, fibers)
    else
      x ← buckets s !! ident ev;
      '(x, f) ← fev_process_timer_event x;
      Some (mk_pstate (sockets s) (<[ident ev := x]> (buckets s)), fibers ++ option_list f)
  else
    FEV_ASSERT (kfilter ev =? EVFILT_READ) || (kfilter ev =? EVFILT_WRITE);
    sock ← sockets s !! udata ev;
    '(sock, f) ← fev_process_socket sock (kfilter ev);
    Some (mk_pstate (<[udata ev := sock]> (sockets s)) (buckets s), fibers ++ option_list f).

Fixpoint process_kevents (st : pstate X B * list loc) (evs : list kevent_t) : option (pstate X B * list loc) :=
  match evs with
  | [] => Some st
  | ev :: evs => st ← process_kevent st ev; process_kevents st evs
  end.

(** [fev_poller_process], up to [fev_wake_stq] with the fibers it gives: [n] is what [kevent] returns, [evs] the
    events it stored. A negative [n] is fatal. *)
Definition fev_poller_process (s : pstate X B) (n : Z) (evs : list kevent_t) : option (pstate X B * list loc) :=
  if n <? 0 then None else process_kevents (s, []) (take (Z.to_nat n) evs).
End process.

(** ** Creation *)

Lemma acquires_kqueue : acquires fev_poller_init [RKqueue].
Proof.
  apply (acquires_perm _ ([] ++ [RKqueue])); [done|].
  assert (H : acquires (TRY acquire RKqueue UNDO release RKqueue;; ask) ([] ++ [RKqueue])).
  { apply acquires_guard; [apply acquires_acquire|apply releases_release|apply acquires_ask]. }
  intros s h Hp. destruct (H s h Hp) as (e & s' & E & Hp'). exists e, s'. split; [|exact Hp']. rewrite <- E.
  unfold fev_poller_init, guard, bind. destruct (acquire RKqueue s) as [[e1 s1]|]; [|done]. simpl. destruct (e1 =? 0); done.
Qed.

Lemma releases_kqueue : releases fev_poller_fini [RKqueue].
Proof. apply releases_release. Qed.

(** ** Agreement with epoll *)

(** What there is to report: an interrupt, a timeout of a bucket, readiness of an end of a socket. *)
Inductive notice := NInterrupt | NTimeout (bucket : Z) | NReady (socket fd : Z) (r : bool).

(** How the two kernels report it, given how the poller registers its events. *)
Definition epoll_event (n : notice) : Z * Z :=
  match n with
  | NInterrupt => (0, EPOLLIN)
  | NTimeout b => (bucket_ptr b, EPOLLIN)
  | NReady a _ r => (a, flag_of r)
  end.

Definition kqueue_event (n : notice) : kevent_t :=
  match n with
  | NInterrupt => mk_kevent 0 EVFILT_USER (Z.lor EV_ADD EV_CLEAR) 0 0 0
  | NTimeout b => mk_kevent b EVFILT_TIMER (Z.lor (Z.lor EV_ADD EV_ONESHOT) EV_CLEAR) 0 0 0
  | NReady a fd r => mk_kevent fd (kq_flag r) (Z.lor EV_ADD EV_CLEAR) 0 0 a
  end.

(** Buckets and sockets have even addresses. *)
Definition notice_ok (n : notice) : bool :=
  match n with NInterrupt => true | NTimeout b => (0 <? b) && Z.even b | NReady a _ _ => (0 <? a) && Z.even a end.

Lemma event_source_even addr :
  0 < addr → Z.even addr = true → event_source_of (bucket_ptr addr) = EvTimer addr ∧ event_source_of addr = EvSocket addr.
Proof. intros Hp He. by destruct addr as [|[p|p|]|p]. Qed.

(** Without an error, epoll's [fev_process_socket] concerns one end. *)
Lemma process_socket_flag sock r fibers :
  Socket.fev_process_socket (flag_of r) sock fibers =
  '(sock, f) ← fev_process_socket sock (kq_flag r); Some (sock, fibers ++ option_list f).
Proof.
  unfold Socket.fev_process_socket, fev_process_socket, wake_end.
  replace (is_error (flag_of r)) with false by (by destruct r).
  replace ((kq_flag r =? EVFILT_READ) || (kq_flag r =? EVFILT_WRITE)) with true by (by destruct r).
  replace (kq_flag r =? EVFILT_READ) with r by (by destruct r).
  destruct r;
    [change (hits (flag_of true) true) with true; change (hits (flag_of true) false) with false
    |change (hits (flag_of false) true) with false; change (hits (flag_of false) false) with true]; cbn [mbind option_bind];
    destruct (fev_waiter_wake _ _) as [[result w]|]; cbn [mbind option_bind]; try done; case_decide; cbn [option_list]; by rewrite ?app_nil_r.
Qed.

Section agree.
Context {X B : Type} `{Ops : !TimersBucketOps X B}.

Lemma process_notice (st : pstate X B * list loc) n :
  notice_ok n = true → process_event st (epoll_event n) = process_kevent st (kqueue_event n).
Proof.
  destruct st as [s fibers], n as [|b|a fd r]; cbn [notice_ok epoll_event kqueue_event]; intros H; Zbool.
  - done.
  - destruct (event_source_even b) as [E _]; [lia|done|]. unfold process_event, process_kevent. cbn [fst snd]. by rewrite E.
  - destruct (event_source_even a) as [_ E]; [lia|done|]. unfold process_event, process_kevent. cbn [fst snd udata kfilter]. rewrite E.
    rewrite (proj2 (Z.eqb_neq a 0)) by lia. replace ((kq_flag r =? EVFILT_READ) || (kq_flag r =? EVFILT_WRITE)) with true by (by destruct r).
    destruct (sockets s !! a) as [sock|]; [|done]. cbn [mbind option_bind]. rewrite process_socket_flag.
    by destruct (fev_process_socket sock (kq_flag r)) as [[? ?]|].
Qed.

Lemma process_notices ns : ∀ st : pstate X B * list loc,
  forallb notice_ok ns = true → process_events st (epoll_event <$> ns) = process_kevents st (kqueue_event <$> ns).
Proof.
  induction ns as [|n ns IH]; intros st H; [done|]. simpl in H. apply andb_true_iff in H as [H1 H2].
  cbn [fmap list_fmap process_events process_kevents]. rewrite process_notice by done.
  destruct (process_kevent st (kqueue_event n)); [by apply IH|done].
Qed.
End agree.

(** ** What the kernel can report *)

Inductive kop :=
| KRegister (socket fd : Z) (r : bool)      (* of a socket at an even address *)
| KTimeout (bucket : Z) (now abs_time : timespec)
| KInterrupt
| KClose (fd : Z)
| KDeliver (id flt : Z).                    (* the kernel chooses *)

(** The kernel has enough memory. *)
Definition kstep (kq : kqueue_t) (o : kop) : option (list kevent_t * kqueue_t) :=
  match o with
  | KRegister a fd r => '(_, kq) ← fev_poller_register kq a fd (kq_flag r) 0; Some ([], kq)
  | KTimeout b now t => kq ← fev_poller_set_timeout kq b now t 0; Some ([], kq)
  | KInterrupt => kq ← fev_poller_interrupt kq 0; Some ([], kq)
  | KClose fd => Some ([], close_fd kq fd)
  | KDeliver id flt => let '(e, kq) := deliver kq id flt in Some (option_list e, kq)
  end.

Fixpoint kruns (kq : kqueue_t) (os : list kop) : option (list kevent_t * kqueue_t) :=
  match os with
  | [] => Some ([], kq)
  | o :: os => '(es, kq) ← kstep kq o; '(es', kq) ← kruns kq os; Some (es ++ es', kq)
  end.

(** The deadline is valid and less than 2^63 ns away. *)
Definition in_reach (now t : timespec) : Prop := ts_valid now ∧ ts_valid t ∧ ts_ns t - ts_ns now < 2 ^ 63.

Definition kop_ok (o : kop) : Prop :=
  match o with
  | KRegister a fd r => 0 < a ∧ Z.even a = true ∧ 0 ≤ fd
  | KTimeout b now t => 0 < b ∧ Z.even b = true ∧ in_reach now t
  | _ => True
  end.

(** The event is the report of a notice. *)
Definition reports (e : kevent_t) (n : notice) : Prop :=
  notice_ok n = true ∧ ident e = ident (kqueue_event n) ∧ kfilter e = kfilter (kqueue_event n) ∧ udata e = udata (kqueue_event n).

(** [note_ok k n]: the note is one the poller made. *)
Definition note_ok (k : Z * Z) (n : knote) : Prop :=
  ∃ x, notice_ok x = true ∧ k = (ident (kqueue_event x), kfilter (kqueue_event x)) ∧ kn_udata n = udata (kqueue_event x) ∧
       kn_flags n = kflags (kqueue_event x).

Record kq_ok (kq : kqueue_t) : Prop := {
  ko_notes k n : kq !! k = Some n → note_ok k n;
  ko_user : is_Some (kq !! (0, EVFILT_USER));
}.

Lemma kq_ok_insert kq k n : kq_ok kq → note_ok k n → kq_ok (<[k := n]> kq).
Proof.
  intros [H1 H2] Hn. split.
  - intros k' n'. destruct (decide (k = k')) as [<-|Hne]; [rewrite lookup_insert_eq; congruence|rewrite lookup_insert_ne by done; apply H1].
  - destruct (decide (k = (0, EVFILT_USER))) as [->|Hne]; [rewrite lookup_insert_eq; by eexists|by rewrite lookup_insert_ne].
Qed.

Lemma kq_ok_delete kq k : kq_ok kq → k ≠ (0, EVFILT_USER) → kq_ok (delete k kq).
Proof.
  intros [H1 H2] Hk. split.
  - intros k' n' [_ H]%lookup_delete_Some. by apply H1.
  - by rewrite lookup_delete_ne.
Qed.

Lemma kq_ok_init : kq_ok kq_init.
Proof.
  split; [|by eexists]. intros k n H. unfold kq_init, kevent in H. simpl in H. apply lookup_insert_Some in H as [[<- <-]|[_ H]]; [|by rewrite lookup_empty in H].
  exists NInterrupt. done.
Qed.

(** The data of a timeout: the time that is left. *)
Lemma kq_set_timeout_ok kq bucket now t :
  in_reach now t →
  ∃ n, fev_poller_set_timeout kq bucket now t 0 = Some (<[(bucket, EVFILT_TIMER) := n]> kq) ∧
    kn_flags n = kflags (kqueue_event (NTimeout bucket)) ∧ kn_udata n = 0 ∧ kn_data n = Z.max 0 (ts_ns t - ts_ns now).
Proof.
  intros (Hn & Ht & Hr). unfold fev_poller_set_timeout. destruct (fev_timespec_abs_to_rel_ns now t Hn Ht) as (r & -> & Hv & Hns).
  cbn [mbind option_bind]. rewrite fev_timespec_to_ns_sat by done. cbn [mbind option_bind]. rewrite Hns, Z.min_l by (unfold UINT64_MAX; lia).
  unfold intptr. rewrite (proj2 (Z.ltb_lt _ _)) by lia. unfold kevent. cbn [ident kfilter kflags data fflags udata].
  change (negb (0 =? 0)) with false. change (negb (Z.land _ EV_ADD =? 0)) with true. cbn match.
  change (EVFILT_TIMER =? EVFILT_TIMER) with true. rewrite (proj2 (Z.ltb_ge _ 0)) by lia. cbn [andb]. cbn match. eexists. split; [done|]. done.
Qed.

Lemma kstep_ok kq o :
  kq_ok kq → kop_ok o → ∃ es kq', kstep kq o = Some (es, kq') ∧ kq_ok kq' ∧ Forall (λ e, ∃ n, reports e n) es.
Proof.
  intros Hok Ho. destruct o as [a fd r|b now t| |fd|id flt]; cbn [kstep kop_ok] in *.
  - destruct Ho as (Ha & He & Hf). unfold fev_poller_register, kevent.
    replace ((kq_flag r =? EVFILT_READ) || (kq_flag r =? EVFILT_WRITE)) with true by (by destruct r).
    rewrite (proj2 (Z.leb_le 0 fd)) by lia. cbn [mbind option_bind ident kfilter kflags udata data].
    change (negb (0 =? 0)) with false. change (negb (Z.land _ EV_ADD =? 0)) with true. rewrite (proj2 (Z.ltb_ge 0 0)), andb_false_r by lia. cbn match.
    eexists _, _. split; [done|]. split; [|done]. apply kq_ok_insert; [done|]. exists (NReady a fd r). cbn. by rewrite (proj2 (Z.ltb_lt 0 a)), He.
  - destruct Ho as (Hb & He & Hr). destruct (kq_set_timeout_ok kq b now t Hr) as (n & -> & Hf & Hu & _). cbn [mbind option_bind].
    eexists _, _. split; [done|]. split; [|done]. apply kq_ok_insert; [done|]. exists (NTimeout b). cbn. by rewrite (proj2 (Z.ltb_lt 0 b)), He.
  - destruct (ko_user _ Hok) as [n Hn]. unfold fev_poller_interrupt, kevent. cbn [ident kfilter kflags fflags].
    change (negb (0 =? 0)) with false. change (negb (Z.land EV_ENABLE EV_ADD =? 0)) with false. rewrite Hn. cbn match. cbn [Z.eqb mbind option_bind].
    eexists _, _. split; [done|]. split; [|done]. apply kq_ok_insert; [done|]. exact (ko_notes _ Hok _ _ Hn).
  - eexists _, _. split; [done|]. split; [|done]. unfold close_fd. by repeat (apply kq_ok_delete; [|done]).
  - unfold deliver. destruct (kq !! (id, flt)) as [n|] eqn:En; [|by eexists _, _].
    pose proof (ko_notes _ Hok _ _ En) as (x & Hx & [= -> ->] & Hu & Hf). eexists _, _. split; [done|]. split.
    + destruct (negb _) eqn:Eo; [|apply kq_ok_insert; [done|by exists x]].
      apply kq_ok_delete; [done|]. intros [= Hi Hk]. rewrite Hf in Eo. destruct x as [|b|a fd [|]]; vm_compute in Eo, Hk; done.
    + constructor; [|done]. by exists x.
Qed.

Lemma kruns_ok os : ∀ kq,
  kq_ok kq → Forall kop_ok os → ∃ es kq', kruns kq os = Some (es, kq') ∧ kq_ok kq' ∧ Forall (λ e, ∃ n, reports e n) es.
Proof.
  induction os as [|o os IH]; intros kq Hok Hos; [by eexists [], kq|]. apply Forall_cons in Hos as [Ho Hos].
  destruct (kstep_ok kq o Hok Ho) as (es1 & kq1 & E1 & Hok1 & H1). destruct (IH kq1 Hok1 Hos) as (es2 & kq2 & E2 & Hok2 & H2).
  exists (es1 ++ es2), kq2. cbn [kruns]. rewrite E1. cbn [mbind option_bind]. rewrite E2. cbn [mbind option_bind].
  split_and!; [done|done|]. by apply Forall_app.
Qed.

Section reports.
Context {X B : Type} `{Ops : !TimersBucketOps X B}.

Lemma process_reports es ns : ∀ st : pstate X B * list loc,
  Forall2 reports es ns → process_kevents st es = process_events st (epoll_event <$> ns).
Proof.
  intros st H. rewrite process_notices by (apply forallb_forall; intros n Hn; apply list_elem_of_In, list_elem_of_lookup in Hn as [i Hi];
    destruct (Forall2_lookup_r _ _ _ _ _ H Hi) as (e & _ & Hr); apply Hr).
  revert st. induction H as [|e n es ns (_ & Hi & Hf & Hu) _ IH]; intros st; [done|].
  cbn [fmap list_fmap process_kevents]. assert (E : process_kevent st e = process_kevent st (kqueue_event n)).
  { unfold process_kevent. by rewrite Hi, Hf, Hu. }
  rewrite E. destruct (process_kevent st (kqueue_event n)); [apply IH|done].
Qed.
End reports.

Lemma reports_list es : Forall (λ e, ∃ n, reports e n) es → ∃ ns, Forall2 reports es ns.
Proof. induction 1 as [|e es [n Hn] _ [ns IH]]; [by exists []|]. exists (n :: ns). by constructor. Qed.

(** ** Properties *)


(** A socket with descriptor 5 is registered for both ends; there is a timeout and an interrupt; the kernel reports
    them. *)
Definition ex_kops : list kop :=
  [KRegister 0x1000 5 true; KRegister 0x1000 5 false; KTimeout 0x2000 (mk_timespec 1 0) (mk_timespec 2 5); KInterrupt;
   KDeliver 5 EVFILT_WRITE; KDeliver 0 EVFILT_USER; KDeliver 5 EVFILT_READ].


(** Registering the two ends of a socket does not depend on the order: with kqueue they do not interfere, as they do with
    epoll (see [register_race] in the file [Socket]). *)
Lemma kqueue_register_commutes kq socket fd :
  0 ≤ fd →
  ∃ kq1 kq2 kq', fev_poller_register kq socket fd EVFILT_READ 0 = Some (0, kq1) ∧ fev_poller_register kq1 socket fd EVFILT_WRITE 0 = Some (0, kq') ∧
    fev_poller_register kq socket fd EVFILT_WRITE 0 = Some (0, kq2) ∧ fev_poller_register kq2 socket fd EVFILT_READ 0 = Some (0, kq').
Proof.
  intros Hf. unfold fev_poller_register, kevent. rewrite (proj2 (Z.leb_le 0 fd)) by lia. simpl. eexists _, _, _. split_and!; [done..|].
  do 2 f_equal. by rewrite insert_insert_ne by done.
Qed.

(** A deadline that is 2^63 ns or more away becomes a negative period, which the kernel refuses: the assertion fails. *)
Lemma far_timeout_fails kq bucket now t :
  ts_valid now → ts_valid t → 2 ^ 63 ≤ ts_ns t - ts_ns now → fev_poller_set_timeout kq bucket now t 0 = None.
Proof.
  intros Hn Ht Hr. unfold fev_poller_set_timeout. destruct (fev_timespec_abs_to_rel_ns now t Hn Ht) as (r & -> & Hv & Hns).
  cbn [mbind option_bind]. rewrite fev_timespec_to_ns_sat by done. cbn [mbind option_bind]. rewrite Hns.
  unfold intptr. rewrite (proj2 (Z.ltb_ge _ (2 ^ 63))) by (unfold UINT64_MAX; lia). unfold kevent. cbn [ident kfilter kflags data fflags udata].
  change (negb (0 =? 0)) with false. change (negb (Z.land _ EV_ADD =? 0)) with true. cbn match.
  change (EVFILT_TIMER =? EVFILT_TIMER) with true. rewrite (proj2 (Z.ltb_lt _ 0)) by (unfold UINT64_MAX; lia). done.
Qed.
