(* ===== verification/Uring.v ===== *)
(** The io_uring back end: the rings of [src/src/fev_poller_io_uring.h], the
    handling of completions in [src/src/fev_poller_io_uring.c] and the requests of
    [src/src/fev_socket_io_uring.c].

    A worker shares two rings with the kernel: it writes submission entries and
    moves the tail of the submission ring, the kernel moves its head; the kernel
    writes completions and moves the tail of the completion ring, the worker moves
    its head. The kernel's side ([kernel_consume], [kernel_post]) follows
    io_uring_enter(2): it reads the entries in order and answers with the number of
    entries it has consumed, or with an error and without consuming any. The
    positions are 32-bit counters that wrap around. An address is a number; the end
    of a socket is aligned, so its lowest bit is free to mark the timeout. *)

From S2P Require Import Prelude Time RunQueue.

Local Open Scope Z_scope.

(** ** The rings *)

Record io_uring_sqe := mk_sqe {
  sqe_opcode : Z;
  sqe_flags : Z;
  sqe_fd : Z;
  sqe_off : Z;
  sqe_addr : Z;
  sqe_len : Z;
  sqe_user_data : Z;
}.

Record io_uring_cqe := mk_cqe {
  cqe_user_data : Z;
  cqe_res : Z;
}.

Record fev_poller_sqring := mk_sqring {
  sr_head : Z;
  sr_tail : Z;
  sr_mask : Z;
  sr_entries : Z;
  sr_array : list Z;
  sr_sqes : list io_uring_sqe;
}.

Record fev_poller_cqring := mk_cqring {
  cr_head : Z;
  cr_tail : Z;
  cr_mask : Z;
  cr_cqes : list io_uring_cqe;
}.

(** The places of [num_sqes] new entries, or [None] for [false]. *)
Definition fev_poller_get_sqes (r : fev_poller_sqring) (num_sqes : nat) : option (list Z) :=
  if sr_entries r <? u32 (u32 (sr_tail r + Z.of_nat num_sqes) - sr_head r) then None
  else Some (map (λ i, Z.land (u32 (sr_tail r + Z.of_nat i)) (sr_mask r)) (seq 0 num_sqes)).

(** [*sqe = …] for the entry at place [i]. *)
Definition set_sqe (r : fev_poller_sqring) (i : Z) (e : io_uring_sqe) : option fev_poller_sqring :=
  sqes ← arr_set (sr_sqes r) i e;
  Some (mk_sqring (sr_head r) (sr_tail r) (sr_mask r) (sr_entries r) (sr_array r) sqes).

Definition fev_poller_make_sqe (r : fev_poller_sqring) (sqe : Z)
    (opcode flags fd off addr len user_data : Z) : option fev_poller_sqring :=
  set_sqe r sqe (mk_sqe opcode flags fd off addr len user_data).

(** The loop of [fev_poller_submit]: the new [array] and [tail]. *)
Fixpoint submit_loop (n : nat) (mask : Z) (array : list Z) (tail : Z) : option (list Z * Z) :=
  match n with
  | O => Some (array, tail)
  | S n =>
    array ← arr_set array (Z.land tail mask) (Z.land tail mask);
    submit_loop n mask array (u32 (tail + 1))
  end.

(** The kernel takes [n] entries. *)
Fixpoint kernel_consume (n : nat) (r : fev_poller_sqring)
    : option (list io_uring_sqe * fev_poller_sqring) :=
  match n with
  | O => Some ([], r)
  | S n =>
    i ← arr_get (sr_array r) (Z.land (sr_head r) (sr_mask r));
    e ← arr_get (sr_sqes r) i;
    '(es, r) ← kernel_consume n (mk_sqring (u32 (sr_head r + 1)) (sr_tail r) (sr_mask r)
                                   (sr_entries r) (sr_array r) (sr_sqes r));
    Some (e :: es, r)
  end.

(** What precedes [io_uring_enter] in [fev_poller_submit]. *)
Definition publish (r : fev_poller_sqring) (num_sqes : nat) : option fev_poller_sqring :=
  '(array, tail) ← submit_loop num_sqes (sr_mask r) (sr_array r) (sr_tail r);
  Some (mk_sqring (sr_head r) tail (sr_mask r) (sr_entries r) array (sr_sqes r)).

(** [answer] is the result of io_uring_enter, the negated error number if it
    fails. The result and the entries the kernel has taken. *)
Definition fev_poller_submit (answer : Z) (r : fev_poller_sqring) (num_sqes : nat)
    : option (Z * list io_uring_sqe * fev_poller_sqring) :=
  r ← publish r num_sqes;
  if answer <? 0 then Some (answer, [], r)
  else '(es, r) ← kernel_consume (Z.to_nat answer) r; Some (answer, es, r).

(** The kernel posts a completion; it keeps it back while the ring is full. *)
Definition kernel_post (r : fev_poller_cqring) (c : io_uring_cqe) : option fev_poller_cqring :=
  if u32 (cr_tail r - cr_head r) =? cr_mask r + 1 then None
  else
    cqes ← arr_set (cr_cqes r) (Z.land (cr_tail r) (cr_mask r)) c;
    Some (mk_cqring (cr_head r) (u32 (cr_tail r + 1)) (cr_mask r) cqes).

(** ** Requests on sockets *)

Record fev_socket_end := mk_end {
  end_fiber : loc;
  num_entries : Z;
  end_res : Z;
}.

Abbreviation ends := (gmap Z fev_socket_end).

(** The addresses of [socket->read_end] and [socket->write_end]. *)
Definition read_end (socket : Z) : Z := socket + 8.
Definition write_end (socket : Z) : Z := socket + 24.

Definition IORING_OP_ACCEPT : Z := 13.
Definition IORING_OP_LINK_TIMEOUT : Z := 15.
Definition IORING_OP_CONNECT : Z := 16.
Definition IORING_OP_READ : Z := 22.
Definition IORING_OP_WRITE : Z := 23.
Definition IOSQE_IO_LINK : Z := 4.

(** The arguments of [fev_socket_submit_and_wait]. *)
Record request := mk_request {
  rq_fd : Z;
  rq_end : Z;
  rq_opcode : Z;
  rq_off : Z;
  rq_addr : Z;
  rq_len : Z;
}.

Definition accept_request (fd socket address address_len : Z) : request :=
  mk_request fd (read_end socket) IORING_OP_ACCEPT address_len address 0.
Definition connect_request (fd socket address address_len : Z) : request :=
  mk_request fd (write_end socket) IORING_OP_CONNECT address_len address 0.
Definition read_request (fd socket buf size : Z) : request :=
  mk_request fd (read_end socket) IORING_OP_READ 0 buf (u32 size).
Definition write_request (fd socket buf size : Z) : request :=
  mk_request fd (write_end socket) IORING_OP_WRITE 0 buf (u32 size).

(** How a call goes on after the submission. *)
Inductive outcome :=
| Returns (ret : Z)
| Blocks            (* [num_run_fibers] is decremented and the fiber switches *)
| Aborts.

Definition abort_or_return (ret : Z) : outcome := if ret <? 0 then Returns ret else Aborts.

(** [end->fiber = cur_fiber; end->num_entries = n]. *)
Definition prepare_end (es : ends) (a : Z) (fiber : loc) (n : Z) : option ends :=
  e ← es !! a; Some (<[a := mk_end fiber n (end_res e)]> es).

(** [fev_socket_submit_and_wait] up to the context switch. *)
Definition fev_socket_submit_and_wait (answer : Z) (r : fev_poller_sqring) (es : ends)
    (cur_fiber : loc) (rq : request)
    : option (outcome * list io_uring_sqe * fev_poller_sqring * ends) :=
  es ← prepare_end es (rq_end rq) cur_fiber 1;
  match fev_poller_get_sqes r 1 with
  | None => Some (Returns (- EBUSY), [], r, es)
  | Some sqes =>
    sqe ← sqes !! 0%nat;
    r ← fev_poller_make_sqe r sqe (rq_opcode rq) 0 (rq_fd rq) (rq_off rq) (rq_addr rq)
          (rq_len rq) (rq_end rq);
    '(ret, taken, r) ← fev_poller_submit answer r 1;
    Some (if ret =? 1 then Blocks else abort_or_return ret, taken, r, es)
  end.

(** [ts] is the address of the relative time on the stack. *)
Definition fev_socket_submit_and_wait_for (answer : Z) (r : fev_poller_sqring) (es : ends)
    (cur_fiber : loc) (rq : request) (ts : Z)
    : option (outcome * list io_uring_sqe * fev_poller_sqring * ends) :=
  es ← prepare_end es (rq_end rq) cur_fiber 2;
  match fev_poller_get_sqes r 2 with
  | None => Some (Returns (- EBUSY), [], r, es)
  | Some sqes =>
    sqe0 ← sqes !! 0%nat;
    sqe1 ← sqes !! 1%nat;
    r ← fev_poller_make_sqe r sqe0 (rq_opcode rq) IOSQE_IO_LINK (rq_fd rq) (rq_off rq)
          (rq_addr rq) (rq_len rq) (rq_end rq);
    r ← fev_poller_make_sqe r sqe1 IORING_OP_LINK_TIMEOUT 0 (-1) 0 ts 1 (Z.lor (rq_end rq) 1);
    '(ret, taken, r) ← fev_poller_submit answer r 2;
    Some (if ret =? 2 then Blocks else abort_or_return ret, taken, r, es)
  end.

(** After the context switch, without and with a timeout. *)
Definition wait_result (timed : bool) (es : ends) (a : Z) : option Z :=
  e ← es !! a;
  FEV_ASSERT (num_entries e =? 0);
  Some (if timed && (end_res e =? - ECANCELED) then - ETIMEDOUT else end_res e).

(** What [fev_socket_accept] makes of the result: its own result and the
    descriptor stored in [new_socket]. *)
Definition accept_result (ret : Z) : Z * option Z :=
  if ret <? 0 then (ret, None) else (0, Some ret).

(** ** Completions *)

(** One completion: the ends, the fiber to wake up, and whether it was the event
    descriptor. *)
Definition handle_cqe (es : ends) (c : io_uring_cqe) : option (ends * option loc * bool) :=
  let user_data := cqe_user_data c in
  if user_data =? 0 then Some (es, None, true)
  else
    let is_timeout := negb (Z.land user_data 1 =? 0) in
    let a := Z.land user_data (2 ^ 64 - 2) in
    e ← es !! a;
    let e := if is_timeout then e else mk_end (end_fiber e) (num_entries e) (cqe_res c) in
    let e := mk_end (end_fiber e) (u32 (num_entries e - 1)) (end_res e) in
    Some (<[a := e]> es, if num_entries e =? 0 then Some (end_fiber e) else None, false).

(** One iteration of [fev_poller_check2], [head] being its local variable: [None]
    when the loop ends. *)
Definition check2_iter (r : fev_poller_cqring) (head : Z) (es : ends)
    : option (option (ends * option loc * bool)) :=
  if head =? cr_tail r then Some None
  else
    c ← arr_get (cr_cqes r) (Z.land head (cr_mask r));
    x ← handle_cqe es c;
    Some (Some x).

(** The whole loop, when the kernel posts nothing meanwhile. *)
Fixpoint check2_loop (fuel : nat) (r : fev_poller_cqring) (head : Z) (es : ends)
    (fibers : list loc) (interrupted : bool) : option (Z * ends * list loc * bool) :=
  match fuel with
  | O => None
  | S fuel =>
    x ← check2_iter r head es;
    match x with
    | None => Some (head, es, fibers, interrupted)
    | Some (es, f, i) =>
      check2_loop fuel r (u32 (head + 1)) es
        (fibers ++ match f with Some f => [f] | None => [] end) (interrupted || i)
    end
  end.

(** The number of fibers is that of the list given to [fev_wake_stq]; every
    completion is read once, so the size of the ring bounds the iterations. *)
Definition fev_poller_check2 (r : fev_poller_cqring) (es : ends) (interrupted : bool)
    : option (fev_poller_cqring * ends * list loc * bool) :=
  '(head, es, fibers, interrupted) ←
    check2_loop (S (Z.to_nat (cr_mask r + 1))) r (cr_head r) es [] interrupted;
  Some (mk_cqring head (cr_tail r) (cr_mask r) (cr_cqes r), es, fibers, interrupted).

(** ** The rings are queues *)

Section rings.
Context (k : Z) (Hk : 1 <= k <= 31).
Let cap : Z := 2 ^ k.

Lemma slot_eq i : Z.land (u32 i) (cap - 1) = i mod cap.
Proof using Hk. exact (land_cap k Hk i). Qed.

Lemma slot_range i : 0 <= i mod cap < cap.
Proof using Hk. exact (mod_cap_range k Hk i). Qed.

(** The cells from position [h] on hold the list [l]. *)
Definition cells {A} (buf : list A) (h : Z) (l : list A) : Prop :=
  ∀ i x, 0 <= i → l !! Z.to_nat i = Some x → arr_get buf ((h + i) mod cap) = Some x.

Lemma cells_snoc {A} (buf : list A) h l x :
  Z.of_nat (length buf) = cap → cells buf h l → Z.of_nat (length l) < cap →
  cells (<[Z.to_nat ((h + Z.of_nat (length l)) mod cap) := x]> buf) h (l ++ [x]).
Proof using Hk.
  intros Hlen Hc Hl i y Hi Hy. pose proof (slot_range (h + Z.of_nat (length l))).
  rewrite arr_get_insert by lia.
  destruct (decide (i = Z.of_nat (length l))) as [->|Hne].
  - rewrite decide_True by done. rewrite Nat2Z.id, list_lookup_middle in Hy by done. by simplify_eq.
  - pose proof (lookup_lt_Some _ _ _ Hy) as Hi'. rewrite length_app in Hi'. simpl in Hi'.
    rewrite decide_False.
    { apply Hc; [done|]. rewrite lookup_app_l in Hy by lia. done. }
    apply not_eq_sym, (mod_cap_ne k Hk); unfold cap in *; lia.
Qed.

Lemma cells_tail {A} (buf : list A) h x l : cells buf h (x :: l) → cells buf (h + 1) l.
Proof using Hk.
  intros Hc i y Hi Hy. replace (h + 1 + i) with (h + (i + 1)) by lia. apply Hc; [lia|].
  replace (Z.to_nat (i + 1)) with (S (Z.to_nat i)) by lia. done.
Qed.

Lemma cells_head {A} (buf : list A) h x l : cells buf h (x :: l) → arr_get buf (h mod cap) = Some x.
Proof using Hk. intros Hc. specialize (Hc 0 x ltac:(lia) eq_refl). by rewrite Z.add_0_r in Hc. Qed.

(** The positions from [h] on, as [array] holds them. *)
Definition places (h : Z) (n : nat) : list Z := map (λ i, (h + Z.of_nat i) mod cap) (seq 0 n).

Lemma places_S h n : places h (S n) = places h n ++ [(h + Z.of_nat n) mod cap].
Proof using Hk. unfold places. by rewrite seq_S, map_app. Qed.

Lemma places_length h n : length (places h n) = n.
Proof using Hk. unfold places. by rewrite length_map, length_seq. Qed.

Lemma places_cons h n : places h (S n) = h mod cap :: places (h + 1) n.
Proof using Hk.
  unfold places. cbn [seq map]. rewrite Z.add_0_r. f_equal. rewrite <- seq_shift, map_map.
  apply map_ext. intros i. f_equal. lia.
Qed.

(** [prep r q new]: the submission ring holds the entries [q], and the entries
    [new] are written in the places after them but not published. *)
Definition prep (r : fev_poller_sqring) (q new : list io_uring_sqe) : Prop :=
  ∃ h, sr_head r = u32 h ∧ sr_tail r = u32 (h + Z.of_nat (length q)) ∧
    sr_mask r = cap - 1 ∧ sr_entries r = cap ∧
    Z.of_nat (length (sr_array r)) = cap ∧ Z.of_nat (length (sr_sqes r)) = cap ∧
    Z.of_nat (length (q ++ new)) <= cap ∧
    cells (sr_sqes r) h (q ++ new) ∧ cells (sr_array r) h (places h (length q)).

Definition sq_repr (r : fev_poller_sqring) (q : list io_uring_sqe) : Prop := prep r q [].

Lemma get_sqes_ok r q n :
  sq_repr r q → Z.of_nat n < 2 ^ 31 →
  ∃ h, sr_head r = u32 h ∧ fev_poller_get_sqes r n =
    if cap <? Z.of_nat (length q) + Z.of_nat n then None
    else Some (places (h + Z.of_nat (length q)) n).
Proof using Hk.
  intros (h & Hh & Ht & Hm & He & _ & _ & Hle & _) Hn. pose proof (cap_range k Hk) as Hc.
  rewrite app_nil_r in Hle. exists h. split; [done|]. unfold fev_poller_get_sqes.
  rewrite Hh, Ht, Hm, He, u32_u32_add, u32_sub, u32_small by (unfold cap in *; lia).
  replace (h + Z.of_nat (length q) + Z.of_nat n - h) with (Z.of_nat (length q) + Z.of_nat n) by lia.
  destruct (cap <? _); [done|]. f_equal. apply map_ext. intros i.
  by rewrite u32_u32_add, slot_eq.
Qed.

Lemma set_sqe_ok r q new e h :
  prep r q new → sr_head r = u32 h → Z.of_nat (length (q ++ new)) < cap →
  ∃ r', set_sqe r ((h + Z.of_nat (length (q ++ new))) mod cap) e = Some r' ∧
    prep r' q (new ++ [e]) ∧ sr_head r' = u32 h.
Proof using Hk.
  intros (h' & Hh & Ht & Hm & He & Ha & Hs & Hle & Hc & Hca) Hh' Hlt.
  assert (∀ x, (h + x) mod cap = (h' + x) mod cap) as Hmod.
  { intros x. rewrite <- !slot_eq. f_equal. rewrite <- (u32_u32_add h), <- (u32_u32_add h').
    congruence. }
  rewrite Hmod. pose proof (slot_range (h' + Z.of_nat (length (q ++ new)))).
  unfold set_sqe. rewrite arr_set_eq by lia. eexists. split; [done|].
  split; [|done]. exists h'. simpl. rewrite length_insert, app_assoc. split_and!; try done.
  - rewrite length_app. simpl. lia.
  - by apply cells_snoc.
Qed.

Lemma submit_loop_ok n h m array :
  Z.of_nat (length array) = cap → Z.of_nat m + Z.of_nat n <= cap → cells array h (places h m) →
  ∃ array', submit_loop n (cap - 1) array (u32 (h + Z.of_nat m)) =
      Some (array', u32 (h + Z.of_nat (m + n))) ∧
    Z.of_nat (length array') = cap ∧ cells array' h (places h (m + n)).
Proof using Hk.
  revert m array. induction n as [|n IH]; intros m array Hlen Hmn Hc; cbn [submit_loop].
  { rewrite Nat.add_0_r. eauto. }
  rewrite slot_eq.
  pose proof (slot_range (h + Z.of_nat m)).
  rewrite arr_set_eq by lia. cbn [mbind option_bind].
  rewrite u32_u32_add. replace (h + Z.of_nat m + 1) with (h + Z.of_nat (S m)) by lia.
  destruct (IH (S m) (<[Z.to_nat ((h + Z.of_nat m) mod cap) := (h + Z.of_nat m) mod cap]> array))
    as (array' & -> & Hl' & Hc').
  - by rewrite length_insert.
  - lia.
  - rewrite places_S. pose proof (cells_snoc array h (places h m) ((h + Z.of_nat m) mod cap)) as Hs.
    rewrite places_length in Hs. apply Hs; [done|done|lia].
  - exists array'. rewrite <- !plus_n_Sm. done.
Qed.

Lemma publish_ok r q new :
  prep r q new → ∃ r', publish r (length new) = Some r' ∧ sq_repr r' (q ++ new).
Proof using Hk.
  intros (h & Hh & Ht & Hm & He & Ha & Hs & Hle & Hc & Hca). unfold publish.
  destruct (submit_loop_ok (length new) h (length q) (sr_array r)) as (array' & E & Hl' & Hc');
    [done|rewrite length_app in Hle; lia|done|].
  rewrite Hm, Ht, E. cbn [mbind option_bind]. eexists. split; [done|]. exists h. simpl.
  rewrite !app_nil_r, !length_app. rewrite length_app in Hle. done.
Qed.

Lemma kernel_consume_ok es q r :
  sq_repr r (es ++ q) → ∃ r', kernel_consume (length es) r = Some (es, r') ∧ sq_repr r' q.
Proof using Hk.
  revert r. induction es as [|e es IH]; intros r Hr; cbn [kernel_consume length].
  { eauto. }
  destruct Hr as (h & Hh & Ht & Hm & He & Ha & Hs & Hle & Hc & Hca).
  rewrite app_nil_r in Hle, Hc. simpl in Hle, Hc, Hca, Ht. rewrite Hh, Hm.
  rewrite slot_eq. rewrite places_cons in Hca.
  rewrite (cells_head _ _ _ _ Hca). cbn [mbind option_bind].
  rewrite (cells_head _ _ _ _ Hc). cbn [mbind option_bind].
  destruct (IH (mk_sqring (u32 (u32 h + 1)) (sr_tail r) (cap - 1) (sr_entries r) (sr_array r) (sr_sqes r)))
    as (r' & -> & Hr').
  { exists (h + 1). simpl. rewrite app_nil_r. split_and!; try done.
    - by rewrite u32_u32_add.
    - rewrite Ht. f_equal. lia.
    - lia.
    - by eapply cells_tail.
    - by eapply cells_tail. }
  cbn [mbind option_bind]. eauto.
Qed.

Lemma submit_ok answer r q new :
  prep r q new → answer <= Z.of_nat (length (q ++ new)) →
  ∃ r', fev_poller_submit answer r (length new) =
      Some (answer, take (Z.to_nat answer) (q ++ new), r') ∧
    sq_repr r' (drop (Z.to_nat answer) (q ++ new)).
Proof using Hk.
  intros Hp Ha. destruct (publish_ok r q new Hp) as (r1 & E & Hr1). unfold fev_poller_submit.
  rewrite E. cbn [mbind option_bind]. destruct (Z.ltb_spec answer 0).
  - replace (Z.to_nat answer) with 0%nat by lia. rewrite drop_0. eauto.
  - rewrite <- (take_drop (Z.to_nat answer) (q ++ new)) in Hr1.
    apply kernel_consume_ok in Hr1 as (r' & E' & Hr'). rewrite length_take, Nat.min_l in E' by lia.
    rewrite E'. cbn [mbind option_bind]. eauto.
Qed.

(** *** Submitting requests *)

Definition op_sqe (rq : request) (flags : Z) : io_uring_sqe :=
  mk_sqe (rq_opcode rq) flags (rq_fd rq) (rq_off rq) (rq_addr rq) (rq_len rq) (rq_end rq).
Definition timeout_sqe (rq : request) (ts : Z) : io_uring_sqe :=
  mk_sqe IORING_OP_LINK_TIMEOUT 0 (-1) 0 ts 1 (Z.lor (rq_end rq) 1).

(** The entries a request needs; [Some ts] for a request with a timeout. *)
Definition request_sqes (rq : request) (t : option Z) : list io_uring_sqe :=
  match t with
  | None => [op_sqe rq 0]
  | Some ts => [op_sqe rq IOSQE_IO_LINK; timeout_sqe rq ts]
  end.

(** Both functions, up to the context switch. *)
Definition submit_request (answer : Z) (r : fev_poller_sqring) (es : ends) (f : loc)
    (rq : request) (t : option Z) : option (outcome * list io_uring_sqe * fev_poller_sqring * ends) :=
  match t with
  | None => fev_socket_submit_and_wait answer r es f rq
  | Some ts => fev_socket_submit_and_wait_for answer r es f rq ts
  end.

Lemma submit_request_ok answer r q es f rq t e0 :
  sq_repr r q → es !! rq_end rq = Some e0 →
  let new := request_sqes rq t in
  let n := Z.of_nat (length new) in
  let es' := <[rq_end rq := mk_end f n (end_res e0)]> es in
  answer <= Z.of_nat (length q) + n →
  if cap <? Z.of_nat (length q) + n
  then submit_request answer r es f rq t = Some (Returns (- EBUSY), [], r, es')
  else ∃ r', submit_request answer r es f rq t =
      Some (if answer =? n then Blocks else abort_or_return answer,
            take (Z.to_nat answer) (q ++ new), r', es') ∧
    sq_repr r' (drop (Z.to_nat answer) (q ++ new)).
Proof using Hk.
  intros Hr He. destruct (get_sqes_ok r q (length (request_sqes rq t)) Hr) as (h & Hh & Hg).
  { destruct t; simpl; lia. }
  destruct t as [ts|]; intros new n es' Ha; unfold n, new in *; cbn [request_sqes length] in *;
    unfold submit_request, fev_socket_submit_and_wait, fev_socket_submit_and_wait_for, prepare_end;
    rewrite He; cbn [mbind option_bind]; rewrite Hg;
    match goal with |- context [cap <? ?x] => destruct (Z.ltb_spec cap x) as [|Hle] end; try done.
  - cbn [places seq map lookup list_lookup mbind option_bind]. unfold fev_poller_make_sqe.
    destruct (set_sqe_ok r q [] (op_sqe rq IOSQE_IO_LINK) h Hr Hh) as (r1 & E1 & Hr1 & Hh1).
    { rewrite app_nil_r. lia. }
    destruct (set_sqe_ok r1 q [op_sqe rq IOSQE_IO_LINK] (timeout_sqe rq ts) h Hr1 Hh1) as (r2 & E2 & Hr2 & _).
    { rewrite length_app. simpl. lia. }
    rewrite app_nil_r in E1. rewrite length_app, Nat2Z.inj_add, Z.add_assoc in E2. rewrite Z.add_0_r.
    unfold op_sqe in E1. rewrite E1. cbn [mbind option_bind]. unfold timeout_sqe in E2.
    simpl length in E2. change (Z.of_nat 1) with 1 in E2 |- *. rewrite E2. cbn [mbind option_bind].
    destruct (submit_ok answer r2 q _ Hr2) as (r' & E & Hr'); [rewrite length_app; simpl; lia|].
    simpl length in E. rewrite E. cbn [mbind option_bind]. eauto.
  - cbn [places seq map lookup list_lookup mbind option_bind]. unfold fev_poller_make_sqe.
    destruct (set_sqe_ok r q [] (op_sqe rq 0) h Hr Hh) as (r1 & E1 & Hr1 & Hh1).
    { rewrite app_nil_r. lia. }
    rewrite app_nil_r in E1. rewrite Z.add_0_r. unfold op_sqe in E1. rewrite E1. cbn [mbind option_bind].
    destruct (submit_ok answer r1 q _ Hr1) as (r' & E & Hr'); [rewrite length_app; simpl; lia|].
    simpl length in E. rewrite E. cbn [mbind option_bind]. eauto.
Qed.

(** *** Completions *)

(** The completion ring holds [done ++ todo]; [head], the local variable of
    [fev_poller_check2], is the position after [done]. *)
Definition cq_repr (r : fev_poller_cqring) (head : Z) (done todo : list io_uring_cqe) : Prop :=
  ∃ h, cr_head r = u32 h ∧ head = u32 (h + Z.of_nat (length done)) ∧
    cr_tail r = u32 (h + Z.of_nat (length (done ++ todo))) ∧ cr_mask r = cap - 1 ∧
    Z.of_nat (length (cr_cqes r)) = cap ∧ Z.of_nat (length (done ++ todo)) <= cap ∧
    cells (cr_cqes r) h (done ++ todo).

Lemma kernel_post_ok r head done todo c :
  cq_repr r head done todo →
  if Z.of_nat (length (done ++ todo)) =? cap then kernel_post r c = None
  else ∃ r', kernel_post r c = Some r' ∧ cq_repr r' head done (todo ++ [c]).
Proof using Hk.
  intros (h & Hh & Hhd & Ht & Hm & Hl & Hle & Hc). pose proof (cap_range k Hk) as Hcap. fold cap in Hcap.
  unfold kernel_post. rewrite Hh, Ht, u32_sub, u32_small, Hm by lia.
  replace (h + Z.of_nat (length (done ++ todo)) - h) with (Z.of_nat (length (done ++ todo))) by lia.
  replace (cap - 1 + 1) with cap by lia.
  destruct (Z.eqb_spec (Z.of_nat (length (done ++ todo))) cap); [done|].
  rewrite slot_eq. pose proof (slot_range (h + Z.of_nat (length (done ++ todo)))).
  rewrite arr_set_eq by lia. cbn [mbind option_bind]. eexists. split; [done|].
  exists h. simpl. rewrite length_insert, u32_u32_add, app_assoc. split_and!; try done.
  - rewrite (length_app _ [c]). f_equal. simpl. lia.
  - rewrite (length_app _ [c]). simpl. lia.
  - apply cells_snoc; [done|done|lia].
Qed.

Lemma check2_iter_ok r head done todo es :
  cq_repr r head done todo →
  match todo with
  | [] => check2_iter r head es = Some None
  | c :: todo => check2_iter r head es = (x ← handle_cqe es c; Some (Some x)) ∧
      cq_repr r (u32 (head + 1)) (done ++ [c]) todo
  end.
Proof using Hk.
  intros (h & Hh & Hhd & Ht & Hm & Hl & Hle & Hc). pose proof (cap_range k Hk) as Hcap. fold cap in Hcap.
  unfold check2_iter. destruct todo as [|c todo].
  - rewrite app_nil_r in Ht. by rewrite Hhd, Ht, Z.eqb_refl.
  - assert ((head =? cr_tail r) = false) as ->.
    { apply Z.eqb_neq. rewrite Hhd, Ht. intros E.
      assert (E2 : u32 (u32 (h + Z.of_nat (length (done ++ c :: todo))) - u32 (h + Z.of_nat (length done))) = 0)
        by (rewrite E, Z.sub_diag; done).
      rewrite length_app in *. simpl length in *. rewrite u32_sub, u32_small in E2; lia. }
    rewrite Hhd, Hm, slot_eq. split.
    + rewrite (Hc (Z.of_nat (length done)) c); [done|lia|]. by rewrite Nat2Z.id, list_lookup_middle.
    + exists h. rewrite <- app_assoc. simpl. split_and!; try done.
      rewrite u32_u32_add, length_app. f_equal. simpl. lia.
Qed.

(** The completions [l], one after the other. *)
Fixpoint handle_all (es : ends) (l : list io_uring_cqe) : option (ends * list loc * bool) :=
  match l with
  | [] => Some (es, [], false)
  | c :: l =>
    '(es, f, i) ← handle_cqe es c;
    '(es, fs, i') ← handle_all es l;
    Some (es, match f with Some f => [f] | None => [] end ++ fs, i || i')
  end.

Lemma check2_loop_ok fuel r head done todo es fs i es' fs' i' :
  (length todo < fuel)%nat → cq_repr r head done todo → handle_all es todo = Some (es', fs', i') →
  ∃ head', check2_loop fuel r head es fs i = Some (head', es', fs ++ fs', i || i') ∧
    cq_repr r head' (done ++ todo) [].
Proof using Hk.
  revert head done todo es fs i fs' i'. induction fuel as [|fuel IH];
    intros head done todo es fs i fs' i' Hf Hr Hall; [lia|].
  pose proof (check2_iter_ok r head done todo es Hr) as Hit. cbn [check2_loop].
  destruct todo as [|c todo].
  - rewrite Hit. simpl in Hall. simplify_eq/=. exists head. rewrite !app_nil_r, orb_false_r. done.
  - destruct Hit as [-> Hr']. cbn [handle_all] in Hall.
    destruct (handle_cqe es c) as [[[es1 f] i1]|]; [|done]. cbn [mbind option_bind] in Hall |- *.
    destruct (handle_all es1 todo) as [[[es2 fs2] i2]|] eqn:E2; [|done]. simplify_eq/=.
    destruct (IH (u32 (head + 1)) (done ++ [c]) todo es1
                (fs ++ match f with Some f => [f] | None => [] end) (i || i1) fs2 i2) as (head' & -> & Hr2);
      [lia|done|done|]. exists head'. by rewrite <- !app_assoc, orb_assoc in *.
Qed.

Lemma check2_ok r l es i es' fs i' :
  cq_repr r (cr_head r) [] l → handle_all es l = Some (es', fs, i') →
  ∃ r', fev_poller_check2 r es i = Some (r', es', fs, i || i') ∧ cq_repr r' (cr_head r') [] [].
Proof using Hk.
  intros Hr Hall. pose proof Hr as (h & Hh & _ & Ht & Hm & Hl & Hle & Hc). unfold fev_poller_check2.
  destruct (check2_loop_ok (S (Z.to_nat (cr_mask r + 1))) r (cr_head r) [] l es [] i es' fs i')
    as (head' & -> & Hr'); [simpl in Hle; lia|done|done|].
  cbn [mbind option_bind]. eexists. split; [done|]. destruct Hr' as (h' & Hh' & Hhd' & Ht' & _).
  simpl in *. exists (h' + Z.of_nat (length l)). simpl. rewrite app_nil_r in Ht'.
  rewrite Z.add_0_r. split_and!; try done. lia.
Qed.
End rings.
