(* ===== verification/UringSocket.v ===== *)
(** Sockets of the io_uring back end: the functions of [src/src/fev_socket_io_uring.c] around the requests of the file
    [Uring].

    The state is the descriptor of each socket, its ends, and the descriptors that are open. What a system call returns
    is an argument, a result or [-errno]. A blocking function is given by the request it submits, with its relative
    time-out, and by what it makes of the result that [wait_result] gives. *)

From S2P Require Import Prelude Time Uring.

Local Open Scope Z_scope.

Record sockets := mk_sockets { fds : gmap Z Z; send : ends; open_fds : gset Z }.

Definition set_fd (s : sockets) (a fd : Z) : sockets := mk_sockets (<[a := fd]> (fds s)) (send s) (open_fds s).

(** All fields zero; [null] stands for [NULL]. *)
Definition fev_socket_init (null : loc) (s : sockets) (a : Z) : sockets :=
  let e := mk_end null 0 0 in
  mk_sockets (<[a := -1]> (fds s)) (<[read_end a := e]> (<[write_end a := e]> (send s))) (open_fds s).

(** [p]: what the allocator returns. *)
Definition fev_socket_create (null : loc) (s : sockets) (p : Z) : Z * sockets :=
  if p =? 0 then (- ENOMEM, s) else (0, fev_socket_init null s p).

Definition fev_socket_destroy (s : sockets) (a : Z) : sockets :=
  mk_sockets (delete a (fds s)) (delete (read_end a) (delete (write_end a) (send s))) (open_fds s).

Definition fev_socket_native_handle (s : sockets) (a : Z) : option Z := fds s !! a.

(** [setsockopt], [bind], [listen]: 0 or [-errno]. *)
Definition pass (ret : Z) : Z := if ret =? 0 then 0 else ret.
Definition fev_socket_set_opt (ret : Z) : Z := pass ret.
Definition fev_socket_bind (ret : Z) : Z := pass ret.
Definition fev_socket_listen (ret : Z) : Z := pass ret.

Definition fev_socket_open (s : sockets) (a fd : Z) : Z * sockets :=
  if fd <? 0 then (fd, s) else (0, mk_sockets (<[a := fd]> (fds s)) (send s) ({[fd]} ∪ open_fds s)).

Definition fev_socket_close (s : sockets) (a ret : Z) : option (Z * sockets) :=
  fd ← fds s !! a;
  if negb (fd =? -1) then
    if ret <? 0 then Some (ret, s) else Some (0, mk_sockets (<[a := -1]> (fds s)) (send s) (open_fds s ∖ {[fd]}))
  else Some (0, s).

(** ** Blocking functions *)

(** What a function asks for. *)
Record call := mk_call { c_request : request; c_timeout : option timespec }.

Definition fev_socket_accept (s : sockets) (a address address_len : Z) : option call :=
  fd ← fds s !! a; Some (mk_call (accept_request fd a address address_len) None).
Definition fev_socket_read (s : sockets) (a buf size : Z) : option call :=
  fd ← fds s !! a; Some (mk_call (read_request fd a buf size) None).
Definition fev_socket_write (s : sockets) (a buf size : Z) : option call :=
  fd ← fds s !! a; Some (mk_call (write_request fd a buf size) None).

Definition fev_socket_try_accept_for (s : sockets) (a address address_len : Z) (rel_time : timespec) : option call :=
  fd ← fds s !! a; Some (mk_call (accept_request fd a address address_len) (Some rel_time)).
Definition fev_socket_try_connect_for (s : sockets) (a address address_len : Z) (rel_time : timespec) : option call :=
  fd ← fds s !! a; Some (mk_call (connect_request fd a address address_len) (Some rel_time)).
Definition fev_socket_try_read_for (s : sockets) (a buffer size : Z) (rel_time : timespec) : option call :=
  fd ← fds s !! a; Some (mk_call (read_request fd a buffer size) (Some rel_time)).
Definition fev_socket_try_write_for (s : sockets) (a buffer size : Z) (rel_time : timespec) : option call :=
  fd ← fds s !! a; Some (mk_call (write_request fd a buffer size) (Some rel_time)).

(** [now]: the clock, which [fev_timespec_abs_to_rel] reads. *)
Definition fev_socket_try_accept_until (now : timespec) s a address address_len (abs_time : timespec) : option call :=
  rel_time ← fev_timespec_abs_to_rel now abs_time; fev_socket_try_accept_for s a address address_len rel_time.
Definition fev_socket_try_connect_until (now : timespec) s a address address_len (abs_time : timespec) : option call :=
  rel_time ← fev_timespec_abs_to_rel now abs_time; fev_socket_try_connect_for s a address address_len rel_time.
Definition fev_socket_try_read_until (now : timespec) s a buffer size (abs_time : timespec) : option call :=
  rel_time ← fev_timespec_abs_to_rel now abs_time; fev_socket_try_read_for s a buffer size rel_time.
Definition fev_socket_try_write_until (now : timespec) s a buffer size (abs_time : timespec) : option call :=
  rel_time ← fev_timespec_abs_to_rel now abs_time; fev_socket_try_write_for s a buffer size rel_time.

(** The submission of a call; [ts] is the address of the relative time on the stack. *)
Definition submit_call (answer : Z) (r : fev_poller_sqring) (s : sockets) (f : loc) (c : call) (ts : Z)
    : option (outcome * list io_uring_sqe * fev_poller_sqring * sockets) :=
  '(o, taken, r, es) ←
    match c_timeout c with
    | None => fev_socket_submit_and_wait answer r (send s) f (c_request c)
    | Some _ => fev_socket_submit_and_wait_for answer r (send s) f (c_request c) ts
    end;
  Some (o, taken, r, mk_sockets (fds s) es (open_fds s)).

(** What a call returns when its fiber goes on; an accept stores the descriptor in [new_socket]. The kernel has opened it. *)
Definition finish_call (s : sockets) (c : call) : option Z :=
  wait_result (match c_timeout c with None => false | Some _ => true end) (send s) (rq_end (c_request c)).

Definition finish_accept (s : sockets) (c : call) (new_socket : Z) : option (Z * sockets) :=
  ret ← finish_call s c;
  Some (match accept_result ret with
        | (r, None) => (r, s)
        | (r, Some fd) => (r, mk_sockets (<[new_socket := fd]> (fds s)) (send s) ({[fd]} ∪ open_fds s))
        end).

(** ** Properties *)

(** The functions with a deadline wait for the time that is left, and not at all when the deadline has passed; they differ from
    the functions with a relative time in nothing else. *)
Theorem uring_deadline now abs_time s a x n :
  ts_valid now → ts_valid abs_time →
  ∃ rel, ts_valid rel ∧ ts_ns rel = Z.max 0 (ts_ns abs_time - ts_ns now) ∧
    fev_socket_try_accept_until now s a x n abs_time = fev_socket_try_accept_for s a x n rel ∧
    fev_socket_try_connect_until now s a x n abs_time = fev_socket_try_connect_for s a x n rel ∧
    fev_socket_try_read_until now s a x n abs_time = fev_socket_try_read_for s a x n rel ∧
    fev_socket_try_write_until now s a x n abs_time = fev_socket_try_write_for s a x n rel.
Proof.
  intros Hn Ha. destruct (fev_timespec_abs_to_rel_ns now abs_time Hn Ha) as (rel & E & Hv & Hns). exists rel.
  unfold fev_socket_try_accept_until, fev_socket_try_connect_until, fev_socket_try_read_until, fev_socket_try_write_until. by rewrite E.
Qed.

(** The life of a descriptor: what [fev_socket_open] or an accept opened, [fev_socket_close] closes, once; a second close does
    nothing. *)
Theorem uring_descriptor_life s a fd :
  0 ≤ fd → fd ∉ open_fds s →
  ∃ s1 s2, fev_socket_open s a fd = (0, s1) ∧ fev_socket_native_handle s1 a = Some fd ∧ open_fds s1 = {[fd]} ∪ open_fds s ∧
    fev_socket_close s1 a 0 = Some (0, s2) ∧ open_fds s2 = open_fds s ∧ fev_socket_close s2 a 0 = Some (0, s2).
Proof.
  intros Hf Hn. unfold fev_socket_open. rewrite (proj2 (Z.ltb_ge fd 0)) by lia. eexists _, (mk_sockets _ _ _). split_and!; [done| |done| | |].
  - apply lookup_insert_eq.
  - unfold fev_socket_close. simpl. rewrite lookup_insert_eq. cbn [mbind option_bind]. rewrite (proj2 (Z.eqb_neq fd (-1))) by lia. done.
  - simpl. set_solver.
  - unfold fev_socket_close. simpl. by rewrite lookup_insert_eq.
Qed.

(** A timed call whose linked time-out fired returns -ETIMEDOUT: the kernel cancels the operation. *)
Lemma uring_timed_out s c e rel :
  c_timeout c = Some rel → send s !! rq_end (c_request c) = Some e → num_entries e = 0 → end_res e = - ECANCELED →
  finish_call s c = Some (- ETIMEDOUT).
Proof. intros Ht He Hn Hr. unfold finish_call, wait_result. rewrite Ht, He. cbn [mbind option_bind]. by rewrite Hn, Hr. Qed.
