(* ===== verification/UringSys.v ===== *)
(** Blocking requests on io_uring as a step system: fibers that call the functions of
    [src/src/fev_socket_io_uring.c] on any of the workers, the kernel, and workers
    in [fev_poller_check2] of [src/src/fev_poller_io_uring.c].

    A request goes through the rings of [Uring]: a fiber submits it on the rings of
    the worker it runs on and blocks; the kernel completes the entries it has taken
    in any order and with any result, once each; the worker reads completions one
    at a time, while the kernel may post more, and makes the fibers whose requests
    are complete runnable at the end. A fiber may continue on another worker.
    Making a fiber runnable that is not blocked is undefined. [us_posted] and
    [us_log] are not part of the code: the kernel's result for the current request
    of an end, and the results of the finished calls. *)

From S2P Require Import Prelude Uring.

Local Open Scope Z_scope.

(** A worker is outside of [fev_poller_check2], or in its loop with the local
    variables [head] and [fibers]. *)
Inductive upc :=
| UIdle
| UCheck (head : Z) (fibers : list loc).

(** [u_taken]: the entries the kernel has taken and not completed. *)
Record uworker := mk_uworker {
  u_sq : fev_poller_sqring;
  u_cq : fev_poller_cqring;
  u_taken : list io_uring_sqe;
  u_pc : upc;
}.

Inductive ufiber :=
| URunning
| UBlocked (a : Z) (timed : bool)
| UReady (a : Z) (timed : bool).

#[export] Instance upc_eq_dec : EqDecision upc.
Proof. solve_decision. Defined.
#[export] Instance ufiber_eq_dec : EqDecision ufiber.
Proof. solve_decision. Defined.

(** A finished call: with a timeout?, the kernel's result, the value returned. *)
Record ucall := mk_ucall { c_timed : bool; c_kernel : option Z; c_ret : Z }.

Record ustate := mk_us {
  us_workers : list uworker;
  us_ends : ends;
  us_fibers : gmap loc ufiber;
  us_aborted : bool;
  us_posted : gmap Z Z;
  us_log : list ucall;
}.

Inductive ulabel :=
| USubmit (w : nat) (f : loc) (rq : request) (t : option Z) (answer : Z)
| UArm (w : nat) (fd addr answer : Z)
| UComplete (w i : nat) (res : Z)
| UCheckStart (w : nat)
| UCheckStep (w : nat)
| UResume (f : loc).

(** ** Steps *)

Definition set_worker (s : ustate) (i : nat) (w : uworker) : ustate :=
  mk_us (<[i := w]> (us_workers s)) (us_ends s) (us_fibers s) (us_aborted s) (us_posted s) (us_log s).
Definition set_fibers (s : ustate) (fs : gmap loc ufiber) : ustate :=
  mk_us (us_workers s) (us_ends s) fs (us_aborted s) (us_posted s) (us_log s).

(** A fiber on worker [i] calls a socket operation. *)
Definition u_submit (s : ustate) (i : nat) (f : loc) (rq : request) (t : option Z) (answer : Z)
    : option ustate :=
  w ← us_workers s !! i;
  '(o, taken, sq, es) ← submit_request answer (u_sq w) (us_ends s) f rq t;
  let w := mk_uworker sq (u_cq w) (u_taken w ++ taken) (u_pc w) in
  Some (mk_us (<[i := w]> (us_workers s)) es
    (match o with Blocks => <[f := UBlocked (rq_end rq) (bool_decide (is_Some t))]> (us_fibers s)
                | _ => us_fibers s end)
    (match o with Aborts => true | _ => us_aborted s end)
    (delete (rq_end rq) (us_posted s)) (us_log s)).

(** [fev_poller_submit_eventfd]. *)
Definition fev_poller_submit_eventfd (s : ustate) (i : nat) (fd addr answer : Z) : option ustate :=
  w ← us_workers s !! i;
  match fev_poller_get_sqes (u_sq w) 1 with
  | None => Some (mk_us (us_workers s) (us_ends s) (us_fibers s) true (us_posted s) (us_log s))
  | Some sqes =>
    sqe ← sqes !! 0%nat;
    sq ← fev_poller_make_sqe (u_sq w) sqe IORING_OP_READ 0 fd 0 addr 8 0;
    '(ret, taken, sq) ← fev_poller_submit answer sq 1;
    Some (mk_us (<[i := mk_uworker sq (u_cq w) (u_taken w ++ taken) (u_pc w)]> (us_workers s))
      (us_ends s) (us_fibers s) (if ret =? 1 then us_aborted s else true) (us_posted s) (us_log s))
  end.

(** The kernel completes the [j]-th entry it has taken from worker [i]. *)
Definition u_complete (s : ustate) (i j : nat) (res : Z) : option ustate :=
  w ← us_workers s !! i;
  e ← u_taken w !! j;
  cq ← kernel_post (u_cq w) (mk_cqe (sqe_user_data e) res);
  let w := mk_uworker (u_sq w) cq (delete j (u_taken w)) (u_pc w) in
  Some (mk_us (<[i := w]> (us_workers s)) (us_ends s) (us_fibers s) (us_aborted s)
    (if Z.even (sqe_user_data e) then <[sqe_user_data e := res]> (us_posted s) else us_posted s)
    (us_log s)).

(** [fev_wake_stq]. *)
Fixpoint wake_fibers (m : gmap loc ufiber) (fs : list loc) : option (gmap loc ufiber) :=
  match fs with
  | [] => Some m
  | f :: fs =>
    match m !! f with
    | Some (UBlocked a timed) => wake_fibers (<[f := UReady a timed]> m) fs
    | _ => None
    end
  end.

Definition u_check_start (s : ustate) (i : nat) : option ustate :=
  w ← us_workers s !! i;
  Some (set_worker s i (mk_uworker (u_sq w) (u_cq w) (u_taken w) (UCheck (cr_head (u_cq w)) []))).

(** An iteration of the loop, or what follows it. *)
Definition u_check_step (s : ustate) (i : nat) : option ustate :=
  w ← us_workers s !! i;
  match u_pc w with
  | UIdle => None
  | UCheck head fs =>
    x ← check2_iter (u_cq w) head (us_ends s);
    match x with
    | Some (es, f, _) =>
      let fs := fs ++ match f with Some f => [f] | None => [] end in
      let w := mk_uworker (u_sq w) (u_cq w) (u_taken w) (UCheck (u32 (head + 1)) fs) in
      Some (mk_us (<[i := w]> (us_workers s)) es (us_fibers s) (us_aborted s) (us_posted s) (us_log s))
    | None =>
      let cq := mk_cqring head (cr_tail (u_cq w)) (cr_mask (u_cq w)) (cr_cqes (u_cq w)) in
      m ← wake_fibers (us_fibers s) fs;
      Some (set_fibers (set_worker s i (mk_uworker (u_sq w) cq (u_taken w) UIdle)) m)
    end
  end.

Definition u_resume (s : ustate) (f : loc) : option ustate :=
  match us_fibers s !! f with
  | Some (UReady a timed) =>
    ret ← wait_result timed (us_ends s) a;
    Some (mk_us (us_workers s) (us_ends s) (<[f := URunning]> (us_fibers s)) (us_aborted s)
      (us_posted s) (mk_ucall timed (us_posted s !! a) ret :: us_log s))
  | _ => None
  end.

Definition u_step (s : ustate) (l : ulabel) : option ustate :=
  match l with
  | USubmit i f rq t answer => u_submit s i f rq t answer
  | UArm i fd addr answer => fev_poller_submit_eventfd s i fd addr answer
  | UComplete i j res => u_complete s i j res
  | UCheckStart i => u_check_start s i
  | UCheckStep i => u_check_step s i
  | UResume f => u_resume s f
  end.

(** ** When a step may be taken *)

(** The address of an end is aligned and not null. *)
Definition good_addr (a : Z) : bool := (0 <? a) && (a <? 2 ^ 64) && Z.even a.

(** The end a fiber waits at. *)
Definition waits_at (u : ufiber) : option Z :=
  match u with URunning => None | UBlocked a _ | UReady a _ => Some a end.

Definition idle (s : ustate) (i : nat) : bool :=
  match us_workers s !! i with Some w => bool_decide (u_pc w = UIdle) | None => false end.
Definition checking (s : ustate) (i : nat) : bool :=
  match us_workers s !! i with Some w => bool_decide (u_pc w ≠ UIdle) | None => false end.

(** The answer of io_uring_enter for [n] entries: it is the number of entries
    consumed, or, if [fail], an error. *)
Definition good_answer (fail : bool) (answer : Z) (n : nat) : bool :=
  (fail || (0 <=? answer)) && (answer <=? Z.of_nat n).

(** At most one fiber at a time uses an end, which exists. [fail] says whether
    io_uring_enter may fail. The kernel completes an entry when there is room. *)
Definition u_enabled (fail : bool) (s : ustate) (l : ulabel) : bool :=
  negb (us_aborted s) &&
  match l with
  | USubmit i f rq t answer =>
      idle s i && bool_decide (us_fibers s !! f = Some URunning) && good_addr (rq_end rq) &&
      bool_decide (is_Some (us_ends s !! rq_end rq)) &&
      bool_decide (map_Forall (λ _ u, waits_at u ≠ Some (rq_end rq)) (us_fibers s)) &&
      good_answer fail answer (length (request_sqes rq t))
  | UArm i _ _ answer => idle s i && good_answer fail answer 1
  | UComplete i j res =>
      match us_workers s !! i with
      | Some w => bool_decide (is_Some (u_taken w !! j)) &&
          negb (u32 (cr_tail (u_cq w) - cr_head (u_cq w)) =? cr_mask (u_cq w) + 1)
      | None => false
      end
  | UCheckStart i => idle s i
  | UCheckStep i => checking s i
  | UResume f =>
      match us_fibers s !! f with Some (UReady _ _) => true | _ => false end
  end.

Definition u_next (fail : bool) (s : ustate) (l : ulabel) : option ustate :=
  if u_enabled fail s l then u_step s l else None.

(** Fresh rings with [n] entries. *)
Definition empty_sq (n : nat) : fev_poller_sqring :=
  mk_sqring 0 0 (Z.of_nat n - 1) (Z.of_nat n) (replicate n 0) (replicate n (mk_sqe 0 0 0 0 0 0 0)).
Definition empty_cq (n : nat) : fev_poller_cqring :=
  mk_cqring 0 0 (Z.of_nat n - 1) (replicate n (mk_cqe 0 0)).

Definition us_init (num_workers sq_entries cq_entries : nat) (es : ends) (fs : gset loc) : ustate :=
  mk_us (replicate num_workers (mk_uworker (empty_sq sq_entries) (empty_cq cq_entries) [] UIdle))
    es (gset_to_gmap URunning fs) false ∅ [].

(** ** Addresses and tags *)

Lemma good_addr_pos a : good_addr a = true → ∃ p, a = Z.pos p~0 ∧ Z.pos p~0 < 2 ^ 64.
Proof.
  unfold good_addr. rewrite !andb_true_iff. intros [[Hp Hl] He]. Zbool.
  destruct a as [|[p|p|]|]; simpl in *; try done; eauto.
Qed.

Lemma good_addr_even a : good_addr a = true → Z.even a = true ∧ 0 < a.
Proof. intros (p & -> & _)%good_addr_pos. split; [done|lia]. Qed.

(** An end and its timeout have different user data, whatever the ends. *)
Lemma tag_ne a b : good_addr a = true → good_addr b = true → a ≠ b + 1.
Proof.
  intros [Ha _]%good_addr_even [Hb _]%good_addr_even ->. rewrite Z.even_add, Hb in Ha. done.
Qed.

Lemma lor_tag a : good_addr a = true → Z.lor a 1 = a + 1.
Proof. by intros (p & -> & _)%good_addr_pos. Qed.

Lemma untag a t :
  good_addr a = true → t = a ∨ t = a + 1 →
  (t =? 0) = false ∧ negb (Z.land t 1 =? 0) = negb (t =? a) ∧ Z.land t (2 ^ 64 - 2) = a.
Proof.
  intros Ha Ht. destruct (good_addr_pos a Ha) as (p & Hp & Hlt).
  assert (Z.land a (2 ^ 64 - 2) = a) as Hm.
  { change (2 ^ 64 - 2) with (Z.shiftl (2 ^ 63 - 1) 1).
    assert (a = Z.shiftl (Z.pos p) 1) as E by (rewrite Hp, Z.shiftl_mul_pow2; lia).
    rewrite E at 1. rewrite <- Z.shiftl_land. change (2 ^ 63 - 1) with (Z.ones 63).
    rewrite Z.land_ones, Z.mod_small by lia. done. }
  destruct Ht as [->| ->].
  - rewrite Z.eqb_refl. split; [subst; done|]. split; [by subst|done].
  - rewrite <- lor_tag by done. split; [by subst|]. split.
    + rewrite lor_tag by done. rewrite (proj2 (Z.eqb_neq (a + 1) a)) by lia. by subst.
    + rewrite Z.land_lor_distr_l, Hm. apply Z.lor_0_r.
Qed.

(** ** Counting *)

Definition cnt (t : Z) (xs : list Z) : nat := length (filter (λ x, x = t) xs).

Lemma cnt_app t xs ys : cnt t (xs ++ ys) = (cnt t xs + cnt t ys)%nat.
Proof. unfold cnt. by rewrite filter_app, length_app. Qed.

Lemma cnt_cons t x xs : cnt t (x :: xs) = ((if decide (x = t) then 1 else 0) + cnt t xs)%nat.
Proof. unfold cnt. rewrite filter_cons. case_decide; done. Qed.

Lemma cnt_perm t xs ys : xs ≡ₚ ys → cnt t xs = cnt t ys.
Proof. intros H. unfold cnt. by rewrite H. Qed.

Lemma cnt_elem t xs : t ∈ xs ↔ (0 < cnt t xs)%nat.
Proof.
  unfold cnt. split.
  - intros H. destruct (filter (λ x, x = t) xs) eqn:E; [|simpl; lia].
    exfalso. assert (t ∈ filter (λ x, x = t) xs) as H' by by apply list_elem_of_filter.
    rewrite E in H'. by apply not_elem_of_nil in H'.
  - intros H. destruct (filter (λ x, x = t) xs) as [|y ys] eqn:E; [simpl in H; lia|].
    assert (y ∈ filter (λ x, x = t) xs) as H' by (rewrite E; apply list_elem_of_here).
    apply list_elem_of_filter in H' as [-> ?]. done.
Qed.

Lemma upd_split {A} (l : list A) i x :
  l !! i = Some x → ∃ rest, l ≡ₚ x :: rest ∧ ∀ y, <[i := y]> l ≡ₚ y :: rest.
Proof.
  intros Hx. exists (take i l ++ drop (S i) l). split.
  - rewrite <- (take_drop_middle l i x Hx) at 1. by rewrite Permutation_middle.
  - intros y. rewrite insert_take_drop by (by eapply lookup_lt_Some). by rewrite Permutation_middle.
Qed.

(** ** The invariant *)

Section inv.
Context (k kc : Z).

(** A worker with the completions it has not read yet. *)
Abbreviation wview := (uworker * list io_uring_cqe)%type.

(** User data of the entries in the hands of the kernel or in the completion ring. *)
Definition wtok (x : wview) : list Z :=
  map sqe_user_data (u_taken x.1) ++ map cqe_user_data x.2.
Definition wwoken (x : wview) : list loc := match u_pc x.1 with UIdle => [] | UCheck _ fs => fs end.

Abbreviation tokens l := (l ≫= wtok).
Abbreviation woken l := (l ≫= wwoken).

Definition wrepr (x : wview) : Prop :=
  sq_repr k (u_sq x.1) [] ∧
  match u_pc x.1 with
  | UIdle => cq_repr kc (u_cq x.1) (cr_head (u_cq x.1)) [] x.2
  | UCheck head _ => ∃ dn, cq_repr kc (u_cq x.1) head dn x.2
  end.

(** A blocked fiber [f] at the end [a]: [num_entries] is the number of its entries that
    are still under way; when there is none, a worker is about to wake [f] up. *)
Definition blocked_ok (E : ends) (P : gmap Z Z) (l : list wview) (f : loc) (a : Z) : Prop :=
  good_addr a = true ∧ ∃ e, E !! a = Some e ∧ end_fiber e = f ∧
    (cnt a (tokens l) <= 1)%nat ∧ (cnt (a + 1) (tokens l) <= 1)%nat ∧
    num_entries e = Z.of_nat (cnt a (tokens l) + cnt (a + 1) (tokens l)) ∧
    (cnt a (tokens l) = 0%nat → P !! a = Some (end_res e)) ∧
    (num_entries e = 0 ↔ f ∈ woken l).

Definition ready_ok (E : ends) (P : gmap Z Z) (a : Z) : Prop :=
  good_addr a = true ∧ ∃ e, E !! a = Some e ∧ num_entries e = 0 ∧ P !! a = Some (end_res e).

Record core (E : ends) (F : gmap loc ufiber) (P : gmap Z Z) (l : list wview) : Prop := {
  co_rings : Forall wrepr l;
  co_tok t : t ∈ tokens l → t = 0 ∨ ∃ f a timed, F !! f = Some (UBlocked a timed) ∧ (t = a ∨ t = a + 1);
  co_blocked f a timed : F !! f = Some (UBlocked a timed) → blocked_ok E P l f a;
  co_ready f a timed : F !! f = Some (UReady a timed) → ready_ok E P a;
  co_woken f : f ∈ woken l → ∃ a timed, F !! f = Some (UBlocked a timed);
  co_nodup : NoDup (woken l);
  co_inj f1 f2 u1 u2 a : F !! f1 = Some u1 → F !! f2 = Some u2 →
    waits_at u1 = Some a → waits_at u2 = Some a → f1 = f2;
  co_posted x c : x ∈ l → c ∈ x.2 → cqe_user_data c ≠ 0 → Z.even (cqe_user_data c) = true →
    P !! cqe_user_data c = Some (cqe_res c);
}.

Lemma core_perm E F P l l' : l ≡ₚ l' → core E F P l → core E F P l'.
Proof.
  intros Hp [C1 C2 C3 C4 C5 C6 C7 C8].
  assert (tokens l ≡ₚ tokens l') as Ht by by rewrite Hp.
  assert (woken l ≡ₚ woken l') as Hw by by rewrite Hp.
  split; try done.
  - by rewrite <- Hp.
  - intros t. rewrite <- Ht. apply C2.
  - intros f a timed Hf. destruct (C3 f a timed Hf) as (? & e & ?). split; [done|]. exists e.
    rewrite <- !(cnt_perm _ _ _ Ht). by rewrite <- Hw.
  - intros f. rewrite <- Hw. apply C5.
  - by rewrite <- Hw.
  - intros x c Hx. rewrite <- Hp in Hx. by apply C8.
Qed.

Lemma tokens_cons (x : wview) l : tokens (x :: l) = wtok x ++ tokens l.
Proof. done. Qed.

Lemma woken_cons (x : wview) l : woken (x :: l) = wwoken x ++ woken l.
Proof. done. Qed.

(** Tokens of an end that no fiber uses. *)
Lemma unused_no_tokens E F P l a :
  core E F P l → good_addr a = true → map_Forall (λ _ u, waits_at u ≠ Some a) F →
  cnt a (tokens l) = 0%nat ∧ cnt (a + 1) (tokens l) = 0%nat.
Proof.
  intros C Ha HF.
  assert (∀ t, t = a ∨ t = a + 1 → cnt t (tokens l) = 0%nat) as Ht; [|split; apply Ht; auto].
  intros t Ht. destruct (cnt t (tokens l)) eqn:E'; [done|]. exfalso.
  assert (t ∈ tokens l) as Hin by (apply cnt_elem; lia).
  destruct (good_addr_even a Ha) as [_ Hpos].
  destruct (co_tok _ _ _ _ C t Hin) as [->|(f & b & timed & Hf & Hb)]; [lia|].
  destruct (co_blocked _ _ _ _ C f b timed Hf) as [Hgb _].
  pose proof (tag_ne a b Ha Hgb). pose proof (tag_ne b a Hgb Ha).
  assert (a = b) as -> by lia. by apply (HF f _ Hf).
Qed.

(** The blocked fiber an entry belongs to. *)
Lemma token_owner E F P l t :
  core E F P l → t ∈ tokens l → t ≠ 0 →
  ∃ f a timed, F !! f = Some (UBlocked a timed) ∧ (t = a ∨ t = a + 1) ∧ good_addr a = true ∧
    blocked_ok E P l f a.
Proof.
  intros C Hin Hne. destruct (co_tok _ _ _ _ C t Hin) as [?|(f & a & timed & Hf & Ht)]; [done|].
  pose proof (co_blocked _ _ _ _ C f a timed Hf) as Hb. exists f, a, timed. split_and!; try done. apply Hb.
Qed.

(** Replacing a worker by one with the same tokens and the same fibers to wake up. *)
Lemma core_same E F P x y l :
  core E F P (x :: l) → wrepr y → wtok y ≡ₚ wtok x → wwoken y = wwoken x → (∀ c, c ∈ y.2 → c ∈ x.2) →
  core E F P (y :: l).
Proof.
  intros [C1 C2 C3 C4 C5 C6 C7 C8] Hy Ht Hw Hc.
  assert (tokens (y :: l) ≡ₚ tokens (x :: l)) as HT by by rewrite !tokens_cons, Ht.
  assert (woken (y :: l) = woken (x :: l)) as HW by by rewrite !woken_cons, Hw.
  split; try done.
  - apply Forall_cons in C1 as [_ C1]. by apply Forall_cons.
  - intros t. rewrite HT. apply C2.
  - intros f a timed Hf. destruct (C3 f a timed Hf) as (? & e & ?). split; [done|]. exists e.
    by rewrite !(cnt_perm _ _ _ HT), HW.
  - intros f. rewrite HW. apply C5.
  - by rewrite HW.
  - intros z c. rewrite elem_of_cons. intros [->|Hz] Hin; [|apply (C8 z); [by apply list_elem_of_further|done]].
    apply (C8 x); [apply list_elem_of_here|by apply Hc].
Qed.

(** *** Submission *)

Lemma request_tokens rq t :
  good_addr (rq_end rq) = true →
  map sqe_user_data (request_sqes rq t) = rq_end rq :: match t with None => [] | Some _ => [rq_end rq + 1] end.
Proof. intros Ha. destruct t; simpl; [|done]. by rewrite lor_tag. Qed.

(** The counts after the entries [ts] of the end [a] have been added. *)
Lemma cnt_new a b ts (l : list Z) :
  good_addr a = true → good_addr b = true → ts = [a] ∨ ts = [a; a + 1] →
  (a ≠ b → cnt b (ts ++ l) = cnt b l ∧ cnt (b + 1) (ts ++ l) = cnt (b + 1) l) ∧
  cnt a (ts ++ l) = S (cnt a l) ∧ cnt (a + 1) (ts ++ l) = (length ts - 1 + cnt (a + 1) l)%nat.
Proof.
  intros Ha Hb Hts. pose proof (tag_ne a b Ha Hb). pose proof (tag_ne b a Hb Ha).
  rewrite !cnt_app. destruct Hts as [->| ->]; rewrite ?cnt_cons; simpl;
    repeat case_decide; repeat split; intros; lia.
Qed.

Lemma core_submit E F P x y l f a ts timed e0 :
  core E F P (x :: l) → F !! f = Some URunning → good_addr a = true →
  map_Forall (λ _ u, waits_at u ≠ Some a) F → E !! a = Some e0 →
  ts = [a] ∨ ts = [a; a + 1] → wrepr y → wtok y ≡ₚ ts ++ wtok x → wwoken y = wwoken x → y.2 = x.2 →
  core (<[a := mk_end f (Z.of_nat (length ts)) (end_res e0)]> E) (<[f := UBlocked a timed]> F)
    (delete a P) (y :: l).
Proof.
  intros C Hf Ha HF He Hts Hy Ht Hw Hc.
  destruct (unused_no_tokens _ _ _ _ _ C Ha HF) as [Z1 Z2]. pose proof C as [C1 C2 C3 C4 C5 C6 C7 C8].
  assert (tokens (y :: l) ≡ₚ ts ++ tokens (x :: l)) as HT by by rewrite !tokens_cons, Ht, app_assoc.
  assert (woken (y :: l) = woken (x :: l)) as HW by by rewrite !woken_cons, Hw.
  assert (Hoth : ∀ g u b, F !! g = Some u → waits_at u = Some b → g ≠ f ∧ b ≠ a).
  { intros g u b Hg Hu. split; [intros ->; by simplify_eq/=|]. intros ->. by apply (HF g u Hg). }
  split.
  - apply Forall_cons in C1 as [_ C1]. by apply Forall_cons.
  - intros t. rewrite HT, elem_of_app. intros [Hin|Hin].
    + right. exists f, a, timed. rewrite lookup_insert_eq. split; [done|].
      destruct Hts as [->| ->]; rewrite ?elem_of_cons in Hin; set_solver.
    + destruct (C2 t Hin) as [?|(g & b & tm & Hg & Hb)]; [by left|]. right. exists g, b, tm.
      rewrite lookup_insert_ne; [done|]. apply not_eq_sym, (Hoth g _ b Hg eq_refl).
  - intros g b tm. rewrite lookup_insert_Some. intros [[<- [= <- <-]]|[Hne Hg]].
    + split; [done|]. eexists. rewrite lookup_insert_eq. split; [done|].
      rewrite !(cnt_perm _ _ _ HT). destruct (cnt_new a a ts (tokens (x :: l)) Ha Ha Hts) as (_ & -> & ->).
      rewrite Z1, Z2, HW. cbn [end_fiber num_entries end_res]. split; [done|].
      assert (f ∉ woken (x :: l)) as Hnw by (intros (? & ? & ?)%C5; congruence).
      destruct Hts as [->| ->]; cbn [length]; split_and!; try lia; (split; [lia|done]).
    + destruct (C3 g b tm Hg) as (Hgb & e & H1 & H2 & H3 & H4 & H5 & H6 & H7).
      destruct (Hoth g _ b Hg eq_refl) as [_ Hba].
      destruct (cnt_new a b ts (tokens (x :: l)) Ha Hgb Hts) as (Hc' & _).
      destruct (Hc' (not_eq_sym Hba)) as [E1 E2].
      split; [done|]. exists e. rewrite !(cnt_perm _ _ _ HT), E1, E2, HW.
      rewrite lookup_insert_ne, lookup_delete_ne by done. done.
  - intros g b tm. rewrite lookup_insert_Some. intros [[<- [=]]|[Hne Hg]].
    destruct (C4 g b tm Hg) as (Hgb & e & ? & ? & ?). split; [done|]. exists e.
    destruct (Hoth g _ b Hg eq_refl) as [_ Hba].
    by rewrite lookup_insert_ne, lookup_delete_ne by done.
  - intros g. rewrite HW. intros (b & tm & Hg)%C5. exists b, tm.
    rewrite lookup_insert_ne; [done|]. apply not_eq_sym, (Hoth g _ b Hg eq_refl).
  - by rewrite HW.
  - intros f1 f2 u1 u2 b. rewrite !lookup_insert_Some.
    intros [[<- <-]|[? H1]] [[<- <-]|[? H2]] W1 W2; simplify_eq/=; try done.
    + by destruct (Hoth f2 u2 _ H2 W2).
    + by destruct (Hoth f1 u1 _ H1 W1).
    + by apply (C7 f1 f2 u1 u2 b).
  - intros z c Hz Hcz Hn0 Hev. assert (∃ z', z' ∈ x :: l ∧ c ∈ z'.2) as (z' & Hz' & Hcz').
    { apply elem_of_cons in Hz as [->|Hz]; [exists x|exists z; by split; [apply list_elem_of_further|]].
      split; [apply list_elem_of_here|]. by rewrite <- Hc. }
    rewrite lookup_delete_ne; [by apply (C8 z')|]. intros Heq.
    assert (a ∈ tokens (x :: l)) as Hin.
    { rewrite Heq. apply list_elem_of_bind. exists z'. split; [|done]. unfold wtok. rewrite elem_of_app. right.
      by apply list_elem_of_fmap_2. }
    apply cnt_elem in Hin. lia.
Qed.

(** *** The event descriptor *)

Lemma core_arm E F P x y l :
  core E F P (x :: l) → wrepr y → wtok y ≡ₚ 0 :: wtok x → wwoken y = wwoken x → y.2 = x.2 →
  core E F P (y :: l).
Proof.
  intros [C1 C2 C3 C4 C5 C6 C7 C8] Hy Ht Hw Hc.
  assert (tokens (y :: l) ≡ₚ 0 :: tokens (x :: l)) as HT by by rewrite !tokens_cons, Ht.
  assert (woken (y :: l) = woken (x :: l)) as HW by by rewrite !woken_cons, Hw.
  assert (∀ t, t ≠ 0 → cnt t (tokens (y :: l)) = cnt t (tokens (x :: l))) as Hcnt.
  { intros t Hn. rewrite (cnt_perm _ _ _ HT), cnt_cons, decide_False by done. done. }
  split; try done.
  - apply Forall_cons in C1 as [_ C1]. by apply Forall_cons.
  - intros t. rewrite HT, elem_of_cons. intros [->|]; [by left|by apply C2].
  - intros f a timed Hf. destruct (C3 f a timed Hf) as (Ha & e & ?). split; [done|]. exists e.
    destruct (good_addr_even a Ha). rewrite !Hcnt by lia. by rewrite HW.
  - intros f. rewrite HW. apply C5.
  - by rewrite HW.
  - intros z c. rewrite elem_of_cons. intros [->|Hz]; [|apply (C8 z); by apply list_elem_of_further].
    rewrite Hc. apply (C8 x), list_elem_of_here.
Qed.

(** *** The kernel completes an entry *)

Lemma core_complete E F P x y l c :
  core E F P (x :: l) → wrepr y → wtok y ≡ₚ wtok x → wwoken y = wwoken x → y.2 = x.2 ++ [c] →
  (cnt (cqe_user_data c) (map cqe_user_data x.2) < cnt (cqe_user_data c) (wtok x))%nat →
  core E F (if Z.even (cqe_user_data c) then <[cqe_user_data c := cqe_res c]> P else P) (y :: l).
Proof.
  intros C Hy Ht Hw Hc Hlt. pose proof C as [C1 C2 C3 C4 C5 C6 C7 C8].
  set (t := cqe_user_data c) in *. set (P' := if Z.even t then _ else P).
  assert (tokens (y :: l) ≡ₚ tokens (x :: l)) as HT by by rewrite !tokens_cons, Ht.
  assert (woken (y :: l) = woken (x :: l)) as HW by by rewrite !woken_cons, Hw.
  assert (Hin : t ∈ tokens (x :: l)).
  { apply cnt_elem. rewrite tokens_cons, cnt_app. lia. }
  assert (HP : ∀ a, a ≠ t → P' !! a = P !! a).
  { intros a Ha. unfold P'. destruct (Z.even t); [|done]. by rewrite lookup_insert_ne. }
  split; try done.
  - apply Forall_cons in C1 as [_ C1]. by apply Forall_cons.
  - intros t'. rewrite HT. apply C2.
  - intros f a timed Hf. destruct (C3 f a timed Hf) as (? & e & H1 & H2 & H3 & H4 & H5 & H6 & H7).
    split; [done|]. exists e. rewrite !(cnt_perm _ _ _ HT), HW. split_and!; try done.
    intros Hz. rewrite HP; [auto|]. intros ->. apply cnt_elem in Hin. lia.
  - intros f a timed Hf. destruct (C4 f a timed Hf) as (Ha & e & ? & ? & ?). split; [done|].
    exists e. rewrite HP; [done|]. intros ->. destruct (good_addr_even t Ha) as [_ Hpos].
    destruct (token_owner _ _ _ _ _ C Hin ltac:(lia)) as (g & b & tm & Hg & Hb & Hgb & _).
    pose proof (tag_ne t b Ha Hgb). assert (b = t) as -> by lia.
    pose proof (C7 _ _ _ _ t Hf Hg eq_refl eq_refl). congruence.
  - intros f. rewrite HW. apply C5.
  - by rewrite HW.
  - intros z c' Hz Hcz Hn0 Hev.
    assert ((c' = c) ∨ ∃ z', z' ∈ x :: l ∧ c' ∈ z'.2) as [->|(z' & Hz' & Hcz')].
    { apply elem_of_cons in Hz as [->|Hz]; [|right; exists z; by split; [apply list_elem_of_further|]].
      rewrite Hc, elem_of_app, list_elem_of_singleton in Hcz. destruct Hcz as [?|?]; [|by left].
      right. exists x. by split; [apply list_elem_of_here|]. }
    { unfold P', t. rewrite Hev. apply lookup_insert_eq. }
    rewrite HP; [by apply (C8 z')|]. intros Heq.
    assert (t ≠ 0) as Ht0 by by rewrite <- Heq.
    destruct (token_owner _ _ _ _ _ C Hin Ht0) as (g & b & tm & Hg & Hb & Hgb & Hbo).
    assert (t = b) as ->.
    { destruct Hb as [?|Hb]; [done|]. rewrite Heq, Hb, Z.even_add in Hev.
      destruct (good_addr_even b Hgb) as [Hbe _]. by rewrite Hbe in Hev. }
    destruct Hbo as (_ & e & _ & _ & Hone & _).
    rewrite tokens_cons, cnt_app in Hone.
    assert (b ∈ map cqe_user_data z'.2) as Hb' by (rewrite <- Heq; by apply list_elem_of_fmap_2).
    apply elem_of_cons in Hz' as [->|Hz'].
    + apply cnt_elem in Hb'. lia.
    + assert (b ∈ tokens l) as Hbl.
      { apply list_elem_of_bind. exists z'. split; [|done]. unfold wtok. rewrite elem_of_app. by right. }
      apply cnt_elem in Hbl. lia.
Qed.

(** *** A worker reads a completion *)

Lemma handle_owned E c a e :
  good_addr a = true → cqe_user_data c = a ∨ cqe_user_data c = a + 1 → E !! a = Some e →
  1 <= num_entries e <= 2 →
  handle_cqe E c =
    Some (<[a := mk_end (end_fiber e) (num_entries e - 1)
                   (if cqe_user_data c =? a then cqe_res c else end_res e)]> E,
          if num_entries e =? 1 then Some (end_fiber e) else None, false).
Proof.
  intros Ha Ht He Hn. unfold handle_cqe. destruct (untag a (cqe_user_data c) Ha Ht) as (-> & -> & ->).
  rewrite He. cbn [mbind option_bind].
  assert (u32 (num_entries e - 1) = num_entries e - 1) as Hu by (apply u32_small; lia).
  assert ((num_entries e - 1 =? 0) = (num_entries e =? 1)) as Hz.
  { destruct (Z.eqb_spec (num_entries e - 1) 0), (Z.eqb_spec (num_entries e) 1); lia. }
  destruct (cqe_user_data c =? a); cbn [negb num_entries end_fiber end_res]; by rewrite Hu, Hz.
Qed.

Lemma core_read_event E F P x y l :
  core E F P (x :: l) → wrepr y → wtok x ≡ₚ 0 :: wtok y → wwoken y = wwoken x →
  (∀ c, c ∈ y.2 → c ∈ x.2) → core E F P (y :: l).
Proof.
  intros [C1 C2 C3 C4 C5 C6 C7 C8] Hy Ht Hw Hc.
  assert (tokens (x :: l) ≡ₚ 0 :: tokens (y :: l)) as HT by by rewrite !tokens_cons, Ht.
  assert (woken (y :: l) = woken (x :: l)) as HW by by rewrite !woken_cons, Hw.
  assert (∀ t, t ≠ 0 → cnt t (tokens (y :: l)) = cnt t (tokens (x :: l))) as Hcnt.
  { intros t Hn. rewrite (cnt_perm _ _ _ HT), cnt_cons, decide_False by done. done. }
  split; try done.
  - apply Forall_cons in C1 as [_ C1]. by apply Forall_cons.
  - intros t Hin. apply C2. rewrite HT. by apply list_elem_of_further.
  - intros f a timed Hf. destruct (C3 f a timed Hf) as (Ha & e & ?). split; [done|]. exists e.
    destruct (good_addr_even a Ha). rewrite !Hcnt by lia. by rewrite HW.
  - intros f. rewrite HW. apply C5.
  - by rewrite HW.
  - intros z c. rewrite elem_of_cons. intros [->|Hz] Hin; [|apply (C8 z); [by apply list_elem_of_further|done]].
    apply (C8 x); [apply list_elem_of_here|by apply Hc].
Qed.

Lemma core_read E F P x l c td :
  core E F P (x :: l) → x.2 = c :: td →
  ∃ E' o i, handle_cqe E c = Some (E', o, i) ∧
    ∀ y, wrepr y → wtok x ≡ₚ cqe_user_data c :: wtok y →
      wwoken y = wwoken x ++ match o with Some f => [f] | None => [] end → y.2 = td →
      core E' F P (y :: l).
Proof.
  intros C Hx. assert (c ∈ x.2) as Hcx by (rewrite Hx; apply list_elem_of_here).
  destruct (decide (cqe_user_data c = 0)) as [H0|H0].
  { exists E, None, true. unfold handle_cqe. rewrite H0. split; [done|].
    intros y Hy Ht Hw Htd. rewrite app_nil_r in Hw. eapply core_read_event; try done.
    intros c' Hc'. rewrite Hx, <- Htd. by apply list_elem_of_further. }
  set (t := cqe_user_data c) in *.
  assert (t ∈ tokens (x :: l)) as Hin.
  { rewrite tokens_cons, elem_of_app. left. unfold wtok. rewrite elem_of_app. right.
    by apply list_elem_of_fmap_2. }
  destruct (token_owner _ _ _ _ _ C Hin H0) as (f & a & timed & Hf & Ht & Ha & _ & e & He & Hef & H1 & H2 & H3 & H4 & H5).
  assert (cnt t (tokens (x :: l)) = 1%nat) as Hone.
  { apply cnt_elem in Hin. destruct Ht as [->| ->]; lia. }
  assert (1 <= num_entries e <= 2) as Hn by (destruct Ht as [->| ->]; lia).
  rewrite (handle_owned E c a e Ha Ht He Hn). eexists _, _, _. split; [done|].
  intros y Hy Htok Hw Htd. pose proof C as [C1 C2 C3 C4 C5 C6 C7 C8].
  assert (tokens (x :: l) ≡ₚ t :: tokens (y :: l)) as HT by by rewrite !tokens_cons, Htok.
  assert (Hcnt : ∀ t', cnt t' (tokens (x :: l)) =
                       ((if decide (t = t') then 1 else 0) + cnt t' (tokens (y :: l)))%nat).
  { intros t'. by rewrite (cnt_perm _ _ _ HT), cnt_cons. }
  set (o := if num_entries e =? 1 then Some (end_fiber e) else None) in *.
  assert (woken (y :: l) ≡ₚ (match o with Some f => [f] | None => [] end) ++ woken (x :: l)) as HW.
  { rewrite !woken_cons, Hw, (Permutation_app_comm (wwoken x)). by rewrite app_assoc. }
  assert (f ∉ woken (x :: l)) as Hfw by (rewrite <- H5; lia).
  assert (Hoth : ∀ g u b, F !! g = Some u → waits_at u = Some b → g ≠ f → b ≠ a).
  { intros g u b Hg Hu Hne ->. apply Hne. by apply (C7 g f u (UBlocked a timed) a). }
  split; try done.
  - apply Forall_cons in C1 as [_ C1]. by apply Forall_cons.
  - intros t' Hin'. apply C2. rewrite HT. by apply list_elem_of_further.
  - intros g b tm Hg. destruct (decide (g = f)) as [->|Hne].
    + assert (b = a) as -> by congruence. split; [done|]. eexists. rewrite lookup_insert_eq.
      split; [done|]. cbn [end_fiber num_entries end_res]. split; [done|].
      pose proof (Hcnt a) as Ea. pose proof (Hcnt (a + 1)) as Ea1.
      pose proof (good_addr_even a Ha) as [Hev _].
      rewrite HW, elem_of_app. unfold o. rewrite Hef.
      split_and!; [lia|lia| | |].
      * destruct Ht as [Ht|Ht]; rewrite Ht in Ea, Ea1;
          repeat case_decide; lia.
      * intros Hz. destruct (Z.eqb_spec (cqe_user_data c) a) as [Hta|Hta].
        -- rewrite <- Hta. apply (C8 x); [apply list_elem_of_here|done|done|]. by rewrite Hta.
        -- apply H4. rewrite Ea, Hz. by rewrite decide_False.
      * destruct (Z.eqb_spec (num_entries e) 1); split; intros; try lia.
        -- left. by apply list_elem_of_singleton.
        -- destruct H as [H|H]; [by apply not_elem_of_nil in H|done].
    + destruct (C3 g b tm Hg) as (Hgb & e' & G1 & G2 & G3 & G4 & G5 & G6 & G7).
      pose proof (Hoth g _ b Hg eq_refl Hne) as Hba.
      pose proof (tag_ne a b Ha Hgb). pose proof (tag_ne b a Hgb Ha).
      pose proof (Hcnt b) as Eb. pose proof (Hcnt (b + 1)) as Eb1.
      rewrite decide_False in Eb by (destruct Ht as [->| ->]; lia).
      rewrite decide_False in Eb1 by (destruct Ht as [->| ->]; lia). rewrite Nat.add_0_l in Eb, Eb1.
      split; [done|]. exists e'. rewrite lookup_insert_ne by done. rewrite <- Eb, <- Eb1, HW, elem_of_app.
      split_and!; try done. rewrite G7. split; [by right|]. intros [Hgo|]; [|done].
      unfold o in Hgo. rewrite Hef in Hgo. destruct (num_entries e =? 1);
        [by apply list_elem_of_singleton in Hgo|by apply not_elem_of_nil in Hgo].
  - intros g b tm Hg. destruct (C4 g b tm Hg) as (Hgb & e' & ?). split; [done|]. exists e'.
    rewrite lookup_insert_ne; [done|]. apply not_eq_sym, (Hoth g _ b Hg eq_refl). congruence.
  - intros g. rewrite HW, elem_of_app. intros [Hgo|]; [|by apply C5].
    unfold o in Hgo. rewrite Hef in Hgo. destruct (num_entries e =? 1);
      [apply list_elem_of_singleton in Hgo as ->; eauto|by apply not_elem_of_nil in Hgo].
  - rewrite HW. unfold o. rewrite Hef. destruct (num_entries e =? 1); [|done]. by apply NoDup_cons.
  - intros z c'. rewrite elem_of_cons. intros [->|Hz] Hin'; [|apply (C8 z); [by apply list_elem_of_further|done]].
    apply (C8 x); [apply list_elem_of_here|]. rewrite Hx, <- Htd. by apply list_elem_of_further.
Qed.

(** *** Waking up fibers, and their return *)

Definition woken_up (u : ufiber) : ufiber :=
  match u with UBlocked a timed => UReady a timed | _ => u end.

Lemma wake_fibers_ok fs m :
  NoDup fs → (∀ f, f ∈ fs → ∃ a timed, m !! f = Some (UBlocked a timed)) →
  ∃ m', wake_fibers m fs = Some m' ∧
    ∀ f, m' !! f = if decide (f ∈ fs) then woken_up <$> m !! f else m !! f.
Proof.
  intros Hnd. revert m. induction Hnd as [|f fs Hf Hnd IH]; intros m Hm; cbn [wake_fibers].
  { exists m. split; [done|]. intros g. rewrite decide_False; [done|apply not_elem_of_nil]. }
  destruct (Hm f (list_elem_of_here _ _)) as (a & timed & E). rewrite E.
  destruct (IH (<[f := UReady a timed]> m)) as (m' & -> & Hm').
  { intros g Hg. rewrite lookup_insert_ne by (by intros ->). apply Hm. by apply list_elem_of_further. }
  exists m'. split; [done|]. intros g. rewrite Hm'. destruct (decide (g = f)) as [->|Hne].
  - rewrite decide_False, lookup_insert_eq by done.
    rewrite decide_True by apply list_elem_of_here. by rewrite E.
  - rewrite lookup_insert_ne by done. destruct (decide (g ∈ fs)).
    + by rewrite decide_True by by apply list_elem_of_further.
    + rewrite decide_False; [done|]. by intros [|]%elem_of_cons.
Qed.

Lemma core_wake E F P x y l :
  core E F P (x :: l) → wrepr y → wtok y = wtok x → wwoken y = [] → y.2 = x.2 →
  ∃ F', wake_fibers F (wwoken x) = Some F' ∧ core E F' P (y :: l).
Proof.
  intros C Hy Ht Hw Hc. pose proof C as [C1 C2 C3 C4 C5 C6 C7 C8].
  assert (tokens (y :: l) = tokens (x :: l)) as HT by by rewrite !tokens_cons, Ht.
  rewrite woken_cons in C6. apply NoDup_app in C6 as (N1 & Hd & N2).
  destruct (wake_fibers_ok (wwoken x) F N1) as (F' & -> & HF).
  { intros f Hf. apply C5. rewrite woken_cons, elem_of_app. by left. }
  assert (HW : woken (y :: l) = woken l) by by rewrite woken_cons, Hw.
  assert (Hb : ∀ f a tm, F' !! f = Some (UBlocked a tm) → F !! f = Some (UBlocked a tm) ∧ f ∉ wwoken x).
  { intros f a tm. rewrite HF. case_decide; [|done]. by destruct (F !! f) as [[]|]. }
  assert (Hblk : ∀ f, f ∈ woken (x :: l) ↔ f ∈ wwoken x ∨ f ∈ woken l)
    by (intros f; by rewrite woken_cons, elem_of_app).
  exists F'. split; [done|]. split.
  - apply Forall_cons in C1 as [_ C1]. by apply Forall_cons.
  - intros t. rewrite HT. intros Hin. destruct (C2 t Hin) as [?|(f & a & tm & Hf & Hta)]; [by left|].
    right. exists f, a, tm. split; [|done]. rewrite HF, decide_False; [done|]. intros Hfx.
    destruct (C3 f a tm Hf) as (_ & e & _ & _ & _ & _ & H5 & _ & H7).
    assert (num_entries e = 0) as Hz by (apply H7, Hblk; by left).
    apply cnt_elem in Hin. destruct Hta as [->| ->]; lia.
  - intros f a tm Hf. destruct (Hb f a tm Hf) as [Hf' Hfx].
    destruct (C3 f a tm Hf') as (Ha & e & H1 & H2 & H3 & H4 & H5 & H6 & H7).
    split; [done|]. exists e. rewrite HT, HW. split_and!; try done. rewrite H7, Hblk. tauto.
  - intros f a tm. rewrite HF. case_decide as Hfx; [|by apply C4].
    destruct (F !! f) as [[|a' tm'|a' tm']|] eqn:Hf; intros [=]; subst a' tm'; [|by eapply C4].
    destruct (C3 f a tm Hf) as (Ha & e & H1 & H2 & H3 & H4 & H5 & H6 & H7).
    assert (num_entries e = 0) as Hz by (apply H7, Hblk; by left).
    split; [done|]. exists e. split_and!; [done|done|]. apply H6. lia.
  - intros f. rewrite HW. intros Hfl. destruct (C5 f) as (a & tm & Hf); [apply Hblk; by right|].
    exists a, tm. rewrite HF, decide_False; [done|]. intros Hfx. by apply (Hd f).
  - by rewrite HW.
  - assert (Hwa : ∀ f u, F' !! f = Some u → ∃ u', F !! f = Some u' ∧ waits_at u' = waits_at u).
    { intros f u. rewrite HF. case_decide; [|by eauto].
      destruct (F !! f) as [u'|]; [|done]. intros [= <-]. exists u'. by destruct u'. }
    intros f1 f2 u1 u2 a H1 H2 W1 W2.
    destruct (Hwa _ _ H1) as (u1' & ? & E1), (Hwa _ _ H2) as (u2' & ? & E2).
    eapply (C7 f1 f2 u1' u2' a); congruence.
  - intros z c. rewrite elem_of_cons. intros [->|Hz]; [|apply (C8 z); by apply list_elem_of_further].
    rewrite Hc. apply (C8 x), list_elem_of_here.
Qed.

Lemma core_resume E F P l f a timed :
  core E F P l → F !! f = Some (UReady a timed) → core E (<[f := URunning]> F) P l.
Proof.
  intros C Hf. pose proof C as [C1 C2 C3 C4 C5 C6 C7 C8].
  assert (Hne : ∀ g b tm, F !! g = Some (UBlocked b tm) → f ≠ g) by (intros g b tm Hg <-; congruence).
  split; try done.
  - intros t Hin. destruct (C2 t Hin) as [?|(g & b & tm & Hg & ?)]; [by left|]. right.
    exists g, b, tm. by rewrite lookup_insert_ne by eauto.
  - intros g b tm. rewrite lookup_insert_Some. intros [[<- [=]]|[_ Hg]]. by eapply C3.
  - intros g b tm. rewrite lookup_insert_Some. intros [[<- [=]]|[_ Hg]]. by eapply C4.
  - intros g (b & tm & Hg)%C5. exists b, tm. by rewrite lookup_insert_ne by eauto.
  - intros f1 f2 u1 u2 b. rewrite !lookup_insert_Some.
    intros [[<- <-]|[_ H1]] [[<- <-]|[_ H2]]; try done. by apply C7.
Qed.
End inv.

(** ** Every step keeps the invariant *)

Definition call_ok (c : ucall) : Prop :=
  ∃ v, c_kernel c = Some v ∧
    c_ret c = if c_timed c && (v =? - ECANCELED) then - ETIMEDOUT else v.

Section steps.
Context (k kc : Z) (Hk : 1 <= k <= 31) (Hkc : 1 <= kc <= 31).

Definition uinv (s : ustate) : Prop :=
  Forall call_ok (us_log s) ∧
  (us_aborted s = true ∨
   ∃ l, us_workers s = l.*1 ∧ core k kc (us_ends s) (us_fibers s) (us_posted s) l).

(** The state seen from worker [i]. *)
Lemma focus E F P l i w :
  core k kc E F P l → l.*1 !! i = Some w →
  ∃ td rest, core k kc E F P ((w, td) :: rest) ∧ wrepr k kc (w, td) ∧
    ∀ w' td' E' F' P', core k kc E' F' P' ((w', td') :: rest) →
      ∃ l', <[i := w']> (l.*1) = l'.*1 ∧ core k kc E' F' P' l'.
Proof.
  intros C Hi. rewrite list_lookup_fmap in Hi. destruct (l !! i) as [[w0 td]|] eqn:Hl; simplify_eq/=.
  destruct (upd_split l i _ Hl) as (rest & Hp & Hu). exists td, rest.
  apply (core_perm k kc _ _ _ _ _ Hp) in C. split; [done|]. split.
  { by pose proof (Forall_inv (co_rings _ _ _ _ _ _ C)). }
  intros w' td' E' F' P' C'. exists (<[i := (w', td')]> l). split; [by rewrite list_fmap_insert|].
  eapply core_perm; [|exact C']. by rewrite Hu.
Qed.

Lemma idle_lookup s i : idle s i = true → ∃ w, us_workers s !! i = Some w ∧ u_pc w = UIdle.
Proof. unfold idle. destruct (us_workers s !! i) as [w|]; [|done]. rewrite bool_decide_eq_true. eauto. Qed.

Lemma submit_step s i f rq t answer :
  uinv s → u_enabled false s (USubmit i f rq t answer) = true →
  ∃ s', u_submit s i f rq t answer = Some s' ∧ uinv s'.
Proof using Hk.
  intros [Hlog Hinv] He. unfold u_enabled in He. unfold good_answer in He.
  rewrite !andb_true_iff, negb_true_iff, !bool_decide_eq_true in He.
  destruct He as [Hab (((((Hidle & Hf) & Ha) & [e0 He0]) & HF) & [Hpos Hans])]. cbn [orb] in Hpos. Zbool.
  destruct Hinv as [?|(l & Hws & C)]; [congruence|].
  destruct (idle_lookup s i Hidle) as (w & Hw & Hpc). unfold u_submit. rewrite Hw. cbn [mbind option_bind].
  rewrite Hws in Hw. destruct (focus _ _ _ _ _ _ C Hw) as (td & rest & C' & [Hsq Hcq] & Hback). simpl in Hsq, Hcq.
  pose proof (submit_request_ok k Hk answer (u_sq w) [] (us_ends s) f rq t e0 Hsq He0) as Hs.
  cbn zeta in Hs. specialize (Hs ltac:(simpl; lia)). rewrite !app_nil_l in Hs.
  assert (Z.of_nat (length (request_sqes rq t)) <= 2) as Hn2 by (destruct t; simpl; lia).
  pose proof (RunQueue.cap_range k Hk) as Hcap.
  rewrite (proj2 (Z.ltb_ge (2 ^ k) (Z.of_nat (length ([] : list io_uring_sqe)) + Z.of_nat (length (request_sqes rq t))))) in Hs
    by (simpl; lia).
  destruct Hs as (r' & -> & Hr'). cbn [mbind option_bind].
  destruct (Z.eqb_spec answer (Z.of_nat (length (request_sqes rq t)))) as [->|Hne].
  - rewrite Nat2Z.id, take_ge, drop_ge in * by lia. eexists. split; [done|]. split; [done|]. right. simpl.
    rewrite Hws. eapply (Hback _ td).
    replace (Z.of_nat (length (request_sqes rq t)))
      with (Z.of_nat (length (map sqe_user_data (request_sqes rq t)))) by by rewrite length_map.
    eapply core_submit; [exact C'|done|done|done|done| | | | |done].
    + rewrite (request_tokens rq t Ha). destruct t; auto.
    + split; simpl; [done|]. by rewrite Hpc in *.
    + unfold wtok. simpl. rewrite map_app, <- app_assoc.
      by rewrite Permutation_app_swap_app.
    + done.
  - unfold abort_or_return. rewrite (proj2 (Z.ltb_ge answer 0)) by lia.
    eexists. split; [done|]. split; [done|]. by left.
Qed.

Lemma arm_step s i fd addr answer :
  uinv s → u_enabled false s (UArm i fd addr answer) = true →
  ∃ s', fev_poller_submit_eventfd s i fd addr answer = Some s' ∧ uinv s'.
Proof using Hk.
  intros [Hlog Hinv] He. unfold u_enabled in He. unfold good_answer in He.
  rewrite !andb_true_iff, negb_true_iff in He.
  destruct He as [Hab (Hidle & [Hpos Hans])]. cbn [orb] in Hpos. Zbool.
  destruct Hinv as [?|(l & Hws & C)]; [congruence|].
  destruct (idle_lookup s i Hidle) as (w & Hw & Hpc). unfold fev_poller_submit_eventfd. rewrite Hw.
  cbn [mbind option_bind]. rewrite Hws in Hw.
  destruct (focus _ _ _ _ _ _ C Hw) as (td & rest & C' & [Hsq Hcq] & Hback). simpl in Hsq, Hcq.
  destruct (get_sqes_ok k Hk (u_sq w) [] 1 Hsq) as (h & Hh & ->); [lia|].
  pose proof (RunQueue.cap_range k Hk) as Hcap.
  rewrite (proj2 (Z.ltb_ge _ _)) by (simpl; lia).
  cbn [places seq map lookup list_lookup mbind option_bind]. unfold fev_poller_make_sqe.
  destruct (set_sqe_ok k Hk (u_sq w) [] [] (mk_sqe IORING_OP_READ 0 fd 0 addr 8 0) h Hsq Hh)
    as (r1 & E1 & Hr1 & _); [simpl; lia|].
  simpl in E1. rewrite !Z.add_0_r in *. rewrite E1. cbn [mbind option_bind].
  destruct (submit_ok k Hk answer r1 [] _ Hr1) as (r' & E & Hr'); [simpl; lia|].
  simpl in E. rewrite E. cbn [mbind option_bind]. eexists. split; [done|]. split; [done|].
  destruct (Z.eqb_spec answer 1) as [->|]; simpl; [|by left]. right. rewrite Hws.
  apply (Hback _ td). eapply core_arm; [exact C'| | |done|done].
  - split; simpl; [done|]. by rewrite Hpc in *.
  - unfold wtok. simpl. rewrite map_app, <- app_assoc. simpl. by rewrite Permutation_middle.
Qed.

Lemma complete_step s i j res :
  uinv s → u_enabled false s (UComplete i j res) = true →
  ∃ s', u_complete s i j res = Some s' ∧ uinv s'.
Proof using Hkc.
  intros [Hlog Hinv] He. unfold u_enabled in He. rewrite andb_true_iff, negb_true_iff in He.
  destruct He as [Hab He]. destruct Hinv as [?|(l & Hws & C)]; [congruence|].
  destruct (us_workers s !! i) as [w|] eqn:Hw; [|done]. unfold u_complete. rewrite Hw. cbn [mbind option_bind].
  rewrite andb_true_iff, bool_decide_eq_true, negb_true_iff in He. destruct He as [[e Hj] Hroom].
  rewrite Hj. cbn [mbind option_bind]. rewrite Hws in Hw.
  destruct (focus _ _ _ _ _ _ C Hw) as (td & rest & C' & [Hsq Hcq] & Hback). simpl in Hsq, Hcq.
  set (c := mk_cqe (sqe_user_data e) res).
  assert (∃ cq', kernel_post (u_cq w) c = Some cq' ∧ cr_head cq' = cr_head (u_cq w) ∧
    match u_pc w with
    | UIdle => cq_repr kc cq' (cr_head (u_cq w)) [] (td ++ [c])
    | UCheck head _ => ∃ dn, cq_repr kc cq' head dn (td ++ [c])
    end) as (cq' & Hpost & Hhead & Hcq').
  { assert (∀ head dn, cq_repr kc (u_cq w) head dn td →
      ∃ cq', kernel_post (u_cq w) c = Some cq' ∧ cr_head cq' = cr_head (u_cq w) ∧
        cq_repr kc cq' head dn (td ++ [c])) as Hgen.
    { intros head dn Hr. pose proof (kernel_post_ok kc Hkc (u_cq w) head dn td c Hr) as Hp.
      unfold kernel_post in *. rewrite Hroom in *. cbn [mbind option_bind] in *.
      destruct (arr_set _ _ c) as [cqes|]; cbn [mbind option_bind] in *.
      - destruct (_ =? 2 ^ kc); [done|]. destruct Hp as (r' & [= <-] & Hr'). eauto.
      - exfalso. destruct Hr as (h & Hh & Hhd & Ht & Hm & Hl & Hle & Hcl).
        destruct (Z.eqb_spec (Z.of_nat (length (dn ++ td))) (2 ^ kc)) as [Heq|]; [|by destruct Hp as (? & ? & _)].
        pose proof (RunQueue.cap_range kc Hkc).
        rewrite Hh, Ht, RunQueue.u32_sub, u32_small, Hm in Hroom by lia. apply Z.eqb_neq in Hroom. lia. }
    destruct (u_pc w) as [|head fs].
    - destruct (Hgen _ _ Hcq) as (cq' & ? & ? & ?). by exists cq'.
    - destruct Hcq as [dn Hcq]. destruct (Hgen _ _ Hcq) as (cq' & ? & ? & ?). exists cq'. eauto. }
  rewrite Hpost. cbn [mbind option_bind]. eexists. split; [done|]. split; [done|]. right. simpl.
  rewrite Hws. eapply (Hback _ (td ++ [c])).
  eapply (core_complete k kc _ _ _ (w, td) _ rest c C').
  - split; simpl; [done|]. destruct (u_pc w); [by rewrite Hhead|done].
  - unfold wtok. simpl. apply delete_Permutation in Hj. rewrite Hj at 2. rewrite map_app. simpl.
    rewrite app_assoc. symmetry. apply Permutation_cons_append.
  - done.
  - done.
  - unfold wtok. simpl. rewrite cnt_app.
    assert (sqe_user_data e ∈ map sqe_user_data (u_taken w)) as Hin
      by (apply list_elem_of_fmap_2; by eapply list_elem_of_lookup_2).
    apply cnt_elem in Hin. lia.
Qed.

Lemma check_start_step s i :
  uinv s → u_enabled false s (UCheckStart i) = true → ∃ s', u_check_start s i = Some s' ∧ uinv s'.
Proof.
  intros [Hlog Hinv] He. unfold u_enabled in He. rewrite andb_true_iff, negb_true_iff in He.
  destruct He as [Hab Hidle]. destruct Hinv as [?|(l & Hws & C)]; [congruence|].
  destruct (idle_lookup s i Hidle) as (w & Hw & Hpc). unfold u_check_start. rewrite Hw. cbn [mbind option_bind].
  rewrite Hws in Hw. destruct (focus _ _ _ _ _ _ C Hw) as (td & rest & C' & [Hsq Hcq] & Hback). simpl in Hsq, Hcq.
  eexists. split; [done|]. split; [done|]. right. simpl. rewrite Hws. eapply (Hback _ td).
  eapply (core_same k kc _ _ _ (w, td)); [exact C'| |done| |done].
  - split; simpl; [done|]. rewrite Hpc in Hcq. eauto.
  - unfold wwoken. simpl. by rewrite Hpc.
Qed.

Lemma check_step s i :
  uinv s → u_enabled false s (UCheckStep i) = true → ∃ s', u_check_step s i = Some s' ∧ uinv s'.
Proof using Hkc.
  intros [Hlog Hinv] He. unfold u_enabled, checking in He. rewrite andb_true_iff, negb_true_iff in He.
  destruct He as [Hab He]. destruct Hinv as [?|(l & Hws & C)]; [congruence|].
  destruct (us_workers s !! i) as [w|] eqn:Hw; [|done]. unfold u_check_step. rewrite Hw. cbn [mbind option_bind].
  rewrite bool_decide_eq_true in He. rewrite Hws in Hw.
  destruct (focus _ _ _ _ _ _ C Hw) as (td & rest & C' & [Hsq Hcq] & Hback). simpl in Hsq, Hcq.
  destruct (u_pc w) as [|head fs] eqn:Hpc; [done|]. destruct Hcq as [dn Hcq].
  pose proof (check2_iter_ok kc Hkc (u_cq w) head dn td (us_ends s) Hcq) as Hit.
  destruct td as [|c td].
  - rewrite Hit. cbn [mbind option_bind].
    destruct (core_wake k kc _ _ _ (w, [])
       (mk_uworker (u_sq w) (mk_cqring head (cr_tail (u_cq w)) (cr_mask (u_cq w)) (cr_cqes (u_cq w)))
          (u_taken w) UIdle, []) rest C') as (F' & HF' & C2); [|done..|].
    + split; simpl; [done|]. destruct Hcq as (h & Hh & Hhd & Ht & Hm & Hl & Hle & Hc).
      exists (h + Z.of_nat (length dn)). rewrite app_nil_r in *. simpl. rewrite !Z.add_0_r.
      split_and!; try done. pose proof (RunQueue.cap_range kc Hkc). lia.
    + unfold wwoken in HF'. simpl in HF'. rewrite Hpc in HF'. rewrite HF'. cbn [mbind option_bind].
      eexists. split; [done|]. split; [done|]. right. simpl. rewrite Hws. by eapply Hback.
  - destruct Hit as [-> Hcq'].
    destruct (core_read k kc _ _ _ (w, c :: td) rest c td C' eq_refl) as (E' & o & b & -> & HC).
    cbn [mbind option_bind]. eexists. split; [done|]. split; [done|]. right. simpl. rewrite Hws.
    eapply (Hback _ td). apply HC.
    + split; simpl; [done|]. eauto.
    + unfold wtok. simpl. by rewrite Permutation_middle.
    + unfold wwoken. simpl. by rewrite Hpc.
    + done.
Qed.

Lemma resume_step s f :
  uinv s → u_enabled false s (UResume f) = true → ∃ s', u_resume s f = Some s' ∧ uinv s'.
Proof.
  intros [Hlog Hinv] He. unfold u_enabled in He. rewrite andb_true_iff, negb_true_iff in He.
  destruct He as [Hab He]. destruct Hinv as [?|(l & Hws & C)]; [congruence|]. unfold u_resume.
  destruct (us_fibers s !! f) as [[| |a timed]|] eqn:Hf; try done.
  destruct (co_ready _ _ _ _ _ _ C f a timed Hf) as (_ & e & He' & Hz & HP).
  unfold wait_result. rewrite He'. cbn [mbind option_bind]. rewrite Hz. cbn [Z.eqb mbind option_bind].
  eexists. split; [done|]. split; simpl.
  - apply Forall_cons. split; [|done]. exists (end_res e). done.
  - right. exists l. split; [done|]. by eapply core_resume.
Qed.

Lemma uinv_step s lb :
  uinv s → u_enabled false s lb = true → ∃ s', u_step s lb = Some s' ∧ uinv s'.
Proof using Hk Hkc.
  destruct lb; eauto using submit_step, arm_step, complete_step, check_start_step, check_step, resume_step.
Qed.

Lemma uinv_reach s0 s : uinv s0 → reach (u_next false) s0 s → uinv s.
Proof using Hk Hkc.
  intros H0. apply (reach_invariant (u_next false) uinv); [done|].
  intros s1 lb s2 Hi Hs. unfold u_next in Hs. destruct (u_enabled false s1 lb) eqn:He; [|done].
  destruct (uinv_step s1 lb Hi He) as (s2' & E & ?). congruence.
Qed.

Lemma empty_wrepr :
  wrepr k kc (mk_uworker (empty_sq (Z.to_nat (2 ^ k))) (empty_cq (Z.to_nat (2 ^ kc))) [] UIdle, []).
Proof using Hk Hkc.
  pose proof (RunQueue.cap_range k Hk). pose proof (RunQueue.cap_range kc Hkc).
  split; simpl; exists 0; simpl; rewrite ?length_replicate, ?Z2Nat.id by lia; split_and!; try done; lia.
Qed.

Lemma uinv_init n es fs : uinv (us_init n (Z.to_nat (2 ^ k)) (Z.to_nat (2 ^ kc)) es fs).
Proof using Hk Hkc.
  split; [done|]. right. simpl.
  set (w := mk_uworker (empty_sq (Z.to_nat (2 ^ k))) (empty_cq (Z.to_nat (2 ^ kc))) [] UIdle).
  exists (replicate n (w, [])). split; [by rewrite fmap_replicate|].
  assert (replicate n (w, ([] : list io_uring_cqe)) ≫= wtok = []) as HT by (clear; induction n; [done|]; cbn; by rewrite IHn).
  assert (replicate n (w, ([] : list io_uring_cqe)) ≫= wwoken = []) as HW by (clear; induction n; [done|]; cbn; by rewrite IHn).
  assert (∀ f u, gset_to_gmap URunning fs !! f = Some u → u = URunning) as HF.
  { intros f u Hu. by apply lookup_gset_to_gmap_Some in Hu as [_ <-]. }
  split.
  - apply Forall_replicate, empty_wrepr.
  - intros t. rewrite HT. by intros ?%not_elem_of_nil.
  - intros f a timed Hf. by apply HF in Hf.
  - intros f a timed Hf. by apply HF in Hf.
  - intros f. rewrite HW. by intros ?%not_elem_of_nil.
  - rewrite HW. constructor.
  - intros f1 f2 u1 u2 a H1 _ W. apply HF in H1 as ->. done.
  - intros x c Hx. apply elem_of_replicate in Hx as [-> _]. by intros ?%not_elem_of_nil.
Qed.
End steps.

(** ** Properties *)

(** An entry of the end [a], the request or its timeout. *)
Definition entry_of (a t : Z) : Prop := t = a ∨ t = a + 1.

(** Somebody has a completion for the fiber [f] that waits at [a] still before him:
    the kernel has not completed an entry, the worker has not read a completion, or it
    is about to make [f] runnable. *)
Definition under_way (kc : Z) (w : uworker) (f : loc) (a : Z) : Prop :=
  (∃ e, e ∈ u_taken w ∧ entry_of a (sqe_user_data e)) ∨
  (∃ head dn td c, cq_repr kc (u_cq w) head dn td ∧ c ∈ td ∧ entry_of a (cqe_user_data c) ∧
     match u_pc w with UIdle => head = cr_head (u_cq w) ∧ dn = [] | UCheck h _ => head = h end) ∨
  (∃ head fs, u_pc w = UCheck head fs ∧ f ∈ fs).

(** C28: as long as io_uring_enter does not fail, requests on sockets are safe in every
    interleaving of fibers, workers and the kernel, for rings of any size and however
    often their counters wrap around: nobody reads or writes outside of a ring, no
    completion refers to an end that is not in use, no fiber is made runnable that is
    not blocked, [num_entries] never underflows, and the assertion after the context
    switch holds. *)
Theorem uring_requests_safe k kc n es fs s lb :
  1 <= k <= 31 → 1 <= kc <= 31 →
  reach (u_next false) (us_init n (Z.to_nat (2 ^ k)) (Z.to_nat (2 ^ kc)) es fs) s →
  u_enabled false s lb = true → is_Some (u_step s lb).
Proof.
  intros Hk Hkc Hr He. pose proof (uinv_reach k kc Hk Hkc _ _ (uinv_init k kc Hk Hkc n es fs) Hr) as Hi.
  destruct (uinv_step k kc Hk Hkc s lb Hi He) as (s' & -> & _). done.
Qed.


(** ** Concrete runs: one worker, rings of four and eight entries, fibers 1 and 2, a socket at
    address 64 *)

Definition ex_ends : ends :=
  {[ read_end 64 := mk_end 1 0 0; write_end 64 := mk_end 1 0 0 ]}.
Definition ex_us : ustate := us_init 1 4 8 ex_ends {[ 1%positive; 2%positive ]}.

(** Fiber 1 reads with a timeout, fiber 2 writes; the read is cancelled, the timeout is
    reported first, and the write returns 100. *)
Definition ex_labels : list ulabel :=
  [USubmit 0 1 (read_request 3 64 4096 100) (Some 8192) 2;
   USubmit 0 2 (write_request 3 64 4096 100) None 1;
   UComplete 0 1 (-62); UComplete 0 1 100; UCheckStart 0; UCheckStep 0; UCheckStep 0;
   UComplete 0 0 (- ECANCELED); UCheckStep 0; UCheckStep 0; UResume 2; UResume 1].

Example ex_uring_run :
  us_log <$> run (u_next false) ex_us ex_labels =
  Some [mk_ucall true (Some (- ECANCELED)) (- ETIMEDOUT); mk_ucall false (Some 100) 100].
Proof. vm_compute. reflexivity. Qed.

(** If io_uring_enter fails, the entry stays in the ring although the call has returned. The
    next request, of fiber 2, submits the old entry instead of its own; its completion makes
    fiber 1 runnable, which is not blocked. *)
Definition ex_stale : list ulabel :=
  [USubmit 0 1 (read_request 3 64 4096 100) None (- EAGAIN);
   USubmit 0 2 (write_request 3 64 4096 100) None 1;
   UComplete 0 0 50; UCheckStart 0; UCheckStep 0].

Lemma uring_failed_submit_stale :
  ∃ s, run (u_next true) ex_us ex_stale = Some s ∧ us_fibers s !! 1%positive = Some URunning ∧
    u_enabled true s (UCheckStep 0) = true ∧ u_step s (UCheckStep 0) = None.
Proof.
  destruct (run (u_next true) ex_us ex_stale) as [s|] eqn:E; [|vm_compute in E; discriminate].
  exists s. split; [done|]. vm_compute in E. injection E as <-. vm_compute. done.
Qed.

(** A length of 4 GiB is truncated to 0, so that the read reports the end of the stream. *)
Example ex_read_truncated : rq_len (read_request 3 64 4096 (2 ^ 32)) = 0.
Proof. reflexivity. Qed.

Lemma uring_requests_safe_witness :
  ∃ s, run (u_next false) ex_us (take 5 ex_labels) = Some s ∧ is_Some (u_step s (UCheckStep 0)).
Proof.
  assert (is_Some (run (u_next false) ex_us (take 5 ex_labels))) as [s Hs] by (vm_compute; eauto).
  exists s. split; [exact Hs|].
  assert (reach (u_next false) ex_us s) as Hr
    by exact (run_reach _ ex_us ex_us _ s (reach_refl _ _) Hs).
  assert (u_enabled false s (UCheckStep 0) = true) as He
    by (vm_compute in Hs; injection Hs as <-; vm_compute; reflexivity).
  exact (uring_requests_safe 2 3 1 ex_ends {[ 1%positive; 2%positive ]} s (UCheckStep 0)
           ltac:(lia) ltac:(lia) Hr He).
Defined.

