(* ===== verification/UringWait.v ===== *)
(** Sleeping and interrupting workers with io_uring: [fev_poller_wait],
    [fev_poller_try_rearming_interrupt] and [fev_poller_interrupt] of
    [src/src/fev_poller_io_uring.c], as a step system.

    One worker and any number of threads that interrupt it. A worker announces itself
    in [poller->waiters] and submits a read of its event descriptor; whoever wants to
    wake a worker up takes it out of [waiters], asks it to announce itself again, and
    writes to the descriptor. [k_reads] is the number of reads in the hands of the
    kernel, [evcqes] the number of their completions in the ring; the interrupting
    threads are counted by the place they have reached. *)

From S2P Require Import Prelude.

Local Open Scope Z_scope.

(** ** Choosing a worker *)

(** The loop of [fev_poller_interrupt] over [poller->waiters]: the worker that is
    interrupted, and the array with its cell cleared. *)
Fixpoint take_waiter (waiters : list bool) : option nat * list bool :=
  match waiters with
  | [] => (None, [])
  | true :: ws => (Some 0%nat, false :: ws)
  | false :: ws => let '(i, ws) := take_waiter ws in (S <$> i, false :: ws)
  end.

Lemma take_waiter_ok ws :
  match take_waiter ws with
  | (None, ws') => ws' = ws ∧ true ∉ ws
  | (Some i, ws') => ws !! i = Some true ∧ ws' = <[i := false]> ws ∧ true ∉ take i ws
  end.
Proof.
  induction ws as [|[] ws IH]; simpl.
  - split; [done|apply not_elem_of_nil].
  - split; [done|]. split; [done|apply not_elem_of_nil].
  - destruct (take_waiter ws) as [[i|] ws']; simpl.
    + destruct IH as (? & -> & H). split; [done|]. split; [done|].
      intros [|]%elem_of_cons; done.
    + destruct IH as [-> H]. split; [done|]. by intros [|]%elem_of_cons.
Qed.

(** ** The worker and its interrupters *)

Inductive wpc :=
| WOut          (* not in [fev_poller_wait] *)
| WCheck        (* before [fev_poller_check2] *)
| WLoad         (* before the load of [rearm_interrupt] *)
| WClear        (* before the store to [rearm_interrupt] *)
| WPublish      (* before the store to [waiters] *)
| WSubmit       (* before [fev_poller_submit_eventfd] *)
| WEnter.       (* in io_uring_enter *)

#[export] Instance wpc_eq_dec : EqDecision wpc.
Proof. solve_decision. Defined.

Record wstate := mk_ws {
  w_pc : wpc;
  rearm_interrupt : bool;
  announced : bool;       (* the worker is in [waiters] *)
  i_store : nat;          (* interrupters before the store to [rearm_interrupt] *)
  i_write : nat;          (* interrupters before the write *)
  event_fd : nat;         (* counter of the event descriptor *)
  k_reads : nat;
  evcqes : nat;
}.

Inductive wlabel :=
| WCall                   (* the worker calls [fev_poller_wait] *)
| WPeek                   (* or [fev_poller_check] *)
| WStep (other : bool)    (* [other]: there are completions of requests *)
| IExchange
| IStore
| IWrite
| KRead.                  (* the kernel completes a read of the descriptor *)

Definition set_wpc (s : wstate) (pc : wpc) : wstate :=
  mk_ws pc (rearm_interrupt s) (announced s) (i_store s) (i_write s) (event_fd s) (k_reads s) (evcqes s).

(** [fev_poller_try_rearming_interrupt] with [fev_poller_submit_eventfd]. *)
Definition fev_poller_try_rearming_interrupt (s : wstate) : option wstate :=
  match w_pc s with
  | WLoad => Some (set_wpc s (if rearm_interrupt s then WClear else WEnter))
  | WClear =>
    Some (mk_ws WPublish false (announced s) (i_store s) (i_write s) (event_fd s) (k_reads s) (evcqes s))
  | WPublish =>
    Some (mk_ws WSubmit (rearm_interrupt s) true (i_store s) (i_write s) (event_fd s) (k_reads s) (evcqes s))
  | WSubmit =>
    Some (mk_ws WEnter (rearm_interrupt s) (announced s) (i_store s) (i_write s) (event_fd s)
            (S (k_reads s)) (evcqes s))
  | _ => None
  end.

(** [fev_poller_wait]; io_uring_enter returns when there is a completion. *)
Definition fev_poller_wait (s : wstate) (other : bool) : option wstate :=
  match w_pc s with
  | WOut => None
  | WCheck =>
    let interrupted := (0 <? evcqes s)%nat in
    let s := mk_ws (w_pc s) (rearm_interrupt s) (announced s) (i_store s) (i_write s)
               (event_fd s) (k_reads s) 0 in
    Some (set_wpc s (if other || interrupted then WOut else WLoad))
  | WEnter => if other || (0 <? evcqes s)%nat then Some (set_wpc s WCheck) else None
  | _ => fev_poller_try_rearming_interrupt s
  end.

(** [fev_poller_check]. *)
Definition fev_poller_check (s : wstate) : option wstate :=
  if decide (w_pc s = WOut) then
    Some (mk_ws WOut (rearm_interrupt s) (announced s) (i_store s) (i_write s) (event_fd s) (k_reads s) 0)
  else None.

(** [fev_poller_interrupt], when it comes to the place of this worker. *)
Definition fev_poller_interrupt (s : wstate) (l : wlabel) : option wstate :=
  match l with
  | IExchange =>
    if announced s then
      Some (mk_ws (w_pc s) (rearm_interrupt s) false (S (i_store s)) (i_write s) (event_fd s)
              (k_reads s) (evcqes s))
    else Some s
  | IStore =>
    match i_store s with
    | O => None
    | S n => Some (mk_ws (w_pc s) true (announced s) n (S (i_write s)) (event_fd s) (k_reads s) (evcqes s))
    end
  | IWrite =>
    match i_write s with
    | O => None
    | S n => Some (mk_ws (w_pc s) (rearm_interrupt s) (announced s) (i_store s) n (S (event_fd s))
                     (k_reads s) (evcqes s))
    end
  | _ => None
  end.

(** The kernel completes a read of the descriptor, which resets its counter. *)
Definition kernel_read (s : wstate) : option wstate :=
  match k_reads s with
  | S n => if (0 <? event_fd s)%nat
           then Some (mk_ws (w_pc s) (rearm_interrupt s) (announced s) (i_store s) (i_write s) 0 n
                        (S (evcqes s)))
           else None
  | O => None
  end.

Definition w_next (s : wstate) (l : wlabel) : option wstate :=
  match l with
  | WCall => if decide (w_pc s = WOut) then Some (set_wpc s WCheck) else None
  | WPeek => fev_poller_check s
  | WStep other => fev_poller_wait s other
  | KRead => kernel_read s
  | _ => fev_poller_interrupt s l
  end.

(** [fev_poller_init_worker]. *)
Definition w_init : wstate := mk_ws WOut true false 0 0 0 0 0.

(** ** The invariant *)

Definition b2n (b : bool) : nat := if b then 1 else 0.

Record sleep_inv (s : wstate) : Prop := {
  (* whose turn it is to move the worker in or out of [waiters] *)
  wi_turn : (b2n (rearm_interrupt s) + b2n (bool_decide (w_pc s = WPublish)) +
             b2n (announced s) + i_store s = 1)%nat;
  wi_clear : w_pc s = WClear → rearm_interrupt s = true;
  (* every interrupt finds a read of the descriptor *)
  wi_reads : (b2n (announced s) + i_store s + i_write s + b2n (0 <? event_fd s)%nat <=
              k_reads s + b2n (bool_decide (w_pc s = WSubmit)))%nat;
  wi_asleep : w_pc s = WSubmit ∨ w_pc s = WEnter →
    (0 < b2n (announced s) + i_store s + i_write s + event_fd s + evcqes s)%nat;
}.

Lemma sleep_inv_init : sleep_inv w_init.
Proof. split; simpl; try done; lia || naive_solver. Qed.

Lemma sleep_inv_step s l s' : sleep_inv s → w_next s l = Some s' → sleep_inv s'.
Proof.
  intros [H1 H2 H3 H4] Hs. destruct s as [pc re an st wr ev rd cq]; simpl in *.
  destruct l as [| |other| | | |]; simpl in Hs.
  - case_decide; simplify_eq/=. split; simpl; try done; by intros [|].
  - unfold fev_poller_check in Hs. case_decide; simplify_eq/=. split; simpl; try done; by intros [|].
  - unfold fev_poller_wait, fev_poller_try_rearming_interrupt in Hs. destruct pc; simpl in *; simplify_eq/=.
    + split; simpl; destruct (other || _); try done; by intros [|].
    + destruct re; split; simpl in *; try done; try lia; by intros [|].
    + specialize (H2 eq_refl). subst re. simpl in *.
      split; simpl; try done; try lia; by intros [|].
    + split; simpl; try done; lia.
    + split; simpl; try done; try lia; intros _; apply H4; by left.
    + destruct (other || _); simplify_eq/=. split; simpl; try done; by intros [|].
  - destruct an; simplify_eq/=; [|done]. split; simpl; try done; try lia.
  - destruct st; simplify_eq/=. split; simpl; try done; destruct re; simpl in *; lia.
  - destruct wr; simplify_eq/=. split; simpl; try done; destruct ev; simpl in *; lia.
  - unfold kernel_read in Hs. destruct rd, ev; simplify_eq/=. split; simpl; try done; lia.
Qed.

(** ** Properties *)

(** The worker will be woken up: an interrupter is about to write to its event
    descriptor, or has written and a read is waiting for it, or the completion is in
    the ring. *)
Definition waking (s : wstate) : Prop :=
  (0 < i_store s)%nat ∨ (0 < i_write s)%nat ∨ (0 < event_fd s ∧ 0 < k_reads s)%nat ∨ (0 < evcqes s)%nat.

(** C31: a worker that sleeps in io_uring_enter can be interrupted: it is either announced
    in [waiters], or somebody has taken it from there and its wake-up is under way. Every
    interrupt that is under way, also when several of them overtake each other or the
    worker announces itself again in between, finds a read of the event descriptor to
    complete. *)
Theorem uring_sleeper_wakes s :
  reach w_next w_init s →
  (w_pc s = WEnter → announced s = true ∨ waking s) ∧
  (w_pc s ≠ WSubmit → (0 < i_store s + i_write s + event_fd s)%nat → (0 < k_reads s)%nat).
Proof.
  intros Hr. pose proof (reach_invariant w_next sleep_inv w_init sleep_inv_init sleep_inv_step s Hr) as [H1 H2 H3 H4].
  split.
  - intros Hpc. specialize (H4 (or_intror Hpc)). rewrite Hpc in H3. simpl in H3.
    unfold waking. destruct (announced s); [by left|right]. simpl in *.
    destruct (event_fd s); simpl in *; lia.
  - intros Hpc Hpos. rewrite bool_decide_false in H3 by done. simpl in H3.
    destruct (event_fd s); simpl in *; lia.
Qed.

Definition ex_sleep : list wlabel :=
  [WCall; WStep false; WStep false; WStep false; WStep false; WStep false; IExchange; IStore].

Lemma uring_sleeper_wakes_witness :
  ∃ s, run w_next w_init ex_sleep = Some s ∧ w_pc s = WEnter ∧ waking s.
Proof.
  assert (run w_next w_init ex_sleep = Some (mk_ws WEnter true false 0 1 0 1 0)) as Hs by reflexivity.
  eexists. split; [exact Hs|]. split; [reflexivity|].
  assert (reach w_next w_init (mk_ws WEnter true false 0 1 0 1 0)) as Hr
    by exact (run_reach _ _ _ _ _ (reach_refl _ _) Hs).
  destruct (proj1 (uring_sleeper_wakes _ Hr) eq_refl) as [E|E]; [discriminate E|exact E].
Defined.

(** An interrupt that comes after the worker has decided to sleep and before it has
    announced itself finds nobody in [waiters] and is lost: the worker falls asleep, and
    nothing is on its way to wake it up. *)
Example uring_interrupt_lost :
  ∃ s, run w_next w_init [WCall; WStep false; IExchange; WStep false; WStep false; WStep false; WStep false]
         = Some s ∧
    w_pc s = WEnter ∧ ¬ waking s ∧ fev_poller_wait s false = None ∧ w_next s KRead = None.
Proof.
  eexists. split; [reflexivity|]. split; [done|]. split; [|done].
  unfold waking. simpl. lia.
Qed.
