(* ===== verification/UringSched.v ===== *)
(** The schedulers on top of the io_uring poller: [fev_sched_work] of the six schedulers,
    [fev_wake_workers_slow] and [fev_sched_wake_all_workers] of [src/src/fev_sched_common.c] with
    [FEV_POLLER_IO_URING].

    What the workers do with fibers, queues and counters is the same as with the other pollers and is taken from
    [Sched]. Every worker has a ring and an event descriptor of its own and sleeps in [fev_poller_wait]; its poller is
    the step system of [UringWait]. Whoever makes fibers runnable interrupts as many workers as are needed, each time
    with a scan over [poller->waiters]. *)

From S2P Require Import Prelude RunQueue SchedIntf SchedBounded SchedLocking SimplePool Sched SchedInv SchedThms UringWait.

Local Open Scope Z_scope.

(** Where a worker is in [fev_poller_interrupt]. *)
Inductive ipc :=
| IOff
| IScan (i : nat)     (* before the exchange on [waiters[i]] *)
| IRearm (v : nat)    (* before the store to [rearm_interrupt] of [v] *)
| IPost (v : nat).    (* before the write to the event descriptor of [v] *)

#[export] Instance ipc_eq_dec : EqDecision ipc.
Proof. solve_decision. Defined.

Inductive ulabel :=
| UWork (w : nat) (act : action)
| UKernel (v : nat).  (* the kernel completes a read of an event descriptor *)

Module IoUring.
Section usched.
Context {Q : Type} `{SQ : SchedQueue Q} (num_workers : nat).
Let N : Z := Z.of_nat num_workers.

Record usched := mk_us { us : sched (Q := Q); pollers : nat → wstate; intr : nat → ipc }.

Definition set_us (u : usched) (s : sched) : usched := mk_us s (pollers u) (intr u).
Definition set_poller_data (u : usched) (v : nat) (x : wstate) : usched := mk_us (us u) (upd (pollers u) v x) (intr u).
Definition set_intr_pc (u : usched) (w : nat) (i : ipc) : usched := mk_us (us u) (pollers u) (upd (intr u) w i).
Definition ugo (u : usched) (w : nat) (p : pc) : usched := set_us u (go (us u) w p).

Definition lift (u : usched) (o : outcome (sched (Q := Q))) : outcome usched :=
  match o with Disabled => Disabled | Fault => Fault | Next s => Next (set_us u s) end.

(** A step of the poller of [v]. *)
Definition poller_step (u : usched) (v : nat) (l : wlabel) : option usched :=
  x ← w_next (pollers u v) l; Some (set_poller_data u v x).

(** ** Interrupting *)

Definition fev_poller_interrupt (u : usched) (w : nat) : outcome usched :=
  match intr u w with
  | IOff => Disabled
  | IScan i =>
      if (i <? num_workers)%nat then
        u' <~ poller_step u i IExchange;
        Next (set_intr_pc u' w (if announced (pollers u i) then IRearm i else IScan (S i)))
      else Next (set_intr_pc u w IOff)
  | IRearm v => u' <~ poller_step u v IStore; Next (set_intr_pc u' w (IPost v))
  | IPost v => u' <~ poller_step u v IWrite; Next (set_intr_pc u' w IOff)
  end.

(** [WakePost n ret]: [n] more interrupts, after the one that is under way. *)
Definition interrupts (u : usched) (w : nat) (n : Z) (ret : pc) : outcome usched :=
  if decide (intr u w = IOff) then
    if n =? 0 then Next (ugo u w ret) else Next (set_intr_pc (ugo u w (WakePost (n - 1) ret)) w (IScan 0))
  else fev_poller_interrupt u w.

Definition fev_wake_workers_slow (u : usched) (w : nat) (p : pc) : outcome usched :=
  match p with
  | WakeSlow n ret => Next (ugo u w (WakePost n ret))
  | WakePost n ret => interrupts u w n ret
  | _ => Disabled
  end.

Definition fev_sched_wake_all_workers (u : usched) (w : nat) (ret : pc) : outcome usched :=
  Next (ugo u w (WakePost N ret)).

(** ** The poller *)

(** The end of [fev_poller_check2]: the fibers whose requests are complete are woken up. *)
Definition wake_completed (u : usched) (w : nat) (fs : list loc) (ret : pc) : outcome usched :=
  match fs with
  | [] => Next (ugo u w ret)
  | _ => if may_wake (us u) fs then lift u (fev_wake_stq (unblock (us u) fs) w fs ret) else Disabled
  end.

Definition fev_poller_check (u : usched) (w : nat) (fs : list loc) (ret : pc) : outcome usched :=
  u' <~ poller_step u w WPeek;
  wake_completed u' w fs ret.

(** [fs] are the fibers whose requests [fev_poller_check2] finds to be complete; [take]: there are completions of
    requests when the worker is in io_uring_enter. Only a fiber that is blocked has requests. *)
Definition fev_poller_wait (u : usched) (w : nat) (take : bool) (fs : list loc) (ret : pc) : outcome usched :=
  match w_pc (pollers u w) with
  | WCheck =>
      u' <~ poller_step u w (WStep (bool_decide (fs ≠ [])));
      if decide (w_pc (pollers u' w) = WOut) then wake_completed u' w fs ret else Next u'
  | WEnter =>
      if take && bool_decide (blocked (us u) = []) then Disabled
      else match poller_step u w (WStep take) with Some u' => Next u' | None => Disabled end
  | _ => u' <~ poller_step u w (WStep false); Next u'
  end.

(** ** [fev_sched_work] *)

Definition steal_work_step (u : usched) (w : nat) (p : pc) (act : action) : outcome usched :=
  match p, act with
  | Global, APoll _ fs => fev_poller_check u w fs Fallback
  | Reload pw old, Tau =>
      if u32 (N - old) <=? num_run_fibers (us u) then Next (ugo u w (if pw then UndoAdd else UndoPoller))
      else u' <~ poller_step u w WCall; Next (ugo u' w PollWait)
  | PollWait, APoll take fs => fev_poller_wait u w take fs PollSub
  | (Global | Reload _ _ | PollWait | PollReset | Quiescent | SemWait | SemSub), _ => Disabled
  | _, _ => lift u (Sched.steal_work_step num_workers (us u) w p act)
  end.

Definition shr_work_step (u : usched) (w : nat) (p : pc) (act : action) : outcome usched :=
  match p, act with
  | CheckPoller, APoll _ fs => fev_poller_check u w fs ShFallback
  | ShAdd, Tau =>
      u' <~ poller_step u w WCall;
      Next (ugo (set_us u' (set_waiting (us u) (u32 (num_waiting (us u) + 1)))) w ShPollWait)
  | ShPollWait, APoll take fs => fev_poller_wait u w take fs ShSub
  | (CheckPoller | ShAdd | ShPollWait | ShXchg | ShPollReset | ShQuiescent | ShSemWait), _ => Disabled
  | _, _ => lift u (Sched.shr_work_step (us u) w p act)
  end.

(** ** The system *)

Definition worker_step (u : usched) (w : nat) (act : action) : outcome usched :=
  let p := pcs (us u) w in
  match p with
  | Fib _ _ | New _ _ _ | Switch _ _ | Post _ | Exit1 _ _ | Exit2 _ => lift u (fiber_step (us u) w p act)
  | WakeAdd _ _ | WakeLoad _ _ =>
      match act with Tau => lift u (fev_wake_up_waiting_workers (us u) w p) | _ => Disabled end
  | WakeSlow _ _ | WakePost _ _ => match act with Tau => fev_wake_workers_slow u w p | _ => Disabled end
  | AllIntr ret => match act with Tau => fev_sched_wake_all_workers u w ret | _ => Disabled end
  | WakeIntr _ _ | Done => Disabled
  | _ => if sq_stealing then steal_work_step u w p act else shr_work_step u w p act
  end.

Definition sched_step (u : usched) (l : ulabel) : outcome usched :=
  match l with
  | UWork w act => if (w <? num_workers)%nat then worker_step u w act else Disabled
  | UKernel v => match poller_step u v KRead with Some u' => Next u' | None => Disabled end
  end.

Definition sched_next (u : usched) (l : ulabel) : option usched :=
  match sched_step u l with Next u' => Some u' | _ => None end.

(** The workers start: [s] is the scheduler with the fibers that were put into its queues. *)
Definition start (s : sched) : usched := mk_us s (λ _, w_init) (λ _, IOff).
End usched.
End IoUring.
Import IoUring (usched, us, pollers, intr).

(** [fev_sched_work] of each scheduler with [FEV_POLLER_IO_URING], with the rest of the system. *)
Definition uring_sched_work_steal_mpmc (k steal_count : Z) (sp : nat) :=
  IoUring.sched_step (SQ := steal_mpmc k steal_count sp).
Definition uring_sched_work_steal_spmc (k steal_count : Z) (sp : nat) :=
  IoUring.sched_step (SQ := steal_spmc k steal_count sp).
Definition uring_sched_work_steal_locking (steal_count : Z) :=
  IoUring.sched_step (SQ := steal_locking steal_count).
Definition uring_sched_work_shr_mpmc (k : Z) (sp num_workers : nat) :=
  IoUring.sched_step (SQ := shr_mpmc k sp num_workers) num_workers.
Definition uring_sched_work_shr_locking := IoUring.sched_step (SQ := shr_locking).
Definition uring_sched_work_shr_simple := IoUring.sched_step (SQ := shr_simple).

(** ** The invariant *)

(** The places of [fev_sched_work] that exist with io_uring. *)
Fixpoint uring_pc (p : pc) : Prop :=
  match p with
  | PollReset | Quiescent | SemWait | SemSub | ShXchg | ShPollReset | ShQuiescent | ShSemWait | WakeIntr _ _ => False
  | WakeAdd _ r | WakeLoad _ r | WakeSlow _ r | WakePost _ r | AllIntr r => uring_pc r
  | _ => True
  end.

(** Is the worker in [fev_poller_wait]? *)
Definition in_wait (p : pc) : bool := match p with PollWait | ShPollWait => true | _ => false end.

Section invariant.
Context {Q : Type} `{SQ : SchedQueue Q} (N : nat) `{SP : !SchedQueueSpec Q N}.
Context (HN : Z.of_nat N < 2 ^ 32).
Implicit Type s : sched (Q := Q).
Implicit Type u : usched (Q := Q).

Record unv (nrf nf nw : Z) (ps : nat → pc) : Prop := {
  u_pc : ∀ w, (w < N)%nat → pc_ok N sq_stealing (ps w) ∧ uring_pc (ps w);
  u_nw : nw = wsum N waiting ps;
  u_leaving : 1 <= wsum N leaving ps → nf = 0;
  u_alert : wsum N leaving ps = 0 → nrf ≠ 0 → 1 <= wsum N (alert N) ps;
}.

Record cinv s : Prop := {
  c_f : finv N s;
  c_n : unv (num_run_fibers s) (num_fibers s) (num_waiting s) (pcs s);
}.
#[local] Hint Resolve c_f : core.

Lemma cinv_pc s w : cinv s → (w < N)%nat → pc_ok N sq_stealing (pcs s w) ∧ uring_pc (pcs s w).
Proof. intros Hi. by apply (u_pc _ _ _ _ (c_n _ Hi)). Qed.

Lemma cinv_facts s w : cinv s → (w < N)%nat → facts N (num_fibers s) (num_run_fibers s) (pcs s) w.
Proof. intros Hi Hw. eapply finv_facts; [by apply c_f| |done]. intros x Hx. by apply cinv_pc. Qed.

(** A step of the worker [w] keeps the invariant and does not enter [fev_poller_wait]. *)
Definition uok s (w : nat) (o : outcome (sched (Q := Q))) : Prop :=
  match o with
  | Disabled => True
  | Fault => False
  | Next s' => cinv s' ∧ ∃ p', pcs s' = upd (pcs s) w p' ∧ in_wait p' = false
  end.

Ltac unpc := let x := fresh "x" in let Hx := fresh "Hx" in
  intros x Hx; unfold upd; case_decide; [subst; simpl;
    repeat match goal with H : _ ∧ _ |- _ => destruct H end;
    try solve [done|split; (done || lia)|split_and!; first [done|lia|by left|by right]]|by auto].

(** [unv] after a step of [w], by arithmetic on the contributions. *)
Ltac unstep Hn F Hpc :=
  destruct Hn as [Hn_pc Hn_nw Hn_lv Hn_al];
  destruct F as [F1 F2 F3 F4 F5 F6 F7 F8 F9 F10 F11 F12];
  split; [unpc|..]; rewrite ?wsum_upd by done; rewrite Hpc in *; simpl in *;
  repeat match goal with
    | Hs : sq_stealing = true, H : sq_stealing = true → _ |- _ => specialize (H Hs)
    | |- context [if ?b then _ else _] => destruct b eqn:? in *
    end;
  try lia.

(** A step that changes neither the queues nor the fibers. *)
Lemma cinv_plain s w p' s' :
  cinv s → (w < N)%nat → pcs s' = upd (pcs s) w p' →
  queues s' = queues s → num_run_fibers s' = num_run_fibers s → num_fibers s' = num_fibers s →
  alive s' = alive s → blocked s' = blocked s →
  held p' = held (pcs s w) → cnt p' = cnt (pcs s w) → p' ≠ Steal →
  (facts N (num_fibers s) (num_run_fibers s) (pcs s) w →
   unv (num_run_fibers s) (num_fibers s) (num_waiting s) (pcs s) →
   unv (num_run_fibers s) (num_fibers s) (num_waiting s') (upd (pcs s) w p')) →
  cinv s'.
Proof.
  intros Hi Hw E1 E2 E3 E4 E5 E6 Hh Hc Hst Hn. pose proof (cinv_facts s w Hi Hw) as F. destruct Hi as [[Hq Hd Hf Hb] Hn0].
  split; [split|]; rewrite ?E1, ?E2, ?E3, ?E4, ?E5, ?E6; try done; [by apply qinv_same|by apply Hn].
Qed.

(** A step that leaves the counters of the workers alone, and the queues or the fibers change. *)
Lemma cinv_queue s w p' s' :
  cinv s → (w < N)%nat → pcs s' = upd (pcs s) w p' →
  num_fibers s' = num_fibers s → num_waiting s' = num_waiting s → alive s' = alive s →
  qinv N (queues s') (num_run_fibers s') (alive s) (blocked s') (upd (pcs s) w p') →
  (facts N (num_fibers s) (num_run_fibers s) (pcs s) w →
   unv (num_run_fibers s) (num_fibers s) (num_waiting s) (pcs s) →
   unv (num_run_fibers s') (num_fibers s) (num_waiting s) (upd (pcs s) w p')) →
  cinv s'.
Proof.
  intros Hi Hw E1 E2 E3 E4 Hq Hn. pose proof (cinv_facts s w Hi Hw) as F. destruct Hi as [[Hq0 Hd Hf Hb] Hn0].
  split; [split|]; rewrite ?E1, ?E2, ?E3, ?E4; try done. by apply Hn.
Qed.

Ltac plain0 := eapply cinv_plain; [done|done|reflexivity|reflexivity|reflexivity|reflexivity|reflexivity|reflexivity| | | |];
  match goal with Hpc : pcs _ _ = _ |- _ => rewrite ?Hpc end;
  [try done|try done|try done|let F := fresh "F" in let Hn := fresh "Hn" in
   simpl; intros F Hn; match goal with Hpc : pcs _ _ = _ |- _ => unstep Hn F Hpc end].
Ltac plain := split; [plain0|eexists; split; [reflexivity|try done]].
Ltac queue Hi Hw Hpc := split;
  [eapply cinv_queue; [exact Hi|exact Hw|reflexivity|reflexivity|reflexivity|reflexivity| |];
   [simpl|let F := fresh "F" in let Hn := fresh "Hn" in simpl; intros F Hn; unstep Hn F Hpc]
  |eexists; split; [reflexivity|try done]].

(** Where the wake-up functions return to. *)
Lemma uret_facts r : ret_ok sq_stealing r → uring_pc r →
  pending r = 0 ∧ alert N r = 1 ∧ leaving r = 0 ∧ r ≠ Steal ∧ pc_ok N sq_stealing r ∧ in_wait r = false.
Proof. destruct r; simpl; intros; repeat split; done. Qed.

Lemma steal_counters_uok s w p : cinv s → (w < N)%nat → sq_stealing = true → pcs s w = p →
  match p with
  | LoadRun | LoadWaiting _ | LoadFibers | Xchg | Add _ | UndoPoller | UndoAdd | PollSub =>
      uok s w (Sched.steal_work_step N s w p Tau)
  | _ => True
  end.
Proof using HN.
  intros Hi Hw Hst Hpc. pose proof (cinv_pc s w Hi Hw) as [Hok _].
  pose proof (u_nw _ _ _ _ (c_n _ Hi)) as Hnw. pose proof (cinv_facts s w Hi Hw) as [G1 G2 _ _ _ _ _ _ _ _ _ _].
  assert (0 <= num_run_fibers s) by (destruct (fv_q _ _ (c_f _ Hi)) as (? & _ & _ & -> & _); apply u32_range).
  rewrite Hpc in *. destruct p; try done; simpl in *.
  - plain.
  - destruct (Z.leb_spec (u32 (Z.of_nat N - num_waiting s)) r); [plain|]. destruct (Z.eqb_spec r 0); plain.
  - destruct (Z.eqb_spec (num_fibers s) 0); plain.
  - plain.
  - rewrite u32_small by lia. destruct (Z.eqb_spec (num_waiting s) (Z.of_nat N - 1)); plain.
  - plain.
  - rewrite u32_small by lia. plain.
  - rewrite u32_small by lia. plain.
Qed.

Lemma shr_counters_uok s w p : cinv s → (w < N)%nat → sq_stealing = false → pcs s w = p →
  match p with
  | Backoff | ShLoadRun | ShStore _ | ShFibers | ShSub => uok s w (Sched.shr_work_step s w p Tau)
  | _ => True
  end.
Proof using HN.
  intros Hi Hw Hst Hpc. pose proof (cinv_pc s w Hi Hw) as [Hok _].
  pose proof (u_nw _ _ _ _ (c_n _ Hi)) as Hnw. pose proof (cinv_facts s w Hi Hw) as [G1 G2 _ _ _ _ _ _ _ _ _ _].
  assert (0 <= num_run_fibers s) by (destruct (fv_q _ _ (c_f _ Hi)) as (? & _ & _ & -> & _); apply u32_range).
  rewrite Hpc in *. destruct p; try done; simpl in *.
  - destruct (poller_backoff s =? 1); plain.
  - plain.
  - destruct Hok as [_ Hr]. destruct (Z.ltb_spec 0 r); plain.
  - destruct (Z.eqb_spec (num_fibers s) 0); plain.
  - rewrite u32_small by lia. plain.
Qed.

Lemma pop_uok s w p b p0 :
  cinv s → (w < N)%nat → pcs s w = p →
  p0 = (if sq_stealing then Global else CheckPoller) →
  (p = Local b ∧ sq_stealing = true ∨ p = Get ∧ sq_stealing = false) →
  uok s w (r <~ sq_pop w (queues s); Next (go (set_queues s r.2) w (match r.1 with Some f => Fib f b | None => p0 end))).
Proof using HN.
  intros Hi Hw Hpc -> Hp.
  destruct (pop_qinv N s w (if sq_stealing then Global else CheckPoller)
    (λ r, match r with Some f => Fib f b | None => if sq_stealing then Global else CheckPoller end)) as (r & q' & E & Hq);
    [auto|done|by rewrite Hpc; destruct Hp as [[-> _]|[-> _]]|by rewrite Hpc; destruct Hp as [[-> _]|[-> _]]|done|done|by destruct sq_stealing..|].
  rewrite E. simpl.
  destruct Hp as [[-> Hst]|[-> Hst]]; rewrite Hst in *; destruct r as [f|]; queue Hi Hw Hpc; done.
Qed.

Lemma move_uok s w p p' :
  cinv s → (w < N)%nat → pcs s w = p →
  (p = Fallback ∧ p' = Size ∧ sq_stealing = true ∨ p = ShFallback ∧ p' = ShLoadRun ∧ sq_stealing = false) →
  uok s w (q <~ sq_move w (queues s); Next (go (set_queues s q) w p')).
Proof using HN.
  intros Hi Hw Hpc Hp.
  destruct (move_qinv N s w p') as (q' & E & Hq); [auto|done|..].
  1-3: rewrite ?Hpc; by destruct Hp as [(-> & -> & _)|(-> & -> & _)].
  rewrite E. simpl. destruct Hp as [(-> & -> & Hs)|(-> & -> & Hs)]; queue Hi Hw Hpc; done.
Qed.

Lemma steal_queue_uok s w p : cinv s → (w < N)%nat → sq_stealing = true → pcs s w = p →
  match p with
  | Size | Steal | PollSize => uok s w (Sched.steal_work_step N s w p Tau)
  | _ => True
  end.
Proof using HN.
  intros Hi Hw Hst Hpc. destruct p; try done; simpl.
  - destruct (size_qinv N s w) as (n & E & Hq); [auto|done..|]. rewrite E. simpl. destruct (0 <? n); queue Hi Hw Hpc; done.
  - destruct (steal_qinv N s w) as (n & q' & E & Hq); [auto|done..|]. rewrite E. simpl. destruct (0 <? n); queue Hi Hw Hpc; done.
  - destruct (fv_q _ _ (c_f _ Hi)) as (a0 & Hr0 & _). rewrite (sq_size_ok w _ _ Hw Hr0 Hst). simpl. plain.
Qed.

(** *** Wake-ups *)

(** Every worker that wakes fibers up knows where it continues. *)
Definition uwake_from (p ret : pc) : Prop :=
  match p with
  | Fib _ _ | Post _ => ret = p
  | Global => ret = Fallback | PollWait => ret = PollSub
  | CheckPoller => ret = ShFallback | ShPollWait => ret = ShSub
  | _ => False
  end.

Lemma uwake_from_facts p ret : pc_ok N sq_stealing p → uwake_from p ret →
  ret_ok sq_stealing ret ∧ uring_pc ret ∧ held ret = held p ∧ cnt ret = cnt p ∧ p ≠ Steal.
Proof using Type*. destruct p; simpl; intros H1 H2; try done; subst; done. Qed.

Lemma wake_unv s w p ret n :
  cinv s → (w < N)%nat → pcs s w = p → uwake_from p ret → 1 <= n →
  unv (num_run_fibers s) (num_fibers s) (num_waiting s) (upd (pcs s) w (WakeAdd n ret)).
Proof using HN.
  intros Hi Hw Hpc Hwf Hn0. pose proof (cinv_facts s w Hi Hw) as F. pose proof (c_n _ Hi) as Hn.
  pose proof (cinv_pc s w Hi Hw) as [Hok _]. rewrite Hpc in Hok.
  destruct (uwake_from_facts p ret Hok Hwf) as (Hr & Hu & _).
  destruct p; try done; simpl in Hwf; subst ret; unstep Hn F Hpc.
Qed.

Lemma wake_one_uok s w p g :
  cinv s → (w < N)%nat → pcs s w = p → uwake_from p p → may_wake s [g] = true →
  uok s w (fev_wake_one (unblock s [g]) w g p).
Proof using HN.
  intros Hi Hw Hpc Hwf Hm. destruct (may_wake_perm N s [g] (held p) (c_f _ Hi) Hm) as [_ Hp].
  pose proof (cinv_pc s w Hi Hw) as [Hok _]. rewrite Hpc in Hok.
  destruct (uwake_from_facts p p Hok Hwf) as (_ & _ & _ & _ & Hst).
  destruct (push_one_ok N s w g (filter (λ f, f ∉ [g]) (blocked s)) p) as (q' & E & Hq); rewrite ?Hpc; auto.
  unfold fev_wake_one. simpl. rewrite E. simpl. split; [|by eexists].
  eapply cinv_queue; [exact Hi|exact Hw|reflexivity..|exact Hq|]. intros _ _. simpl. by eapply wake_unv.
Qed.

Lemma wake_stq_uok s w p fs ret :
  cinv s → (w < N)%nat → pcs s w = p → uwake_from p ret → may_wake s fs = true →
  uok s w (fev_wake_stq (unblock s fs) w fs ret).
Proof using HN.
  intros Hi Hw Hpc Hwf Hm. destruct (may_wake_perm N s fs (held p) (c_f _ Hi) Hm) as [Hne Hp].
  pose proof (cinv_pc s w Hi Hw) as [Hok _]. rewrite Hpc in Hok.
  destruct (uwake_from_facts p ret Hok Hwf) as (_ & _ & Hh & Hc & Hst).
  destruct (push_stq_ok N s w fs (filter (λ f, f ∉ fs) (blocked s)) ret) as (q' & E & Hq); rewrite ?Hpc, ?Hh; auto.
  unfold fev_wake_stq. simpl. rewrite E. simpl. split; [|by eexists].
  eapply cinv_queue; [exact Hi|exact Hw|reflexivity..|exact Hq|]. intros _ _. simpl. eapply wake_unv; try done.
  destruct fs; [done|simpl; lia].
Qed.

Lemma wake_up_uok s w p : cinv s → (w < N)%nat → pcs s w = p →
  match p with
  | WakeAdd _ _ | WakeLoad _ _ => uok s w (fev_wake_up_waiting_workers s w p)
  | _ => True
  end.
Proof using HN.
  intros Hi Hw Hpc. pose proof (cinv_pc s w Hi Hw) as [Hok Hu]. rewrite Hpc in Hok, Hu.
  destruct p as [| | | | | |n r|n r|n r|n r|n r|r| | | | | | | | | | | | | | | | | | | | | | | | | | | | | | | | | | |]; try done;
    destruct Hok as [Hn0 Hret]; simpl in Hu; destruct (uret_facts r Hret Hu) as (R1 & R2 & R3 & R4 & R5 & R6); simpl.
  - queue Hi Hw Hpc. apply qinv_count; [done|apply (fv_q _ _ (c_f _ Hi))|by rewrite Hpc|rewrite Hpc; simpl; lia|done].
  - pose proof (u_nw _ _ _ _ (c_n _ Hi)) as Hnw. pose proof (f_waiting0 _ _ _ _ _ (cinv_facts s w Hi Hw)).
    destruct (Z.eqb_spec (num_waiting s) 0); [plain|]. destruct (Z.ltb_spec (num_waiting s) n); plain.
Qed.

(** The steps of [fev_wake_workers_slow] and [fev_sched_wake_all_workers]. *)
Lemma wake_slow_uok s w p : cinv s → (w < N)%nat → pcs s w = p →
  match p with
  | WakeSlow n r => uok s w (Next (go s w (WakePost n r)))
  | WakePost n r => uok s w (Next (go s w (if n =? 0 then r else WakePost (n - 1) r)))
  | AllIntr r => uok s w (Next (go s w (WakePost (Z.of_nat N) r)))
  | _ => True
  end.
Proof using HN.
  intros Hi Hw Hpc. pose proof (cinv_pc s w Hi Hw) as [Hok Hu]. rewrite Hpc in Hok, Hu.
  destruct p as [| | | | | |n r|n r|n r|n r|n r|r| | | | | | | | | | | | | | | | | | | | | | | | | | | | | | | | | | |]; try done; simpl in Hok, Hu; simpl.
  - destruct Hok as [Hn0 Hret]. destruct (uret_facts r Hret Hu) as (R1 & R2 & R3 & R4 & R5 & R6). plain.
  - destruct Hok as [Hn0 [Hret| ->]].
    + destruct (uret_facts r Hret Hu) as (R1 & R2 & R3 & R4 & R5 & R6). destruct (Z.eqb_spec n 0); plain.
    + destruct (Z.eqb_spec n 0); plain.
  - destruct Hok as [Hret| ->].
    + destruct (uret_facts r Hret Hu) as (R1 & R2 & R3 & R4 & R5 & R6). plain.
    + plain.
Qed.

(** *** Fibers *)

Lemma block_uok s w f b : cinv s → (w < N)%nat → pcs s w = Fib f b → uok s w (fiber_step s w (Fib f b) ABlock).
Proof using HN.
  intros Hi Hw Hpc. simpl. queue Hi Hw Hpc. change (num_run_fibers s - 1) with (num_run_fibers s + -1).
  apply qinv_count; [done|apply (fv_q _ _ (c_f _ Hi))|by rewrite Hpc|rewrite Hpc; simpl; lia|done].
Qed.

Lemma after_switch_ufacts b :
  held (after_switch b) = [] ∧ cnt (after_switch b) = 0 ∧ after_switch b ≠ Steal ∧
  pc_ok N sq_stealing (after_switch b) ∧ waiting (after_switch b) = 0 ∧ leaving (after_switch b) = 0 ∧
  alert N (after_switch b) = 1 ∧ uring_pc (after_switch b) ∧ in_wait (after_switch b) = false.
Proof using Type*.
  unfold after_switch. destruct sq_stealing eqn:E; [destruct (b =? 0)|]; simpl; rewrite ?E; done.
Qed.

Lemma exit2_uok s w b : cinv s → (w < N)%nat → pcs s w = Exit2 b → uok s w (fiber_step s w (Exit2 b) Tau).
Proof using HN.
  intros Hi Hw Hpc. destruct (after_switch_ufacts b) as (A1 & A2 & A3 & A4 & A5 & A6 & A7 & A8 & A9).
  simpl. queue Hi Hw Hpc. change (num_run_fibers s - 1) with (num_run_fibers s + -1).
  apply qinv_count; [done|apply (fv_q _ _ (c_f _ Hi))|by rewrite Hpc, A1|rewrite Hpc, A2; simpl; lia|done].
Qed.

Lemma post_uok s w b : cinv s → (w < N)%nat → pcs s w = Post b → uok s w (fiber_step s w (Post b) Tau).
Proof using HN.
  intros Hi Hw Hpc. destruct (after_switch_ufacts b) as (A1 & A2 & A3 & A4 & A5 & A6 & A7 & A8 & A9). simpl. plain.
Qed.

Lemma switch_uok s w f b : cinv s → (w < N)%nat → pcs s w = Switch f b → uok s w (fiber_step s w (Switch f b) Tau).
Proof using HN.
  intros Hi Hw Hpc. simpl. queue Hi Hw Hpc. eapply qinv_upd; [done|apply (fv_q _ _ (c_f _ Hi))|]. intros a Hr _ _. exists a.
  split; [done|]. split; [apply others_empty_refl|]. split; [done|]. rewrite Hpc. simpl. split; [solve_Permutation|].
  destruct (fv_q _ _ (c_f _ Hi)) as (a0 & _ & _ & -> & _). unfold u32. rewrite Zplus_mod_idemp_l. f_equal. lia.
Qed.

Lemma create_uok s w f b g : cinv s → (w < N)%nat → pcs s w = Fib f b → uok s w (fiber_step s w (Fib f b) (ACreate g)).
Proof using HN.
  intros Hi Hw Hpc. simpl. destruct (bool_decide_reflect (g ∉ alive s)) as [Hg|]; [|done].
  destruct (Z.ltb_spec (num_fibers s) UINT32_MAX) as [Hlt|]; [|done]. simpl.
  split; [|by eexists]. pose proof (cinv_facts s w Hi Hw) as F. pose proof (c_n _ Hi) as Hn.
  pose proof (create_finv N s w f b g (c_f _ Hi) Hw Hpc Hg Hlt) as Hf. split; [done|]. destruct Hf as [_ _ Hf _]. simpl in *.
  unstep Hn F Hpc. assert (1 <= num_fibers s) by (by apply F12). lia.
Qed.

Lemma exit1_uok s w f b : cinv s → (w < N)%nat → pcs s w = Exit1 f b → uok s w (fiber_step s w (Exit1 f b) Tau).
Proof using HN.
  intros Hi Hw Hpc. simpl. pose proof (cinv_facts s w Hi Hw) as F. pose proof (c_n _ Hi) as Hn.
  destruct (exit1_finv N s w f b (c_f _ Hi) Hw Hpc) as [Hf E]. split; [|by eexists]. split; [done|]. simpl. rewrite E.
  unstep Hn F Hpc. assert (1 <= num_fibers s) by (by apply F12). lia.
Qed.

Lemma new_uok s w f b g : cinv s → (w < N)%nat → pcs s w = New f b g → uok s w (fiber_step s w (New f b g) Tau).
Proof using HN.
  intros Hi Hw Hpc. simpl. unfold fev_wake_one.
  destruct (push_one_ok N s w g (blocked s) (Fib f b)) as (q' & E & Hq);
    [auto|done|by rewrite Hpc|rewrite Hpc; simpl; solve_Permutation|by rewrite Hpc|].
  rewrite E. simpl. queue Hi Hw Hpc. done.
Qed.

Lemma fiber_step_uok s w p act : cinv s → (w < N)%nat → pcs s w = p → uok s w (fiber_step s w p act).
Proof using HN.
  intros Hi Hw Hpc.
  assert (W1 : ∀ g, uwake_from p p → uok s w (if may_wake s [g] then fev_wake_one (unblock s [g]) w g p else Disabled)).
  { intros g Hp. destruct (may_wake s [g]) eqn:Hm; [|done]. by apply wake_one_uok. }
  assert (W2 : ∀ fs, uwake_from p p → uok s w (if may_wake s fs then fev_wake_stq (unblock s fs) w fs p else Disabled)).
  { intros fs Hp. destruct (may_wake s fs) eqn:Hm; [|done]. by eapply wake_stq_uok. }
  destruct p; try (by destruct act); destruct act; try done;
    try (by apply W1); try (by apply W2);
    try (by apply create_uok); try (by apply block_uok); try (by apply new_uok); try (by apply switch_uok);
    try (by apply post_uok); try (by apply exit1_uok); try (by apply exit2_uok).
  - simpl. plain.
  - simpl. plain.
Qed.

(** *** The steps of [fev_sched_work] that do not use the poller *)

Lemma steal_shared_uok s w p act : cinv s → (w < N)%nat → sq_stealing = true → pcs s w = p →
  match p with
  | Global | Reload _ _ | PollWait | PollReset | Quiescent | SemWait | SemSub => True
  | _ => uok s w (Sched.steal_work_step N s w p act)
  end.
Proof using HN.
  intros Hi Hw Hst Hpc. pose proof (steal_counters_uok s w p Hi Hw Hst Hpc) as Hc.
  pose proof (steal_queue_uok s w p Hi Hw Hst Hpc) as Hq.
  destruct p; try done; destruct act; try done; try exact Hc; try exact Hq; simpl.
  - apply (pop_uok s w (Local b) b Global); try done; [by rewrite Hst|by left].
  - eapply move_uok; try done. by left.
Qed.

Lemma shr_shared_uok s w p act : cinv s → (w < N)%nat → sq_stealing = false → pcs s w = p →
  match p with
  | CheckPoller | ShAdd | ShPollWait | ShXchg | ShPollReset | ShQuiescent | ShSemWait => True
  | _ => uok s w (Sched.shr_work_step s w p act)
  end.
Proof using HN.
  intros Hi Hw Hst Hpc. pose proof (shr_counters_uok s w p Hi Hw Hst Hpc) as Hc.
  destruct p; try done; destruct act; try done; try exact Hc; simpl.
  - apply (pop_uok s w Get 0 CheckPoller); try done; [by rewrite Hst|by right].
  - eapply move_uok; try done. by right.
Qed.

(** *** The pollers *)

Definition at_pc (j i : ipc) : Z := Z.b2z (bool_decide (i = j)).

(** How many workers are at [j]. *)
Definition intr_at u (j : ipc) : Z := wsum N (at_pc j) (intr u).

Record uinv u : Prop := {
  ui_c : cinv (us u);
  ui_sleep : ∀ v, sleep_inv (pollers u v);
  ui_wait : ∀ w, (w < N)%nat → in_wait (pcs (us u) w) = negb (bool_decide (w_pc (pollers u w) = WOut));
  ui_store : ∀ v, Z.of_nat (i_store (pollers u v)) = intr_at u (IRearm v);
  ui_write : ∀ v, Z.of_nat (i_write (pollers u v)) = intr_at u (IPost v);
  ui_intr : ∀ w, (w < N)%nat → intr u w ≠ IOff → ∃ n r, pcs (us u) w = WakePost n r;
}.

Definition uresult (o : outcome (usched (Q := Q))) : Prop :=
  match o with Disabled => True | Fault => False | Next u => uinv u end.

(** A step of the scheduler that leaves the pollers alone. *)
Lemma uinv_lift u w o :
  uinv u → (w < N)%nat → in_wait (pcs (us u) w) = false → (∀ n r, pcs (us u) w ≠ WakePost n r) →
  uok (us u) w o → uresult (IoUring.lift u o).
Proof.
  intros [Hc Hs Hw1 H1 H2 Hi] Hw Hin Hnw Ho. destruct o as [| |s']; simpl in *; [done..|].
  destruct Ho as (Hc' & p' & Hp & Hp'). split; simpl; try done; intros x Hx; rewrite Hp; unfold upd; destruct (decide (w = x)) as [<-|]; auto.
  - by rewrite Hp', <- Hw1.
  - intros Hne. destruct (Hi w Hw Hne) as (n & r & E). by destruct (Hnw n r).
Qed.

(** The worker's own steps do not interrupt anybody. *)
Definition own (l : wlabel) : Prop := match l with WCall | WPeek | WStep _ | KRead => True | _ => False end.

Lemma own_frame x l x' : own l → w_next x l = Some x' → i_store x' = i_store x ∧ i_write x' = i_write x.
Proof.
  destruct l; simpl; intros Ho Hs; try done.
  - case_decide; by simplify_eq.
  - unfold UringWait.fev_poller_check in Hs. case_decide; by simplify_eq.
  - unfold UringWait.fev_poller_wait, fev_poller_try_rearming_interrupt in Hs.
    destruct (w_pc x); try (destruct (other || _)); by simplify_eq.
  - unfold kernel_read in Hs. destruct (k_reads x); [done|]. destruct (0 <? event_fd x)%nat; by simplify_eq.
Qed.

Lemma uinv_own u v l x s' :
  uinv u → own l → w_next (pollers u v) l = Some x → cinv s' →
  (∀ w, w ≠ v → pcs s' w = pcs (us u) w) →
  ((v < N)%nat → in_wait (pcs s' v) = negb (bool_decide (w_pc x = WOut)) ∧
               (intr u v = IOff ∨ pcs s' v = pcs (us u) v)) →
  uinv (IoUring.mk_us s' (upd (pollers u) v x) (intr u)).
Proof.
  intros [Hc Hs Hw H1 H2 Hi] Ho Hx Hc' Hp Hv. destruct (own_frame _ _ _ Ho Hx) as [E1 E2]. split; simpl.
  - done.
  - intros y. unfold upd. destruct (decide (v = y)) as [<-|]; [eapply sleep_inv_step; [apply Hs|done]|apply Hs].
  - intros y Hy. unfold upd. destruct (decide (v = y)) as [<-|]; [by apply Hv|]. rewrite Hp by congruence. by apply Hw.
  - intros y. unfold upd. destruct (decide (v = y)) as [<-|]; [rewrite E1|]; apply H1.
  - intros y. unfold upd. destruct (decide (v = y)) as [<-|]; [rewrite E2|]; apply H2.
  - intros y Hy Hne. destruct (decide (y = v)) as [->|Hyv]; [|rewrite Hp by done; by apply Hi].
    destruct (Hv Hy) as [_ [E|E]]; [done|]. rewrite E. by apply Hi.
Qed.

(** A step of [fev_poller_interrupt] of the worker [w] at the poller of [v]. *)
Lemma uinv_intr u w v l x i :
  uinv u → (w < N)%nat → intr u w ≠ IOff → w_next (pollers u v) l = Some x →
  w_pc x = w_pc (pollers u v) →
  (∀ y, Z.of_nat (i_store (upd (pollers u) v x y)) =
        Z.of_nat (i_store (pollers u y)) + (at_pc (IRearm y) i - at_pc (IRearm y) (intr u w))) →
  (∀ y, Z.of_nat (i_write (upd (pollers u) v x y)) =
        Z.of_nat (i_write (pollers u y)) + (at_pc (IPost y) i - at_pc (IPost y) (intr u w))) →
  uinv (IoUring.mk_us (us u) (upd (pollers u) v x) (upd (intr u) w i)).
Proof.
  intros [Hc Hs Hw1 H1 H2 Hi] Hw Hne Hx Hpc E1 E2. split; simpl.
  - done.
  - intros y. unfold upd. destruct (decide (v = y)) as [<-|]; [eapply sleep_inv_step; [apply Hs|done]|apply Hs].
  - intros y Hy. rewrite Hw1 by done. unfold upd. destruct (decide (v = y)) as [<-|]; [by rewrite Hpc|done].
  - intros y. rewrite E1, H1. unfold intr_at. simpl. by rewrite wsum_upd.
  - intros y. rewrite E2, H2. unfold intr_at. simpl. by rewrite wsum_upd.
  - intros y Hy Hny. destruct (decide (y = w)) as [->|]; [by apply Hi|]. rewrite upd_ne in Hny by done. by apply Hi.
Qed.

Lemma at_pc_ge j u w : (w < N)%nat → intr u w = j → 1 <= intr_at u j.
Proof.
  intros Hw Hj. assert (E : at_pc j (intr u w) = 1) by (unfold at_pc; by rewrite bool_decide_true).
  rewrite <- E. unfold intr_at. apply (wsum_ge1 N (at_pc j) (intr u)); [|done]. intros y _. unfold at_pc. by destruct (bool_decide _).
Qed.

Ltac by_at Hi := intros y; rewrite Hi; unfold at_pc, upd; repeat case_decide; repeat case_bool_decide; subst; simpl in *;
  simplify_eq; try done; try lia.

Lemma interrupt_uok u w : uinv u → (w < N)%nat → intr u w ≠ IOff → uresult (IoUring.fev_poller_interrupt N u w).
Proof.
  intros Hi Hw Hne. unfold IoUring.fev_poller_interrupt, IoUring.poller_step.
  destruct (intr u w) as [|i|v|v] eqn:Hpc; [done|..].
  - destruct (Nat.ltb_spec i N) as [Hlt|Hge].
    + simpl. destruct (announced (pollers u i)) eqn:Ha; simpl; (eapply (uinv_intr u w i IExchange); [done|done|by rewrite Hpc|simpl; by rewrite Ha|done|..]); by_at Hpc.
    + destruct Hi as [Hc Hs Hw1 H1 H2 Hi]. split; simpl; try done.
      * intros y. rewrite H1. unfold intr_at. simpl. rewrite wsum_upd by done. rewrite Hpc. unfold at_pc. simpl. lia.
      * intros y. rewrite H2. unfold intr_at. simpl. rewrite wsum_upd by done. rewrite Hpc. unfold at_pc. simpl. lia.
      * intros y Hy Hny. destruct (decide (y = w)) as [->|]; [apply Hi; [done|by rewrite Hpc]|].
        rewrite upd_ne in Hny by done. by apply Hi.
  - pose proof (at_pc_ge (IRearm v) u w Hw Hpc) as Hge. rewrite <- (ui_store _ Hi) in Hge. simpl.
    destruct (i_store (pollers u v)) as [|n] eqn:En; [lia|]. simpl.
    eapply (uinv_intr u w v IStore); [done|done|by rewrite Hpc|simpl; by rewrite En|done|..]; by_at Hpc.
  - pose proof (at_pc_ge (IPost v) u w Hw Hpc) as Hge. rewrite <- (ui_write _ Hi) in Hge. simpl.
    destruct (i_write (pollers u v)) as [|n] eqn:En; [lia|]. simpl.
    eapply (uinv_intr u w v IWrite); [done|done|by rewrite Hpc|simpl; by rewrite En|done|..]; by_at Hpc.
Qed.

(** The worker leaves [fev_poller_check2] with its poller in the state [x]. *)
Lemma wake_completed_uok u w l x fs p ret :
  uinv u → (w < N)%nat → pcs (us u) w = p → own l → w_next (pollers u w) l = Some x → w_pc x = WOut →
  uwake_from p ret → match p with Fib _ _ | Post _ => False | _ => True end →
  uresult (IoUring.wake_completed (IoUring.set_poller_data u w x) w fs ret).
Proof using HN.
  intros Hi Hw Hpc Ho Hx Hout Hwf Hnf. pose proof (ui_c _ Hi) as Hc. pose proof (cinv_pc _ w Hc Hw) as [Hok _].
  assert (Hoff : intr u w = IOff).
  { destruct (decide (intr u w = IOff)) as [|Hne]; [done|]. destruct (ui_intr _ Hi w Hw Hne) as (n & r & E).
    rewrite Hpc in E. by rewrite E in Hwf. }
  assert (Hres : ∀ o, uok (us u) w o → uresult (IoUring.lift (IoUring.set_poller_data u w x) o)).
  { intros [| |s'] Hs; simpl in *; [done..|]. destruct Hs as (Hc' & p' & Hp & Hp').
    apply (uinv_own u w l x s'); [done|done|done|done|..].
    - intros y Hy. rewrite Hp, upd_ne by done. done.
    - intros _. rewrite Hp, upd_eq, Hp', Hout. split; [done|by left]. }
  unfold IoUring.wake_completed. destruct fs as [|f fs].
  - apply (Hres (Next (go (us u) w ret))). rewrite Hpc in Hok.
    destruct p; try done; simpl in Hwf; subst ret; simpl in Hok; plain.
  - simpl. destruct (may_wake (us u) (f :: fs)) eqn:Hm; [|done]. apply Hres. by eapply wake_stq_uok.
Qed.

Lemma in_wait_out u w : uinv u → (w < N)%nat → in_wait (pcs (us u) w) = false → w_pc (pollers u w) = WOut.
Proof. intros Hi Hw E. rewrite (ui_wait _ Hi w Hw) in E. by case_bool_decide. Qed.

Lemma check_uok u w fs p ret :
  uinv u → (w < N)%nat → pcs (us u) w = p → in_wait p = false → uwake_from p ret →
  match p with Fib _ _ | Post _ => False | _ => True end →
  uresult (IoUring.fev_poller_check u w fs ret).
Proof using HN.
  intros Hi Hw Hpc Hin Hwf Hnf. rewrite <- Hpc in Hin. pose proof (in_wait_out u w Hi Hw Hin) as Hout.
  unfold IoUring.fev_poller_check, IoUring.poller_step. simpl. unfold UringWait.fev_poller_check.
  rewrite decide_True by done. simpl. eapply (wake_completed_uok u w WPeek); try done. simpl.
  unfold UringWait.fev_poller_check. by rewrite decide_True by done.
Qed.

Lemma set_same_pc u w x l : uinv u → own l → w_next (pollers u w) l = Some x →
  bool_decide (w_pc x = WOut) = bool_decide (w_pc (pollers u w) = WOut) →
  uinv (IoUring.set_poller_data u w x).
Proof.
  intros Hi Ho Hx E. apply (uinv_own u w l x (us u)); [done|done|done|apply Hi|done|]. intros Hw. split; [|by right].
  by rewrite E, (ui_wait _ Hi w Hw).
Qed.

(** Only the check leaves [fev_poller_wait], and only io_uring_enter waits. *)
Lemma wait_step x other : w_pc x ≠ WOut →
  match w_next x (WStep other) with
  | Some x' => w_pc x = WCheck ∨ w_pc x' ≠ WOut
  | None => w_pc x = WEnter ∧ other = false ∧ evcqes x = 0%nat
  end.
Proof.
  simpl. unfold UringWait.fev_poller_wait, fev_poller_try_rearming_interrupt.
  destruct (w_pc x); simpl; intros; try done; try (by left); try (by right).
  - right. by destruct (rearm_interrupt x).
  - destruct other, (evcqes x); simpl; try done; by right.
Qed.

Lemma wait_uok u w take fs ret :
  uinv u → (w < N)%nat → in_wait (pcs (us u) w) = true → uwake_from (pcs (us u) w) ret →
  uresult (IoUring.fev_poller_wait u w take fs ret).
Proof using HN.
  intros Hi Hw Hin Hwf. assert (Hout : w_pc (pollers u w) ≠ WOut).
  { intros E. rewrite (ui_wait _ Hi w Hw), E in Hin. done. }
  assert (Hsame : ∀ o x, w_next (pollers u w) (WStep o) = Some x → w_pc x ≠ WOut → uinv (IoUring.set_poller_data u w x)).
  { intros o x Hx Hne. eapply (set_same_pc u w x (WStep o)); [done|done|done|]. by rewrite !bool_decide_false. }
  assert (Hw0 := λ o, wait_step (pollers u w) o Hout).
  unfold IoUring.fev_poller_wait, IoUring.poller_step.
  destruct (w_pc (pollers u w)) eqn:Epc; try done.
  - specialize (Hw0 (bool_decide (fs ≠ []))).
    destruct (w_next (pollers u w) (WStep (bool_decide (fs ≠ [])))) as [x|] eqn:Hx; simpl; [|by destruct Hw0].
    rewrite upd_eq. destruct (decide (w_pc x = WOut)) as [Eo|En]; [|by eapply Hsame].
    eapply (wake_completed_uok u w (WStep (bool_decide (fs ≠ []))) x fs _ ret); try done. by destruct (pcs (us u) w).
  - specialize (Hw0 false). destruct (w_next _ _) as [x|] eqn:Hx; simpl; [|by destruct Hw0]. eapply Hsame; [done|naive_solver].
  - specialize (Hw0 false). destruct (w_next _ _) as [x|] eqn:Hx; simpl; [|by destruct Hw0]. eapply Hsame; [done|naive_solver].
  - specialize (Hw0 false). destruct (w_next _ _) as [x|] eqn:Hx; simpl; [|by destruct Hw0]. eapply Hsame; [done|naive_solver].
  - specialize (Hw0 false). destruct (w_next _ _) as [x|] eqn:Hx; simpl; [|by destruct Hw0]. eapply Hsame; [done|naive_solver].
  - destruct (take && _); [done|]. specialize (Hw0 take).
    destruct (w_next _ _) as [x|] eqn:Hx; simpl; [|done]. eapply Hsame; [done|naive_solver].
Qed.

(** The worker calls [fev_poller_wait]. *)
Lemma enter_uok u w s' k :
  uinv u → (w < N)%nat → in_wait (pcs (us u) w) = false → (∀ n r, pcs (us u) w ≠ WakePost n r) →
  cinv s' → (∃ p', pcs s' = upd (pcs (us u)) w p' ∧ in_wait p' = true) →
  (∀ u', us u' = us u → k u' = Next (IoUring.set_us u' s')) →
  uresult (u' <~ IoUring.poller_step u w WCall; k u').
Proof.
  intros Hi Hw Hin Hnw Hc (p' & Hp & Hp') Hk. pose proof (in_wait_out u w Hi Hw Hin) as Hout.
  unfold IoUring.poller_step. simpl. rewrite decide_True by done. simpl. rewrite Hk by done.
  apply (uinv_own u w WCall (set_wpc (pollers u w) WCheck) s'); [done|done|simpl; by rewrite decide_True by done|done|..].
  - intros y Hy. by rewrite Hp, upd_ne by done.
  - intros _. rewrite Hp, upd_eq, Hp'. split; [done|]. left.
    destruct (decide (intr u w = IOff)) as [|Hne]; [done|]. destruct (ui_intr _ Hi w Hw Hne) as (n & r & E). by destruct (Hnw n r).
Qed.

Lemma reload_cinv s w pw old : cinv s → (w < N)%nat → pcs s w = Reload pw old →
  if u32 (Z.of_nat N - old) <=? num_run_fibers s then uok s w (Next (go s w (if pw then UndoAdd else UndoPoller)))
  else cinv (go s w PollWait).
Proof using HN.
  intros Hi Hw Hpc. pose proof (cinv_pc s w Hi Hw) as [Hok _].
  pose proof (u_nw _ _ _ _ (c_n _ Hi)) as Hnw. pose proof (cinv_facts s w Hi Hw) as [G1 G2 _ _ _ _ _ _ _ _ _ _].
  assert (0 <= num_run_fibers s) by (destruct (fv_q _ _ (c_f _ Hi)) as (? & _ & _ & -> & _); apply u32_range).
  rewrite Hpc in Hok. destruct Hok as [Hst Hold]. rewrite u32_small by lia.
  destruct (Z.leb_spec (Z.of_nat N - old) (num_run_fibers s)); [destruct pw; plain|plain0].
Qed.

Lemma sh_add_cinv s w : cinv s → (w < N)%nat → pcs s w = ShAdd →
  cinv (go (set_waiting s (u32 (num_waiting s + 1))) w ShPollWait).
Proof using HN.
  intros Hi Hw Hpc. pose proof (cinv_pc s w Hi Hw) as [Hok _]. rewrite Hpc in Hok. simpl in Hok.
  pose proof (u_nw _ _ _ _ (c_n _ Hi)) as Hnw. pose proof (cinv_facts s w Hi Hw) as [G1 G2 _ _ _ _ _ _ _ _ _ _].
  rewrite Hpc in G1, G2. simpl in *. rewrite u32_small by lia. plain0.
Qed.

Lemma steal_work_uok u w p act : uinv u → (w < N)%nat → sq_stealing = true → pcs (us u) w = p →
  match p with
  | Fib _ _ | New _ _ _ | Switch _ _ | Post _ | Exit1 _ _ | Exit2 _ | WakeAdd _ _ | WakeLoad _ _ | WakeSlow _ _
  | WakePost _ _ | AllIntr _ | WakeIntr _ _ | Done => True
  | _ => uresult (IoUring.steal_work_step N u w p act)
  end.
Proof using HN.
  intros Hi Hw Hst Hpc.
  assert (Hsh := steal_shared_uok (us u) w p act (ui_c _ Hi) Hw Hst Hpc).
  assert (Hl : in_wait p = false → (∀ n r, p ≠ WakePost n r) → ∀ o, uok (us u) w o → uresult (IoUring.lift u o)).
  { intros H1 H2 o. apply uinv_lift; rewrite ?Hpc; done. }
  destruct p; try exact I; try (by apply Hl); destruct act; try done; simpl.
  - eapply check_uok; done.
  - pose proof (reload_cinv (us u) w pw old (ui_c _ Hi) Hw Hpc) as Hr. destruct (_ <=? _).
    + by apply (Hl eq_refl (λ _ _ e, ltac:(discriminate e)) (Next (go (us u) w (if pw then UndoAdd else UndoPoller)))).
    + apply (enter_uok u w (go (us u) w PollWait)); rewrite ?Hpc; try done; [by exists PollWait|].
      intros u' E. unfold IoUring.ugo. by rewrite E.
  - apply wait_uok; rewrite ?Hpc; done.
Qed.

Lemma shr_work_uok u w p act : uinv u → (w < N)%nat → sq_stealing = false → pcs (us u) w = p →
  match p with
  | Fib _ _ | New _ _ _ | Switch _ _ | Post _ | Exit1 _ _ | Exit2 _ | WakeAdd _ _ | WakeLoad _ _ | WakeSlow _ _
  | WakePost _ _ | AllIntr _ | WakeIntr _ _ | Done => True
  | _ => uresult (IoUring.shr_work_step u w p act)
  end.
Proof using HN.
  intros Hi Hw Hst Hpc.
  assert (Hsh := shr_shared_uok (us u) w p act (ui_c _ Hi) Hw Hst Hpc).
  assert (Hl : in_wait p = false → (∀ n r, p ≠ WakePost n r) → ∀ o, uok (us u) w o → uresult (IoUring.lift u o)).
  { intros H1 H2 o. apply uinv_lift; rewrite ?Hpc; done. }
  destruct p; try exact I; try (by apply Hl); destruct act; try done; simpl.
  - eapply check_uok; done.
  - apply (enter_uok u w (go (set_waiting (us u) (u32 (num_waiting (us u) + 1))) w ShPollWait)); rewrite ?Hpc; try done.
    + apply sh_add_cinv; [apply Hi|done|done].
    + by exists ShPollWait.
  - apply wait_uok; rewrite ?Hpc; done.
Qed.

Lemma interrupts_uok u w n r : uinv u → (w < N)%nat → pcs (us u) w = WakePost n r → uresult (IoUring.interrupts N u w n r).
Proof using HN.
  intros Hi Hw Hpc. unfold IoUring.interrupts. destruct (decide (intr u w = IOff)) as [Hoff|]; [|by apply interrupt_uok].
  pose proof (wake_slow_uok (us u) w (WakePost n r) (ui_c _ Hi) Hw Hpc) as Hs. simpl in Hs.
  pose proof (cinv_pc _ w (ui_c _ Hi) Hw) as [Hok Hu].
  destruct Hi as [Hc Hsl Hw1 H1 H2 Hi]. destruct (Z.eqb_spec n 0) as [->|Hn].
  - destruct Hs as (Hc' & p' & Hp & Hp'). split; simpl; try done.
    + intros y Hy. unfold upd. destruct (decide (w = y)) as [<-|]; [|by apply Hw1].
      rewrite <- Hw1, Hpc by done. simpl. rewrite Hpc in Hok, Hu. destruct Hok as [_ [Hr| ->]]; [|done].
      by apply (uret_facts r Hr Hu).
    + intros y Hy Hny. destruct (decide (y = w)) as [->|]; [done|]. rewrite upd_ne by done. by apply Hi.
  - destruct Hs as (Hc' & p' & Hp & Hp'). split; simpl; try done.
    + intros y Hy. unfold upd. destruct (decide (w = y)) as [<-|]; [|by apply Hw1]. by rewrite <- Hw1, Hpc by done.
    + intros y. rewrite H1. unfold intr_at. simpl. rewrite wsum_upd by done. rewrite Hoff. unfold at_pc. simpl. lia.
    + intros y. rewrite H2. unfold intr_at. simpl. rewrite wsum_upd by done. rewrite Hoff. unfold at_pc. simpl. lia.
    + intros y Hy Hny. destruct (decide (y = w)) as [->|]; [rewrite upd_eq; eauto|]. rewrite upd_ne in Hny by done. rewrite upd_ne by done. by apply Hi.
Qed.

Lemma usched_step_ok u l : uinv u → uresult (IoUring.sched_step N u l).
Proof using HN.
  intros Hi. destruct l as [w act|v]; simpl.
  - destruct (Nat.ltb_spec w N) as [Hw|]; [|done]. unfold IoUring.worker_step.
    assert (Hl : in_wait (pcs (us u) w) = false → (∀ n r, pcs (us u) w ≠ WakePost n r) →
      ∀ o, uok (us u) w o → uresult (IoUring.lift u o)) by (intros H1 H2 o; by apply uinv_lift).
    assert (Hf := λ p, fiber_step_uok (us u) w p act (ui_c _ Hi) Hw).
    assert (Hwu := λ p, wake_up_uok (us u) w p (ui_c _ Hi) Hw).
    assert (Hws := λ p, wake_slow_uok (us u) w p (ui_c _ Hi) Hw).
    assert (Hs := λ p, steal_work_uok u w p act Hi Hw). assert (Hh := λ p, shr_work_uok u w p act Hi Hw).
    destruct (pcs (us u) w) eqn:Hpc; try done;
      try (by apply Hl; [done|done|apply Hf]);
      try (by destruct act; try done; apply Hl; [done|done|apply (Hwu _ eq_refl)]);
      try (destruct sq_stealing eqn:Hst; [by apply (Hs _ eq_refl eq_refl)|by apply (Hh _ eq_refl eq_refl)]);
      destruct act; try done.
    + by apply (Hl eq_refl (λ _ _ e, ltac:(discriminate e)) (Next (go (us u) w (WakePost n p)))), (Hws _ eq_refl).
    + by apply interrupts_uok.
    + by apply (Hl eq_refl (λ _ _ e, ltac:(discriminate e)) (Next (go (us u) w (WakePost (Z.of_nat N) p)))), (Hws _ eq_refl).
  - unfold IoUring.poller_step. destruct (w_next (pollers u v) KRead) as [x|] eqn:Hx; simpl; [|done].
    eapply (set_same_pc u v x KRead); [done|done|done|]. simpl in Hx. unfold kernel_read in Hx.
    destruct (k_reads _); [done|]. destruct (0 <? _)%nat; by simplify_eq.
Qed.

(** ** The start *)

Lemma put_all_pcs s fs s' : put_all s fs = Some s' → pcs s' = pcs s.
Proof.
  revert s. induction fs as [|f fs IH]; intros s; simpl; [by intros [= ->]|]. unfold fev_sched_put. simpl.
  destruct (sq_put f (queues s)); simpl; [|done]. by intros ->%IH.
Qed.

Lemma start_uinv q s : (0 < N)%nat → booted N q s → uinv (IoUring.start s).
Proof using HN.
  intros H0 Hb. pose proof (booted_sinv N HN q s H0 Hb) as Hs. destruct Hb as (_ & fs & _ & _ & Hp%put_all_pcs).
  assert (Hpc : ∀ w, pcs s w = if sq_stealing then Local 0 else Get) by (intros w; by rewrite Hp).
  split; simpl; try done.
  - split; [by apply sinv_finv|]. destruct (s_n _ _ Hs) as [H1 H2 _ _ H3 H4 _ _]. split; try done.
    intros w Hw. split; [by apply H1|]. rewrite Hpc. by destruct sq_stealing.
  - intros _. apply sleep_inv_init.
  - intros w _. rewrite Hpc. by destruct sq_stealing.
  - intros v. unfold intr_at. by rewrite wsum_zero.
  - intros v. unfold intr_at. by rewrite wsum_zero.
Qed.

Lemma reach_uinv q s0 u : (0 < N)%nat → booted N q s0 → reach (IoUring.sched_next N) (IoUring.start s0) u → uinv u.
Proof using HN.
  intros H0 Hb. apply reach_invariant; [by eapply start_uinv|].
  intros u1 l u2 Hi Hs. unfold IoUring.sched_next in Hs. pose proof (usched_step_ok u1 l Hi) as Hok.
  destruct (IoUring.sched_step N u1 l); simplify_eq. exact Hok.
Qed.

(** ** Sleeping workers *)

(** The worker sleeps in io_uring_enter and there is no completion in its ring. *)
Definition sleeping u (w : nat) : Prop :=
  in_wait (pcs (us u) w) = true ∧ w_pc (pollers u w) = WEnter ∧ evcqes (pollers u w) = 0%nat.

(** What a worker can do without the completion of a request. *)
Definition internal (act : action) : bool := match act with APoll true _ => false | _ => true end.

Lemma attempt_enabled {A} (o : option A) (k : A → outcome (usched (Q := Q))) :
  (∀ x, k x ≠ Disabled) → attempt o k ≠ Disabled.
Proof. destruct o; simpl; naive_solver. Qed.

Lemma lift_enabled u o : o ≠ Disabled → IoUring.lift u o ≠ Disabled.
Proof. by destruct o. Qed.

Lemma attempt_enabled' {A} (o : option A) (k : A → outcome (sched (Q := Q))) :
  (∀ x, k x ≠ Disabled) → attempt o k ≠ Disabled.
Proof. destruct o; simpl; naive_solver. Qed.

Lemma wait_enabled u w ret : uinv u → (w < N)%nat → in_wait (pcs (us u) w) = true →
  sleeping u w ∨ IoUring.fev_poller_wait u w false [] ret ≠ Disabled.
Proof.
  intros Hi Hw Hin. assert (Hout : w_pc (pollers u w) ≠ WOut).
  { intros E. rewrite (ui_wait _ Hi w Hw), E in Hin. done. }
  unfold sleeping, IoUring.fev_poller_wait. destruct (w_pc (pollers u w)) eqn:Epc; try done.
  - right. apply attempt_enabled. intros u'. by case_decide.
  - right. by apply attempt_enabled.
  - right. by apply attempt_enabled.
  - right. by apply attempt_enabled.
  - right. by apply attempt_enabled.
  - simpl. unfold IoUring.poller_step. pose proof (wait_step (pollers u w) false) as Hs.
    destruct (w_next (pollers u w) (WStep false)); simpl; [by right|]. left.
    destruct Hs as (_ & _ & ->); [by rewrite Epc|done].
Qed.

Ltac enabled := intros; simpl; first [done | by case_match | apply attempt_enabled; enabled | apply lift_enabled; enabled
  | apply attempt_enabled'; enabled].

(** A worker that has not returned and does not sleep can take a step of its own. *)
Lemma worker_progress u w : uinv u → (w < N)%nat →
  pcs (us u) w = Done ∨ sleeping u w ∨ ∃ act, internal act = true ∧ IoUring.worker_step N u w act ≠ Disabled.
Proof.
  intros Hi Hw. destruct (cinv_pc _ w (ui_c _ Hi) Hw) as [Hok Hu].
  assert (Hwt := λ r, wait_enabled u w r Hi Hw). unfold IoUring.worker_step.
  destruct (pcs (us u) w) eqn:Hpc; simpl in Hok, Hu; try done; try (by left); right;
    repeat match goal with H : sq_stealing = _ ∧ _ |- _ => destruct H | H : sq_stealing = _ |- _ => rewrite H end.
  all: try (right; exists Tau; split; [done|]; by enabled).
  all: try (right; exists (APoll false []); split; [done|]; by enabled).
  all: try (right; exists ABlock; split; [done|]; by enabled).
  - right. exists Tau. split; [done|]. simpl. unfold IoUring.interrupts, IoUring.fev_poller_interrupt.
    case_decide as Hoff; [by case_match|]. destruct (intr u w); [done| |by apply attempt_enabled..].
    case_match; [by apply attempt_enabled|done].
  - right. exists Tau. split; [done|]. simpl. case_match; [done|by apply attempt_enabled].
  - destruct (Hwt PollSub eq_refl) as [|He]; [by left|right]. by exists (APoll false []).
  - destruct (Hwt ShSub eq_refl) as [|He]; [by left|right]. by exists (APoll false []).
Qed.

(** Nothing happens any more unless a request completes. *)
Definition quiet u : Prop :=
  (∀ w act, internal act = true → IoUring.sched_next N u (UWork w act) = None) ∧
  (∀ v, IoUring.sched_next N u (UKernel v) = None).

Lemma quiet_workers u w : uinv u → quiet u → (w < N)%nat → pcs (us u) w = Done ∨ sleeping u w.
Proof using HN.
  intros Hi [Hq _] Hw. destruct (worker_progress u w Hi Hw) as [?|[?|(act & Ha & Hne)]]; [by left|by right|].
  exfalso. specialize (Hq w act Ha). unfold IoUring.sched_next in Hq. pose proof (usched_step_ok u (UWork w act) Hi) as Hok.
  simpl in *. destruct (Nat.ltb_spec w N); [|lia]. destruct (IoUring.worker_step N u w act); done.
Qed.

(** Nobody is interrupting, so a worker that sleeps can be found in [waiters]. *)
Lemma quiet_announced u w : uinv u → quiet u → (w < N)%nat → sleeping u w → announced (pollers u w) = true.
Proof using HN.
  intros Hi Hq Hw (_ & Hpc & Hev).
  assert (Hoff : ∀ x, (x < N)%nat → intr u x = IOff).
  { intros x Hx. destruct (decide (intr u x = IOff)) as [|Hne]; [done|]. exfalso.
    destruct (ui_intr _ Hi x Hx Hne) as (n & r & E). destruct (quiet_workers u x Hi Hq Hx) as [E'|[E' _]]; by rewrite E in E'. }
  assert (Hz : ∀ j, j ≠ IOff → intr_at u j = 0).
  { intros j Hj. unfold intr_at. apply wsum_zero. intros x Hx. rewrite Hoff by done. unfold at_pc. by rewrite bool_decide_false. }
  pose proof (ui_store _ Hi w) as Hs. pose proof (ui_write _ Hi w) as Hwr. rewrite Hz in Hs, Hwr by done.
  destruct (ui_sleep _ Hi w) as [_ _ H3 H4]. specialize (H4 (or_intror Hpc)). rewrite Hpc in H3. simpl in H3.
  destruct (announced (pollers u w)); [done|]. exfalso. simpl in *.
  destruct Hq as [_ Hk]. specialize (Hk w). unfold IoUring.sched_next in Hk. simpl in Hk. unfold IoUring.poller_step in Hk.
  simpl in Hk. unfold kernel_read in Hk. destruct (event_fd (pollers u w)) eqn:Ee; [lia|]. simpl in *.
  destruct (k_reads (pollers u w)); [lia|done].
Qed.

Lemma quiet_sums u : uinv u → quiet u →
  helds N (pcs (us u)) = [] ∧ wsum N cnt (pcs (us u)) = 0 ∧ wsum N (alert N) (pcs (us u)) = 0.
Proof using HN.
  intros Hi Hq.
  assert (H : ∀ w, (w < N)%nat → held (pcs (us u) w) = [] ∧ cnt (pcs (us u) w) = 0 ∧ alert N (pcs (us u) w) = 0).
  { intros w Hw. destruct (quiet_workers u w Hi Hq Hw) as [->|[E _]]; [done|]. by destruct (pcs (us u) w). }
  split; [|split; apply wsum_zero; intros w Hw; by apply H].
  unfold helds. assert (H' : ∀ w, w ∈ seq 0 N → held (pcs (us u) w) = []) by (intros w [_ Hw]%elem_of_seq; apply H; lia).
  induction (seq 0 N) as [|w l IH]; simpl; [done|]. rewrite H' by apply list_elem_of_here. simpl. apply IH.
  intros x Hx. apply H'. by apply list_elem_of_further.
Qed.

Lemma quiet_cases u : uinv u → quiet u →
  (∃ a, sq_repr (queues (us u)) a ∧ afibers a = []) ∧ alive (us u) ≡ₚ blocked (us u).
Proof using HN.
  intros Hi Hq. destruct (quiet_sums u Hi Hq) as (Hh & Hc & Hal). destruct (ui_c _ Hi) as [[(a & Hr & Hp & Hn & _) Hd Hf Hb] Hu].
  assert (Ha : afibers a = []).
  { pose proof (Permutation_length Hp) as Hlen. rewrite !length_app in Hlen.
    destruct (Z.eq_dec (wsum N leaving (pcs (us u))) 0) as [Hl|Hl].
    - destruct (decide (num_run_fibers (us u) = 0)) as [Hz|Hz].
      + rewrite Hn, Hc, u32_small in Hz by lia. destruct (afibers a); [done|simpl in Hz; lia].
      + pose proof (u_alert _ _ _ _ Hu Hl Hz). lia.
    - assert (0 <= wsum N leaving (pcs (us u))).
      { apply wsum_nonneg. intros w Hw. apply (leaving_bit N sq_stealing). by apply (u_pc _ _ _ _ Hu). }
      assert (num_fibers (us u) = 0) by (apply (u_leaving _ _ _ _ Hu); lia). destruct (afibers a); [done|simpl in *; lia]. }
  split; [by exists a|]. by rewrite Hp, Ha, Hh.
Qed.
End invariant.

(** ** Properties *)

Section properties.
Context {Q : Type} `{SQ : SchedQueue Q} (N : nat) `{SP : !SchedQueueSpec Q N}.
Implicit Type u : usched (Q := Q).

(** With io_uring no step of any worker fails an assertion, accesses a run queue out of bounds, or uses its poller
    in a way that is not possible, and no fiber is lost or duplicated: every fiber is in a run queue, in the hands of one
    worker, or blocked. *)
Theorem uring_sched_keeps_fibers q s0 u :
  Z.of_nat N < 2 ^ 32 → (0 < N)%nat → booted N q s0 → reach (IoUring.sched_next N) (IoUring.start s0) u →
  (∀ l, IoUring.sched_step N u l ≠ Fault) ∧
  NoDup (alive (us u)) ∧ num_fibers (us u) = Z.of_nat (length (alive (us u))) ∧
  ∃ a, sq_repr (queues (us u)) a ∧ alive (us u) ≡ₚ afibers a ++ helds N (pcs (us u)) ++ blocked (us u).
Proof.
  intros HN H0 Hb Hr. pose proof (reach_uinv N HN q s0 u H0 Hb Hr) as Hi. split.
  - intros l E. pose proof (usched_step_ok N HN u l Hi) as Hok. by rewrite E in Hok.
  - destruct (ui_c _ _ Hi) as [[(a & Hra & Hp & _) Hd Hf Hbd] _]. eauto.
Qed.

(** C30: With io_uring the workers never stop while there is something to do. When nothing can happen any more unless a
    request completes, no fiber is runnable, all that are left are blocked, and every worker has returned or sleeps in
    io_uring_enter, where it can be interrupted: it is in [poller->waiters]. *)
Theorem uring_sched_quiescence q s0 u :
  Z.of_nat N < 2 ^ 32 → (0 < N)%nat → booted N q s0 → reach (IoUring.sched_next N) (IoUring.start s0) u → quiet N u →
  (∃ a, sq_repr (queues (us u)) a ∧ afibers a = []) ∧ alive (us u) ≡ₚ blocked (us u) ∧
  ∀ w, (w < N)%nat → pcs (us u) w = Done ∨ sleeping u w ∧ announced (pollers u w) = true.
Proof.
  intros HN H0 Hb Hr Hq. pose proof (reach_uinv N HN q s0 u H0 Hb Hr) as Hi.
  destruct (quiet_cases N HN u Hi Hq) as [H1 H2]. split; [done|]. split; [done|]. intros w Hw.
  destruct (quiet_workers N HN u w Hi Hq Hw) as [?|Hs]; [by left|right]. split; [done|]. by apply (quiet_announced N HN).
Qed.
End properties.

(** ** Witnesses: two workers that steal, one fiber *)

#[local] Instance ex_uring_sq : SchedQueue (bsched fev_bounded_mpmc_queue) := steal_mpmc 1 1 0.
#[local] Instance ex_uring_spec : SchedQueueSpec (bsched fev_bounded_mpmc_queue) 2 :=
  steal_mpmc_spec 1 1 0 2 ltac:(lia) ltac:(lia).

Definition ex_steps (w n : nat) : list ulabel := replicate n (UWork w Tau).
Definition ex_poll (w n : nat) : list ulabel := replicate n (UWork w (APoll false [])).

(** The fiber blocks, and both workers go to sleep. *)
Definition ex_uring_sleep : list ulabel :=
  ex_steps 0 1 ++ [UWork 0 ABlock] ++ ex_steps 0 2 ++
  ex_poll 0 1 ++ ex_steps 0 9 ++ ex_poll 0 5 ++
  ex_steps 1 1 ++ ex_poll 1 1 ++ ex_steps 1 9 ++ ex_poll 1 5.

Definition ex_uring (ls : list ulabel) : usched (Q := bsched fev_bounded_mpmc_queue) :=
  default (IoUring.start ex_start) (run (IoUring.sched_next 2) (IoUring.start ex_start) ls).

Lemma ex_uring_reach ls :
  match run (IoUring.sched_next 2) (IoUring.start ex_start) ls with Some _ => true | None => false end = true →
  reach (IoUring.sched_next 2) (IoUring.start ex_start) (ex_uring ls).
Proof.
  intros E. apply (run_reach _ _ (IoUring.start ex_start) ls); [constructor|]. unfold ex_uring.
  by destruct (run _ _ ls).
Qed.

Lemma uring_sched_keeps_fibers_witness :
  NoDup (alive (us (ex_uring ex_uring_sleep))) ∧ num_fibers (us (ex_uring ex_uring_sleep)) = 1.
Proof.
  destruct (uring_sched_keeps_fibers 2 ex_queue ex_start (ex_uring ex_uring_sleep)) as (_ & H1 & H2 & _);
    [lia|lia|apply ex_booted|apply ex_uring_reach; by vm_compute|]. split; [exact H1|exact H2].
Defined.

Definition ex_sleeping (u : usched (Q := bsched fev_bounded_mpmc_queue)) (w : nat) : bool :=
  in_wait (pcs (us u) w) && bool_decide (w_pc (pollers u w) = WEnter) && (evcqes (pollers u w) =? 0)%nat.

Lemma ex_sleeping_ok u w : ex_sleeping u w = true → sleeping u w.
Proof. unfold ex_sleeping. intros [[H1 H2%bool_decide_eq_true]%andb_prop H3%Nat.eqb_eq]%andb_prop. done. Qed.

(** Workers that have returned or sleep do nothing. *)
Lemma sleeping_quiet {Q} `{SQ : SchedQueue Q} (N : nat) (u : usched (Q := Q)) :
  (∀ w, (w < N)%nat → pcs (us u) w = Done ∨ sleeping u w) → (∀ v, kernel_read (pollers u v) = None) → quiet N u.
Proof.
  intros Hw Hk. split; [|intros v; unfold IoUring.sched_next; simpl; unfold IoUring.poller_step; simpl; by rewrite Hk].
  intros w act Ha. unfold IoUring.sched_next. simpl. destruct (Nat.ltb_spec w N) as [Hlt|]; [|done].
  assert (He : sleeping u w → ∀ fs ret, IoUring.fev_poller_wait u w false fs ret = Disabled).
  { intros (_ & Hpc & Hev) fs ret. unfold IoUring.fev_poller_wait, IoUring.poller_step. rewrite Hpc. simpl.
    unfold UringWait.fev_poller_wait. by rewrite Hpc, Hev. }
  unfold IoUring.worker_step. destruct (Hw w Hlt) as [->|Hs]; [done|]. pose proof Hs as [Hin _].
  destruct (pcs (us u) w); try done; destruct sq_stealing, act as [| | | | | | |[] fs]; try done; simpl; by rewrite He.
Qed.

Lemma ex_uring_quiet ls :
  forallb (λ w, match pcs (us (ex_uring ls)) w with Done => true | _ => ex_sleeping (ex_uring ls) w end) [0; 1]%nat = true →
  (∀ v, kernel_read (pollers (ex_uring ls) v) = None) → quiet 2 (ex_uring ls).
Proof.
  intros H. apply sleeping_quiet. rewrite forallb_forall in H. intros w Hw. specialize (H w).
  assert (Hin : In w [0; 1]%nat) by (simpl; lia). specialize (H Hin).
  destruct (pcs (us (ex_uring ls)) w) eqn:E; try (by left); right; by apply ex_sleeping_ok.
Qed.

Lemma uring_sched_quiescence_witness :
  alive (us (ex_uring ex_uring_sleep)) ≡ₚ blocked (us (ex_uring ex_uring_sleep)) ∧
  (pcs (us (ex_uring ex_uring_sleep)) 0 = Done ∨
   sleeping (ex_uring ex_uring_sleep) 0 ∧ announced (pollers (ex_uring ex_uring_sleep) 0) = true).
Proof.
  destruct (uring_sched_quiescence 2 ex_queue ex_start (ex_uring ex_uring_sleep)) as (_ & H1 & H2);
    [lia|lia|apply ex_booted|apply ex_uring_reach; by vm_compute| |].
  - apply ex_uring_quiet; [by vm_compute|]. intros [|[|v]]; by vm_compute.
  - split; [exact H1|]. apply H2. lia.
Defined.

(** The last fiber exits while the other worker is on its way to sleep: it has looked at its ring and is not in [waiters]
    yet. *)
Definition ex_uring_hang : list ulabel :=
  ex_steps 0 1 ++ ex_steps 1 1 ++ ex_poll 1 1 ++ ex_steps 1 8 ++ ex_poll 1 1 ++
  [UWork 0 AExit] ++ ex_steps 0 2 ++ ex_poll 0 1 ++ ex_steps 0 16 ++ ex_poll 1 4.

(** [fev_sched_wake_all_workers] can miss a worker: there is a run of two workers in which the last fiber exits, the
    worker that ran it interrupts the other one and returns, and the other worker sleeps in io_uring_enter for ever, so
    [fev_sched_run] never returns. There is no fiber left whose requests could wake it up. *)
Theorem uring_sched_run_hangs :
  reach (IoUring.sched_next 2) (IoUring.start ex_start) (ex_uring ex_uring_hang) ∧
  alive (us (ex_uring ex_uring_hang)) = [] ∧ pcs (us (ex_uring ex_uring_hang)) 0 = Done ∧
  sleeping (ex_uring ex_uring_hang) 1 ∧
  ∀ l, IoUring.sched_next 2 (ex_uring ex_uring_hang) l = None.
Proof.
  split; [apply ex_uring_reach; by vm_compute|]. split; [by vm_compute|]. split; [by vm_compute|].
  split; [apply ex_sleeping_ok; by vm_compute|].
  assert (quiet 2 (ex_uring ex_uring_hang)) as [H1 H2].
  { apply ex_uring_quiet; [by vm_compute|]. intros [|[|v]]; by vm_compute. }
  intros [w act|v]; [|apply H2]. destruct (internal act) eqn:Ha; [by apply H1|].
  destruct act as [| | | | | | |[] fs]; try done. destruct w as [|[|w]]; by vm_compute.
Qed.
