(* ===== verification/UringInit.v ===== *)
(** Creation and destruction of the io_uring poller: [fev_poller_init_worker],
    [fev_poller_fini_worker], [fev_poller_init] and [fev_poller_fini] of
    [src/src/fev_poller_io_uring.c], as programs over the held resources of [Init]:
    the ring, its three mappings and the event descriptor of every worker, and the
    array [waiters]. *)

From S2P Require Import Prelude Init.

Local Open Scope Z_scope.

Definition fev_poller_init_worker (i : nat) : M Z :=
  TRY acquire (RRing i) UNDO release (RRing i);;
  TRY acquire (RSqRing i) UNDO release (RSqRing i);;
  TRY acquire (RCqRing i) UNDO release (RCqRing i);;
  TRY acquire (RSqes i) UNDO release (RSqes i);;
  acquire (REventFd i).

(** The event descriptor is not closed. *)
Definition fev_poller_fini_worker (i : nat) : M unit :=
  release (RSqes i);;; release (RCqRing i);;; release (RSqRing i);;; release (RRing i).

Definition fev_poller_init (num_workers : nat) : M Z :=
  e <- acquire_mem RWaiters;;
  if e =? 0 then
    (r <- each fev_poller_init_worker 0 num_workers;;
     if r.1 =? 0 then ret 0
     else down fev_poller_fini_worker r.2;;; release RWaiters;;; ret r.1)
  else ret e.

Definition fev_poller_fini (num_workers : nat) : M unit :=
  up fev_poller_fini_worker 0 num_workers;;; release RWaiters.

Definition rings (i : nat) : list res := [RSqes i; RCqRing i; RSqRing i; RRing i].
Definition event_fds (n : nat) : list res := block (λ i, [REventFd i]) 0 n.

(** Initialising one worker fails without leaving anything behind. *)
Lemma acquires_uring_worker i : acquires (fev_poller_init_worker i) (REventFd i :: rings i).
Proof.
  apply (acquires_guard _ _ _ [RRing i] [REventFd i; RSqes i; RCqRing i; RSqRing i]);
    [apply acquires_acquire|apply releases_release|].
  apply (acquires_guard _ _ _ [RSqRing i] [REventFd i; RSqes i; RCqRing i]);
    [apply acquires_acquire|apply releases_release|].
  apply (acquires_guard _ _ _ [RCqRing i] [REventFd i; RSqes i]);
    [apply acquires_acquire|apply releases_release|].
  apply (acquires_guard _ _ _ [RSqes i] [REventFd i]);
    [apply acquires_acquire|apply releases_release|apply acquires_acquire].
Qed.

Lemma releases_uring_worker i : releases (fev_poller_fini_worker i) (rings i).
Proof.
  apply (releases_seq _ _ [RSqes i]); [apply releases_release|].
  apply (releases_seq _ _ [RCqRing i]); [apply releases_release|].
  apply (releases_seq _ _ [RSqRing i]); apply releases_release.
Qed.

Lemma block_split n :
  block (λ i, REventFd i :: rings i) 0 n ≡ₚ block rings 0 n ++ event_fds n.
Proof.
  unfold event_fds, block. generalize 0%nat as i. induction n as [|n IH]; intros i; [done|].
  simpl. rewrite IH.
  apply (Permutation_middle (RSqes i :: RCqRing i :: RSqRing i :: RRing i :: concat (map rings (seq (S i) n)))).
Qed.

(** What remains of the rings and of [waiters] when the event descriptors are set aside. *)
Lemma uring_init_fini_leak n s :
  ∃ e s1, fev_poller_init n s = Some (e, s1) ∧
    ((e = 0 ∧ ∃ s2, fev_poller_fini n s1 = Some (tt, s2) ∧ rheld s2 ≡ₚ event_fds n ++ rheld s) ∨
     (e ≠ 0 ∧ ∃ m, rheld s1 ≡ₚ event_fds m ++ rheld s)).
Proof.
  unfold fev_poller_init, bind at 1.
  destruct (acquires_mem RWaiters s (rheld s) (Permutation_refl _)) as (e & s1 & -> & Hp1). simpl.
  destruct (Z.eqb_spec e 0) as [->|Hne].
  2: { exists e, s1. split; [done|]. right. split; [done|]. by exists 0%nat. }
  destruct (each_ok fev_poller_init_worker (λ i, REventFd i :: rings i) 0 n s1 _ acquires_uring_worker Hp1)
    as (e & m & s2 & E & Hp2 & Hm). unfold bind at 1. rewrite E. simpl.
  rewrite block_split in Hp2.
  destruct (Z.eqb_spec e 0) as [->|Hne].
  - rewrite Hm in Hp2 by done. exists 0, s2. split; [done|]. left. split; [done|].
    assert (rheld s2 ≡ₚ (block rings 0 n ++ [RWaiters]) ++ event_fds n ++ rheld s) as Hp.
    { rewrite Hp2, <- !app_assoc. f_equiv. simpl. by rewrite <- Permutation_middle. }
    refine (releases_seq _ _ _ _ _ (releases_release _) s2 _ Hp).
    apply releases_up, releases_uring_worker.
  - assert (rheld s2 ≡ₚ (block rings 0 m ++ [RWaiters]) ++ event_fds m ++ rheld s) as Hp.
    { rewrite Hp2, <- !app_assoc. f_equiv. simpl. by rewrite <- Permutation_middle. }
    destruct (releases_seq (down fev_poller_fini_worker m) (release RWaiters) _ _
                (releases_down _ _ m releases_uring_worker) (releases_release _) s2 _ Hp) as (s3 & E3 & Hp3).
    exists e, s3. split; [|eauto]. unfold bind in *. destruct (down _ m s2) as [[[] s2']|]; [|done].
    simpl in *. by rewrite E3.
Qed.
