(* ===== verification/Cpp.v ===== *)
(** The C++ interface: [src/include/fev/fev++.hpp].

    A function of the interface calls the C function and turns its result into a value or an exception. What the
    C function returns is an argument. The classes that own something (fibers, sockets and the other objects, which are
    held by a [unique_ptr]) are state machines over the objects that exist, so that moving and destroying them can be
    followed. *)

From S2P Require Import Prelude Time Init.

Local Open Scope Z_scope.

(** ** Exceptions *)

(** [Throw code]: [std::system_error] with this code; [Terminate]: [std::terminate]. *)
Inductive out (A : Type) := Val (a : A) | Throw (code : Z) | Terminate.
Arguments Val {A} a.
Arguments Throw {A} code.
Arguments Terminate {A}.

Definition throw_err {A} (err : Z) : out A := Throw (- err).
Definition throw_on_err (err : Z) : out unit := if negb (err =? 0) then throw_err err else Val tt.

(** ** Durations *)

(** [std::chrono::duration] with a signed 64-bit count of ticks of [num / den] seconds. *)
Record duration := mk_duration { count : Z; num : Z; den : Z }.

(** [duration_cast] to ticks of [1 / k] seconds: the ratio of the periods is reduced, the product is computed with 64
    bits ([None]: it overflows, which is undefined) and the quotient is truncated. *)
Definition duration_cast (k : Z) (d : duration) : option Z :=
  let g := Z.gcd (num d * k) (den d) in
  p ← clong (count d * (num d * k / g));
  Some (Z.quot p (den d / g)).

(** [time_t] and the representation of [seconds] have the same range, so nothing is thrown. *)
Definition duration_to_timespec (d : duration) : option timespec :=
  chrono_sec ← duration_cast 1 d;
  ns ← duration_cast FEV_NSECS_PER_SEC d;
  Some (mk_timespec chrono_sec (Z.rem ns FEV_NSECS_PER_SEC)).

(** ** Results *)

(** [mutex::try_lock_until], [mutex::try_lock_for], and the same for semaphores. *)
Definition try_lock_until (ret : Z) : out bool :=
  if ret =? 0 then Val true else if ret =? - ETIMEDOUT then Val false else throw_err ret.
Definition try_lock_for (ret : Z) : out bool :=
  if ret =? 0 then Val true else if ret =? - ETIMEDOUT then Val false else throw_err ret.
Definition sem_wait_until (ret : Z) : out bool :=
  if ret =? 0 then Val true else if ret =? - ETIMEDOUT then Val false else throw_err ret.
Definition sem_wait_for (ret : Z) : out bool :=
  if ret =? 0 then Val true else if ret =? - ETIMEDOUT then Val false else throw_err ret.

(** [socket::read], [try_read_until], [try_read_for], and the same for [write]. *)
Definition socket_read (ret : Z) : out Z := if ret <? 0 then throw_err (i32 ret) else Val ret.
Definition socket_try_read_until (ret : Z) : out Z := if ret <? 0 then throw_err (i32 ret) else Val ret.
Definition socket_try_read_for (ret : Z) : out Z := if ret <? 0 then throw_err (i32 ret) else Val ret.
Definition socket_write (ret : Z) : out Z := if ret <? 0 then throw_err (i32 ret) else Val ret.
Definition socket_try_write_until (ret : Z) : out Z := if ret <? 0 then throw_err (i32 ret) else Val ret.
Definition socket_try_write_for (ret : Z) : out Z := if ret <? 0 then throw_err (i32 ret) else Val ret.

(** [sched::run], the setters of [fiber_attr], [socket::set_opt], [bind], [listen], [connect] and its variants: a result
    that is not 0 is thrown. *)
Definition sched_run (err : Z) : out unit := throw_on_err err.
Definition attr_set_stack (err : Z) : out unit := throw_on_err err.
Definition attr_set_stack_size (err : Z) : out unit := throw_on_err err.
Definition attr_set_guard_size (err : Z) : out unit := throw_on_err err.
Definition socket_set_opt (err : Z) : out unit := throw_on_err err.
Definition socket_bind (err : Z) : out unit := throw_on_err err.
Definition socket_listen (err : Z) : out unit := throw_on_err err.
Definition socket_connect (err : Z) : out unit := throw_on_err err.
Definition socket_try_connect_until (err : Z) : out unit := throw_on_err err.
Definition socket_try_connect_for (err : Z) : out unit := throw_on_err err.

(** ** Condition variables *)

Inductive cv_status := no_timeout | timeout.

#[export] Instance cv_status_eq_dec : EqDecision cv_status.
Proof. solve_decision. Defined.

Definition cv_wait_until (ret : Z) : out cv_status :=
  if (ret =? 0) || (ret =? - EAGAIN) then Val no_timeout
  else if ret =? - ETIMEDOUT then Val timeout
  else throw_err ret.
Definition cv_wait_for (ret : Z) : out cv_status :=
  if (ret =? 0) || (ret =? - EAGAIN) then Val no_timeout
  else if ret =? - ETIMEDOUT then Val timeout
  else throw_err ret.

(** [wait(lock, pred)]: [preds] are the values of the predicate; the result is how often it waited, [None]: it still
    waits. *)
Fixpoint cv_wait_pred (preds : list bool) : option nat :=
  match preds with
  | [] => None
  | p :: preds => if p : bool then Some 0%nat else S <$> cv_wait_pred preds
  end.

(** [wait_until(lock, abs_time, pred)]: [rets] are the results of the waits. *)
Fixpoint cv_wait_until_pred (preds : list bool) (rets : list Z) : option (out bool) :=
  match preds with
  | [] => None
  | p :: preds =>
      if p : bool then Some (Val true)
      else
        match rets with
        | [] => None
        | ret :: rets =>
            match cv_wait_until ret with
            | Val timeout => Val <$> hd_error preds
            | Val no_timeout => cv_wait_until_pred preds rets
            | Throw e => Some (Throw e)
            | Terminate => Some Terminate
            end
        end
  end.

(** [wait_for(lock, rel_time, pred)] computes the deadline itself. *)
Definition cv_deadline (now rel_time : timespec) : option timespec :=
  nsum ← clong (tv_nsec now + tv_nsec rel_time);
  inc ← clong (tv_sec rel_time + Z.quot nsum 1000000000);
  sec ← clong (tv_sec now + inc);
  Some (mk_timespec sec (Z.rem nsum 1000000000)).

(** [clock]: the time [clock_gettime] gives, or its [errno]; [rets] are the results of the waits until a deadline. *)
Definition cv_wait_for_pred (clock : Z + timespec) (rel_time : timespec) (preds : list bool) (rets : timespec → list Z)
    : option (out bool) :=
  match clock with
  | inl errno => Some (throw_err (- errno))
  | inr now => abs_time ← cv_deadline now rel_time; cv_wait_until_pred preds (rets abs_time)
  end.

(** ** Functions that take a duration *)

(** [f] is what the variant with a [timespec] gives for the argument it gets. *)
Definition with_duration {A} (f : timespec → A) (d : duration) : option A := f <$> duration_to_timespec d.

Definition try_lock_for_duration (ret : timespec → Z) : duration → option (out bool) := with_duration (λ ts, try_lock_for (ret ts)).
Definition cv_wait_for_duration (ret : timespec → Z) : duration → option (out cv_status) := with_duration (λ ts, cv_wait_for (ret ts)).
Definition cv_wait_for_duration_pred (clock : Z + timespec) (preds : list bool) (rets : timespec → list Z) (d : duration)
    : option (out bool) :=
  ts ← duration_to_timespec d;
  cv_wait_for_pred clock ts preds rets.
Definition sem_wait_for_duration (ret : timespec → Z) : duration → option (out bool) := with_duration (λ ts, sem_wait_for (ret ts)).
Definition try_connect_for_duration (ret : timespec → Z) : duration → option (out unit) := with_duration (λ ts, socket_try_connect_for (ret ts)).
Definition try_read_for_duration (ret : timespec → Z) : duration → option (out Z) := with_duration (λ ts, socket_try_read_for (ret ts)).
Definition try_write_for_duration (ret : timespec → Z) : duration → option (out Z) := with_duration (λ ts, socket_try_write_for (ret ts)).

(** ** Objects that own something *)

Module Own.

(** The objects of a class, each with the pointer it holds ([None]: [nullptr]), and the things of the C library that are
    live. *)
Record st := mk_st { objs : gmap loc (option Z); live : gset Z }.

Definition set_obj (s : st) (o : loc) (p : option Z) : st := mk_st (<[o := p]> (objs s)) (live s).
Definition drop_obj (s : st) (o : loc) : st := mk_st (delete o (objs s)) (live s).

(** Each live thing is held by exactly one object. *)
Record owned (s : st) : Prop := {
  ow_unique o1 o2 f : objs s !! o1 = Some (Some f) → objs s !! o2 = Some (Some f) → o1 = o2;
  ow_live f : f ∈ live s ↔ ∃ o, objs s !! o = Some (Some f);
}.

Lemma owned_set s o : owned s → (∀ f, objs s !! o ≠ Some (Some f)) → owned (set_obj s o None).
Proof.
  intros [H1 H2] Hn. split; simpl.
  - intros o1 o2 f. rewrite !lookup_insert_Some. naive_solver.
  - intros f. rewrite H2. split; intros [x Hx]; exists x.
    + rewrite lookup_insert_ne; [done|]. intros <-. by apply (Hn f).
    + apply lookup_insert_Some in Hx as [[_ ?]|[_ ?]]; done.
Qed.

(** The content of an object moves to one that holds nothing. *)
Lemma owned_move s o other p :
  owned s → (∀ f, objs s !! o ≠ Some (Some f)) → objs s !! other = Some p → owned (set_obj (set_obj s o p) other None).
Proof.
  intros [H1 H2] Hn Hp. destruct (decide (o = other)) as [<-|Hne].
  { destruct p as [f|]; [by destruct (Hn f)|]. apply owned_set; [apply owned_set; [by split|done]|]. simpl. intros f. by rewrite lookup_insert_eq. }
  assert (Hl : ∀ x f, <[other := None]> (<[o := p]> (objs s)) !! x = Some (Some f) ↔
    x = o ∧ p = Some f ∨ x ≠ o ∧ x ≠ other ∧ objs s !! x = Some (Some f)).
  { intros x f. rewrite lookup_insert_Some, lookup_insert_Some. naive_solver. }
  split; simpl.
  - intros o1 o2 f. rewrite !Hl. intros [[-> ->]|(? & ? & E1)] [[-> ?]|(? & ? & E2)]; try done.
    + destruct (H1 other o2 f); congruence.
    + subst p. destruct (H1 other o1 f); congruence.
    + by apply (H1 o1 o2 f).
  - intros f. rewrite H2. split; intros [x Hx].
    + destruct (decide (x = other)) as [->|]; [exists o; apply Hl; left; split; congruence|].
      exists x. apply Hl. right. split_and!; [intros ->; by apply (Hn f)|done|done].
    + apply Hl in Hx as [[-> ->]|(_ & _ & Hx)]; eauto.
Qed.

Lemma owned_swap s o other p q :
  owned s → objs s !! o = Some p → objs s !! other = Some q → owned (set_obj (set_obj s o q) other p).
Proof.
  intros [H1 H2] Hp Hq. set (sw x := if decide (x = other) then o else if decide (x = o) then other else x).
  assert (Hl : ∀ x, <[other := p]> (<[o := q]> (objs s)) !! x = objs s !! sw x).
  { intros x. unfold sw. repeat case_decide; subst; rewrite ?lookup_insert_eq, ?lookup_insert_ne, ?lookup_insert_eq by done; done. }
  assert (Hs : ∀ x, sw (sw x) = x) by (intros x; unfold sw; repeat case_decide; congruence).
  split; simpl.
  - intros o1 o2 f. rewrite !Hl. intros E1 E2. rewrite <- (Hs o1), <- (Hs o2). f_equal. by eapply H1.
  - intros f. rewrite H2. split; intros [x Hx]; exists (sw x); [by rewrite Hl, Hs|by rewrite <- Hl].
Qed.

Lemma owned_new s o f :
  owned s → objs s !! o = None → f ∉ live s → owned (mk_st (<[o := Some f]> (objs s)) ({[f]} ∪ live s)).
Proof.
  intros [H1 H2] Ho Hf. assert (Hnf : ∀ x, objs s !! x ≠ Some (Some f)) by (intros x Hx; apply Hf, H2; eauto). split; simpl.
  - intros o1 o2 g. rewrite !lookup_insert_Some. naive_solver.
  - intros g. rewrite elem_of_union, elem_of_singleton, H2. split.
    + intros [->|[x Hx]]; [exists o; apply lookup_insert_eq|]. exists x. rewrite lookup_insert_ne; [done|congruence].
    + intros [x Hx]. apply lookup_insert_Some in Hx as [[_ ?]|[_ ?]]; [left; congruence|right; eauto].
Qed.

(** A fiber that is joined or detached leaves its object. *)
Lemma owned_consume s o f :
  owned s → objs s !! o = Some (Some f) → owned (mk_st (<[o := None]> (objs s)) (live s ∖ {[f]})).
Proof.
  intros [H1 H2] Ho. split; simpl.
  - intros o1 o2 g. rewrite !lookup_insert_Some. naive_solver.
  - intros g. rewrite elem_of_difference, elem_of_singleton, H2. split.
    + intros [[x Hx] Hne]. exists x. rewrite lookup_insert_ne; [done|congruence].
    + intros [x Hx]. apply lookup_insert_Some in Hx as [[_ ?]|[Hne Hx]]; [done|]. split; [eauto|]. intros ->. apply Hne. by eapply H1.
Qed.

Lemma owned_drop s o : owned s → (∀ f, objs s !! o ≠ Some (Some f)) → owned (drop_obj s o).
Proof.
  intros [H1 H2] Hn. split; simpl.
  - intros o1 o2 f [_ E1]%lookup_delete_Some [_ E2]%lookup_delete_Some. by eapply H1.
  - intros f. rewrite H2. split; intros [x Hx]; exists x.
    + rewrite lookup_delete_ne; [done|]. intros <-. by apply (Hn f).
    + by apply lookup_delete_Some in Hx as [_ ?].
Qed.

Lemma owned_empty : owned (mk_st ∅ ∅).
Proof.
  split; simpl; [intros o1 o2 f; by rewrite lookup_empty|]. intros f. split; [set_solver|intros [o Ho]; by rewrite lookup_empty in Ho].
Qed.

(** Without objects nothing is live. *)
Lemma owned_none s : owned s → objs s = ∅ → live s = ∅.
Proof.
  intros [_ H] He. apply set_eq. intros f. rewrite H. split; [intros [o Ho]; rewrite He, lookup_empty in Ho; done|set_solver].
Qed.

Lemma not_held s o p : objs s !! o = Some p → p = None → ∀ f, objs s !! o ≠ Some (Some f).
Proof. congruence. Qed.
End Own.

(** ** Fibers *)

(** The arguments of a fiber: allocated, given to the fiber when it could be created, freed otherwise; [create] is
    [fev_fiber_create] or [fev_fiber_spawn]. The fiber frees them when its function returns. *)
Definition create_impl (create : M Z) : M Z :=
  e <- acquire_mem RArgs;;
  if e =? 0 then (e <- create;; if e =? 0 then ret 0 else release RArgs;;; ret e) else ret e.
Definition spawn_impl (create : M Z) : M Z :=
  e <- acquire_mem RArgs;;
  if e =? 0 then (e <- create;; if e =? 0 then ret 0 else release RArgs;;; ret e) else ret e.
Definition proxy : M unit := release RArgs.

Module FiberObj.

(** The objects of the class [fiber]; the fibers of the C library that are [live] may be joined: they have been created joinable
    and neither joined nor detached. *)
Import Own.

(** How an operation ends; [None] is undefined behaviour: a C function called with a fiber that may not be joined, or an
    object that does not exist. *)
Abbreviation result := (option (st * out unit)).

(** [fiber()]. *)
Definition ctor_default (s : st) (o : loc) : result := Some (set_obj s o None, Val tt).

(** [fiber(func, args...)] and the variants: [err] and [f] are what [fev_fiber_create] returns; the object exists only if nothing is
    thrown. *)
Definition ctor_create (s : st) (o : loc) (err f : Z) (detached : bool) : result :=
  if negb (err =? 0) then Some (s, throw_err err)
  else Some (if detached then (set_obj s o None, Val tt) else (mk_st (<[o := Some f]> (objs s)) ({[f]} ∪ live s), Val tt)).

(** [fiber(fiber &&other)]. *)
Definition ctor_move (s : st) (o other : loc) : result :=
  p ← objs s !! other;
  Some (set_obj (set_obj s o p) other None, Val tt).

Definition joinable (p : option Z) : bool := match p with Some _ => true | None => false end.

(** [operator=(fiber &&other)]. *)
Definition assign_move (s : st) (o other : loc) : result :=
  q ← objs s !! o;
  if joinable q then Some (s, Terminate)
  else
    p ← objs s !! other;
    Some (set_obj (set_obj s o p) other None, Val tt).

(** The destructor. *)
Definition dtor (s : st) (o : loc) : result :=
  q ← objs s !! o;
  if joinable q then Some (s, Terminate) else Some (drop_obj s o, Val tt).

(** [fev_fiber_join], [fev_fiber_detach]: [ret] is the result; the fiber must be one that can still be joined. *)
Definition consume (s : st) (f ret : Z) : option (Z * st) :=
  if decide (f ∈ live s) then Some (ret, if ret =? 0 then mk_st (objs s) (live s ∖ {[f]}) else s) else None.

Definition join (s : st) (o : loc) (ret : Z) : result :=
  p ← objs s !! o;
  '(err, s) ← match p with Some f => consume s f ret | None => Some (- EINVAL, s) end;
  match throw_on_err err with
  | Val _ => Some (set_obj s o None, Val tt)
  | e => Some (s, e)
  end.

Definition detach (s : st) (o : loc) (ret : Z) : result :=
  p ← objs s !! o;
  '(err, s) ← match p with Some f => consume s f ret | None => Some (- EINVAL, s) end;
  match throw_on_err err with
  | Val _ => Some (set_obj s o None, Val tt)
  | e => Some (s, e)
  end.

Definition swap (s : st) (o other : loc) : result :=
  p ← objs s !! o;
  q ← objs s !! other;
  Some (set_obj (set_obj s o q) other p, Val tt).

Inductive op :=
| CtorDefault (o : loc) | CtorCreate (o : loc) (err f : Z) (detached : bool) | CtorMove (o other : loc)
| AssignMove (o other : loc) | Dtor (o : loc) | Join (o : loc) (ret : Z) | Detach (o : loc) (ret : Z) | Swap (o other : loc).

Definition exec (s : st) (a : op) : result :=
  match a with
  | CtorDefault o => ctor_default s o
  | CtorCreate o err f d => ctor_create s o err f d
  | CtorMove o x => ctor_move s o x
  | AssignMove o x => assign_move s o x
  | Dtor o => dtor s o
  | Join o r => join s o r
  | Detach o r => detach s o r
  | Swap o x => swap s o x
  end.

(** What the language and the C library guarantee: an object is created at an address where there is none and used while
    it exists, and a new fiber is not one that can still be joined. *)
Definition legal (s : st) (a : op) : Prop :=
  match a with
  | CtorDefault o => objs s !! o = None
  | CtorCreate o err f d => objs s !! o = None ∧ (err = 0 → d = false → f ∉ live s)
  | CtorMove o x => objs s !! o = None ∧ is_Some (objs s !! x)
  | AssignMove o x | Swap o x => is_Some (objs s !! o) ∧ is_Some (objs s !! x)
  | Dtor o | Join o _ | Detach o _ => is_Some (objs s !! o)
  end.

(** A program stops at [std::terminate]. *)
Inductive runs (s0 : st) : st → Prop :=
| runs_nil : runs s0 s0
| runs_op s a s' r : runs s0 s → legal s a → exec s a = Some (s', r) → r ≠ Terminate → runs s0 s'.

Lemma join_ok s o ret : owned s → is_Some (objs s !! o) → ∃ s' r, join s o ret = Some (s', r) ∧ owned s'.
Proof.
  intros Ho [p Hp]. unfold join. rewrite Hp. cbn [mbind option_bind]. destruct p as [f|].
  - unfold consume. rewrite decide_True by (apply Ho; eauto). cbn [mbind option_bind]. unfold throw_on_err.
    destruct (Z.eqb_spec ret 0) as [->|Hr]; cbn [negb]; eexists _, _; (split; [done|]); [exact (owned_consume s o f Ho Hp)|done].
  - eexists _, _. split; [done|]. done.
Qed.

Lemma detach_is_join s o ret : detach s o ret = join s o ret.
Proof. done. Qed.

Lemma not_joinable s o p : objs s !! o = Some p → joinable p = false → ∀ f, objs s !! o ≠ Some (Some f).
Proof. intros Hp Hj f E. rewrite Hp in E. by injection E as ->. Qed.

Lemma fiber_exec_ok s a : owned s → legal s a → ∃ s' r, exec s a = Some (s', r) ∧ owned s'.
Proof.
  intros Ho Hl. destruct a as [o|o err f d|o x|o x|o|o r|o r|o x]; cbn [exec legal] in *.
  - eexists _, _. split; [done|]. apply owned_set; [done|]. by rewrite Hl.
  - destruct Hl as [Hn Hf]. unfold ctor_create. destruct (Z.eqb_spec err 0) as [->|He]; cbn [negb]; [|by eexists _, _].
    destruct d; eexists _, _; (split; [done|]); [apply owned_set; [done|by rewrite Hn]|apply owned_new; auto].
  - destruct Hl as [Hn [p Hp]]. unfold ctor_move. rewrite Hp. eexists _, _. split; [done|]. apply owned_move; [done|by rewrite Hn|done].
  - destruct Hl as [[q Hq] [p Hp]]. unfold assign_move. rewrite Hq. cbn [mbind option_bind]. destruct (joinable q) eqn:Ej; [by eexists _, _|].
    rewrite Hp. eexists _, _. split; [done|]. apply owned_move; [done|by eapply not_joinable|done].
  - destruct Hl as [q Hq]. unfold dtor. rewrite Hq. cbn [mbind option_bind]. destruct (joinable q) eqn:Ej; [by eexists _, _|].
    eexists _, _. split; [done|]. apply owned_drop; [done|by eapply not_joinable].
  - by apply join_ok.
  - rewrite detach_is_join. by apply join_ok.
  - destruct Hl as [[p Hp] [q Hq]]. unfold swap. rewrite Hp. cbn [mbind option_bind]. rewrite Hq. eexists _, _. split; [done|]. by apply owned_swap.
Qed.

Lemma runs_owned s : runs (mk_st ∅ ∅) s → owned s.
Proof.
  induction 1 as [|s a s' r _ IH Hl E _].
  - apply owned_empty.
  - destruct (fiber_exec_ok s a IH Hl) as (s2 & r2 & E2 & Ho). congruence.
Qed.
End FiberObj.

(** ** Schedulers, attributes, mutexes, condition variables and semaphores *)

Module HandleObj.

(** The objects of one of the classes [sched_attr], [sched], [fiber_attr], [mutex], [condition_variable] and [semaphore], each of
    which is a [unique_ptr] to an object of the C library. *)
Import Own.

Abbreviation result := (option (st * out unit)).

(** The member function [create] and the constructor: [err] and [p] are what the C function gives. *)
Definition construct (s : st) (o : loc) (err p : Z) : result :=
  match throw_on_err err with
  | Val _ => Some (mk_st (<[o := Some p]> (objs s)) ({[p]} ∪ live s), Val tt)
  | e => Some (s, e)
  end.

Definition sched_attr_ctor := construct.
Definition sched_ctor := construct.
Definition fiber_attr_ctor := construct.
Definition mutex_ctor := construct.
Definition condition_variable_ctor := construct.
Definition semaphore_ctor := construct.

(** The C function that destroys, for an object that is live. *)
Definition destroy (s : st) (p : Z) : option st :=
  if decide (p ∈ live s) then Some (mk_st (objs s) (live s ∖ {[p]})) else None.

(** What [unique_ptr] does when it is moved, assigned to and destroyed. *)
Definition ctor_move (s : st) (o other : loc) : result :=
  p ← objs s !! other;
  Some (set_obj (set_obj s o p) other None, Val tt).

Definition assign_move (s : st) (o other : loc) : result :=
  q ← objs s !! o;
  p ← objs s !! other;
  if decide (o = other) then Some (s, Val tt)
  else
    s ← match q with Some x => destroy s x | None => Some s end;
    Some (set_obj (set_obj s o p) other None, Val tt).

Definition dtor (s : st) (o : loc) : result :=
  q ← objs s !! o;
  s ← match q with Some x => destroy s x | None => Some s end;
  Some (drop_obj s o, Val tt).

Inductive op := Ctor (o : loc) (err p : Z) | CtorMove (o other : loc) | AssignMove (o other : loc) | Dtor (o : loc).

Definition exec (s : st) (a : op) : result :=
  match a with
  | Ctor o err p => construct s o err p
  | CtorMove o x => ctor_move s o x
  | AssignMove o x => assign_move s o x
  | Dtor o => dtor s o
  end.

Definition legal (s : st) (a : op) : Prop :=
  match a with
  | Ctor o err p => objs s !! o = None ∧ (err = 0 → p ∉ live s)
  | CtorMove o x => objs s !! o = None ∧ is_Some (objs s !! x)
  | AssignMove o x => is_Some (objs s !! o) ∧ is_Some (objs s !! x)
  | Dtor o => is_Some (objs s !! o)
  end.

Inductive runs (s0 : st) : st → Prop :=
| runs_nil : runs s0 s0
| runs_op s a s' r : runs s0 s → legal s a → exec s a = Some (s', r) → runs s0 s'.

(** Destroying what an object holds. *)
Lemma destroy_held s o q :
  owned s → objs s !! o = Some q →
  ∃ s', match q with Some x => destroy s x | None => Some s end = Some s' ∧ owned (set_obj s' o None) ∧
        (∀ o', objs s' !! o' = objs s !! o').
Proof.
  intros Ho Hq. destruct q as [x|].
  - unfold destroy. rewrite decide_True by (apply Ho; eauto). eexists. split; [done|]. split; [exact (owned_consume s o x Ho Hq)|done].
  - exists s. split; [done|]. split; [apply owned_set; [done|by rewrite Hq]|done].
Qed.

Lemma handle_exec_ok s a : owned s → legal s a → ∃ s' r, exec s a = Some (s', r) ∧ owned s'.
Proof.
  intros Ho Hl. destruct a as [o err p|o x|o x|o]; cbn [exec legal] in *.
  - destruct Hl as [Hn Hf]. unfold construct, throw_on_err. destruct (Z.eqb_spec err 0) as [->|He]; cbn [negb]; [|by eexists _, _].
    eexists _, _. split; [done|]. apply owned_new; auto.
  - destruct Hl as [Hn [p Hp]]. unfold ctor_move. rewrite Hp. eexists _, _. split; [done|]. apply owned_move; [done|by rewrite Hn|done].
  - destruct Hl as [[q Hq] [p Hp]]. unfold assign_move. rewrite Hq. cbn [mbind option_bind]. rewrite Hp. cbn [mbind option_bind].
    destruct (decide (o = x)) as [->|Hne]; [by eexists _, _|]. destruct (destroy_held s o q Ho Hq) as (s' & -> & Ho' & Hs').
    cbn [mbind option_bind]. eexists _, _. split; [done|].
    assert (E : set_obj (set_obj s' o p) x None = set_obj (set_obj (set_obj s' o None) o p) x None).
    { unfold set_obj. cbn [objs live]. by rewrite insert_insert_eq. }
    rewrite E. apply owned_move; [done| |].
    + cbn. rewrite lookup_insert_eq. congruence.
    + cbn. rewrite lookup_insert_ne by done. by rewrite Hs'.
  - destruct Hl as [q Hq]. unfold dtor. rewrite Hq. cbn [mbind option_bind]. destruct (destroy_held s o q Ho Hq) as (s' & -> & Ho' & Hs').
    cbn [mbind option_bind]. eexists _, _. split; [done|].
    assert (E : drop_obj s' o = drop_obj (set_obj s' o None) o). { unfold drop_obj, set_obj. cbn [objs live]. by rewrite delete_insert_eq. }
    rewrite E. apply owned_drop; [done|]. cbn. rewrite lookup_insert_eq. congruence.
Qed.

Lemma handle_runs_owned s : runs (mk_st ∅ ∅) s → owned s.
Proof.
  induction 1 as [|s a s' r _ IH Hl E]; [apply owned_empty|].
  destruct (handle_exec_ok s a IH Hl) as (s2 & r2 & E2 & Ho). congruence.
Qed.
End HandleObj.

(** ** Sockets *)

Module SocketObj.
Import Own.

(** The objects of the class [socket] and the live sockets of the C library; the descriptor of each; the descriptors that are open. *)
Record sst := mk_sst { own : st; fd_of : gmap Z Z; open_fds : gset Z }.

Abbreviation result := (option (sst * out unit)).

(** [fev_socket_close] and [fev_socket_destroy] for a live socket. *)
Definition c_close (s : sst) (p err : Z) : option (Z * sst) :=
  fd ← fd_of s !! p;
  if fd =? -1 then Some (0, s)
  else if err <? 0 then Some (err, s)
  else Some (0, mk_sst (own s) (<[p := -1]> (fd_of s)) (open_fds s ∖ {[fd]})).

Definition c_destroy (s : sst) (p : Z) : option sst :=
  _ ← fd_of s !! p;
  Some (mk_sst (mk_st (objs (own s)) (live (own s) ∖ {[p]})) (delete p (fd_of s)) (open_fds s)).

Definition with_own (s : sst) (x : st) : sst := mk_sst x (fd_of s) (open_fds s).

(** [socket()]: [p] is the new socket, 0 if [fev_socket_create] failed with [-ENOMEM]. *)
Definition ctor (s : sst) (o : loc) (p : Z) : result :=
  if p =? 0 then Some (s, throw_err (- ENOMEM))
  else Some (mk_sst (mk_st (<[o := Some p]> (objs (own s))) ({[p]} ∪ live (own s))) (<[p := -1]> (fd_of s)) (open_fds s), Val tt).

Definition ctor_move (s : sst) (o other : loc) : result :=
  p ← objs (own s) !! other;
  Some (with_own s (set_obj (set_obj (own s) o p) other None), Val tt).

(** [operator=(socket &&) = default]: the [unique_ptr] destroys what it held. *)
Definition assign_move (s : sst) (o other : loc) : result :=
  q ← objs (own s) !! o;
  p ← objs (own s) !! other;
  if decide (o = other) then Some (s, Val tt)
  else
    s ← match q with Some x => c_destroy s x | None => Some s end;
    Some (with_own s (set_obj (set_obj (own s) o p) other None), Val tt).

(** [open], [close]: [r] is what the C function returns, for [open] the descriptor if it is not negative. *)
Definition open (s : sst) (o : loc) (r : Z) : result :=
  q ← objs (own s) !! o;
  x ← q;
  _ ← fd_of s !! x;
  if r <? 0 then Some (s, throw_err r)
  else Some (mk_sst (own s) (<[x := r]> (fd_of s)) ({[r]} ∪ open_fds s), Val tt).

Definition close (s : sst) (o : loc) (err : Z) : result :=
  q ← objs (own s) !! o;
  x ← q;
  '(e, s) ← c_close s x err;
  Some (s, throw_on_err e).

(** The destructor closes the socket, then the [unique_ptr] destroys it. *)
Definition dtor (s : sst) (o : loc) (err : Z) : result :=
  q ← objs (own s) !! o;
  match q with
  | None => Some (with_own s (drop_obj (own s) o), Val tt)
  | Some x =>
      '(e, s) ← c_close s x err;
      if negb (e =? 0) then Some (s, Terminate)
      else s ← c_destroy s x; Some (with_own s (drop_obj (own s) o), Val tt)
  end.

(** [accept]: a new object, whose destructor runs if an exception is thrown. [r]: the new descriptor, or an error. *)
Definition accept (s : sst) (o : loc) (p r : Z) : result :=
  '(s, e) ← ctor s o p;
  match e with
  | Val _ => if r <? 0 then ('(s, e) ← dtor s o 0; Some (s, match e with Val _ => throw_err r | _ => Terminate end)) else open s o r
  | e => Some (s, e)
  end.

(** [try_accept_until] and [try_accept_for], which differ in the C function they call. *)
Definition try_accept_until := accept.
Definition try_accept_for := accept.

(** [try_accept_for] with a duration: nothing has been created yet when it is converted. *)
Definition try_accept_for_duration (s : sst) (o : loc) (p : Z) (r : timespec → Z) (d : duration) : result :=
  ts ← duration_to_timespec d;
  try_accept_for s o p (r ts).

Inductive op :=
| Ctor (o : loc) (p : Z) | CtorMove (o other : loc) | AssignMove (o other : loc) | Dtor (o : loc) (err : Z)
| Open (o : loc) (r : Z) | Close (o : loc) (err : Z) | Accept (o : loc) (p r : Z).

Definition exec (s : sst) (a : op) : result :=
  match a with
  | Ctor o p => ctor s o p
  | CtorMove o x => ctor_move s o x
  | AssignMove o x => assign_move s o x
  | Dtor o e => dtor s o e
  | Open o r => open s o r
  | Close o e => close s o e
  | Accept o p r => accept s o p r
  end.

(** The object holds a socket, which is not open. *)
Definition closed (s : sst) (o : loc) : Prop := ∃ x, objs (own s) !! o = Some (Some x) ∧ fd_of s !! x = Some (-1).

(** Objects are created where there is none, moved-from sockets are only destroyed or assigned to, new sockets and descriptors are new,
    and a socket is closed before another one is opened or assigned to it. *)
Definition legal (s : sst) (a : op) : Prop :=
  match a with
  | Ctor o p => objs (own s) !! o = None ∧ p ∉ live (own s)
  | CtorMove o x => objs (own s) !! o = None ∧ is_Some (objs (own s) !! x)
  | AssignMove o x => (objs (own s) !! o = Some None ∨ closed s o) ∧ is_Some (objs (own s) !! x)
  | Dtor o _ => is_Some (objs (own s) !! o)
  | Open o r => closed s o ∧ r ∉ open_fds s
  | Close o _ => ∃ x, objs (own s) !! o = Some (Some x)
  | Accept o p r => objs (own s) !! o = None ∧ p ∉ live (own s) ∧ r ∉ open_fds s
  end.

Inductive runs (s0 : sst) : sst → Prop :=
| runs_nil : runs s0 s0
| runs_op s a s' r : runs s0 s → legal s a → exec s a = Some (s', r) → r ≠ Terminate → runs s0 s'.

(** Each open descriptor belongs to one socket. *)
Record fds_ok (m : gmap Z Z) (open : gset Z) : Prop := {
  fo_open fd : fd ∈ open ↔ fd ≠ -1 ∧ ∃ p, m !! p = Some fd;
  fo_unique p q fd : m !! p = Some fd → m !! q = Some fd → fd ≠ -1 → p = q;
}.

(** Each socket belongs to one object. *)
Record ok (s : sst) : Prop := {
  ok_owned : owned (own s);
  ok_dom : dom (fd_of s) = live (own s);
  ok_fds : fds_ok (fd_of s) (open_fds s);
}.

Lemma fds_ok_close m open p fd : fds_ok m open → m !! p = Some fd → fd ≠ -1 → fds_ok (<[p := -1]> m) (open ∖ {[fd]}).
Proof.
  intros [H1 H2] Hp Hf. split.
  - intros x. rewrite elem_of_difference, elem_of_singleton, H1. split.
    + intros [[Hx [q Hq]] Hne]. split; [done|]. exists q. rewrite lookup_insert_ne; [done|]. congruence.
    + intros [Hx [q Hq]]. apply lookup_insert_Some in Hq as [[_ ?]|[Hne Hq]]; [congruence|]. split; [eauto|].
      intros ->. apply Hne. by eapply H2.
  - intros a b x Ha Hb Hx. apply lookup_insert_Some in Ha as [[_ ?]|[_ Ha]], Hb as [[_ ?]|[_ Hb]]; try congruence. by eapply H2.
Qed.

Lemma fds_ok_open m open p fd : fds_ok m open → m !! p = Some (-1) → fd ∉ open → 0 ≤ fd → fds_ok (<[p := fd]> m) ({[fd]} ∪ open).
Proof.
  intros [H1 H2] Hp Hf Hpos. assert (Hno : ∀ q, m !! q ≠ Some fd) by (intros q Hq; apply Hf, H1; split; [lia|eauto]). split.
  - intros x. rewrite elem_of_union, elem_of_singleton, H1. split.
    + intros [->|[Hx [q Hq]]]; [split; [lia|]; exists p; apply lookup_insert_eq|]. split; [done|]. exists q. rewrite lookup_insert_ne; congruence.
    + intros [Hx [q Hq]]. apply lookup_insert_Some in Hq as [[_ ?]|[_ Hq]]; [by left|right; eauto].
  - intros a b x Ha Hb Hx. apply lookup_insert_Some in Ha as [[<- <-]|[_ Ha]], Hb as [[<- ?]|[_ Hb]]; try done; [by destruct (Hno b)|subst; by destruct (Hno a)|by eapply H2].
Qed.

Lemma fds_ok_same m m' open :
  fds_ok m open → (∀ p fd, fd ≠ -1 → m' !! p = Some fd ↔ m !! p = Some fd) → fds_ok m' open.
Proof.
  intros [H1 H2] H. split.
  - intros fd. rewrite H1. split; intros [Hf [p Hp]]; (split; [done|]; exists p; by apply H).
  - intros p q fd Hp Hq Hf. apply H in Hp, Hq; [|done..]. by eapply H2.
Qed.

Lemma fds_ok_new m open p : fds_ok m open → m !! p = None → fds_ok (<[p := -1]> m) open.
Proof. intros H Hp. apply (fds_ok_same m); [done|]. intros q fd Hf. rewrite lookup_insert_Some. naive_solver. Qed.

Lemma fds_ok_delete m open p : fds_ok m open → m !! p = Some (-1) → fds_ok (delete p m) open.
Proof. intros H Hp. apply (fds_ok_same m); [done|]. intros q fd Hf. rewrite lookup_delete_Some. naive_solver. Qed.

Lemma held_fd s o x : ok s → objs (own s) !! o = Some (Some x) → ∃ fd, fd_of s !! x = Some fd.
Proof. intros [H1 H2 _] Ho. apply elem_of_dom. rewrite H2. apply H1. eauto. Qed.

Lemma close_ok s o x err :
  ok s → objs (own s) !! o = Some (Some x) →
  ∃ e s', c_close s x err = Some (e, s') ∧ ok s' ∧ own s' = own s ∧ (e = 0 → fd_of s' !! x = Some (-1)).
Proof.
  intros Hok Ho. destruct (held_fd s o x Hok Ho) as [fd Hfd]. unfold c_close. rewrite Hfd. cbn [mbind option_bind].
  destruct (Z.eqb_spec fd (-1)) as [->|Hf]; [by eexists _, s|]. destruct (Z.ltb_spec err 0); [eexists _, s; split_and!; [done..|lia]|].
  eexists _, _. split_and!; [done| |done|intros _; apply lookup_insert_eq]. destruct Hok as [A1 A2 A3].
  split; simpl; [done| |by apply fds_ok_close]. rewrite dom_insert_L, <- A2. apply elem_of_dom_2 in Hfd. set_solver.
Qed.

(** A closed socket is destroyed, and its object forgets it. *)
Lemma destroy_ok s o x :
  ok s → objs (own s) !! o = Some (Some x) → fd_of s !! x = Some (-1) →
  ∃ s', c_destroy s x = Some s' ∧ objs (own s') = objs (own s) ∧ ok (with_own s' (set_obj (own s') o None)).
Proof.
  intros [A1 A2 A3] Ho Hx. unfold c_destroy. rewrite Hx. eexists. split_and!; [done|done|].
  split; simpl; [exact (owned_consume _ _ _ A1 Ho)| |by apply fds_ok_delete]. by rewrite dom_delete_L, A2.
Qed.

Lemma ok_with_own s x : ok s → owned x → live x = live (own s) → ok (with_own s x).
Proof. intros [A1 A2 A3] Hx Hl. split; simpl; [done|by rewrite Hl|done]. Qed.

Lemma ctor_ok s o p :
  ok s → objs (own s) !! o = None → p ∉ live (own s) →
  ∃ s' r, ctor s o p = Some (s', r) ∧ ok s' ∧
    (∀ u, r = Val u → open_fds s' = open_fds s ∧ objs (own s') !! o = Some (Some p) ∧ fd_of s' !! p = Some (-1)).
Proof.
  intros [A1 A2 A3] Ho Hp. unfold ctor. destruct (p =? 0); [eexists _, _; split_and!; [done|done|done]|].
  eexists _, _. split_and!; [done| |intros u _; split_and!; [done|apply lookup_insert_eq|apply lookup_insert_eq]].
  split; simpl; [by apply owned_new|by rewrite dom_insert_L, A2|]. apply fds_ok_new; [done|]. apply not_elem_of_dom. by rewrite A2.
Qed.

Lemma dtor_ok s o err : ok s → is_Some (objs (own s) !! o) → ∃ s' r, dtor s o err = Some (s', r) ∧ ok s'.
Proof.
  intros Hok [q Hq]. unfold dtor. rewrite Hq. cbn [mbind option_bind]. destruct q as [x|].
  - destruct (close_ok s o x err Hok Hq) as (e & s1 & -> & Hok1 & Ho1 & Hcl). cbn [mbind option_bind].
    destruct (Z.eqb_spec e 0) as [->|]; cbn [negb]; [|by eexists _, _]. rewrite <- Ho1 in Hq.
    destruct (destroy_ok s1 o x Hok1 Hq (Hcl eq_refl)) as (s2 & -> & Ho2 & Hok2). cbn [mbind option_bind]. eexists _, _. split; [done|].
    replace (drop_obj (own s2) o) with (drop_obj (set_obj (own s2) o None) o) by (unfold drop_obj, set_obj; simpl; by rewrite delete_insert_eq).
    apply (ok_with_own _ _ Hok2); [|done]. apply owned_drop; [apply Hok2|]. simpl. intros f. by rewrite lookup_insert_eq.
  - eexists _, _. split; [done|]. apply ok_with_own; [done| |done]. apply owned_drop; [apply Hok|]. by rewrite Hq.
Qed.

Lemma open_ok s o r : ok s → closed s o → r ∉ open_fds s → ∃ s' e, open s o r = Some (s', e) ∧ ok s'.
Proof.
  intros [A1 A2 A3] (x & Ho & Hx) Hr. unfold open. rewrite Ho. cbn [mbind option_bind]. rewrite Hx. cbn [mbind option_bind].
  destruct (Z.ltb_spec r 0); eexists _, _; (split; [done|]); [by split|]. split; simpl; [done| |by apply fds_ok_open].
  rewrite dom_insert_L, <- A2. apply elem_of_dom_2 in Hx. set_solver.
Qed.

Lemma assign_ok s o other :
  ok s → objs (own s) !! o = Some None ∨ closed s o → is_Some (objs (own s) !! other) → ∃ s' r, assign_move s o other = Some (s', r) ∧ ok s'.
Proof.
  intros Hok Ho [p Hp]. unfold assign_move. destruct Ho as [Ho|(x & Ho & Hx)]; rewrite Ho; cbn [mbind option_bind]; rewrite Hp; cbn [mbind option_bind];
    (destruct (decide (o = other)) as [<-|Hne]; [by eexists _, _|]).
  - eexists _, _. split; [done|]. apply ok_with_own; [done| |done]. apply owned_move; [apply Hok|by rewrite Ho|done].
  - destruct (destroy_ok s o x Hok Ho Hx) as (s1 & -> & Ho1 & Hok1). cbn [mbind option_bind]. eexists _, _. split; [done|].
    replace (set_obj (set_obj (own s1) o p) other None) with (set_obj (set_obj (set_obj (own s1) o None) o p) other None)
      by (unfold set_obj; simpl; by rewrite insert_insert_eq).
    apply (ok_with_own _ _ Hok1); [|done]. apply owned_move; [apply Hok1| |]; simpl.
    + intros f. by rewrite lookup_insert_eq.
    + rewrite Ho1, lookup_insert_ne by done. exact Hp.
Qed.

Lemma socket_exec_ok s a : ok s → legal s a → ∃ s' r, exec s a = Some (s', r) ∧ ok s'.
Proof.
  intros Hok Hl. destruct a as [o p|o x|o x|o e|o r|o e|o p r]; cbn [exec legal] in *.
  - destruct Hl as [Ho Hp]. destruct (ctor_ok s o p Hok Ho Hp) as (s' & r & E & H & _). eauto.
  - destruct Hl as [Ho [p Hp]]. unfold ctor_move. rewrite Hp. eexists _, _. split; [done|]. apply ok_with_own; [done| |done].
    apply owned_move; [apply Hok|by rewrite Ho|done].
  - destruct Hl as [Ho Hx]. by apply assign_ok.
  - by apply dtor_ok.
  - destruct Hl as [Ho Hr]. by apply open_ok.
  - destruct Hl as [x Ho]. unfold close. rewrite Ho. cbn [mbind option_bind]. destruct (close_ok s o x e Hok Ho) as (e' & s' & -> & H & _).
    cbn [mbind option_bind]. eauto.
  - destruct Hl as (Ho & Hp & Hr). unfold accept. destruct (ctor_ok s o p Hok Ho Hp) as (s1 & r1 & -> & Hok1 & H1). cbn [mbind option_bind].
    destruct r1 as [u|c|]; [|by eexists _, _..]. destruct (H1 u eq_refl) as (Hop & Hob & Hfd). destruct (Z.ltb_spec r 0).
    + destruct (dtor_ok s1 o 0 Hok1) as (s2 & r2 & -> & Hok2); [eauto|]. cbn [mbind option_bind]. eauto.
    + apply open_ok; [done|by exists p|by rewrite Hop].
Qed.

Lemma runs_ok s : runs (mk_sst (mk_st ∅ ∅) ∅ ∅) s → ok s.
Proof.
  induction 1 as [|s a s' r _ IH Hl E _].
  - split; [apply owned_empty|done|]. split; simpl; [|intros p q fd; by rewrite lookup_empty]. intros fd.
    split; [set_solver|intros [_ [p Hp]]; by rewrite lookup_empty in Hp].
  - destruct (socket_exec_ok s a IH Hl) as (s2 & r2 & E2 & Ho). congruence.
Qed.
End SocketObj.

(** ** Properties *)


(** Assigning to a socket that is open loses its descriptor: the default assignment destroys the socket without closing it. *)
Lemma socket_assign_leaks :
  let run := foldl (λ s a, s ← s; fst <$> SocketObj.exec s a) (Some (SocketObj.mk_sst (Own.mk_st ∅ ∅) ∅ ∅)) in
  ∃ s, run [SocketObj.Ctor 1 10; SocketObj.Open 1 5; SocketObj.Ctor 2 20; SocketObj.AssignMove 1 2; SocketObj.Dtor 1 0; SocketObj.Dtor 2 0] = Some s ∧
    Own.objs (SocketObj.own s) = ∅ ∧ SocketObj.open_fds s = {[5]}.
Proof. eexists. split; [vm_compute; reflexivity|]. split; reflexivity. Qed.

(** The arguments of a fiber are freed exactly once: by the fiber if it could be created, by the creator otherwise. *)
Lemma fiber_args_balanced create : acquires create [] → acquires (create_impl create) [RArgs] ∧ releases proxy [RArgs].
Proof.
  intros Hc. split; [|apply releases_release].
  exact (acquires_guard (acquire_mem RArgs) (release RArgs) create [RArgs] [] (acquires_mem RArgs) (releases_release RArgs) Hc).
Qed.

(** *** Durations *)

Lemma duration_cast_floor k d :
  0 < k → 0 < num d → 0 < den d → 0 ≤ count d → count d * (num d * k / Z.gcd (num d * k) (den d)) < 2 ^ 63 →
  duration_cast k d = Some (count d * num d * k / den d).
Proof.
  intros Hk Hn Hd Hc Hlt. unfold duration_cast. set (g := Z.gcd (num d * k) (den d)) in *.
  assert (Hg : 0 < g). { pose proof (Z.gcd_nonneg (num d * k) (den d)). assert (g ≠ 0); [|unfold g in *; lia]. intros E. apply Z.gcd_eq_0_r in E. lia. }
  destruct (Z.gcd_divide_l (num d * k) (den d)) as [a Ha]. destruct (Z.gcd_divide_r (num d * k) (den d)) as [b Hb]. fold g in Ha, Hb.
  assert (Ea : num d * k / g = a) by (rewrite Ha; apply Z.div_mul; lia). assert (Eb : den d / g = b) by (rewrite Hb; apply Z.div_mul; lia).
  assert (0 < a) by nia. assert (0 < b) by nia. rewrite Ea in Hlt |- *. rewrite Eb. unfold clong.
  rewrite (proj2 (Z.leb_le _ _)), (proj2 (Z.ltb_lt _ _)) by nia. cbn [andb mbind option_bind]. f_equal.
  rewrite Z.quot_div_nonneg by nia. rewrite <- Z.mul_assoc, Ha, Hb, Z.mul_assoc. by rewrite Z.div_mul_cancel_r by lia.
Qed.

(** [duration_to_timespec] gives a valid time: the duration in nanoseconds, rounded down, for all durations that are not
    negative and can be counted in nanoseconds with 64 bits. *)
Theorem duration_exact d :
  0 < num d → 0 < den d → 0 ≤ count d →
  count d * (num d / Z.gcd (num d) (den d)) < 2 ^ 63 →
  count d * (num d * FEV_NSECS_PER_SEC / Z.gcd (num d * FEV_NSECS_PER_SEC) (den d)) < 2 ^ 63 →
  ∃ ts, duration_to_timespec d = Some ts ∧ ts_ns ts = count d * num d * FEV_NSECS_PER_SEC / den d ∧
        0 ≤ tv_nsec ts < FEV_NSECS_PER_SEC ∧ 0 ≤ tv_sec ts.
Proof.
  intros Hn Hd Hc H1 H2. unfold duration_to_timespec. rewrite (duration_cast_floor 1) by (rewrite ?Z.mul_1_r; done || lia).
  cbn [mbind option_bind]. rewrite (duration_cast_floor FEV_NSECS_PER_SEC) by (done || unfold FEV_NSECS_PER_SEC; lia). cbn [mbind option_bind].
  set (x := count d * num d). rewrite Z.mul_1_r. assert (0 ≤ x) by nia. assert (HF : 0 < FEV_NSECS_PER_SEC) by done.
  assert (Hpos : 0 ≤ x * FEV_NSECS_PER_SEC / den d) by (apply Z.div_pos; nia).
  eexists. split; [done|]. unfold ts_ns. cbn [tv_sec tv_nsec]. rewrite Z.rem_mod_nonneg by lia.
  assert (Hdiv : x / den d = x * FEV_NSECS_PER_SEC / den d / FEV_NSECS_PER_SEC).
  { rewrite Z.div_div by lia. by rewrite Z.div_mul_cancel_r by lia. }
  split_and!.
  - rewrite Hdiv, Z.mul_comm. symmetry. apply Z.div_mod. lia.
  - by apply Z.mod_pos_bound.
  - by apply Z.mod_pos_bound.
  - apply Z.div_pos; lia.
Qed.

Lemma duration_exact_witness : ∃ ts, duration_to_timespec (mk_duration 1500 1 1000) = Some ts ∧ ts_ns ts = 1500000000.
Proof.
  destruct (duration_exact (mk_duration 1500 1 1000)) as (ts & E & Hns & _); [reflexivity|reflexivity|vm_compute; discriminate|reflexivity|reflexivity|].
  exists ts. split; [exact E|]. rewrite Hns. reflexivity.
Defined.

(** A negative duration gives an invalid time, which the C functions do not accept. *)
Lemma negative_duration_invalid now :
  ∃ ts, duration_to_timespec (mk_duration (-1) 1 1000) = Some ts ∧ tv_nsec ts = -1000000 ∧ fev_get_abs_time_since_now now ts = None.
Proof. eexists. split; [vm_compute; reflexivity|]. done. Qed.

(** 292.5 years overflow, although their seconds do not. *)
Lemma long_duration_overflows : duration_to_timespec (mk_duration 2562048 3600 1) = None ∧ duration_cast 1 (mk_duration 2562048 3600 1) = Some 9223372800.
Proof. split; vm_compute; reflexivity. Qed.

(** The deadline of [wait_for] with a predicate is the one of [fev_cond_wait_for]. *)
Lemma cv_deadline_agrees now rel a : fev_get_abs_time_since_now now rel = Some a → cv_deadline now rel = Some a.
Proof.
  unfold fev_get_abs_time_since_now, cv_deadline. change FEV_NSECS_PER_SEC with 1000000000.
  destruct (fev_timespec_assert_valid rel); [|done]. destruct (clong (tv_nsec now + _)) as [n|]; [|done]. cbn [mbind option_bind].
  destruct (clong (tv_sec rel + _)) as [i|]; [|done]. cbn [mbind option_bind]. destruct (clong (tv_sec now + i)) as [x|]; [|done]. cbn [mbind option_bind].
  by destruct (fev_timespec_assert_valid _).
Qed.

(** *** Waiting for a predicate *)

(** [wait_until] with a predicate returns what the predicate gave last: true as soon as it is true, and false only after a
    time-out; an exception is an error of the C function. It returns when a predicate is true, a wait times out or fails. *)
Theorem cv_wait_until_result preds rets b :
  cv_wait_until_pred preds rets = Some (Val b) →
  ∃ i, preds !! i = Some b ∧ (∀ j, (j < i)%nat → preds !! j = Some false) ∧
       (b = false → ∃ j, S j = i ∧ rets !! j = Some (- ETIMEDOUT)).
Proof.
  revert rets. induction preds as [|p preds IH]; intros rets H; [done|]. cbn [cv_wait_until_pred] in H. destruct p.
  { simplify_eq. exists 0%nat. split_and!; [done|lia|done]. }
  destruct rets as [|ret rets]; [done|]. destruct (cv_wait_until ret) as [[]|c|] eqn:Ec; [| |done..].
  - destruct (IH rets H) as (i & Hi & Hj & Hb). exists (S i). split_and!; [done| |].
    + intros [|j] Hlt; [done|]. apply Hj. lia.
    + intros Hbf. destruct (Hb Hbf) as (j & <- & Hr). by exists (S j).
  - destruct preds as [|q preds]; [done|]. simplify_eq/=. exists 1%nat. split_and!; [done| |].
    + intros [|j] Hlt; [done|lia].
    + intros _. exists 0%nat. split; [done|]. simpl. f_equal. unfold cv_wait_until, throw_err in Ec.
      destruct ((ret =? 0) || (ret =? - EAGAIN)); [done|]. destruct (Z.eqb_spec ret (- ETIMEDOUT)); [done|done].
Qed.

Lemma cv_wait_until_result_witness : ∃ i, [false; false; true] !! i = Some true ∧ (∀ j, (j < i)%nat → [false; false; true] !! j = Some false).
Proof.
  destruct (cv_wait_until_result [false; false; true] [0; - EAGAIN] true eq_refl) as (i & H1 & H2 & _). exists i. split; [exact H1|exact H2].
Defined.
