(* ===== verification/Echo.v ===== *)
(** The echo servers: [src/examples/echo.c], [echo-timeout.c] and their C++ variants [echo++.cpp], [echo-timeout++.cpp].

    A fiber accepts connections and spawns a fiber for each, which sends back what it receives. The sockets are those of
    the file [Socket], on a heap; what the system calls and [fev_fiber_spawn] return are arguments. The messages that the
    programs print are kept with the error number they contain. *)

From S2P Require Import Prelude Socket Cpp.

Local Open Scope Z_scope.

(** ** Sockets on a heap *)

Record net := mk_net { socks : gmap Z fev_socket; fds : gset Z; interest : gmap Z Z; spawned : list Z }.

Definition put_sock (n : net) (a : Z) (s : fev_socket) (open : gset Z) : net :=
  mk_net (<[a := s]> (socks n)) open (interest n) (spawned n).

Section net.
Context (null : loc).

(** [p]: what the allocator returns, 0 if it fails. *)
Definition socket_create (n : net) (p : Z) : Z * net :=
  match fev_socket_create (negb (p =? 0)) null with
  | (ret, Some s) => (ret, put_sock n p s (fds n))
  | (ret, None) => (ret, n)
  end.

Definition socket_open (n : net) (a sock nb : Z) : option (Z * net) :=
  s ← socks n !! a;
  let '(ret, s, open) := fev_socket_open s (fds n) sock nb in
  Some (ret, put_sock n a s open).

Definition socket_close (n : net) (a c : Z) : option (Z * net) :=
  s ← socks n !! a;
  let '(ret, s, open, tbl) := fev_socket_close s (fds n) (interest n) c in
  Some (ret, mk_net (<[a := s]> (socks n)) open tbl (spawned n)).

Definition socket_destroy (n : net) (a : Z) : option net :=
  _ ← socks n !! a;
  Some (mk_net (delete a (socks n)) (fds n) (interest n) (spawned n)).

(** An accept that returns: [ret] is the new descriptor or an error. *)
Definition socket_accept (n : net) (a new ret : Z) : option (Z * net) :=
  _ ← socks n !! a;
  s ← socks n !! new;
  match accept_op ret with
  | Done r => Some (r, put_sock n new (mk_socket (read_end s) (write_end s) ret (error s)) ({[ret]} ∪ fds n))
  | Err e => Some (e, n)
  end.

(** ** The fiber of a connection *)

(** The messages, with the error number. *)
Inductive message :=
| ReadFailed (err : Z) | WriteFailed (err : Z)
| CreateFailed (err : Z) | OpenFailed (err : Z) | ReuseAddrFailed (err : Z) | BindFailed (err : Z) | ListenFailed (err : Z)
| CreateNewFailed (err : Z) | AcceptFailed (err : Z) | SpawnFailed (err : Z)
| Usage | ParsePortFailed | HostFailed | SchedFailed (err : Z) | SpawnMainFailed (err : Z) | RunFailed (err : Z).

Definition byte := Z.

(** What happens in one round: a read returns [num_read] and has put [data] at the start of the buffer; a write of what was
    read returns [num_written]. *)
Record round := mk_round { num_read : Z; data : list byte; num_written : Z }.

(** The buffer after a read. *)
Definition fill (buffer data : list byte) : list byte := data ++ drop (length data) buffer.

(** The loop of [echo]: the bytes that were sent and the messages; [None]: it still runs. *)
Fixpoint echo_loop (rs : list round) (buffer sent : list byte) : option (list byte * list message) :=
  match rs with
  | [] => None
  | r :: rs =>
      if num_read r <=? 0 then
        Some (sent, if num_read r <? 0 then [ReadFailed (i32 (- num_read r))] else [])
      else
        let buffer := fill buffer (data r) in
        let sent := sent ++ take (Z.to_nat (num_written r)) (take (Z.to_nat (num_read r)) buffer) in
        if negb (num_written r =? num_read r) then
          Some (sent, if num_written r <? 0 then [WriteFailed (i32 (- num_written r))] else [])
        else echo_loop rs buffer sent
  end.

(** [echo]: the socket is closed and destroyed at the end; [c]: what [close] returns. *)
Definition echo (n : net) (a : Z) (buffer : list byte) (rs : list round) (c : Z)
    : option (list byte * list message * net) :=
  '(sent, msgs) ← echo_loop rs buffer [];
  '(_, n) ← socket_close n a c;
  n ← socket_destroy n a;
  Some (sent, msgs, n).

(** The C++ variant: a short write is not noticed, and a negative result is thrown as an exception, which ends the fiber. *)
Fixpoint echo_cpp_loop (rs : list round) (buffer sent : list byte) : option (list byte * option Z) :=
  match rs with
  | [] => None
  | r :: rs =>
      match socket_read (num_read r) with
      | Val num_read =>
          if num_read =? 0 then Some (sent, None)
          else
            let buffer := fill buffer (data r) in
            let sent := sent ++ take (Z.to_nat (num_written r)) (take (Z.to_nat num_read) buffer) in
            match socket_write (num_written r) with
            | Val _ => echo_cpp_loop rs buffer sent
            | Throw code => Some (sent, Some code)
            | Terminate => Some (sent, None)
            end
      | Throw code => Some (sent, Some code)
      | Terminate => Some (sent, None)
      end
  end.

(** [echo-timeout.c] and [echo-timeout++.cpp] only differ in the function that reads: [num_read] is what [fev_socket_try_read_for]
    returns, which may be [-ETIMEDOUT]. *)
Definition echo_timeout := echo.
Definition echo_timeout_cpp_loop := echo_cpp_loop.

(** ** The acceptor *)

(** Where it is; [a] is the listening socket, [new] the one of the next connection. *)
Inductive apc :=
| ACreate | AOpen (a : Z) | AReuseAddr (a : Z) | ABind (a : Z) | AListen (a : Z)
| ACreateNew (a : Z) | AAccept (a new : Z) | ASpawn (a new : Z)
| AClose (a : Z) (msg : message) | ADestroy (a : Z) (msg : message) | AOut (msg : message).

Record server := mk_server { sn : net; spc : apc }.

(** A call of [acceptor]: [x] is what it returns (a descriptor or an address where there is one), [nb] what [fev_set_nonblock]
    returns. The result 0 of [fev_fiber_spawn] means that a fiber has the socket. A close of an open descriptor succeeds. *)
Definition acceptor (s : server) (x nb : Z) : option server :=
  let n := sn s in
  match spc s with
  | ACreate =>
      let '(ret, n) := socket_create n x in
      Some (mk_server n (if negb (ret =? 0) then AOut (CreateFailed (- ret)) else AOpen x))
  | AOpen a =>
      '(ret, n) ← socket_open n a x nb;
      Some (mk_server n (if negb (ret =? 0) then ADestroy a (OpenFailed (- ret)) else AReuseAddr a))
  | AReuseAddr a => Some (mk_server n (if negb (x =? 0) then AClose a (ReuseAddrFailed (- x)) else ABind a))
  | ABind a => Some (mk_server n (if negb (x =? 0) then AClose a (BindFailed (- x)) else AListen a))
  | AListen a => Some (mk_server n (if negb (x =? 0) then AClose a (ListenFailed (- x)) else ACreateNew a))
  | ACreateNew a =>
      let '(ret, n) := socket_create n x in
      Some (mk_server n (if negb (ret =? 0) then AClose a (CreateNewFailed (- ret)) else AAccept a x))
  | AAccept a new =>
      '(ret, n) ← socket_accept n a new x;
      if negb (ret =? 0) then
        n ← socket_destroy n new;
        Some (mk_server n (AClose a (AcceptFailed (- ret))))
      else Some (mk_server n (ASpawn a new))
  | ASpawn a new =>
      if negb (x =? 0) then
        n ← socket_destroy n new;
        Some (mk_server n (AClose a (SpawnFailed (- x))))
      else Some (mk_server (mk_net (socks n) (fds n) (interest n) (new :: spawned n)) (ACreateNew a))
  | AClose a msg => '(_, n) ← socket_close n a 0; Some (mk_server n (ADestroy a msg))
  | ADestroy a msg => n ← socket_destroy n a; Some (mk_server n (AOut msg))
  | AOut _ => None
  end.

Definition acceptor_timeout := acceptor.

(** The steps of the program: the acceptor goes on, or the fiber of a connection runs to its end. *)
Inductive label := LAcceptor (x nb : Z) | LEcho (a : Z) (buffer : list byte) (rs : list round).

(** New sockets and descriptors are not in use. *)
Definition fresh (s : server) (l : label) : bool :=
  match l with
  | LAcceptor x nb =>
      match spc s with
      | ACreate | ACreateNew _ => bool_decide (x ∉ dom (socks (sn s)))
      | AOpen _ | AAccept _ _ => bool_decide (x ∉ fds (sn s))
      | _ => true
      end
  | LEcho _ _ _ => true
  end.

Definition server_step (s : server) (l : label) : option server :=
  match l with
  | LAcceptor x nb => acceptor s x nb
  | LEcho a buffer rs =>
      '(_, _, n) ← echo (sn s) a buffer rs 0;
      Some (mk_server (mk_net (socks n) (fds n) (interest n) (filter (λ x, x ≠ a) (spawned n))) (spc s))
  end.

Definition server_next (s : server) (l : label) : option server :=
  if fresh s l && match l with LEcho a _ _ => bool_decide (a ∈ spawned (sn s)) | _ => true end then server_step s l else None.

Definition server_init : server := mk_server (mk_net ∅ ∅ ∅ []) ACreate.
End net.

(** ** What is echoed *)

(** A read fills at most the buffer; a write sends at most what it is given. *)
Definition round_ok (size : Z) (r : round) : Prop :=
  num_read r <= size ∧ (0 < num_read r → Z.of_nat (length (data r)) = num_read r) ∧ num_written r <= num_read r.

(** The bytes received before the end of the connection. *)
Fixpoint received (rs : list round) : list byte :=
  match rs with
  | [] => []
  | r :: rs => if num_read r <=? 0 then [] else data r ++ received rs
  end.

(** The rounds after which the loop ends. *)
Definition last_round (r : round) : bool := (num_read r <=? 0) || negb (num_written r =? num_read r).

Lemma take_fill buffer d : take (length d) (fill buffer d) = d.
Proof. unfold fill. by rewrite take_app_le, take_ge by done. Qed.

Lemma fill_data size buffer r : round_ok size r → 0 < num_read r → take (Z.to_nat (num_read r)) (fill buffer (data r)) = data r.
Proof. intros (_ & Hd & _) Hr. rewrite <- (Hd Hr), Nat2Z.id. apply take_fill. Qed.

Lemma echo_loop_sent size rs buffer sent :
  Forall (round_ok size) rs →
  match echo_loop rs buffer sent with
  | Some (out, msgs) =>
      ∃ l, out = sent ++ l ∧ l `prefix_of` received rs ∧
        ((∀ r, r ∈ rs → 0 < num_read r → num_written r = num_read r) → l = received rs) ∧
        Exists last_round rs
  | None => Forall (λ r, last_round r = false) rs
  end.
Proof.
  intros H. revert buffer sent. induction H as [|r rs Hr _ IH]; intros buffer sent; simpl; [done|].
  destruct (Z.leb_spec (num_read r) 0) as [Hle|Hgt].
  { exists []. rewrite app_nil_r. split; [done|]. split; [apply prefix_nil|]. split; [done|]. left. unfold last_round.
    by rewrite (proj2 (Z.leb_le _ _) Hle). }
  rewrite (fill_data size) by done. destruct (Z.eqb_spec (num_written r) (num_read r)) as [He|Hne]; simpl.
  - specialize (IH (fill buffer (data r)) (sent ++ take (Z.to_nat (num_written r)) (data r))).
    assert (Hd : take (Z.to_nat (num_written r)) (data r) = data r).
    { apply take_ge. destruct Hr as (_ & Hd & _). specialize (Hd Hgt). lia. }
    assert (Hlast : last_round r = false).
    { unfold last_round. by rewrite (proj2 (Z.leb_gt _ _) Hgt), (proj2 (Z.eqb_eq _ _) He). }
    rewrite Hd in IH |- *. destruct (echo_loop rs _ _) as [[out msgs]|].
    + destruct IH as (l & -> & Hp & Hall & Hex). exists (data r ++ l). split; [by rewrite app_assoc|].
      split; [by apply prefix_app|]. split; [|by right]. intros Hw. f_equal. apply Hall.
      intros r' Hin. apply Hw. by right.
    + by constructor.
  - exists (take (Z.to_nat (num_written r)) (data r)). split; [done|]. split.
    + apply prefix_app_r, prefix_take.
    + split; [intros Hw; destruct Hne; apply Hw; [by left|done]|]. left. unfold last_round.
      by rewrite (proj2 (Z.leb_gt _ _) Hgt), (proj2 (Z.eqb_neq _ _) Hne).
Qed.

(** ** What is left at the end *)

Import SocketObj (fds_ok, fds_ok_close, fds_ok_open, fds_ok_new, fds_ok_delete, fo_open).

(** The descriptors of the sockets. *)
Definition fdmap (n : net) : gmap Z Z := fd <$> socks n.

(** Every open descriptor belongs to one socket, except for those in [leak]. *)
Definition net_ok (leak : gset Z) (n : net) : Prop := leak ⊆ fds n ∧ fds_ok (fdmap n) (fds n ∖ leak).

Lemma fdmap_insert n a s open : fdmap (put_sock n a s open) = <[a := fd s]> (fdmap n).
Proof. unfold fdmap. simpl. by rewrite fmap_insert. Qed.

Lemma fdmap_lookup n a x : fdmap n !! a = Some x → ∃ s, socks n !! a = Some s ∧ fd s = x.
Proof. unfold fdmap. rewrite lookup_fmap. intros (s & Hs & ->)%fmap_Some. eauto. Qed.

Lemma fdmap_dom n : dom (fdmap n) = dom (socks n).
Proof. apply dom_fmap_L. Qed.

Lemma fdmap_is_Some n a : a ∈ dom (socks n) → ∃ x, fdmap n !! a = Some x.
Proof. rewrite <- fdmap_dom. by intros ?%elem_of_dom. Qed.

Section ok.
Context (null : loc).

Lemma socket_create_ok leak n p : net_ok leak n → p ∉ dom (socks n) →
  ∃ n', socket_create null n p = (if p =? 0 then - ENOMEM else 0, n') ∧ net_ok leak n' ∧ spawned n' = spawned n ∧
    fdmap n' = if p =? 0 then fdmap n else <[p := -1]> (fdmap n).
Proof.
  intros [Hl Hf] Hp. unfold socket_create, fev_socket_create. destruct (Z.eqb_spec p 0) as [->|Hne]; simpl; [by exists n|].
  eexists. split; [done|]. rewrite fdmap_insert. split_and!; [|done|done]. split; [done|]. rewrite fdmap_insert.
  simpl. apply fds_ok_new; [done|]. apply not_elem_of_dom. by rewrite fdmap_dom.
Qed.

(** A descriptor for a socket that has none. *)
Lemma open_net_ok leak n a s x : net_ok leak n → fdmap n !! a = Some (-1) → x ∉ fds n → 0 <= x → fd s = x →
  net_ok leak (put_sock n a s ({[x]} ∪ fds n)).
Proof.
  intros [Hl Hf] Ha Hx H0 Hs. split; simpl; [set_solver|]. rewrite fdmap_insert, Hs.
  replace (({[x]} ∪ fds n) ∖ leak) with ({[x]} ∪ (fds n ∖ leak)).
  - apply fds_ok_open; [done|done| |done]. set_solver.
  - apply set_eq. intros y. destruct (decide (y = x)); set_solver.
Qed.

Lemma socket_open_ok leak n a x nb : net_ok leak n → fdmap n !! a = Some (-1) → x ∉ fds n →
  ∃ ret n', socket_open n a x nb = Some (ret, n') ∧ net_ok leak n' ∧ spawned n' = spawned n ∧ dom (fdmap n') = dom (fdmap n) ∧
    (ret ≠ 0 → fdmap n' !! a = Some (-1)).
Proof.
  intros Hn Ha Hx. destruct (fdmap_lookup _ _ _ Ha) as (s & Hs & Hfd).
  assert (Hsame : ∀ open, open = fds n → net_ok leak (put_sock n a s open) ∧ fdmap (put_sock n a s open) = fdmap n).
  { intros open ->. assert (E : fdmap (put_sock n a s (fds n)) = fdmap n) by (by rewrite fdmap_insert, Hfd, insert_id).
    unfold net_ok. by rewrite E. }
  unfold socket_open, fev_socket_open. rewrite Hs. cbn [mbind option_bind].
  destruct (Z.ltb_spec x 0) as [Hlt|Hge].
  - destruct (Hsame (fds n) eq_refl) as [H1 H2]. eexists _, _. split; [done|]. rewrite H2. done.
  - destruct (Z.eqb_spec nb 0) as [->|Hnb].
    + eexists _, _. split; [done|]. split; [by apply open_net_ok|]. split; [done|]. rewrite fdmap_insert.
      split; [|done]. simpl. rewrite dom_insert_L. apply elem_of_dom_2 in Ha. set_solver.
    + destruct (Hsame (({[x]} ∪ fds n) ∖ {[x]})) as [H1 H2]; [set_solver|]. eexists _, _. split; [done|]. by rewrite H2.
Qed.

Lemma socket_close_ok leak n a : net_ok leak n → a ∈ dom (socks n) →
  ∃ n', socket_close n a 0 = Some (0, n') ∧ net_ok leak n' ∧ spawned n' = spawned n ∧ fdmap n' = <[a := -1]> (fdmap n).
Proof.
  intros [Hl Hf] Ha. destruct (fdmap_is_Some _ _ Ha) as [x Hx]. destruct (fdmap_lookup _ _ _ Hx) as (s & Hs & <-).
  unfold socket_close, fev_socket_close. rewrite Hs. cbn [mbind option_bind].
  assert (Hm : ∀ s' open tbl, fdmap (mk_net (<[a := s']> (socks n)) open tbl (spawned n)) = <[a := fd s']> (fdmap n))
    by (intros; unfold fdmap; simpl; apply fmap_insert).
  destruct (Z.eqb_spec (fd s) (-1)) as [He|Hne]; simpl; eexists; (split; [done|]); rewrite Hm; simpl; (split_and!; [|done|by rewrite ?He]).
  - split; [done|]. rewrite Hm. rewrite insert_id by done. done.
  - unfold net_ok. rewrite Hm. simpl.
    assert (Hin : fd s ∈ fds n ∖ leak) by (apply (fo_open _ _ Hf); eauto). split; [set_solver|].
    replace (fds n ∖ {[fd s]} ∖ leak) with ((fds n ∖ leak) ∖ {[fd s]}) by set_solver. by apply fds_ok_close.
Qed.

Lemma fdmap_delete n a : fdmap (mk_net (delete a (socks n)) (fds n) (interest n) (spawned n)) = delete a (fdmap n).
Proof. unfold fdmap. simpl. apply fmap_delete. Qed.

Lemma socket_destroy_ok leak n a : net_ok leak n → fdmap n !! a = Some (-1) →
  ∃ n', socket_destroy n a = Some n' ∧ net_ok leak n' ∧ spawned n' = spawned n ∧ fdmap n' = delete a (fdmap n) ∧ fds n' = fds n.
Proof.
  intros [Hl Hf] Ha. destruct (fdmap_lookup _ _ _ Ha) as (s & Hs & _). unfold socket_destroy. rewrite Hs. simpl.
  eexists. split; [done|]. split_and!; [|done|apply fdmap_delete|done]. split; [done|]. rewrite fdmap_delete. by apply fds_ok_delete.
Qed.

(** Destroying a socket that was not closed leaks its descriptor. *)
Lemma socket_destroy_leak leak n a x : net_ok leak n → fdmap n !! a = Some x → x ≠ -1 →
  ∃ n', socket_destroy n a = Some n' ∧ net_ok ({[x]} ∪ leak) n' ∧ spawned n' = spawned n ∧ fdmap n' = delete a (fdmap n).
Proof.
  intros [Hl Hf] Ha Hx. destruct (fdmap_lookup _ _ _ Ha) as (s & Hs & _). unfold socket_destroy. rewrite Hs. simpl.
  assert (Hin : x ∈ fds n ∖ leak) by (apply (fo_open _ _ Hf); eauto).
  eexists. split; [done|]. split_and!; [|done|apply fdmap_delete]. split; [set_solver|]. rewrite fdmap_delete. simpl.
  replace (fds n ∖ ({[x]} ∪ leak)) with ((fds n ∖ leak) ∖ {[x]}) by set_solver.
  rewrite <- (delete_insert_eq (fdmap n) a (-1)). apply fds_ok_delete; [by apply fds_ok_close|apply lookup_insert_eq].
Qed.

Lemma socket_accept_ok leak n a new x : net_ok leak n → a ∈ dom (socks n) → fdmap n !! new = Some (-1) → x ∉ fds n →
  ∃ ret n', socket_accept n a new x = Some (ret, n') ∧ net_ok leak n' ∧ spawned n' = spawned n ∧ dom (fdmap n') = dom (fdmap n) ∧
    fdmap n' !! new = Some (if ret =? 0 then x else -1) ∧ (ret = 0 → 0 <= x).
Proof.
  intros Hn [s0 Ha]%elem_of_dom Hnew Hx. destruct (fdmap_lookup _ _ _ Hnew) as (s & Hs & Hfd).
  unfold socket_accept, accept_op. rewrite Ha. cbn [mbind option_bind]. rewrite Hs. cbn [mbind option_bind].
  destruct (Z.leb_spec 0 x) as [Hge|Hlt].
  - eexists _, _. split; [done|]. split; [by apply open_net_ok|]. split; [done|]. rewrite fdmap_insert. simpl.
    split; [|split; [apply lookup_insert_eq|done]]. rewrite dom_insert_L. apply elem_of_dom_2 in Hnew. set_solver.
  - eexists _, _. split; [done|]. split; [done|]. split; [done|]. split; [done|].
    destruct (Z.eqb_spec x 0); [lia|]. split; [done|lia].
Qed.
End ok.

(** The sockets of the acceptor. *)
Definition mine (p : apc) : list Z :=
  match p with
  | ACreate | AOut _ => []
  | AOpen a | AReuseAddr a | ABind a | AListen a | ACreateNew a | AClose a _ | ADestroy a _ => [a]
  | AAccept a new | ASpawn a new => [a; new]
  end.

(** Those that are not open. *)
Definition closed (p : apc) : list Z :=
  match p with AOpen a | ADestroy a _ => [a] | AAccept _ new => [new] | _ => [] end.

Definition spawn_failed (p : apc) : bool :=
  match p with AClose _ (SpawnFailed _) | ADestroy _ (SpawnFailed _) | AOut (SpawnFailed _) => true | _ => false end.

Record server_ok (s : server) : Prop := {
  so_leak : ∃ leak, net_ok leak (sn s) ∧ (leak = ∅ ∨ spawn_failed (spc s) = true ∧ ∃ x, leak = {[x]});
  so_socks : ∀ a, a ∈ dom (fdmap (sn s)) ↔ a ∈ spawned (sn s) ++ mine (spc s);
  so_nodup : NoDup (spawned (sn s) ++ mine (spc s));
  so_closed : ∀ a, a ∈ closed (spc s) → fdmap (sn s) !! a = Some (-1);
  so_open : ∀ a new, spc s = ASpawn a new → ∃ x, fdmap (sn s) !! new = Some x ∧ x ≠ -1;
}.

Section server.
Context (null : loc).

Lemma mine_dom s a : server_ok s → a ∈ mine (spc s) → a ∈ dom (socks (sn s)).
Proof. intros Hs Ha. rewrite <- fdmap_dom. apply (so_socks _ Hs). set_solver. Qed.

(** A step that only changes where the acceptor is. *)
Lemma server_ok_pc s p :
  server_ok s → mine p = mine (spc s) → closed p ⊆ closed (spc s) → (∀ a new, p ≠ ASpawn a new) →
  spawn_failed p = spawn_failed (spc s) → server_ok (mk_server (sn s) p).
Proof.
  intros [(leak & Hn & Hl) H1 H2 H3 _] Hm Hc Hp Hf. split; simpl; rewrite ?Hm, ?Hf; try done; [by exists leak|set_solver|].
  intros a new E. by destruct (Hp a new).
Qed.

(** The state after a step, from what it does to the sockets of the acceptor. *)
Lemma server_ok_step s n' p leak :
  server_ok s → net_ok leak n' → (leak = ∅ ∨ spawn_failed p = true ∧ ∃ x, leak = {[x]}) →
  spawned n' = spawned (sn s) →
  (∀ a, a ∈ dom (fdmap n') ↔ (a ∈ spawned (sn s) ∨ a ∈ mine p)) →
  NoDup (spawned (sn s) ++ mine p) →
  (∀ a, a ∈ closed p → fdmap n' !! a = Some (-1)) →
  (∀ a new, p = ASpawn a new → ∃ x, fdmap n' !! new = Some x ∧ x ≠ -1) →
  server_ok (mk_server n' p).
Proof.
  intros Hs Hn Hl Hsp Hd Hnd Hc Ho. split; simpl; rewrite ?Hsp; try done; [by exists leak|].
  intros a. rewrite elem_of_app. apply Hd.
Qed.

Lemma no_leak s : server_ok s → spawn_failed (spc s) = false → net_ok ∅ (sn s).
Proof. intros [(leak & Hn & [->|[E _]]) _ _ _ _] Hf; [done|congruence]. Qed.

Lemma NoDup_drop (l1 l2 l3 : list Z) : l3 `sublist_of` l2 → NoDup (l1 ++ l2) → NoDup (l1 ++ l3).
Proof. intros Hs Hn. eapply sublist_NoDup; [exact Hn|]. by apply sublist_app. Qed.

Lemma elem_mine s a : server_ok s → a ∈ mine (spc s) → a ∉ spawned (sn s).
Proof. intros Hs Ha Hin. pose proof (so_nodup _ Hs) as Hn. apply NoDup_app in Hn as (_ & Hn & _). by destruct (Hn a). Qed.

(** [fev_socket_create] of a socket for the acceptor. *)
Lemma create_step s x a_list p0 p1 :
  server_ok s → mine (spc s) = a_list → spawn_failed (spc s) = false → x ∉ dom (socks (sn s)) →
  mine p0 = a_list → closed p0 = [] → (∀ a b, p0 ≠ ASpawn a b) → spawn_failed p0 = false →
  mine p1 = a_list ++ [x] → closed p1 = [x] → (∀ a b, p1 ≠ ASpawn a b) → spawn_failed p1 = false →
  ∃ n', socket_create null (sn s) x = (if x =? 0 then - ENOMEM else 0, n') ∧
        server_ok (mk_server n' (if x =? 0 then p0 else p1)).
Proof.
  intros Hs Hm Hf Hx M0 C0 S0 F0 M1 C1 S1 F1. destruct (socket_create_ok null ∅ (sn s) x (no_leak s Hs Hf) Hx) as (n' & E & Hn' & Hsp & Hm').
  exists n'. split; [done|]. pose proof (so_socks _ Hs) as Hso. rewrite Hm in Hso. rewrite <- fdmap_dom in Hx.
  apply (server_ok_step s n' _ ∅); [done|done|by left|done|..].
  - intros a. rewrite Hm'. destruct (x =? 0); [rewrite M0, Hso; set_solver|]. rewrite M1, dom_insert_L. specialize (Hso a). set_solver.
  - pose proof (so_nodup _ Hs) as Hnd. rewrite Hm in Hnd. destruct (x =? 0); [by rewrite M0|]. rewrite M1, app_assoc.
    apply NoDup_app. split; [done|]. split; [|apply NoDup_singleton]. intros y Hy Hyx%list_elem_of_singleton. subst y. apply Hx, Hso. set_solver.
  - intros a Ha. rewrite Hm'. destruct (x =? 0); [rewrite C0 in Ha; set_solver|]. rewrite C1 in Ha. apply list_elem_of_singleton in Ha as ->.
    apply lookup_insert_eq.
  - intros a b. destruct (x =? 0); intros E'; [by destruct (S0 a b)|by destruct (S1 a b)].
Qed.

(** The sockets of the acceptor after one of them was destroyed. *)
Lemma destroy_step s n' n2 p leak a :
  server_ok s → net_ok leak n2 → (leak = ∅ ∨ spawn_failed p = true ∧ ∃ x, leak = {[x]}) →
  spawned n2 = spawned (sn s) → dom (fdmap n') = dom (fdmap (sn s)) → fdmap n2 = delete a (fdmap n') →
  mine (spc s) = mine p ++ [a] → closed p = [] → (∀ x y, p ≠ ASpawn x y) →
  server_ok (mk_server n2 p).
Proof.
  intros Hs Hn Hl Hsp Hd Hm Hp Hc Ho. pose proof (so_nodup _ Hs) as Hnd. rewrite Hp, app_assoc in Hnd.
  apply NoDup_app in Hnd as (Hnd & Ha & _). apply (server_ok_step s n2 p leak); try done.
  - intros y. rewrite Hm, dom_delete_L, Hd. pose proof (so_socks _ Hs y) as Hy. rewrite Hp in Hy.
    rewrite elem_of_difference, Hy, elem_of_singleton, !elem_of_app, list_elem_of_singleton. split; [tauto|].
    intros Hy'. split; [tauto|]. intros ->. apply (Ha a); [set_solver|set_solver].
  - intros y Hy. rewrite Hc in Hy. set_solver.
  - intros x y E. by destruct (Ho x y).
Qed.

Lemma close_step s a msg : server_ok s → spc s = AClose a msg → ∃ s', acceptor null s 0 0 = Some s' ∧ server_ok s'.
Proof.
  intros Hs Hpc. destruct (so_leak _ Hs) as (leak & Hn & Hl).
  destruct (socket_close_ok leak (sn s) a Hn) as (n' & E & Hn' & Hsp & Hm); [apply mine_dom; [done|rewrite Hpc; set_solver]|].
  unfold acceptor. rewrite Hpc, E. simpl. eexists. split; [done|]. rewrite Hpc in Hl.
  apply (server_ok_step s n' (ADestroy a msg) leak); try done.
  - intros y. pose proof (so_socks _ Hs y) as Hy. rewrite Hm, dom_insert_L. rewrite Hpc in Hy. simpl in *. set_solver.
  - pose proof (so_nodup _ Hs) as Hnd. by rewrite Hpc in Hnd.
  - simpl. intros y ->%list_elem_of_singleton. rewrite Hm. apply lookup_insert_eq.
Qed.

Lemma accept_step s a new x : server_ok s → spc s = AAccept a new → x ∉ fds (sn s) →
  ∃ s', acceptor null s x 0 = Some s' ∧ server_ok s'.
Proof.
  intros Hs Hpc Hx. assert (Hc : fdmap (sn s) !! new = Some (-1)) by (apply (so_closed _ Hs); rewrite Hpc; set_solver).
  assert (Hn : net_ok ∅ (sn s)) by (apply no_leak; [done|by rewrite Hpc]).
  destruct (socket_accept_ok ∅ (sn s) a new x Hn) as (ret & n' & E & Hn' & Hsp & Hd & Hnew & H0);
    [apply mine_dom; [done|rewrite Hpc; set_solver]|done|done|].
  unfold acceptor. rewrite Hpc, E. cbn [mbind option_bind]. destruct (Z.eqb_spec ret 0) as [->|Hne]; simpl.
  - eexists. split; [done|]. apply (server_ok_step s n' (ASpawn a new) ∅); try done; [by left|..].
    + intros y. rewrite Hd, (so_socks _ Hs y), Hpc. set_solver.
    + pose proof (so_nodup _ Hs) as Hnd. by rewrite Hpc in Hnd.
    + intros y. simpl. set_solver.
    + intros a' new' [= <- <-]. exists x. split; [done|]. specialize (H0 eq_refl). lia.
  - destruct (socket_destroy_ok ∅ n' new Hn' Hnew) as (n2 & E2 & Hn2 & Hsp2 & Hm2 & _). rewrite E2. simpl. eexists. split; [done|].
    apply (destroy_step s n' n2 _ ∅ new); try done; [by left|congruence|by rewrite Hpc].
Qed.

Lemma spawn_step s a new x : server_ok s → spc s = ASpawn a new → ∃ s', acceptor null s x 0 = Some s' ∧ server_ok s'.
Proof.
  intros Hs Hpc. assert (Hn : net_ok ∅ (sn s)) by (apply no_leak; [done|by rewrite Hpc]).
  destruct (so_open _ Hs a new Hpc) as (y & Hy & Hne). unfold acceptor. rewrite Hpc. destruct (Z.eqb_spec x 0) as [->|Hx]; simpl.
  - eexists. split; [done|]. pose proof (so_nodup _ Hs) as Hnd. rewrite Hpc in Hnd. simpl in Hnd.
    split; simpl; [exists ∅; split; [done|by left]| | |set_solver|done].
    + intros b. pose proof (so_socks _ Hs b) as Hb. rewrite Hpc in Hb. simpl in Hb. set_solver.
    + eapply NoDup_Permutation_proper; [|exact Hnd]. solve_Permutation.
  - destruct (socket_destroy_leak ∅ (sn s) new y Hn Hy Hne) as (n2 & E2 & Hn2 & Hsp2 & Hm2). rewrite E2. simpl. eexists. split; [done|].
    apply (destroy_step s (sn s) n2 _ ({[y]} ∪ ∅) new); try done; [right; split; [done|]; exists y; set_solver|by rewrite Hpc].
Qed.

Lemma acceptor_ok s x nb : server_ok s → fresh s (LAcceptor x nb) = true →
  match acceptor null s x nb with Some s' => server_ok s' | None => ∃ msg, spc s = AOut msg end.
Proof.
  intros Hs Hf. simpl in Hf. pose proof (close_step s) as Hclose. pose proof (accept_step s) as Hacc. pose proof (spawn_step s) as Hsp.
  unfold acceptor in *. destruct (spc s) as [|a|a|a|a|a|a new|a new|a msg|a msg|msg] eqn:Hpc; try apply bool_decide_eq_true in Hf.
  - destruct (create_step s x [] (AOut (CreateFailed ENOMEM)) (AOpen x) Hs) as (n' & -> & Hn'); rewrite ?Hpc; try done.
    by destruct (x =? 0).
  - assert (Hc : fdmap (sn s) !! a = Some (-1)) by (apply (so_closed _ Hs); rewrite Hpc; set_solver).
    assert (Hn : net_ok ∅ (sn s)) by (apply no_leak; [done|by rewrite Hpc]).
    destruct (socket_open_ok ∅ (sn s) a x nb Hn Hc Hf) as (ret & n' & -> & Hn' & Hsp' & Hd & Hr). cbn [mbind option_bind].
    assert (Hgo : ∀ p, mine p = [a] → (∀ y, y ∈ closed p → fdmap n' !! y = Some (-1)) → (∀ y z, p ≠ ASpawn y z) → server_ok (mk_server n' p)).
    { intros p Hm Hcl Hp. apply (server_ok_step s n' p ∅); try done; [by left| | |].
      - intros y. rewrite Hd, (so_socks _ Hs y), Hpc, Hm. set_solver.
      - pose proof (so_nodup _ Hs) as Hnd. rewrite Hpc in Hnd. by rewrite Hm.
      - intros y z E. by destruct (Hp y z). }
    destruct (Z.eqb_spec ret 0); simpl; apply Hgo; try done; simpl; [set_solver|]. intros y ->%list_elem_of_singleton. by apply Hr.
  - destruct (x =? 0); simpl; (apply server_ok_pc; rewrite ?Hpc; done || set_solver).
  - destruct (x =? 0); simpl; (apply server_ok_pc; rewrite ?Hpc; done || set_solver).
  - destruct (x =? 0); simpl; (apply server_ok_pc; rewrite ?Hpc; done || set_solver).
  - destruct (create_step s x [a] (AClose a (CreateNewFailed ENOMEM)) (AAccept a x) Hs) as (n' & -> & Hn'); rewrite ?Hpc; try done.
    by destruct (x =? 0).
  - destruct (Hacc a new x Hs eq_refl Hf) as (s' & -> & Hs'). done.
  - destruct (Hsp a new x Hs eq_refl) as (s' & -> & Hs'). done.
  - destruct (Hclose a msg Hs eq_refl) as (s' & -> & Hs'). done.
  - destruct (so_leak _ Hs) as (leak & Hn & Hl).
    assert (Hc : fdmap (sn s) !! a = Some (-1)) by (apply (so_closed _ Hs); rewrite Hpc; set_solver).
    destruct (socket_destroy_ok leak (sn s) a Hn Hc) as (n2 & -> & Hn2 & Hsp2 & Hm2 & _). simpl.
    apply (destroy_step s (sn s) n2 _ leak a); rewrite ?Hpc; try done. rewrite Hpc in Hl. destruct Hl as [->|[Hf' Hx]]; [by left|right]. by destruct msg.
  - by exists msg.
Qed.

(** The fiber of a connection closes and destroys its socket. *)
Lemma echo_ok s a buffer rs : server_ok s → a ∈ spawned (sn s) → is_Some (echo_loop rs buffer []) →
  ∃ s', server_step null s (LEcho a buffer rs) = Some s' ∧ server_ok s'.
Proof.
  intros Hs Ha [[sent msgs] Hl]. destruct (so_leak _ Hs) as (leak & Hn & Hleak).
  assert (Hd : a ∈ dom (socks (sn s))) by (rewrite <- fdmap_dom; apply (so_socks _ Hs); set_solver).
  destruct (socket_close_ok leak (sn s) a Hn Hd) as (n1 & E1 & Hn1 & Hsp1 & Hm1).
  destruct (socket_destroy_ok leak n1 a Hn1) as (n2 & E2 & Hn2 & Hsp2 & Hm2 & _); [rewrite Hm1; apply lookup_insert_eq|].
  simpl. unfold echo. rewrite Hl. cbn [mbind option_bind]. rewrite E1. cbn [mbind option_bind]. rewrite E2. simpl.
  eexists. split; [done|]. pose proof (so_nodup _ Hs) as Hnd. apply NoDup_app in Hnd as (Hnd1 & Hnd2 & Hnd3).
  assert (Hm : fdmap n2 = delete a (fdmap (sn s))) by (by rewrite Hm2, Hm1, delete_insert_eq).
  assert (Hother : ∀ y, y ∈ mine (spc s) → fdmap n2 !! y = fdmap (sn s) !! y).
  { intros y Hy. rewrite Hm. apply lookup_delete_ne. intros ->. by destruct (Hnd2 y). }
  rewrite Hsp2, Hsp1. unfold fdmap in Hm, Hother |- *. split; simpl.
  - by exists leak.
  - intros y. unfold fdmap. simpl. rewrite Hm, dom_delete_L, elem_of_difference, elem_of_singleton. pose proof (so_socks _ Hs y) as Hy.
    unfold fdmap in Hy. rewrite Hy, !elem_of_app, list_elem_of_filter. split; [tauto|]. intros [[]|Hy']; [tauto|].
    split; [tauto|]. intros ->. by destruct (Hnd2 a).
  - apply NoDup_app. split; [by apply NoDup_filter|]. split; [|done]. intros y [_ Hy]%list_elem_of_filter. by apply Hnd2.
  - intros y Hy. unfold fdmap. simpl. rewrite Hother; [by apply (so_closed _ Hs)|].
    destruct (spc s); simpl in *; set_solver.
  - intros b new Hpc. unfold fdmap. simpl. rewrite Hother; [by eapply (so_open _ Hs)|]. rewrite Hpc. set_solver.
Qed.

Lemma server_init_ok : server_ok server_init.
Proof.
  split; simpl; try done; [| |constructor|set_solver]; [|intros a; rewrite fdmap_dom; simpl; set_solver].
  exists ∅. split; [|by left]. split; [done|]. split; [|done]. intros x. unfold fdmap. simpl. rewrite fmap_empty.
  split; [set_solver|]. intros [_ [p Hp]]. done.
Qed.

Lemma server_reach_ok s : reach (server_next null) server_init s → server_ok s.
Proof.
  apply reach_invariant; [apply server_init_ok|]. intros s1 l s2 Hs. unfold server_next.
  destruct (fresh s1 l) eqn:Hf; simpl; [|done]. destruct l as [x nb|a buffer rs].
  - intros Hstep. pose proof (acceptor_ok s1 x nb Hs Hf) as H. simpl in Hstep. by rewrite Hstep in H.
  - destruct (bool_decide_reflect (a ∈ spawned (sn s1))) as [Ha|]; [|done]. intros Hstep.
    destruct (echo_loop rs buffer []) as [p|] eqn:El.
    + destruct (echo_ok s1 a buffer rs Hs Ha) as (s' & E & Hs'); [by rewrite El|]. by simplify_eq.
    + simpl in Hstep. unfold echo in Hstep. by rewrite El in Hstep.
Qed.

End server.

(** ** The arguments *)

Definition isdigit (c : Z) : bool := (48 <=? c) && (c <=? 57).

(** The digits at the start, and whether there are any. *)
Fixpoint digits (acc : Z) (s : list Z) : Z :=
  match s with c :: s => if isdigit c then digits (10 * acc + (c - 48)) s else acc | [] => acc end.
Definition starts_with_digit (s : list Z) : bool := match s with c :: _ => isdigit c | [] => false end.

Inductive scan := ScanFail | ScanValue (v : Z) | ScanUndefined.

Definition UINT16_MAX : Z := 65535.

(** [sscanf(s, "%hu", &port)]: white space, a sign, digits. A number that does not fit into 16 bits is undefined. *)
Definition is_space (c : Z) : bool := (c =? 32) || ((9 <=? c) && (c <=? 13)).
Fixpoint skip_space (s : list Z) : list Z :=
  match s with c :: s' => if is_space c then skip_space s' else s | [] => [] end.

Definition sscanf_u16 (s : list Z) : scan :=
  let s := skip_space s in
  let '(neg, s) := match s with
                   | c :: s' => if c =? 43 then (false, s') else if c =? 45 then (true, s') else (false, s)
                   | [] => (false, s)
                   end in
  if starts_with_digit s then
    let v := if neg : bool then - digits 0 s else digits 0 s in
    if (0 <=? v) && (v <=? UINT16_MAX) then ScanValue v else ScanUndefined
  else ScanFail.

(** [std::from_chars(first, last, port)] for [std::uint16_t]: digits only, and a number that does not fit is an error. *)
Definition from_chars_u16 (s : list Z) : scan :=
  if starts_with_digit s then if digits 0 s <=? UINT16_MAX then ScanValue (digits 0 s) else ScanFail else ScanFail.

(** Network byte order, on a little-endian machine. *)
Definition htons (p : Z) : Z := Z.lor (Z.shiftl (Z.land p 255) 8) (Z.shiftr p 8).

Inductive main_call := MPort (sin_port : Z) | MCreate | MSpawn | MRun | MDestroy.

(** [main] of [echo.c] and [echo-timeout.c]: the exit code, the message and the calls; [host_ok]: [inet_aton] returns 1.
    [None]: undefined. *)
Definition main (argc : Z) (argv2 : list Z) (host_ok : bool) (create spawn run : Z)
    : option (Z * option message * list main_call) :=
  if negb (argc =? 3) then Some (1, Some Usage, [])
  else
    match sscanf_u16 argv2 with
    | ScanUndefined => None
    | ScanFail => Some (1, Some ParsePortFailed, [])
    | ScanValue port =>
        let addr := MPort (htons port) in
        if negb host_ok then Some (1, Some HostFailed, [addr])
        else if negb (create =? 0) then Some (1, Some (SchedFailed (- create)), [addr; MCreate])
        else if negb (spawn =? 0) then Some (1, Some (SpawnMainFailed (- spawn)), [addr; MCreate; MSpawn; MDestroy])
        else if negb (run =? 0) then Some (1, Some (RunFailed (- run)), [addr; MCreate; MSpawn; MRun; MDestroy])
        else Some (0, None, [addr; MCreate; MSpawn; MRun; MDestroy])
    end.

Definition main_timeout := main.

(** The C++ programs: an exception of [sched], [spawn] or [run] is not caught ([None]). *)
Definition main_cpp (argc : Z) (argv2 : list Z) (host_ok : bool) (create spawn run : Z) : option (Z * option message) :=
  if negb (argc =? 3) then Some (1, Some Usage)
  else
    match from_chars_u16 argv2 with
    | ScanValue port =>
        if negb host_ok then Some (1, Some HostFailed)
        else if (create =? 0) && (spawn =? 0) && (run =? 0) then Some (0, None) else None
    | _ => Some (1, Some ParsePortFailed)
    end.

(** The main functions of [echo-timeout++.cpp] and [key-value++.cpp] are the same. *)
Definition main_timeout_cpp := main_cpp.
Definition main_key_value := main_cpp.

(** The decimal representation. *)
Fixpoint decimal (fuel : nat) (n : Z) (acc : list Z) : list Z :=
  match fuel with
  | O => acc
  | S fuel => let acc := (48 + n mod 10) :: acc in if n <? 10 then acc else decimal fuel (n / 10) acc
  end.

Definition port_ok (p : Z) : bool :=
  let s := decimal 5 p [] in
  bool_decide (digits 0 s = p) && starts_with_digit s && negb (is_space (nth 0 s 0)) &&
  negb (nth 0 s 0 =? 43) && negb (nth 0 s 0 =? 45).

Fixpoint ports_ok (n : nat) (p : Z) : bool := match n with O => true | S n => port_ok p && ports_ok n (p + 1) end.

Lemma ports_ok_spec n p q : ports_ok n p = true → p <= q < p + Z.of_nat n → port_ok q = true.
Proof.
  revert p. induction n as [|n IH]; intros p; simpl; [lia|]. intros [H1 H2]%andb_prop Hq.
  destruct (Z.eq_dec p q) as [<-|]; [done|]. apply (IH (p + 1)); [done|lia].
Qed.

Lemma all_ports_ok p : 0 <= p < 65536 → port_ok p = true.
Proof. intros Hp. apply (ports_ok_spec (Pos.to_nat 65536) 0); [vm_compute; reflexivity|lia]. Qed.

(** Both programs understand every port that is written in decimal. *)
Theorem port_round_trip p : 0 <= p <= UINT16_MAX →
  sscanf_u16 (decimal 5 p []) = ScanValue p ∧ from_chars_u16 (decimal 5 p []) = ScanValue p.
Proof.
  unfold UINT16_MAX. intros Hp. assert (Ha : port_ok p = true) by (apply all_ports_ok; lia). unfold port_ok in Ha.
  apply andb_prop in Ha as [Ha H5%negb_true_iff]. apply andb_prop in Ha as [Ha H4%negb_true_iff].
  apply andb_prop in Ha as [Ha H3%negb_true_iff]. apply andb_prop in Ha as [H1%bool_decide_eq_true H2].
  unfold sscanf_u16, from_chars_u16, UINT16_MAX. destruct (decimal 5 p []) as [|c s]; [done|]. cbn [nth skip_space] in *.
  rewrite H3, H4, H5, H2, H1. rewrite (proj2 (Z.leb_le p 65535)), (proj2 (Z.leb_le 0 p)) by lia. done.
Qed.

(** The scheduler is destroyed exactly if it was created, and the exit code is 0 exactly if nothing failed. *)
Lemma main_balanced argc argv2 host_ok create spawn run code msg calls :
  main argc argv2 host_ok create spawn run = Some (code, msg, calls) →
  (MDestroy ∈ calls ↔ MCreate ∈ calls ∧ create = 0) ∧ (code = 0 ↔ msg = None) ∧
  (code = 0 ↔ MRun ∈ calls ∧ run = 0).
Proof.
  unfold main. intros H.
  repeat match type of H with
    | context [if negb (?x =? ?y) then _ else _] => destruct (Z.eqb_spec x y)
    | context [if negb ?b then _ else _] => is_var b; destruct b
    | context [match sscanf_u16 ?s with _ => _ end] => destruct (sscanf_u16 s)
    end; simplify_eq/=; rewrite ?elem_of_cons, ?elem_of_nil; intuition congruence.
Qed.

(** A port that is too large: undefined in C, refused in C++. *)
Example port_too_large :
  sscanf_u16 (decimal 5 70000 []) = ScanUndefined ∧ from_chars_u16 (decimal 5 70000 []) = ScanFail.
Proof. done. Qed.

(** ** The acceptor in C++ *)

Module Acceptor.
Import Own SocketObj.

(** A round of the loop: [new_socket] is the object [o], and [fiber::spawn] moves it into the arguments [args] of the fiber. [p] and [r]
    are the socket and the descriptor that [accept] gets, [err] is what [fev_fiber_spawn] returns. When it fails the arguments are
    destroyed and an exception is thrown, which ends the acceptor. The loops of the three C++ servers are the same. *)
Definition acceptor_cpp (s : sst) (o args : loc) (p r err : Z) : option (sst * out unit) :=
  '(s, e) ← accept s o p r;
  match e with
  | Val _ =>
      '(s, _) ← ctor_move s args o;
      if negb (err =? 0) then
        '(s, _) ← dtor s args 0;
        '(s, _) ← dtor s o 0;
        Some (s, throw_err err)
      else
        '(s, _) ← dtor s o 0;
        Some (s, Val tt)
  | e => Some (s, e)
  end.

Definition acceptor_timeout_cpp := acceptor_cpp.
Definition acceptor_key_value := acceptor_cpp.

Lemma dtor_held s o x fd : objs (own s) !! o = Some (Some x) → fd_of s !! x = Some fd → fd ≠ -1 →
  dtor s o 0 = Some (mk_sst (mk_st (delete o (objs (own s))) (live (own s) ∖ {[x]})) (delete x (<[x := -1]> (fd_of s))) (open_fds s ∖ {[fd]}), Val tt).
Proof.
  intros Ho Hx Hfd. unfold dtor, c_close, c_destroy. rewrite Ho. cbn [mbind option_bind]. rewrite Hx. cbn [mbind option_bind].
  rewrite (proj2 (Z.eqb_neq fd (-1))), Z.ltb_irrefl by done. cbn [mbind option_bind]. rewrite Z.eqb_refl. cbn [negb fd_of].
  by rewrite lookup_insert_eq.
Qed.

Lemma dtor_moved s o : objs (own s) !! o = Some None → dtor s o 0 = Some (with_own s (drop_obj (own s) o), Val tt).
Proof. intros Ho. unfold dtor. by rewrite Ho. Qed.

Lemma accept_new s o p r : p ≠ 0 → 0 <= r →
  accept s o p r = Some (mk_sst (mk_st (<[o := Some p]> (objs (own s))) ({[p]} ∪ live (own s))) (<[p := r]> (fd_of s)) ({[r]} ∪ open_fds s), Val tt).
Proof.
  intros Hp Hr. unfold accept, ctor. rewrite (proj2 (Z.eqb_neq p 0)) by done. cbn [mbind option_bind].
  rewrite (proj2 (Z.ltb_ge r 0)) by done. unfold open. cbn [own fd_of open_fds objs live]. rewrite lookup_insert_eq.
  cbn [mbind option_bind]. rewrite lookup_insert_eq. cbn [mbind option_bind]. by rewrite (proj2 (Z.ltb_ge r 0)), insert_insert_eq by done.
Qed.

(** When no fiber can be spawned the new connection is closed, unlike in the C program. *)
Theorem acceptor_cpp_spawn_fails s o args p r err :
  o ≠ args → objs (own s) !! o = None → objs (own s) !! args = None → p ≠ 0 → p ∉ live (own s) →
  0 <= r → r ∉ open_fds s → err ≠ 0 →
  ∃ s', acceptor_cpp s o args p r err = Some (s', Throw (- err)) ∧ open_fds s' = open_fds s ∧ live (own s') = live (own s) ∧
    objs (own s') = objs (own s).
Proof.
  intros Hne Ho Ha Hp Hl Hr Hrf He. unfold acceptor_cpp. rewrite accept_new by done. cbn [mbind option_bind].
  unfold ctor_move. cbn [own objs]. rewrite lookup_insert_eq. cbn [mbind option_bind]. rewrite (proj2 (Z.eqb_neq err 0)) by done. cbn [negb].
  rewrite (dtor_held _ args p r); [|by cbn; rewrite lookup_insert_ne, lookup_insert_eq|by cbn; rewrite lookup_insert_eq|lia].
  cbn [mbind option_bind]. rewrite dtor_moved by (cbn; rewrite lookup_delete_ne, lookup_insert_eq by done; done). cbn [mbind option_bind].
  eexists. split; [done|]. cbn. split_and!; [set_solver|set_solver|].
  apply map_eq. intros x. destruct (decide (x = o)) as [->|]; [by rewrite lookup_delete_eq|].
  destruct (decide (x = args)) as [->|]; [by rewrite lookup_delete_ne, lookup_delete_eq by done|].
  by rewrite !lookup_delete_ne, !lookup_insert_ne by done.
Qed.
End Acceptor.

(** ** Properties of the loops *)

(** What the fiber of a connection sends back is a prefix of what it received, and everything if no write was short. It ends at the
    first round in which the read gives nothing or the write is short, and not before. *)
Theorem echo_sends_prefix size rs buffer :
  Forall (round_ok size) rs →
  match echo_loop rs buffer [] with
  | Some (sent, msgs) =>
      sent `prefix_of` received rs ∧
      ((∀ r, r ∈ rs → 0 < num_read r → num_written r = num_read r) → sent = received rs) ∧ Exists last_round rs
  | None => Forall (λ r, last_round r = false) rs
  end.
Proof.
  intros H. pose proof (echo_loop_sent size rs buffer [] H) as Hl. destruct (echo_loop rs buffer []) as [[sent msgs]|]; [|done].
  destruct Hl as (l & -> & H1 & H2 & H3). done.
Qed.

Definition ex_rounds : list round := [mk_round 3 [104; 101; 121] 3; mk_round 2 [33; 10] 2; mk_round 0 [] 0].

Lemma echo_sends_prefix_witness :
  Forall (round_ok 1024) ex_rounds ∧ ∃ msgs, echo_loop ex_rounds (replicate 1024 0) [] = Some ([104; 101; 121; 33; 10], msgs).
Proof.
  assert (Hok : Forall (round_ok 1024) ex_rounds) by (repeat constructor; simpl; lia).
  split; [exact Hok|]. pose proof (echo_sends_prefix 1024 ex_rounds (replicate 1024 0) Hok) as H.
  destruct (echo_loop ex_rounds (replicate 1024 0) []) as [[sent msgs]|] eqn:E; [|discriminate E].
  destruct H as (_ & H & _). exists msgs. rewrite H; [reflexivity|].
  intros r Hr _. repeat (apply elem_of_cons in Hr as [->|Hr]; [reflexivity|]). by apply not_elem_of_nil in Hr.
Defined.

(** The C++ variant goes on after a short write and leaves out what was not sent. *)
Example echo_cpp_drops_bytes :
  Forall (round_ok 1024) [mk_round 3 [104; 101; 121] 1; mk_round 2 [33; 10] 2; mk_round 0 [] 0] ∧
  echo_cpp_loop [mk_round 3 [104; 101; 121] 1; mk_round 2 [33; 10] 2; mk_round 0 [] 0] (replicate 1024 0) [] =
    Some ([104; 33; 10], None).
Proof. split; [repeat constructor; simpl; lia|reflexivity]. Qed.

(** A run of the server: a connection that is served, and one for which no fiber can be spawned. *)
Definition ex_labels : list label :=
  [LAcceptor 1000 0; LAcceptor 3 0; LAcceptor 0 0; LAcceptor 0 0; LAcceptor 0 0;
   LAcceptor 2000 0; LAcceptor 4 0; LAcceptor 0 0;
   LAcceptor 3000 0; LEcho 2000 (replicate 1024 0) ex_rounds; LAcceptor 4 0; LAcceptor (- ENOMEM) 0;
   LAcceptor 0 0; LAcceptor 0 0].

Definition ex_server : server := default server_init (run (server_next 1%positive) server_init ex_labels).

Lemma ex_server_reach : reach (server_next 1%positive) server_init ex_server.
Proof.
  apply (run_reach _ _ server_init ex_labels); [constructor|]. unfold ex_server.
  assert (H : match run (server_next 1%positive) server_init ex_labels with Some _ => true | None => false end = true) by (vm_compute; reflexivity).
  destruct (run (server_next 1%positive) server_init ex_labels); [reflexivity|discriminate H].
Qed.


(** The descriptor of the second connection is still open. *)
Example echo_spawn_leaks : 4 ∈ fds (sn ex_server) ∧ size (fds (sn ex_server)) = 1%nat.
Proof. split; vm_compute; reflexivity. Qed.
