(* ===== verification/KeyValue.v ===== *)
(** The key-value server, [src/examples/key-value++.cpp].

    Every message of a client is a command; the values are kept in a map that all clients share and that is only accessed with the
    mutex held, so that a command takes effect at one moment and the commands of all clients form one sequence. Characters are [Z]
    in the range of a signed [char]. *)

From S2P Require Import Prelude Cpp.
From stdpp Require Import strings.
From Stdlib Require String Ascii.

Local Open Scope Z_scope.

Abbreviation str := (list Z).

(** A string literal. *)
Definition lit (s : string) : str := map (λ c, Z.of_nat (Ascii.nat_of_ascii c)) (String.list_ascii_of_string s).

(** ** Reading a message *)

(** [std::isspace] is defined for the values of [unsigned char] and for [EOF]; [None]: undefined. *)
Definition isspace (c : Z) : option bool :=
  if c =? -1 then Some false
  else if (0 <=? c) && (c <=? 255) then Some ((c =? 32) || ((9 <=? c) && (c <=? 13))) else None.

(** [while (msg.size() > 0 && std::isspace(msg[0])) msg.remove_prefix(1)]. *)
Fixpoint trim_front (msg : str) : option str :=
  match msg with
  | [] => Some []
  | c :: msg' => b ← isspace c; if b : bool then trim_front msg' else Some msg
  end.

(** [while (msg.size() > 0 && std::isspace(msg[msg.size() - 1])) msg.remove_suffix(1)]; [n] is the size. *)
Fixpoint trim_back (n : nat) (msg : str) : option str :=
  match n with
  | O => Some []
  | S n' => c ← msg !! n'; b ← isspace c; if b : bool then trim_back n' msg else Some (take n msg)
  end.

Definition trim (msg : str) : option str := msg ← trim_front msg; trim_back (length msg) msg.

(** [msg.find(' ')]; [None]: [npos]. *)
Fixpoint find_space (msg : str) : option nat :=
  match msg with [] => None | c :: msg => if c =? 32 then Some 0%nat else S <$> find_space msg end.

(** ** The commands *)

Abbreviation table := (gmap str str).

(** What a message is answered, and the map afterwards; [None]: undefined. *)
Definition command (data : table) (msg : str) : option (str * table) :=
  msg ← trim msg;
  let '(cmd, key) := match find_space msg with
                     | Some cmd_end => (take cmd_end msg, drop (cmd_end + 1) msg)
                     | None => ([], [])
                     end in
  if decide (key = []) then Some (lit "Parsing failed" ++ [10], data)
  else if decide (cmd = lit "get") then
    match data !! key with
    | Some value => Some (value ++ [10], data)
    | None => Some (lit "Not found" ++ [10], data)
    end
  else if decide (cmd = lit "set") then
    match find_space key with
    | Some key_end => Some (lit "OK" ++ [10], <[take key_end key := drop (key_end + 1) key]> data)
    | None => Some (lit "Parsing failed" ++ [10], data)
    end
  else Some (lit "Unknown command" ++ [10], data).

(** A round of the loop of [client]: a read returns [num_read] and gives [msg], the write of the response returns [num_written]. *)
Record round := mk_round { num_read : Z; msg : str; num_written : Z }.

(** How the loop ends: [EndOfFile], or an exception that is caught. *)
Inductive client_end := Running | EndOfFile | Caught (code : Z).

(** The responses, as far as they were sent, the map, and how the loop ended; [None]: undefined. The result of [write] is not used. *)
Fixpoint client (data : table) (rs : list round) (sent : list str) : option (list str * table * client_end) :=
  match rs with
  | [] => Some (sent, data, Running)
  | r :: rs =>
      match socket_read (num_read r) with
      | Val n =>
          if n =? 0 then Some (sent, data, EndOfFile)
          else
            '(resp, data) ← command data (take (Z.to_nat n) (msg r));
            match socket_write (num_written r) with
            | Val k => client data rs (sent ++ [take (Z.to_nat k) resp])
            | Throw code => Some (sent, data, Caught code)
            | Terminate => None
            end
      | Throw code => Some (sent, data, Caught code)
      | Terminate => None
      end
  end.

(** ** The specification *)

Inductive cmd := Get (key : str) | Set_ (key value : str).

Definition print (c : cmd) : str :=
  match c with
  | Get key => lit "get " ++ key
  | Set_ key value => lit "set " ++ key ++ [32] ++ value
  end.

Definition exec (data : table) (c : cmd) : str * table :=
  match c with
  | Get key => (match data !! key with Some value => value ++ [10] | None => lit "Not found" ++ [10] end, data)
  | Set_ key value => (lit "OK" ++ [10], <[key := value]> data)
  end.

(** A message that is understood: a key to set has no blank, and the command does not end with white space. *)
Definition ends_ok (s : str) : Prop := ∃ s' c, s = s' ++ [c] ∧ isspace c = Some false.
Definition cmd_ok (c : cmd) : Prop :=
  match c with Get key => ends_ok key | Set_ key value => 32 ∉ key ∧ ends_ok value end.

(** White space before and after the command. *)
Definition blank (s : str) : Prop := Forall (λ c, isspace c = Some true) s.

(** ** Trimming *)

Lemma trim_front_blank w c s : blank w → isspace c = Some false → trim_front (w ++ c :: s) = Some (c :: s).
Proof. intros Hw Hc. induction Hw as [|x w Hx _ IH]; simpl; [by rewrite Hc|]. rewrite Hx. exact IH. Qed.

Lemma trim_back_blank s c w : blank w → isspace c = Some false →
  trim_back (length (s ++ [c] ++ w)) (s ++ [c] ++ w) = Some (s ++ [c]).
Proof.
  intros Hw Hc.
  assert (H : ∀ k, (k <= length w)%nat → trim_back (length s + 1 + k) (s ++ [c] ++ w) = Some (s ++ [c])).
  { induction k as [|k IH]; intros Hk.
    - rewrite Nat.add_0_r, Nat.add_1_r. cbn [trim_back]. rewrite lookup_app_r, Nat.sub_diag by lia. simpl. rewrite Hc. simpl.
      f_equal. change (c :: w) with ([c] ++ w). rewrite app_assoc. apply take_app_length'. rewrite length_app. simpl. lia.
    - rewrite Nat.add_succ_r. cbn [trim_back]. rewrite !lookup_app_r by (simpl; lia).
      replace (length s + 1 + k - length s - length [c])%nat with k by (simpl; lia).
      destruct (lookup_lt_is_Some_2 w k) as [x Hx]; [lia|]. rewrite Hx. simpl.
      rewrite (proj1 (Forall_lookup _ _) Hw k x Hx). simpl. apply IH. lia. }
  rewrite !length_app. simpl length. rewrite Nat.add_assoc. by apply H.
Qed.

Lemma trim_ok w1 c1 s c2 w2 : blank w1 → blank w2 → isspace c1 = Some false → isspace c2 = Some false →
  trim (w1 ++ (c1 :: s ++ [c2]) ++ w2) = Some (c1 :: s ++ [c2]).
Proof.
  intros H1 H2 Hc1 Hc2. unfold trim. simpl. rewrite trim_front_blank by done. cbn [mbind option_bind].
  rewrite <- app_assoc. exact (trim_back_blank (c1 :: s) c2 w2 H2 Hc2).
Qed.

Lemma find_space_app a b : 32 ∉ a → find_space (a ++ 32 :: b) = Some (length a).
Proof.
  induction a as [|x a IH]; simpl; [done|]. intros H. rewrite (proj2 (Z.eqb_neq x 32)) by set_solver. by rewrite IH by set_solver.
Qed.

Lemma split_app (a b : str) : take (length a) (a ++ 32 :: b) = a ∧ drop (length a + 1) (a ++ 32 :: b) = b.
Proof. split; [by rewrite take_app_length|]. rewrite <- drop_drop, drop_app_length. done. Qed.

Lemma print_shape c : cmd_ok c → ∃ c1 s c2, print c = c1 :: s ++ [c2] ∧ isspace c1 = Some false ∧ isspace c2 = Some false.
Proof.
  destruct c as [key|key value]; simpl.
  - intros (s' & c & -> & Hc). exists 103, (tl (lit "get ") ++ s'), c.
    split; [exact (app_assoc (lit "get ") s' [c])|done].
  - intros (_ & s' & c & -> & Hc). exists 115, (tl (lit "set ") ++ key ++ [32] ++ s'), c.
    split; [|done]. transitivity ((lit "set " ++ key ++ [32] ++ s') ++ [c]); [|done]. by rewrite <- !app_assoc.
Qed.

(** ** Properties *)

(** A command that is understood is executed. *)
Lemma command_exec data w1 c w2 : blank w1 → blank w2 → cmd_ok c → command data (w1 ++ print c ++ w2) = Some (exec data c).
Proof.
  intros H1 H2 Hc. destruct (print_shape c Hc) as (c1 & s & c2 & E & Hc1 & Hc2). unfold command.
  rewrite E, trim_ok by done. cbn [mbind option_bind]. rewrite <- E. clear E. destruct c as [key|key value]; simpl in Hc.
  - assert (Hf := find_space_app (lit "get") key). assert (Hs := split_app (lit "get") key).
    change (lit "get" ++ 32 :: key) with (print (Get key)) in *. rewrite Hf by set_solver. destruct Hs as [-> ->].
    rewrite decide_False by (destruct Hc as (s' & c & -> & _); destruct s'; done). rewrite decide_True by done.
    simpl. by destruct (data !! key).
  - destruct Hc as [Hk Hv]. set (rest := key ++ [32] ++ value).
    assert (Hf := find_space_app (lit "set") rest). assert (Hs := split_app (lit "set") rest).
    change (lit "set" ++ 32 :: rest) with (print (Set_ key value)) in *. rewrite Hf by set_solver. destruct Hs as [-> ->].
    rewrite decide_False by (unfold rest; by destruct key). rewrite decide_False by done. rewrite decide_True by done.
    unfold rest. simpl. rewrite find_space_app by done. destruct (split_app key value) as [-> ->]. done.
Qed.

(** The messages of all clients, in the order in which they get the mutex. *)
Fixpoint serve (data : table) (msgs : list str) : option (list str * table) :=
  match msgs with
  | [] => Some ([], data)
  | m :: msgs =>
      '(resp, data) ← command data m;
      '(resps, data) ← serve data msgs;
      Some (resp :: resps, data)
  end.

(** A command with white space around it. *)
Record padded := mk_padded { before : str; the_cmd : cmd; after : str }.
Definition padded_ok (p : padded) : Prop := blank (before p) ∧ cmd_ok (the_cmd p) ∧ blank (after p).
Definition text (p : padded) : str := before p ++ print (the_cmd p) ++ after p.

Lemma command_text data p : padded_ok p → command data (text p) = Some (exec data (the_cmd p)).
Proof. intros (H1 & H2 & H3). by apply command_exec. Qed.

(** The value of the last command that set the key. *)
Definition last_set (key : str) (cs : list cmd) : option str :=
  foldl (λ v c, match c with Set_ k x => if decide (k = key) then Some x else v | Get _ => v end) None cs.

Definition response (cs : list cmd) (c : cmd) : str :=
  match c with
  | Get key => match last_set key cs with Some value => value ++ [10] | None => lit "Not found" ++ [10] end
  | Set_ _ _ => lit "OK" ++ [10]
  end.

(** What the commands [cs] are answered when [done] came before them. *)
Fixpoint responses (done cs : list cmd) : list str :=
  match cs with [] => [] | c :: cs => response done c :: responses (done ++ [c]) cs end.

Definition table_of (cs : list cmd) (data : table) : Prop := ∀ key, data !! key = last_set key cs.

Lemma table_of_step cs data c : table_of cs data → table_of (cs ++ [c]) (exec data c).2 ∧ (exec data c).1 = response cs c.
Proof.
  intros Ht. split.
  - intros key. unfold last_set. rewrite foldl_app. cbn [foldl]. fold (last_set key cs). destruct c as [k|k v]; cbn [exec snd]; [apply Ht|].
    destruct (decide (k = key)) as [->|]; [by rewrite lookup_insert_eq|]. rewrite lookup_insert_ne by done. apply Ht.
  - destruct c as [k|k v]; simpl; [|done]. by rewrite (Ht k).
Qed.

Lemma serve_ok cs data ps : table_of cs data → Forall padded_ok ps →
  ∃ data', serve data (map text ps) = Some (responses cs (map the_cmd ps), data') ∧ table_of (cs ++ map the_cmd ps) data'.
Proof.
  intros Ht Hps. revert cs data Ht. induction Hps as [|p ps Hp _ IH]; intros cs data Ht; simpl.
  { exists data. by rewrite app_nil_r. }
  rewrite command_text by done. destruct (table_of_step cs data (the_cmd p) Ht) as [Ht' Hr].
  destruct (exec data (the_cmd p)) as [resp data1]. simpl in *. subst resp.
  destruct (IH _ _ Ht') as (data' & -> & Hd). simpl. exists data'. split; [done|]. by rewrite <- app_assoc in Hd.
Qed.


Definition ex_ps : list padded :=
  [mk_padded [] (Get (lit "a")) [10]; mk_padded [32] (Set_ (lit "a") (lit "b c")) [13; 10];
   mk_padded [] (Set_ (lit "x") (lit "1")) [10]; mk_padded [] (Get (lit "a")) [10]].


(** The rounds of a client whose commands are [ps], and that closes the connection then; all of each response is written. *)
Definition rounds (rs : list str) (ps : list padded) : list round :=
  zip_with (λ p r, mk_round (Z.of_nat (length (text p))) (text p) (Z.of_nat (length r))) ps rs ++ [mk_round 0 [] 0].

Lemma text_nonempty p : padded_ok p → 0 < Z.of_nat (length (text p)).
Proof.
  intros (_ & Hc & _). unfold text. rewrite !length_app. destruct (print_shape _ Hc) as (c1 & s & c2 & -> & _). simpl. lia.
Qed.

(** A client gets the answers of its commands, and its commands are executed. *)
Theorem client_answers cs data ps sent :
  table_of cs data → Forall padded_ok ps →
  ∃ data', client data (rounds (responses cs (map the_cmd ps)) ps) sent =
             Some (sent ++ responses cs (map the_cmd ps), data', EndOfFile) ∧ table_of (cs ++ map the_cmd ps) data'.
Proof.
  intros Ht Hps. revert cs data sent Ht. induction Hps as [|p ps Hp _ IH]; intros cs data sent Ht; simpl.
  { exists data. by rewrite !app_nil_r. }
  pose proof (text_nonempty p Hp) as Hpos. unfold socket_read. rewrite (proj2 (Z.ltb_ge _ 0)) by lia.
  rewrite (proj2 (Z.eqb_neq _ 0)) by lia. rewrite Nat2Z.id, take_ge by done. rewrite command_text by done.
  destruct (table_of_step cs data (the_cmd p) Ht) as [Ht' Hr].
  destruct (exec data (the_cmd p)) as [resp data1]. cbn [fst snd mbind option_bind] in *. subst resp.
  unfold socket_write. rewrite (proj2 (Z.ltb_ge _ 0)) by lia. rewrite Nat2Z.id, take_ge by done.
  destruct (IH _ _ (sent ++ [response cs (the_cmd p)]) Ht') as (data' & E & Hd). unfold rounds in E. rewrite E.
  exists data'. split; [by rewrite <- app_assoc|]. by rewrite <- app_assoc in Hd.
Qed.

(** The result of a write is ignored: after a short write the client sees the next answer in the middle of this one. *)
Example short_write_cut :
  client ∅ [mk_round 6 (lit "get a" ++ [10]) 3; mk_round 8 (lit "set a b" ++ [10]) 3; mk_round 0 [] 0] [] =
    Some ([lit "Not"; lit "OK" ++ [10]], {[ lit "a" := lit "b" ]}, EndOfFile).
Proof. vm_compute. reflexivity. Qed.

(** Keys never contain a blank: a [get] of such a key finds nothing. *)
Definition keys_ok (data : table) : Prop := ∀ key, is_Some (data !! key) → 32 ∉ key.

Lemma find_space_spec s n : find_space s = Some n → 32 ∉ take n s.
Proof.
  revert n. induction s as [|c s IH]; simpl; [done|]. intros n. destruct (Z.eqb_spec c 32); [intros [= <-]; simpl; set_solver|].
  destruct (find_space s) as [k|]; simpl; [|done]. intros [= <-]. simpl. specialize (IH k eq_refl). set_solver.
Qed.

Lemma command_keys data m resp data' : keys_ok data → command data m = Some (resp, data') → keys_ok data'.
Proof.
  intros Hk. unfold command. destruct (trim m) as [m'|]; simpl; [|done].
  destruct (find_space m') as [e|]; [|by rewrite decide_True by done; intros [= _ <-]].
  repeat case_decide; try by intros [= _ <-].
  - by destruct (data !! _); intros [= _ <-].
  - destruct (find_space _) as [e'|] eqn:Ef; [|by intros [= _ <-]]. intros [= _ <-] key. rewrite lookup_insert_is_Some.
    intros [<-|[_ Hs]]; [by eapply find_space_spec|by apply Hk].
Qed.

Lemma serve_keys data msgs resps data' : keys_ok data → serve data msgs = Some (resps, data') → keys_ok data'.
Proof.
  revert data resps. induction msgs as [|m msgs IH]; intros data resps Hk; simpl; [by intros [= _ <-]|].
  destruct (command data m) as [[r d]|] eqn:Ec; simpl; [|done]. destruct (serve d msgs) as [[rs d']|] eqn:Es; simpl; [|done].
  intros [= _ <-]. eapply IH; [|done]. by eapply command_keys.
Qed.

(** A message that begins with a character above 127, which is negative as a [char], is undefined. *)
Lemma command_undefined data c s : c < -1 → command data (c :: s) = None.
Proof.
  intros Hc. unfold command, trim. simpl. unfold isspace. rewrite (proj2 (Z.eqb_neq c (-1))), (proj2 (Z.leb_gt 0 c)) by lia. done.
Qed.

(** The empty key can be set, but there is no message that gets it. *)
Example empty_key :
  command ∅ (lit "set  v") = Some (lit "OK" ++ [10], {[ [] := lit "v" ]}) ∧
  command {[ [] := lit "v" ]} (lit "get ") = Some (lit "Parsing failed" ++ [10], {[ [] := lit "v" ]}).
Proof. split; vm_compute; reflexivity. Qed.
