(* ===== verification/Examples.v ===== *)
(** Two more example programs: [src/examples/fibonacci++.cpp], fibers that create and join fibers, and
    [src/examples/condition-variable++.cpp], two fibers that hand data over with a condition variable.

    They use of the library what [Fiber], [Mutex] and [Cond] show: a join returns after the fiber has ended, at most one fiber holds a
    mutex, and a wait on a condition variable releases the mutex and takes it again. *)

From S2P Require Import Prelude.
From stdpp Require Import strings.
From Stdlib Require String.

Local Open Scope Z_scope.

(** ** Fibonacci numbers *)

Module Fibonacci.

(** A fiber that computes [fibonacci(n, result)]. The fibers it has created are part of its state; one that has ended has written its
    result to the variable of its creator. *)
Inductive fib :=
| Start (n : Z)
| Created1 (n : Z) (fiber1 : fib)                   (* [fiber1] exists *)
| Created2 (n : Z) (fiber1 fiber2 : fib)            (* both exist; before the first join *)
| Joined1 (n : Z) (result1 : Z) (fiber2 : fib)      (* before the second join *)
| Joined2 (n : Z) (result1 result2 : Z)             (* before the addition *)
| Ended (result : Z).

(** Which fiber runs: the one at the root of the state, or one it has created. *)
Inductive who := Self | First (w : who) | Second (w : who).

Definition INT_MAX : Z := 2 ^ 31 - 1.

(** [int] addition; [None]: it overflows. *)
Definition add_int (x y : Z) : option Z := if (- INT_MAX - 1 <=? x + y) && (x + y <=? INT_MAX) then Some (x + y) else None.

(** What one fiber does. A join waits until the fiber has ended; the creation of a fiber succeeds. *)
Definition fibonacci (f : fib) : option fib :=
  match f with
  | Start n => Some (if n <=? 1 then Ended n else Created1 n (Start (n - 1)))
  | Created1 n fiber1 => Some (Created2 n fiber1 (Start (n - 2)))
  | Created2 n (Ended result1) fiber2 => Some (Joined1 n result1 fiber2)
  | Joined1 n result1 (Ended result2) => Some (Joined2 n result1 result2)
  | Joined2 n result1 result2 => Ended <$> add_int result1 result2
  | _ => None
  end.

Fixpoint step (f : fib) (w : who) : option fib :=
  match w, f with
  | Self, _ => fibonacci f
  | First w, Created1 n f1 => (λ x, Created1 n x) <$> step f1 w
  | First w, Created2 n f1 f2 => (λ x, Created2 n x f2) <$> step f1 w
  | Second w, Created2 n f1 f2 => (λ x, Created2 n f1 x) <$> step f2 w
  | Second w, Joined1 n r1 f2 => (λ x, Joined1 n r1 x) <$> step f2 w
  | _, _ => None
  end.

(** The Fibonacci numbers. *)
Fixpoint fibs (k : nat) : Z * Z := match k with O => (0, 1) | S k => let '(a, b) := fibs k in (b, a + b) end.
Definition fib_spec (n : Z) : Z := if n <=? 1 then n else (fibs (Z.to_nat n)).1.

Lemma fib_spec_rec n : 1 < n → fib_spec n = fib_spec (n - 1) + fib_spec (n - 2).
Proof.
  intros Hn. unfold fib_spec at 1. rewrite (proj2 (Z.leb_gt n 1)) by lia.
  replace (Z.to_nat n) with (S (S (Z.to_nat (n - 2)))) by lia. simpl.
  assert (E1 : fib_spec (n - 2) = (fibs (Z.to_nat (n - 2))).1).
  { unfold fib_spec. destruct (Z.leb_spec (n - 2) 1); [|done]. assert (n - 2 = 0 ∨ n - 2 = 1) as [->| ->] by lia; done. }
  assert (E2 : fib_spec (n - 1) = (fibs (S (Z.to_nat (n - 2)))).1).
  { unfold fib_spec. destruct (Z.leb_spec (n - 1) 1); [assert (n = 2) as -> by lia; done|].
    f_equal. f_equal. lia. }
  rewrite E1, E2. simpl. destruct (fibs (Z.to_nat (n - 2))) as [a b]. simpl. lia.
Qed.

(** [f] is a state of the computation of [fibonacci(n)]. *)
Fixpoint computes (n : Z) (f : fib) : Prop :=
  match f with
  | Start m => m = n
  | Created1 m f1 => m = n ∧ 1 < n ∧ computes (n - 1) f1
  | Created2 m f1 f2 => m = n ∧ 1 < n ∧ computes (n - 1) f1 ∧ computes (n - 2) f2
  | Joined1 m r1 f2 => m = n ∧ 1 < n ∧ r1 = fib_spec (n - 1) ∧ computes (n - 2) f2
  | Joined2 m r1 r2 => m = n ∧ 1 < n ∧ r1 = fib_spec (n - 1) ∧ r2 = fib_spec (n - 2)
  | Ended r => r = fib_spec n
  end.

Lemma fibs_pos k : 0 <= (fibs k).1 <= (fibs k).2 ∧ 1 <= (fibs k).2.
Proof. induction k as [|k IH]; simpl; [lia|]. destruct (fibs k) as [a b]. simpl in *. lia. Qed.

Lemma fibs_mono j k : (j <= k)%nat → (fibs j).1 <= (fibs k).1.
Proof. induction 1 as [|k _ IH]; [lia|]. pose proof (fibs_pos k). simpl. destruct (fibs k) as [a b]. simpl in *. lia. Qed.

(** The largest argument whose result is an [int]. *)
Lemma fib_fits n : 1 < n <= 46 → 0 <= fib_spec n <= INT_MAX.
Proof.
  intros Hn. unfold fib_spec. rewrite (proj2 (Z.leb_gt n 1)) by lia. pose proof (fibs_pos (Z.to_nat n)).
  split; [lia|]. transitivity (fibs 46).1; [apply fibs_mono; lia|]. apply Z.leb_le. reflexivity.
Qed.

Lemma add_int_ok n : 1 < n <= 46 → add_int (fib_spec (n - 1)) (fib_spec (n - 2)) = Some (fib_spec n).
Proof.
  intros Hn. pose proof (fib_fits n Hn). unfold add_int. rewrite <- fib_spec_rec by lia.
  assert (0 <= INT_MAX) by (apply Z.leb_le; reflexivity). by rewrite (proj2 (Z.leb_le _ _)), (proj2 (Z.leb_le _ _)) by lia.
Qed.

Lemma computes_step n f w f' : n <= 46 → computes n f → step f w = Some f' → computes n f'.
Proof.
  intros Hn. revert n f f' Hn. induction w as [|w IH|w IH]; intros n f f' Hn Hc Hs; simpl in Hs.
  - destruct f as [m|m f1|m f1 f2|m r1 f2|m r1 r2|r]; simpl in Hs, Hc; try done.
    + subst m. destruct (Z.leb_spec n 1); simplify_eq; simpl; [unfold fib_spec; by rewrite (proj2 (Z.leb_le n 1)) by lia|].
      done.
    + destruct Hc as (-> & ? & ?). simplify_eq. done.
    + destruct Hc as (-> & ? & H1 & ?). destruct f1; simplify_eq. done.
    + destruct Hc as (-> & ? & ? & H2). destruct f2; simplify_eq. done.
    + destruct Hc as (-> & ? & -> & ->). rewrite add_int_ok in Hs by lia. by injection Hs as <-.
  - destruct f as [m|m f1|m f1 f2|m r1 f2|m r1 r2|r]; try done; simpl in Hc.
    + apply fmap_Some in Hs as (x & Hx & ->). destruct Hc as (-> & ? & ?). split_and!; [done..|]. eapply IH; [|done|done]. lia.
    + apply fmap_Some in Hs as (x & Hx & ->). destruct Hc as (-> & ? & ? & ?). split_and!; [done|done| |done]. eapply IH; [|done|done]. lia.
  - destruct f as [m|m f1|m f1 f2|m r1 f2|m r1 r2|r]; try done; simpl in Hc.
    + apply fmap_Some in Hs as (x & Hx & ->). destruct Hc as (-> & ? & ? & ?). split_and!; [done..|]. eapply IH; [|done|done]. lia.
    + apply fmap_Some in Hs as (x & Hx & ->). destruct Hc as (-> & ? & ? & ?). split_and!; [done..|]. eapply IH; [|done|done]. lia.
Qed.

(** A fiber that has not ended can go on, or one that it waits for can. *)
Lemma computes_progress n f : n <= 46 → computes n f → (∃ r, f = Ended r) ∨ ∃ w, is_Some (step f w).
Proof.
  revert n. induction f as [m|m f1 IH1|m f1 IH1 f2 IH2|m r1 f2 IH2|m r1 r2|r]; intros n Hn Hc; simpl in Hc.
  - right. exists Self. simpl. eauto.
  - right. exists Self. simpl. eauto.
  - destruct Hc as (-> & ? & H1 & ?). right. destruct (IH1 (n - 1)) as [[r ->]|[w [x Hw]]]; [lia|done|exists Self; simpl; eauto|].
    exists (First w). simpl. rewrite Hw. simpl. eauto.
  - destruct Hc as (-> & ? & ? & H2). right. destruct (IH2 (n - 2)) as [[r ->]|[w [x Hw]]]; [lia|done|exists Self; simpl; eauto|].
    exists (Second w). simpl. rewrite Hw. simpl. eauto.
  - destruct Hc as (-> & ? & -> & ->). right. exists Self. simpl. rewrite add_int_ok by lia. simpl. eauto.
  - left. eauto.
Qed.

(** How many steps are left. *)
Fixpoint steps_of (fuel : nat) (n : Z) : Z :=
  match fuel with
  | O => 1
  | S fuel => if n <=? 1 then 1 else 5 + steps_of fuel (n - 1) + steps_of fuel (n - 2)
  end.
Definition steps (n : Z) : Z := steps_of (Z.to_nat n) n.

Lemma steps_of_pos fuel n : 1 <= steps_of fuel n.
Proof. revert n. induction fuel as [|fuel IH]; intros n; simpl; [lia|]. destruct (n <=? 1); [lia|]. pose proof (IH (n - 1)). pose proof (IH (n - 2)). lia. Qed.

Lemma steps_of_fuel f1 f2 n : (Z.to_nat n <= f1)%nat → (Z.to_nat n <= f2)%nat → steps_of f1 n = steps_of f2 n.
Proof.
  revert f2 n. induction f1 as [|f1 IH]; intros [|f2] n H1 H2; simpl; try done.
  - by rewrite (proj2 (Z.leb_le n 1)) by lia.
  - by rewrite (proj2 (Z.leb_le n 1)) by lia.
  - destruct (Z.leb_spec n 1); [done|]. rewrite (IH f2 (n - 1)), (IH f2 (n - 2)) by lia. done.
Qed.

Lemma steps_rec n : 1 < n → steps n = 5 + steps (n - 1) + steps (n - 2).
Proof.
  intros Hn. unfold steps at 1. replace (Z.to_nat n) with (S (Z.to_nat (n - 1))) by lia. simpl.
  rewrite (proj2 (Z.leb_gt n 1)) by lia. unfold steps. by rewrite (steps_of_fuel (Z.to_nat (n - 1)) (Z.to_nat (n - 2)) (n - 2)) by lia.
Qed.

Lemma steps_pos n : 1 <= steps n.
Proof. apply steps_of_pos. Qed.

Fixpoint remaining (f : fib) : Z :=
  match f with
  | Start n => steps n
  | Created1 n f1 => 4 + remaining f1 + steps (n - 2)
  | Created2 n f1 f2 => 3 + remaining f1 + remaining f2
  | Joined1 n r1 f2 => 2 + remaining f2
  | Joined2 n r1 r2 => 1
  | Ended r => 0
  end.

Lemma remaining_nonneg f : 0 <= remaining f.
Proof. induction f; simpl; try pose proof (steps_pos n); try pose proof (steps_pos (n - 2)); lia. Qed.

Lemma step_remaining f w f' : step f w = Some f' → remaining f' < remaining f.
Proof.
  revert f f'. induction w as [|w IH|w IH]; intros f f' Hs; simpl in Hs.
  - destruct f as [m|m f1|m f1 f2|m r1 f2|m r1 r2|r]; simpl in Hs; try done.
    + simplify_eq. destruct (Z.leb_spec m 1); simpl; [pose proof (steps_pos m); lia|]. rewrite (steps_rec m) by lia. lia.
    + simplify_eq. simpl. lia.
    + destruct f1; simplify_eq. simpl. lia.
    + destruct f2; simplify_eq. simpl. lia.
    + apply fmap_Some in Hs as (x & _ & ->). simpl. lia.
  - destruct f as [m|m f1|m f1 f2|m r1 f2|m r1 r2|r]; try done; apply fmap_Some in Hs as (x & Hx%IH & ->); simpl; lia.
  - destruct f as [m|m f1|m f1 f2|m r1 f2|m r1 r2|r]; try done; apply fmap_Some in Hs as (x & Hx%IH & ->); simpl; lia.
Qed.

Lemma run_remaining f ls f' : run step f ls = Some f' → Z.of_nat (length ls) <= remaining f - remaining f'.
Proof.
  revert f. induction ls as [|l ls IH]; intros f; simpl; [intros [= <-]; lia|].
  destruct (step f l) as [f1|] eqn:E; simpl; [|done]. intros H%IH. apply step_remaining in E. lia.
Qed.

(** In every order in which the fibers run, the program computes the Fibonacci number: no execution has more than [steps n] steps,
    one that stops has ended with the result, and neither an addition overflows nor a join waits for ever, up to 46. *)
Theorem fibonacci_correct n ls f :
  n <= 46 → run step (Start n) ls = Some f →
  Z.of_nat (length ls) <= steps n ∧ ((∀ w, step f w = None) → f = Ended (fib_spec n)).
Proof.
  intros Hn Hr. pose proof (run_remaining _ _ _ Hr) as Hl. pose proof (remaining_nonneg f). simpl in Hl. split; [lia|]. intros Hstop.
  assert (Hc : computes n f).
  { assert (Hreach : reach step (Start n) f) by (by eapply run_reach; [constructor|]).
    revert Hreach. apply (reach_invariant step (computes n)); [done|]. intros s l s' Hs. by apply computes_step. }
  destruct (computes_progress n f Hn Hc) as [[r ->]|[w [x Hw]]]; [by simpl in Hc; subst|]. by rewrite Hstop in Hw.
Qed.

Definition ex_order : list who := [Self; First Self; Self; Second Self; First Self; First (Second Self); First (First Self); First Self;
  First Self; First Self; Self; Self; Self].

Lemma fibonacci_correct_witness : ∃ f, run step (Start 3) ex_order = Some f ∧ f = Ended 2.
Proof.
  assert (H : ∃ f, run step (Start 3) ex_order = Some f ∧ ∀ w, step f w = None).
  { eexists. split; [vm_compute; reflexivity|]. by intros []. }
  destruct H as (f & H1 & H2). exists f. split; [exact H1|].
  destruct (fibonacci_correct 3 ex_order f) as [_ H]; [lia|exact H1|]. rewrite (H H2). reflexivity.
Defined.

(** What the program prints. *)
Example fibonacci_20 : fib_spec 20 = 6765.
Proof. reflexivity. Qed.
End Fibonacci.

(** ** Handing over data with a condition variable *)

Module CondVar.

Inductive mpc :=
| MData         (* [data = "example"] *)
| MLock1 | MReady | MUnlock1 | MNotify
| MLock2 | MCheck | MWaiting | MWoken | MUnlock2
| MPrint | MEnded.

Inductive wpc :=
| WLock | WCheck | WWaiting | WWoken
| WData         (* [data += " after processing"] *)
| WProcessed | WUnlock | WNotify | WEnded.

#[export] Instance mpc_eq_dec : EqDecision mpc.
Proof. solve_decision. Defined.
#[export] Instance wpc_eq_dec : EqDecision wpc.
Proof. solve_decision. Defined.

Record st := mk_st {
  locked : bool;               (* the mutex [m] *)
  ready : bool; processed : bool; data : string; printed : option string;
  m_pc : mpc; w_pc : wpc;
}.

#[export] Instance st_eq_dec : EqDecision st.
Proof. solve_decision. Defined.

Definition set_m (s : st) (b : bool) (p : mpc) : st := mk_st b (ready s) (processed s) (data s) (printed s) p (w_pc s).
Definition set_w (s : st) (b : bool) (p : wpc) : st := mk_st b (ready s) (processed s) (data s) (printed s) (m_pc s) p.

(** Taking the mutex waits until it is free. *)
Definition m_lock (s : st) (p : mpc) : option st := if locked s then None else Some (set_m s true p).
Definition w_lock (s : st) (p : wpc) : option st := if locked s then None else Some (set_w s true p).

(** [cv.notify_one()]: one of the fibers that wait is woken up, [manager] says which if both do. *)
Definition notify_one (s : st) (manager : bool) : st :=
  let mw := bool_decide (m_pc s = MWaiting) in
  let ww := bool_decide (w_pc s = WWaiting) in
  if mw && (manager || negb ww) then set_m s (locked s) MWoken
  else if ww then set_w s (locked s) WWoken
  else s.

(** [manager]. A wait releases the mutex; a fiber that was woken up takes it again and looks at the predicate again. *)
Definition manager (s : st) (choice : bool) : option st :=
  match m_pc s with
  | MData => Some (mk_st (locked s) (ready s) (processed s) "example" (printed s) MLock1 (w_pc s))
  | MLock1 => m_lock s MReady
  | MReady => Some (mk_st (locked s) true (processed s) (data s) (printed s) MUnlock1 (w_pc s))
  | MUnlock1 => Some (set_m s false MNotify)
  | MNotify => let s := notify_one s choice in Some (set_m s (locked s) MLock2)
  | MLock2 => m_lock s MCheck
  | MCheck => Some (if processed s then set_m s true MUnlock2 else set_m s false MWaiting)
  | MWaiting => None
  | MWoken => m_lock s MCheck
  | MUnlock2 => Some (set_m s false MPrint)
  | MPrint => Some (mk_st (locked s) (ready s) (processed s) (data s) (Some (data s)) MEnded (w_pc s))
  | MEnded => None
  end.

(** [worker]. *)
Definition worker (s : st) (choice : bool) : option st :=
  match w_pc s with
  | WLock => w_lock s WCheck
  | WCheck => Some (if ready s then set_w s true WData else set_w s false WWaiting)
  | WWaiting => None
  | WWoken => w_lock s WCheck
  | WData => Some (mk_st (locked s) (ready s) (processed s) (String.append (data s) " after processing") (printed s) (m_pc s) WProcessed)
  | WProcessed => Some (mk_st (locked s) (ready s) true (data s) (printed s) (m_pc s) WUnlock)
  | WUnlock => Some (set_w s false WNotify)
  | WNotify => let s := notify_one s choice in Some (set_w s (locked s) WEnded)
  | WEnded => None
  end.

Inductive label := LManager (choice : bool) | LWorker (choice : bool) | LSpurious (manager : bool).

(** A fiber may also return from a wait without having been notified. *)
Definition step (s : st) (l : label) : option st :=
  match l with
  | LManager c => manager s c
  | LWorker c => worker s c
  | LSpurious true => if decide (m_pc s = MWaiting) then Some (set_m s (locked s) MWoken) else None
  | LSpurious false => if decide (w_pc s = WWaiting) then Some (set_w s (locked s) WWoken) else None
  end.

Definition init : st := mk_st false false false "" None MData WLock.

(** ** Exploring the states *)

Definition labels : list label :=
  [LManager true; LManager false; LWorker true; LWorker false; LSpurious true; LSpurious false].

Lemma labels_complete l : l ∈ labels.
Proof. destruct l as [[]|[]|[]]; unfold labels; set_solver. Qed.

Definition next (ls : list label) (s : st) : list st := omap (step s) ls.

(** The states that can be reached from [todo], next to those in [seen]. *)
Fixpoint explore (fuel : nat) (seen todo : list st) : list st :=
  match fuel, todo with
  | S fuel, s :: todo => if decide (s ∈ seen) then explore fuel seen todo else explore fuel (s :: seen) (next labels s ++ todo)
  | _, _ => seen
  end.

Definition states : list st := explore 2000 [] [init].

Definition closed (l : list st) : bool := forallb (λ s, forallb (λ s', bool_decide (s' ∈ l)) (next labels s)) l.

Lemma closed_reach l s : init ∈ l → closed l = true → reach step init s → s ∈ l.
Proof.
  intros H0 Hc. apply (reach_invariant step (.∈ l)); [done|]. intros s1 lab s2 Hin Hs. unfold closed in Hc.
  rewrite forallb_forall in Hc. specialize (Hc s1 (proj1 (list_elem_of_In _ _) Hin)). rewrite forallb_forall in Hc.
  specialize (Hc s2). apply bool_decide_eq_true in Hc; [done|]. apply list_elem_of_In. unfold next. apply list_elem_of_omap.
  exists lab. split; [apply labels_complete|done].
Qed.

Lemma states_closed : closed states = true ∧ bool_decide (init ∈ states) = true.
Proof. split; vm_compute; reflexivity. Qed.

(** A property that holds for all the states that were found holds for every state that can be reached. *)
Lemma states_forall (P : st → bool) s : forallb P states = true → reach step init s → P s = true.
Proof.
  intros HP Hr. rewrite forallb_forall in HP. apply HP, list_elem_of_In.
  destruct states_closed as [Hc H0%bool_decide_eq_true]. by apply (closed_reach states s H0).
Qed.

(** *** Properties *)

Definition ended (s : st) : bool := bool_decide (m_pc s = MEnded) && bool_decide (w_pc s = WEnded).

(** A step without a spurious wake-up. *)
Definition genuine (l : label) : bool := match l with LSpurious _ => false | _ => true end.
Definition enabled (s : st) : bool := existsb (λ l, genuine l && bool_decide (is_Some (step s l))) labels.

(** Both fibers are about to access [data]. *)
Definition race (s : st) : bool := bool_decide (m_pc s = MData ∨ m_pc s = MPrint) && bool_decide (w_pc s = WData).

Definition result_ok (s : st) : bool := implb (ended s) (bool_decide (printed s = Some "example after processing")).

(** Every execution from [s] without spurious wake-ups has at most [n] steps. *)
Fixpoint ends_within (n : nat) (ss : list st) : bool :=
  match ss, n with
  | [], _ => true
  | _, O => false
  | _, S n => ends_within n (remove_dups (concat (map (next (filter (λ l, genuine l = true) labels)) ss)))
  end.

Lemma ends_within_run n ss s ls s' : s ∈ ss → ends_within n ss = true → forallb genuine ls = true → run step s ls = Some s' →
  (length ls < n)%nat.
Proof.
  revert n ss s. induction ls as [|l ls IH]; intros n ss s Hin He Hg Hr; simpl in Hg, Hr.
  - destruct ss as [|x ss]; [by apply not_elem_of_nil in Hin|]. destruct n; [done|simpl; lia].
  - apply andb_prop in Hg as [Hl Hg]. destruct (step s l) as [s1|] eqn:Es; simpl in Hr; [|done].
    destruct ss as [|x ss]; [by apply not_elem_of_nil in Hin|]. destruct n as [|n]; [done|]. simpl. apply -> Nat.succ_lt_mono.
    eapply (IH n _ s1); [|exact He|done|done]. apply elem_of_remove_dups. apply list_elem_of_In, in_concat.
    exists (next (filter (λ l, genuine l = true) labels) s). split; [by apply in_map, list_elem_of_In|].
    apply list_elem_of_In, list_elem_of_omap. exists l. split; [|done]. apply list_elem_of_filter. split; [done|apply labels_complete].
Qed.

(** The two fibers hand the data over: in every execution, also with spurious wake-ups, they do not wait for each other for ever, never
    access [data] at the same time, and in the end the manager has printed the processed data. Without spurious wake-ups an execution has
    at most 19 steps. *)
Theorem condvar_hands_over ls s :
  run step init ls = Some s →
  (ended s = false → ∃ l s', genuine l = true ∧ step s l = Some s') ∧
  (ended s = true → printed s = Some "example after processing") ∧ race s = false ∧
  (forallb genuine ls = true → (length ls <= 19)%nat).
Proof.
  intros Hrun. assert (Hr : reach step init s) by (by eapply run_reach; [constructor|]).
  assert (H1 : implb (negb (ended s)) (enabled s) = true) by (apply (states_forall (λ s, implb (negb (ended s)) (enabled s))); [vm_compute; reflexivity|done]).
  assert (H2 : result_ok s = true) by (apply states_forall; [vm_compute; reflexivity|done]).
  assert (H3 : negb (race s) = true) by (apply (states_forall (λ s, negb (race s))); [vm_compute; reflexivity|done]).
  split_and!.
  - intros He. rewrite He in H1. simpl in H1. unfold enabled in H1. apply existsb_exists in H1 as (l & _ & [Hg Hs]%andb_prop).
    apply bool_decide_eq_true in Hs as [s' Hs]. eauto.
  - intros He. unfold result_ok in H2. rewrite He in H2. simpl in H2. by apply bool_decide_eq_true in H2.
  - by apply negb_true_iff.
  - intros Hg. assert (Hl : (length ls < 20)%nat); [|lia].
    eapply (ends_within_run 20 [init] init); [by left|vm_compute; reflexivity|done|done].
Qed.
End CondVar.
